(* ===== verification/_CoqProject ===== *)
-Q . S2P
Prelude.v
Parsing.v
Timestamps.v
Values.v
Outputs.v
Bindings.v
HectorPlan.v
Sessions.v
Scheduling.v
Weighted.v
Streams.v
Lookups.v
LookupTheorems.v
LookupRuns.v
Dataflow.v
Domains.v
DomainTheorems.v
ScopedDomains.v
Relations.v
Extenders.v
ExtenderTheorems.v
RelationTheorems.v
Queries.v
PlanOps.v
JoinTheorems.v
StageTheorems.v
FilterTransform.v
Aggregates.v
StageRuns.v
Pulls.v
DeltaJoin.v
DeltaExtenders.v
DeltaPipelines.v
DeltaTheorems.v
Plans.v
Assignments.v
PlanReference.v
PlanStages.v
PlanSemantics.v
DeltaPlans.v
PlanRuns.v
Rules.v
RuleTheorems.v
RuleSemantics.v
RuleRuns.v
LastWriteWins.v
Server.v
ServerTheorems.v
EventLoop.v
LoopTheorems.v
LoopRuns.v
DeltaRuns.v
AssocIn.v
AssocInTheorems.v
SinkTheorems.v
SinkRuns.v
Networking.v
NetworkTheorems.v
Worker.v
WorkerTheorems.v
TickTheorems.v
WorkerRuns.v
Options.v
CsvSource.v
JsonSource.v
Logging.v
LogSources.v
Sources.v
CsvSink.v
SetAggregates.v
GraphQl.v
GraphQlTheorems.v
GraphQlDerive.v
DeriveTheorems.v
Delivery.v
Client.v
FlatGraphQl.v
FlatSnapshots.v
FlatTheorems.v
FlatRuns.v
