(* ===== verification/Prelude.v ===== *)
(** * Declarative Dataflow: a verification library

    Declarative Dataflow is a reactive query engine on top of timely and
    differential dataflow.  Clients register rules (query plans), create and
    feed attributes, and declare interest in rules; every worker then builds a
    dataflow that keeps the answers up to date.  This library models its core
    (the Rust crates under src/src and src/server) as executable definitions, and
    proves what makes it correct.

    ** The parts and how they interact

    A command of the server's event loop carries requests of a client.  Requests
    change the server's state: the domain, which owns the attributes (an input
    session for each, and six indices: count, propose and validate, forward and
    reverse), the rules, the interests, and the shutdown handles of dataflows.
    Interest in a rule collects the rules it depends on, gives each a recursive
    variable and implements their plans.  A plan is implemented by its stages
    over the relations of its children; a query of several bindings by delta
    pipelines.  Transactions go to the sessions, and advancing the domain moves
    the sessions and then the traces behind them.

    Around this core, a worker's loop polls its sockets, turns messages into
    commands for a sequencer that all workers share, handles the commands that the
    sequencer returns, steps the dataflows and delivers what they send: changes of
    a result, or what a sink makes of them.  Sources feed attributes from files
    and from the logs of the dataflow system itself.

    ** The files, bottom up

    - [Prelude]: panics and results as values, machine integers, total orders,
      lists, shared automation.
    - [Parsing]: parsing numbers, as the standard library does.
    - [Timestamps] (timestamp/): [Time], rewinding, coarsening, [Pair], [AltNeu].
    - [Values] (lib.rs): values and their order, errors, shutdown handles, the
      configuration of attributes.  [Outputs] (lib.rs): JSON values and the outputs
      sent to clients.  [Bindings] (binding/mod.rs).
    - [HectorPlan] (plan/hector.rs): directions, source conflicts, [plan_order].
    - [Sessions] (domain/unordered_session.rs): the session, as a record of its
      time, capability, buffer and handle; one function for each method.
    - [Scheduling] (scheduling/): the two schedulers over a heap interface.
    - [Weighted], [Streams]: update lists, as of one time and with their times.
    - [Lookups], [LookupTheorems], [LookupRuns] (plan/hector.rs): the operators
      behind [CollectionExtender], by activations.
    - [Dataflow]: the interface to differential dataflow, and a model of it.
    - [Domains], [DomainTheorems], [ScopedDomains] (domain/mod.rs).
    - [Relations], [RelationTheorems] (lib.rs): collections and attributes as
      relations over variables.  [Queries]: the meaning of a list of bindings.
    - [PlanOps], [JoinTheorems], [StageTheorems], [FilterTransform], [StageRuns]
      (plan/project.rs, union.rs, join.rs, antijoin.rs, filter.rs, transform.rs);
      [Aggregates] (plan/aggregate_neu.rs), [SetAggregates] (plan/aggregate.rs, the
      stage of builds with set semantics); [Pulls] (plan/pull.rs).
    - [Extenders], [ExtenderTheorems], [DeltaJoin], [DeltaExtenders],
      [DeltaPipelines], [DeltaTheorems], [DeltaRuns] (plan/hector.rs): prefix
      extenders, [extend], and the delta pipelines with their import caches.
    - [Plans] (plan/mod.rs): plans and dependencies.  [Assignments], [PlanReference],
      [PlanStages], [PlanSemantics], [DeltaPlans], [PlanRuns]: their reference
      semantics, and that stages and plans compute it.
    - [Rules], [RuleTheorems], [RuleSemantics], [RuleRuns] (lib.rs): collecting
      rules, [implement] and [implement_neu].
    - [LastWriteWins] (operators/last_write_wins.rs).
    - [Server], [ServerTheorems] (server/mod.rs); [EventLoop], [LoopTheorems],
      [LoopRuns] (src/server/src/main.rs): the handling of commands.
    - [Options] (src/server/src/main.rs): command line options.
    - [Networking], [NetworkTheorems] (src/server/src/networking.rs): polling,
      connections, the delivery of outputs.
    - [Worker], [WorkerTheorems], [TickTheorems], [WorkerRuns]
      (src/server/src/main.rs): an iteration of the loop, and workers around the
      sequencer as a step relation.
    - [Delivery] (src/server/src/main.rs, sinks/mod.rs): granularity, results,
      kinds of sinks.  [AssocIn], [AssocInTheorems], [SinkTheorems], [SinkRuns]
      (sinks/assoc_in.rs): the sink of nested maps.
    - [CsvSource] (sources/csv_file.rs), [JsonSource] (sources/json_file.rs),
      [Logging] (logging.rs, and the loggers of server/mod.rs and of
      src/server/src/main.rs), [LogSources] (sources/timely_logging.rs,
      sources/differential_logging.rs, sources/declarative_logging.rs), [Sources]
      (sources/mod.rs), [CsvSink] (sinks/csv_file.rs).
    - [Client] (src/cli/src/main.rs): the command line client, and its requests in the
      server.
    - [GraphQl], [GraphQlTheorems] (plan/graphql.rs), [GraphQlDerive],
      [DeriveTheorems] (derive/graphql.rs): queries as pull levels and as domains.
      [FlatGraphQl], [FlatSnapshots], [FlatTheorems], [FlatRuns]
      (plan/graphql_v2.rs, plan/pull_v2.rs): queries as snapshots of entities, a
      variant that is not in the module tree.

    The files named Runs, and the last sections of some others, evaluate the
    definitions on concrete inputs and apply the theorems there.

    ** How the code is represented

    A method on [&mut self] is a function from and to the state.  [outcome] says
    whether a computation panics; a [Result] is a value in it.  Panics of a
    closure given to an operator happen when the dataflow runs ([run]), the
    others when it is built.  Hash maps are finite maps, observed by lookup, and
    association lists where the order of iteration shows.  Arithmetic wraps, as
    in release builds.  The features are the default ones, multiset semantics and [u64]
    times (other time types where a component is generic in them); the stage for
    set semantics and the two uses of GraphQL are modelled apart from the rest.

    What the repository calls but does not contain is an interface, a class of
    its operations and of the documented behaviour relied on: [Differential],
    [Traces], [SetIteration] (collections, traces, iterative scopes), [Timely]
    (frontiers), [Cursors] (cursors of a trace), [BinaryHeap], [ExternValues]
    (rationals and uuids), [Slab] and [WebSocket] (connections), [CsvRecords] and
    [CsvWriter] (the csv crate), [LogRegistry] (loggers), [TokenIteration],
    [PathIteration] and [KeyIteration] (orders of iteration), [Consolidation].  What
    the operating system reports, clock readings, the contents of files and parsers
    of JSON and GraphQL are arguments.  [Observed] relates the two views of
    differential dataflow, collections at a time and streams.  Every class has a
    model among the definitions, in which the theorems are applied.

    ** What is proved

    - Queries: plans, transformations and aggregations among them, compute their
      reference semantics ([plan_implements_reference]); the delta pipelines accumulate, at every
      time, to exactly the answers of the query ([delta_join_spec]) and so keep
      the interface plans rely on ([pipelines_join]), as long as an attribute that
      checks in reverse what another binding proposes holds each pair with its
      mirror image: the index the code builds for that does not swap the pairs, and
      other queries lose answers ([triangle_missed]); recursive rules compute
      their naive evaluation, round by round, and its fixed point
      ([implement_rounds], [implement_fixpoint]).
    - Operators: lookups are independent of how activations are scheduled
      ([lookup_schedule_independent]); last-write-wins keeps the value of the
      latest update, and panics exactly at a retraction of nothing
      ([last_write_wins_spec]); joins, antijoins, unions, filters,
      transformations and aggregates compute what they should on assignments.
    - State: domains keep attributes, indices and sessions consistent
      ([domain_index_invariant], [scoped_indices_spec]), time does not run
      backwards ([advance_total_order]), traces follow their slack
      ([advance_traces_spec]); sessions refine a log ([session_refines_log]); the
      server's invariant survives every command, and the automatic advance
      succeeds ([handle_command_ok]).
    - Workers: the I/O step uses no connection that is gone and leaves everything
      registered ([IO_step_ok]); outputs reach the interested clients, in order
      ([io_results_spec]); an iteration forwards all it finds
      ([iteration_forwards]); workers that handled the same commands agree on the
      clients' interests ([workers_agree]); one tick is on its way at any time
      ([one_tick_in_flight]).
    - Sources and sinks: a file is read to its end, each record once, by a source
      that asks to be activated again until then ([csv_source_delivers]), and, where
      workers share a file, by one of them
      ([json_file_divided]); a file is written in the order of times, however updates
      arrive ([csv_sink_sorted]); reported sizes add up ([differential_sizes_add_up]);
      the maps of the sink track the result whatever the schedule
      ([sink_tracks_result], [sink_schedule_independent]); at a granularity clients
      know the result at its multiples ([delivered_at_bounds]).
    - GraphQL: the levels of a query pull every selected attribute once, from the
      entities its path leads to ([graphql_paths_spec]); a derivation is defined
      for one attribute, and holds its pairs ([derive_one_attribute],
      [derived_contents]); the snapshots of the flat variant do not depend on the
      schedule ([flat_schedule_independent]) and have every required attribute
      ([flat_snapshots_complete]).
    - Termination: [plan_order_complete], [collect_dependencies_spec],
      [realtime_drain_spec].
    - The client: the requests of every subcommand reach the sequencer, or it panics
      for want of any ([client_requests_arrive]), and a
      GraphQL query needs the optimizer off ([gql_with_optimizer_panics]).
    - Errors: which requests fail, and with what; where a panic takes a worker
      down is shown on concrete runs.

    ** Fuel

    [plan_order] carries fuel because its loop need not end: in a connected query
    as many rounds as there are variables are enough ([plan_order_complete]), and
    [delta_join] passes its fuel on; [query_ok] includes that it suffices.
    [collect_dependencies] is given the number of requested names and of rules,
    [collect_dependencies_spec] proves it enough; draining the real-time
    scheduler takes at most one call more than there are queued activators, and
    draining the domain events of a worker one more than there are events.  A
    source's batch is bounded by its own fuel, which is part of the program.

    ** Not modelled

    - The sequencer itself: timely's, taken to give all workers the same commands
      in the same order, which is how it enters the step relation of [Worker].
    - The operating system's side of sockets and files; what is logged with the log
      crate; the experiments and the examples, which are programs around the library.
    - Replaying the event streams of this and of other processes.
    - [from_args] of server/mod.rs, behind a feature with which it does not compile.
    - The scheduling of operators by timely, apart from the lookup operators'
      activations, and the compaction of traces during lookups, which a request
      that is still waiting can lose ([compacted_request]).
    - Pull expressions and aggregations by several functions have theorems of their
      own, but are not part of the plans' reference semantics. *)
From Stdlib Require Import ZArith NArith Lia Ascii String Sorting.Sorted.
From stdpp Require Import base list gmap strings numbers sorting.

#[export] Set Default Goal Selector "!".

(** ** Panics as values

    A Rust computation that may panic returns an [outcome]; [Panic] carries
    the message.  A [Result] is an ordinary Rust value, so a method that takes
    [&mut self] and returns [Result<(), Error>] becomes a function to
    [outcome (state * Result unit E)]. *)

Inductive outcome (A : Type) : Type :=
| Ret (a : A)
| Panic (msg : string).
Arguments Ret {A} a.
Arguments Panic {A} msg.

Inductive Result (A E : Type) : Type :=
| Ok (a : A)
| Err (e : E).
Arguments Ok {A E} a.
Arguments Err {A E} e.

#[export] Instance outcome_ret : MRet outcome := @Ret.
#[export] Instance outcome_bind : MBind outcome := λ A B f m,
  match m with Ret a => f a | Panic msg => Panic msg end.
#[export] Instance outcome_fmap : FMap outcome := λ A B f m,
  match m with Ret a => Ret (f a) | Panic msg => Panic msg end.

(** The same bind with the computation first, so that its type is known when
    the continuation is elaborated, and its notation. *)
Definition obind {A B} (m : outcome A) (f : A → outcome B) : outcome B :=
  match m with Ret a => f a | Panic msg => Panic msg end.

Declare Scope outcome_scope.
Delimit Scope outcome_scope with outcome.
Notation "'let!' x := m 'in' k" := (obind m (λ x, k))
  (at level 200, x name, m at level 100, k at level 200, right associativity,
   format "'[v' 'let!'  x  :=  m  'in' '/' k ']'") : outcome_scope.
Notation "'let!' ' p := m 'in' k" := (obind m (λ x, match x with p => k end))
  (at level 200, p strict pattern, m at level 100, k at level 200, right associativity,
   format "'[v' 'let!'  ' p  :=  m  'in' '/' k ']'") : outcome_scope.
#[export] Set Warnings "-notation-overridden".
Open Scope outcome_scope.

Definition is_panic {A} (m : outcome A) : bool :=
  match m with Ret _ => false | Panic _ => true end.

(** [Option::expect] / [Option::unwrap]. *)
Definition expect {A} (msg : string) (o : option A) : outcome A :=
  match o with Some a => Ret a | None => Panic msg end.

(** [assert!]. *)
Definition assert_that (msg : string) (b : bool) : outcome unit :=
  if b then Ret tt else Panic msg.

(** [Iterator::map] with a closure that may panic, evaluated left to right. *)
Definition mapM_outcome {A B} (f : A → outcome B) : list A → outcome (list B) :=
  fix go l :=
    match l with
    | [] => Ret []
    | x :: l' => y ← f x; ys ← go l'; Ret (y :: ys)
    end.

Lemma mapM_outcome_cons {A B} (f : A → outcome B) x l :
  mapM_outcome f (x :: l) = obind (f x) (λ y, obind (mapM_outcome f l) (λ ys, Ret (y :: ys))).
Proof. done. Qed.

Lemma bind_Ret {A B} (m : outcome A) (f : A → outcome B) b :
  m ≫= f = Ret b ↔ ∃ a, m = Ret a ∧ f a = Ret b.
Proof. destruct m; simpl; naive_solver. Qed.

Lemma obind_Ret {A B} (m : outcome A) (f : A → outcome B) b :
  obind m f = Ret b ↔ ∃ a, m = Ret a ∧ f a = Ret b.
Proof. destruct m; simpl; naive_solver. Qed.

Lemma Ret_inj {A} (a b : A) : Ret a = Ret b → a = b.
Proof. by intros [= ->]. Qed.

Lemma fmap_Ret {A B} (m : outcome A) (f : A → B) b :
  f <$> m = Ret b ↔ ∃ a, m = Ret a ∧ b = f a.
Proof. destruct m; simpl; naive_solver. Qed.

Lemma expect_Ret {A} msg (o : option A) a : expect msg o = Ret a ↔ o = Some a.
Proof. destruct o; simpl; naive_solver. Qed.

Lemma assert_Ret msg b u : assert_that msg b = Ret u ↔ b = true.
Proof. destruct b, u; simpl; naive_solver. Qed.

Lemma mapM_outcome_Ret {A B} (f : A → outcome B) l k :
  mapM_outcome f l = Ret k ↔ Forall2 (λ x y, f x = Ret y) l k.
Proof.
  revert k; induction l as [|x l IH]; intros k; simpl.
  - split; [intros [= <-]; constructor | inversion 1; done].
  - rewrite bind_Ret. setoid_rewrite bind_Ret. setoid_rewrite IH. split.
    + intros (y & Hy & ys & Hys & [= <-]). by constructor.
    + inversion 1; subst. eauto 10.
Qed.

Lemma mapM_outcome_exists {A B} (f : A → outcome B) (Q : nat → B → Prop) l :
  (∀ i x, l !! i = Some x → ∃ y, f x = Ret y ∧ Q i y) →
  ∃ k, mapM_outcome f l = Ret k ∧ length k = length l ∧ ∀ i y, k !! i = Some y → Q i y.
Proof.
  revert Q. induction l as [|x l IH]; intros Q Hf; [by exists []|].
  destruct (Hf 0 x) as (y & Hy & Hq); [done|].
  destruct (IH (λ i, Q (S i))) as (k & Hk & Hlen & Hqs); [intros i z Hz; by apply (Hf (S i))|].
  exists (y :: k). rewrite mapM_outcome_cons, Hy. simpl. rewrite Hk. simpl. split; [done|].
  split; [by rewrite Hlen|]. intros [|i] z Hz; simplify_eq/=; auto.
Qed.

Lemma mapM_outcome_pure {A B} (f : A → outcome B) (g : A → B) l :
  (∀ x, x ∈ l → f x = Ret (g x)) → mapM_outcome f l = Ret (g <$> l).
Proof.
  intros Hfg. apply mapM_outcome_Ret. induction l as [|x l IH]; constructor.
  - apply Hfg. set_solver.
  - apply IH. set_solver.
Qed.

(** Inversion of every successful bind in the context. *)
Ltac outcome_inv :=
  repeat match goal with
  | H : _ ≫= _ = Ret _ |- _ => apply bind_Ret in H as (? & ? & ?)
  | H : obind _ _ = Ret _ |- _ => apply obind_Ret in H as (? & ? & ?)
  | H : _ <$> _ = Ret _ |- _ => apply fmap_Ret in H as (? & ? & ?)
  | H : mret _ = Ret _ |- _ => injection H as H
  | H : Ret _ = Ret _ |- _ => injection H as H
  | H : Panic _ = Ret _ |- _ => discriminate H
  | H : expect _ _ = Ret _ |- _ => apply expect_Ret in H
  | H : assert_that _ _ = Ret _ |- _ => apply assert_Ret in H
  end; simplify_eq/=.

(** Close an equation between closed terms by evaluating both sides. *)
Ltac vm_refl := match goal with |- ?a = ?b => vm_cast_no_check (@eq_refl _ b) end.

(** ** Machine integers

    [i64], [isize], [u64], [u32] values are integers; the arithmetic of the
    release profile ([debug-assertions = false] in Cargo.toml) wraps. *)

Definition wrap_u (bits : Z) (z : Z) : Z := z `mod` 2 ^ bits.
Definition wrap_i (bits : Z) (z : Z) : Z :=
  (z + 2 ^ (bits - 1)) `mod` 2 ^ bits - 2 ^ (bits - 1).
Definition in_i64 (z : Z) : Prop := (- 2 ^ 63 ≤ z < 2 ^ 63)%Z.

Lemma wrap_i64_id z : in_i64 z → wrap_i 64 z = z.
Proof. unfold in_i64, wrap_i. intros. rewrite Z.mod_small; lia. Qed.

Lemma wrap_i64_range z : in_i64 (wrap_i 64 z).
Proof.
  unfold in_i64, wrap_i.
  pose proof (Z.mod_pos_bound (z + 2 ^ (64 - 1)) (2 ^ 64)). lia.
Qed.

Lemma wrap_i64_mod (a b : Z) :
  (a `mod` 2 ^ 64 = b `mod` 2 ^ 64)%Z → wrap_i 64 a = wrap_i 64 b.
Proof.
  intros H. unfold wrap_i. f_equal.
  rewrite (Zplus_mod a), (Zplus_mod b), H. done.
Qed.

Lemma wrap_i64_add_l a b : wrap_i 64 (wrap_i 64 a + b) = wrap_i 64 (a + b).
Proof.
  apply wrap_i64_mod. unfold wrap_i.
  rewrite <- (Z.mod_add (_ + b) 0) by lia.
  replace ((a + 2 ^ (64 - 1)) `mod` 2 ^ 64 - 2 ^ (64 - 1) + b + 0 * 2 ^ 64)%Z
    with ((a + 2 ^ (64 - 1)) `mod` 2 ^ 64 + (b - 2 ^ (64 - 1)))%Z by lia.
  rewrite Zplus_mod_idemp_l. f_equal. lia.
Qed.

(** ** Total orders ([std::cmp::Ord]) *)

Class Ord (A : Type) := cmp : A → A → comparison.

Class TotalOrd (A : Type) `{Ord A} := {
  cmp_eq : ∀ x y : A, cmp x y = Eq ↔ x = y;
  cmp_antisym : ∀ x y : A, cmp y x = CompOpp (cmp x y);
  cmp_trans : ∀ x y z : A, cmp x y = Lt → cmp y z = Lt → cmp x z = Lt
}.

Definition cmp_le `{Ord A} (x y : A) : bool :=
  match cmp x y with Gt => false | _ => true end.
Definition cmp_lt `{Ord A} (x y : A) : bool :=
  match cmp x y with Lt => true | _ => false end.

#[export] Instance Ord_Z : Ord Z := Z.compare.
#[export] Instance Ord_N : Ord N := N.compare.
#[export] Instance Ord_bool : Ord bool := λ a b,
  match a, b with false, true => Lt | true, false => Gt | _, _ => Eq end.
#[export] Instance Ord_prod `{Ord A, Ord B} : Ord (A * B) := λ p q,
  match cmp p.1 q.1 with Eq => cmp p.2 q.2 | c => c end.
#[export] Instance Ord_option `{Ord A} : Ord (option A) := λ a b,
  match a, b with
  | None, None => Eq | None, Some _ => Lt | Some _, None => Gt
  | Some x, Some y => cmp x y
  end.

Fixpoint list_cmp {A} (c : A → A → comparison) (l k : list A) : comparison :=
  match l, k with
  | [], [] => Eq | [], _ :: _ => Lt | _ :: _, [] => Gt
  | x :: l', y :: k' => match c x y with Eq => list_cmp c l' k' | r => r end
  end.
#[export] Instance Ord_list `{Ord A} : Ord (list A) := list_cmp cmp.

(** [str] is ordered bytewise. *)
Definition string_bytes (s : string) : list N :=
  N_of_ascii <$> list_ascii_of_string s.
#[export] Instance Ord_string : Ord string := λ s t,
  cmp (string_bytes s) (string_bytes t).

(** A comparison through an injection into an ordered type. *)
Definition cmp_on {A B} `{Ord B} (f : A → B) : Ord A := λ x y, cmp (f x) (f y).

Lemma TotalOrd_inj {A B} (OA : Ord A) `{TotalOrd B} (f : A → B) `{!Inj (=) (=) f} :
  (∀ x y, @cmp A OA x y = cmp (f x) (f y)) → TotalOrd A.
Proof.
  intros Hf. split; intros *; rewrite !Hf.
  - rewrite cmp_eq. split; [apply (inj f) | congruence].
  - apply cmp_antisym.
  - apply cmp_trans.
Qed.

#[export] Instance TotalOrd_Z : TotalOrd Z.
Proof.
  split; unfold cmp, Ord_Z; intros *.
  - apply Z.compare_eq_iff.
  - apply Z.compare_antisym.
  - rewrite !Z.compare_lt_iff. lia.
Qed.

#[export] Instance TotalOrd_N : TotalOrd N.
Proof.
  split; unfold cmp, Ord_N; intros *.
  - apply N.compare_eq_iff.
  - apply N.compare_antisym.
  - rewrite !N.compare_lt_iff. lia.
Qed.

#[export] Instance TotalOrd_bool : TotalOrd bool.
Proof.
  split; [intros [] []|intros [] []|intros [] [] []]; cbv; naive_solver.
Qed.

Section total_ord.
Context {A : Type} `{TA : TotalOrd A}.
Implicit Types x y z : A.

Lemma cmp_refl x : cmp x x = Eq.
Proof. by apply cmp_eq. Qed.

Lemma cmp_le_lt_eq x y : cmp_le x y = true ↔ cmp x y = Lt ∨ x = y.
Proof.
  unfold cmp_le. rewrite <- (cmp_eq x y). destruct (cmp x y); naive_solver.
Qed.

Lemma cmp_le_refl x : cmp_le x x = true.
Proof. apply cmp_le_lt_eq. by right. Qed.

Lemma cmp_le_trans x y z :
  cmp_le x y = true → cmp_le y z = true → cmp_le x z = true.
Proof.
  rewrite !cmp_le_lt_eq. intros [H1| ->] [H2| <-]; eauto using cmp_trans.
Qed.

Lemma cmp_le_antisym x y : cmp_le x y = true → cmp_le y x = true → x = y.
Proof.
  unfold cmp_le. rewrite (cmp_antisym x y).
  destruct (cmp x y) eqn:E; simpl; try done. intros _ _. by apply cmp_eq.
Qed.

Lemma cmp_le_total x y : cmp_le x y = true ∨ cmp_le y x = true.
Proof.
  unfold cmp_le. rewrite (cmp_antisym x y). destruct (cmp x y); auto.
Qed.

Lemma cmp_lt_not_le x y : cmp_lt x y = negb (cmp_le y x).
Proof. unfold cmp_lt, cmp_le. rewrite (cmp_antisym x y). by destruct (cmp x y). Qed.
End total_ord.

Lemma cmp_pair {A B} `{Ord A, Ord B} (a a' : A) (b b' : B) :
  cmp (a, b) (a', b') = match cmp a a' with Eq => cmp b b' | c => c end.
Proof. done. Qed.

Lemma cmp_cons {A} `{Ord A} (x y : A) l k :
  cmp (x :: l) (y :: k) = match cmp x y with Eq => cmp l k | c => c end.
Proof. done. Qed.

#[export] Instance TotalOrd_prod {A B} `{TotalOrd A, TotalOrd B} : TotalOrd (A * B).
Proof.
  split.
  - intros [a b] [a' b']; rewrite cmp_pair. destruct (cmp a a') eqn:E.
    + apply cmp_eq in E as ->. rewrite cmp_eq. naive_solver.
    + split; [done|]. intros [= -> ->]. by rewrite cmp_refl in E.
    + split; [done|]. intros [= -> ->]. by rewrite cmp_refl in E.
  - intros [a b] [a' b']; rewrite !cmp_pair, (cmp_antisym a a').
    destruct (cmp a a'); simpl; auto using cmp_antisym.
  - intros [a b] [a' b'] [a'' b'']; rewrite !cmp_pair.
    destruct (cmp a a') eqn:E1, (cmp a' a'') eqn:E2; try done.
    + apply cmp_eq in E1 as ->. apply cmp_eq in E2 as ->.
      rewrite cmp_refl. apply cmp_trans.
    + apply cmp_eq in E1 as ->. by rewrite E2.
    + apply cmp_eq in E2 as <-. by rewrite E1.
    + by rewrite (cmp_trans _ _ _ E1 E2).
Qed.

#[export] Instance TotalOrd_option {A} `{TotalOrd A} : TotalOrd (option A).
Proof.
  split.
  - intros [x|] [y|]; try naive_solver.
    change (cmp x y = Eq ↔ Some x = Some y). rewrite cmp_eq. naive_solver.
  - intros [x|] [y|]; try done. apply (cmp_antisym x y).
  - intros [x|] [y|] [z|]; try done. apply (cmp_trans x y z).
Qed.

#[export] Instance TotalOrd_list {A} `{TotalOrd A} : TotalOrd (list A).
Proof.
  split.
  - intros l; induction l as [|x l IH]; intros [|y k]; try naive_solver.
    rewrite cmp_cons. destruct (cmp x y) eqn:E.
    + apply cmp_eq in E as ->. rewrite IH. naive_solver.
    + split; [done|]. intros [= -> ->]. by rewrite cmp_refl in E.
    + split; [done|]. intros [= -> ->]. by rewrite cmp_refl in E.
  - intros l; induction l as [|x l IH]; intros [|y k]; try done.
    rewrite !cmp_cons, (cmp_antisym x y). destruct (cmp x y); simpl; auto.
  - intros l; induction l as [|x l IH]; intros [|y k] [|z m]; try done.
    rewrite !cmp_cons.
    destruct (cmp x y) eqn:E1, (cmp y z) eqn:E2; try done.
    + apply cmp_eq in E1 as ->. apply cmp_eq in E2 as ->.
      rewrite cmp_refl. apply IH.
    + apply cmp_eq in E1 as ->. by rewrite E2.
    + apply cmp_eq in E2 as <-. by rewrite E1.
    + by rewrite (cmp_trans _ _ _ E1 E2).
Qed.

#[export] Instance string_bytes_inj : Inj (=) (=) string_bytes.
Proof.
  intros s t Hst. unfold string_bytes in Hst.
  rewrite <- (string_of_list_ascii_of_string s), <- (string_of_list_ascii_of_string t).
  f_equal. revert Hst. generalize (list_ascii_of_string s), (list_ascii_of_string t).
  intros l; induction l as [|a l IH]; intros [|b k]; simpl; try done.
  intros [= Hab Hlk]. f_equal; [|by apply IH].
  by rewrite <- (ascii_N_embedding a), <- (ascii_N_embedding b), Hab.
Qed.

#[export] Instance TotalOrd_string : TotalOrd string.
Proof. by apply (TotalOrd_inj _ string_bytes). Qed.

(** ** [Vec::sort_by], [Vec::dedup]

    [sort_by] is stable: an element is placed before the first strictly greater
    one. *)

Fixpoint insert_sorted {A} (le : A → A → bool) (x : A) (l : list A) : list A :=
  match l with
  | [] => [x]
  | y :: l' => if le y x then y :: insert_sorted le x l' else x :: l
  end.
Definition sort_by {A} (le : A → A → bool) (l : list A) : list A :=
  foldl (λ acc x, insert_sorted le x acc) [] l.

Fixpoint dedup {A} `{EqDecision A} (l : list A) : list A :=
  match l with
  | x :: ((y :: _) as l') => if decide (x = y) then dedup l' else x :: dedup l'
  | _ => l
  end.

Section sort.
Context {A : Type} (le : A → A → bool).

Lemma insert_sorted_perm x l : insert_sorted le x l ≡ₚ x :: l.
Proof.
  induction l as [|y l IH]; simpl; [done|].
  destruct (le y x); [|done]. rewrite IH. apply Permutation_swap.
Qed.

Lemma sort_by_perm_acc l acc :
  foldl (λ acc x, insert_sorted le x acc) acc l ≡ₚ acc ++ l.
Proof.
  revert acc; induction l as [|x l IH]; intros acc; simpl.
  - by rewrite app_nil_r.
  - rewrite IH, insert_sorted_perm. solve_Permutation.
Qed.

Lemma sort_by_perm l : sort_by le l ≡ₚ l.
Proof. apply sort_by_perm_acc. Qed.

Context (le_total : ∀ x y, le x y = true ∨ le y x = true).
Context (le_trans : ∀ x y z, le x y = true → le y z = true → le x z = true).

Lemma insert_sorted_sorted x l :
  StronglySorted (λ a b, le a b = true) l →
  StronglySorted (λ a b, le a b = true) (insert_sorted le x l).
Proof.
  induction 1 as [|y l Hl IH Hy]; simpl.
  - repeat constructor.
  - destruct (le y x) eqn:Eyx.
    + constructor; [done|]. rewrite insert_sorted_perm. by constructor.
    + assert (le x y = true) as Hxy by (destruct (le_total x y); congruence).
      constructor; [by constructor|]. constructor; [done|].
      eapply Forall_impl; [done|]. eauto.
Qed.

Lemma sort_by_sorted l : StronglySorted (λ a b, le a b = true) (sort_by le l).
Proof.
  unfold sort_by.
  assert (StronglySorted (λ a b, le a b = true) []) as Hacc by constructor.
  revert Hacc. generalize (@nil A) as acc.
  induction l as [|x l IH]; intros acc Hacc; simpl; auto using insert_sorted_sorted.
Qed.
End sort.

Lemma insert_sorted_last {A} (le : A → A → bool) x l :
  (∀ y, y ∈ l → le y x = true) → insert_sorted le x l = l ++ [x].
Proof.
  induction l as [|y l IH]; intros Hl; simpl; [done|]. rewrite Hl by set_solver.
  f_equal. apply IH. set_solver.
Qed.

Lemma sort_by_id {A} (le : A → A → bool) l :
  (∀ x y, x ∈ l → y ∈ l → le x y = true) → sort_by le l = l.
Proof.
  intros Hl. unfold sort_by. rewrite <- (app_nil_l l) at 2. assert (∀ x, x ∈ @nil A → x ∈ l) as Hacc by set_solver.
  assert (∀ x, x ∈ l → x ∈ l) as Hin by done. revert Hacc Hin. generalize (@nil A) as acc.
  generalize l at 2 4 5 as k. induction k as [|x k IH]; intros acc Hacc Hin; simpl; [by rewrite app_nil_r|].
  rewrite insert_sorted_last by (intros y Hy; apply Hl; set_solver).
  rewrite IH by set_solver. by rewrite <- app_assoc.
Qed.

Lemma StronglySorted_last {A} (R : A → A → Prop) l x y :
  (∀ x, R x x) → StronglySorted R l → last l = Some x → y ∈ l → R y x.
Proof.
  intros Hr Hl. induction Hl as [|z l Hl IH Hz]; [done|]. rewrite last_cons.
  rewrite Forall_forall in Hz. destruct (last l) as [x'|] eqn:Hlast; intros [= ->] [->|Hy]%elem_of_cons.
  - apply Hz. by apply last_Some_elem_of.
  - by apply IH.
  - done.
  - apply last_None in Hlast as ->. by apply not_elem_of_nil in Hy.
Qed.

Lemma StronglySorted_filter {A} (R : A → A → Prop) (Q : A → Prop) `{∀ x, Decision (Q x)} l :
  StronglySorted R l → StronglySorted R (filter Q l).
Proof.
  induction 1 as [|x l Hl IH Hx]; [constructor|]. rewrite filter_cons.
  case_decide; [|done]. constructor; [done|]. rewrite Forall_forall in *.
  intros y Hy. apply list_elem_of_filter in Hy as [_ Hy]. auto.
Qed.

Lemma elem_of_dedup {A} `{EqDecision A} (l : list A) x : x ∈ dedup l ↔ x ∈ l.
Proof.
  induction l as [|y l IH]; [done|]. destruct l as [|z l]; [done|].
  simpl in *. case_decide as Hyz; [subst|]; rewrite ?elem_of_cons in *; naive_solver.
Qed.

(** On a list sorted by a total order, [dedup] removes every duplicate. *)
Lemma NoDup_dedup_sorted {A} `{EqDecision A, TotalOrd A} (l : list A) :
  StronglySorted (λ a b, cmp_le a b = true) l → NoDup (dedup l).
Proof.
  induction 1 as [|x l Hl IH Hx]; [constructor|].
  destruct l as [|y l]; [apply NoDup_singleton|].
  change (NoDup (if decide (x = y) then dedup (y :: l) else x :: dedup (y :: l))).
  case_decide as Hxy; [done|]. constructor; [|done].
  rewrite elem_of_dedup. intros Hin. apply Hxy, cmp_le_antisym.
  - by inversion Hx.
  - apply StronglySorted_inv in Hl as [_ Hy].
    apply elem_of_cons in Hin as [->|Hin]; [apply cmp_le_refl|].
    rewrite Forall_forall in Hy. by apply Hy.
Qed.

(** ** Formatting *)

(** [{:?}] of a string: in double quotes.  (Characters Rust escapes are kept.) *)
Definition debug (s : string) : string :=
  let dquote := String.String (Ascii.ascii_of_nat 34) String.EmptyString in dquote +:+ s +:+ dquote.

(** ** Filters *)

Lemma filter_split {A} (P : A → Prop) `{∀ x, Decision (P x)} (l : list A) :
  filter P l ++ filter (λ x, ¬ P x) l ≡ₚ l.
Proof.
  induction l as [|x l IH]; [done|]. rewrite !filter_cons.
  destruct (decide (P x)); destruct (decide (¬ P x)); try done; simpl.
  - by rewrite IH.
  - by rewrite <- Permutation_middle, IH.
Qed.

Lemma filter_agree {A} (P Q : A → Prop) `{∀ x, Decision (P x), ∀ x, Decision (Q x)} (l : list A) :
  (∀ x, x ∈ l → P x ↔ Q x) → filter P l = filter Q l.
Proof.
  induction l as [|x l IH]; intros Hl; [done|]. rewrite !filter_cons, IH by set_solver.
  pose proof (Hl x) as Hx. repeat case_decide; set_solver.
Qed.

Lemma filter_none {A} (P : A → Prop) `{∀ x, Decision (P x)} (l : list A) :
  (∀ x, x ∈ l → ¬ P x) → filter P l = [].
Proof.
  induction l as [|x l IH]; intros Hl; [done|].
  rewrite filter_cons_False by (apply Hl; set_solver). apply IH. set_solver.
Qed.

(** Sorting is stable: it commutes with filtering. *)
Section stable.
Context {A : Type} (le : A → A → bool).
Context (le_total : ∀ x y, le x y = true ∨ le y x = true).
Context (le_trans : ∀ x y z, le x y = true → le y z = true → le x z = true).
Abbreviation sorted := (StronglySorted (λ a b, le a b = true)) (only parsing).

Lemma insert_sorted_first x l : (∀ y, y ∈ l → le y x = false) → insert_sorted le x l = x :: l.
Proof. destruct l as [|y l]; [done|]. intros Hl. simpl. by rewrite Hl by set_solver. Qed.

Lemma filter_insert_sorted (Q : A → Prop) `{∀ x, Decision (Q x)} x l :
  sorted l → filter Q (insert_sorted le x l) = if decide (Q x) then insert_sorted le x (filter Q l) else filter Q l.
Proof.
  induction 1 as [|y l Hl IH Hy]; simpl; [rewrite filter_cons; by case_decide|].
  destruct (le y x) eqn:Hyx.
  - rewrite filter_cons, IH, (filter_cons _ y). do 2 case_decide; simpl; rewrite ?Hyx; done.
  - rewrite filter_cons. case_decide; [|done]. rewrite insert_sorted_first; [done|].
    intros z [_ Hz]%list_elem_of_filter. apply not_true_iff_false. intros Hzx.
    apply not_true_iff_false in Hyx. apply Hyx. apply elem_of_cons in Hz as [->|Hz]; [done|].
    rewrite Forall_forall in Hy. eauto.
Qed.

Lemma sort_by_snoc l x : sort_by le (l ++ [x]) = insert_sorted le x (sort_by le l).
Proof. unfold sort_by. by rewrite foldl_app. Qed.

Lemma filter_sort_by (Q : A → Prop) `{∀ x, Decision (Q x)} l :
  filter Q (sort_by le l) = sort_by le (filter Q l).
Proof.
  induction l as [|x l IH] using rev_ind; [done|].
  rewrite sort_by_snoc, filter_insert_sorted, IH by (by apply sort_by_sorted).
  rewrite filter_app, filter_cons, filter_nil. case_decide; [by rewrite sort_by_snoc|by rewrite app_nil_r].
Qed.

Lemma sort_by_of_sorted l : sorted l → sort_by le l = l.
Proof.
  induction l as [|x l IH] using rev_ind; [done|]. intros Hs. rewrite sort_by_snoc.
  apply StronglySorted_app in Hs as (Hx & Hl & _). rewrite IH by done.
  apply insert_sorted_last. set_solver.
Qed.

Lemma sort_by_app_sorted l k : sort_by le (sort_by le l ++ k) = sort_by le (l ++ k).
Proof.
  unfold sort_by at 1 3. rewrite !foldl_app. fold (sort_by le (sort_by le l)) (sort_by le l).
  by rewrite sort_by_of_sorted by (by apply sort_by_sorted).
Qed.

(** A sorted list starts with the elements of a lower set. *)
Lemma sorted_split (Q : A → Prop) `{∀ x, Decision (Q x)} l :
  (∀ x y, le x y = true → Q y → Q x) → sorted l → l = filter Q l ++ filter (λ x, ¬ Q x) l.
Proof.
  intros Hlow. induction 1 as [|x l Hl IH Hx]; [done|]. rewrite !filter_cons.
  destruct (decide (Q x)) as [Hq|Hq]; [rewrite decide_False by tauto|rewrite decide_True by done].
  - simpl. by f_equal.
  - rewrite Forall_forall in Hx. assert (∀ y, y ∈ l → ¬ Q y) as Hnone by (intros y Hy Hqy; apply Hq; eauto).
    rewrite filter_none by done. simpl. f_equal. rewrite filter_none in IH by done. done.
Qed.
End stable.

(** ** [Iterator::position], sums, maps traversed with panicking updates *)

Fixpoint position {A} (p : A → bool) (l : list A) : option nat :=
  match l with
  | [] => None
  | x :: l' => if p x then Some 0 else S <$> position p l'
  end.

Lemma position_Some {A} (p : A → bool) l i :
  position p l = Some i ↔
  ∃ x, l !! i = Some x ∧ p x = true ∧ ∀ j y, j < i → l !! j = Some y → p y = false.
Proof.
  revert i; induction l as [|x l IH]; intros i; simpl; [naive_solver|].
  destruct (p x) eqn:Ex.
  - split.
    + intros [= <-]. exists x. split_and!; try done. intros; lia.
    + intros (y & Hy & Hpy & Hmin). destruct i as [|i]; [done|].
      specialize (Hmin 0 x). simpl in Hmin. rewrite Hmin in Ex; [done|lia|done].
  - rewrite fmap_Some. setoid_rewrite IH. split.
    + intros (j & (y & Hy & Hpy & Hmin) & ->). exists y. split_and!; try done.
      intros [|k] z Hk; simpl; [naive_solver|]. apply Hmin. lia.
    + intros (y & Hy & Hpy & Hmin). destruct i as [|i]; [simplify_eq/=; congruence|].
      exists i. split; [|done]. exists y. split_and!; try done.
      intros j z Hj Hz. apply (Hmin (S j)); [lia|done].
Qed.

Lemma position_None {A} (p : A → bool) l :
  position p l = None ↔ ∀ x, x ∈ l → p x = false.
Proof.
  induction l as [|x l IH]; simpl; [set_solver|].
  destruct (p x) eqn:Ex; [split; [done|]; intros H; rewrite H in Ex; [done|set_solver]|].
  rewrite fmap_None, IH. set_solver.
Qed.

Definition sumZ (l : list Z) : Z := foldr Z.add 0%Z l.

Lemma sumZ_cons x l : sumZ (x :: l) = (x + sumZ l)%Z.
Proof. done. Qed.
Lemma sumZ_app l k : sumZ (l ++ k) = (sumZ l + sumZ k)%Z.
Proof. induction l as [|x l IH]; simpl; [lia|]. unfold sumZ in *. simpl. lia. Qed.

Lemma sumZ_perm l k : l ≡ₚ k → sumZ l = sumZ k.
Proof. unfold sumZ. induction 1; simpl; lia. Qed.

Definition map_traverse `{Countable K} {V W} (f : K → V → outcome W) (m : gmap K V)
    : outcome (gmap K W) :=
  l ← mapM_outcome (λ kv : K * V, w ← f kv.1 kv.2; Ret (kv.1, w)) (map_to_list m);
  Ret (list_to_map l).

Section traverse.
Context `{Countable K} {V W : Type} (f : K → V → outcome W).

Lemma map_traverse_pure (g : K → V → W) (m : gmap K V) :
  (∀ k v, m !! k = Some v → f k v = Ret (g k v)) →
  map_traverse f m = Ret (map_imap (λ k v, Some (g k v)) m).
Proof.
  intros Hf. unfold map_traverse.
  rewrite (mapM_outcome_pure _ (λ kv, (kv.1, g kv.1 kv.2))).
  - simpl. f_equal. apply map_eq. intros k. rewrite map_lookup_imap.
    assert (NoDup (((λ kv : K * V, (kv.1, g kv.1 kv.2)) <$> map_to_list m).*1)) as Hnd.
    { rewrite <- list_fmap_compose. apply NoDup_fst_map_to_list. }
    destruct (m !! k) as [v|] eqn:Hk; simpl.
    + apply elem_of_list_to_map; [done|]. apply list_elem_of_fmap.
      exists (k, v). by rewrite elem_of_map_to_list.
    + apply not_elem_of_list_to_map. rewrite <- list_fmap_compose. simpl.
      intros ([k' v] & -> & Hin)%list_elem_of_fmap.
      rewrite elem_of_map_to_list in Hin. simplify_eq/=.
  - intros [k v] Hin. rewrite elem_of_map_to_list in Hin. simpl.
    by rewrite (Hf k v Hin).
Qed.

Lemma map_traverse_panic (m : gmap K V) k v :
  m !! k = Some v → is_panic (f k v) = true → is_panic (map_traverse f m) = true.
Proof.
  intros Hk Hp. unfold map_traverse.
  destruct (mapM_outcome _ _) as [l|] eqn:E; [|done].
  apply mapM_outcome_Ret in E.
  apply elem_of_map_to_list in Hk. apply list_elem_of_lookup in Hk as [i Hi].
  destruct (Forall2_lookup_l _ _ _ _ _ E Hi) as (y & _ & Hy). simpl in Hy.
  by destruct (f k v).
Qed.
End traverse.

(** The development's hint database. *)
Create HintDb dataflow discriminated.
#[export] Hint Resolve cmp_le_refl wrap_i64_range : dataflow.
