(* ===== verification/Parsing.v ===== *)
(** * Parsing numbers

    [str::parse] of the standard library at the integer types the code parses:
    decimal digits after an optional sign; no digits, other characters, and numbers
    out of range are errors. *)
From Stdlib Require Import ZArith NArith Lia.
From stdpp Require Import base strings numbers list.
From S2P Require Import Prelude.

(** ** Unsigned types *)

Definition digit (c : Ascii.ascii) : option N :=
  let n := Ascii.N_of_ascii c in
  if ((48 <=? n) && (n <=? 57))%N then Some (n - 48)%N else None.

Fixpoint parse_digits (max acc : N) (s : string) : option N :=
  match s with
  | EmptyString => Some acc
  | String c s =>
      d ← digit c;
      let acc := (acc * 10 + d)%N in
      if (acc <=? max)%N then parse_digits max acc s else None
  end.

(** At least one digit, after an optional sign; too large a number is an error. *)
Definition parse_unsigned (max : N) (s : string) : option N :=
  match s with
  | EmptyString => None
  | String c rest =>
      if (Ascii.N_of_ascii c =? 43)%N then
        match rest with EmptyString => None | _ => parse_digits max 0 rest end
      else parse_digits max 0 s
  end.

(** ** Signed types *)

Definition parse_i64 (s : string) : option Z :=
  match s with
  | EmptyString => None
  | String c rest =>
      if (Ascii.N_of_ascii c =? 45)%N then
        match rest with
        | EmptyString => None
        | _ => (λ n, - Z.of_N n)%Z <$> parse_digits (2 ^ 63) 0 rest
        end
      else Z.of_N <$> parse_unsigned (2 ^ 63 - 1) s
  end.

(** ** Bounds *)

Lemma parse_digits_bound max acc s n : parse_digits max acc s = Some n → (acc ≤ max)%N → (n ≤ max)%N.
Proof.
  revert acc. induction s as [|c s IH]; intros acc; simpl; [by intros [= <-]|].
  destruct (digit c) as [d|]; [|done]. simpl. destruct (N.leb_spec (acc * 10 + d) max); [|done].
  intros Hp _. by eapply IH.
Qed.

Lemma parse_unsigned_bound max s n : parse_unsigned max s = Some n → (n ≤ max)%N.
Proof.
  unfold parse_unsigned. destruct s as [|c s]; [done|]. destruct (_ =? 43)%N; [destruct s; [done|]|];
    intros Hp; eapply parse_digits_bound; [exact Hp|lia|exact Hp|lia].
Qed.

Lemma parse_i64_range s z : parse_i64 s = Some z → in_i64 z.
Proof.
  unfold parse_i64, in_i64. destruct s as [|c s]; [done|]. destruct (_ =? 45)%N.
  - destruct s as [|c' s]; [done|]. intros (n & Hn & ->)%fmap_Some. apply parse_digits_bound in Hn; lia.
  - intros (n & Hn%parse_unsigned_bound & ->)%fmap_Some. lia.
Qed.
