(* ===== verification/Timestamps.v ===== *)
(** * Timestamps (src/src/timestamp/)

    The [Time] enum and its conversions, [Rewind] and [Coarsen], and the two
    timestamp types of the repository, [Pair] and [AltNeu], with the orders and
    lattices they implement for timely and differential dataflow.

    [u64] is [N] (its upper bound written out where the code can reach it) and
    [Duration] is the pair of whole seconds and nanoseconds of the standard
    library. *)
From Stdlib Require Import ZArith NArith Lia.
From stdpp Require Import base list strings numbers.
From S2P Require Import Prelude.
Local Open Scope N_scope.

(** ** Interfaces

    [timely::order::PartialOrder] and [differential_dataflow::lattice::Lattice]
    as the repository implements them; the law classes state what the two
    traits document. *)

Class PartialOrderT (T : Type) := less_equal : T → T → bool.

Class PartialOrderLaws (T : Type) `{PartialOrderT T} := {
  less_equal_refl : ∀ x : T, less_equal x x = true;
  less_equal_antisym : ∀ x y : T, less_equal x y = true → less_equal y x = true → x = y;
  less_equal_trans : ∀ x y z : T,
    less_equal x y = true → less_equal y z = true → less_equal x z = true
}.

Class LatticeT (T : Type) := {
  minimum : T;
  join : T → T → T;
  meet : T → T → T
}.

Class LatticeLaws (T : Type) `{PartialOrderT T, LatticeT T} := {
  minimum_le : ∀ x : T, less_equal minimum x = true;
  join_ub_l : ∀ x y : T, less_equal x (join x y) = true;
  join_ub_r : ∀ x y : T, less_equal y (join x y) = true;
  join_least : ∀ x y u : T,
    less_equal x u = true → less_equal y u = true → less_equal (join x y) u = true;
  meet_lb_l : ∀ x y : T, less_equal (meet x y) x = true;
  meet_lb_r : ∀ x y : T, less_equal (meet x y) y = true;
  meet_greatest : ∀ x y l : T,
    less_equal l x = true → less_equal l y = true → less_equal l (meet x y) = true
}.

(** The [Ord] implementation that timestamps carry refines the partial order. *)
Class OrdExtends (T : Type) `{PartialOrderT T, Ord T} :=
  less_equal_cmp_le : ∀ x y : T, less_equal x y = true → cmp_le x y = true.

(** The part of timely's API the repository uses on timestamps, antichains and
    capabilities: the provided method [PartialOrder::less_than],
    [AntichainRef]'s [less_equal] and [less_than], and [Capability::delayed],
    a capability standing for its time. *)
Class Timely (T : Type) `{PartialOrderT T} := {
  less_than : T → T → bool;
  less_than_spec : ∀ x y : T,
    less_than x y = true ↔ less_equal x y = true ∧ x ≠ y;
  antichain_less_equal : list T → T → bool;
  antichain_less_equal_spec : ∀ (f : list T) (t : T),
    antichain_less_equal f t = true ↔ ∃ x, x ∈ f ∧ less_equal x t = true;
  antichain_less_than : list T → T → bool;
  antichain_less_than_spec : ∀ (f : list T) (t : T),
    antichain_less_than f t = true ↔ ∃ x, x ∈ f ∧ less_than x t = true;
  delayed : T → T → outcome T;
  delayed_spec : ∀ cap t : T, less_equal cap t = true → delayed cap t = Ret t
}.

(** The documented behaviour, as functions: what the concrete evaluations use. *)
Section timely_model.
Context {T : Type} `{EqDecision T, PartialOrderT T}.

Definition less_than_model (x y : T) : bool := less_equal x y && bool_decide (x ≠ y).

Lemma less_than_model_spec x y :
  less_than_model x y = true ↔ less_equal x y = true ∧ x ≠ y.
Proof. unfold less_than_model. by rewrite andb_true_iff, bool_decide_eq_true. Qed.

Lemma existsb_elem_of (p : T → bool) l : existsb p l = true ↔ ∃ x, x ∈ l ∧ p x = true.
Proof. rewrite existsb_exists. by setoid_rewrite list_elem_of_In. Qed.

Definition delayed_model (cap t : T) : outcome T :=
  if less_equal cap t then Ret t else Panic "attempted to delay a capability backwards".

Lemma delayed_model_spec cap t : less_equal cap t = true → delayed_model cap t = Ret t.
Proof. unfold delayed_model. by intros ->. Qed.

Definition timely_model : Timely T := {|
  less_than := less_than_model;
  less_than_spec := less_than_model_spec;
  antichain_less_equal f t := existsb (λ x, less_equal x t) f;
  antichain_less_equal_spec f t := existsb_elem_of _ f;
  antichain_less_than f t := existsb (λ x, less_than_model x t) f;
  antichain_less_than_spec f t := existsb_elem_of _ f;
  delayed := delayed_model;
  delayed_spec := delayed_model_spec
|}.
End timely_model.

(** ** [Duration] of the standard library *)

Record Duration := mkDuration { secs : N; nanos : N }.

#[export] Instance Duration_eq_dec : EqDecision Duration.
Proof. solve_decision. Defined.

Definition NANOS_PER_SEC : N := 1000000000.
Definition Duration_wf (d : Duration) : Prop := nanos d < NANOS_PER_SEC.

(** The length of a duration in nanoseconds. *)
Definition total_nanos (d : Duration) : N := secs d * NANOS_PER_SEC + nanos d.

Definition from_secs (s : N) : Duration := mkDuration s 0.

Definition Duration_new (s n : N) : outcome Duration :=
  let s' := s + n / NANOS_PER_SEC in
  if s' <? 2 ^ 64 then Ret (mkDuration s' (n mod NANOS_PER_SEC))
  else Panic "overflow in Duration::new".

Definition u64_checked_sub (a b : N) : option N :=
  if b <=? a then Some (a - b) else None.

Definition Duration_checked_sub (d rhs : Duration) : option Duration :=
  match u64_checked_sub (secs d) (secs rhs) with
  | None => None
  | Some s =>
      if nanos rhs <=? nanos d then Some (mkDuration s (nanos d - nanos rhs))
      else match u64_checked_sub s 1 with
           | None => None
           | Some s' => Some (mkDuration s' (nanos d + NANOS_PER_SEC - nanos rhs))
           end
  end.

#[export] Instance Duration_ord : Ord Duration := λ a b,
  cmp (secs a, nanos a) (secs b, nanos b).
#[export] Instance Duration_total_ord : TotalOrd Duration.
Proof.
  assert (Inj (=) (=) (λ d, (secs d, nanos d))) by (intros [] []; simpl; congruence).
  by apply (TotalOrd_inj _ (λ d, (secs d, nanos d))).
Qed.

(** The total orders of [u64] and [Duration] as timestamps. *)
#[export] Instance u64_less_equal : PartialOrderT N := N.leb.
#[export] Instance u64_laws : PartialOrderLaws N.
Proof. split; unfold less_equal, u64_less_equal; intros *; rewrite ?N.leb_le; lia. Qed.
#[export] Instance u64_lattice : LatticeT N :=
  {| minimum := 0; join := N.max; meet := N.min |}.
#[export] Instance u64_lattice_laws : LatticeLaws N.
Proof.
  split; unfold less_equal, u64_less_equal; simpl; intros *; rewrite ?N.leb_le; lia.
Qed.
#[export] Instance u64_ord_extends : OrdExtends N.
Proof.
  intros x y Hxy. unfold less_equal, u64_less_equal in Hxy.
  unfold cmp_le, cmp, Ord_N. rewrite N.leb_le in Hxy. by destruct (N.compare_spec x y); [| |lia].
Qed.

#[export] Instance Duration_less_equal : PartialOrderT Duration := cmp_le.
#[export] Instance Duration_laws : PartialOrderLaws Duration.
Proof.
  split; unfold less_equal, Duration_less_equal.
  - apply cmp_le_refl.
  - apply cmp_le_antisym.
  - apply cmp_le_trans.
Qed.
#[export] Instance Duration_lattice : LatticeT Duration :=
  {| minimum := mkDuration 0 0;
     join := λ a b, if cmp_le a b then b else a;
     meet := λ a b, if cmp_le a b then a else b |}.
#[export] Instance Duration_lattice_laws : LatticeLaws Duration.
Proof.
  assert (∀ x y : Duration, cmp_le x y = false → cmp_le y x = true) as Hflip.
  { intros x y Hxy. destruct (cmp_le_total x y); congruence. }
  split; unfold less_equal, Duration_less_equal; simpl.
  - intros [[|s] [|n]]; done.
  - intros x y. destruct (cmp_le x y) eqn:E; [done|apply cmp_le_refl].
  - intros x y. destruct (cmp_le x y) eqn:E; [apply cmp_le_refl|auto].
  - intros x y u. by destruct (cmp_le x y).
  - intros x y. destruct (cmp_le x y) eqn:E; [apply cmp_le_refl|auto].
  - intros x y. destruct (cmp_le x y) eqn:E; [done|apply cmp_le_refl].
  - intros x y l. by destruct (cmp_le x y).
Qed.
#[export] Instance Duration_ord_extends : OrdExtends Duration.
Proof. by intros x y. Qed.

(** [Default::default()] of the timestamp types. *)
Class DefaultT (T : Type) := default_time : T.
#[export] Instance u64_default : DefaultT N := 0.
#[export] Instance Duration_default : DefaultT Duration := mkDuration 0 0.

(** ** [Pair] (src/src/timestamp/pair.rs) *)

Record Pair (S T : Type) := mkPair { first : S; second : T }.
Arguments mkPair {S T} first second.
Arguments first {S T} p.
Arguments second {S T} p.

Definition Pair_new {S T} (a : S) (b : T) : Pair S T := mkPair a b.

#[export] Instance Pair_eq_dec {S T : Type} `{EqDecision S, EqDecision T} : EqDecision (Pair S T).
Proof. solve_decision. Defined.

#[export] Instance Pair_default {S T : Type} `{DefaultT S, DefaultT T} : DefaultT (Pair S T) :=
  mkPair default_time default_time.

(** [derive(Ord)]: lexicographic. *)
#[export] Instance Pair_ord {S T : Type} `{Ord S, Ord T} : Ord (Pair S T) := λ p q,
  cmp (first p, second p) (first q, second q).

#[export] Instance Pair_total_ord {S T : Type} `{OS : Ord S, !TotalOrd S, OT : Ord T, !TotalOrd T} :
  TotalOrd (Pair S T).
Proof.
  assert (Inj (=) (=) (λ p : Pair S T, (first p, second p))) by (intros [] []; simpl; congruence).
  by apply (TotalOrd_inj _ (λ p : Pair S T, (first p, second p))).
Qed.

#[export] Instance Pair_less_equal {S T : Type} `{PartialOrderT S, PartialOrderT T} : PartialOrderT (Pair S T) :=
  λ p q, less_equal (first p) (first q) && less_equal (second p) (second q).

#[export] Instance Pair_lattice {S T : Type} `{LatticeT S, LatticeT T} : LatticeT (Pair S T) :=
  {| minimum := mkPair minimum minimum;
     join := λ p q, mkPair (join (first p) (first q)) (join (second p) (second q));
     meet := λ p q, mkPair (meet (first p) (first q)) (meet (second p) (second q)) |}.

(** [impl Refines<()> for Pair]. *)
Definition Pair_to_inner {S T : Type} `{DefaultT S, DefaultT T} (_ : unit) : Pair S T := default_time.
Definition Pair_to_outer {S T} (_ : Pair S T) : unit := tt.

(** [impl PathSummary<Pair<S, T>> for ()]. *)
Definition Pair_results_in {S T} (_ : unit) (t : Pair S T) : option (Pair S T) := Some t.
Definition Pair_followed_by (_ other : unit) : option unit := Some other.

(** [impl Sub for Pair]: componentwise, for the component subtractions given. *)
Definition Pair_sub {S T} (subS : S → S → S) (subT : T → T → T) (p q : Pair S T) : Pair S T :=
  mkPair (subS (first p) (first q)) (subT (second p) (second q)).

(** ** [AltNeu] (src/src/timestamp/altneu.rs) *)

Record AltNeu (T : Type) := mkAltNeu { an_time : T; neu : bool }.
Arguments mkAltNeu {T} an_time neu.
Arguments an_time {T} a.
Arguments neu {T} a.

#[export] Instance AltNeu_eq_dec `{EqDecision T} : EqDecision (AltNeu T).
Proof. solve_decision. Defined.

Definition AltNeu_alt {T} (time : T) : AltNeu T := mkAltNeu time false.
Definition AltNeu_neu {T} (time : T) : AltNeu T := mkAltNeu time true.

#[export] Instance AltNeu_ord `{Ord T} : Ord (AltNeu T) := λ a b,
  cmp (an_time a, neu a) (an_time b, neu b).

Definition bool_le (a b : bool) : bool := implb a b.

#[export] Instance AltNeu_less_equal `{EqDecision T, PartialOrderT T} : PartialOrderT (AltNeu T) :=
  λ self other,
    if decide (an_time self = an_time other) then bool_le (neu self) (neu other)
    else less_equal (an_time self) (an_time other).

(** [impl Refines<T> for AltNeu<T>]. *)
Definition AltNeu_to_inner {T} (other : T) : AltNeu T := AltNeu_alt other.
Definition AltNeu_to_outer {T} (self : AltNeu T) : T := an_time self.

(** [impl PathSummary<AltNeu<T>> for ()]. *)
Definition AltNeu_results_in {T} (_ : unit) (t : AltNeu T) : option (AltNeu T) := Some t.
Definition AltNeu_followed_by (_ other : unit) : option unit := Some other.

Definition AltNeu_join `{EqDecision T, LatticeT T} (self other : AltNeu T) : AltNeu T :=
  let time := join (an_time self) (an_time other) in
  let n := false in
  let n := if decide (time = an_time self) then n || neu self else n in
  let n := if decide (time = an_time other) then n || neu other else n in
  mkAltNeu time n.

Definition AltNeu_meet `{EqDecision T, LatticeT T} (self other : AltNeu T) : AltNeu T :=
  let time := meet (an_time self) (an_time other) in
  let n := true in
  let n := if decide (time = an_time self) then n && neu self else n in
  let n := if decide (time = an_time other) then n && neu other else n in
  mkAltNeu time n.

#[export] Instance AltNeu_lattice `{EqDecision T, LatticeT T} : LatticeT (AltNeu T) :=
  {| minimum := AltNeu_alt minimum; join := AltNeu_join; meet := AltNeu_meet |}.

#[global] Arguments AltNeu_join : simpl never.
#[global] Arguments AltNeu_meet : simpl never.

(** *** Laws of the two timestamp types *)

Section pair_laws.
Context {S T : Type} `{LS : LatticeLaws S, LT : LatticeLaws T}.
Context `{PS : !PartialOrderLaws S, PT : !PartialOrderLaws T}.

#[export] Instance Pair_laws : PartialOrderLaws (Pair S T).
Proof.
  split; unfold less_equal, Pair_less_equal; intros *; rewrite ?andb_true_iff.
  - auto using less_equal_refl.
  - destruct x, y; simpl. intros [] []. f_equal; eauto using less_equal_antisym.
  - intros [] []. eauto using less_equal_trans.
Qed.

#[export] Instance Pair_lattice_laws : LatticeLaws (Pair S T).
Proof.
  split; intros *; unfold less_equal, Pair_less_equal; simpl; rewrite ?andb_true_iff;
    intuition eauto using minimum_le, join_ub_l, join_ub_r, join_least,
      meet_lb_l, meet_lb_r, meet_greatest.
Qed.

#[export] Instance Pair_ord_extends `{OS : Ord S, OT : Ord T, !TotalOrd S, !TotalOrd T,
    !OrdExtends S, !OrdExtends T} : OrdExtends (Pair S T).
Proof.
  intros [a b] [c d]. unfold less_equal, Pair_less_equal. simpl.
  intros [Ha Hb]%andb_true_iff. unfold cmp_le.
  change (cmp (mkPair a b) (mkPair c d)) with (cmp (a, b) (c, d)).
  rewrite cmp_pair. apply less_equal_cmp_le in Ha, Hb.
  apply cmp_le_lt_eq in Ha as [-> | ->]; [done|]. by rewrite cmp_refl.
Qed.
End pair_laws.

Section altneu_laws.
Context {T : Type} `{EqDecision T, LT : LatticeLaws T, PT : !PartialOrderLaws T}.
Implicit Types a b c : AltNeu T.

(** The order as a proposition: strictly earlier, or equal and not [neu] to [alt]. *)
Lemma AltNeu_le_iff a b :
  less_equal a b = true ↔
  (an_time a = an_time b ∧ (neu a = true → neu b = true)) ∨
  (an_time a ≠ an_time b ∧ less_equal (an_time a) (an_time b) = true).
Proof.
  unfold less_equal at 1, AltNeu_less_equal.
  case_decide; [|naive_solver].
  unfold bool_le. destruct (neu a), (neu b); naive_solver.
Qed.

Lemma AltNeu_le_time a b : less_equal a b = true → less_equal (an_time a) (an_time b) = true.
Proof. rewrite AltNeu_le_iff. intros [[-> _]|[_ ?]]; [apply less_equal_refl|done]. Qed.

#[export] Instance AltNeu_laws : PartialOrderLaws (AltNeu T).
Proof.
  split.
  - intros a. apply AltNeu_le_iff. auto.
  - intros [t n] [t' n']; rewrite !AltNeu_le_iff; simpl.
    intros [[-> Hn]|[Hne Hn]] [[? Hn']|[? Hn']]; try done.
    + f_equal. destruct n, n'; naive_solver.
    + exfalso. apply Hne. by apply less_equal_antisym.
  - intros a b c Hab Hbc. pose proof (AltNeu_le_time _ _ Hab) as Hab'.
    pose proof (AltNeu_le_time _ _ Hbc) as Hbc'.
    apply AltNeu_le_iff. destruct (decide (an_time a = an_time c)) as [Hac|Hac].
    + left. split; [done|].
      assert (an_time a = an_time b) as Heq by (apply less_equal_antisym; congruence).
      apply AltNeu_le_iff in Hab as [[_ ?]|[]]; [|done].
      apply AltNeu_le_iff in Hbc as [[_ ?]|[]]; [auto|congruence].
    + right. eauto using less_equal_trans.
Qed.

Lemma AltNeu_join_neu a b :
  neu (AltNeu_join a b) = true ↔
  (an_time (AltNeu_join a b) = an_time a ∧ neu a = true) ∨
  (an_time (AltNeu_join a b) = an_time b ∧ neu b = true).
Proof. unfold AltNeu_join; cbn. repeat case_decide; destruct (neu a), (neu b); naive_solver. Qed.

Lemma AltNeu_meet_neu a b :
  neu (AltNeu_meet a b) = true ↔
  (an_time (AltNeu_meet a b) = an_time a → neu a = true) ∧
  (an_time (AltNeu_meet a b) = an_time b → neu b = true).
Proof. unfold AltNeu_meet; cbn. repeat case_decide; destruct (neu a), (neu b); naive_solver. Qed.

#[export] Instance AltNeu_lattice_laws : LatticeLaws (AltNeu T).
Proof.
  split.
  - intros a. apply AltNeu_le_iff; cbn [join meet minimum AltNeu_lattice].
    destruct (decide (minimum = an_time a)); [by left|]. right. split; [done|]. apply minimum_le.
  - intros a b. apply AltNeu_le_iff; cbn [join meet minimum AltNeu_lattice].
    destruct (decide (an_time a = an_time (AltNeu_join a b))).
    + left. split; [done|]. rewrite AltNeu_join_neu. auto.
    + right. split; [done|]. apply join_ub_l.
  - intros a b. apply AltNeu_le_iff; cbn [join meet minimum AltNeu_lattice].
    destruct (decide (an_time b = an_time (AltNeu_join a b))).
    + left. split; [done|]. rewrite AltNeu_join_neu. auto.
    + right. split; [done|]. apply join_ub_r.
  - intros a b u Ha Hb. apply AltNeu_le_iff; cbn [join meet minimum AltNeu_lattice].
    destruct (decide (an_time (AltNeu_join a b) = an_time u)) as [Hu|].
    + left. split; [done|]. rewrite AltNeu_join_neu.
      apply AltNeu_le_iff in Ha as [[? ?]|[? ?]], Hb as [[? ?]|[? ?]];
        intros [[? ?]|[? ?]]; first [congruence | auto].
    + right. split; [done|]. apply join_least; by apply AltNeu_le_time.
  - intros a b. apply AltNeu_le_iff; cbn [join meet minimum AltNeu_lattice].
    destruct (decide (an_time (AltNeu_meet a b) = an_time a)).
    + left. split; [done|]. rewrite AltNeu_meet_neu. intros []; auto.
    + right. split; [done|]. apply meet_lb_l.
  - intros a b. apply AltNeu_le_iff; cbn [join meet minimum AltNeu_lattice].
    destruct (decide (an_time (AltNeu_meet a b) = an_time b)).
    + left. split; [done|]. rewrite AltNeu_meet_neu. intros []; auto.
    + right. split; [done|]. apply meet_lb_r.
  - intros a b l Ha Hb. apply AltNeu_le_iff; cbn [join meet minimum AltNeu_lattice].
    destruct (decide (an_time l = an_time (AltNeu_meet a b))) as [Hl|].
    + left. split; [done|]. rewrite AltNeu_meet_neu. intros Hneu.
      apply AltNeu_le_iff in Ha as [[? ?]|[? ?]], Hb as [[? ?]|[? ?]];
        split; intros ?; first [congruence | auto].
    + right. split; [done|]. apply meet_greatest; by apply AltNeu_le_time.
Qed.
End altneu_laws.

(** ** [Time] and its conversions (src/src/timestamp/mod.rs) *)

Inductive Time : Type :=
| TxId (t : N)
| Real (d : Duration)
| Bi (sys : Duration) (event : N).

#[export] Instance Time_eq_dec : EqDecision Time.
Proof. solve_decision. Defined.

(** [impl From<Time> for u64] and [impl From<u64> for Time]. *)
Definition u64_from_Time (t : Time) : outcome N :=
  match t with
  | TxId time => Ret time
  | _ => Panic "Time can't be converted to u64"
  end.
Definition Time_from_u64 (t : N) : Time := TxId t.

Definition Duration_from_Time (t : Time) : outcome Duration :=
  match t with
  | Real time => Ret time
  | _ => Panic "Time can't be converted to Duration"
  end.
Definition Time_from_Duration (t : Duration) : Time := Real t.

Definition Pair_from_Time (t : Time) : outcome (Pair Duration N) :=
  match t with
  | Bi sys event => Ret (Pair_new sys event)
  | _ => Panic "Time can't be converted to Pair"
  end.
Definition Time_from_Pair (t : Pair Duration N) : Time := Bi (first t) (second t).

(** [timely::order::Product]: the code only builds it and reads its fields. *)
Record Product (TOuter TInner : Type) := mkProduct { outer : TOuter; inner : TInner }.
Arguments mkProduct {TOuter TInner} outer inner.
Arguments outer {TOuter TInner} p.
Arguments inner {TOuter TInner} p.

(** ** [Rewind] *)

Class Rewind (T : Type) := {
  from_time : Time → outcome T;
  rewind : T → T → T
}.

Definition u64_rewind (self slack : N) : N :=
  match u64_checked_sub self slack with None => self | Some rewound => rewound end.
#[export] Instance Rewind_u64 : Rewind N :=
  {| from_time := u64_from_Time; rewind := u64_rewind |}.

Definition Duration_rewind (self slack : Duration) : Duration :=
  match Duration_checked_sub self slack with None => self | Some rewound => rewound end.
#[export] Instance Rewind_Duration : Rewind Duration :=
  {| from_time := Duration_from_Time; rewind := Duration_rewind |}.

Definition Pair_rewind (self slack : Pair Duration N) : Pair Duration N :=
  let first_rewound := rewind (first self) (first slack) in
  let second_rewound := rewind (second self) (second slack) in
  Pair_new first_rewound second_rewound.
#[export] Instance Rewind_Pair : Rewind (Pair Duration N) :=
  {| from_time := Pair_from_Time; rewind := Pair_rewind |}.

(** [impl Into<Product<TOuter, u64>> for Time]. *)
Definition Product_from_Time `{Rewind TOuter} (t : Time) : outcome (Product TOuter N) :=
  o ← from_time t; Ret (mkProduct o 0).
Definition Product_rewind `{Rewind TOuter, Rewind TInner}
    (self slack : Product TOuter TInner) : Product TOuter TInner :=
  let outer_rewound := rewind (outer self) (outer slack) in
  let inner_rewound := rewind (inner self) (inner slack) in
  mkProduct outer_rewound inner_rewound.
#[export] Instance Rewind_Product `{Rewind TOuter} : Rewind (Product TOuter N) :=
  {| from_time := Product_from_Time; rewind := Product_rewind |}.

(** ** [Coarsen] *)

Class Coarsen (T : Type) := coarsen : T → T → outcome T.

(** Division by a zero window panics; the product wraps at 64 bits. *)
Definition u64_coarsen (self window_size : N) : outcome N :=
  if window_size =? 0 then Panic "attempt to divide by zero"
  else Ret ((self / window_size + 1) * window_size mod 2 ^ 64).
#[export] Instance Coarsen_u64 : Coarsen N := u64_coarsen.

Definition Duration_coarsen (self window_size : Duration) : outcome Duration :=
  let w_secs := secs window_size in
  let w_nanos := nanos window_size in
  let secs_coarsened :=
    if w_secs =? 0 then secs self else (secs self / w_secs + 1) * w_secs mod 2 ^ 64 in
  let nanos_coarsened :=
    if w_nanos =? 0 then 0 else (nanos self / w_nanos + 1) * w_nanos mod 2 ^ 32 in
  Duration_new secs_coarsened nanos_coarsened.
#[export] Instance Coarsen_Duration : Coarsen Duration := Duration_coarsen.

Definition Pair_coarsen (self window_size : Pair Duration N) : outcome (Pair Duration N) :=
  first_coarsened ← coarsen (first self) (first window_size);
  second_coarsened ← coarsen (second self) (second window_size);
  Ret (Pair_new first_coarsened second_coarsened).
#[export] Instance Coarsen_Pair : Coarsen (Pair Duration N) := Pair_coarsen.

(** ** Facts shared by the theorems below *)

Lemma u64_rewind_eq t s : u64_rewind t s = if s <=? t then t - s else t.
Proof. unfold u64_rewind, u64_checked_sub. by destruct (s <=? t). Qed.

Lemma Duration_le_total d e :
  Duration_wf d → Duration_wf e →
  less_equal d e = true ↔ total_nanos d ≤ total_nanos e.
Proof.
  intros Hd He. unfold less_equal, Duration_less_equal.
  rewrite cmp_le_lt_eq. unfold cmp, Duration_ord. rewrite cmp_pair.
  unfold Duration_wf, total_nanos, cmp, Ord_N, NANOS_PER_SEC in *.
  destruct d as [s n], e as [s' n']; simpl in *.
  destruct (N.compare_spec s s') as [->|?|?].
  - rewrite N.compare_lt_iff. split; [intros [?|[= ->]]; lia|].
    intros ?. destruct (decide (n = n')) as [->|]; [auto|]. left. lia.
  - split; [intros _; nia|auto].
  - split; [intros [?|[= ]]; [done|lia]|nia].
Qed.

(** [checked_sub] on normalised durations is subtraction of nanosecond totals. *)
Lemma Duration_checked_sub_total d e :
  Duration_wf d → Duration_wf e →
  match Duration_checked_sub d e with
  | Some r => total_nanos e ≤ total_nanos d ∧ Duration_wf r ∧
              total_nanos r = total_nanos d - total_nanos e
  | None => total_nanos d < total_nanos e
  end.
Proof.
  unfold Duration_wf, total_nanos, Duration_checked_sub, u64_checked_sub, NANOS_PER_SEC.
  destruct d as [s n], e as [s' n']; simpl. intros Hd He.
  destruct (N.leb_spec s' s); [|nia].
  destruct (N.leb_spec n' n); simpl; [nia|].
  destruct (N.leb_spec 1 (s - s')); simpl; nia.
Qed.

Lemma Duration_rewind_le d e :
  Duration_wf d → Duration_wf e →
  Duration_wf (Duration_rewind d e) ∧
  total_nanos (Duration_rewind d e) =
    if total_nanos e <=? total_nanos d then total_nanos d - total_nanos e else total_nanos d.
Proof.
  intros Hd He. pose proof (Duration_checked_sub_total d e Hd He) as Hsub.
  unfold Duration_rewind. destruct (Duration_checked_sub d e) as [r|].
  - destruct Hsub as (Hle & Hwf & ->). apply N.leb_le in Hle. by rewrite Hle.
  - apply N.leb_gt in Hsub. by rewrite Hsub.
Qed.

Lemma coarsen_step (t w : N) : 0 < w →
  (t / w + 1) * w = t + (w - t mod w) ∧ t < (t / w + 1) * w ≤ t + w.
Proof.
  intros Hw. assert (w ≠ 0) as Hw0 by lia.
  pose proof (N.div_mod t w Hw0) as Hdm. pose proof (N.mod_lt t w Hw0) as Hm.
  revert Hdm Hm. generalize (t / w), (t mod w). intros q r Hdm Hm.
  rewrite Hdm, N.mul_add_distr_r, (N.mul_comm q). lia.
Qed.

(** ** Theorems *)

(** C39 (rewinding is safe).  Rewinding a [u64], a [Duration] or a bitemporal
    pair by any slack returns a time that is not later than the original, is
    well-formed, and is exactly the original minus the slack whenever the slack
    fits; otherwise the time is returned unchanged.  A pair is rewound
    component by component, each by its own slack. *)
Theorem rewind_safe (t s : N) (d e : Duration) :
  Duration_wf d → Duration_wf e →
  less_equal (rewind t s) t = true ∧
  rewind t s = (if s <=? t then t - s else t) ∧
  less_equal (rewind d e) d = true ∧
  Duration_wf (rewind d e) ∧
  total_nanos (rewind d e) =
    (if total_nanos e <=? total_nanos d then total_nanos d - total_nanos e
     else total_nanos d) ∧
  less_equal (rewind (Pair_new d t) (Pair_new e s)) (Pair_new d t) = true ∧
  (∃ d' t', rewind (Pair_new d t) (Pair_new e s) = Pair_new d' t' ∧ Duration_wf d' ∧
    total_nanos d' = (if total_nanos e <=? total_nanos d then total_nanos d - total_nanos e
                      else total_nanos d) ∧
    t' = (if s <=? t then t - s else t)).
Proof.
  intros Hd He. destruct (Duration_rewind_le d e Hd He) as [Hwf Htot].
  assert (less_equal (rewind t s) t = true) as Hu.
  { simpl. rewrite u64_rewind_eq. apply N.leb_le. destruct (N.leb_spec s t); lia. }
  assert (less_equal (rewind d e) d = true) as Hdu.
  { apply Duration_le_total; [done..|]. simpl. rewrite Htot.
    destruct (_ <=? _); lia. }
  split_and!; try done.
  - apply u64_rewind_eq.
  - unfold less_equal, Pair_less_equal. simpl in *. by rewrite Hu, Hdu.
  - eexists _, _. split; [done|]. split; [exact Hwf|]. split; [exact Htot|apply u64_rewind_eq].
Qed.

Lemma rewind_safe_witness :
  less_equal (rewind (mkDuration 12 345000000) (mkDuration 0 45000000))
    (mkDuration 12 345000000) = true.
Proof.
  apply (rewind_safe 10 5 (mkDuration 12 345000000) (mkDuration 0 45000000));
    vm_compute; reflexivity.
Defined.

(** (the slack is dropped for young times).  Rewinding is not monotone: for
    every slack above one there are times [t < t'] that rewind out of order,
    because a time smaller than the slack is returned unchanged instead of
    being clamped to the minimum. *)
Theorem rewind_not_monotone (slack : N) :
  1 < slack → ∃ t t', t < t' ∧ rewind t' slack < rewind t slack.
Proof.
  intros Hs. exists (slack - 1), slack. simpl. rewrite !u64_rewind_eq.
  destruct (N.leb_spec slack (slack - 1)); [lia|].
  destruct (N.leb_spec slack slack); lia.
Qed.

Lemma rewind_not_monotone_witness : ∃ t t', t < t' ∧ rewind t' 10 < rewind t 10.
Proof. apply (rewind_not_monotone 10). reflexivity. Defined.

(** (coarsening delays to the next window bound).  For a positive window and
    no 64-bit overflow, [coarsen] on [u64] returns the next multiple of the
    window: strictly later than the time, at most one window later, and no
    multiple of the window lies strictly in between. *)
Theorem u64_coarsen_next_multiple (t w : N) :
  0 < w → t + w < 2 ^ 64 →
  ∃ r, u64_coarsen t w = Ret r ∧ (w | r) ∧ t < r ≤ t + w ∧
       ∀ m, (w | m) → t < m → r ≤ m.
Proof.
  intros Hw Hov. exists ((t / w + 1) * w).
  destruct (coarsen_step t w Hw) as [_ [Hlt Hle]].
  unfold u64_coarsen.
  destruct (N.eqb_spec w 0); [lia|]. rewrite N.mod_small by lia.
  split_and!; try done.
  - exists (t / w + 1). done.
  - intros m [k ->] Hm. apply N.mul_le_mono_r.
    assert (t / w < k); [|lia]. apply N.Div0.div_lt_upper_bound. lia.
Qed.

Lemma u64_coarsen_next_multiple_witness :
  ∃ r, coarsen 11 10 = Ret r ∧ (10 | r) ∧ 11 < r ≤ 11 + 10 ∧
       ∀ m, (10 | m) → 11 < m → r ≤ m.
Proof. apply (u64_coarsen_next_multiple 11 10); reflexivity. Defined.

(** The seconds and nanoseconds [Duration_coarsen] computes, without wrap-around. *)
Lemma Duration_coarsen_eq (d w : Duration) :
  Duration_wf d → Duration_wf w → secs d + secs w + 1 < 2 ^ 64 →
  ∃ s n, Duration_coarsen d w = Ret (mkDuration (s + n / NANOS_PER_SEC) (n mod NANOS_PER_SEC)) ∧
    s = (if secs w =? 0 then secs d else (secs d / secs w + 1) * secs w) ∧
    n = (if nanos w =? 0 then 0 else (nanos d / nanos w + 1) * nanos w).
Proof.
  unfold Duration_wf, NANOS_PER_SEC. intros Hd Hw Hov. eexists _, _.
  split; [|split; reflexivity]. unfold Duration_coarsen, Duration_new, NANOS_PER_SEC.
  assert ((if nanos w =? 0 then 0 else (nanos d / nanos w + 1) * nanos w mod 2 ^ 32)
          = (if nanos w =? 0 then 0 else (nanos d / nanos w + 1) * nanos w) ∧
          (if nanos w =? 0 then 0 else (nanos d / nanos w + 1) * nanos w) < 2000000000)
    as [-> Hn].
  { destruct (N.eqb_spec (nanos w) 0); [lia|].
    destruct (coarsen_step (nanos d) (nanos w)) as (_ & _ & ?); [lia|].
    rewrite N.mod_small by lia. lia. }
  assert ((if secs w =? 0 then secs d else (secs d / secs w + 1) * secs w mod 2 ^ 64)
          = (if secs w =? 0 then secs d else (secs d / secs w + 1) * secs w) ∧
          (if secs w =? 0 then secs d else (secs d / secs w + 1) * secs w) ≤ secs d + secs w)
    as [-> Hs].
  { destruct (N.eqb_spec (secs w) 0); [lia|].
    destruct (coarsen_step (secs d) (secs w)) as (_ & _ & ?); [lia|].
    rewrite N.mod_small by lia. lia. }
  revert Hn Hs. generalize (if nanos w =? 0 then 0 else (nanos d / nanos w + 1) * nanos w).
  generalize (if secs w =? 0 then secs d else (secs d / secs w + 1) * secs w).
  intros s n Hn Hs. assert (n / 1000000000 < 2).
  { apply N.Div0.div_lt_upper_bound. lia. }
  destruct (N.ltb_spec (s + n / 1000000000) (2 ^ 64)); [done|lia].
Qed.

(** (duration windows).  Coarsening a duration by a non-empty window delays
    it strictly and by at most one window; the result is a multiple of the
    window when the window has no sub-second part, and when it has only a
    sub-second part that divides one second. *)
Theorem Duration_coarsen_delays (d w : Duration) :
  Duration_wf d → Duration_wf w → 0 < total_nanos w → secs d + secs w + 1 < 2 ^ 64 →
  ∃ r, coarsen d w = Ret r ∧ Duration_wf r ∧
    total_nanos d < total_nanos r ≤ total_nanos d + total_nanos w ∧
    (nanos w = 0 → (total_nanos w | total_nanos r)) ∧
    (secs w = 0 → (nanos w | NANOS_PER_SEC) → (total_nanos w | total_nanos r)).
Proof.
  intros Hd Hw Hpos Hov.
  destruct (Duration_coarsen_eq d w Hd Hw Hov) as (s & n & Heq & Hs & Hn).
  exists (mkDuration (s + n / NANOS_PER_SEC) (n mod NANOS_PER_SEC)).
  assert (total_nanos (mkDuration (s + n / NANOS_PER_SEC) (n mod NANOS_PER_SEC))
          = s * NANOS_PER_SEC + n) as Htot.
  { unfold total_nanos; simpl. pose proof (N.div_mod n NANOS_PER_SEC). unfold NANOS_PER_SEC in *. lia. }
  assert ((secs w = 0 ∧ s = secs d) ∨ (0 < secs w ∧ secs d < s ≤ secs d + secs w)) as Hs'.
  { rewrite Hs. destruct (N.eqb_spec (secs w) 0); [by left|right].
    destruct (coarsen_step (secs d) (secs w)); lia. }
  assert ((nanos w = 0 ∧ n = 0) ∨ (0 < nanos w ∧ nanos d < n ≤ nanos d + nanos w)) as Hn'.
  { rewrite Hn. destruct (N.eqb_spec (nanos w) 0); [by left|right].
    destruct (coarsen_step (nanos d) (nanos w)); lia. }
  split; [exact Heq|]. split; [by apply N.mod_lt|]. rewrite Htot. split; [|split].
  - unfold total_nanos, Duration_wf, NANOS_PER_SEC in *. lia.
  - intros Hn0. unfold total_nanos. rewrite Hn0 in *. simpl in Hn. subst n.
    rewrite !N.add_0_r. apply N.mul_divide_mono_r. rewrite Hs.
    destruct (N.eqb_spec (secs w) 0) as [H0|]; [unfold total_nanos in Hpos; lia|].
    apply N.divide_factor_r.
  - intros Hs0 Hdiv. unfold total_nanos. rewrite Hs0 in *. simpl.
    apply N.divide_add_r; [by apply N.divide_mul_r|]. rewrite Hn.
    destruct (N.eqb_spec (nanos w) 0) as [H0|]; [unfold total_nanos in Hpos; lia|].
    apply N.divide_factor_r.
Qed.

Lemma Duration_coarsen_delays_witness :
  ∃ r, coarsen (mkDuration 10 500) (from_secs 10) = Ret r ∧ Duration_wf r ∧
    total_nanos (mkDuration 10 500) < total_nanos r ≤
      total_nanos (mkDuration 10 500) + total_nanos (from_secs 10) ∧
    (nanos (from_secs 10) = 0 → (total_nanos (from_secs 10) | total_nanos r)) ∧
    (secs (from_secs 10) = 0 → (nanos (from_secs 10) | NANOS_PER_SEC) →
     (total_nanos (from_secs 10) | total_nanos r)).
Proof.
  apply (Duration_coarsen_delays (mkDuration 10 500) (from_secs 10)); vm_compute; reflexivity.
Defined.

(** (mixed windows are not window bounds).  The documentation promises "the
    next multiple of the specified window size"; for a window of 1.5 seconds
    the code rounds seconds and nanoseconds separately and returns 11.5
    seconds for a time of 10 seconds, which is not a multiple. *)
Theorem Duration_coarsen_mixed_window :
  coarsen (from_secs 10) (mkDuration 1 500000000) = Ret (mkDuration 11 500000000) ∧
  ¬ (total_nanos (mkDuration 1 500000000) | total_nanos (mkDuration 11 500000000)).
Proof.
  split; [reflexivity|]. intros Hdiv%N.Lcm0.mod_divide. vm_compute in Hdiv. discriminate.
Qed.

(** C38 (AltNeu is a lattice refining its inner times).  Given a lattice of
    inner times, [AltNeu]'s join and meet are the least upper and greatest
    lower bounds of its lexicographic order, whose minimum is [alt minimum];
    the embedding of an inner time preserves and reflects the order, projects
    back to the same time, and [alt t] is strictly below [neu t]. *)
Theorem AltNeu_lattice_spec {T : Type} `{EqDecision T, LatticeLaws T, !PartialOrderLaws T}
    (a b u : AltNeu T) (t t' : T) :
  less_equal (AltNeu_alt minimum) a = true ∧
  (less_equal (join a b) u = true ↔ less_equal a u = true ∧ less_equal b u = true) ∧
  (less_equal u (meet a b) = true ↔ less_equal u a = true ∧ less_equal u b = true) ∧
  less_equal (AltNeu_to_inner t) (AltNeu_to_inner t') = less_equal t t' ∧
  AltNeu_to_outer (AltNeu_to_inner t) = t ∧
  less_equal (AltNeu_alt t) (AltNeu_neu t) = true ∧
  less_equal (AltNeu_neu t) (AltNeu_alt t) = false.
Proof.
  split_and!.
  - change (less_equal (minimum : AltNeu T) a = true). apply minimum_le.
  - split; [intros Hu; split|intros []; by apply join_least].
    + eapply less_equal_trans; [apply join_ub_l|exact Hu].
    + eapply less_equal_trans; [apply join_ub_r|exact Hu].
  - split; [intros Hu; split|intros []; by apply meet_greatest].
    + eapply less_equal_trans; [exact Hu|apply meet_lb_l].
    + eapply less_equal_trans; [exact Hu|apply meet_lb_r].
  - unfold less_equal at 1, AltNeu_less_equal. simpl. case_decide as Heq; [|done].
    subst. by rewrite less_equal_refl.
  - done.
  - unfold less_equal, AltNeu_less_equal. simpl. by rewrite decide_True.
  - unfold less_equal, AltNeu_less_equal. simpl. by rewrite decide_True.
Qed.

Lemma AltNeu_lattice_spec_witness :
  less_equal (join (AltNeu_alt 3) (AltNeu_neu 2)) (AltNeu_neu 3) = true.
Proof.
  apply (AltNeu_lattice_spec (AltNeu_alt 3) (AltNeu_neu 2) (AltNeu_neu 3) 0 0).
  split; reflexivity.
Defined.

(** (time conversions).  Exactly the [Time]s of a timestamp's own variant convert
    to it, back to what they were made from; all others panic.  A time of a nested
    scope is made from the outer time, in round 0. *)
Lemma Time_conversions_exact (x : Time) :
  (∀ t, u64_from_Time x = Ret t ↔ x = Time_from_u64 t) ∧
  (∀ d, Duration_from_Time x = Ret d ↔ x = Time_from_Duration d) ∧
  (∀ p, Pair_from_Time x = Ret p ↔ x = Time_from_Pair p) ∧
  (∀ q : Product N N, from_time x = Ret q ↔ x = Time_from_u64 (outer q) ∧ inner q = 0).
Proof.
  split_and!.
  - intros t. destruct x; simpl; split; intros [=]; by subst.
  - intros d. destruct x; simpl; split; intros [=]; by subst.
  - intros [a b]. destruct x; simpl; split; intros [=]; by subst.
  - intros [a b]. destruct x; simpl; split; try (by intros [=]); try (by intros [[=] ?]).
    + intros [= -> <-]. done.
    + by intros [[= ->] ->].
Qed.
