(* ===== verification/Values.v ===== *)
(** * Data values, errors and configuration (src/src/lib.rs, lines 54 to 470)

    [Value], [Error], [Datom], [Output]-level types, shutdown handles and the
    attribute configuration.  Attribute identifiers are [Aid = String], the only
    implementor of [AsAid]. *)
From Stdlib Require Import ZArith NArith Lia.
From stdpp Require Import base list strings numbers gmap pretty.
From S2P Require Import Prelude Timestamps.

(** ** Types of other crates

    [num_rational::Rational32] and [uuid::Uuid] with the operations the
    repository calls. *)
Class ExternValues := {
  Rational32 : Type;
  Rational32_eq_dec :: EqDecision Rational32;
  Rational32_ord :: Ord Rational32;
  Rational32_total :: TotalOrd Rational32;
  Ratio_new : Z → Z → outcome Rational32;
  Ratio_sub : Rational32 → Rational32 → Rational32;
  Ratio_pow : Rational32 → Z → Rational32;
  Uuid : Type;
  Uuid_eq_dec :: EqDecision Uuid;
  Uuid_ord :: Ord Uuid;
  Uuid_total :: TotalOrd Uuid;
  Uuid_parse_str : string → option Uuid
}.

Abbreviation Eid := N (only parsing).
Abbreviation Aid := string (only parsing).
(** A variable used in a query ([type Var = u32]). *)
Abbreviation Var := N (only parsing).

Section values.
Context `{ExternValues}.

Inductive Value : Type :=
| VAid (a : Aid)
| VString (s : string)
| VBool (b : bool)
| VNumber (z : Z)
| VRational32 (r : Rational32)
| VEid (e : Eid)
| VInstant (t : N)
| VUuid (u : Uuid).

#[export] Instance Value_eq_dec : EqDecision Value.
Proof. solve_decision. Defined.

(** [derive(Ord)]: by variant, then by payload. *)
Definition Value_tag (v : Value) : N :=
  match v with
  | VAid _ => 0 | VString _ => 1 | VBool _ => 2 | VNumber _ => 3
  | VRational32 _ => 4 | VEid _ => 5 | VInstant _ => 6 | VUuid _ => 7
  end.
#[export] Instance Value_ord : Ord Value := λ a b,
  match a, b with
  | VAid x, VAid y => cmp x y
  | VString x, VString y => cmp x y
  | VBool x, VBool y => cmp x y
  | VNumber x, VNumber y => cmp x y
  | VRational32 x, VRational32 y => cmp x y
  | VEid x, VEid y => cmp x y
  | VInstant x, VInstant y => cmp x y
  | VUuid x, VUuid y => cmp x y
  | _, _ => cmp (Value_tag a) (Value_tag b)
  end.

(** ** [AsAid for String] *)
Definition with_namespace (self namespace : Aid) : Aid :=
  (namespace +:+ "/" +:+ self)%string.
Definition into_value (self : Aid) : Value := VAid self.

(** ** Constructors and conversions of [Value] *)
Definition Value_aid (v : string) : Value := VAid v.
Definition Value_uuid_str (v : string) : outcome Value :=
  u ← expect "failed to parse UUID" (Uuid_parse_str v); Ret (VUuid u).
Definition Value_from_str (v : string) : Value := VString v.

(** [impl From<Value> for Eid]. *)
Definition Eid_from_Value (v : Value) : outcome Eid :=
  match v with
  | VEid eid => Ret eid
  | _ => Panic "Value can't be converted to Eid"
  end.

Lemma Value_cmp_tag a b : Value_tag a ≠ Value_tag b → cmp a b = cmp (Value_tag a) (Value_tag b).
Proof. destruct a, b; done. Qed.

#[export] Instance Value_total_ord : TotalOrd Value.
Proof.
  set (f v := (Value_tag v,
    (match v with VAid s | VString s => s | _ => "" end,
     (match v with VBool b => b | _ => true end,
      (match v with VNumber z => z | _ => 0%Z end,
       (match v with VRational32 r => Some r | _ => None end,
        (match v with VEid n | VInstant n => n | _ => 0%N end,
         match v with VUuid u => Some u | _ => None end))))))%string).
  assert (Inj (=) (=) f) by (intros [] []; unfold f; simpl; intros; simplify_eq; congruence).
  apply (TotalOrd_inj _ f). intros a b. unfold f. rewrite !cmp_pair.
  destruct (decide (Value_tag a = Value_tag b)) as [Htag|Htag].
  - rewrite Htag, cmp_refl.
    destruct a, b; try discriminate Htag; cbn -[cmp]; rewrite ?cmp_refl;
      match goal with |- @cmp Value _ ?x ?y = _ => unfold cmp at 1, Value_ord end;
      try match goal with
        |- context [@cmp (option _) _ (Some ?x) (Some ?y)] =>
          change (cmp (Some x) (Some y)) with (cmp x y) end;
      try match goal with |- _ = match ?c with _ => _ end => destruct c end;
      reflexivity.
  - rewrite Value_cmp_tag by done. destruct (cmp _ _) eqn:E; [|done..].
    apply cmp_eq in E. done.
Qed.
End values.

(** ** [Error] *)

Record Error := mkError { category : string; message : string }.

Definition Error_incorrect (e : string) : Error := mkError "df.error.category/incorrect" e.
Definition Error_not_found (e : string) : Error := mkError "df.error.category/not-found" e.
Definition Error_conflict (e : string) : Error := mkError "df.error.category/conflict" e.
Definition Error_fault (e : string) : Error := mkError "df.error.category/fault" e.
Definition Error_unsupported (e : string) : Error := mkError "df.error.category/unsupported" e.

(** ** [Datom] *)

Section datom.
Context `{ExternValues}.

Record Datom := mkDatom {
  d_e : Value; d_a : Aid; d_v : Value; d_t : option Time; d_diff : Z
}.

Definition Datom_add (e : Eid) (a : Aid) (v : Value) : Datom :=
  mkDatom (VEid e) a v None 1.
Definition Datom_add_at (e : Eid) (a : Aid) (v : Value) (t : Time) : Datom :=
  mkDatom (VEid e) a v (Some t) 1.
Definition Datom_retract (e : Eid) (a : Aid) (v : Value) : Datom :=
  mkDatom (VEid e) a v None (-1).
Definition Datom_retract_at (e : Eid) (a : Aid) (v : Value) (t : Time) : Datom :=
  mkDatom (VEid e) a v (Some t) (-1).

(** A (tuple, time, diff) triple, as sent back to clients. *)
Definition ResultDiff (T : Type) : Type := list Value * T * Z.
End datom.

(** ** [ShutdownHandle]

    A handle owns buttons; dropping it presses them in order.  The button type
    is differential dataflow's. *)
Section shutdown.
Context {Button : Type}.

Record ShutdownHandle := mkShutdownHandle { shutdown_buttons : list Button }.

(** [Drop]: the buttons pressed, in order. *)
Definition ShutdownHandle_drop (self : ShutdownHandle) : list Button :=
  shutdown_buttons self.
Definition ShutdownHandle_empty : ShutdownHandle := mkShutdownHandle [].
Definition ShutdownHandle_from_button (button : Button) : ShutdownHandle :=
  mkShutdownHandle [button].
Definition ShutdownHandle_add_button (self : ShutdownHandle) (button : Button) : ShutdownHandle :=
  mkShutdownHandle (shutdown_buttons self ++ [button]).
Definition ShutdownHandle_merge_with (self other : ShutdownHandle) : ShutdownHandle :=
  mkShutdownHandle (shutdown_buttons self ++ shutdown_buttons other).
Definition ShutdownHandle_merge (left right : ShutdownHandle) : ShutdownHandle :=
  mkShutdownHandle (shutdown_buttons left ++ shutdown_buttons right).
End shutdown.
Arguments ShutdownHandle : clear implicits.

(** ** Attribute configuration *)

Inductive InputSemantics := Raw | LastWriteWins | Distinct.
Inductive IndexDirection := Forward | Both.
Inductive QuerySupport := Basic | Delta | AdaptiveWCO.

#[export] Instance InputSemantics_eq_dec : EqDecision InputSemantics.
Proof. solve_decision. Defined.
#[export] Instance IndexDirection_eq_dec : EqDecision IndexDirection.
Proof. solve_decision. Defined.
#[export] Instance QuerySupport_eq_dec : EqDecision QuerySupport.
Proof. solve_decision. Defined.

(** The discriminants of [QuerySupport], which order it. *)
Definition QuerySupport_level (q : QuerySupport) : N :=
  match q with Basic => 0 | Delta => 1 | AdaptiveWCO => 2 end.
#[export] Instance QuerySupport_ord : Ord QuerySupport := cmp_on QuerySupport_level.

Record AttributeConfig := mkAttributeConfig {
  input_semantics : InputSemantics;
  trace_slack : option Time;
  index_direction : IndexDirection;
  query_support : QuerySupport
}.

Definition AttributeConfig_default : AttributeConfig :=
  mkAttributeConfig Raw None Forward Basic.
Definition AttributeConfig_tx_time (s : InputSemantics) : AttributeConfig :=
  mkAttributeConfig s (Some (TxId 1)) Forward Basic.
Definition AttributeConfig_real_time (s : InputSemantics) : AttributeConfig :=
  mkAttributeConfig s (Some (Real (from_secs 0))) Forward Basic.
Definition AttributeConfig_uncompacted (s : InputSemantics) : AttributeConfig :=
  mkAttributeConfig s None Forward Basic.

(** ** A model of the external value types

    Rationals as reduced fractions with a positive denominator, UUIDs as
    numbers that parse from one-character strings: enough to run the
    definitions of the development on concrete inputs. *)
Definition reduce_ratio (n d : Z) : Z * Z :=
  let g := Z.gcd n d in
  let s := Z.sgn d in
  ((s * n / g)%Z, (s * d / g)%Z).

Definition extern_model : ExternValues := {|
  Rational32 := Z * Z;
  Ratio_new n d := if (d =? 0)%Z then Panic "denominator == 0" else Ret (reduce_ratio n d);
  Ratio_sub a b := reduce_ratio (a.1 * b.2 - b.1 * a.2) (a.2 * b.2);
  Ratio_pow a k := reduce_ratio (a.1 ^ k) (a.2 ^ k);
  Uuid := N;
  Uuid_parse_str s := match s with String c EmptyString => Some (Ascii.N_of_ascii c) | _ => None end
|}.
