(* ===== verification/Outputs.v ===== *)
(** * What clients receive (src/src/lib.rs)

    JSON values, as far as the library builds them, and the outputs sent to
    clients.  JSON maps are serde_json's default, sorted by key. *)
From Stdlib Require Import ZArith NArith.
From stdpp Require Import base strings numbers gmap list pretty.
From S2P Require Import Prelude Timestamps Values.

(** ** JSON values ([serde_json::Value]) *)
Inductive JValue : Type :=
| JNull
| JBool (b : bool)
| JNumber (z : Z)
| JString (s : string)
| JArray (l : list JValue)
| JObject (m : gmap string JValue).

Section outputs.
Context `{EV : ExternValues}.

(** [impl From<Value> for serde_json::Value]. *)
Definition JValue_from (v : Value) : outcome JValue :=
  match v with
  | VEid v => Ret (JString (pretty v))
  | VAid v => Ret (JString v)
  | VString v => Ret (JString v)
  | VBool v => Ret (JBool v)
  | VNumber v => Ret (JNumber v)
  | _ => Panic "not yet implemented"
  end.

(** [ResultDiff<Time>]: a tuple, its time and its difference. *)
Abbreviation ResultDiff T := (list Value * T * Z)%type (only parsing).

Inductive Output : Type :=
| QueryDiff (name : Aid) (results : list (ResultDiff Time))
| Json (name : Aid) (value : JValue) (t : Time) (diff : Z)
| Message (client : N) (message : JValue)
| OError (client : N) (error : Error) (last_tx : N).
End outputs.
