(* ===== verification/Bindings.v ===== *)
(** * The binding language (src/src/binding/mod.rs)

    The [AsBinding] trait, the four kinds of bindings and their readiness to
    extend a prefix of bound variables.  A prefix is only ever asked which
    offset a variable is bound at, so a [&dyn AsBinding] prefix is represented
    by its [binds] function. *)
From Stdlib Require Import ZArith NArith Lia.
From stdpp Require Import base list strings numbers sets.
From S2P Require Import Prelude Timestamps Values.
Local Open Scope N_scope.

Definition Prefix : Type := Var → option nat.

Class AsBinding (B : Type) := {
  variables : B → list Var;
  binds : B → Var → option nat;
  ready_to_extend : B → Prefix → option Var;
  required_to_extend : B → Prefix → Var → outcome (option (option Var))
}.

(** The provided method [AsBinding::can_extend]. *)
Definition can_extend `{AsBinding B} (self : B) (prefix : Prefix) (target : Var) : bool :=
  bool_decide (ready_to_extend self prefix = Some target).

Definition is_some {A} (o : option A) : bool := match o with Some _ => true | None => false end.
Definition is_none {A} (o : option A) : bool := negb (is_some o).

(** ** [impl AsBinding for Vec<Var>] *)

Definition Vec_binds (self : list Var) (variable : Var) : option nat :=
  position (λ x, variable =? x) self.

#[export] Instance AsBinding_Vec : AsBinding (list Var) := {|
  variables := λ _, [];
  binds := Vec_binds;
  ready_to_extend := λ _ _, None;
  required_to_extend := λ _ _ _, Ret (Some None)
|}.

(** ** Binary bindings

    [AttributeBinding] and [BinaryPredicateBinding] share the code of their
    three methods, over a pair of variables. *)

Definition pair_variables (vars : Var * Var) : list Var := [vars.1; vars.2].

Definition pair_binds (vars : Var * Var) (variable : Var) : option nat :=
  if vars.1 =? variable then Some 0%nat
  else if vars.2 =? variable then Some 1%nat
  else None.

Definition pair_ready_to_extend (vars : Var * Var) (prefix : Prefix) : option Var :=
  if is_some (prefix vars.1) && is_none (prefix vars.2) then Some vars.2
  else if is_some (prefix vars.2) && is_none (prefix vars.1) then Some vars.1
  else None.

Definition pair_required_to_extend (vars : Var * Var) (prefix : Prefix) (target : Var)
    : outcome (option (option Var)) :=
  match pair_binds vars target with
  | None => Ret None
  | Some offset =>
      if Nat.eqb offset 0 then
        _ ← assert_that "prefix.binds(self.variables.0).is_none()" (is_none (prefix vars.1));
        match prefix vars.2 with
        | None => Ret (Some (Some vars.2))
        | Some _ => Ret (Some None)
        end
      else
        _ ← assert_that "prefix.binds(self.variables.1).is_none()" (is_none (prefix vars.2));
        match prefix vars.1 with
        | None => Ret (Some (Some vars.1))
        | Some _ => Ret (Some None)
        end
  end.

Section bindings.
Context `{ExternValues}.

(** ** [AttributeBinding] *)
Record AttributeBinding := mkAttributeBinding {
  ab_variables : Var * Var;
  source_attribute : Aid
}.

Definition AttributeBinding_variables (self : AttributeBinding) : list Var :=
  pair_variables (ab_variables self).
Definition AttributeBinding_binds (self : AttributeBinding) : Var → option nat :=
  pair_binds (ab_variables self).
Definition AttributeBinding_ready_to_extend (self : AttributeBinding) : Prefix → option Var :=
  pair_ready_to_extend (ab_variables self).
Definition AttributeBinding_required_to_extend (self : AttributeBinding) :
    Prefix → Var → outcome (option (option Var)) :=
  pair_required_to_extend (ab_variables self).

(** ** [ConstantBinding] *)
Record ConstantBinding := mkConstantBinding { cb_variable : Var; cb_value : Value }.

Definition ConstantBinding_variables (self : ConstantBinding) : list Var := [cb_variable self].
Definition ConstantBinding_binds (self : ConstantBinding) (variable : Var) : option nat :=
  if cb_variable self =? variable then Some 0%nat else None.
Definition ConstantBinding_ready_to_extend (self : ConstantBinding) (prefix : Prefix)
    : option Var :=
  if is_none (prefix (cb_variable self)) then Some (cb_variable self) else None.
Definition ConstantBinding_required_to_extend (self : ConstantBinding) (prefix : Prefix)
    (target : Var) : outcome (option (option Var)) :=
  match ConstantBinding_binds self target with
  | None => Ret None
  | Some _ => match prefix target with
              | None => Ret (Some (Some (cb_variable self)))
              | Some _ => Ret (Some None)
              end
  end.

(** ** [BinaryPredicateBinding] *)
Inductive BinaryPredicate := LT | GT | LTE | GTE | EQ | NEQ.

Record BinaryPredicateBinding := mkBinaryPredicateBinding {
  bp_variables : Var * Var;
  bp_predicate : BinaryPredicate
}.

Definition BinaryPredicateBinding_variables (self : BinaryPredicateBinding) : list Var :=
  pair_variables (bp_variables self).
Definition BinaryPredicateBinding_binds (self : BinaryPredicateBinding) : Var → option nat :=
  pair_binds (bp_variables self).
Definition BinaryPredicateBinding_ready_to_extend (self : BinaryPredicateBinding) :
    Prefix → option Var := pair_ready_to_extend (bp_variables self).
Definition BinaryPredicateBinding_required_to_extend (self : BinaryPredicateBinding) :
    Prefix → Var → outcome (option (option Var)) :=
  pair_required_to_extend (bp_variables self).

(** ** [Binding]; [Not] is [AntijoinBinding], a boxed binding *)
Inductive Binding : Type :=
| BAttribute (b : AttributeBinding)
| BNot (binding : Binding)
| BConstant (b : ConstantBinding)
| BBinaryPredicate (b : BinaryPredicateBinding).

Definition Binding_attribute (e : Var) (name : Aid) (v : Var) : Binding :=
  BAttribute (mkAttributeBinding (e, v) name).
Definition Binding_constant (variable : Var) (value : Value) : Binding :=
  BConstant (mkConstantBinding variable value).
Definition Binding_binary_predicate (predicate : BinaryPredicate) (x y : Var) : Binding :=
  BBinaryPredicate (mkBinaryPredicateBinding (x, y) predicate).
Definition Binding_not (binding : Binding) : Binding := BNot binding.

Fixpoint Binding_variables (self : Binding) : list Var :=
  match self with
  | BAttribute b => AttributeBinding_variables b
  | BNot b => Binding_variables b
  | BConstant b => ConstantBinding_variables b
  | BBinaryPredicate b => BinaryPredicateBinding_variables b
  end.
Fixpoint Binding_binds (self : Binding) (variable : Var) : option nat :=
  match self with
  | BAttribute b => AttributeBinding_binds b variable
  | BNot b => Binding_binds b variable
  | BConstant b => ConstantBinding_binds b variable
  | BBinaryPredicate b => BinaryPredicateBinding_binds b variable
  end.
Fixpoint Binding_ready_to_extend (self : Binding) (prefix : Prefix) : option Var :=
  match self with
  | BAttribute b => AttributeBinding_ready_to_extend b prefix
  | BNot b => Binding_ready_to_extend b prefix
  | BConstant b => ConstantBinding_ready_to_extend b prefix
  | BBinaryPredicate b => BinaryPredicateBinding_ready_to_extend b prefix
  end.
Fixpoint Binding_required_to_extend (self : Binding) (prefix : Prefix) (target : Var)
    : outcome (option (option Var)) :=
  match self with
  | BAttribute b => AttributeBinding_required_to_extend b prefix target
  | BNot b => Binding_required_to_extend b prefix target
  | BConstant b => ConstantBinding_required_to_extend b prefix target
  | BBinaryPredicate b => BinaryPredicateBinding_required_to_extend b prefix target
  end.

#[export] Instance AsBinding_AttributeBinding : AsBinding AttributeBinding := {|
  variables := AttributeBinding_variables;
  binds := AttributeBinding_binds;
  ready_to_extend := AttributeBinding_ready_to_extend;
  required_to_extend := AttributeBinding_required_to_extend |}.
#[export] Instance AsBinding_Binding : AsBinding Binding := {|
  variables := Binding_variables;
  binds := Binding_binds;
  ready_to_extend := Binding_ready_to_extend;
  required_to_extend := Binding_required_to_extend |}.

(** *** Derived equality and order *)
#[export] Instance AttributeBinding_eq_dec : EqDecision AttributeBinding.
Proof. solve_decision. Defined.
#[export] Instance ConstantBinding_eq_dec : EqDecision ConstantBinding.
Proof. solve_decision. Defined.
#[export] Instance BinaryPredicate_eq_dec : EqDecision BinaryPredicate.
Proof. solve_decision. Defined.
#[export] Instance BinaryPredicateBinding_eq_dec : EqDecision BinaryPredicateBinding.
Proof. solve_decision. Defined.
#[export] Instance Binding_eq_dec : EqDecision Binding.
Proof. solve_decision. Defined.

Definition BinaryPredicate_level (p : BinaryPredicate) : N :=
  match p with LT => 0 | GT => 1 | LTE => 2 | GTE => 3 | EQ => 4 | NEQ => 5 end.
Definition Binding_tag (b : Binding) : N :=
  match b with BAttribute _ => 0 | BNot _ => 1 | BConstant _ => 2 | BBinaryPredicate _ => 3 end.
Fixpoint Binding_cmp (a b : Binding) : comparison :=
  match a, b with
  | BAttribute x, BAttribute y =>
      cmp (ab_variables x, source_attribute x) (ab_variables y, source_attribute y)
  | BNot x, BNot y => Binding_cmp x y
  | BConstant x, BConstant y => cmp (cb_variable x, cb_value x) (cb_variable y, cb_value y)
  | BBinaryPredicate x, BBinaryPredicate y =>
      cmp (bp_variables x, BinaryPredicate_level (bp_predicate x))
          (bp_variables y, BinaryPredicate_level (bp_predicate y))
  | _, _ => cmp (Binding_tag a) (Binding_tag b)
  end.
#[export] Instance Binding_ord : Ord Binding := Binding_cmp.
End bindings.

(** ** Lemmas *)

Lemma Vec_binds_None (l : list Var) v : Vec_binds l v = None ↔ v ∉ l.
Proof.
  unfold Vec_binds. rewrite position_None. split.
  - intros Hl Hv. apply Hl in Hv. by rewrite N.eqb_refl in Hv.
  - intros Hv x Hx. apply N.eqb_neq. by intros ->.
Qed.

Lemma Vec_binds_Some (l : list Var) v i : Vec_binds l v = Some i → l !! i = Some v.
Proof.
  unfold Vec_binds. rewrite position_Some. intros (x & Hx & Heq & _).
  apply N.eqb_eq in Heq. by subst.
Qed.

Lemma Vec_binds_is_some (l : list Var) v : is_some (Vec_binds l v) = true ↔ v ∈ l.
Proof.
  destruct (Vec_binds l v) eqn:E; simpl.
  - split; [|done]. intros _. apply Vec_binds_Some in E. by eapply list_elem_of_lookup_2.
  - apply Vec_binds_None in E. naive_solver.
Qed.

Lemma Vec_binds_NoDup (l : list Var) v i :
  NoDup l → l !! i = Some v → Vec_binds l v = Some i.
Proof.
  intros Hnd Hi. destruct (Vec_binds l v) as [j|] eqn:E.
  - apply Vec_binds_Some in E. f_equal. eapply NoDup_lookup; eauto.
  - apply Vec_binds_None in E. exfalso. by apply E, (list_elem_of_lookup_2 _ i).
Qed.

Lemma is_none_true {A} (o : option A) : is_none o = true ↔ o = None.
Proof. destruct o; naive_solver. Qed.
Lemma is_some_true {A} (o : option A) : is_some o = true ↔ o ≠ None.
Proof. destruct o; naive_solver. Qed.

Lemma pair_binds_eq vars v : pair_binds vars v = Vec_binds (pair_variables vars) v.
Proof.
  destruct vars as [a b]. unfold pair_binds, Vec_binds, pair_variables. simpl.
  rewrite (N.eqb_sym a v), (N.eqb_sym b v).
  destruct (v =? a); [done|]. by destruct (v =? b).
Qed.

Lemma pair_ready_spec vars (prefix : Prefix) v :
  pair_ready_to_extend vars prefix = Some v ↔
  prefix v = None ∧
  ((v = vars.2 ∧ prefix vars.1 ≠ None) ∨ (v = vars.1 ∧ prefix vars.2 ≠ None)).
Proof.
  destruct vars as [a b]. unfold pair_ready_to_extend; simpl.
  destruct (prefix a) eqn:Ea, (prefix b) eqn:Eb; simpl;
    (split; [intros; simplify_eq; auto|]); intros [Hv [[-> ?]|[-> ?]]]; congruence.
Qed.

Section binding_lemmas.
Context `{ExternValues}.

Lemma Binding_binds_eq b v : Binding_binds b v = Vec_binds (Binding_variables b) v.
Proof.
  induction b as [b|b IH|b|b]; simpl.
  - apply pair_binds_eq.
  - done.
  - unfold ConstantBinding_binds, ConstantBinding_variables, Vec_binds. simpl.
    rewrite N.eqb_sym. by destruct (v =? cb_variable b).
  - apply pair_binds_eq.
Qed.

Lemma Binding_binds_is_some b v :
  is_some (Binding_binds b v) = true ↔ v ∈ Binding_variables b.
Proof. rewrite Binding_binds_eq. apply Vec_binds_is_some. Qed.

(** A binding has one or two variables. *)
Lemma Binding_ready_cases b (prefix : Prefix) v :
  Binding_ready_to_extend b prefix = Some v ↔
  prefix v = None ∧
  (Binding_variables b = [v] ∨
   (∃ w, Binding_variables b = [w; v] ∧ prefix w ≠ None) ∨
   (∃ w, Binding_variables b = [v; w] ∧ prefix w ≠ None)).
Proof.
  assert (∀ vars : Var * Var, pair_ready_to_extend vars prefix = Some v ↔
    prefix v = None ∧
    (pair_variables vars = [v] ∨ (∃ w, pair_variables vars = [w; v] ∧ prefix w ≠ None) ∨
     (∃ w, pair_variables vars = [v; w] ∧ prefix w ≠ None))) as Hpair.
  { intros [x y]. rewrite pair_ready_spec. unfold pair_variables; simpl. naive_solver. }
  induction b as [b|b IH|b|b]; simpl; [apply Hpair|exact IH| |apply Hpair].
  unfold ConstantBinding_ready_to_extend, ConstantBinding_variables.
  destruct (prefix (cb_variable b)) eqn:E; simpl; naive_solver.
Qed.

Lemma Binding_ready_in b (prefix : Prefix) v :
  Binding_ready_to_extend b prefix = Some v → v ∈ Binding_variables b ∧ prefix v = None.
Proof.
  rewrite Binding_ready_cases. intros [Hv [->|[(w & -> & _)|(w & -> & _)]]]; set_solver.
Qed.

(** Bindings built from attributes and predicates only. *)
Fixpoint is_binary (b : Binding) : bool :=
  match b with BNot b => is_binary b | BConstant _ => false | _ => true end.
End binding_lemmas.

(** ** Theorems *)

Section binding_theorems.
Context `{ExternValues}.

(** (readiness).  A binding offers to extend a prefix to variable [v]
    exactly when it talks about [v], the prefix does not bind [v], and every
    other position of the binding is bound by the prefix; in particular a
    binding over one repeated variable, or one whose variables are all bound
    already, never offers an extension. *)
Theorem Binding_ready_to_extend_spec (b : Binding) (prefix : Prefix) (v : Var) :
  ready_to_extend b prefix = Some v ↔
  v ∈ variables b ∧ prefix v = None ∧
  ∀ i w, variables b !! i = Some w → binds b v ≠ Some i → prefix w ≠ None.
Proof.
  simpl. rewrite Binding_ready_cases, Binding_binds_eq.
  assert ((∃ x, Binding_variables b = [x]) ∨ (∃ x y, Binding_variables b = [x; y])) as Hlen.
  { induction b; simpl; eauto. }
  split.
  - intros [Hv [Hb|[(w & Hb & Hw)|(w & Hb & Hw)]]]; rewrite Hb; (split; [set_solver|]);
      (split; [done|]); unfold Vec_binds; simpl; rewrite N.eqb_refl.
    + intros [|[]] ? ? ?; simplify_eq/=.
    + destruct (N.eqb_spec v w) as [->|]; [congruence|].
      intros [|[|[]]] ? ? ?; simplify_eq/=; congruence.
    + intros [|[|[]]] ? ? ?; simplify_eq/=; congruence.
  - intros (Hin & Hv & Hall). split; [done|].
    destruct Hlen as [[x Hb]|(x & y & Hb)]; rewrite Hb in *; [set_solver|].
    unfold Vec_binds in Hall; simpl in Hall.
    destruct (N.eqb_spec v x) as [->|Hx].
    + right; right. exists y. split; [done|]. by apply (Hall 1%nat).
    + assert (v = y) as -> by set_solver. rewrite N.eqb_refl in Hall.
      right; left. exists x. split; [done|]. by apply (Hall 0%nat).
Qed.

(** (requirements agree with readiness).  For a binding made of attributes
    and predicates over two distinct variables and an unbound target,
    [required_to_extend] does not panic, is [None] exactly when the binding
    does not bind the target, and reports no missing variable exactly when
    the binding can extend the prefix to the target; a missing variable it
    reports is indeed a variable of the binding that the prefix lacks. *)
Theorem required_to_extend_agrees (b : Binding) (prefix : Prefix) (target : Var) :
  is_binary b = true → NoDup (variables b) → prefix target = None →
  ∃ r, required_to_extend b prefix target = Ret r ∧
    (r = None ↔ binds b target = None) ∧
    (r = Some None ↔ can_extend b prefix target = true) ∧
    (∀ w, r = Some (Some w) → w ∈ variables b ∧ w ≠ target ∧ prefix w = None).
Proof.
  assert (∀ vars : Var * Var, NoDup (pair_variables vars) → prefix target = None →
    ∃ r, pair_required_to_extend vars prefix target = Ret r ∧
      (r = None ↔ pair_binds vars target = None) ∧
      (r = Some None ↔ bool_decide (pair_ready_to_extend vars prefix = Some target) = true) ∧
      (∀ w, r = Some (Some w) → w ∈ pair_variables vars ∧ w ≠ target ∧ prefix w = None))
    as Hpair.
  { intros [x y] Hnd Ht. unfold pair_variables in *; simpl in *.
    assert (x ≠ y) as Hxy by (inversion Hnd; set_solver).
    setoid_rewrite bool_decide_eq_true. setoid_rewrite pair_ready_spec.
    unfold pair_required_to_extend, pair_binds; simpl.
    destruct (N.eqb_spec x target) as [<-|Hx]; simpl.
    - rewrite Ht. simpl. destruct (prefix y) eqn:Ey; eexists; (split; [done|]);
        split_and!; intros; simplify_eq; try set_solver.
    - destruct (N.eqb_spec y target) as [<-|Hy]; simpl.
      + rewrite Ht. simpl. destruct (prefix x) eqn:Ex; eexists; (split; [done|]);
          split_and!; intros; simplify_eq; try set_solver.
      + eexists; (split; [done|]); split_and!; intros; simplify_eq; try set_solver. }
  unfold can_extend. simpl.
  induction b as [b|b IH|b|b]; simpl; intros Hb; try done; [apply Hpair|by apply IH|apply Hpair].
Qed.
End binding_theorems.

(** Witness for C9. *)
Lemma required_to_extend_agrees_witness :
  ∃ r, @required_to_extend _ (@AsBinding_Binding extern_model)
         (@Binding_attribute extern_model 0 ":edge" 1) (Vec_binds [0; 2]) 1 = Ret r ∧
    (r = None ↔ @binds _ (@AsBinding_Binding extern_model)
       (@Binding_attribute extern_model 0 ":edge" 1) 1 = None) ∧
    (r = Some None ↔ @can_extend _ (@AsBinding_Binding extern_model)
       (@Binding_attribute extern_model 0 ":edge" 1) (Vec_binds [0; 2]) 1 = true) ∧
    (∀ w, r = Some (Some w) → w ∈ @variables _ (@AsBinding_Binding extern_model)
       (@Binding_attribute extern_model 0 ":edge" 1) ∧ w ≠ 1 ∧ Vec_binds [0; 2] w = None).
Proof.
  apply (@required_to_extend_agrees extern_model).
  - reflexivity.
  - apply (bool_decide_unpack _). vm_compute. exact I.
  - reflexivity.
Defined.

Section constant_divergence.
Context `{ExternValues}.

(** (constants require themselves).  A constant binding is ready to
    extend a prefix that lacks its variable, yet [required_to_extend]
    reports that very variable as one the prefix must bind first, while the
    trait documents the result as what must be bound for the binding to
    extend the prefix. *)
Theorem constant_requires_itself (v : Var) (value : Value) (prefix : Prefix) :
  prefix v = None →
  can_extend (Binding_constant v value) prefix v = true ∧
  required_to_extend (Binding_constant v value) prefix v = Ret (Some (Some v)).
Proof.
  intros Hv. unfold can_extend. simpl.
  unfold ConstantBinding_ready_to_extend, ConstantBinding_required_to_extend,
    ConstantBinding_binds. simpl. rewrite Hv, N.eqb_refl. split; [|done].
  by apply bool_decide_eq_true_2.
Qed.
End constant_divergence.

Lemma constant_requires_itself_witness :
  @can_extend _ (@AsBinding_Binding extern_model)
    (@Binding_constant extern_model 7 (VBool true)) (Vec_binds [0]) 7 = true.
Proof. apply (@constant_requires_itself extern_model 7 (VBool true) (Vec_binds [0])). reflexivity. Defined.
