(* ===== verification/HectorPlan.v ===== *)
(** * Ordering variables for Hector's delta pipelines (src/src/plan/hector.rs)

    The plan stage record, the direction of an index lookup, conflicts with the
    source of a pipeline, and [plan_order], whose loop carries fuel ([None] when
    it runs out: the code keeps looping). *)
From Stdlib Require Import ZArith NArith Lia.
From stdpp Require Import base strings numbers sets list.
From S2P Require Import Prelude Timestamps Values Bindings.

Section hector_plan.
Context `{EV : ExternValues}.

Record Hector := mkHector { he_variables : list Var; he_bindings : list Binding }.

Inductive Direction := DForward (offset : nat) | DReverse (offset : nat).

Definition direction (prefix : Prefix) (extender_variables : Var * Var)
    : Result Direction string :=
  match prefix extender_variables.1 with
  | None =>
      match prefix extender_variables.2 with
      | None => Err "Neither extender variable bound by prefix."
      | Some offset => Ok (DReverse offset)
      end
  | Some offset =>
      match prefix extender_variables.2 with
      | Some _ => Err "Both extender variables already bound by prefix."
      | None => Ok (DForward offset)
      end
  end.

(** [bindings.iter().enumerate()], without the source. *)
Definition others (source_index : nat) (bindings : list Binding) : list Binding :=
  snd <$> filter (λ p : nat * Binding, p.1 ≠ source_index) (imap pair bindings).

Definition source_conflicts (source_index : nat) (bindings : list Binding)
    : outcome (list Binding) :=
  match bindings !! source_index with
  | Some (BAttribute source) =>
      let prefix_0 := [(ab_variables source).1] in
      let prefix_1 := [(ab_variables source).2] in
      Ret (filter (λ binding,
             can_extend binding (Vec_binds prefix_0) (ab_variables source).2 = true ∨
             can_extend binding (Vec_binds prefix_1) (ab_variables source).1 = true)
             (others source_index bindings))
  | Some _ => Panic "Source must be an AttributeBinding."
  | None => Panic "index out of bounds"
  end.

Definition candidates_for (source_index : nat) (bindings : list Binding) (target : Var)
    : list Binding :=
  filter (λ other, is_some (Binding_binds other target) = true) (others source_index bindings).

(** [for candidate in candidates.drain(..)], threading the prefix, the waiting
    candidates and the ordered bindings. *)
Fixpoint plan_order_round (source_index : nat) (bindings : list Binding)
    (candidates : list Binding) (prefix : list Var) (waiting ordered : list Binding)
    : list Var * list Binding * list Binding :=
  match candidates with
  | [] => (prefix, waiting, ordered)
  | candidate :: rest =>
      match Binding_ready_to_extend candidate (Vec_binds prefix) with
      | None =>
          plan_order_round source_index bindings rest prefix (waiting ++ [candidate]) ordered
      | Some target =>
          let '(prefix, waiting) :=
            if is_none (Vec_binds prefix target)
            then (prefix ++ [target],
                  waiting ++ filter (λ new_candidate, candidate ≠ new_candidate)
                               (candidates_for source_index bindings target))
            else (prefix, waiting) in
          plan_order_round source_index bindings rest prefix waiting (ordered ++ [candidate])
      end
  end.

(** The [loop], for at most [fuel] rounds. *)
Fixpoint plan_order_loop (fuel : nat) (source_index : nat) (bindings : list Binding)
    (total : nat) (candidates : list Binding) (prefix : list Var) (ordered : list Binding)
    : option (list Var * list Binding) :=
  match fuel with
  | O => None
  | S fuel =>
      let candidates := dedup (sort_by cmp_le candidates) in
      let '(prefix, waiting, ordered) :=
        plan_order_round source_index bindings candidates prefix [] ordered in
      if bool_decide (waiting = []) then Some (prefix, ordered)
      else if bool_decide (length prefix = total) then Some (prefix, ordered ++ waiting)
      else plan_order_loop fuel source_index bindings total waiting prefix ordered
  end.

(** [bindings.iter().flat_map(variables)], sorted and without duplicates. *)
Definition binding_variables (bindings : list Binding) : list Var :=
  dedup (sort_by cmp_le (bindings ≫= Binding_variables)).

Definition plan_order (fuel : nat) (source_index : nat) (bindings : list Binding)
    : outcome (option (list Var * list Binding)) :=
  let variables := binding_variables bindings in
  match bindings !! source_index with
  | Some (BAttribute source) =>
      let prefix := [(ab_variables source).1; (ab_variables source).2] in
      let candidates := prefix ≫= candidates_for source_index bindings in
      Ret (plan_order_loop fuel source_index bindings (length variables) candidates prefix [])
  | Some _ => Panic "Source binding must be an attribute."
  | None => Panic "index out of bounds"
  end.
End hector_plan.

(** ** The repository's own test of the orders *)
Section plan_order_tests.
#[local] Existing Instance extern_model.

Definition ordering_bindings : list Binding :=
  [Binding_attribute 2 ":age" 3; Binding_attribute 0 ":age" 3; Binding_attribute 0 ":name" 1;
   Binding_attribute 2 ":name" 4; Binding_constant 1 (VString "Ivan")]%N.

Example ordering_0 : plan_order 5 0 ordering_bindings = Ret (Some ([2; 3; 0; 4; 1]%N,
  [Binding_attribute 0 ":age" 3; Binding_attribute 2 ":name" 4; Binding_attribute 0 ":name" 1;
   Binding_constant 1 (VString "Ivan")]%N)).
Proof. vm_refl. Qed.
Example ordering_1 : plan_order 5 1 ordering_bindings = Ret (Some ([0; 3; 1; 2; 4]%N,
  [Binding_attribute 0 ":name" 1; Binding_attribute 2 ":age" 3; Binding_attribute 2 ":name" 4;
   Binding_constant 1 (VString "Ivan")]%N)).
Proof. vm_refl. Qed.
Example ordering_2 : plan_order 5 2 ordering_bindings = Ret (Some ([0; 1; 3; 2; 4]%N,
  [Binding_attribute 0 ":age" 3; Binding_attribute 2 ":age" 3; Binding_attribute 2 ":name" 4;
   Binding_constant 1 (VString "Ivan")]%N)).
Proof. vm_refl. Qed.
End plan_order_tests.

(** ** Variable orders are complete *)
Section plan_order_theorems.
Context `{EV : ExternValues}.
Context (src : nat) (bs : list Binding).
Implicit Types (b c : Binding) (prefix : list Var) (pending ordered waiting : list Binding).

Definition other b : Prop := ∃ j, j ≠ src ∧ bs !! j = Some b.

(** The binding talks about a variable of the prefix. *)
Definition touches b prefix : Prop := ∃ x, x ∈ prefix ∧ x ∈ Binding_variables b.

(** Any prefix from which the source was extended by ready bindings, and which
    lacks a variable, can be extended by a binding that touches it. *)
Definition connected : Prop :=
  ∀ prefix e v a, bs !! src = Some (Binding_attribute e a v) → e ∈ prefix → v ∈ prefix →
    (∃ x, x ∈ binding_variables bs ∧ x ∉ prefix) →
    ∃ b t, other b ∧ touches b prefix ∧ Binding_ready_to_extend b (Vec_binds prefix) = Some t.

Lemma elem_of_others b : b ∈ others src bs ↔ other b.
Proof.
  unfold others, other. rewrite list_elem_of_fmap. split.
  - intros ([j b'] & -> & [Hj Hin]%list_elem_of_filter). simpl in *.
    apply list_elem_of_lookup in Hin as [k Hk]. rewrite list_lookup_imap in Hk.
    destruct (bs !! k) eqn:E; simplify_eq/=. eauto.
  - intros (j & Hj & Hb). exists (j, b). split; [done|]. rewrite list_elem_of_filter.
    split; [done|]. apply list_elem_of_lookup. exists j. by rewrite list_lookup_imap, Hb.
Qed.

Lemma elem_of_candidates b t : b ∈ candidates_for src bs t ↔ other b ∧ t ∈ Binding_variables b.
Proof.
  unfold candidates_for. rewrite list_elem_of_filter, elem_of_others, Binding_binds_is_some. tauto.
Qed.

Lemma elem_of_binding_variables x : x ∈ binding_variables bs ↔ ∃ b, b ∈ bs ∧ x ∈ Binding_variables b.
Proof.
  unfold binding_variables. rewrite elem_of_dedup, sort_by_perm, list_elem_of_bind. naive_solver.
Qed.

Lemma NoDup_binding_variables : NoDup (binding_variables bs).
Proof. apply NoDup_dedup_sorted, sort_by_sorted; [apply cmp_le_total|apply cmp_le_trans]. Qed.

Lemma other_variables_bound b x : other b → x ∈ Binding_variables b → x ∈ binding_variables bs.
Proof.
  intros (j & _ & Hb) Hx. apply elem_of_binding_variables. exists b. split; [|done].
  by eapply list_elem_of_lookup_2.
Qed.

(** What holds between two steps of the loop. *)
Record order_invariant prefix pending ordered : Prop := {
  oi_others : ∀ b, b ∈ pending ++ ordered → other b;
  oi_touched : ∀ b, other b → touches b prefix → b ∈ pending ++ ordered;
  oi_ordered : ∀ b, b ∈ ordered → Binding_variables b ⊆ prefix;
  oi_nodup : NoDup prefix;
  oi_known : prefix ⊆ binding_variables bs;
  oi_length : 2 ≤ length prefix;
  oi_justified : ∀ i x, 2 ≤ i → prefix !! i = Some x →
    ∃ b, other b ∧ can_extend b (Vec_binds (take i prefix)) x = true
}.

Lemma ready_variables b prefix t :
  Binding_ready_to_extend b (Vec_binds prefix) = Some t →
  t ∉ prefix ∧ t ∈ Binding_variables b ∧ Binding_variables b ⊆ prefix ++ [t].
Proof.
  rewrite Binding_ready_cases, Vec_binds_None. intros [Ht Hcases]. split; [done|].
  assert (∀ w, Vec_binds prefix w ≠ None → w ∈ prefix) as Hin.
  { intros w Hw. by apply Vec_binds_is_some, is_some_true. }
  destruct Hcases as [->|[(w & -> & Hw%Hin)|(w & -> & Hw%Hin)]]; split; set_solver.
Qed.

(** One candidate is put back, or extends the prefix. *)
Lemma order_invariant_extend b t prefix pending waiting ordered :
  Binding_ready_to_extend b (Vec_binds prefix) = Some t →
  order_invariant prefix ((b :: pending) ++ waiting) ordered →
  order_invariant (prefix ++ [t])
    (pending ++ waiting ++ filter (λ c, b ≠ c) (candidates_for src bs t)) (ordered ++ [b]).
Proof.
  intros Hready [Hoth Htou Hord Hnd Hkn Hlen Hjust].
  destruct (ready_variables _ _ _ Hready) as (Hnt & Htb & Hvars).
  assert (other b) as Hb by (apply Hoth; set_solver).
  split.
  - intros c Hc. rewrite !elem_of_app, list_elem_of_filter, elem_of_candidates, list_elem_of_singleton in Hc.
    destruct Hc as [[?|[?|[_ [? _]]]]|[?| ->]]; try done; apply Hoth; set_solver.
  - intros c Hc (x & [Hx| ->%list_elem_of_singleton]%elem_of_app & Hxc).
    + assert (c ∈ ((b :: pending) ++ waiting) ++ ordered) as Hin by (apply Htou; [done|by exists x]).
      set_solver.
    + destruct (decide (b = c)) as [->|Hne]; [set_solver|].
      rewrite !elem_of_app, list_elem_of_filter, elem_of_candidates. naive_solver.
  - intros c [Hc| ->%list_elem_of_singleton]%elem_of_app; [|done].
    specialize (Hord c Hc). set_solver.
  - apply NoDup_app. split; [done|]. split; [set_solver|apply NoDup_singleton].
  - assert (t ∈ binding_variables bs) by (by eapply other_variables_bound). set_solver.
  - rewrite length_app. lia.
  - intros i x Hi Hx. destruct (decide (i < length prefix)) as [Hlt|Hge].
    + rewrite lookup_app_l in Hx by done. rewrite take_app_le by lia. by apply Hjust.
    + apply lookup_lt_Some in Hx as Hlt. rewrite length_app in Hlt. simpl in Hlt.
      assert (i = length prefix) as -> by lia.
      rewrite lookup_app_r, Nat.sub_diag in Hx by lia. injection Hx as ->.
      exists b. split; [done|]. rewrite take_app_length. by apply bool_decide_eq_true.
Qed.

Lemma order_invariant_perm prefix pending pending' ordered :
  (∀ b, b ∈ pending ↔ b ∈ pending') →
  order_invariant prefix pending ordered → order_invariant prefix pending' ordered.
Proof. intros Hp []. split; try done; set_solver. Qed.

(** A round keeps the invariant; it extends the prefix if some candidate is
    ready, and otherwise changes nothing. *)
Lemma plan_order_round_spec cs prefix waiting ordered prefix' waiting' ordered' :
  order_invariant prefix (cs ++ waiting) ordered →
  plan_order_round src bs cs prefix waiting ordered = (prefix', waiting', ordered') →
  order_invariant prefix' waiting' ordered' ∧ prefix `prefix_of` prefix' ∧
  (length prefix < length prefix' ∨
   ∀ c, c ∈ cs → Binding_ready_to_extend c (Vec_binds prefix) = None).
Proof.
  revert prefix waiting ordered. induction cs as [|c cs IH]; intros prefix waiting ordered Hinv Hr.
  - simpl in *. simplify_eq. split_and!; [done|done|]. right. set_solver.
  - cbn [plan_order_round] in Hr. destruct (Binding_ready_to_extend c (Vec_binds prefix)) as [t|] eqn:Hc.
    + destruct (ready_variables _ _ _ Hc) as (Hnt & _).
      assert (is_none (Vec_binds prefix t) = true) as Hn by (by apply is_none_true, Vec_binds_None).
      rewrite Hn in Hr. eapply order_invariant_extend in Hinv; [|exact Hc].
      apply IH in Hr as (Hinv' & Hpre & _); [|exact Hinv].
      split_and!; [done|by eapply prefix_app_l|].
      left. apply prefix_length in Hpre. rewrite length_app in Hpre. simpl in Hpre. lia.
    + apply IH in Hr as (Hinv' & Hpre & Hor).
      * split_and!; [done|done|]. destruct Hor as [?|Hor]; [by left|]. right. set_solver.
      * eapply order_invariant_perm; [|exact Hinv]. set_solver.
Qed.

Context (Hconnected : connected).

Lemma order_invariant_progress prefix pending ordered e v a :
  bs !! src = Some (Binding_attribute e a v) → [e; v] `prefix_of` prefix →
  order_invariant prefix pending ordered → length prefix ≠ length (binding_variables bs) →
  ∃ b t, b ∈ pending ∧ Binding_ready_to_extend b (Vec_binds prefix) = Some t.
Proof.
  intros Hsrc [ext ->] Hinv Hlen. set (prefix := [e; v] ++ ext) in *.
  destruct (decide (Forall (.∈ prefix) (binding_variables bs))) as [Hall|Hall].
  - exfalso. apply Hlen. apply Nat.le_antisymm; apply NoDup_incl_length.
    + apply NoDup_ListNoDup, (oi_nodup _ _ _ Hinv).
    + intros x Hx%list_elem_of_In. apply list_elem_of_In. by apply (oi_known _ _ _ Hinv).
    + apply NoDup_ListNoDup, NoDup_binding_variables.
    + intros x Hx%list_elem_of_In. apply list_elem_of_In. rewrite Forall_forall in Hall. by apply Hall.
  - apply not_Forall_Exists, Exists_exists in Hall as (x & Hx & Hnx); [|apply _].
    destruct (Hconnected prefix e v a) as (b & t & Hb & Htou & Hready); [done|set_solver..|by exists x|].
    exists b, t. split; [|done]. pose proof (oi_touched _ _ _ Hinv b Hb Htou) as Hin.
    apply elem_of_app in Hin as [?|Hin]; [done|].
    destruct (ready_variables _ _ _ Hready) as (Hnt & Htb & _).
    by apply (oi_ordered _ _ _ Hinv b Hin) in Htb.
Qed.

(** Enough fuel is the number of variables still to bind, plus one. *)
Lemma plan_order_loop_spec fuel cs prefix ordered e v a :
  bs !! src = Some (Binding_attribute e a v) → [e; v] `prefix_of` prefix →
  order_invariant prefix cs ordered → length (binding_variables bs) < fuel + length prefix →
  ∃ prefix' waiting' ordered',
    plan_order_loop fuel src bs (length (binding_variables bs)) cs prefix ordered =
      Some (prefix', ordered' ++ waiting') ∧
    [e; v] `prefix_of` prefix' ∧ order_invariant prefix' waiting' ordered' ∧
    length prefix' = length (binding_variables bs).
Proof.
  intros Hsrc. revert cs prefix ordered. induction fuel as [|fuel IH]; intros cs prefix ordered Hpre Hinv Hfuel.
  { exfalso. assert (length prefix ≤ length (binding_variables bs)); [|lia].
    apply NoDup_incl_length; [apply NoDup_ListNoDup, (oi_nodup _ _ _ Hinv)|].
    intros x Hx%list_elem_of_In. apply list_elem_of_In. by apply (oi_known _ _ _ Hinv). }
  cbn [plan_order_loop].
  destruct (plan_order_round src bs _ prefix [] ordered) as [[prefix1 waiting1] ordered1] eqn:Hround.
  apply plan_order_round_spec in Hround as (Hinv1 & Hpre1 & Hor).
  2: { eapply order_invariant_perm; [|exact Hinv]. intros b.
       rewrite app_nil_r, elem_of_dedup, sort_by_perm. done. }
  assert ([e; v] `prefix_of` prefix1) as Hev by (by etrans).
  case_bool_decide as Hw.
  - subst waiting1. exists prefix1, [], ordered1. rewrite app_nil_r. split_and!; try done.
    destruct (decide (length prefix1 = length (binding_variables bs))) as [|Hne]; [done|].
    destruct (order_invariant_progress _ _ _ _ _ _ Hsrc Hev Hinv1 Hne) as (b & t & Hb & _).
    by apply not_elem_of_nil in Hb.
  - case_bool_decide as Hfull; [by exists prefix1, waiting1, ordered1|].
    apply IH; [done|done|].
    destruct Hor as [Hgrow|Hstuck]; [lia|]. exfalso.
    assert (prefix `prefix_of` prefix1 ∧ length prefix ≠ length (binding_variables bs)) as [_ Hne].
    { split; [done|]. intros Heq. apply Hfull. apply prefix_length in Hpre1.
      assert (length prefix1 ≤ length (binding_variables bs)); [|lia].
      apply NoDup_incl_length; [apply NoDup_ListNoDup, (oi_nodup _ _ _ Hinv1)|].
      intros x Hx%list_elem_of_In. apply list_elem_of_In. by apply (oi_known _ _ _ Hinv1). }
    destruct (order_invariant_progress _ _ _ _ _ _ Hsrc Hpre Hinv Hne) as (b & t & Hb & Hready).
    rewrite (Hstuck b) in Hready; [done|]. by rewrite elem_of_dedup, sort_by_perm.
Qed.

(** C29 (variable orders).  For a source attribute over two distinct variables
    in a connected query, [plan_order] returns after at most as many rounds as
    there are variables.  The order starts with the source's variables, lists
    every variable of the query once, and every later variable is one that some
    other binding can extend the preceding ones to; the binding order consists
    of exactly the other bindings. *)
Theorem plan_order_complete fuel e v a :
  bs !! src = Some (Binding_attribute e a v) → e ≠ v → length (binding_variables bs) ≤ fuel →
  ∃ variables order, plan_order fuel src bs = Ret (Some (variables, order)) ∧
    take 2 variables = [e; v] ∧ NoDup variables ∧
    (∀ x, x ∈ variables ↔ ∃ b, b ∈ bs ∧ x ∈ Binding_variables b) ∧
    (∀ i x, 2 ≤ i → variables !! i = Some x →
       ∃ b, other b ∧ can_extend b (Vec_binds (take i variables)) x = true) ∧
    (∀ b, b ∈ order ↔ other b).
Proof.
  intros Hsrc Hev Hfuel. unfold plan_order. rewrite Hsrc. simpl.
  assert (Binding_attribute e a v ∈ bs) as Hin by (by eapply list_elem_of_lookup_2).
  assert (order_invariant [e; v] ([e; v] ≫= candidates_for src bs) []) as Hinv.
  { split.
    - intros b. rewrite app_nil_r, list_elem_of_bind. intros (x & Hb & _).
      by apply elem_of_candidates in Hb as [? _].
    - intros b Hb (x & Hx & Hxb). rewrite app_nil_r, list_elem_of_bind. exists x.
      by rewrite elem_of_candidates.
    - intros b Hb. by apply not_elem_of_nil in Hb.
    - apply NoDup_cons. split; [set_solver|apply NoDup_singleton].
    - intros x Hx. apply elem_of_binding_variables. by exists (Binding_attribute e a v).
    - done.
    - intros i x Hi Hx. apply lookup_lt_Some in Hx. simpl in Hx. lia. }
  destruct (plan_order_loop_spec fuel _ [e; v] [] e v a Hsrc ltac:(done) Hinv)
    as (vars & waiting & ordered & Hloop & [ext ->] & [Hoth Htou Hord Hnd Hkn Hlen Hjust] & Hfull); [simpl; lia|].
  exists ([e; v] ++ ext), (ordered ++ waiting). simpl in Hloop. rewrite Hloop.
  assert (∀ x, x ∈ binding_variables bs → x ∈ [e; v] ++ ext) as Hall.
  { intros x Hx. apply list_elem_of_In. eapply (NoDup_length_incl (l := [e; v] ++ ext) (l' := binding_variables bs));
      [by apply NoDup_ListNoDup|lia| |by apply list_elem_of_In].
    intros y Hy%list_elem_of_In. apply list_elem_of_In. by apply Hkn. }
  split_and!; try done.
  - intros x. rewrite <- elem_of_binding_variables. split; [apply Hkn|apply Hall].
  - intros b. rewrite elem_of_app. split; [intros ?; apply Hoth; set_solver|].
    intros Hb. cut (b ∈ waiting ++ ordered); [set_solver|]. apply Htou; [done|].
    assert (∃ x, x ∈ Binding_variables b) as [x Hx]
      by (clear; induction b; [eexists; left|done|eexists; left|eexists; left]).
    exists x. split; [|done]. apply Hall. by apply (other_variables_bound b).
Qed.
End plan_order_theorems.

Section plan_order_runs.
#[local] Existing Instance extern_model.

Lemma ordering_connected : connected 0 ordering_bindings.
Proof.
  intros prefix e v a [= <- <- <-] He Hv (x & Hx & Hnx).
  assert (binding_variables ordering_bindings = [0; 1; 2; 3; 4]%N) as Hvars by vm_refl.
  assert (∀ y, y ∈ prefix → Vec_binds prefix y ≠ None) as Hin.
  { intros y Hy. by apply is_some_true, Vec_binds_is_some. }
  assert (∀ y, y ∉ prefix → Vec_binds prefix y = None) as Hout by (intros y; apply Vec_binds_None).
  (* extend by 4, then by 0, then by 1 *)
  destruct (decide (4%N ∈ prefix)) as [H4|H4];
    [destruct (decide (0%N ∈ prefix)) as [H0|H0];
       [destruct (decide (1%N ∈ prefix)) as [H1|H1]|]|].
  - exfalso. rewrite Hvars in Hx. set_solver.
  - exists (Binding_attribute 0 ":name" 1), 1%N. split; [by exists 2|]. split; [exists 0%N; set_solver|].
    apply Binding_ready_cases. split; [by apply Hout|]. right; left. exists 0%N. auto.
  - exists (Binding_attribute 0 ":age" 3), 0%N. split; [by exists 1|]. split; [exists 3%N; set_solver|].
    apply Binding_ready_cases. split; [by apply Hout|]. right; right. exists 3%N. auto.
  - exists (Binding_attribute 2 ":name" 4), 4%N. split; [by exists 3|]. split; [exists 2%N; set_solver|].
    apply Binding_ready_cases. split; [by apply Hout|]. right; left. exists 2%N. auto.
Qed.

Lemma plan_order_complete_witness :
  ∃ variables order, plan_order 5 0 ordering_bindings = Ret (Some (variables, order)) ∧
    take 2 variables = [2; 3]%N.
Proof.
  destruct (plan_order_complete 0 ordering_bindings ordering_connected 5 2%N 3%N ":age")
    as (vars & order & Ho & Ht & _).
  - reflexivity.
  - discriminate.
  - vm_compute. repeat constructor.
  - exists vars, order. split; [exact Ho|exact Ht].
Defined.

(** (orders of disconnected queries do not terminate).  With a constant for
    a variable the source binds and an attribute over two other variables, the
    constant waits forever: no number of rounds is enough.  Without the
    constant the loop ends, but the order lacks the other two variables. *)
Theorem plan_order_disconnected (a b : Aid) (c : Value) fuel :
  plan_order fuel 0 [Binding_attribute 0 a 1; Binding_constant 0 c; Binding_attribute 2 b 3]%N =
    Ret None ∧
  plan_order (S fuel) 0 [Binding_attribute 0 a 1; Binding_attribute 2 b 3]%N =
    Ret (Some ([0; 1]%N, [])).
Proof.
  split; [|reflexivity]. unfold plan_order.
  set (bs := [_; _; _]). set (total := length (binding_variables bs)).
  assert (total = 4) as Ht by reflexivity. clearbody total. subst total. simpl.
  unfold candidates_for. simpl. f_equal.
  induction fuel as [|fuel IH]; [done|]. exact IH.
Qed.
End plan_order_runs.
