(* ===== verification/Sessions.v ===== *)
(** * Input sessions (src/src/domain/unordered_session.rs)

    An [UnorderedSession] buffers updates and ships them to timely dataflow
    under a capability.  Timely's [UnorderedHandle] is the log of the updates
    it was given, each with the capability of the session that carried it; a
    capability is its time.  The component's contract is an abstract session
    that has no buffer: a time, a capability and the sequence of all updates. *)
From Stdlib Require Import ZArith NArith Lia.
From stdpp Require Import base strings numbers list.
From S2P Require Import Prelude Timestamps.

(** [Vec::reserve]: the capacity after reserving room for [additional] more
    elements (amortised growth). *)
Definition reserve (capacity len additional : nat) : nat :=
  if additional <=? capacity - len then capacity
  else Nat.max (2 * capacity) (len + additional).
Arguments reserve : simpl never.

Section session.
Context {T D R : Type}.
Context `{EqDecision T, PO : PartialOrderT T, TM : !Timely T}.

Record UnorderedSession := mkSession {
  s_time : T;
  s_cap : T;
  s_buffer : list (D * T * R);
  s_capacity : nat;
  s_handle : list (T * (D * T * R))
}.

(** [handle.session(cap).give_iterator(batch)]. *)
Definition give_iterator (handle : list (T * (D * T * R))) (cap : T)
    (batch : list (D * T * R)) : list (T * (D * T * R)) :=
  handle ++ (pair cap <$> batch).

Definition session_from (handle : list (T * (D * T * R))) (cap : T) : UnorderedSession :=
  mkSession cap cap [] 0 handle.

(** The part [update] and [update_at] share: make room, then push. *)
Definition push_update (self : UnorderedSession) (u : D * T * R) : UnorderedSession :=
  let self :=
    if length (s_buffer self) =? s_capacity self then
      let self :=
        if negb (length (s_buffer self) =? 0) then
          mkSession (s_time self) (s_cap self) [] (s_capacity self)
            (give_iterator (s_handle self) (s_cap self) (s_buffer self))
        else self in
      mkSession (s_time self) (s_cap self) (s_buffer self)
        (reserve (s_capacity self) (length (s_buffer self)) 1024) (s_handle self)
    else self in
  mkSession (s_time self) (s_cap self) (s_buffer self ++ [u])
    (s_capacity self) (s_handle self).

Definition session_update (self : UnorderedSession) (element : D) (change : R)
    : UnorderedSession :=
  push_update self (element, s_cap self, change).

Definition session_update_at (self : UnorderedSession) (element : D) (time : T) (change : R)
    : outcome UnorderedSession :=
  _ ← assert_that "assertion failed: self.cap.time().less_equal(&time)"
        (less_equal (s_cap self) time);
  Ret (push_update self (element, time, change)).

Definition session_flush (self : UnorderedSession) : outcome UnorderedSession :=
  let handle := give_iterator (s_handle self) (s_cap self) (s_buffer self) in
  cap ← (if less_than (s_cap self) (s_time self)
         then delayed (s_cap self) (s_time self) else Ret (s_cap self));
  Ret (mkSession (s_time self) cap [] (s_capacity self) handle).

Definition session_epoch (self : UnorderedSession) : T := s_time self.

Definition session_advance_to (self : UnorderedSession) (time : T) : outcome UnorderedSession :=
  _ ← assert_that "assertion failed: self.epoch().less_equal(&time)"
        (less_equal (session_epoch self) time);
  _ ← assert_that "assertion failed: &self.time.less_equal(&time)"
        (less_equal (s_time self) time);
  Ret (mkSession time (s_cap self) (s_buffer self) (s_capacity self) (s_handle self)).

(** [Drop::drop]; [close] consumes the session and so drops it. *)
Definition session_drop (self : UnorderedSession) : outcome UnorderedSession :=
  session_flush self.
Definition session_close (self : UnorderedSession) : outcome (list (T * (D * T * R))) :=
  s_handle <$> session_drop self.

(** ** Operations as data, and their runs *)

Inductive SessionOp :=
| OpUpdate (element : D) (change : R)
| OpUpdateAt (element : D) (time : T) (change : R)
| OpFlush
| OpAdvanceTo (time : T).

Definition session_step (self : UnorderedSession) (op : SessionOp) : outcome UnorderedSession :=
  match op with
  | OpUpdate d r => Ret (session_update self d r)
  | OpUpdateAt d t r => session_update_at self d t r
  | OpFlush => session_flush self
  | OpAdvanceTo t => session_advance_to self t
  end.

Fixpoint session_run (self : UnorderedSession) (ops : list SessionOp)
    : outcome UnorderedSession :=
  match ops with
  | [] => Ret self
  | op :: ops' => self' ← session_step self op; session_run self' ops'
  end.

(** ** The abstract session: no buffer, no capacity *)

Record AbstractSession := mkAbstract {
  a_time : T; a_cap : T; a_log : list (D * T * R)
}.

Definition abstract_step (a : AbstractSession) (op : SessionOp) : option AbstractSession :=
  match op with
  | OpUpdate d r => Some (mkAbstract (a_time a) (a_cap a) (a_log a ++ [(d, a_cap a, r)]))
  | OpUpdateAt d t r =>
      if less_equal (a_cap a) t
      then Some (mkAbstract (a_time a) (a_cap a) (a_log a ++ [(d, t, r)])) else None
  | OpFlush => Some (mkAbstract (a_time a) (a_time a) (a_log a))
  | OpAdvanceTo t =>
      if less_equal (a_time a) t then Some (mkAbstract t (a_cap a) (a_log a)) else None
  end.

Fixpoint abstract_run (a : AbstractSession) (ops : list SessionOp) : option AbstractSession :=
  match ops with
  | [] => Some a
  | op :: ops' => a' ← abstract_step a op; abstract_run a' ops'
  end.

(** All updates of a session: those shipped, then those still buffered. *)
Definition session_log (s : UnorderedSession) : list (D * T * R) :=
  (s_handle s).*2 ++ s_buffer s.
Definition abstraction (s : UnorderedSession) : AbstractSession :=
  mkAbstract (s_time s) (s_cap s) (session_log s).

(** The session invariant: the capability never runs ahead of the session's
    time, and no update is buffered, or was shipped, under a capability later
    than its own time; shipped capabilities are never later than the current
    one. *)
Record Session_wf (s : UnorderedSession) : Prop := {
  wf_cap_time : less_equal (s_cap s) (s_time s) = true;
  wf_buffer : Forall (λ u : D * T * R, less_equal (s_cap s) u.1.2 = true) (s_buffer s);
  wf_sent : Forall (λ m : T * (D * T * R),
    less_equal m.1 (m.2.1.2) = true ∧ less_equal m.1 (s_cap s) = true) (s_handle s);
  wf_capacity : length (s_buffer s) ≤ s_capacity s
}.

(** *** Lemmas *)

Lemma abstraction_push s u :
  abstraction (push_update s u) =
  mkAbstract (s_time s) (s_cap s) (session_log s ++ [u]).
Proof.
  unfold push_update, abstraction, session_log. rewrite <- app_assoc.
  destruct (length (s_buffer s) =? s_capacity s); [|by simpl].
  destruct (s_buffer s) as [|b bs] eqn:E; simpl; [by rewrite E|].
  f_equal. unfold give_iterator. rewrite fmap_app, <- list_fmap_compose.
  simpl. rewrite list_fmap_id. by rewrite <- app_assoc.
Qed.

Lemma last_push_update s u : last (s_buffer (push_update s u)) = Some u.
Proof. apply last_snoc. Qed.

Lemma reserve_room capacity len : len < reserve capacity len 1024.
Proof. unfold reserve. destruct (1024 <=? capacity - len) eqn:E; [apply Nat.leb_le in E|]; lia. Qed.
End session.
#[global] Arguments push_update : simpl never.
#[global] Arguments abstraction : simpl never.
Arguments UnorderedSession : clear implicits.
Arguments SessionOp : clear implicits.
Arguments AbstractSession : clear implicits.

Section session_theorems.
Context {T D R : Type}.
Context `{EqDecision T, PL : PartialOrderLaws T, TM : !Timely T}.
Implicit Types (s : UnorderedSession T D R) (op : SessionOp T D R).

Lemma flush_Ret s :
  Session_wf s →
  session_flush s = Ret (mkSession (s_time s) (s_time s) [] (s_capacity s)
                           (give_iterator (s_handle s) (s_cap s) (s_buffer s))).
Proof.
  intros Hwf. unfold session_flush. destruct (less_than _ _) eqn:E.
  - by rewrite delayed_spec by (by apply wf_cap_time).
  - assert (s_cap s = s_time s) as ->; [|done].
    destruct (decide (s_cap s = s_time s)) as [|Hne]; [done|].
    assert (less_than (s_cap s) (s_time s) = true); [|congruence].
    apply less_than_spec. split; [by apply wf_cap_time|done].
Qed.

Lemma session_from_wf (cap : T) : Session_wf (session_from [] cap : UnorderedSession T D R).
Proof. split; simpl; auto using less_equal_refl. Qed.

Lemma push_update_wf s u :
  Session_wf s → less_equal (s_cap s) u.1.2 = true → Session_wf (push_update s u).
Proof.
  intros [Hct Hbuf Hsent Hcap] Hu. unfold push_update.
  destruct (Nat.eqb_spec (length (s_buffer s)) (s_capacity s)) as [Heq|Hne].
  - pose proof (reserve_room (s_capacity s) 0) as Hroom.
    destruct (s_buffer s) as [|b bs] eqn:E; split; simpl; rewrite ?E;
      try first [done | by repeat constructor].
    apply Forall_app. split; [done|]. apply Forall_fmap.
    eapply Forall_impl; [exact Hbuf|]. simpl. auto using less_equal_refl.
  - split; simpl; auto.
    + apply Forall_app. split; [done|by repeat constructor].
    + rewrite length_app. simpl. lia.
Qed.

Lemma session_step_wf s op s' : Session_wf s → session_step s op = Ret s' → Session_wf s'.
Proof.
  intros Hwf. destruct op as [d r|d t r| |t]; simpl.
  - intros [= <-]. apply push_update_wf; [done|]. simpl. apply less_equal_refl.
  - unfold session_update_at. intros Hs. outcome_inv. by apply push_update_wf.
  - rewrite flush_Ret by done. intros [= <-]. destruct Hwf as [Hct Hbuf Hsent Hcap].
    split; simpl; auto using less_equal_refl, Nat.le_0_l.
    apply Forall_app. split.
    + eapply Forall_impl; [exact Hsent|]. simpl. intros m [Hm1 Hm2].
      eauto using less_equal_trans.
    + apply Forall_fmap. eapply Forall_impl; [exact Hbuf|]. simpl. auto.
  - unfold session_advance_to. intros Hs. outcome_inv. destruct Hwf.
    split; simpl; eauto using less_equal_trans.
Qed.

(** One step is simulated by the abstract session, failures included. *)
Lemma session_step_abstract s op :
  Session_wf s →
  match session_step s op with
  | Ret s' => abstract_step (abstraction s) op = Some (abstraction s')
  | Panic _ => abstract_step (abstraction s) op = None
  end.
Proof.
  intros Hwf. destruct op as [d r|d t r| |t]; simpl.
  - unfold session_update. by rewrite abstraction_push.
  - unfold session_update_at. destruct (less_equal (s_cap s) t); simpl; [|done].
    by rewrite abstraction_push.
  - rewrite flush_Ret by done. unfold abstraction, session_log, give_iterator. simpl.
    by rewrite fmap_app, <- list_fmap_compose, app_nil_r, list_fmap_id.
  - unfold session_advance_to, session_epoch. by destruct (less_equal (s_time s) t).
Qed.

Lemma session_run_wf s ops s' : Session_wf s → session_run s ops = Ret s' → Session_wf s'.
Proof.
  revert s; induction ops as [|op ops IH]; simpl; intros s Hwf Hrun; [by simplify_eq|].
  outcome_inv. eauto using session_step_wf.
Qed.

Lemma session_run_abstract s ops :
  Session_wf s →
  match session_run s ops with
  | Ret s' => abstract_run (abstraction s) ops = Some (abstraction s')
  | Panic _ => abstract_run (abstraction s) ops = None
  end.
Proof.
  revert s; induction ops as [|op ops IH]; simpl; intros s Hwf; [done|].
  pose proof (session_step_abstract s op Hwf) as Hstep.
  destruct (session_step s op) as [s1|] eqn:E; simpl; rewrite Hstep; simpl; [|done].
  apply IH. by eapply session_step_wf.
Qed.

(** C11 (sessions refine an unbuffered log).  Whatever the operations on a
    fresh session, it panics exactly when the abstract session refuses an
    operation; otherwise closing it always succeeds, and the updates handed
    to timely over its life are exactly the updates of the abstract session,
    each once and in the order of the calls, with its time. *)
Theorem session_refines_log (cap : T) (ops : list (SessionOp T D R)) :
  match session_run (session_from [] cap) ops with
  | Ret s => ∃ sent,
      session_close s = Ret sent ∧
      a_log <$> abstract_run (mkAbstract cap cap []) ops = Some (sent.*2)
  | Panic _ => abstract_run (mkAbstract cap cap []) ops = None
  end.
Proof.
  pose proof (session_run_abstract _ ops (session_from_wf cap)) as Hrun.
  destruct (session_run _ ops) as [s|] eqn:E; [|done].
  pose proof (session_run_wf _ _ _ (session_from_wf cap) E) as Hwf.
  unfold session_close, session_drop. rewrite flush_Ret by done. simpl.
  eexists. split; [done|]. unfold abstraction, session_log in Hrun; simpl in Hrun.
  rewrite Hrun. simpl. unfold give_iterator. f_equal.
  by rewrite fmap_app, <- list_fmap_compose, list_fmap_id.
Qed.

(** (session invariant).  In every state a session reaches, its capability
    is not later than its time, no update is buffered or was shipped under a
    capability later than the update's own time, capabilities only moved
    forward, and the buffer stays within its capacity. *)
Theorem session_invariant (cap : T) (ops : list (SessionOp T D R)) s :
  session_run (session_from [] cap) ops = Ret s → Session_wf s.
Proof. apply session_run_wf, session_from_wf. Qed.

(** (advancing affects records only once flushed).  [advance_to] alone
    does not change the time at which later [update]s are recorded: they
    keep the capability's time until the session is flushed, and have the
    new time afterwards. *)
Theorem update_time_needs_flush s (t : T) (d : D) (r : R) :
  Session_wf s → less_equal (s_time s) t = true →
  ∃ s1 s2, session_advance_to s t = Ret s1 ∧ session_flush s1 = Ret s2 ∧
    last (s_buffer (session_update s1 d r)) = Some (d, s_cap s, r) ∧
    last (s_buffer (session_update s2 d r)) = Some (d, t, r).
Proof.
  intros Hwf Ht.
  assert (session_advance_to s t =
    Ret (mkSession t (s_cap s) (s_buffer s) (s_capacity s) (s_handle s))) as Hadv.
  { unfold session_advance_to, session_epoch. by rewrite Ht. }
  eexists _, _. split_and!; [exact Hadv| | |].
  - apply flush_Ret. by eapply (session_step_wf s (OpAdvanceTo t)).
  - apply last_push_update.
  - apply last_push_update.
Qed.
End session_theorems.

Lemma session_invariant_witness :
  ∃ s : UnorderedSession N N Z,
    @session_run N N Z _ timely_model (session_from [] 0%N)
      [OpUpdate 7%N 1%Z; OpAdvanceTo 3%N; OpFlush; OpUpdateAt 8%N 5%N 1%Z] = Ret s ∧ Session_wf s.
Proof.
  eexists. split; [reflexivity|].
  apply (@session_invariant N N Z _ _ u64_laws timely_model 0%N
    [OpUpdate 7%N 1%Z; OpAdvanceTo 3%N; OpFlush; OpUpdateAt 8%N 5%N 1%Z]).
  reflexivity.
Defined.

Lemma update_time_needs_flush_witness :
  ∃ s1 s2 : UnorderedSession N N Z,
    session_advance_to (session_from [] 0%N) 3%N = Ret s1 ∧
    @session_flush N N Z _ timely_model s1 = Ret s2 ∧
    last (s_buffer (session_update s1 7%N 1%Z)) = Some (7, 0, 1%Z)%N ∧
    last (s_buffer (session_update s2 7%N 1%Z)) = Some (7, 3, 1%Z)%N.
Proof.
  apply (@update_time_needs_flush N N Z _ _ u64_laws timely_model (session_from [] 0%N) 3%N 7%N 1%Z).
  - apply session_from_wf.
  - reflexivity.
Defined.

Lemma session_refines_log_witness :
  let ops := [OpUpdate 7%N 1%Z; OpAdvanceTo 3%N; OpFlush; OpUpdateAt 8%N 5%N 1%Z] in
  match @session_run N N Z _ timely_model (session_from [] 0%N) ops with
  | Ret s => ∃ sent, @session_close N N Z _ timely_model s = Ret sent ∧
      Some [(7, 0, 1%Z); (8, 5, 1%Z)]%N = Some (sent.*2)
  | Panic _ => False
  end.
Proof.
  exact (@session_refines_log N N Z _ _ u64_laws timely_model 0%N
    [OpUpdate 7%N 1%Z; OpAdvanceTo 3%N; OpFlush; OpUpdateAt 8%N 5%N 1%Z]).
Defined.
