(* ===== verification/Scheduling.v ===== *)
(** * Schedulers (src/src/scheduling/)

    The realtime and the frontier scheduler, and the unified one.  Both keep
    their activators in a [BinaryHeap] whose order is reversed on the
    activation time.  The standard library's heap is used through an interface
    that fixes what [peek] and [pop] promise and leaves open which of several
    greatest elements they pick; the clock reading ([Instant::now()]) is an
    argument of the operations that take one, in nanoseconds. *)
From Stdlib Require Import ZArith NArith Lia Sorting.Sorted.
From stdpp Require Import base strings numbers list sets.
From S2P Require Import Prelude Timestamps.

(** ** [std::collections::BinaryHeap] *)

(** A comparison that is total and transitive, ties allowed. *)
Class TotalPreorder (X : Type) `{Ord X} := {
  preorder_total : ∀ x y : X, cmp_le x y = true ∨ cmp_le y x = true;
  preorder_trans : ∀ x y z : X, cmp_le x y = true → cmp_le y z = true → cmp_le x z = true
}.

Class BinaryHeap (X : Type) `{Ord X} := {
  heap : Type;
  heap_elems : heap → list X;
  heap_new : heap;
  heap_push : heap → X → heap;
  heap_peek : heap → option X;
  heap_pop : heap → option (X * heap);
  heap_elems_new : heap_elems heap_new = [];
  heap_elems_push : ∀ h x, heap_elems (heap_push h x) ≡ₚ x :: heap_elems h;
  heap_peek_None : ∀ h, heap_peek h = None ↔ heap_elems h = [];
  heap_peek_max : ∀ h x, heap_peek h = Some x →
    x ∈ heap_elems h ∧ ∀ y, y ∈ heap_elems h → cmp_le y x = true;
  heap_pop_peek : ∀ h, fst <$> heap_pop h = heap_peek h;
  heap_pop_elems : ∀ h x h', heap_pop h = Some (x, h') →
    heap_elems h ≡ₚ x :: heap_elems h'
}.
Arguments heap X {_ _}.

(** An implementation: a list kept in descending order. *)
Section list_heap.
Context {X : Type} `{TP : TotalPreorder X}.

Definition descending (x y : X) : bool := cmp_le y x.

Definition list_heap_t : Type :=
  { l : list X | StronglySorted (λ x y, descending x y = true) l }.

Lemma descending_total x y : descending x y = true ∨ descending y x = true.
Proof. unfold descending. destruct (preorder_total x y); auto. Qed.
Lemma descending_trans x y z :
  descending x y = true → descending y z = true → descending x z = true.
Proof. unfold descending. eauto using preorder_trans. Qed.

Definition list_heap_push (h : list_heap_t) (x : X) : list_heap_t :=
  exist _ (insert_sorted descending x (proj1_sig h))
    (insert_sorted_sorted descending descending_total descending_trans x _ (proj2_sig h)).

Definition list_heap_pop (h : list_heap_t) : option (X * list_heap_t) :=
  match h with
  | exist _ [] _ => None
  | exist _ (x :: l) Hs => Some (x, exist _ l (proj1 (StronglySorted_inv Hs)))
  end.

Program Definition list_heap : BinaryHeap X := {|
  heap := list_heap_t;
  heap_elems := @proj1_sig _ _;
  heap_new := exist _ [] (SSorted_nil _);
  heap_push := list_heap_push;
  heap_peek h := head (proj1_sig h);
  heap_pop := list_heap_pop
|}.
Next Obligation. done. Qed.
Next Obligation. intros h x. apply insert_sorted_perm. Qed.
Next Obligation. intros [[|x l] Hs]; simpl; split; done. Qed.
Next Obligation.
  intros [[|x l] Hs] y; simpl; [done|]. intros [= ->]. split; [set_solver|].
  intros z. rewrite elem_of_cons. intros [->|Hz].
  - destruct (preorder_total y y); done.
  - apply StronglySorted_inv in Hs as [_ Hall]. rewrite Forall_forall in Hall. by apply Hall.
Qed.
Next Obligation. intros [[|x l] Hs]; done. Qed.
Next Obligation. intros [[|x l] Hs] y h'; simpl; intros [=]; by simplify_eq/=. Qed.
End list_heap.

(** ** Activators

    [Weak<Activator>]: the weak reference and, in the state of the run in which
    it is used, what upgrading it gives. *)
Section activators.
Context {Weak Activator : Type} (upgrade : Weak → option Activator).

Inductive Event := Tick.

Record TimedActivator := mkTimedActivator {
  ta_at : N; ta_activator : option Weak; ta_event : option Event
}.

Definition TimedActivator_is_ready (self : TimedActivator) (now : N) : bool :=
  (ta_at self <=? now)%N.
Definition TimedActivator_until_ready (self : TimedActivator) (now : N) : N :=
  if (now <? ta_at self)%N then (ta_at self - now)%N else 0%N.

(** [schedule]: the activators activated by the call, and its event.  [None]
    is the reference [Weak::new()], which never upgrades. *)
Definition TimedActivator_schedule (self : TimedActivator) : list Activator * option Event :=
  (match ta_activator self ≫= upgrade with
   | Some activator => [activator]
   | None => []
   end, ta_event self).

(** The reversed order makes the queue a min-heap. *)
#[export] Instance TimedActivator_ord : Ord TimedActivator := λ self other,
  cmp (ta_at other) (ta_at self).

Context {T : Type}.
Record FrontieredActivator := mkFrontieredActivator {
  fa_at : T; fa_activator : Weak
}.
Definition FrontieredActivator_is_ready `{Timely T} (self : FrontieredActivator)
    (frontier : list T) : bool :=
  negb (antichain_less_than frontier (fa_at self)).
Definition FrontieredActivator_schedule (self : FrontieredActivator) : list Activator :=
  match upgrade (fa_activator self) with
  | Some activator => [activator]
  | None => []
  end.
#[export] Instance FrontieredActivator_ord `{Ord T} : Ord FrontieredActivator := λ self other,
  cmp (fa_at other) (fa_at self).

Lemma TimedActivator_le (x y : TimedActivator) :
  cmp_le x y = true ↔ (ta_at y ≤ ta_at x)%N.
Proof.
  unfold cmp_le. change (cmp x y) with ((ta_at y ?= ta_at x)%N).
  destruct (N.compare_spec (ta_at y) (ta_at x)); split; try done; lia.
Qed.
#[export] Instance TimedActivator_preorder : TotalPreorder TimedActivator.
Proof. split; intros *; rewrite !TimedActivator_le; lia. Qed.

Lemma FrontieredActivator_le `{OT : Ord T} (x y : FrontieredActivator) :
  cmp_le x y = cmp_le (fa_at y) (fa_at x).
Proof. done. Qed.
#[export] Instance FrontieredActivator_preorder `{TO : TotalOrd T} :
  TotalPreorder FrontieredActivator.
Proof.
  split; intros *; rewrite !FrontieredActivator_le; [apply cmp_le_total|].
  eauto using cmp_le_trans.
Qed.
End activators.
Arguments TimedActivator : clear implicits.
Arguments FrontieredActivator : clear implicits.

(** ** [RealtimeScheduler] *)
Section realtime.
Context {Weak : Type} `{BH : !BinaryHeap (TimedActivator Weak)}.

Record RealtimeScheduler := mkRealtime { rt_queue : heap (TimedActivator Weak) }.

Definition RealtimeScheduler_new : RealtimeScheduler := mkRealtime heap_new.

Definition RealtimeScheduler_has_pending (self : RealtimeScheduler) (now : N) : bool :=
  match heap_peek (rt_queue self) with
  | Some a => TimedActivator_is_ready a now
  | None => false
  end.

Definition RealtimeScheduler_until_next (self : RealtimeScheduler) (now : N) : option N :=
  match heap_peek (rt_queue self) with
  | Some a => Some (TimedActivator_until_ready a now)
  | None => None
  end.

Definition RealtimeScheduler_schedule_at (self : RealtimeScheduler) (at_ : N) (w : Weak)
    : RealtimeScheduler :=
  mkRealtime (heap_push (rt_queue self) (mkTimedActivator at_ (Some w) None)).
Definition RealtimeScheduler_schedule_now (self : RealtimeScheduler) (now : N) (w : Weak)
    : RealtimeScheduler :=
  RealtimeScheduler_schedule_at self now w.
Definition RealtimeScheduler_schedule_after (self : RealtimeScheduler) (now after : N) (w : Weak)
    : RealtimeScheduler :=
  RealtimeScheduler_schedule_at self (now + after) w.
Definition RealtimeScheduler_event_at (self : RealtimeScheduler) (at_ : N) (e : Event)
    : RealtimeScheduler :=
  mkRealtime (heap_push (rt_queue self) (mkTimedActivator at_ None (Some e))).
Definition RealtimeScheduler_event_after (self : RealtimeScheduler) (now after : N) (e : Event)
    : RealtimeScheduler :=
  RealtimeScheduler_event_at self (now + after) e.

(** [Iterator::next]. *)
Definition RealtimeScheduler_next (self : RealtimeScheduler) (now : N)
    : outcome (option (TimedActivator Weak) * RealtimeScheduler) :=
  if RealtimeScheduler_has_pending self now then
    '(a, q) ← expect "called `Option::unwrap()` on a `None` value" (heap_pop (rt_queue self));
    Ret (Some a, mkRealtime q)
  else Ret (None, self).

(** A consumer that takes activators until [next] has none; each call reads the
    clock.  With a bound on the number of calls. *)
Fixpoint RealtimeScheduler_drain (fuel : nat) (self : RealtimeScheduler) (clock : nat → N)
    : outcome (option (list (TimedActivator Weak) * RealtimeScheduler)) :=
  match fuel with
  | O => Ret None
  | S fuel' =>
      '(a, self') ← RealtimeScheduler_next self (clock 0);
      match a with
      | None => Ret (Some ([], self'))
      | Some a =>
          r ← RealtimeScheduler_drain fuel' self' (λ i, clock (S i));
          Ret ('(l, s) ← r; Some (a :: l, s))
      end
  end.

Definition rt_elems (self : RealtimeScheduler) : list (TimedActivator Weak) :=
  heap_elems (rt_queue self).
End realtime.
Arguments RealtimeScheduler Weak {_}.

(** ** [FrontierScheduler]

    The probe is the frontier it reports when it is asked. *)
Section frontier.
Context {Weak T : Type} `{PO : PartialOrderT T, TM : !Timely T, OT : Ord T}.
Context `{BH : !BinaryHeap (FrontieredActivator Weak T)}.

Record FrontierScheduler := mkFrontier { fr_queue : heap (FrontieredActivator Weak T) }.

Definition FrontierScheduler_from : FrontierScheduler := mkFrontier heap_new.

Definition FrontierScheduler_has_pending (self : FrontierScheduler) (probe : list T) : bool :=
  match heap_peek (fr_queue self) with
  | Some a => FrontieredActivator_is_ready a probe
  | None => false
  end.

Definition FrontierScheduler_schedule_at (self : FrontierScheduler) (at_ : T) (w : Weak)
    : FrontierScheduler :=
  mkFrontier (heap_push (fr_queue self) (mkFrontieredActivator at_ w)).

Definition FrontierScheduler_next (self : FrontierScheduler) (probe : list T)
    : outcome (option (FrontieredActivator Weak T) * FrontierScheduler) :=
  if FrontierScheduler_has_pending self probe then
    '(a, q) ← expect "called `Option::unwrap()` on a `None` value" (heap_pop (fr_queue self));
    Ret (Some a, mkFrontier q)
  else Ret (None, self).
End frontier.
Arguments FrontierScheduler Weak T {_ _}.

(** ** The unified [Scheduler] *)
Section scheduler.
Context {Weak T : Type} `{PO : PartialOrderT T, TM : !Timely T, OT : Ord T}.
Context `{BH : !BinaryHeap (TimedActivator Weak), BF : !BinaryHeap (FrontieredActivator Weak T)}.

Record Scheduler := mkScheduler {
  sch_frontier : FrontierScheduler Weak T;
  sch_realtime : RealtimeScheduler Weak
}.
Definition Scheduler_from : Scheduler :=
  mkScheduler FrontierScheduler_from RealtimeScheduler_new.
Definition Scheduler_has_pending (self : Scheduler) (probe : list T) (now : N) : bool :=
  FrontierScheduler_has_pending (sch_frontier self) probe ||
  RealtimeScheduler_has_pending (sch_realtime self) now.
End scheduler.

(** ** Properties *)
Section realtime_theorems.
Context {Weak : Type} `{BH : !BinaryHeap (TimedActivator Weak)}.
Implicit Types self : RealtimeScheduler Weak.

Lemma rt_peek_min self a :
  heap_peek (rt_queue self) = Some a →
  a ∈ rt_elems self ∧ ∀ b, b ∈ rt_elems self → (ta_at a ≤ ta_at b)%N.
Proof.
  intros [Hin Hmax]%heap_peek_max. split; [done|].
  intros b Hb. by apply TimedActivator_le, Hmax.
Qed.

Lemma rt_has_pending_iff self now :
  RealtimeScheduler_has_pending self now = true ↔
  ∃ a, a ∈ rt_elems self ∧ (ta_at a ≤ now)%N.
Proof.
  unfold RealtimeScheduler_has_pending, TimedActivator_is_ready.
  destruct (heap_peek _) as [a|] eqn:E.
  - apply rt_peek_min in E as [Hin Hmin]. rewrite N.leb_le. split; [eauto|].
    intros (b & Hb & Hle). specialize (Hmin b Hb). lia.
  - apply heap_peek_None in E. unfold rt_elems. rewrite E. set_solver.
Qed.

Lemma rt_next_cases self now :
  (RealtimeScheduler_next self now = Ret (None, self) ∧
   ∀ a, a ∈ rt_elems self → (now < ta_at a)%N) ∨
  (∃ a self', RealtimeScheduler_next self now = Ret (Some a, self') ∧
   rt_elems self ≡ₚ a :: rt_elems self' ∧ (ta_at a ≤ now)%N ∧
   ∀ b, b ∈ rt_elems self → (ta_at a ≤ ta_at b)%N).
Proof.
  unfold RealtimeScheduler_next.
  destruct (RealtimeScheduler_has_pending self now) eqn:E.
  - right. unfold RealtimeScheduler_has_pending in E.
    destruct (heap_peek _) as [a|] eqn:Ep; [|done].
    pose proof (heap_pop_peek (rt_queue self)) as Hpop. rewrite Ep in Hpop.
    destruct (heap_pop (rt_queue self)) as [[a' q]|] eqn:Eq; simplify_eq/=.
    exists a, (mkRealtime q). split_and!; [done|by apply heap_pop_elems| |by apply rt_peek_min].
    by apply N.leb_le.
  - left. split; [done|]. intros a Ha. apply N.lt_nge. intros Hle.
    assert (RealtimeScheduler_has_pending self now = true); [|congruence].
    apply rt_has_pending_iff. eauto.
Qed.

(** What taking activators promises, at the given clock readings. *)
Definition drained self (clock : nat → N) (l : list (TimedActivator Weak)) self' : Prop :=
  rt_elems self ≡ₚ l ++ rt_elems self' ∧
  (∀ i a, l !! i = Some a → (ta_at a ≤ clock i)%N) ∧
  Forall (λ a, (clock (length l) < ta_at a)%N) (rt_elems self') ∧
  StronglySorted (λ a b, (ta_at a ≤ ta_at b)%N) l.

Lemma realtime_drain_ok self clock (fuel : nat) :
  length (rt_elems self) < fuel →
  ∃ l self', RealtimeScheduler_drain fuel self clock = Ret (Some (l, self')) ∧ drained self clock l self'.
Proof.
  revert self clock; induction fuel as [|fuel IH]; intros self clock Hf; [lia|]. simpl.
  destruct (rt_next_cases self (clock 0)) as [[-> Hnone]|(a & s1 & -> & Hperm & Hdue & Hmin)]; simpl.
  - exists [], self. split; [done|]. split_and!; [done|done|by apply Forall_forall|constructor].
  - assert (length (rt_elems s1) < fuel) as Hf' by (rewrite Hperm in Hf; simpl in Hf; lia).
    destruct (IH s1 (λ i, clock (S i)) Hf') as (l & s2 & -> & Hperm' & Hdue' & Hrest & Hsort). simpl.
    exists (a :: l), s2. split; [done|]. split_and!.
    + by rewrite Hperm, Hperm'.
    + intros [|i] b Hb; [by injection Hb as <-|by apply (Hdue' i)].
    + done.
    + constructor; [done|]. apply Forall_forall. intros b Hb. apply Hmin.
      rewrite Hperm, Hperm'. set_solver.
Qed.

(** C40 (draining the realtime scheduler).  Taking activators until none is
    ready, as the event loop does, terminates after at most one call more
    than there are queued activators, whatever the clock reads at each call.  It
    yields every activator at most once, in the order of their activation times,
    none before it is due, and what it leaves was not due at the last reading. *)
Theorem realtime_drain_spec self (clock : nat → N) (fuel : nat) :
  length (rt_elems self) < fuel →
  ∃ l self', RealtimeScheduler_drain fuel self clock = Ret (Some (l, self')) ∧
    rt_elems self ≡ₚ l ++ rt_elems self' ∧
    (∀ i a, l !! i = Some a → (ta_at a ≤ clock i)%N) ∧
    Forall (λ a, (clock (length l) < ta_at a)%N) (rt_elems self') ∧
    StronglySorted (λ a b, (ta_at a ≤ ta_at b)%N) l.
Proof. apply realtime_drain_ok. Qed.

(** (sleeping until the next activation).  [until_next] is [None] exactly
    for an empty queue and zero exactly when an activator is due; otherwise an
    activator is due after sleeping for that long and none is due before. *)
Theorem until_next_spec self (now : N) :
  (RealtimeScheduler_until_next self now = None ↔ rt_elems self = []) ∧
  (RealtimeScheduler_until_next self now = Some 0%N ↔
   RealtimeScheduler_has_pending self now = true) ∧
  (∀ d, RealtimeScheduler_until_next self now = Some d →
    RealtimeScheduler_has_pending self (now + d) = true ∧
    ∀ d', (d' < d)%N → RealtimeScheduler_has_pending self (now + d') = false).
Proof.
  unfold RealtimeScheduler_until_next, RealtimeScheduler_has_pending,
    TimedActivator_until_ready, TimedActivator_is_ready.
  destruct (heap_peek _) as [a|] eqn:E.
  - apply rt_peek_min in E as [Hin _]. split_and!.
    + split; [done|]. intros Hnil. rewrite Hnil in Hin. set_solver.
    + rewrite N.leb_le. destruct (N.ltb_spec now (ta_at a)); split; intros; simplify_eq; try lia; done.
    + intros d [= <-]. rewrite N.leb_le. setoid_rewrite N.leb_gt.
      destruct (N.ltb_spec now (ta_at a)); split; intros; lia.
  - apply heap_peek_None in E. split_and!; try done.
Qed.
End realtime_theorems.

Section frontier_theorems.
Context {Weak T : Type} `{PL : PartialOrderLaws T, TM : !Timely T, TO : TotalOrd T}.
Context `{BH : !BinaryHeap (FrontieredActivator Weak T)}.

(** (frontier scheduler on totally ordered times).  When the timestamp's
    order is total, the scheduler has work exactly when some queued activator
    is ready, and [next] then yields a ready activator that is a least one of
    the queue. *)
Theorem frontier_pending_iff_ready (self : FrontierScheduler Weak T) (probe : list T) :
  (∀ x y : T, less_equal x y = cmp_le x y) →
  (FrontierScheduler_has_pending self probe = true ↔
   ∃ a, a ∈ heap_elems (fr_queue self) ∧ FrontieredActivator_is_ready a probe = true) ∧
  (FrontierScheduler_has_pending self probe = true →
   ∃ a self', FrontierScheduler_next self probe = Ret (Some a, self') ∧
     FrontieredActivator_is_ready a probe = true ∧
     heap_elems (fr_queue self) ≡ₚ a :: heap_elems (fr_queue self') ∧
     ∀ b, b ∈ heap_elems (fr_queue self) → less_equal (fa_at a) (fa_at b) = true).
Proof.
  intros Htot. unfold FrontierScheduler_next, FrontierScheduler_has_pending.
  destruct (heap_peek _) as [a|] eqn:E.
  - pose proof E as [Hin Hmax]%heap_peek_max. split.
    + split; [eauto|]. intros (b & Hb & Hr). unfold FrontieredActivator_is_ready in *.
      rewrite negb_true_iff in *. apply not_true_iff_false. intros Hlt.
      apply not_true_iff_false in Hr. apply Hr.
      apply antichain_less_than_spec in Hlt as (x & Hx & Hlt).
      apply antichain_less_than_spec. exists x. split; [done|].
      apply less_than_spec in Hlt as [Hle Hne]. apply less_than_spec.
      assert (less_equal (fa_at a) (fa_at b) = true) as Hab.
      { rewrite Htot, <- FrontieredActivator_le. by apply Hmax. }
      split; [by eapply less_equal_trans|].
      intros ->. apply Hne. by apply less_equal_antisym.
    + intros Hr. rewrite Hr.
      pose proof (heap_pop_peek (fr_queue self)) as Hpop. rewrite E in Hpop.
      destruct (heap_pop (fr_queue self)) as [[a' q]|] eqn:Eq; simplify_eq/=.
      exists a, (mkFrontier q). split_and!; [done|done|by apply heap_pop_elems|].
      intros b Hb. rewrite Htot, <- FrontieredActivator_le. by apply Hmax.
  - apply heap_peek_None in E. split; [|done]. rewrite E. set_solver.
Qed.
End frontier_theorems.

Lemma realtime_drain_spec_witness :
  let self := RealtimeScheduler_event_at (BH := list_heap)
    (RealtimeScheduler_schedule_at (RealtimeScheduler_schedule_at RealtimeScheduler_new 30 tt) 10 tt)
    20 Tick in
  let clock := λ i, (15 + 6 * N.of_nat i)%N in
  ∃ l self', RealtimeScheduler_drain 4 self clock = Ret (Some (l, self')) ∧
      rt_elems self ≡ₚ l ++ rt_elems self' ∧
      (∀ i a, l !! i = Some a → (ta_at a ≤ clock i)%N) ∧
      Forall (λ a, (clock (length l) < ta_at a)%N) (rt_elems self') ∧
      StronglySorted (λ a b, (ta_at a ≤ ta_at b)%N) l.
Proof.
  intros self clock. apply (realtime_drain_spec (BH := list_heap) self clock 4).
  vm_compute. lia.
Defined.

Lemma frontier_pending_iff_ready_witness :
  let self := FrontierScheduler_schedule_at (BH := list_heap)
    (FrontierScheduler_schedule_at FrontierScheduler_from 5%N tt) 3%N tt in
  ∃ a self', @FrontierScheduler_next unit N _ timely_model _ list_heap self [3%N] = Ret (Some a, self') ∧
       @FrontieredActivator_is_ready unit N _ timely_model a [3%N] = true ∧
       heap_elems (fr_queue self) ≡ₚ a :: heap_elems (fr_queue self') ∧
       ∀ b, b ∈ heap_elems (fr_queue self) → less_equal (fa_at a) (fa_at b) = true.
Proof.
  intros self.
  apply (@frontier_pending_iff_ready unit N _ u64_laws timely_model _ _ list_heap self [3%N]).
  - intros x y. unfold less_equal, u64_less_equal, cmp_le, cmp, Ord_N, N.leb. by destruct (x ?= y)%N.
  - reflexivity.
Defined.

(** (frontier scheduler on bitemporal times).  On [Pair] timestamps the
    queue is ordered lexicographically while readiness follows the product
    order: with a frontier of (0,3), an activator at (1,0) is queued and ready,
    but the scheduler reports nothing pending and yields nothing, because the
    head of the queue, at (0,5), is not ready. *)
Theorem frontier_pending_pair_blocked :
  let self := FrontierScheduler_schedule_at (BH := list_heap)
    (FrontierScheduler_schedule_at FrontierScheduler_from (mkPair 0%N 5%N) tt)
    (mkPair 1%N 0%N) tt in
  let probe := [mkPair 0%N 3%N] in
  mkFrontieredActivator (mkPair 1%N 0%N) tt ∈ heap_elems (fr_queue self) ∧
  @FrontieredActivator_is_ready unit _ _ timely_model
    (mkFrontieredActivator (mkPair 1%N 0%N) tt) probe = true ∧
  @FrontierScheduler_has_pending unit _ _ timely_model _ list_heap self probe = false ∧
  @FrontierScheduler_next unit _ _ timely_model _ list_heap self probe = Ret (None, self).
Proof. split_and!; [set_solver|reflexivity..]. Qed.
