(* ===== verification/Weighted.v ===== *)
(** * Weighted collections

    The contents of a differential collection as of one time: a list of
    (record, weight) updates whose weights are [isize]s and accumulate with
    wrap-around.  Two lists are equivalent when every record accumulates to the
    same weight.  The list transformers that state what differential's operators
    document (mapping, joining, counting) are compatible with the equivalence. *)
From Stdlib Require Import ZArith NArith Lia.
From stdpp Require Import base strings numbers list sets.
From S2P Require Import Prelude.
Local Open Scope Z_scope.

Abbreviation wlist D := (list (D * Z)).

(** ** Accumulated weights *)

(** The sum of the weights, each scaled by a coefficient of its record. *)
Definition wsum {D} (h : D → Z) (l : wlist D) : Z := sumZ ((λ p, h p.1 * p.2) <$> l).

Definition indicator `{EqDecision D} (x y : D) : Z := if decide (y = x) then 1 else 0.

(** The weight of a record, an [isize]. *)
Definition wt `{EqDecision D} (l : wlist D) (x : D) : Z := wrap_i 64 (wsum (indicator x) l).

#[export] Instance wlist_equiv `{EqDecision D} : Equiv (wlist D) := λ l k, ∀ x, wt l x = wt k x.

Lemma wlist_equiv_unfold `{EqDecision D} (l k : wlist D) : l ≡ k ↔ ∀ x, wt l x = wt k x.
Proof. done. Qed.

#[export] Instance wlist_equivalence `{EqDecision D} : Equivalence (≡@{wlist D}).
Proof.
  split.
  - by intros l x.
  - by intros l k Hlk x.
  - intros l k m Hlk Hkm x. by rewrite (Hlk x).
Qed.

(** *** Sums *)

Lemma wsum_cons {D} h (p : D * Z) l : wsum h (p :: l) = h p.1 * p.2 + wsum h l.
Proof. done. Qed.

Lemma wsum_app {D} h (l k : wlist D) : wsum h (l ++ k) = wsum h l + wsum h k.
Proof. unfold wsum. by rewrite fmap_app, sumZ_app. Qed.

Lemma wsum_perm {D} h (l k : wlist D) : l ≡ₚ k → wsum h l = wsum h k.
Proof. intros Hlk. unfold wsum. apply sumZ_perm. by rewrite Hlk. Qed.

Lemma wsum_ext {D} (h h' : D → Z) l : (∀ x, x ∈ l.*1 → h x = h' x) → wsum h l = wsum h' l.
Proof.
  induction l as [|p l IH]; intros Hh; [done|].
  rewrite !wsum_cons, Hh, IH; [done| |]; csimpl; set_solver.
Qed.

Lemma wsum_linear {D} (a b : Z) (h h' : D → Z) l :
  wsum (λ x, a * h x + b * h' x) l = a * wsum h l + b * wsum h' l.
Proof. induction l as [|p l IH]; [unfold wsum; simpl; lia|]. rewrite !wsum_cons, IH. lia. Qed.

Lemma wsum_zero {D} (l : wlist D) : wsum (λ _, 0) l = 0.
Proof. induction l as [|p l IH]; [done|]. by rewrite wsum_cons, IH. Qed.

Lemma wsum_not_elem `{EqDecision D} (l : wlist D) x : x ∉ l.*1 → wsum (indicator x) l = 0.
Proof.
  intros Hx. rewrite (wsum_ext _ (λ _, 0)); [apply wsum_zero|].
  intros y Hy. unfold indicator. rewrite decide_False; [done|]. by intros ->.
Qed.

Lemma wrap_i64_congr a b : wrap_i 64 a = wrap_i 64 b ↔ (2 ^ 64 | a - b).
Proof.
  split.
  - unfold wrap_i. intros Hab.
    assert ((a + 2 ^ (64 - 1)) mod 2 ^ 64 = (b + 2 ^ (64 - 1)) mod 2 ^ 64) as Hmod by lia.
    apply Z.mod_divide; [done|].
    replace (a - b) with ((a + 2 ^ (64 - 1)) - (b + 2 ^ (64 - 1))) by lia.
    by rewrite Zminus_mod, Hmod, Z.sub_diag.
  - intros [q Hq]. apply wrap_i64_mod. replace a with (b + q * 2 ^ 64) by lia.
    by rewrite Z.mod_add.
Qed.

Section wsum_equiv.
Context {D : Type} `{EqDecision D}.
Implicit Types l k : wlist D.

Lemma wsum_split_at h l x :
  wsum h l = h x * wsum (indicator x) l + wsum h (filter (λ p, p.1 ≠ x) l).
Proof.
  induction l as [|[y w] l IH]; [unfold wsum; simpl; lia|].
  rewrite filter_cons. unfold indicator in *. simpl.
  case_decide as Hyx; rewrite !wsum_cons; simpl.
  - rewrite decide_False by done. lia.
  - assert (y = x) as -> by (destruct (decide (y = x)); tauto).
    rewrite decide_True by done. lia.
Qed.

(** If every record accumulates to zero, so does every linear functional. *)
Lemma wsum_divide_zero h l :
  (∀ x, (2 ^ 64 | wsum (indicator x) l)) → (2 ^ 64 | wsum h l).
Proof.
  induction l as [l IH] using (well_founded_induction (well_founded_ltof _ (@length (D * Z)))).
  intros Hz. destruct l as [|[x w] l]; [by exists 0|].
  rewrite (wsum_split_at h _ x). apply Z.divide_add_r.
  - apply Z.divide_mul_r, Hz.
  - apply IH.
    + unfold ltof. rewrite filter_cons_False by (simpl; auto). simpl.
      pose proof (length_filter (λ p : D * Z, p.1 ≠ x) l). lia.
    + intros y. destruct (decide (x = y)) as [<-|Hne].
      * rewrite (wsum_ext _ (λ _, 0)); [by rewrite wsum_zero; exists 0|].
        intros z (p & -> & Hp)%list_elem_of_fmap. apply list_elem_of_filter in Hp as [Hp _].
        unfold indicator. by rewrite decide_False.
      * specialize (Hz y). rewrite (wsum_split_at (indicator y) _ x) in Hz.
        unfold indicator in Hz at 1. rewrite decide_False in Hz by done. by rewrite Z.mul_0_l in Hz.
Qed.

Definition wneg l : wlist D := (λ p, (p.1, wrap_i 64 (- p.2))) <$> l.

Lemma wsum_opp h l : wsum h ((λ p, (p.1, - p.2)) <$> l) = - wsum h l.
Proof. induction l as [|p l IH]; [done|]. csimpl. rewrite !wsum_cons, IH. simpl. lia. Qed.

(** Equivalent lists agree on every linear functional, modulo [2^64]. *)
Lemma wsum_equiv h l k : l ≡ k → wrap_i 64 (wsum h l) = wrap_i 64 (wsum h k).
Proof.
  intros Hlk. apply wrap_i64_congr.
  replace (wsum h l - wsum h k) with (wsum h (l ++ ((λ p, (p.1, - p.2)) <$> k)))
    by (rewrite wsum_app, wsum_opp; lia).
  apply wsum_divide_zero. intros x. rewrite wsum_app, wsum_opp.
  specialize (Hlk x). apply wrap_i64_congr in Hlk.
  by replace (wsum (indicator x) l + - wsum (indicator x) k)
    with (wsum (indicator x) l - wsum (indicator x) k) by lia.
Qed.

Lemma wlist_equiv_perm l k : l ≡ₚ k → l ≡ k.
Proof. intros Hlk x. unfold wt. by rewrite (wsum_perm _ _ _ Hlk). Qed.

Lemma wt_app l k x : wt (l ++ k) x = wrap_i 64 (wt l x + wt k x).
Proof.
  unfold wt. rewrite wsum_app, wrap_i64_add_l.
  rewrite (Z.add_comm _ (wrap_i 64 _)), wrap_i64_add_l. f_equal. lia.
Qed.

Lemma wt_not_elem l x : x ∉ l.*1 → wt l x = 0.
Proof. intros Hx. unfold wt. by rewrite wsum_not_elem. Qed.

Lemma wt_elem l x : wt l x ≠ 0 → x ∈ l.*1.
Proof. intros Hx. destruct (decide (x ∈ l.*1)); [done|]. by rewrite wt_not_elem in Hx. Qed.

Lemma wt_range l x : in_i64 (wt l x).
Proof. apply wrap_i64_range. Qed.

#[export] Instance wlist_app_proper : Proper ((≡) ==> (≡) ==> (≡)) (@app (D * Z)).
Proof. intros l l' Hl k k' Hk x. by rewrite !wt_app, (Hl x), (Hk x). Qed.
End wsum_equiv.

(** ** List transformers *)

(** Mapping the records. *)
Definition wmap {D D'} (f : D → D') (l : wlist D) : wlist D' := (λ p, (f p.1, p.2)) <$> l.

(** Expanding each record to several, weights multiplied ([explode], [flat_map]). *)
Definition wbind {D D'} (f : D → wlist D') (l : wlist D) : wlist D' :=
  p ← l; (λ q, (q.1, q.2 * p.2)) <$> f p.1.

Definition wfilter {D} (f : D → bool) (l : wlist D) : wlist D := filter (λ p, f p.1 = true) l.

(** The join of two keyed lists: matching pairs, weights multiplied. *)
Definition wjoin {K V1 V2 D} `{EqDecision K} (f : K → V1 → V2 → list D)
    (l : wlist (K * V1)) (k : wlist (K * V2)) : wlist D :=
  p ← l; q ← k;
  if decide (p.1.1 = q.1.1) then (λ d, (d, p.2 * q.2)) <$> f p.1.1 p.1.2 q.1.2 else [].

(** The pairs whose key occurs in [k], weighted by the key's weight there. *)
Definition wsemijoin {K V} `{EqDecision K} (l : wlist (K * V)) (k : wlist K) : wlist (K * V) :=
  p ← l; q ← k; if decide (p.1.1 = q.1) then [(p.1, p.2 * q.2)] else [].

Lemma wsum_wmap {D D'} (f : D → D') h l : wsum h (wmap f l) = wsum (h ∘ f) l.
Proof. unfold wsum, wmap. by rewrite <- list_fmap_compose. Qed.

Lemma wsum_bind {D A} (h : D → Z) (f : A → wlist D) (l : list A) :
  wsum h (l ≫= f) = sumZ ((λ a, wsum h (f a)) <$> l).
Proof. induction l as [|a l IH]; [done|]. csimpl. by rewrite wsum_app, IH. Qed.

Lemma wsum_scale {D} (h : D → Z) c l : wsum h ((λ q, (q.1, q.2 * c)) <$> l) = wsum h l * c.
Proof. induction l as [|p l IH]; [done|]. csimpl. rewrite !wsum_cons, IH. simpl. lia. Qed.

Lemma wsum_wbind {D D'} (f : D → wlist D') h l :
  wsum h (wbind f l) = wsum (λ x, wsum h (f x)) l.
Proof.
  unfold wbind. rewrite wsum_bind. unfold wsum at 2. f_equal.
  apply list_fmap_ext. intros i p _. apply wsum_scale.
Qed.

Lemma wsum_wfilter {D} (f : D → bool) h l :
  wsum h (wfilter f l) = wsum (λ x, if f x then h x else 0) l.
Proof.
  induction l as [|p l IH]; [done|]. unfold wfilter in *. rewrite filter_cons, wsum_cons.
  case_decide as Hp; [by rewrite Hp, wsum_cons, IH|].
  destruct (f p.1); [done|]. by rewrite IH.
Qed.

Lemma wsum_ones {D} (h : D → Z) c l : wsum h ((λ d, (d, c)) <$> l) = sumZ (h <$> l) * c.
Proof. induction l as [|d l IH]; [done|]. csimpl. rewrite wsum_cons, IH. unfold sumZ. simpl. lia. Qed.

Section wjoin.
Context {K V1 V2 D : Type} `{EqDecision K} (f : K → V1 → V2 → list D).

(** The functional of a join, as a sum over the left list of sums over the right. *)
Lemma wsum_wjoin h (l : wlist (K * V1)) (k : wlist (K * V2)) :
  wsum h (wjoin f l k) =
  wsum (λ x, wsum (λ y, if decide (x.1 = y.1) then sumZ (h <$> f x.1 x.2 y.2) else 0) k) l.
Proof.
  unfold wjoin. rewrite wsum_bind. unfold wsum at 2. f_equal.
  apply list_fmap_ext. intros i p _. rewrite wsum_bind.
  induction k as [|q k IH]; csimpl; [unfold wsum, sumZ; simpl; lia|].
  change (sumZ (?a :: ?b)) with (a + sumZ b). rewrite IH, wsum_cons. case_decide.
  - rewrite wsum_ones. lia.
  - change (wsum h []) with 0. lia.
Qed.
End wjoin.

Lemma elem_of_wmap {D D'} (f : D → D') (l : wlist D) y :
  y ∈ (wmap f l).*1 ↔ ∃ x, y = f x ∧ x ∈ l.*1.
Proof.
  unfold wmap. rewrite <- list_fmap_compose. split.
  - intros (p & -> & Hp)%list_elem_of_fmap. exists p.1. split; [done|]. apply list_elem_of_fmap. eauto.
  - intros (x & -> & (p & -> & Hp)%list_elem_of_fmap). apply list_elem_of_fmap. by exists p.
Qed.

Lemma wjoin_records {K V1 V2 D} `{EqDecision K} (f : K → V1 → V2 → list D) l k d :
  d ∈ (wjoin f l k).*1 → ∃ key a b, (key, a) ∈ l.*1 ∧ (key, b) ∈ k.*1 ∧ d ∈ f key a b.
Proof.
  intros ([y w] & -> & Hy)%list_elem_of_fmap. unfold wjoin in Hy.
  apply list_elem_of_bind in Hy as ([[key a] wa] & Hy & Hp).
  apply list_elem_of_bind in Hy as ([[key' b] wb] & Hy & Hq).
  simpl in Hy. case_decide; [subst key'|by apply not_elem_of_nil in Hy].
  apply list_elem_of_fmap in Hy as (y' & [= -> ->] & Hy).
  exists key, a, b. split_and!; [..|done]; apply list_elem_of_fmap; by eexists (_, _).
Qed.

Lemma wsum_wsemijoin {K V} `{EqDecision K} h (l : wlist (K * V)) (k : wlist K) :
  wsum h (wsemijoin l k) = wsum (λ x, h x * wsum (indicator x.1) k) l.
Proof.
  unfold wsemijoin. rewrite wsum_bind. unfold wsum at 2. f_equal.
  apply list_fmap_ext. intros i p _. rewrite wsum_bind.
  induction k as [|q k IH]; csimpl; [unfold wsum, sumZ; simpl; lia|].
  change (sumZ (?a :: ?b)) with (a + sumZ b). rewrite IH, wsum_cons.
  unfold indicator at 2. case_decide; destruct (decide (q.1 = p.1.1)); try congruence.
  - rewrite wsum_cons. unfold wsum at 1. simpl. lia.
  - unfold wsum at 1. simpl. lia.
Qed.

(** *** Compatibility with the equivalence *)

Lemma wt_functional {D D'} `{EqDecision D, EqDecision D'} (g : wlist D → wlist D')
    (H : D' → D → Z) (Hg : ∀ y l, wsum (indicator y) (g l) = wsum (H y) l) (l k : wlist D) :
  l ≡ k → g l ≡ g k.
Proof. intros Hlk y. unfold wt. rewrite !Hg. by apply wsum_equiv. Qed.

#[export] Instance wmap_proper {D D'} `{EqDecision D, EqDecision D'} (f : D → D') :
  Proper ((≡) ==> (≡)) (wmap f).
Proof. intros l k. apply (wt_functional _ (λ y, indicator y ∘ f)). intros. apply wsum_wmap. Qed.

#[export] Instance wbind_proper {D D'} `{EqDecision D, EqDecision D'} (f : D → wlist D') :
  Proper ((≡) ==> (≡)) (wbind f).
Proof. intros l k. apply (wt_functional _ (λ y x, wsum (indicator y) (f x))). intros. apply wsum_wbind. Qed.

#[export] Instance wfilter_proper {D} `{EqDecision D} (f : D → bool) :
  Proper ((≡) ==> (≡)) (wfilter f).
Proof.
  intros l k. apply (wt_functional _ (λ y x, if f x then indicator y x else 0)).
  intros. apply wsum_wfilter.
Qed.

Lemma wsum_mul_r {D} (h : D → Z) c l : wsum (λ x, h x * c) l = wsum h l * c.
Proof. induction l as [|p l IH]; [done|]. rewrite !wsum_cons, IH. lia. Qed.

(** Sums whose coefficients agree modulo [2^64] agree modulo [2^64]. *)
Lemma wsum_congr {D} (h h' : D → Z) l :
  (∀ x, wrap_i 64 (h x) = wrap_i 64 (h' x)) → wrap_i 64 (wsum h l) = wrap_i 64 (wsum h' l).
Proof.
  intros Hh. apply wrap_i64_congr. induction l as [|p l IH]; [by exists 0|].
  rewrite !wsum_cons.
  replace (h p.1 * p.2 + wsum h l - (h' p.1 * p.2 + wsum h' l))
    with ((h p.1 - h' p.1) * p.2 + (wsum h l - wsum h' l)) by lia.
  apply Z.divide_add_r; [|done]. apply Z.divide_mul_l. by apply wrap_i64_congr.
Qed.

#[export] Instance wjoin_proper {K V1 V2 D} `{EqDecision K, EqDecision V1, EqDecision V2, EqDecision D}
    (f : K → V1 → V2 → list D) : Proper ((≡) ==> (≡) ==> (≡)) (wjoin f).
Proof.
  intros l l' Hl k k' Hk y. unfold wt. rewrite !wsum_wjoin.
  etrans; [by apply wsum_equiv|]. apply wsum_congr. intros x. by apply wsum_equiv.
Qed.

Lemma wrap_i64_mul_congr a b c : wrap_i 64 a = wrap_i 64 b → wrap_i 64 (c * a) = wrap_i 64 (c * b).
Proof.
  rewrite !wrap_i64_congr. intros Hd. rewrite <- Z.mul_sub_distr_l. by apply Z.divide_mul_r.
Qed.

#[export] Instance wsemijoin_proper {K V} `{EqDecision K, EqDecision V} :
  Proper ((≡) ==> (≡) ==> (≡)) (@wsemijoin K V _).
Proof.
  intros l l' Hl k k' Hk y. unfold wt. rewrite !wsum_wsemijoin.
  etrans; [by apply wsum_equiv|]. apply wsum_congr. intros x.
  apply wrap_i64_mul_congr. apply Hk.
Qed.

Lemma wsum_wneg {D} (h : D → Z) (l : wlist D) :
  wrap_i 64 (wsum h (wneg l)) = wrap_i 64 (- wsum h l).
Proof.
  rewrite <- wsum_opp. apply wrap_i64_congr.
  induction l as [|p l IH]; [by exists 0|]. unfold wneg in *. csimpl. rewrite !wsum_cons. simpl.
  replace (h p.1 * wrap_i 64 (- p.2) + wsum h ((λ p0, (p0.1, wrap_i 64 (- p0.2))) <$> l)
     - (h p.1 * - p.2 + wsum h ((λ p0, (p0.1, - p0.2)) <$> l)))
    with (h p.1 * (wrap_i 64 (- p.2) - - p.2) +
     (wsum h ((λ p0, (p0.1, wrap_i 64 (- p0.2))) <$> l) - wsum h ((λ p0, (p0.1, - p0.2)) <$> l))) by lia.
  apply Z.divide_add_r; [|done]. apply Z.divide_mul_r. apply wrap_i64_congr.
  apply wrap_i64_id, wrap_i64_range.
Qed.

#[export] Instance wneg_proper {D} `{EqDecision D} : Proper ((≡) ==> (≡)) (@wneg D).
Proof.
  intros l k Hlk x. unfold wt. rewrite !wsum_wneg.
  rewrite <- (Z.mul_1_l (wsum _ l)), <- (Z.mul_1_l (wsum _ k)), <- !Z.mul_opp_l.
  apply wrap_i64_mul_congr, Hlk.
Qed.

(** *** Weights of single records under transformations *)

(** A record that only itself maps to keeps its weight. *)
Lemma wt_wmap_inj {D D'} `{EqDecision D, EqDecision D'} (f : D → D') (l : wlist D) y :
  (∀ x, x ∈ l.*1 → f x = f y → x = y) → wt (wmap f l) (f y) = wt l y.
Proof.
  intros Hf. unfold wt. rewrite wsum_wmap. f_equal. apply wsum_ext. intros x Hx.
  unfold indicator, compose. destruct (decide (x = y)) as [->|Hne].
  - by rewrite decide_True.
  - rewrite decide_False; [done|]. intros Heq. by apply Hne, Hf.
Qed.

(** A record that no input record maps to has weight zero. *)
Lemma wt_wmap_none {D D'} `{EqDecision D, EqDecision D'} (f : D → D') (l : wlist D) y :
  (∀ x, x ∈ l.*1 → f x ≠ y) → wt (wmap f l) y = 0.
Proof.
  intros Hf. unfold wt. rewrite wsum_wmap, (wsum_ext _ (λ _, 0)); [by rewrite wsum_zero|].
  intros x Hx. unfold indicator, compose. rewrite decide_False; [done|]. by apply Hf.
Qed.

Lemma wt_wfilter {D} `{EqDecision D} (f : D → bool) (l : wlist D) x :
  wt (wfilter f l) x = if f x then wt l x else 0.
Proof.
  unfold wt. rewrite wsum_wfilter. destruct (f x) eqn:Hx.
  - f_equal. apply wsum_ext. intros y _. unfold indicator. case_decide; [by subst; rewrite Hx|by destruct (f y)].
  - rewrite (wsum_ext _ (λ _, 0)); [by rewrite wsum_zero|]. intros y _. unfold indicator.
    case_decide; [by subst; rewrite Hx|by destruct (f y)].
Qed.

Lemma wt_wneg {D} `{EqDecision D} (l : wlist D) x : wt (wneg l) x = wrap_i 64 (- wt l x).
Proof.
  unfold wt. rewrite wsum_wneg. apply wrap_i64_congr.
  replace (- wsum (indicator x) l - - wrap_i 64 (wsum (indicator x) l))
    with (wrap_i 64 (wsum (indicator x) l) - wsum (indicator x) l) by lia.
  apply wrap_i64_congr, wrap_i64_id, wrap_i64_range.
Qed.

Lemma wrap_i64_mul_l a b : wrap_i 64 (wrap_i 64 a * b) = wrap_i 64 (a * b).
Proof.
  rewrite (Z.mul_comm _ b), (Z.mul_comm a b). apply wrap_i64_mul_congr.
  apply wrap_i64_id, wrap_i64_range.
Qed.

(** The weight of a join's output that only one pair of records produces. *)
Lemma wt_wjoin_inj {K V1 V2 D} `{EqDecision K, EqDecision V1, EqDecision V2, EqDecision D}
    (g : K → V1 → V2 → D) (l : wlist (K * V1)) (m : wlist (K * V2)) k a b :
  (∀ k' a' b', (k', a') ∈ l.*1 → (k', b') ∈ m.*1 → g k' a' b' = g k a b →
     k' = k ∧ a' = a ∧ b' = b) →
  wt (wjoin (λ k a b, [g k a b]) l m) (g k a b) = wrap_i 64 (wt l (k, a) * wt m (k, b)).
Proof.
  intros Hg. unfold wt. rewrite wsum_wjoin.
  rewrite (wsum_ext _ (λ x, indicator (k, a) x * wsum (indicator (k, b)) m)).
  - rewrite wsum_mul_r. rewrite wrap_i64_mul_l.
    rewrite (Z.mul_comm (wsum _ l)), (Z.mul_comm (wsum _ l)), wrap_i64_mul_l. done.
  - intros [k' a'] Hx. unfold indicator at 2. case_decide as Hka.
    + injection Hka as -> ->. rewrite Z.mul_1_l. apply wsum_ext. intros [k'' b''] Hy. simpl.
      unfold indicator, sumZ. simpl. destruct (decide (k = k'')) as [<-|Hne].
      * destruct (decide (b'' = b)) as [->|Hb]; [by rewrite !decide_True|].
        rewrite !decide_False; [done|congruence|]. intros Heq.
        by destruct (Hg _ _ _ Hx Hy Heq) as (_ & _ & ?).
      * rewrite decide_False by congruence. done.
    + rewrite Z.mul_0_l, (wsum_ext _ (λ _, 0)); [by rewrite wsum_zero|].
      intros [k'' b''] Hy. simpl. destruct (decide (k' = k'')) as [<-|]; [|done].
      unfold indicator, sumZ. simpl. rewrite decide_False; [done|]. intros Heq.
      destruct (Hg _ _ _ Hx Hy Heq) as (-> & -> & _). done.
Qed.

Lemma wt_wsemijoin {K V} `{EqDecision K, EqDecision V} (l : wlist (K * V)) (k : wlist K) x :
  wt (wsemijoin l k) x = wrap_i 64 (wt l x * wt k x.1).
Proof.
  unfold wt. rewrite wsum_wsemijoin.
  rewrite (wsum_ext _ (λ y, indicator x y * wsum (indicator x.1) k)).
  - rewrite wsum_mul_r, wrap_i64_mul_l.
    rewrite (Z.mul_comm (wsum _ l)), (Z.mul_comm (wsum _ l)), wrap_i64_mul_l. done.
  - intros y _. unfold indicator at 1 3. case_decide; [by subst|lia].
Qed.

Lemma wsemijoin_records {K V} `{EqDecision K} (l : wlist (K * V)) (k : wlist K) :
  (wsemijoin l k).*1 ⊆ l.*1.
Proof.
  intros y ([z w] & -> & Hz)%list_elem_of_fmap. simpl. unfold wsemijoin in Hz.
  apply list_elem_of_bind in Hz as (p & Hz & Hp). apply list_elem_of_bind in Hz as (q & Hz & Hq).
  case_decide; [|by apply not_elem_of_nil in Hz].
  apply list_elem_of_singleton in Hz as [= -> _]. apply list_elem_of_fmap. by exists p.
Qed.
