(* ===== verification/Streams.v ===== *)
(** * Timed update streams

    The stream of a collection, as timely delivers it: updates of a record, at a
    time, by a difference.  A stream is a weighted list of (record, time) pairs;
    the collection at a time accumulates the updates at earlier or equal times.
    [Dataflow] observes collections at one time; the operators of
    [src/src/plan/hector.rs] look at the updates themselves. *)
From Stdlib Require Import ZArith NArith Lia.
From stdpp Require Import base numbers list sets.
From S2P Require Import Prelude Timestamps Weighted.
Local Open Scope Z_scope.

Abbreviation Stream T D := (wlist (D * T)) (only parsing).

(** The order of [timely::order::Product], by components. *)
#[export] Instance Product_eq_dec {S T} `{EqDecision S, EqDecision T} : EqDecision (Product S T).
Proof. solve_decision. Defined.
#[export] Instance Product_less_equal {S T} `{PartialOrderT S, PartialOrderT T} :
    PartialOrderT (Product S T) :=
  λ self other, less_equal (outer self) (outer other) && less_equal (inner self) (inner other).

(** The collection at a time. *)
Definition accumulate {T D} `{PartialOrderT T} (l : Stream T D) (t : T) : wlist D :=
  wmap fst (wfilter (λ x, less_equal x.2 t) l).

(** The same updates at other times, as when a stream enters or leaves a scope. *)
Definition retime {T T' D} (f : T → T') (l : Stream T D) : Stream T' D :=
  wmap (λ x, (x.1, f x.2)) l.

(** The updates of a record-wise transformation: times and differences stay. *)
Definition respond {T D D'} (f : T → D → list D') (l : Stream T D) : Stream T D' :=
  u ← l; (λ y, ((y, u.1.2), u.2)) <$> f u.1.2 u.1.1.

(** The same with closures that may panic. *)
Definition respondM {T D D'} (f : T → D → outcome (list D')) (l : Stream T D)
    : outcome (Stream T D') :=
  let! ls := mapM_outcome (λ u : D * T * Z, let! ys := f u.1.2 u.1.1 in
                                            Ret ((λ y, ((y, u.1.2), u.2)) <$> ys)) l in
  Ret (concat ls).

(** ** Weights *)

Section weights.
Context {D : Type} `{EqDecision D}.
Implicit Types (l k : wlist D) (x : D).

Lemma wt_nil x : wt (@nil (D * Z)) x = 0.
Proof. done. Qed.

Lemma wt_perm l k x : l ≡ₚ k → wt l x = wt k x.
Proof. intros Hlk. exact (wlist_equiv_perm l k Hlk x). Qed.

Lemma wt_single (d : D) (z : Z) x : wt [(d, z)] x = if decide (d = x) then wrap_i 64 z else 0.
Proof.
  unfold wt, wsum, indicator. csimpl. unfold sumZ. simpl. case_decide; rewrite ?Z.add_0_r, ?Z.mul_1_l; done.
Qed.
End weights.

Section concat.
Context {D : Type} `{EqDecision D}.

Lemma wt_concat_zero (ls : list (wlist D)) x : (∀ l, l ∈ ls → wt l x = 0) → wt (concat ls) x = 0.
Proof.
  induction ls as [|l ls IH]; intros Hl; [done|]. simpl. rewrite wt_app, IH by set_solver.
  by rewrite (Hl l) by set_solver.
Qed.

Lemma wt_concat_sum (ls : list (wlist D)) x :
  wt (concat ls) x = wrap_i 64 (sumZ ((λ l, wt l x) <$> ls)).
Proof.
  induction ls as [|l ls IH]; [done|]. cbn [concat]. rewrite wt_app, IH, fmap_cons, sumZ_cons.
  rewrite (Z.add_comm (wt l x)), wrap_i64_add_l. f_equal. lia.
Qed.

(** Of several streams, one has the record. *)
Lemma wt_concat_one (ls : list (wlist D)) x k a :
  in_i64 a → (∀ i l, ls !! i = Some l → wt l x = if decide (i = k) then a else 0) →
  wt (concat ls) x = if decide (k < length ls)%nat then a else 0.
Proof.
  intros Ha. revert k. induction ls as [|l ls IH]; intros k Hl; [done|]. simpl. rewrite wt_app.
  rewrite (Hl 0%nat l) by done. destruct k as [|k].
  - rewrite wt_concat_zero.
    + simpl. rewrite Z.add_0_r. by apply wrap_i64_id.
    + intros l' [i Hi]%list_elem_of_lookup. rewrite (Hl (S i) l') by done. by case_decide.
  - rewrite (IH k).
    + rewrite decide_False by done. repeat case_decide; try lia; by rewrite ?Z.add_0_l, ?wrap_i64_id.
    + intros i l' Hi. rewrite (Hl (S i) l') by done. repeat case_decide; lia || done.
Qed.
End concat.

Section respond.
Context {T D D' : Type} `{EqDecision T, EqDecision D, EqDecision D'}.
Implicit Types (l k : Stream T D) (f g : T → D → list D').

Lemma respond_app f l k : respond f (l ++ k) = respond f l ++ respond f k.
Proof. unfold respond. by rewrite bind_app. Qed.

Lemma wsum_respond f h l :
  wsum h (respond f l) = wsum (λ x, sumZ ((λ y, h (y, x.2)) <$> f x.2 x.1)) l.
Proof.
  unfold respond. rewrite wsum_bind. unfold wsum at 2. f_equal.
  apply list_fmap_ext. intros i [[x t] d] _. simpl. rewrite <- (wsum_ones (λ y, h (y, t)) d).
  generalize (f t x). intros ys. induction ys as [|y ys IH]; [done|]. csimpl.
  rewrite !wsum_cons. simpl. by rewrite IH.
Qed.

(** [respond] is linear: it respects equality of weights. *)
#[export] Instance respond_proper f : Proper ((≡) ==> (≡)) (respond f).
Proof.
  intros l k Hlk y. unfold wt. rewrite !wsum_respond. by apply wsum_equiv.
Qed.

Lemma respond_perm f g l :
  (∀ x t, (x, t) ∈ l.*1 → f t x ≡ₚ g t x) → respond f l ≡ₚ respond g l.
Proof.
  induction l as [|[[x t] d] l IH]; intros Hl; [done|]. unfold respond in *. csimpl.
  apply Permutation_app; [|apply IH; set_solver].
  apply fmap_Permutation, Hl. set_solver.
Qed.

Lemma respond_singleton l : respond (λ _ x, [x]) l = l.
Proof. unfold respond. induction l as [|[[] ?] l IH]; [done|]. csimpl in *. by rewrite IH. Qed.

Lemma respond_mono f l l' : l ≡ₚ l' → respond f l ≡ₚ respond f l'.
Proof. intros Hl. unfold respond. by rewrite Hl. Qed.

Lemma respondM_pure (f : T → D → outcome (list D')) g l :
  (∀ x t, (x, t) ∈ l.*1 → f t x = Ret (g t x)) → respondM f l = Ret (respond g l).
Proof.
  intros Hf. unfold respondM, respond.
  rewrite (mapM_outcome_pure _ (λ u, (λ y, ((y, u.1.2), u.2)) <$> g u.1.2 u.1.1)).
  - simpl. f_equal. clear Hf. induction l as [|u l IH]; [done|]. csimpl. by rewrite IH.
  - intros u Hu. rewrite Hf; [done|]. apply list_elem_of_fmap. exists u. by destruct u as [[] ?].
Qed.

Lemma elem_of_respond f l y t : (y, t) ∈ (respond f l).*1 ↔ ∃ x, (x, t) ∈ l.*1 ∧ y ∈ f t x.
Proof.
  unfold respond. split.
  - intros (p & Hp & (u & Hin & Hu)%list_elem_of_bind)%list_elem_of_fmap.
    apply list_elem_of_fmap in Hin as (y' & -> & Hy). simplify_eq/=. exists u.1.1.
    split; [|done]. apply list_elem_of_fmap. exists u. by destruct u as [[] ?].
  - intros (x & (u & Hu & Hin)%list_elem_of_fmap & Hy). apply list_elem_of_fmap.
    exists ((y, t), u.2). split; [done|]. apply list_elem_of_bind. exists u. split; [|done].
    apply list_elem_of_fmap. exists y. by destruct u as [[] ?]; simplify_eq/=.
Qed.

Lemma sumZ_indicator (ys : list D') (y : D') :
  NoDup ys → sumZ (indicator y <$> ys) = if decide (y ∈ ys) then 1 else 0.
Proof.
  induction 1 as [|y' ys Hy' _ IH]; [done|]. rewrite fmap_cons, sumZ_cons, IH. unfold indicator.
  repeat case_decide; set_solver.
Qed.

(** The weight of a response that determines its request. *)
Lemma wt_respond f (g : D' → D) (b : T → D' → bool) l y t :
  (∀ t x, NoDup (f t x)) → (∀ t x y, y ∈ f t x ↔ x = g y ∧ b t y = true) →
  wt (respond f l) (y, t) = if b t y then wt l (g y, t) else 0.
Proof.
  intros Hnd Hf. unfold wt. rewrite wsum_respond.
  rewrite (wsum_ext _ (λ x, if b t y then indicator (g y, t) x else 0)).
  - destruct (b t y); [done|]. by rewrite wsum_zero.
  - intros [x t'] _. simpl. destruct (decide (t' = t)) as [->|Ht].
    + rewrite (list_fmap_ext _ (indicator y) (f t x)).
      * rewrite sumZ_indicator by done. unfold indicator. specialize (Hf t x y).
        destruct (b t y); repeat case_decide; naive_solver.
      * intros i y' _. unfold indicator. repeat case_decide; naive_solver.
    + rewrite (list_fmap_ext _ (λ _, 0) (f t' x)).
      * assert (sumZ ((λ _, 0) <$> f t' x) = 0) as ->.
        { induction (f t' x); [done|]. by rewrite fmap_cons, sumZ_cons. }
        unfold indicator. destruct (b t y); repeat case_decide; naive_solver.
      * intros i y' _. unfold indicator. case_decide; naive_solver.
Qed.

(** Zero differences do not count. *)
Lemma nonzero_equiv l : filter (λ u, u.2 ≠ 0) l ≡ l.
Proof.
  intros y. unfold wt. f_equal. induction l as [|u l IH]; [done|].
  rewrite filter_cons, wsum_cons. case_decide as Hu; [by rewrite wsum_cons, IH|].
  rewrite Hu, IH. lia.
Qed.
End respond.

Lemma respond_respond {T D D' D''} (f : T → D → list D') (g : T → D' → list D'') (l : Stream T D) :
  respond g (respond f l) = respond (λ t x, f t x ≫= g t) l.
Proof.
  unfold respond. induction l as [|[[x t] d] l IH]; [done|]. rewrite !bind_cons, bind_app, IH.
  f_equal. simpl. induction (f t x) as [|y ys IHy]; [done|].
  rewrite fmap_cons, !bind_cons, fmap_app, IHy. done.
Qed.
