(* ===== verification/Lookups.v ===== *)
(** * The lookup operators of Hector's extenders (src/src/plan/hector.rs)

    [CollectionExtender]'s [count], [propose] and [validate] each build an
    operator with the same shape: it stashes the requests that arrive on its
    first input, waits until the frontier of its second input has passed the
    time of a request, looks the request's key up in a trace, and then forgets
    it.  This file has the operator, activation by activation, the three ways to
    answer a request, the three operators, and what they compute; that every
    schedule of activations computes it is proved in [LookupTheorems]. *)
From Stdlib Require Import ZArith NArith Lia Sorting.Sorted.
From stdpp Require Import base numbers list sets.
From S2P Require Import Prelude Timestamps Weighted Streams.
Local Open Scope Z_scope.

(** ** Cursors

    A cursor of a differential trace visits the keys in order.  Seeking a key
    moves forward only, to the first key that is not smaller.  At a key, the
    loop over [get_val] and [step_val] visits its values, and [map_times] the
    updates of each, after which [rewind_vals] leaves the cursor as it was:
    [get_vals] is what the loop visits.  [remaining] is what lies ahead. *)
Definition History (K V T : Type) : Type := list (K * list (V * list (T * Z))).

Fixpoint from_key {K A} `{Ord K} (k : K) (l : list (K * A)) : list (K * A) :=
  match l with
  | [] => []
  | g :: l' => if cmp_le k g.1 then l else from_key k l'
  end.

Class Cursors (K V T : Type) `{Ord K} := {
  Cursor : Type;
  seek_key : Cursor → K → Cursor;
  get_key : Cursor → option K;
  get_vals : Cursor → list (V * list (T * Z));
  remaining : Cursor → History K V T;
  remaining_seek : ∀ c k, remaining (seek_key c k) = from_key k (remaining c);
  get_key_remaining : ∀ c, get_key c = fst <$> head (remaining c);
  get_vals_remaining : ∀ c, get_vals c = default [] (snd <$> head (remaining c));
  remaining_sorted : ∀ c,
    StronglySorted (λ g g', cmp_le g.1 g'.1 = true ∧ g.1 ≠ g'.1) (remaining c);
  values_NoDup : ∀ c k vals, (k, vals) ∈ remaining c → NoDup vals.*1 ∧ vals ≠ []
}.
Arguments Cursor K V T {_ _}.

(** The updates ahead of a cursor. *)
Definition cursor_updates {K V T} `{Cursors K V T} (c : Cursor K V T) : Stream T (K * V) :=
  g ← remaining c; v ← g.2; td ← v.2; [((g.1, v.1, td.1), td.2)].

(** ** Answers *)
Section answers.
Context {T : Type} `{PartialOrderT T}.

(** [cursor.map_times(&storage, |t, d| if t.less_equal(time) { count += d; })]. *)
Definition map_times (history : list (T * Z)) (time : T) : Z :=
  foldl (λ count td, if less_equal td.1 time then wrap_i 64 (count + td.2) else count) 0 history.

(** The value a cursor is at when it reaches a key. *)
Definition first_count {K V} `{Ord K, !Cursors K V T} (c : Cursor K V T) (time : T) : Z :=
  match get_vals c with
  | (_, history) :: _ => map_times history time
  | [] => 0
  end.

Context {K : Type} `{EqDecision K, Ord K}.

(** [count as usize]. *)
Definition as_usize (z : Z) : N := Z.to_N (z mod 2 ^ 64).

Definition count_answer {P} `{!Cursors K unit T} (key : P → K) (index : N) (c : Cursor K unit T)
    (time : T) (request : P * N * N) : list (P * N * N) :=
  let '(prefix, old_count, old_index) := request in
  if bool_decide (get_key c = Some (key prefix)) then
    let count := as_usize (first_count c time) in
    if (0 <? count)%N then
      if (count <? old_count)%N then [(prefix, count, index)] else [(prefix, old_count, old_index)]
    else []
  else [].

Definition propose_answer {P V} `{!Cursors K V T} (key : P → K) (c : Cursor K V T)
    (time : T) (prefix : P) : list (P * V) :=
  if bool_decide (get_key c = Some (key prefix)) then
    v ← get_vals c; if 0 <? map_times v.2 time then [(prefix, v.1)] else []
  else [].

Definition validate_answer {P V} `{EqDecision V, Ord V, !Cursors (K * V) unit T} (key : P → K)
    (c : Cursor (K * V) unit T) (time : T) (extension : P * V) : list (P * V) :=
  if bool_decide (get_key c = Some (key extension.1, extension.2)) then
    if 0 <? first_count c time then [extension] else []
  else [].
End answers.

(** ** The operator *)
Section operator.
Context {K V T X Y : Type} `{EqDecision T, PartialOrderT T, TM : !Timely T}.
Context `{EqDecision K, Ord K, !Cursors K V T}.
Context (key : X → K) (answer : Cursor K V T → T → X → list Y).

(** Requests by the capability they came with, and the trace, as the frontier
    its handle was advanced to, until it is dropped. *)
Record Lookup := mkLookup { stash : list (T * Stream T X); trace : option (list T) }.

(** What an activation finds: the messages of the first input, a cursor of the
    trace, and the frontiers of both inputs. *)
Record Activation := mkActivation {
  messages : list (T * Stream T X);
  cursor : Cursor K V T;
  frontier1 : list T;
  frontier2 : list T
}.

(** [stash.entry(capability.retain()).or_insert_with(Vec::new).extend(..)]. *)
Fixpoint stash_request (entries : list (T * Stream T X)) (message : T * Stream T X)
    : list (T * Stream T X) :=
  match entries with
  | [] => [message]
  | entry :: entries' =>
      if decide (entry.1 = message.1) then (entry.1, entry.2 ++ message.2) :: entries'
      else entry :: stash_request entries' message
  end.

(** [for (ref prefix, ref time, ref mut diff) in prefixes.iter_mut()]: answers,
    and the requests with the differences of the answered ones set to zero. *)
Fixpoint serve (frontier : list T) (c : Cursor K V T) (requests : Stream T X)
    : Stream T Y * Stream T X :=
  match requests with
  | [] => ([], [])
  | (x, time, diff) :: requests' =>
      if antichain_less_equal frontier time then
        let '(out, rest) := serve frontier c requests' in (out, (x, time, diff) :: rest)
      else
        let c := seek_key c (key x) in
        let '(out, rest) := serve frontier c requests' in
        (((λ y, ((y, time), diff)) <$> answer c time x) ++ out, (x, time, 0) :: rest)
  end.

(** One entry of the stash. *)
Definition serve_entry (frontier : list T) (c : Cursor K V T) (entry : T * Stream T X)
    : Stream T Y * (T * Stream T X) :=
  if antichain_less_equal frontier entry.1 then ([], entry)
  else
    let requests := sort_by (λ u u', cmp_le (key u.1.1) (key u'.1.1)) entry.2 in
    let '(out, requests) := serve frontier c requests in
    (out, (entry.1, filter (λ u, u.2 ≠ 0) requests)).

Definition activate (self : Lookup) (act : Activation) : Stream T Y * Lookup :=
  let stash := foldl stash_request (stash self) (messages act) in
  let '(out, stash) :=
    match trace self with
    | Some _ => let served := serve_entry (frontier2 act) (cursor act) <$> stash in
                (concat served.*1, served.*2)
    | None => ([], stash)
    end in
  let stash := filter (λ entry, entry.2 ≠ []) stash in
  let trace := match trace self with Some _ => Some (frontier1 act) | None => None end in
  let trace := if bool_decide (frontier1 act = []) && bool_decide (stash = []) then None else trace in
  (out, mkLookup stash trace).

Fixpoint activations (self : Lookup) (acts : list Activation) : Stream T Y * Lookup :=
  match acts with
  | [] => ([], self)
  | act :: acts' =>
      let '(out, self) := activate self act in
      let '(out', self) := activations self acts' in
      (out ++ out', self)
  end.
End operator.
Arguments Lookup : clear implicits.
Arguments Activation K V T X {_ _}.

(** ** The three operators, from a fresh start *)
Section operators.
Context {T : Type} `{EqDecision T, PartialOrderT T, TM : !Timely T}.
Context {K : Type} `{EqDecision K, TotalOrd K}.

Definition run_lookup {K' V' X Y} `{Ord K', !Cursors K' V' T} (key : X → K')
    (answer : Cursor K' V' T → T → X → list Y) (since : list T)
    (acts : list (Activation K' V' T X)) : Stream T Y * Lookup T X :=
  activations key answer (mkLookup [] (Some since)) acts.

Context {P : Type} (key : P → K).

(** [CollectionExtender::count]. *)
Definition count_operator `{!Cursors K unit T} (index : N) :=
  run_lookup (λ x : P * N * N, key x.1.1) (count_answer key index).
(** [CollectionExtender::propose]. *)
Definition propose_operator {V} `{!Cursors K V T} :=
  run_lookup key (propose_answer (V := V) key).
(** [CollectionExtender::validate]. *)
Definition validate_operator {V} `{EqDecision V, TotalOrd V, !Cursors (K * V) unit T} :=
  run_lookup (λ x : P * V, (key x.1, x.2)) (validate_answer key).
End operators.

(** ** What the operators compute

    The answers in terms of the whole history of the trace, when the frontiers
    have passed every request. *)
Section lookup.
Context {T : Type} `{PartialOrderT T}.
Context {K : Type} `{EqDecision K} {P : Type} (key : P → K).

Definition count_lookup (index : N) (history : Stream T (K * unit)) (time : T)
    (request : P * N * N) : list (P * N * N) :=
  let '(prefix, old_count, old_index) := request in
  let count := as_usize (wt (accumulate history time) (key prefix, tt)) in
  if (0 <? count)%N then
    if (count <? old_count)%N then [(prefix, count, index)] else [(prefix, old_count, old_index)]
  else [].

(** The values a history mentions for a key. *)
Definition values_of {V} `{EqDecision V} (history : Stream T (K * V)) (k : K) : list V :=
  remove_dups ((λ u, u.1.1.2) <$> filter (λ u, u.1.1.1 = k) history).

Definition propose_lookup {V} `{EqDecision V} (history : Stream T (K * V)) (time : T) (prefix : P)
    : list (P * V) :=
  pair prefix <$> filter (λ v, 0 < wt (accumulate history time) (key prefix, v))
                    (values_of history (key prefix)).

Definition validate_lookup {V} `{EqDecision V} (history : Stream T (K * V * unit)) (time : T)
    (extension : P * V) : list (P * V) :=
  if 0 <? wt (accumulate history time) (key extension.1, extension.2, tt) then [extension] else [].
End lookup.
