(* ===== verification/LookupTheorems.v ===== *)
(** * Lookups do not depend on the schedule

    However the activations of a lookup operator are interleaved with the
    arrival of requests and of trace updates, its output has the weights of the
    pure lookup of every request in the complete history. *)
From Stdlib Require Import ZArith NArith Lia Sorting.Sorted.
From stdpp Require Import base numbers list sets.
From S2P Require Import Prelude Timestamps Weighted Streams Lookups.
Local Open Scope Z_scope.

(** ** Cursors *)
Section cursors.
Context {K V T : Type} `{EqDecision K, EqDecision V, EqDecision T, PartialOrderT T}.
Context `{TotalOrd K, !Cursors K V T}.
Implicit Types (c : Cursor K V T) (k : K).

Lemma from_key_le {A} k k' (l : list (K * A)) :
  cmp_le k k' = true → from_key k' (from_key k l) = from_key k' l.
Proof.
  intros Hk. induction l as [|g l IH]; [done|]. simpl. destruct (cmp_le k g.1) eqn:Hg; [done|].
  destruct (cmp_le k' g.1) eqn:Hg'; [|done].
  assert (cmp_le k g.1 = true) by (by eapply cmp_le_trans). congruence.
Qed.

(** The group of a key is found by seeking it. *)
Lemma from_key_group k (l : History K V T) :
  StronglySorted (λ g g', cmp_le g.1 g'.1 = true ∧ g.1 ≠ g'.1) l →
  match from_key k l with
  | g :: _ => if decide (g.1 = k) then ∀ g', g' ∈ l → g'.1 = k → g' = g
              else ∀ g', g' ∈ l → g'.1 ≠ k
  | [] => ∀ g', g' ∈ l → g'.1 ≠ k
  end ∧ from_key k l ⊆ l.
Proof.
  induction 1 as [|g l Hl [IH Hsub] Hg]; simpl; [split; set_solver|].
  destruct (cmp_le k g.1) eqn:Hk.
  - split; [|done]. rewrite Forall_forall in Hg. case_decide as Hgk.
    + intros g' [->|Hin]%elem_of_cons Hg'; [done|]. destruct (Hg _ Hin). congruence.
    + intros g' [->|Hin]%elem_of_cons Hg'; [done|]. destruct (Hg _ Hin) as [Hle _].
      apply Hgk. rewrite Hg' in Hle. by apply cmp_le_antisym.
  - split; [|set_solver].
    assert (g.1 ≠ k) as Hne by (intros <-; by rewrite cmp_le_refl in Hk).
    destruct (from_key k l) as [|g1 l1]; [set_solver|]. case_decide; set_solver.
Qed.

Lemma map_times_sum (history : list (T * Z)) time :
  map_times history time =
  wrap_i 64 (sumZ (snd <$> filter (λ td, less_equal td.1 time = true) history)).
Proof.
  unfold map_times. assert (∀ a, in_i64 a →
    foldl (λ count td, if less_equal td.1 time then wrap_i 64 (count + td.2) else count) a history =
    wrap_i 64 (a + sumZ (snd <$> filter (λ td, less_equal td.1 time = true) history))) as Hg.
  { induction history as [|td h IH]; intros a Ha.
    - unfold sumZ. simpl. by rewrite Z.add_0_r, wrap_i64_id.
    - simpl. rewrite filter_cons. destruct (less_equal td.1 time) eqn:Htd.
      + rewrite decide_True by done. rewrite IH by apply wrap_i64_range. csimpl.
        rewrite wrap_i64_add_l. f_equal. unfold sumZ. simpl. lia.
      + rewrite decide_False by done. by apply IH. }
  rewrite Hg; [done|]. unfold in_i64. lia.
Qed.

(** The updates of one value, and of one group, at a record. *)
Definition history_sum (time : T) (history : list (T * Z)) : Z :=
  sumZ (snd <$> filter (λ td, less_equal td.1 time = true) history).

Lemma wsum_history (k' k : K) (v' v : V) history time :
  wsum (indicator (k, v)) (accumulate (td ← history; [((k', v', td.1), td.2)]) time) =
  if decide ((k', v') = (k, v)) then history_sum time history else 0.
Proof.
  unfold accumulate. rewrite wsum_wmap, wsum_wfilter, wsum_bind. unfold history_sum.
  induction history as [|[t d] h IH]; [by case_decide|].
  rewrite fmap_cons, sumZ_cons, IH, filter_cons. clear IH. rewrite wsum_cons. unfold indicator.
  simpl. change (wsum _ []) with 0.
  destruct (less_equal t time).
  - rewrite (decide_True (P := true = true)), fmap_cons, sumZ_cons by done. case_decide; simpl; lia.
  - rewrite (decide_False (P := false = true)) by done. case_decide; lia.
Qed.

Lemma accumulate_app {D} (l l' : Stream T D) time :
  accumulate (l ++ l') time = accumulate l time ++ accumulate l' time.
Proof. unfold accumulate, wfilter, wmap. by rewrite filter_app, fmap_app. Qed.

Definition group_updates (g : K * list (V * list (T * Z))) : Stream T (K * V) :=
  v ← g.2; td ← v.2; [((g.1, v.1, td.1), td.2)].

Lemma wsum_group g time (k : K) (v : V) :
  wsum (indicator (k, v)) (accumulate (group_updates g) time) =
  if decide (g.1 = k)
  then sumZ ((λ v', if decide (v'.1 = v) then history_sum time v'.2 else 0) <$> g.2) else 0.
Proof.
  destruct g as [k' vals]. unfold group_updates. simpl.
  induction vals as [|[v' h] vals IH]; [by case_decide|].
  rewrite bind_cons, accumulate_app, wsum_app, IH, fmap_cons, sumZ_cons. simpl.
  rewrite wsum_history. repeat case_decide; simplify_eq/=; lia.
Qed.

Lemma wsum_other_groups (l : History K V T) k v time :
  (∀ g, g ∈ l → g.1 ≠ k) →
  wsum (indicator (k, v)) (accumulate (l ≫= group_updates) time) = 0.
Proof.
  induction l as [|g l IH]; intros Hl; [done|].
  rewrite bind_cons, accumulate_app, wsum_app, IH, wsum_group by set_solver.
  by rewrite decide_False by (apply Hl; set_solver).
Qed.

(** What a cursor tells about a record is the weight of its updates. *)
Lemma cursor_weight c time k v :
  wt (accumulate (cursor_updates c) time) (k, v) =
  match from_key k (remaining c) with
  | g :: _ => if decide (g.1 = k) then
      wrap_i 64 (sumZ ((λ v', if decide (v'.1 = v) then history_sum time v'.2 else 0) <$> g.2))
      else 0
  | [] => 0
  end.
Proof.
  unfold wt. change (cursor_updates c) with (remaining c ≫= group_updates).
  pose proof (remaining_sorted c) as Hs. revert Hs. generalize (remaining c) as l. intros l Hs.
  induction Hs as [|g l Hl IH Hg]; [done|]. rewrite bind_cons, accumulate_app, wsum_app, wsum_group.
  simpl. destruct (cmp_le k g.1) eqn:Hk.
  - rewrite wsum_other_groups; [by case_decide; rewrite Z.add_0_r|].
    intros g' Hin <-. rewrite Forall_forall in Hg. destruct (Hg _ Hin) as [Hle Hne].
    apply Hne. by apply cmp_le_antisym.
  - rewrite decide_False, Z.add_0_l; [done|]. intros <-. by rewrite cmp_le_refl in Hk.
Qed.

Lemma absent_value (vals : list (V * list (T * Z))) v time :
  v ∉ vals.*1 → sumZ ((λ v', if decide (v'.1 = v) then history_sum time v'.2 else 0) <$> vals) = 0.
Proof.
  induction vals as [|[v' h] vals IH]; intros Hv; [done|].
  rewrite fmap_cons, not_elem_of_cons in Hv. destruct Hv as [Hv Hvs].
  rewrite fmap_cons, sumZ_cons, IH by done. simpl in *. by rewrite decide_False.
Qed.

Lemma present_value (vals : list (V * list (T * Z))) v h time :
  NoDup vals.*1 → (v, h) ∈ vals →
  sumZ ((λ v', if decide (v'.1 = v) then history_sum time v'.2 else 0) <$> vals) = history_sum time h.
Proof.
  induction vals as [|[v' h'] vals IH]; intros Hnd Hin; [set_solver|].
  apply NoDup_cons in Hnd as [Hv' Hnd]. rewrite fmap_cons, sumZ_cons. simpl in *.
  apply elem_of_cons in Hin as [[= <- <-]|Hin].
  - rewrite decide_True, absent_value by done. lia.
  - rewrite decide_False, IH; [done..|]. intros ->. apply Hv', list_elem_of_fmap. by exists (v, h).
Qed.

(** Seeking a key and reading the values: the weights of the key's records. *)
Lemma cursor_values c k time :
  let c' := seek_key c k in
  if decide (get_key c' = Some k) then
    NoDup (get_vals c').*1 ∧ get_vals c' ≠ [] ∧
    (∀ v h, (v, h) ∈ get_vals c' →
       map_times h time = wt (accumulate (cursor_updates c) time) (k, v)) ∧
    (∀ v, v ∉ (get_vals c').*1 → wt (accumulate (cursor_updates c) time) (k, v) = 0)
  else ∀ v, wt (accumulate (cursor_updates c) time) (k, v) = 0.
Proof.
  simpl. rewrite get_key_remaining, get_vals_remaining, remaining_seek.
  pose proof (from_key_group k _ (remaining_sorted c)) as [_ Hsub].
  pose proof (cursor_weight c time k) as Hw.
  destruct (from_key k (remaining c)) as [|[k' vals] l]; simpl in *.
  { done. }
  destruct (values_NoDup c k' vals) as [Hnd Hne]; [set_solver|].
  repeat case_decide; simplify_eq/=; try done. split; [done|]. split; [done|]. split.
  - intros v h Hin. rewrite Hw, map_times_sum. f_equal. by erewrite present_value.
  - intros v Hv. by rewrite Hw, absent_value.
Qed.
End cursors.

(** ** The operator *)
Section operator.
Context {K V T X Y : Type} `{EqDecision K, EqDecision V, EqDecision T, EqDecision X, EqDecision Y}.
Context `{PartialOrderT T, TM : !Timely T, TotalOrd K, CU : !Cursors K V T}.
Context (key : X → K) (answer : Cursor K V T → T → X → list Y).
Context (complete_history : Stream T (K * V)) (spec : T → X → list Y).
Implicit Types (c : Cursor K V T) (self : Lookup T X) (act : Activation K V T X) (l : Stream T X).

(** A cursor whose trace has all there is to know at a time. *)
Definition faithful c (t : T) : Prop := accumulate (cursor_updates c) t ≡ accumulate complete_history t.

Context (answer_ext : ∀ c c' t x, remaining c = remaining c' → answer c t x = answer c' t x).
Context (answer_spec : ∀ c t x, faithful c t → answer (seek_key c (key x)) t x ≡ₚ spec t x).

Definition complete (frontier : list T) (u : X * T * Z) : Prop :=
  antichain_less_equal frontier u.1.2 = false.
#[local] Instance complete_dec frontier u : Decision (complete frontier u).
Proof. unfold complete. apply _. Defined.

Lemma serve_spec frontier c0 c l :
  StronglySorted (λ u u', cmp_le (key u.1.1) (key u'.1.1) = true) l →
  (∀ u, u ∈ l → from_key (key u.1.1) (remaining c) = from_key (key u.1.1) (remaining c0)) →
  (∀ u, u ∈ l → complete frontier u → faithful c0 u.1.2) →
  (serve key answer frontier c l).1 ≡ₚ respond spec (filter (complete frontier) l) ∧
  filter (λ u, u.2 ≠ 0) (serve key answer frontier c l).2 =
    filter (λ u, u.2 ≠ 0) (filter (λ u, ¬ complete frontier u) l).
Proof.
  intros Hs. revert c. induction Hs as [|[[x t] d] l Hl IH Hx]; intros c Hc Hf; [done|].
  rewrite Forall_forall in Hx. simpl.
  destruct (antichain_less_equal frontier t) eqn:Ht.
  - destruct (IH c) as [Hout Hrest]; [set_solver..|].
    destruct (serve key answer frontier c l) as [out rest]. simpl in *.
    assert (¬ complete frontier (x, t, d)) as Hn by (unfold complete; simpl; congruence).
    rewrite (filter_cons_False (complete frontier)) by done.
    rewrite (filter_cons_True (λ u, ¬ complete frontier u)) by done. split; [done|].
    rewrite !filter_cons. by rewrite Hrest.
  - set (c' := seek_key c (key x)). destruct (IH c') as [Hout Hrest].
    { intros u Hu. unfold c'. rewrite remaining_seek, from_key_le by (by apply Hx).
      apply Hc. set_solver. }
    { set_solver. }
    destruct (serve key answer frontier c' l) as [out rest]. simpl in *.
    rewrite (filter_cons_True (complete frontier)) by done.
    rewrite (filter_cons_False (λ u, ¬ complete frontier u)) by (intros Hn; by apply Hn).
    rewrite (filter_cons_False (λ u, u.2 ≠ 0)) by (by intros Hn; apply Hn). split; [|done].
    unfold respond at 1. rewrite bind_cons. apply Permutation_app; [|done]. simpl.
    apply fmap_Permutation. rewrite <- (answer_spec c0) by (apply (Hf (x, t, d)); [set_solver|done]).
    erewrite answer_ext; [done|]. unfold c'. rewrite !remaining_seek. apply (Hc (x, t, d)). set_solver.
Qed.

Lemma serve_entry_spec frontier c (entry : T * Stream T X) :
  (∀ u, u ∈ entry.2 → complete frontier u → faithful c u.1.2) →
  let '(out, entry') := serve_entry key answer frontier c entry in
  out ++ respond spec entry'.2 ≡ respond spec entry.2.
Proof.
  intros Hf. unfold serve_entry. destruct (antichain_less_equal frontier entry.1); [done|].
  set (l := sort_by _ entry.2). assert (l ≡ₚ entry.2) as Hl by apply sort_by_perm.
  destruct (serve_spec frontier c c l) as [Hout Hrest].
  { apply sort_by_sorted; intros; [apply cmp_le_total|by eapply cmp_le_trans]. }
  { done. }
  { intros u Hu. apply Hf. by rewrite <- Hl. }
  destruct (serve key answer frontier c l) as [out rest]. simpl in *. rewrite Hrest.
  rewrite (wlist_equiv_perm _ _ Hout), nonzero_equiv, <- respond_app.
  by apply wlist_equiv_perm, respond_mono; rewrite filter_split.
Qed.

(** *** Activations *)

Definition requests (entries : list (T * Stream T X)) : Stream T X := concat entries.*2.

Lemma stash_request_perm entries message :
  requests (stash_request entries message) ≡ₚ requests entries ++ message.2.
Proof.
  unfold requests. induction entries as [|entry entries IH]; simpl; [by rewrite app_nil_r|].
  case_decide; csimpl; [|rewrite IH, app_assoc; done]. rewrite <- !app_assoc. f_equiv. apply Permutation_app_comm.
Qed.

Lemma stash_requests_perm entries messages :
  requests (foldl stash_request entries messages) ≡ₚ requests entries ++ requests messages.
Proof.
  revert entries. induction messages as [|m messages IH]; intros entries; simpl.
  - unfold requests. simpl. by rewrite app_nil_r.
  - rewrite IH, stash_request_perm. unfold requests. csimpl. by rewrite app_assoc.
Qed.

Lemma requests_nonempty entries : requests (filter (λ entry, entry.2 ≠ []) entries) = requests entries.
Proof.
  unfold requests. induction entries as [|[t [|u l]] entries IH]; [done|..].
  - rewrite filter_cons_False by (intros Hn; by apply Hn). done.
  - rewrite filter_cons_True by done. csimpl. by rewrite IH.
Qed.

Lemma serve_entries_spec frontier c entries :
  (∀ u, u ∈ requests entries → complete frontier u → faithful c u.1.2) →
  let served := serve_entry key answer frontier c <$> entries in
  concat served.*1 ++ respond spec (requests served.*2) ≡ respond spec (requests entries).
Proof.
  unfold requests. induction entries as [|entry entries IH]; intros Hf; [done|]. csimpl in *.
  pose proof (serve_entry_spec frontier c entry) as He.
  destruct (serve_entry key answer frontier c entry) as [out entry']. csimpl.
  rewrite !respond_app. rewrite <- IH by set_solver. rewrite <- He by set_solver.
  apply wlist_equiv_perm. clear. solve_Permutation.
Qed.

(** What is open after an activation is what was open before and what came in,
    less what was answered. *)
Lemma activate_spec self act :
  (∀ u, u ∈ requests (stash self) ++ requests (messages act) →
     complete (frontier2 act) u → faithful (cursor act) u.1.2) →
  let '(out, self') := activate key answer self act in
  out ++ respond spec (requests (stash self')) ≡
    respond spec (requests (stash self) ++ requests (messages act)).
Proof.
  intros Hf. pose proof (stash_requests_perm (stash self) (messages act)) as Hp.
  unfold activate. set (entries := foldl stash_request _ _) in *.
  destruct (trace self); simpl; rewrite requests_nonempty.
  - rewrite serve_entries_spec by (intros u; rewrite Hp; apply Hf).
    by apply wlist_equiv_perm, respond_mono.
  - by apply wlist_equiv_perm, respond_mono.
Qed.

(** *** Runs *)

(** The schedules timely produces: no message after the first input has closed,
    and a cursor that is complete for the requests the second frontier has
    passed. *)
Fixpoint scheduled self (acts : list (Activation K V T X)) : Prop :=
  match acts with
  | [] => True
  | act :: acts' =>
      (trace self = None → messages act = []) ∧
      (∀ u, u ∈ requests (stash self) ++ requests (messages act) →
         complete (frontier2 act) u → faithful (cursor act) u.1.2) ∧
      scheduled (activate key answer self act).2 acts'
  end.

Lemma activations_spec self acts :
  scheduled self acts →
  let '(out, self') := activations key answer self acts in
  out ++ respond spec (requests (stash self')) ≡
    respond spec (requests (stash self) ++ requests (acts ≫= messages)).
Proof.
  revert self. induction acts as [|act acts IH]; intros self Hs.
  { simpl. unfold requests. simpl. by rewrite app_nil_r. }
  destruct Hs as (Hm & Hf & Hs). simpl. pose proof (activate_spec self act Hf) as Ha.
  destruct (activate key answer self act) as [out1 self1]. specialize (IH _ Hs). simpl in IH.
  destruct (activations key answer self1 acts) as [out2 self2]. rewrite <- (assoc_L (++)), IH.
  unfold requests in *. rewrite fmap_app, concat_app, (assoc_L (++) _ (concat (messages act).*2)).
  rewrite (respond_app spec (_ ++ _) _), <- Ha, respond_app. by rewrite (assoc_L (++)).
Qed.

(** With the second input closed, every request is answered. *)
Lemma serve_entry_closed c entry : (serve_entry key answer [] c entry).2.2 = [].
Proof.
  assert (∀ t, antichain_less_equal [] t = false) as Hnil.
  { intros t. apply not_true_iff_false. rewrite antichain_less_equal_spec. set_solver. }
  unfold serve_entry. rewrite Hnil. generalize (sort_by (λ u u', cmp_le (key u.1.1) (key u'.1.1)) entry.2).
  intros l. assert (filter (λ u : X * T * Z, u.2 ≠ 0) (serve key answer [] c l).2 = []) as Hz.
  { revert c. induction l as [|[[x t] d] l IH]; intros c; [done|]. simpl. rewrite Hnil.
    specialize (IH (seek_key c (key x))). destruct (serve key answer [] _ l). simpl in *.
    rewrite filter_cons_False by (intros Hn; by apply Hn). done. }
  by destruct (serve key answer [] c l).
Qed.

(** The trace is dropped only when nothing is waiting. *)
Lemma activate_open self act :
  (trace self = None → stash self = []) → (trace self = None → messages act = []) →
  let self' := (activate key answer self act).2 in
  (trace self' = None → stash self' = []) ∧ (frontier2 act = [] → stash self' = []).
Proof.
  intros Hopen Hm. unfold activate. set (entries := foldl stash_request _ _).
  destruct (trace self) as [since|]; simpl.
  - split; [case_bool_decide; simpl; [case_bool_decide|]; naive_solver|]. intros ->.
    apply filter_none. intros entry Hin. apply list_elem_of_fmap in Hin as (p & -> & Hin).
    apply list_elem_of_fmap in Hin as (e & -> & He).
    rewrite serve_entry_closed. intros Hn. by apply Hn.
  - unfold entries. rewrite Hopen, Hm by done. by split.
Qed.

Lemma activations_closed self acts act :
  scheduled self (acts ++ [act]) → (trace self = None → stash self = []) → frontier2 act = [] →
  stash (activations key answer self (acts ++ [act])).2 = [].
Proof.
  revert self. induction acts as [|act1 acts IH]; intros self Hs Hopen Hf; simpl in *;
    destruct Hs as (Hm & _ & Hs).
  - destruct (activate_open self act Hopen Hm) as [_ Hclosed].
    destruct (activate key answer self act). by apply Hclosed.
  - destruct (activate_open self act1 Hopen Hm) as [Hopen1 _].
    destruct (activate key answer self act1) as [out1 self1]. simpl in *.
    specialize (IH _ Hs Hopen1 Hf). by destruct (activations key answer self1 (acts ++ [act])).
Qed.

End operator.

(** ** The three operators *)
Section lookups.
Context {T : Type} `{EqDecision T, PartialOrderT T, TM : !Timely T}.
Context {K : Type} `{EqDecision K, TotalOrd K} {P : Type} `{EqDecision P}.
Context (key : P → K).

Lemma get_key_ext {K' V'} `{Ord K', !Cursors K' V' T} (c c' : Cursor K' V' T) :
  remaining c = remaining c' → get_key c = get_key c' ∧ get_vals c = get_vals c'.
Proof. intros Hr. by rewrite !get_key_remaining, !get_vals_remaining, Hr. Qed.

Lemma first_count_ext {K' V'} `{Ord K', !Cursors K' V' T} (c c' : Cursor K' V' T) t :
  remaining c = remaining c' → first_count c t = first_count c' t.
Proof. intros [_ Hv]%get_key_ext. unfold first_count. by rewrite Hv. Qed.

(** In a trace without values, the first value's count is the key's weight. *)
Lemma first_count_weight {K'} `{EqDecision K', TotalOrd K', !Cursors K' unit T} history
    (c : Cursor K' unit T) (k : K') t :
  faithful history c t →
  if decide (get_key (seek_key c k) = Some k)
  then first_count (seek_key c k) t = wt (accumulate history t) (k, tt)
  else wt (accumulate history t) (k, tt) = 0.
Proof.
  intros Hf. pose proof (cursor_values c k t) as Hv. cbv zeta in Hv. case_decide.
  - destruct Hv as (_ & Hne & Hv & _). unfold first_count. rewrite <- (Hf (k, tt)).
    destruct (get_vals (seek_key c k)) as [|[[] h] vals]; [done|]. apply Hv. set_solver.
  - rewrite <- (Hf (k, tt)). apply Hv.
Qed.

Lemma accumulate_elem {D} (l : Stream T D) t x : x ∈ (accumulate l t).*1 → ∃ t', (x, t') ∈ l.*1.
Proof.
  intros (p & -> & Hp)%list_elem_of_fmap. apply list_elem_of_fmap in Hp as (q & -> & Hq).
  apply list_elem_of_filter in Hq as [_ Hq]. exists q.1.2. apply list_elem_of_fmap. exists q.
  split; [|done]. by destruct q as [[] ?].
Qed.

Lemma values_of_weight {V} `{EqDecision V} (history : Stream T (K * V)) t k v :
  wt (accumulate history t) (k, v) ≠ 0 → v ∈ values_of history k.
Proof.
  intros (t' & Hin)%wt_elem%accumulate_elem. unfold values_of. apply elem_of_remove_dups.
  apply list_elem_of_fmap in Hin as (u & Hu & Hin). apply list_elem_of_fmap. exists u.
  rewrite list_elem_of_filter. by rewrite <- Hu.
Qed.

Lemma propose_answer_spec {V} `{EqDecision V, !Cursors K V T} history (c : Cursor K V T) t p :
  faithful history c t →
  propose_answer key (seek_key c (key p)) t p ≡ₚ propose_lookup key history t p.
Proof.
  intros Hf. pose proof (cursor_values c (key p) t) as Hv. cbv zeta in Hv.
  unfold propose_answer, propose_lookup. case_decide as Hk.
  - destruct Hv as (Hnd & _ & Hv & Hno). rewrite bool_decide_true by done.
    assert ((get_vals (seek_key c (key p)) ≫= λ v, if 0 <? map_times v.2 t then [(p, v.1)] else []) =
      pair p <$> filter (λ v, 0 < wt (accumulate history t) (key p, v))
                   (get_vals (seek_key c (key p))).*1) as ->.
    { clear Hno Hnd. revert Hv. generalize (get_vals (seek_key c (key p))) as vals.
      induction vals as [|[v h] vals IH]; intros Hv; [done|].
      rewrite bind_cons, fmap_cons, IH by set_solver. simpl.
      rewrite (Hv v h), (Hf (key p, v)) by set_solver. rewrite filter_cons.
      destruct (Z.ltb_spec 0 (wt (accumulate history t) (key p, v))).
      - by rewrite decide_True by done.
      - rewrite decide_False by lia. done. }
    apply fmap_Permutation, NoDup_Permutation.
    + by apply NoDup_filter.
    + apply NoDup_filter, NoDup_remove_dups.
    + intros v. rewrite !list_elem_of_filter. split; intros [Hpos Hin]; (split; [done|]).
      * eapply values_of_weight. by apply Z.neq_sym, Z.lt_neq.
      * destruct (decide (v ∈ (get_vals (seek_key c (key p))).*1)) as [|Hn]; [done|].
        specialize (Hno v Hn). rewrite (Hf (key p, v)) in Hno. lia.
  - rewrite bool_decide_false by done. rewrite filter_none; [done|].
    intros v _. rewrite <- (Hf (key p, v)), Hv. lia.
Qed.

Lemma validate_answer_spec {V} `{EqDecision V, TotalOrd V, !Cursors (K * V) unit T} history
    (c : Cursor (K * V) unit T) t (x : P * V) :
  faithful history c t →
  validate_answer key (seek_key c (key x.1, x.2)) t x = validate_lookup key history t x.
Proof.
  intros Hf. pose proof (first_count_weight history c (key x.1, x.2) t Hf) as Hw.
  unfold validate_answer, validate_lookup. case_decide.
  - by rewrite bool_decide_true, Hw.
  - by rewrite bool_decide_false, Hw.
Qed.

Lemma count_answer_spec `{!Cursors K unit T} history index (c : Cursor K unit T) t (x : P * N * N) :
  faithful history c t →
  count_answer key index (seek_key c (key x.1.1)) t x = count_lookup key index history t x.
Proof.
  intros Hf. pose proof (first_count_weight history c (key x.1.1) t Hf) as Hw.
  destruct x as [[p old_count] old_index]. unfold count_answer, count_lookup. simpl in *. case_decide.
  - by rewrite bool_decide_true, Hw.
  - by rewrite bool_decide_false, Hw.
Qed.

Lemma run_lookup_spec {K' V' X Y} `{EqDecision K', EqDecision V', EqDecision X, EqDecision Y,
    TotalOrd K', !Cursors K' V' T} (key' : X → K') (answer : Cursor K' V' T → T → X → list Y)
    history spec since acts act :
  (∀ c c' t x, remaining c = remaining c' → answer c t x = answer c' t x) →
  (∀ c t x, faithful history c t → answer (seek_key c (key' x)) t x ≡ₚ spec t x) →
  scheduled key' answer history (mkLookup [] (Some since)) (acts ++ [act]) → frontier2 act = [] →
  let '(out, self) := run_lookup key' answer since (acts ++ [act]) in
  out ≡ respond spec (requests ((acts ++ [act]) ≫= messages)) ∧ stash self = [].
Proof.
  intros Hext Hspec Hs Hf. unfold run_lookup.
  pose proof (activations_spec key' answer history spec Hext Hspec _ _ Hs) as Hrun.
  assert (stash (activations key' answer (mkLookup [] (Some since)) (acts ++ [act])).2 = []) as Hst
    by (by eapply activations_closed).
  destruct (activations _ _ _ _) as [out self]. simpl in *.
  split; [|done]. rewrite Hst in Hrun. unfold requests at 1 in Hrun. simpl in Hrun.
  by rewrite app_nil_r in Hrun.
Qed.

(** C4 (lookups do not depend on the schedule).  Let a trace's complete history
    be given, and run a fresh count, propose or validate operator through any
    activations such that the cursor of each is complete at the times its second
    frontier has passed, the last one after the second input has closed.  Then
    every request has been answered, and the output has the weights of looking
    each request up in the history at its own time. *)
Theorem lookup_schedule_independent {V} `{EqDecision V, TotalOrd V}
    `{CC : !Cursors K unit T, CP : !Cursors K V T, CV : !Cursors (K * V) unit T}
    (index : N) (counts : Stream T (K * unit)) (proposes : Stream T (K * V))
    (validates : Stream T (K * V * unit)) since :
  (∀ acts act, scheduled (λ x : P * N * N, key x.1.1) (count_answer key index) counts
       (mkLookup [] (Some since)) (acts ++ [act]) → frontier2 act = [] →
     let '(out, self) := count_operator key index since (acts ++ [act]) in
     out ≡ respond (count_lookup key index counts) (requests ((acts ++ [act]) ≫= messages)) ∧
     stash self = []) ∧
  (∀ acts act, scheduled key (propose_answer key) proposes
       (mkLookup [] (Some since)) (acts ++ [act]) → frontier2 act = [] →
     let '(out, self) := propose_operator key since (acts ++ [act]) in
     out ≡ respond (propose_lookup key proposes) (requests ((acts ++ [act]) ≫= messages)) ∧
     stash self = []) ∧
  (∀ acts act, scheduled (λ x : P * V, (key x.1, x.2)) (validate_answer key) validates
       (mkLookup [] (Some since)) (acts ++ [act]) → frontier2 act = [] →
     let '(out, self) := validate_operator key since (acts ++ [act]) in
     out ≡ respond (validate_lookup key validates) (requests ((acts ++ [act]) ≫= messages)) ∧
     stash self = []).
Proof.
  split_and!; intros acts act Hs Hf.
  - apply (run_lookup_spec _ _ counts); [..|done|done].
    + intros c c' t x Hr. unfold count_answer.
      by rewrite (first_count_ext _ _ t Hr), (proj1 (get_key_ext _ _ Hr)).
    + intros c t x Hfc. by rewrite (count_answer_spec counts).
  - apply (run_lookup_spec _ _ proposes); [..|done|done].
    + intros c c' t x Hr. unfold propose_answer. by destruct (get_key_ext _ _ Hr) as [-> ->].
    + intros c t x. apply propose_answer_spec.
  - apply (run_lookup_spec _ _ validates); [..|done|done].
    + intros c c' t x Hr. unfold validate_answer.
      by rewrite (first_count_ext _ _ t Hr), (proj1 (get_key_ext _ _ Hr)).
    + intros c t x Hfc. by rewrite (validate_answer_spec validates).
Qed.
End lookups.
