(* ===== verification/LookupRuns.v ===== *)
(** * Lookup operators on concrete schedules

    A model of cursors, a schedule in which a request has to wait, and one in
    which the trace is compacted while it waits. *)
From Stdlib Require Import ZArith NArith Lia Sorting.Sorted.
From stdpp Require Import base numbers list sets.
From S2P Require Import Prelude Timestamps Weighted Streams Lookups LookupTheorems.
Local Open Scope Z_scope.

(** ** Cursors as what they have left to visit *)
Section cursor_model.
Context {K V T : Type} `{TotalOrd K, EqDecision K}.

Record CursorModel := mkCursorModel {
  left_to_visit : History K V T;
  left_sorted : StronglySorted (λ g g', cmp_le g.1 g'.1 = true ∧ g.1 ≠ g'.1) left_to_visit;
  left_values : ∀ k vals, (k, vals) ∈ left_to_visit → NoDup vals.*1 ∧ vals ≠ []
}.

Lemma from_key_suffix k (l : History K V T) : ∃ l', l = l' ++ from_key k l.
Proof.
  induction l as [|g l [l' Hl]]; [by exists []|]. simpl. destruct (cmp_le k g.1); [by exists []|].
  exists (g :: l'). simpl. by rewrite <- Hl.
Qed.

Lemma from_key_sorted k (l : History K V T) :
  StronglySorted (λ g g', cmp_le g.1 g'.1 = true ∧ g.1 ≠ g'.1) l →
  StronglySorted (λ g g', cmp_le g.1 g'.1 = true ∧ g.1 ≠ g'.1) (from_key k l).
Proof.
  induction 1 as [|g l Hl IH Hg]; [constructor|]. simpl. destruct (cmp_le k g.1); [by constructor|done].
Qed.

Lemma from_key_values k (l : History K V T) :
  (∀ k vals, (k, vals) ∈ l → NoDup vals.*1 ∧ vals ≠ []) →
  ∀ k' vals, (k', vals) ∈ from_key k l → NoDup vals.*1 ∧ vals ≠ [].
Proof.
  intros Hl k' vals Hin. destruct (from_key_suffix k l) as [l' Heq]. apply (Hl k'). rewrite Heq.
  apply elem_of_app. by right.
Qed.

Definition seek_model (c : CursorModel) (k : K) : CursorModel :=
  mkCursorModel (from_key k (left_to_visit c)) (from_key_sorted k _ (left_sorted c))
    (from_key_values k _ (left_values c)).

Definition cursor_model : Cursors K V T := {|
  Cursor := CursorModel;
  seek_key := seek_model;
  get_key c := fst <$> head (left_to_visit c);
  get_vals c := default [] (snd <$> head (left_to_visit c));
  remaining := left_to_visit;
  remaining_seek _ _ := eq_refl;
  get_key_remaining _ := eq_refl;
  get_vals_remaining _ := eq_refl;
  remaining_sorted := left_sorted;
  values_NoDup := left_values
|}.
End cursor_model.
Arguments CursorModel K V T {_}.

Section lookup_runs.
#[local] Existing Instances cursor_model timely_model.

(** Key 7 with the values 70 from time 0, 71 from time 1 and 72 from time 2. *)
Definition sevens (times : N * N * N) : History N N N :=
  [(7, [(70, [(times.1.1, 1%Z)]); (71, [(times.1.2, 1%Z)]); (72, [(times.2, 1%Z)])])]%N.

Lemma sevens_sorted times :
  StronglySorted (λ g g', cmp_le g.1 g'.1 = true ∧ g.1 ≠ g'.1) (sevens times).
Proof. repeat constructor. Qed.
Lemma sevens_values times k vals : (k, vals) ∈ sevens times → NoDup vals.*1 ∧ vals ≠ [].
Proof.
  intros [= -> ->]%list_elem_of_singleton. split; [|done]. simpl.
  repeat (apply NoDup_cons; split; [set_solver|]). constructor.
Qed.
Definition sevens_cursor times : Cursor N N N :=
  mkCursorModel (sevens times) (sevens_sorted times) (sevens_values times).

(** The request for key 7 at time 1 arrives while time 1 is still open, and the
    first input moves on to time 5. *)
Definition ask : Activation N N N N :=
  mkActivation [(1%N, [((7%N, 1%N), 1)])] (sevens_cursor (0, 1, 2)%N) [5%N] [1%N].
(** The trace is complete. *)
Definition reply (times : N * N * N) : Activation N N N N :=
  mkActivation [] (sevens_cursor times) [5%N] [].

Lemma lookup_schedule_independent_witness :
  let '(out, self) := propose_operator id [0%N] ([ask] ++ [reply (0, 1, 2)%N]) in
  out ≡ [((7, 70, 1)%N, 1); ((7, 71, 1)%N, 1)] ∧ stash self = [].
Proof.
  destruct (lookup_schedule_independent (T := N) (K := N) (P := N) id (V := N) 0%N []
    (cursor_updates (sevens_cursor (0, 1, 2)%N)) [] [0%N]) as (_ & Hp & _).
  specialize (Hp [ask] (reply (0, 1, 2)%N)).
  apply Hp; [|reflexivity]. split; [discriminate|]. split.
  - intros u Hu Hc. exfalso. cbn in Hu. apply list_elem_of_singleton in Hu as ->. discriminate Hc.
  - split; [discriminate|]. split; [|exact I]. intros u _ _. unfold faithful. reflexivity.
Defined.

(** ** Compaction

    The operator lets the trace be compacted up to the frontier of its first
    input, which can be past requests it still holds. *)
Example pending_request_behind_compaction :
  (activate id (propose_answer (V := N) id) (mkLookup [] (Some [0%N])) ask).2 =
  mkLookup [(1%N, [((7%N, 1%N), 1)])] (Some [5%N]).
Proof. vm_refl. Qed.

(** With the updates of the trace moved up to that frontier, the request, which
    has two answers, gets none. *)
Example compacted_request :
  (propose_operator id [0%N] ([ask] ++ [reply (0, 1, 2)%N])).1 =
    [((7, 70, 1)%N, 1); ((7, 71, 1)%N, 1)] ∧
  (propose_operator id [0%N] ([ask] ++ [reply (5, 5, 5)%N])).1 = [].
Proof. split; vm_refl. Qed.
End lookup_runs.
