(* ===== verification/Dataflow.v ===== *)
(** * The interface to differential dataflow

    Differential and timely dataflow are other crates: their collections,
    operators, traces and shutdown buttons are parameters of the model, and the
    classes of this file state what the repository relies on.

    A collection is observed as of one (arbitrary) time: [run] is the list of
    the updates it has produced up to then, or a panic of the worker while it
    processed them, so the closures passed to operators return [outcome]s.
    Record-wise operators act on each update; the stateful ones (distinct, joins,
    reduce, count) are specified up to accumulated weights, with the records
    their output can mention.  Arranging a collection keeps its contents;
    entering or leaving a nested scope does too and is not represented. *)
From Stdlib Require Import ZArith NArith Lia.
From stdpp Require Import base strings numbers list sets.
From S2P Require Import Prelude Weighted.

(** ** Difference types *)

Class Diff (R : Type) := {
  diff_zero : R;
  diff_add : R → R → R;
  diff_mul : R → Z → R
}.

#[export] Instance isize_diff : Diff Z := {|
  diff_zero := 0%Z;
  diff_add a b := wrap_i 64 (a + b);
  diff_mul a b := wrap_i 64 (a * b)
|}.

(** [differential_dataflow::difference::DiffPair]. *)
Record DiffPair (R1 R2 : Type) := mkDiffPair { element1 : R1; element2 : R2 }.
Arguments mkDiffPair {R1 R2} element1 element2.
Arguments element1 {R1 R2} d.
Arguments element2 {R1 R2} d.
#[export] Instance DiffPair_eq_dec {R1 R2} `{EqDecision R1, EqDecision R2} :
  EqDecision (DiffPair R1 R2).
Proof. solve_decision. Defined.
#[export] Instance DiffPair_diff {R1 R2} `{Diff R1, Diff R2} : Diff (DiffPair R1 R2) := {|
  diff_zero := mkDiffPair diff_zero diff_zero;
  diff_add a b :=
    mkDiffPair (diff_add (element1 a) (element1 b)) (diff_add (element2 a) (element2 b));
  diff_mul a z := mkDiffPair (diff_mul (element1 a) z) (diff_mul (element2 a) z)
|}.

(** ** What operators are specified against *)

(** The accumulated difference of a record. *)
Definition accumulated {D R} `{EqDecision D, Diff R} (l : list (D * R)) (x : D) : R :=
  foldr (λ p acc, diff_add p.2 acc) diff_zero (filter (λ p, p.1 = x) l).

(** The values of a key with their weights, sorted, non-zero weights only: what
    [reduce] presents to its closure. *)
Definition group {K V} `{EqDecision K, EqDecision V, Ord V} (l : wlist (K * V)) (k : K)
    : list (V * Z) :=
  (λ v, (v, wt l (k, v))) <$>
  filter (λ v, wt l (k, v) ≠ 0%Z)
    (dedup (sort_by cmp_le ((snd ∘ fst) <$> filter (λ p, p.1.1 = k) l))).

Definition reduced {K V V2} `{EqDecision K, EqDecision V, Ord V}
    (logic : K → list (V * Z) → list (V2 * Z)) (l : wlist (K * V)) : wlist (K * V2) :=
  k ← remove_dups ((fst ∘ fst) <$> l);
  match group l k with
  | [] => []
  | g => (λ o, ((k, o.1), o.2)) <$> logic k g
  end.

Definition counted {K R} `{EqDecision K, EqDecision R, Diff R} (l : list (K * R)) : wlist (K * R) :=
  k ← remove_dups l.*1;
  if decide (accumulated l k = diff_zero) then [] else [((k, accumulated l k), 1%Z)].

(** Agreement of two runs: both panic, or both return lists that are related. *)
Definition run_rel {A B} (Q : A → B → Prop) (m : outcome A) (n : outcome B) : Prop :=
  match m, n with
  | Ret a, Ret b => Q a b
  | Panic _, Panic _ => True
  | _, _ => False
  end.

(** The output accumulates like [k], and mentions only records of [k]. *)
Definition accumulates {D} `{EqDecision D} (l k : wlist D) : Prop :=
  l ≡ k ∧ l.*1 ⊆ k.*1.

Definition distinct_of {D} `{EqDecision D} (l l' : wlist D) : Prop :=
  l'.*1 ⊆ l.*1 ∧
  ∀ x, ((0 < wt l x)%Z → wt l' x = 1%Z) ∧ (wt l x = 0%Z → wt l' x = 0%Z).

Fixpoint filterM_outcome {A} (f : A → outcome bool) (l : list A) : outcome (list A) :=
  match l with
  | [] => Ret []
  | x :: l' =>
      b ← f x;
      r ← filterM_outcome f l';
      Ret (match b with true => x :: r | false => r end)
  end.

Definition explodeM {D D' R'} `{Diff R'} (f : D → outcome (list (D' * R'))) (l : wlist D)
    : outcome (list (D' * R')) :=
  let! ls := mapM_outcome (λ p, let! r := f p.1 in
                                Ret ((λ q, (q.1, diff_mul q.2 p.2)) <$> r)) l in
  Ret (concat ls).

(** ** Collections and their operators *)

Class Differential := {
  Collection : Type → Type → Type;
  run : ∀ {D R}, Collection D R → outcome (list (D * R));
  c_map : ∀ {D D' R}, (D → outcome D') → Collection D R → Collection D' R;
  c_filter : ∀ {D R}, (D → outcome bool) → Collection D R → Collection D R;
  c_concatenate : ∀ {D R}, list (Collection D R) → Collection D R;
  c_negate : ∀ {D}, Collection D Z → Collection D Z;
  c_explode : ∀ {D D' R'} `{Diff R'},
    (D → outcome (list (D' * R'))) → Collection D Z → Collection D' R';
  c_distinct : ∀ {D} `{EqDecision D}, Collection D Z → Collection D Z;
  c_join_core : ∀ {K V1 V2 D} `{EqDecision K},
    (K → V1 → V2 → outcome (list D)) →
    Collection (K * V1) Z → Collection (K * V2) Z → Collection D Z;
  c_antijoin : ∀ {K V} `{EqDecision K},
    Collection (K * V) Z → Collection K Z → Collection (K * V) Z;
  c_reduce : ∀ {K V V2} `{EqDecision K, EqDecision V, Ord V},
    (K → list (V * Z) → outcome (list (V2 * Z))) → Collection (K * V) Z → Collection (K * V2) Z;
  c_count : ∀ {K R} `{EqDecision K, EqDecision R, Diff R}, Collection K R → Collection (K * R) Z;
  c_consolidate : ∀ {D} `{EqDecision D}, Collection D Z → Collection D Z;

  run_map : ∀ {D D' R} (f : D → outcome D') (c : Collection D R),
    run_rel (≡ₚ) (run (c_map f c))
      (let! l := run c in mapM_outcome (λ p, let! y := f p.1 in Ret (y, p.2)) l);
  run_filter : ∀ {D R} (f : D → outcome bool) (c : Collection D R),
    run_rel (≡ₚ) (run (c_filter f c)) (let! l := run c in filterM_outcome (λ p, f p.1) l);
  run_concatenate : ∀ {D R} (cs : list (Collection D R)),
    run_rel (≡ₚ) (run (c_concatenate cs)) (let! ls := mapM_outcome run cs in Ret (concat ls));
  run_negate : ∀ {D} (c : Collection D Z),
    run_rel (≡ₚ) (run (c_negate c)) (let! l := run c in Ret (wneg l));
  run_explode : ∀ {D D' R'} `{Diff R'} (f : D → outcome (list (D' * R'))) (c : Collection D Z),
    run_rel (≡ₚ) (run (c_explode f c)) (let! l := run c in explodeM f l);
  run_distinct : ∀ {D} `{EqDecision D} (c : Collection D Z),
    run_rel distinct_of (run c) (run (c_distinct c));
  run_join_core : ∀ {K V1 V2 D} `{EqDecision K, EqDecision D} f g
      (c1 : Collection (K * V1) Z) (c2 : Collection (K * V2) Z) l1 l2,
    run c1 = Ret l1 → run c2 = Ret l2 →
    (∀ k v1 v2, (k, v1) ∈ l1.*1 → (k, v2) ∈ l2.*1 → f k v1 v2 = Ret (g k v1 v2)) →
    ∃ l, run (c_join_core f c1 c2) = Ret l ∧ accumulates (D := D) l (wjoin g l1 l2);
  run_join_core_panic : ∀ {K V1 V2 D} `{EqDecision K} (f : K → V1 → V2 → outcome (list D))
      (c1 : Collection (K * V1) Z) (c2 : Collection (K * V2) Z),
    is_panic (run c1) || is_panic (run c2) = true → is_panic (run (c_join_core f c1 c2)) = true;
  run_antijoin : ∀ {K V} `{EqDecision K, EqDecision V} (c1 : Collection (K * V) Z) (c2 : Collection K Z),
    run_rel accumulates (run (c_antijoin c1 c2))
      (let! l1 := run c1 in let! l2 := run c2 in Ret (l1 ++ wneg (wsemijoin l1 l2)));
  run_reduce : ∀ {K V V2} `{EqDecision K, EqDecision V, TotalOrd V, EqDecision V2}
      logic g (c : Collection (K * V) Z) l,
    run c = Ret l →
    (∀ k vs, vs ≠ [] → (∀ v, v ∈ vs.*1 → (k, v) ∈ l.*1) → logic k vs = Ret (g k vs)) →
    ∃ l', run (c_reduce (V2 := V2) logic c) = Ret l' ∧ l' ≡ reduced g l ∧
      ∀ k v2, (k, v2) ∈ l'.*1 → ∃ vs, vs ≠ [] ∧ (∀ v, v ∈ vs.*1 → (k, v) ∈ l.*1) ∧ v2 ∈ (g k vs).*1;
  run_count : ∀ {K R} `{EqDecision K, EqDecision R, Diff R} (c : Collection K R) l,
    run c = Ret l →
    ∃ l', run (c_count c) = Ret l' ∧ l' ≡ counted l ∧ ∀ k r, (k, r) ∈ l'.*1 → k ∈ l.*1;
  run_consolidate : ∀ {D} `{EqDecision D} (c : Collection D Z),
    run_rel accumulates (run (c_consolidate c)) (run c)
}.

(** ** Traces *)

Class Traces `{Differential} (T : Type) := {
  Trace : Type → Type → Type;
  Button : Type;
  arrange_named : ∀ {K V}, string → Collection (K * V) Z → Trace K V;
  import_frontier : ∀ {K V}, Trace K V → string → Collection (K * V) Z * Button;
  advance_by : ∀ {K V}, Trace K V → list T → Trace K V;
  distinguish_since : ∀ {K V}, Trace K V → list T → Trace K V;
  advance_frontier : ∀ {K V}, Trace K V → list T;
  import_arranged : ∀ {K V} `{EqDecision K, EqDecision V} name name' (c : Collection (K * V) Z),
    run_rel accumulates (run (import_frontier (arrange_named name c) name').1) (run c);
  import_renamed : ∀ {K V} `{EqDecision K, EqDecision V} (t : Trace K V) name name',
    run_rel accumulates (run (import_frontier t name).1) (run (import_frontier t name').1);
  import_advanced : ∀ {K V} `{EqDecision K, EqDecision V} (t : Trace K V) f name,
    run_rel accumulates (run (import_frontier (advance_by t f) name).1)
      (run (import_frontier t name).1);
  import_distinguished : ∀ {K V} `{EqDecision K, EqDecision V} (t : Trace K V) f name,
    run_rel accumulates (run (import_frontier (distinguish_since t f) name).1)
      (run (import_frontier t name).1);
  advance_frontier_advanced : ∀ {K V} (t : Trace K V) f,
    advance_frontier (advance_by t f) = f;
  advance_frontier_distinguished : ∀ {K V} (t : Trace K V) f,
    advance_frontier (distinguish_since t f) = advance_frontier t
}.
Arguments Button {_ T _}.
Arguments Trace {_ T _} K V.

(** ** Consequences for closures that return *)
Section consequences.
Context `{DF : Differential}.

Lemma run_rel_Ret_r {A B} (Q : A → B → Prop) m b :
  run_rel Q m (Ret b) → ∃ a, m = Ret a ∧ Q a b.
Proof. destruct m; simpl; [eauto|done]. Qed.

Lemma run_rel_panic {A B} (Q : A → B → Prop) m n :
  run_rel Q m n → is_panic m = is_panic n.
Proof. by destruct m, n. Qed.

Lemma mapM_records {D D' R} (f : D → outcome D') (g : D → D') (l : list (D * R)) :
  (∀ x, x ∈ l.*1 → f x = Ret (g x)) →
  mapM_outcome (λ p, let! y := f p.1 in Ret (y, p.2)) l = Ret ((λ p, (g p.1, p.2)) <$> l).
Proof.
  intros Hf. apply mapM_outcome_pure. intros [x r] Hx. simpl. rewrite Hf; [done|].
  apply list_elem_of_fmap. by exists (x, r).
Qed.

Lemma run_map_pure {D D' R} (f : D → outcome D') (g : D → D') (c : Collection D R) l :
  run c = Ret l → (∀ x, x ∈ l.*1 → f x = Ret (g x)) →
  ∃ l', run (c_map f c) = Ret l' ∧ l' ≡ₚ (λ p, (g p.1, p.2)) <$> l.
Proof.
  intros Hc Hf. pose proof (run_map f c) as Hrun. rewrite Hc in Hrun. simpl in Hrun.
  rewrite (mapM_records f g l Hf) in Hrun. by apply run_rel_Ret_r in Hrun.
Qed.

Lemma filterM_pure {A} (f : A → outcome bool) (g : A → bool) l :
  (∀ x, x ∈ l → f x = Ret (g x)) →
  filterM_outcome f l = Ret (filter (λ x, g x = true) l).
Proof.
  induction l as [|x l IH]; intros Hf; [done|]. cbn [filterM_outcome].
  rewrite Hf by set_solver. rewrite filter_cons. simpl. rewrite IH by set_solver. simpl.
  destruct (g x); [by rewrite decide_True|by rewrite decide_False].
Qed.

Lemma run_filter_pure {D R} (f : D → outcome bool) (g : D → bool) (c : Collection D R) l :
  run c = Ret l → (∀ x, x ∈ l.*1 → f x = Ret (g x)) →
  ∃ l', run (c_filter f c) = Ret l' ∧ l' ≡ₚ filter (λ p, g p.1 = true) l.
Proof.
  intros Hc Hf. pose proof (run_filter f c) as Hrun. rewrite Hc in Hrun. simpl in Hrun.
  rewrite (filterM_pure _ (λ p, g p.1)) in Hrun; [by apply run_rel_Ret_r in Hrun|].
  intros [x r] Hx. apply Hf. apply list_elem_of_fmap. by exists (x, r).
Qed.

Lemma run_concatenate_Ret {D R} (cs : list (Collection D R)) ls :
  mapM_outcome run cs = Ret ls →
  ∃ l', run (c_concatenate cs) = Ret l' ∧ l' ≡ₚ concat ls.
Proof.
  intros Hcs. pose proof (run_concatenate cs) as Hrun. rewrite Hcs in Hrun.
  by apply run_rel_Ret_r in Hrun.
Qed.

Lemma run_distinct_Ret {D} `{EqDecision D} (c : Collection D Z) l :
  run c = Ret l → ∃ l', run (c_distinct c) = Ret l' ∧ distinct_of l l'.
Proof.
  intros Hc. pose proof (run_distinct c) as Hrun. rewrite Hc in Hrun.
  destruct (run (c_distinct c)); simpl in Hrun; [eauto|done].
Qed.
End consequences.

(** ** A model of the interface

    Collections as the (panicking) lists of their updates, operators computed
    eagerly.  It shows that the laws can hold together and lets the definitions
    of the development be evaluated on concrete inputs. *)

Lemma wsum_indicator_NoDup {D} `{EqDecision D} (xs : list D) x :
  NoDup xs →
  wsum (indicator x) ((λ y, (y, 1%Z)) <$> xs) = if decide (x ∈ xs) then 1%Z else 0%Z.
Proof.
  induction 1 as [|y xs Hy Hnd IH]; [by rewrite decide_False by set_solver|].
  csimpl. rewrite wsum_cons, IH. unfold indicator. simpl.
  destruct (decide (y = x)) as [->|Hne].
  - rewrite (decide_False (P := x ∈ xs)) by done. by rewrite decide_True by set_solver.
  - destruct (decide (x ∈ xs)); [rewrite decide_True by set_solver|rewrite decide_False by set_solver]; done.
Qed.

Lemma wt_indicator_NoDup {D} `{EqDecision D} (xs : list D) x :
  NoDup xs → wt ((λ y, (y, 1%Z)) <$> xs) x = if decide (x ∈ xs) then 1%Z else 0%Z.
Proof. intros Hnd. unfold wt. rewrite wsum_indicator_NoDup by done. by case_decide. Qed.

Definition distinct_list {D} `{EqDecision D} (l : wlist D) : wlist D :=
  (λ x, (x, 1%Z)) <$> filter (λ x, (0 < wt l x)%Z) (remove_dups l.*1).

Lemma distinct_list_spec {D} `{EqDecision D} (l : wlist D) : distinct_of l (distinct_list l).
Proof.
  unfold distinct_list. split.
  - intros x. rewrite <- list_fmap_compose. intros (y & -> & Hy)%list_elem_of_fmap. simpl.
    apply list_elem_of_filter in Hy as [_ Hy]. by rewrite elem_of_remove_dups in Hy.
  - intros x. rewrite wt_indicator_NoDup by apply NoDup_filter, NoDup_remove_dups.
    split; intros Hx.
    + rewrite decide_True; [done|]. rewrite list_elem_of_filter, elem_of_remove_dups.
      split; [done|]. apply wt_elem. lia.
    + rewrite decide_False; [done|]. rewrite list_elem_of_filter. lia.
Qed.

Definition join_listM {K V1 V2 D} `{EqDecision K} (f : K → V1 → V2 → outcome (list D))
    (l1 : wlist (K * V1)) (l2 : wlist (K * V2)) : outcome (wlist D) :=
  let! ls := mapM_outcome (λ p,
      let! ms := mapM_outcome (λ q : (K * V2) * Z,
        if decide (p.1.1 = q.1.1) then
          let! ds := f p.1.1 p.1.2 q.1.2 in Ret ((λ d, (d, (p.2 * q.2)%Z)) <$> ds)
        else Ret []) l2 in
      Ret (concat ms)) l1 in
  Ret (concat ls).

Lemma concat_fmap_bind {A B} (f : A → list B) l : concat (f <$> l) = l ≫= f.
Proof. induction l as [|a l IH]; [done|]. csimpl. by rewrite IH. Qed.

Lemma join_listM_pure {K V1 V2 D} `{EqDecision K} (f : K → V1 → V2 → outcome (list D)) g l1 l2 :
  (∀ k v1 v2, (k, v1) ∈ l1.*1 → (k, v2) ∈ l2.*1 → f k v1 v2 = Ret (g k v1 v2)) →
  join_listM f l1 l2 = Ret (wjoin g l1 l2).
Proof.
  intros Hf. unfold join_listM, wjoin. rewrite <- concat_fmap_bind.
  erewrite mapM_outcome_pure; [done|]. intros [[k v1] w1] Hp. simpl.
  rewrite <- concat_fmap_bind. erewrite mapM_outcome_pure; [done|].
  intros [[k2 v2] w2] Hq. simpl. case_decide as Hk; [|done]. subst k2.
  rewrite (Hf k v1 v2); [done| |].
  - apply list_elem_of_fmap. by exists ((k, v1), w1).
  - apply list_elem_of_fmap. by exists ((k, v2), w2).
Qed.

Definition reduce_listM {K V V2} `{EqDecision K, EqDecision V, Ord V}
    (logic : K → list (V * Z) → outcome (list (V2 * Z))) (l : wlist (K * V))
    : outcome (wlist (K * V2)) :=
  let! ls := mapM_outcome (λ k,
      match group l k with
      | [] => Ret []
      | g => let! os := logic k g in Ret ((λ o : V2 * Z, ((k, o.1), o.2)) <$> os)
      end) (remove_dups ((fst ∘ fst) <$> l)) in
  Ret (concat ls).

Lemma group_records {K V} `{EqDecision K, EqDecision V, Ord V} (l : wlist (K * V)) k v :
  v ∈ (group l k).*1 → (k, v) ∈ l.*1.
Proof.
  unfold group. rewrite <- list_fmap_compose.
  intros (v' & -> & Hv)%list_elem_of_fmap. simpl.
  apply list_elem_of_filter in Hv as [Hw _]. by apply wt_elem.
Qed.

Lemma reduce_listM_pure {K V V2} `{EqDecision K, EqDecision V, Ord V}
    (logic : K → list (V * Z) → outcome (list (V2 * Z))) g l :
  (∀ k vs, vs ≠ [] → (∀ v, v ∈ vs.*1 → (k, v) ∈ l.*1) → logic k vs = Ret (g k vs)) →
  reduce_listM logic l = Ret (reduced g l).
Proof.
  intros Hg. unfold reduce_listM, reduced. rewrite <- concat_fmap_bind.
  rewrite (mapM_outcome_pure _ (λ k, match group l k with
    | [] => [] | gr => (λ o : V2 * Z, ((k, o.1), o.2)) <$> g k gr end)); [done|]. intros k _.
  pose proof (λ v, group_records l k v) as Hrec.
  destruct (group l k) as [|p ps] eqn:E; [done|].
  by rewrite (Hg k (p :: ps) ltac:(done) Hrec).
Qed.

Lemma reduced_records {K V V2} `{EqDecision K, EqDecision V, Ord V}
    (g : K → list (V * Z) → list (V2 * Z)) (l : wlist (K * V)) k v2 :
  (k, v2) ∈ (reduced g l).*1 →
  ∃ vs, vs ≠ [] ∧ (∀ v, v ∈ vs.*1 → (k, v) ∈ l.*1) ∧ v2 ∈ (g k vs).*1.
Proof.
  intros ([[k' v'] w] & [= -> ->] & Hin)%list_elem_of_fmap.
  unfold reduced in Hin. apply list_elem_of_bind in Hin as (k0 & Hin & _).
  pose proof (group_records l k0) as Hrec.
  destruct (group l k0) as [|p ps] eqn:Hg; [by apply not_elem_of_nil in Hin|].
  apply list_elem_of_fmap in Hin as ([v0 w0] & [= -> -> ->] & Hin).
  exists (p :: ps). split; [done|]. split; [by intros; apply Hrec|].
  apply list_elem_of_fmap. by exists (v0, w0).
Qed.

Lemma counted_records {K R} `{EqDecision K, EqDecision R, Diff R} (l : list (K * R)) k r :
  (k, r) ∈ (counted l).*1 → k ∈ l.*1.
Proof.
  intros ([[k' r'] w] & [= -> ->] & Hin)%list_elem_of_fmap.
  unfold counted in Hin. apply list_elem_of_bind in Hin as (k0 & Hin & Hk0).
  case_decide; [by apply not_elem_of_nil in Hin|].
  apply list_elem_of_singleton in Hin as [= -> -> ->]. by rewrite elem_of_remove_dups in Hk0.
Qed.

Definition run_id {D R} (c : outcome (list (D * R))) : outcome (list (D * R)) := c.

Lemma run_rel_refl {A} (Q : A → A → Prop) (m : outcome A) : (∀ a, Q a a) → run_rel Q m m.
Proof. by destruct m; simpl. Qed.

Lemma accumulates_refl {D} `{EqDecision D} (l : wlist D) : accumulates l l.
Proof. split; [done|set_solver]. Qed.

Program Definition diff_model : Differential := {|
  Collection D R := outcome (list (D * R));
  run := @run_id;
  c_map D D' R f c := let! l := c in mapM_outcome (λ p, let! y := f p.1 in Ret (y, p.2)) l;
  c_filter D R f c := let! l := c in filterM_outcome (λ p, f p.1) l;
  c_concatenate D R cs := let! ls := mapM_outcome run_id cs in Ret (concat ls);
  c_negate D c := let! l := c in Ret (wneg l);
  c_explode D D' R' _ f c := let! l := c in explodeM f l;
  c_distinct D _ c := let! l := c in Ret (distinct_list l);
  c_join_core K V1 V2 D _ f c1 c2 := let! l1 := c1 in let! l2 := c2 in join_listM f l1 l2;
  c_antijoin K V _ c1 c2 :=
    let! l1 := c1 in let! l2 := c2 in Ret (l1 ++ wneg (wsemijoin l1 l2));
  c_reduce K V V2 _ _ _ logic c := let! l := c in reduce_listM logic l;
  c_count K R _ _ _ c := let! l := c in Ret (counted l);
  c_consolidate D _ c := c
|}.
Next Obligation. intros. by apply run_rel_refl. Qed.
Next Obligation. intros. by apply run_rel_refl. Qed.
Next Obligation. intros. by apply run_rel_refl. Qed.
Next Obligation. intros. by apply run_rel_refl. Qed.
Next Obligation. intros. by apply run_rel_refl. Qed.
Next Obligation. intros. destruct c; simpl; [apply distinct_list_spec|done]. Qed.
Next Obligation.
  unfold run_id. simpl. intros K V1 V2 D ? ? f g c1 c2 l1 l2 Hc1 Hc2 Hf. subst. simpl.
  rewrite (join_listM_pure _ g) by done. eauto using accumulates_refl.
Qed.
Next Obligation. intros. destruct c1, c2; done. Qed.
Next Obligation. intros. by apply run_rel_refl, accumulates_refl. Qed.
Next Obligation.
  unfold run_id. simpl. intros K V V2 ? ? ? ? ? logic g c l Hc Hg. subst. simpl.
  rewrite (reduce_listM_pure _ g) by done. eexists. split; [done|]. split; [done|].
  apply reduced_records.
Qed.
Next Obligation.
  unfold run_id. simpl. intros K R ? ? ? c l Hc. subst. simpl. eexists. split; [done|].
  split; [done|]. apply counted_records.
Qed.
Next Obligation. intros. by apply run_rel_refl, accumulates_refl. Qed.

(** Traces as a collection with the frontier they were advanced to; a button is
    the name of the imported trace. *)
Program Definition trace_model (T : Type) : @Traces diff_model T := {|
  Trace K V := (outcome (list ((K * V) * Z)) * list T)%type;
  Button := string;
  arrange_named K V name c := (c, []);
  import_frontier K V t name := (t.1, name);
  advance_by K V t f := (t.1, f);
  distinguish_since K V t f := t;
  advance_frontier K V t := t.2
|}.
Next Obligation. intros. apply run_rel_refl. intros. apply accumulates_refl. Qed.
Next Obligation. intros. apply run_rel_refl. intros. apply accumulates_refl. Qed.
Next Obligation. intros. apply run_rel_refl. intros. apply accumulates_refl. Qed.
Next Obligation. intros. apply run_rel_refl. intros. apply accumulates_refl. Qed.
Next Obligation. done. Qed.
Next Obligation. done. Qed.
