(* ===== verification/Domains.v ===== *)
(** * Domains (src/src/domain/mod.rs)

    A domain manages attributes under one timestamp semantics: the sessions of
    its transactable attributes, the traces indexing every attribute, the rules
    and shutdown handles.  Hash maps are finite maps; a probe handle is the
    frontier it reports; methods that take [&mut self] and return
    [Result<(), Error>] become functions to [outcome (Domain * Result)]. *)
From Stdlib Require Import ZArith NArith Lia.
From stdpp Require Import base strings numbers list gmap sets.
From S2P Require Import Prelude Timestamps Values Sessions Weighted Dataflow.

Section domain.
Context `{EV : ExternValues, DF : Differential}.
Context {T : Type} `{EqDecision T, PO : PartialOrderT T, LT : LatticeT T, TM : !Timely T}.
Context `{OT : Ord T, RW : Rewind T, DT : DefaultT T, TR : !Traces T}.
Context {Rule : Type}.

Record Domain := mkDomain {
  namespace : string;
  now_at : T;
  last_advance : list T;
  input_sessions : gmap Aid (UnorderedSession T (Value * Value) Z);
  domain_probe : list T;
  probed_source_count : N;
  attributes : gmap Aid AttributeConfig;
  forward_count : gmap Aid (Trace Value unit);
  forward_propose : gmap Aid (Trace Value Value);
  forward_validate : gmap Aid (Trace (Value * Value) unit);
  reverse_count : gmap Aid (Trace Value unit);
  reverse_propose : gmap Aid (Trace Value Value);
  reverse_validate : gmap Aid (Trace (Value * Value) unit);
  rules : gmap Aid Rule;
  shutdown_handles : gmap string (ShutdownHandle (Button (T := T)))
}.

(** *** Field updates *)
Definition set_sessions (self : Domain) s : Domain :=
  mkDomain (namespace self) (now_at self) (last_advance self) s (domain_probe self)
    (probed_source_count self) (attributes self) (forward_count self) (forward_propose self)
    (forward_validate self) (reverse_count self) (reverse_propose self)
    (reverse_validate self) (rules self) (shutdown_handles self).
Definition set_now_at (self : Domain) t : Domain :=
  mkDomain (namespace self) t (last_advance self) (input_sessions self) (domain_probe self)
    (probed_source_count self) (attributes self) (forward_count self) (forward_propose self)
    (forward_validate self) (reverse_count self) (reverse_propose self)
    (reverse_validate self) (rules self) (shutdown_handles self).
Definition set_rules (self : Domain) r : Domain :=
  mkDomain (namespace self) (now_at self) (last_advance self) (input_sessions self)
    (domain_probe self) (probed_source_count self) (attributes self) (forward_count self)
    (forward_propose self) (forward_validate self) (reverse_count self) (reverse_propose self)
    (reverse_validate self) r (shutdown_handles self).
Definition set_shutdown_handles (self : Domain) h : Domain :=
  mkDomain (namespace self) (now_at self) (last_advance self) (input_sessions self)
    (domain_probe self) (probed_source_count self) (attributes self) (forward_count self)
    (forward_propose self) (forward_validate self) (reverse_count self) (reverse_propose self)
    (reverse_validate self) (rules self) h.
(** Progress of the sources, as the probe reports it. *)
Definition set_probe (self : Domain) f : Domain :=
  mkDomain (namespace self) (now_at self) (last_advance self) (input_sessions self)
    f (probed_source_count self) (attributes self) (forward_count self)
    (forward_propose self) (forward_validate self) (reverse_count self) (reverse_propose self)
    (reverse_validate self) (rules self) (shutdown_handles self).

(** ** Construction and composition *)

Definition Domain_new (start_at : T) : Domain :=
  mkDomain "" start_at [minimum] ∅ [] 0 ∅ ∅ ∅ ∅ ∅ ∅ ∅ ∅ ∅.

Definition Domain_new_from (ns : string) (base : Domain) : Domain :=
  mkDomain ns (now_at base) (last_advance base) ∅ [] 0 ∅ ∅ ∅ ∅ ∅ ∅ ∅ ∅ ∅.

(** [HashMap::extend]: the new entries replace old ones. *)
Definition extend {V} (m other : gmap Aid V) : gmap Aid V := other ∪ m.

Definition Domain_add_assign (self other : Domain) : outcome Domain :=
  let! _ := assert_that "Only domains within a namespace can be composed."
              (bool_decide (namespace self = namespace other)) in
  let! _ := assert_that "Domain attributes clash."
              (negb (existsb (λ k, bool_decide (is_Some (attributes other !! k)))
                       (map_to_list (attributes self)).*1)) in
  let! _ := assert_that
              "Domain composition not supported for two domains with external sources."
              ((probed_source_count other =? 0)%N || (probed_source_count self =? 0)%N) in
  Ret (mkDomain
    (namespace self)
    (meet (now_at self) (now_at other))
    (last_advance self)
    (extend (input_sessions self) (input_sessions other))
    (if (probed_source_count self =? 0)%N then domain_probe other else domain_probe self)
    (if (probed_source_count self =? 0)%N then probed_source_count other
     else probed_source_count self)
    (extend (attributes self) (attributes other))
    (extend (forward_count self) (forward_count other))
    (extend (forward_propose self) (forward_propose other))
    (extend (forward_validate self) (forward_validate other))
    (extend (reverse_count self) (reverse_count other))
    (extend (reverse_propose self) (reverse_propose other))
    (extend (reverse_validate self) (reverse_validate other))
    (extend (rules self) (rules other))
    (extend (shutdown_handles self) (shutdown_handles other))).

Definition Domain_add (self other : Domain) : outcome Domain :=
  let merged := self in
  let! merged := Domain_add_assign merged other in
  Ret merged.

(** ** Transactions *)

Definition transact_error (a : Aid) : Error :=
  Error_not_found ("Attribute " +:+ a +:+ " does not exist.").

Fixpoint Domain_transact (self : Domain) (tx_data : list Datom)
    : outcome (Domain * Result unit Error) :=
  match tx_data with
  | [] => Ret (self, Ok tt)
  | d :: tx_data' =>
      match input_sessions self !! d_a d with
      | None => Ret (self, Err (transact_error (d_a d)))
      | Some handle =>
          let! handle' :=
            match d_t d with
            | None => Ret (session_update handle (d_e d, d_v d) (d_diff d))
            | Some t =>
                let! t' := from_time t in
                session_update_at handle (d_e d, d_v d) t' (d_diff d)
            end in
          Domain_transact (set_sessions self (<[d_a d := handle']> (input_sessions self))) tx_data'
      end
  end.

(** [close_input]; the last component is what timely received from the closed
    session over its life. *)
Definition Domain_close_input (self : Domain) (name : Aid)
    : outcome (Domain * Result unit Error * list (T * ((Value * Value) * T * Z))) :=
  match input_sessions self !! name with
  | None => Ret (self, Err (Error_not_found ("Input " +:+ name +:+ " does not exist.")), [])
  | Some handle =>
      let! sent := session_close handle in
      Ret (set_sessions self (delete name (input_sessions self)), Ok tt, sent)
  end.

(** ** Time *)

Definition Domain_epoch (self : Domain) : T := now_at self.

(** The message also shows the two times. *)
Definition rewind_error : Error :=
  Error_conflict "Domain is at ..., you attempted to rewind to ...".

Definition Domain_advance_epoch (self : Domain) (next : T)
    : outcome (Domain * Result unit Error) :=
  if negb (less_equal (now_at self) next) then Ret (self, Err rewind_error)
  else if negb (bool_decide (now_at self = next)) then
    let! sessions := map_traverse (λ _ handle,
        let! handle := session_advance_to handle next in
        session_flush handle) (input_sessions self) in
    Ret (set_now_at (set_sessions self sessions) next, Ok tt)
  else Ret (self, Ok tt).

(** The frontier an attribute's traces are advanced to, if it has a slack. *)
Definition slacking_frontier (frontier : list T) (config : AttributeConfig)
    : outcome (option (list T)) :=
  match trace_slack config with
  | None => Ret None
  | Some slack =>
      let! f := mapM_outcome (λ t, let! s := from_time slack in Ret (rewind t s)) frontier in
      Ret (Some f)
  end.

Definition advance_trace {K V} (slacks : gmap Aid (option (list T))) (aid : Aid)
    (trace : Trace K V) : option (Trace K V) :=
  match slacks !! aid with
  | Some (Some f) => Some (distinguish_since (advance_by trace f) f)
  | _ => Some trace
  end.

Definition Domain_advance_traces (self : Domain) (frontier : list T)
    : outcome (Domain * Result unit Error) :=
  if existsb (λ t, antichain_less_than (last_advance self) t) frontier then
    let! slacks := map_traverse (λ _ config, slacking_frontier frontier config)
                     (attributes self) in
    Ret (mkDomain (namespace self) (now_at self) frontier (input_sessions self)
           (domain_probe self) (probed_source_count self) (attributes self)
           (map_imap (advance_trace slacks) (forward_count self))
           (map_imap (advance_trace slacks) (forward_propose self))
           (map_imap (advance_trace slacks) (forward_validate self))
           (map_imap (advance_trace slacks) (reverse_count self))
           (map_imap (advance_trace slacks) (reverse_propose self))
           (map_imap (advance_trace slacks) (reverse_validate self))
           (rules self) (shutdown_handles self), Ok tt)
  else Ret (self, Ok tt).

(** [Iterator::max]: the last of the greatest elements. *)
Definition iter_max (l : list T) : option T :=
  match l with
  | [] => None
  | x :: l' => Some (foldl (λ m y, if cmp_le m y then y else m) x l')
  end.

Definition Domain_advance (self : Domain) : outcome (Domain * Result unit Error) :=
  if (probed_source_count self =? 0)%N then
    Domain_advance_traces self [Domain_epoch self]
  else
    match domain_probe self with
    | [] => Domain_advance_traces self [Domain_epoch self]
    | frontier =>
        let! '(self', r) :=
          if negb (antichain_less_equal frontier (Domain_epoch self)) then
            let! m := expect "called `Option::unwrap()` on a `None` value" (iter_max frontier) in
            Domain_advance_epoch self m
          else Ret (self, Ok tt) in
        match r with
        | Err e => Ret (self', Err e)
        | Ok _ => Domain_advance_traces self' frontier
        end
    end.

Definition Domain_dominates (self : Domain) (frontier : list T) : bool :=
  if (probed_source_count self =? 0)%N then antichain_less_than frontier (Domain_epoch self)
  else match frontier with
       | [] => false
       | _ => forallb (λ t, antichain_less_than frontier t) (domain_probe self)
       end.

(** ** Lookups *)
Definition Domain_rule (self : Domain) (name : Aid) : option Rule := rules self !! name.
Definition Domain_has_attribute (self : Domain) (name : Aid) : bool :=
  bool_decide (is_Some (attributes self !! name)).
Definition Domain_forward_count (self : Domain) (name : Aid) := forward_count self !! name.
Definition Domain_forward_propose (self : Domain) (name : Aid) := forward_propose self !! name.
Definition Domain_forward_validate (self : Domain) (name : Aid) := forward_validate self !! name.
Definition Domain_reverse_count (self : Domain) (name : Aid) := reverse_count self !! name.
Definition Domain_reverse_propose (self : Domain) (name : Aid) := reverse_propose self !! name.
Definition Domain_reverse_validate (self : Domain) (name : Aid) := reverse_validate self !! name.

(** ** [ScopedDomain] *)

Record ScopedDomain := mkScoped {
  raw : gmap Aid (Collection (Value * Value) Z);
  domain : Domain
}.

Definition Scoped_add_assign (self other : ScopedDomain) : outcome ScopedDomain :=
  let raw' := extend (raw self) (raw other) in
  let! d := Domain_add_assign (domain self) (domain other) in
  Ret (mkScoped raw' d).
Definition Scoped_add (self other : ScopedDomain) : outcome ScopedDomain :=
  let merged := self in
  let! merged := Scoped_add_assign merged other in
  Ret merged.

(** [self.raw[aid]] for every key of [keys], mapped and arranged under the
    given name. *)
Definition install_index {X K V} (self : ScopedDomain) (keys : gmap Aid X)
    (f : Value * Value → K * V) (prefix : string) : outcome (gmap Aid (Trace K V)) :=
  map_traverse (λ aid _,
    let! c := expect "no entry found for key" (raw self !! aid) in
    Ret (arrange_named (prefix +:+ "(" +:+ aid +:+ ")") (c_map (λ x, Ret (f x)) c))) keys.

Definition Scoped_with_query_support (self : ScopedDomain) (qs : QuerySupport)
    : outcome ScopedDomain :=
  let d := domain self in
  let! counts := if bool_decide (qs = AdaptiveWCO)
                 then install_index self (forward_propose d) (λ kv, (kv.1, tt)) "->Count"
                 else Ret ∅ in
  let! validates := if cmp_le Delta qs
                    then install_index self (forward_propose d) (λ t, (t, tt)) "->Validate"
                    else Ret ∅ in
  Ret (mkScoped (raw self)
    (mkDomain (namespace d) (now_at d) (last_advance d) (input_sessions d) (domain_probe d)
       (probed_source_count d) (attributes d)
       (extend (forward_count d) counts) (forward_propose d)
       (extend (forward_validate d) validates)
       (reverse_count d) (reverse_propose d) (reverse_validate d) (rules d)
       (shutdown_handles d))).

Definition Scoped_with_reverse_indices (self : ScopedDomain) : outcome ScopedDomain :=
  let d := domain self in
  let! counts := install_index self (forward_count d) (λ ev, (ev.2, tt)) "->_Count" in
  let! proposes := install_index self (forward_propose d) (λ ev, (ev.2, ev.1)) "->_Propose" in
  let! validates := install_index self (forward_validate d) (λ pair, (pair, tt)) "->_Validate" in
  Ret (mkScoped (raw self)
    (mkDomain (namespace d) (now_at d) (last_advance d) (input_sessions d) (domain_probe d)
       (probed_source_count d) (attributes d)
       (forward_count d) (forward_propose d) (forward_validate d)
       (extend (reverse_count d) counts) (extend (reverse_propose d) proposes)
       (extend (reverse_validate d) validates) (rules d)
       (shutdown_handles d))).

Definition Scoped_with_slack (into_time : T → Time) (self : ScopedDomain) (slack : T)
    : ScopedDomain :=
  let d := domain self in
  mkScoped (raw self)
    (mkDomain (namespace d) (now_at d) (last_advance d) (input_sessions d) (domain_probe d)
       (probed_source_count d)
       ((λ config, mkAttributeConfig (input_semantics config) (Some (into_time slack))
                     (index_direction config) (query_support config)) <$> attributes d)
       (forward_count d) (forward_propose d) (forward_validate d)
       (reverse_count d) (reverse_propose d) (reverse_validate d) (rules d)
       (shutdown_handles d)).

Definition Scoped_into (self : ScopedDomain) : Domain := domain self.

(** ** [AsSingletonDomain] *)

(** The common part: a domain with one attribute and its propose index. *)
Definition singleton_domain (name : Aid) (pairs : Collection (Value * Value) Z)
    (sessions : gmap Aid (UnorderedSession T (Value * Value) Z)) (probe : list T) (sources : N)
    : ScopedDomain :=
  mkScoped {[ name := pairs ]}
    (mkDomain "" default_time [minimum] sessions probe sources
       {[ name := AttributeConfig_default ]} ∅
       {[ name := arrange_named ("->Propose(" +:+ name +:+ ")") pairs ]} ∅ ∅ ∅ ∅ ∅ ∅).

(** For [Stream<S, ((Value, Value), isize)>]: a timeless external source. *)
Definition stream_as_singleton_domain (self : Collection (Value * Value) Z) (name : Aid)
    : ScopedDomain :=
  singleton_domain name self ∅ [] 0.

(** For [Collection<S, (Value, Value), isize>]: a probed external source, with
    the frontier its probe reports. *)
Definition collection_as_singleton_domain (self : Collection (Value * Value) Z)
    (frontier : list T) (name : Aid) : ScopedDomain :=
  singleton_domain name self ∅ frontier 1.

(** For a handle, its capability and the collection it feeds. *)
Definition handle_as_singleton_domain (handle : list (T * ((Value * Value) * T * Z))) (cap : T)
    (pairs : Collection (Value * Value) Z) (name : Aid) : ScopedDomain :=
  singleton_domain name pairs {[ name := session_from handle cap ]} [] 0.
End domain.
Arguments Domain {_ _} T {_} Rule.
Arguments ScopedDomain {_ _} T {_} Rule.

(** ** Invariants

    [Domain_indexed]: every session and every index belongs to an attribute
    with a configuration (otherwise advancing the domain would skip its traces).
    [Sessions_ok]: every session is well formed and not ahead of the epoch. *)
Section invariants.
Context `{EV : ExternValues, DF : Differential}.
Context {T : Type} `{EqDecision T, PO : PartialOrderT T, LT : LatticeT T, TM : !Timely T}.
Context `{OT : Ord T, RW : Rewind T, DT : DefaultT T, TR : !Traces T}.
Context {Rule : Type}.
Implicit Types d : Domain T Rule.

Record Domain_indexed d : Prop := {
  idx_sessions : dom (input_sessions d) ⊆ dom (attributes d);
  idx_forward_count : dom (forward_count d) ⊆ dom (attributes d);
  idx_forward_propose : dom (forward_propose d) ⊆ dom (attributes d);
  idx_forward_validate : dom (forward_validate d) ⊆ dom (attributes d);
  idx_reverse_count : dom (reverse_count d) ⊆ dom (attributes d);
  idx_reverse_propose : dom (reverse_propose d) ⊆ dom (attributes d);
  idx_reverse_validate : dom (reverse_validate d) ⊆ dom (attributes d)
}.

Definition Sessions_ok d : Prop :=
  ∀ a s, input_sessions d !! a = Some s →
    Session_wf s ∧ less_equal (s_time s) (now_at d) = true.

(** The operations on an existing domain, as one step relation.  The rules and
    shutdown handles are changed by the server, the probe by the sources. *)
Inductive domain_step : Domain T Rule → Domain T Rule → Prop :=
| step_transact d tx d' r : Domain_transact d tx = Ret (d', r) → domain_step d d'
| step_close_input d name d' r sent :
    Domain_close_input d name = Ret (d', r, sent) → domain_step d d'
| step_advance d d' r : Domain_advance d = Ret (d', r) → domain_step d d'
| step_advance_epoch d t d' r : Domain_advance_epoch d t = Ret (d', r) → domain_step d d'
| step_advance_traces d f d' r : Domain_advance_traces d f = Ret (d', r) → domain_step d d'
| step_probe d f : domain_step d (set_probe d f)
| step_rules d r : domain_step d (set_rules d r)
| step_shutdown d h : domain_step d (set_shutdown_handles d h).

(** States reachable from a new domain by operations and by composition with
    indexed domains. *)
Inductive domain_reachable : Domain T Rule → Prop :=
| reach_new t : domain_reachable (Domain_new t)
| reach_new_from ns base : domain_reachable base → domain_reachable (Domain_new_from ns base)
| reach_step d d' : domain_reachable d → domain_step d d' → domain_reachable d'
| reach_compose d other d' :
    domain_reachable d → Domain_indexed other →
    Domain_add_assign d other = Ret d' → domain_reachable d'.

(** *** Lemmas on maps *)

Lemma map_traverse_lookup {V W} (f : Aid → V → outcome W) (m : gmap Aid V) m' :
  map_traverse f m = Ret m' →
  ∀ k, match m !! k, m' !! k with
       | Some v, Some w => f k v = Ret w
       | None, None => True
       | _, _ => False
       end.
Proof.
  unfold map_traverse. intros Hm. outcome_inv.
  match goal with E : mapM_outcome _ _ = Ret ?l |- _ => apply mapM_outcome_Ret in E; rename E into Hl end.
  assert (x.*1 = (map_to_list m).*1) as Hfst.
  { clear -Hl. induction Hl as [|[k v] [k' w] l l' Hkw Hl IH]; [done|].
    simpl in *. outcome_inv. by f_equal. }
  assert (NoDup x.*1) as Hnd by (rewrite Hfst; apply NoDup_fst_map_to_list).
  intros k. destruct (m !! k) as [v|] eqn:Hk.
  - apply elem_of_map_to_list, list_elem_of_lookup in Hk as [i Hi].
    destruct (Forall2_lookup_l _ _ _ _ _ Hl Hi) as ([k' w] & Hw & Hf). simpl in Hf. outcome_inv.
    erewrite elem_of_list_to_map_1; [eassumption|done|]. by eapply list_elem_of_lookup_2.
  - destruct (list_to_map x !! k) as [w|] eqn:Hw; [|done].
    apply elem_of_list_to_map_2 in Hw.
    assert (k ∈ x.*1) as Hin by (apply list_elem_of_fmap; by exists (k, w)).
    rewrite Hfst in Hin. apply list_elem_of_fmap in Hin as ([k' v] & -> & Hin).
    apply elem_of_map_to_list in Hin. simpl in Hk.
    exfalso. rewrite Hin in Hk. discriminate.
Qed.

Lemma map_traverse_dom {V W} (f : Aid → V → outcome W) (m : gmap Aid V) m' :
  map_traverse f m = Ret m' → dom m' = dom m.
Proof.
  intros Hm. apply set_eq. intros k. rewrite !elem_of_dom.
  pose proof (map_traverse_lookup f m m' Hm k) as Hk.
  destruct (m !! k), (m' !! k); try done.
Qed.

Lemma advance_trace_dom {K V} slacks (m : gmap Aid (Trace K V)) :
  dom (map_imap (advance_trace slacks) m) = dom m.
Proof.
  apply set_eq. intros k. rewrite !elem_of_dom, map_lookup_imap.
  destruct (m !! k); simpl; [|done].
  unfold advance_trace. destruct (slacks !! k) as [[f|]|]; split; eauto.
Qed.

Lemma dom_extend {V} (m o : gmap Aid V) : dom (extend m o) = dom m ∪ dom o.
Proof. unfold extend. rewrite dom_union_L. set_solver. Qed.

(** *** Attributes and indices under each operation *)

Lemma transact_frame d tx d' r :
  Domain_transact d tx = Ret (d', r) →
  d' = set_sessions d (input_sessions d') ∧ dom (input_sessions d') = dom (input_sessions d).
Proof.
  revert d; induction tx as [|x tx IH]; simpl; intros d Ht.
  - outcome_inv. by destruct d'.
  - destruct (input_sessions d !! d_a x) as [h|] eqn:Hh; outcome_inv; [|by destruct d'].
    match goal with H : Domain_transact _ _ = _ |- _ => apply IH in H as [Hd Hdom] end.
    simpl in *. split; [by rewrite Hd|]. rewrite Hdom, dom_insert_L.
    apply elem_of_dom_2 in Hh. set_solver.
Qed.

Lemma advance_traces_indexed d f d' r :
  Domain_indexed d → Domain_advance_traces d f = Ret (d', r) → Domain_indexed d'.
Proof.
  intros [] Ht. unfold Domain_advance_traces in Ht.
  destruct (existsb _ _); outcome_inv; [|done]. split; simpl; rewrite ?advance_trace_dom; done.
Qed.

Lemma advance_epoch_indexed d t d' r :
  Domain_indexed d → Domain_advance_epoch d t = Ret (d', r) → Domain_indexed d'.
Proof.
  intros [] Ht. unfold Domain_advance_epoch in Ht.
  destruct (negb (less_equal _ _)); [by outcome_inv|].
  destruct (negb (bool_decide _)); [|by outcome_inv]. outcome_inv.
  match goal with H : map_traverse _ _ = _ |- _ => apply map_traverse_dom in H end.
  split; simpl; try done. by match goal with H : dom _ = dom _ |- _ => rewrite H end.
Qed.

Lemma advance_cases d d' r :
  Domain_advance d = Ret (d', r) →
  (∃ f, Domain_advance_traces d f = Ret (d', r)) ∨
  (∃ t, Domain_advance_epoch d t = Ret (d', r)) ∨
  (∃ t d1 f, Domain_advance_epoch d t = Ret (d1, Ok tt) ∧
     Domain_advance_traces d1 f = Ret (d', r)).
Proof.
  unfold Domain_advance. destruct (probed_source_count d =? 0)%N; [eauto|].
  destruct (domain_probe d) as [|t f] eqn:Ef; [eauto|].
  intros Ht. outcome_inv. destruct x as [d1 r1].
  destruct (negb (antichain_less_equal _ _)); outcome_inv; [|eauto].
  destruct r1 as [[]|e]; outcome_inv; right; eauto 10.
Qed.

Lemma domain_step_indexed d d' : Domain_indexed d → domain_step d d' → Domain_indexed d'.
Proof.
  intros Hd Hs. destruct Hs as [d tx d' r Ht|d name d' r sent Ht|d d' r Ht|d t d' r Ht|d f d' r Ht|
    d f|d r|d h]; try (by destruct Hd).
  - apply transact_frame in Ht as [-> Hdom]. destruct Hd. simpl in Hdom.
    split; simpl; try done. by rewrite Hdom.
  - unfold Domain_close_input in Ht. destruct (input_sessions d !! name); outcome_inv; [|done].
    destruct Hd. split; simpl; try done. rewrite dom_delete_L. set_solver.
  - apply advance_cases in Ht as [[f Ht]|[[t Ht]|(t & d1 & f & Ht & Ht')]];
      eauto using advance_traces_indexed, advance_epoch_indexed.
  - eauto using advance_epoch_indexed.
  - eauto using advance_traces_indexed.
Qed.

Lemma add_assign_indexed d other d' :
  Domain_indexed d → Domain_indexed other → Domain_add_assign d other = Ret d' →
  Domain_indexed d'.
Proof.
  intros [] [] Ht. unfold Domain_add_assign in Ht. outcome_inv.
  split; simpl; rewrite !dom_extend; by apply union_mono.
Qed.
End invariants.

Section domain_theorems.
Context `{EV : ExternValues, DF : Differential}.
Context {T : Type} `{EqDecision T, PL : PartialOrderLaws T, LT : LatticeT T, TM : !Timely T}.
Context `{TO : TotalOrd T, RW : Rewind T, DT : DefaultT T, TR : !Traces T}.
Context {Rule : Type}.
Implicit Types d : Domain T Rule.

(** C32 (every index has a configuration).  In every state a domain reaches
    from its creation by transactions, closing inputs, advancing, progress of
    its sources, registrations and composition with indexed domains, every
    input session and every one of the six kinds of traces belongs to an
    attribute with a configuration, so that advancing the domain reaches it. *)
Theorem domain_index_invariant d : domain_reachable d → Domain_indexed d.
Proof.
  induction 1; eauto using domain_step_indexed, add_assign_indexed.
  - split; simpl; set_solver.
  - split; simpl; set_solver.
Qed.

(** *** Sessions under the operations *)

Lemma session_advance_flush (s : UnorderedSession T (Value * Value) Z) next :
  Session_wf s → less_equal (s_time s) next = true →
  (let! s := session_advance_to s next in session_flush s) =
  Ret (mkSession next next [] (s_capacity s)
         (give_iterator (s_handle s) (s_cap s) (s_buffer s))).
Proof.
  intros Hwf Hle. unfold session_advance_to, session_epoch. rewrite Hle. simpl.
  rewrite flush_Ret; [done|].
  eapply (session_step_wf s (OpAdvanceTo next)); [done|]. simpl.
  unfold session_advance_to, session_epoch. by rewrite Hle.
Qed.

Lemma advance_epoch_total d next :
  Sessions_ok d → less_equal (now_at d) next = true → now_at d ≠ next →
  Domain_advance_epoch d next =
  Ret (set_now_at (set_sessions d (map_imap (λ _ s, Some (mkSession next next [] (s_capacity s)
         (give_iterator (s_handle s) (s_cap s) (s_buffer s)))) (input_sessions d))) next, Ok tt).
Proof.
  intros Hok Hle Hne. unfold Domain_advance_epoch. rewrite Hle. simpl.
  rewrite bool_decide_false by done. simpl.
  erewrite map_traverse_pure; [done|]. intros a s Ha. destruct (Hok a s Ha) as [Hwf Ht].
  apply session_advance_flush; [done|]. by eapply less_equal_trans.
Qed.

Lemma advance_epoch_ok d t d' r :
  Sessions_ok d → Domain_advance_epoch d t = Ret (d', r) →
  Sessions_ok d' ∧ less_equal (now_at d) (now_at d') = true.
Proof.
  intros Hok Ht. destruct (less_equal (now_at d) t) eqn:Hle.
  - destruct (decide (now_at d = t)) as [Heq|Hne].
    + unfold Domain_advance_epoch in Ht. rewrite Hle, bool_decide_true in Ht by done.
      outcome_inv. eauto using less_equal_refl.
    + rewrite advance_epoch_total in Ht by done. outcome_inv. split; [|done].
      intros a s. simpl. rewrite map_lookup_imap. intros Ha.
      destruct (input_sessions d !! a) as [s0|] eqn:Hs0; simplify_eq/=.
      destruct (Hok a s0 Hs0) as [Hwf Ht].
      split; [|apply less_equal_refl].
      pose proof (session_advance_flush s0 t Hwf (less_equal_trans _ _ _ Ht Hle)) as Hs.
      apply (session_run_wf s0 [OpAdvanceTo t; OpFlush]); [done|]. simpl.
      destruct (session_advance_to s0 t); simpl in *; [|done]. by rewrite Hs.
  - unfold Domain_advance_epoch in Ht. rewrite Hle in Ht. simpl in Ht. outcome_inv.
    eauto using less_equal_refl.
Qed.

Lemma advance_traces_frame d f d' r :
  Domain_advance_traces d f = Ret (d', r) →
  input_sessions d' = input_sessions d ∧ now_at d' = now_at d ∧ attributes d' = attributes d.
Proof.
  intros Ht. unfold Domain_advance_traces in Ht.
  destruct (existsb _ _); by outcome_inv.
Qed.

Lemma push_update_time (s : UnorderedSession T (Value * Value) Z) u :
  s_time (push_update s u) = s_time s.
Proof.
  unfold push_update. destruct (_ =? _)%nat; simpl; [|done]. by destruct (negb _).
Qed.

Lemma update_at_ok (s s' : UnorderedSession T (Value * Value) Z) x t r :
  Session_wf s → session_update_at s x t r = Ret s' → Session_wf s' ∧ s_time s' = s_time s.
Proof.
  intros Hwf Hs. split; [by apply (session_step_wf s (OpUpdateAt x t r))|].
  revert Hs. unfold session_update_at. destruct (less_equal _ _); simpl; [|done].
  intros [= <-]. apply (push_update_time s (x, t, r)).
Qed.

Lemma transact_ok d tx d' r :
  Sessions_ok d → Domain_transact d tx = Ret (d', r) → Sessions_ok d' ∧ now_at d' = now_at d.
Proof.
  revert d; induction tx as [|x tx IH]; simpl; intros d Hok Ht; [by outcome_inv|].
  destruct (input_sessions d !! d_a x) as [h|] eqn:Hh; [|by outcome_inv].
  apply obind_Ret in Ht as (h' & Hh' & Ht). destruct (Hok _ _ Hh) as [Hwf Htime].
  apply IH in Ht; [done|].
  assert (Session_wf h' ∧ s_time h' = s_time h) as [Hwf' Ht'].
  { destruct (d_t x) as [t|]; [outcome_inv; by eapply update_at_ok|].
    apply Ret_inj in Hh' as <-.
    split; [apply push_update_wf; [done|apply less_equal_refl]|].
    apply (push_update_time h (d_e x, d_v x, s_cap h, d_diff x)). }
  intros a s. simpl. rewrite lookup_insert_Some. intros [[<- <-]|[_ Ha]]; [|exact (Hok _ _ Ha)].
  by rewrite Ht'.
Qed.

Lemma domain_step_sessions d d' :
  Sessions_ok d → domain_step d d' →
  Sessions_ok d' ∧ less_equal (now_at d) (now_at d') = true.
Proof.
  intros Hok Hs.
  assert (∀ d1 f d2 r, Sessions_ok d1 → Domain_advance_traces d1 f = Ret (d2, r) →
    Sessions_ok d2 ∧ now_at d2 = now_at d1) as Htr.
  { intros d1 f d2 r Hok1 (Hs1 & Hn & _)%advance_traces_frame. split; [|done].
    intros a s. rewrite Hs1, Hn. exact (Hok1 a s). }
  destruct Hs as [d tx d' r Ht|d name d' r sent Ht|d d' r Ht|d t d' r Ht|d f d' r Ht|
    d f|d r|d h]; try (split; [exact Hok|apply less_equal_refl]).
  - apply transact_ok in Ht as [Hok' ->]; eauto using less_equal_refl.
  - unfold Domain_close_input in Ht. destruct (input_sessions d !! name); outcome_inv;
      (split; [|apply less_equal_refl]); [|done].
    intros a s. simpl. rewrite lookup_delete_Some. intros [_ Ha]. exact (Hok _ _ Ha).
  - apply advance_cases in Ht as [[f Ht]|[[t Ht]|(t & d1 & f & Ht & Ht')]].
    + destruct (Htr _ _ _ _ Hok Ht) as [? ->]. eauto using less_equal_refl.
    + eauto using advance_epoch_ok.
    + destruct (advance_epoch_ok _ _ _ _ Hok Ht) as [Hok1 Hle].
      destruct (Htr _ _ _ _ Hok1 Ht') as [? ->]. eauto.
  - eauto using advance_epoch_ok.
  - destruct (Htr _ _ _ _ Hok Ht) as [? ->]. eauto using less_equal_refl.
Qed.

(** (time never rewinds).  From a domain whose sessions are well formed and
    not ahead of its epoch, every sequence of operations keeps them so and
    never moves the epoch backwards. *)
Theorem domain_time_monotone d d' :
  Sessions_ok d → rtc domain_step d d' →
  Sessions_ok d' ∧ less_equal (now_at d) (now_at d') = true.
Proof.
  intros Hok Hs. induction Hs as [d|d d1 d' Hstep _ IH]; [eauto using less_equal_refl|].
  destruct (domain_step_sessions _ _ Hok Hstep) as [Hok1 Hle].
  destruct (IH Hok1) as [? Hle']. eauto using less_equal_trans.
Qed.

(** (advancing the epoch).  Under the same invariant [advance_epoch] never
    panics: it refuses, without changing anything, exactly the times that the
    current epoch does not precede; otherwise the new epoch is the requested
    time and, if time moved, every session was flushed (its buffer handed to
    timely under its old capability) and is at the new epoch. *)
Theorem advance_epoch_spec d next :
  Sessions_ok d →
  (less_equal (now_at d) next = false ∧
   Domain_advance_epoch d next = Ret (d, Err rewind_error)) ∨
  (less_equal (now_at d) next = true ∧
   ∃ d', Domain_advance_epoch d next = Ret (d', Ok tt) ∧ now_at d' = next ∧ Sessions_ok d' ∧
     (now_at d ≠ next → ∀ a s, input_sessions d !! a = Some s →
       input_sessions d' !! a =
       Some (mkSession next next [] (s_capacity s)
               (give_iterator (s_handle s) (s_cap s) (s_buffer s))))).
Proof.
  intros Hok. destruct (less_equal (now_at d) next) eqn:Hle; [right|left].
  - split; [done|]. destruct (decide (now_at d = next)) as [Heq|Hne].
    + exists d. unfold Domain_advance_epoch. rewrite Hle, bool_decide_true by done. done.
    + eexists. split; [by apply advance_epoch_total|]. split; [done|]. split.
      * eapply advance_epoch_ok; [exact Hok|]. by apply advance_epoch_total.
      * intros _ a s Ha. simpl. by rewrite map_lookup_imap, Ha.
  - unfold Domain_advance_epoch. by rewrite Hle.
Qed.
End domain_theorems.
