(* ===== verification/DomainTheorems.v ===== *)
(** * Domains: transactions, advancing, composition

    What [transact] records, what [advance] guarantees on totally ordered times
    and where it fails on bitemporal ones, how traces are compacted, and what
    composing domains does to the epoch and to the indices. *)
From Stdlib Require Import ZArith NArith Lia.
From stdpp Require Import base strings numbers list gmap sets.
From S2P Require Import Prelude Timestamps Values Sessions Weighted Dataflow Domains.

Section transact.
Context `{EV : ExternValues, DF : Differential}.
Context {T : Type} `{EqDecision T, PL : PartialOrderLaws T, LT : LatticeT T, TM : !Timely T}.
Context `{OT : Ord T, RW : Rewind T, DT : DefaultT T, TR : !Traces T}.
Context {Rule : Type}.
Implicit Types d : Domain T Rule.

(** The datoms up to the first one of an attribute without a session. *)
Fixpoint accepted d (tx : list Datom) : list Datom :=
  match tx with
  | [] => []
  | x :: tx' => if decide (d_a x ∈ dom (input_sessions d)) then x :: accepted d tx' else []
  end.

(** The answer: the first attribute without a session, if there is one. *)
Fixpoint transact_result d (tx : list Datom) : Result unit Error :=
  match tx with
  | [] => Ok tt
  | x :: tx' => if decide (d_a x ∈ dom (input_sessions d)) then transact_result d tx'
                else Err (transact_error (d_a x))
  end.

(** The time at which a session with capability [cap] records a datom. *)
Definition datom_time (cap : T) (x : Datom) : option T :=
  match d_t x with
  | None => Some cap
  | Some t => match from_time t with
              | Ret t' => if less_equal cap t' then Some t' else None
              | Panic _ => None
              end
  end.

Definition datom_update (cap : T) (x : Datom) : option ((Value * Value) * T * Z) :=
  t ← datom_time cap x; Some ((d_e x, d_v x), t, d_diff x).

Lemma accepted_dom d d' tx :
  dom (input_sessions d) = dom (input_sessions d') → accepted d tx = accepted d' tx.
Proof. intros Hd. induction tx as [|x tx IH]; simpl; [done|]. by rewrite Hd, IH. Qed.

Lemma transact_result_dom d d' tx :
  dom (input_sessions d) = dom (input_sessions d') → transact_result d tx = transact_result d' tx.
Proof. intros Hd. induction tx as [|x tx IH]; simpl; [done|]. by rewrite Hd, IH. Qed.

(** One datom: the session's log grows by its update. *)
Lemma transact_one (h : UnorderedSession T (Value * Value) Z) x u :
  Session_wf h → datom_update (s_cap h) x = Some u →
  ∃ h', (match d_t x with
         | None => Ret (session_update h (d_e x, d_v x) (d_diff x))
         | Some t => let! t' := from_time t in
                     session_update_at h (d_e x, d_v x) t' (d_diff x)
         end) = Ret h' ∧ Session_wf h' ∧ s_cap h' = s_cap h ∧ s_time h' = s_time h ∧
    session_log h' = session_log h ++ [u].
Proof.
  intros Hwf Hu. exists (push_update h u).
  assert (abstraction (push_update h u) =
    mkAbstract (s_time h) (s_cap h) (session_log h ++ [u])) as Habs
    by apply abstraction_push.
  assert (less_equal (s_cap h) u.1.2 = true ∧
    (match d_t x with
     | None => Ret (session_update h (d_e x, d_v x) (d_diff x))
     | Some t => let! t' := from_time t in
                 session_update_at h (d_e x, d_v x) t' (d_diff x)
     end) = Ret (push_update h u)) as [Hle Hret].
  { unfold datom_update, datom_time in Hu.
    destruct (d_t x) as [t|]; [|simplify_eq/=; split; [apply less_equal_refl|done]].
    destruct (from_time t) as [t'|]; [|done]. simpl in *.
    destruct (less_equal (s_cap h) t') eqn:Hle; simplify_eq/=.
    split; [done|]. unfold session_update_at. by rewrite Hle. }
  split; [done|]. split; [by apply push_update_wf|]. split; [exact (f_equal a_cap Habs)|].
  split; [exact (f_equal a_time Habs)|exact (f_equal a_log Habs)].
Qed.

(** C28 (transactions).  A transaction whose explicit times are not before the
    capabilities of their sessions never panics.  It applies the datoms up to
    the first one whose attribute has no input, and the answer is that
    attribute's not-found error, or [Ok].  Every session's log grows by exactly
    the accepted datoms of its attribute, in order, an explicit time kept and
    the session's capability stamped on the others; nothing else changes.  (A
    failed transaction is not rolled back.) *)
Theorem transact_spec d (tx : list Datom) :
  Sessions_ok d →
  (∀ x s, x ∈ accepted d tx → input_sessions d !! d_a x = Some s →
     is_Some (datom_time (s_cap s) x)) →
  ∃ d', Domain_transact d tx = Ret (d', transact_result d tx) ∧
    d' = set_sessions d (input_sessions d') ∧
    dom (input_sessions d') = dom (input_sessions d) ∧
    ∀ a s, input_sessions d !! a = Some s →
      ∃ s', input_sessions d' !! a = Some s' ∧ s_cap s' = s_cap s ∧ s_time s' = s_time s ∧
        session_log s' = session_log s ++
          omap (datom_update (s_cap s)) (filter (λ x, d_a x = a) (accepted d tx)).
Proof.
  revert d; induction tx as [|x tx IH]; intros d Hok Htimes; simpl.
  - exists d. split; [done|]. split; [by destruct d|]. split; [done|].
    intros a s Ha. exists s. by rewrite app_nil_r.
  - simpl in Htimes. destruct (decide (d_a x ∈ dom (input_sessions d))) as [Hx|Hx].
    2: { rewrite not_elem_of_dom in Hx. rewrite Hx. exists d. split; [done|].
         split; [by destruct d|]. split; [done|].
         intros a s Ha. exists s. by rewrite app_nil_r. }
    pose proof Hx as [h Hh]%elem_of_dom. rewrite Hh.
    destruct (Hok _ _ Hh) as [Hwf Htime].
    destruct (Htimes x h ltac:(set_solver) Hh) as [t Ht].
    destruct (transact_one h x ((d_e x, d_v x), t, d_diff x) Hwf) as
      (h' & Hh' & Hwf' & Hcap' & Ht' & Hlog); [unfold datom_update; by rewrite Ht|].
    rewrite Hh'. simpl.
    set (d1 := set_sessions d (<[d_a x := h']> (input_sessions d))).
    assert (dom (input_sessions d1) = dom (input_sessions d)) as Hdom.
    { simpl. rewrite dom_insert_L. set_solver. }
    destruct (IH d1) as (d' & Hrun & Hfr & Hdom' & Hs).
    { intros a s. simpl. rewrite lookup_insert_Some. intros [[<- <-]|[_ Ha]]; [|exact (Hok _ _ Ha)].
      by rewrite Ht'. }
    { intros y s Hy. rewrite (accepted_dom d1 d tx Hdom) in Hy. simpl.
      rewrite lookup_insert_Some. intros [[Heq <-]|[_ Hys]].
      - rewrite Hcap'. apply (Htimes y h); [set_solver|congruence].
      - apply (Htimes y s); [set_solver|done]. }
    exists d'. rewrite Hrun, (transact_result_dom d1 d tx Hdom). split; [done|].
    split; [by rewrite Hfr|]. split; [by rewrite Hdom'|].
    intros a s Ha. rewrite (accepted_dom d1 d tx Hdom) in Hs.
    destruct (decide (d_a x = a)) as [<-|Hne].
    + assert (s = h) as -> by congruence.
      destruct (Hs (d_a x) h') as (s' & Hs' & Hc & Htm & Hl); [simpl; by rewrite lookup_insert_eq|].
      exists s'. split; [done|]. split; [congruence|]. split; [congruence|].
      rewrite Hl, Hlog, Hcap', filter_cons_True by done. simpl.
      unfold datom_update at 2. rewrite Ht. simpl. by rewrite <- app_assoc.
    + destruct (Hs a s) as (s' & Hs' & Hc & Htm & Hl); [simpl; by rewrite lookup_insert_ne|].
      exists s'. by rewrite filter_cons_False by done.
Qed.

(** (transactions into the past).  A datom with an explicit time before its
    session's capability panics the worker: the assertion of the session is
    not turned into an error. *)
Theorem transact_past_panics d (x : Datom) tx s t t' :
  input_sessions d !! d_a x = Some s → d_t x = Some t → from_time t = Ret t' →
  less_equal (s_cap s) t' = false → is_panic (Domain_transact d (x :: tx)) = true.
Proof.
  intros Hs Hx Ht Hle. simpl. rewrite Hs, Hx, Ht. simpl.
  unfold session_update_at. by rewrite Hle.
Qed.
End transact.

Section advance.
Context `{EV : ExternValues, DF : Differential}.
Context {T : Type} `{EqDecision T, PL : PartialOrderLaws T, LT : LatticeT T, TM : !Timely T}.
Context `{TO : TotalOrd T, RW : Rewind T, DT : DefaultT T, TR : !Traces T}.
Context {Rule : Type}.
Implicit Types d : Domain T Rule.

(** Every configured slack is a time of the domain's own kind. *)
Definition slacks_convert d : Prop :=
  ∀ a c s, attributes d !! a = Some c → trace_slack c = Some s → ∃ t, from_time s = Ret t.

Definition slack_frontier (frontier : list T) (c : AttributeConfig) : option (list T) :=
  match trace_slack c with
  | None => None
  | Some s => match from_time s with
              | Ret s' => Some ((λ t, rewind t s') <$> frontier)
              | Panic _ => None
              end
  end.

Lemma slacking_frontier_pure d frontier a c :
  slacks_convert d → attributes d !! a = Some c →
  slacking_frontier frontier c = Ret (slack_frontier frontier c).
Proof.
  intros Hc Ha. unfold slacking_frontier, slack_frontier.
  destruct (trace_slack c) as [s|] eqn:Hs; [|done].
  destruct (Hc _ _ _ Ha Hs) as [t Ht]. rewrite Ht. simpl.
  by rewrite (mapM_outcome_pure _ (λ x, rewind x t)).
Qed.

Lemma advance_traces_total d frontier :
  slacks_convert d → ∃ d', Domain_advance_traces d frontier = Ret (d', Ok tt) ∧
    now_at d' = now_at d ∧ input_sessions d' = input_sessions d.
Proof.
  intros Hc. unfold Domain_advance_traces. destruct (existsb _ _); [|by exists d].
  rewrite (map_traverse_pure _ (λ _ c, slack_frontier frontier c)).
  - simpl. by eexists.
  - intros a c Ha. by apply (slacking_frontier_pure d frontier a).
Qed.

Lemma iter_max_elem (l : list T) m : iter_max l = Some m → m ∈ l.
Proof.
  destruct l as [|x l]; simpl; [done|]. intros [= <-]. revert x.
  induction l as [|y l IH]; intros x; simpl; [set_solver|].
  specialize (IH (if cmp_le x y then y else x)). destruct (cmp_le x y); set_solver.
Qed.

(** C31 (advance keeps up with the sources).  When the timestamp's order is
    total, [advance] always succeeds: the epoch never moves backwards and, as
    long as a source holds a capability, ends up not behind the frontier of the
    sources, so that transactable attributes do not stall the domain. *)
Theorem advance_total_order d :
  (∀ x y : T, less_equal x y = cmp_le x y) → Sessions_ok d → slacks_convert d →
  ∃ d', Domain_advance d = Ret (d', Ok tt) ∧ Sessions_ok d' ∧
    less_equal (now_at d) (now_at d') = true ∧
    (probed_source_count d ≠ 0%N → domain_probe d ≠ [] →
     antichain_less_equal (domain_probe d) (now_at d') = true).
Proof.
  intros Htot Hok Hsl.
  assert (∃ d', Domain_advance d = Ret (d', Ok tt) ∧
    (probed_source_count d ≠ 0%N → domain_probe d ≠ [] →
     antichain_less_equal (domain_probe d) (now_at d') = true)) as (d' & Hadv & Hfr).
  2: { exists d'. destruct (domain_step_sessions d d' Hok) as [Hok' Hle];
         [by eapply step_advance|]. done. }
  unfold Domain_advance. destruct (N.eqb_spec (probed_source_count d) 0) as [|Hn].
  { destruct (advance_traces_total d [Domain_epoch d] Hsl) as (d' & -> & _). by exists d'. }
  destruct (domain_probe d) as [|f fs] eqn:Ef.
  { destruct (advance_traces_total d [Domain_epoch d] Hsl) as (d' & -> & _). by exists d'. }
  unfold Domain_epoch. destruct (antichain_less_equal (f :: fs) (now_at d)) eqn:Eac; simpl.
  { destruct (advance_traces_total d (f :: fs) Hsl) as (d' & -> & Hnow & _).
    exists d'. rewrite Hnow. done. }
  set (m := foldl _ f fs).
  assert (m ∈ f :: fs) as Hm by (by apply (iter_max_elem (f :: fs))).
  assert (less_equal (now_at d) m = true) as Hle.
  { rewrite Htot. destruct (cmp_le_total (now_at d) m) as [|Hc]; [done|].
    rewrite <- Htot in Hc. exfalso. apply not_true_iff_false in Eac. apply Eac.
    apply antichain_less_equal_spec. eauto. }
  assert (now_at d ≠ m) as Hne.
  { intros Heq. apply not_true_iff_false in Eac. apply Eac.
    apply antichain_less_equal_spec. exists m. rewrite Heq. auto using less_equal_refl. }
  rewrite (advance_epoch_total d m) by done. simpl.
  match goal with |- context [Domain_advance_traces ?x _] => set (d1 := x) end.
  assert (slacks_convert d1) as Hsl1 by exact Hsl.
  destruct (advance_traces_total d1 (f :: fs) Hsl1) as (d' & -> & Hnow' & _).
  exists d'. split; [done|]. intros _ _. rewrite Hnow'. change (now_at d1) with m.
  apply antichain_less_equal_spec. exists m. split; [done|apply less_equal_refl].
Qed.
End advance.

(** ** Compaction of traces *)
Section compaction.
Context `{EV : ExternValues, DF : Differential}.
Context {T : Type} `{EqDecision T, PL : PartialOrderLaws T, LT : LatticeT T, TM : !Timely T}.
Context `{OT : Ord T, RW : Rewind T, DT : DefaultT T, TR : !Traces T}.
Context {Rule : Type}.
Implicit Types d : Domain T Rule.

Lemma accumulates_trans {D} `{EqDecision D} (l k m : wlist D) :
  accumulates l k → accumulates k m → accumulates l m.
Proof. intros [Hl1 Hl2] [Hk1 Hk2]. split; [by rewrite Hl1|set_solver]. Qed.

Lemma run_rel_trans {A} (Q : A → A → Prop) (m n o : outcome A) :
  (∀ a b c, Q a b → Q b c → Q a c) → run_rel Q m n → run_rel Q n o → run_rel Q m o.
Proof. intros HQ. destruct m, n, o; simpl; try done. apply HQ. Qed.

(** [m'] is [m] with every trace of an attribute with a slack advanced to the
    frontier minus the slack, and what an import of each trace accumulates kept. *)
Definition index_advanced {K V} `{EqDecision K, EqDecision V} d (frontier : list T)
    (m m' : gmap Aid (Trace K V)) : Prop :=
  dom m' = dom m ∧
  ∀ a t t', m !! a = Some t → m' !! a = Some t' →
    match attributes d !! a ≫= slack_frontier frontier with
    | Some f => advance_frontier t' = f
    | None => t' = t
    end ∧
    ∀ name, run_rel accumulates (run (import_frontier t' name).1) (run (import_frontier t name).1).

Lemma advance_index {K V} `{EqDecision K, EqDecision V} d frontier (m : gmap Aid (Trace K V)) :
  index_advanced d frontier m
    (map_imap (advance_trace
       (map_imap (λ _ c, Some (slack_frontier frontier c)) (attributes d))) m).
Proof.
  split; [apply advance_trace_dom|]. intros a t t' Ht. rewrite map_lookup_imap, Ht. simpl.
  unfold advance_trace. rewrite map_lookup_imap.
  assert (∀ name, run_rel accumulates (run (import_frontier t name).1)
                    (run (import_frontier t name).1)) as Hrefl.
  { intros name. apply run_rel_refl. intros. apply accumulates_refl. }
  destruct (attributes d !! a) as [c|]; simpl; [|intros [= <-]; done].
  destruct (slack_frontier frontier c) as [f|]; intros [= <-]; [|done].
  split.
  - by rewrite advance_frontier_distinguished, advance_frontier_advanced.
  - intros name. eapply run_rel_trans; [by apply accumulates_trans|apply import_distinguished|].
    apply import_advanced.
Qed.

(** (compaction).  When the requested frontier has a time beyond the last
    advance, [advance_traces] records it as the last advance and advances all
    six kinds of indices: the traces of an attribute with a slack are at the
    frontier rewound by that slack, the others untouched, and importing any of
    them still accumulates to the same collection.  Otherwise nothing changes. *)
Theorem advance_traces_spec d frontier :
  slacks_convert d →
  ∃ d', Domain_advance_traces d frontier = Ret (d', Ok tt) ∧
    attributes d' = attributes d ∧ now_at d' = now_at d ∧
    input_sessions d' = input_sessions d ∧
    if existsb (λ t, antichain_less_than (last_advance d) t) frontier then
      last_advance d' = frontier ∧
      index_advanced d frontier (forward_count d) (forward_count d') ∧
      index_advanced d frontier (forward_propose d) (forward_propose d') ∧
      index_advanced d frontier (forward_validate d) (forward_validate d') ∧
      index_advanced d frontier (reverse_count d) (reverse_count d') ∧
      index_advanced d frontier (reverse_propose d) (reverse_propose d') ∧
      index_advanced d frontier (reverse_validate d) (reverse_validate d')
    else d' = d.
Proof.
  intros Hc. unfold Domain_advance_traces. destruct (existsb _ _); [|by exists d].
  rewrite (map_traverse_pure _ (λ _ c, slack_frontier frontier c)).
  - simpl. eexists. split; [done|]. simpl. do 4 (split; [done|]).
    split_and!; apply advance_index.
  - intros a c Ha. by apply (slacking_frontier_pure d frontier a).
Qed.
End compaction.

(** ** Composition *)
Section composition.
Context `{EV : ExternValues, DF : Differential}.
Context {T : Type} `{EqDecision T, PL : PartialOrderLaws T, LT : LatticeT T, LL : !LatticeLaws T}.
Context `{TM : !Timely T, OT : Ord T, RW : Rewind T, DT : DefaultT T, TR : !Traces T}.
Context {Rule : Type}.
Implicit Types d o : Domain T Rule.

Lemma lookup_extend_l {V} (m o : gmap Aid V) a : o !! a = None → extend m o !! a = m !! a.
Proof. intros Ho. unfold extend. by rewrite lookup_union_r. Qed.
Lemma lookup_extend_r {V} (m o : gmap Aid V) a : m !! a = None → extend m o !! a = o !! a.
Proof. intros Ho. unfold extend. by rewrite lookup_union_l. Qed.

(** [d] and [d'] agree on everything they hold for an attribute. *)
Record same_attribute d d' (a : Aid) : Prop := {
  same_config : attributes d' !! a = attributes d !! a;
  same_session : input_sessions d' !! a = input_sessions d !! a;
  same_forward_count : forward_count d' !! a = forward_count d !! a;
  same_forward_propose : forward_propose d' !! a = forward_propose d !! a;
  same_forward_validate : forward_validate d' !! a = forward_validate d !! a;
  same_reverse_count : reverse_count d' !! a = reverse_count d !! a;
  same_reverse_propose : reverse_propose d' !! a = reverse_propose d !! a;
  same_reverse_validate : reverse_validate d' !! a = reverse_validate d !! a
}.

Lemma not_indexed d a : Domain_indexed d → attributes d !! a = None →
  input_sessions d !! a = None ∧ forward_count d !! a = None ∧ forward_propose d !! a = None ∧
  forward_validate d !! a = None ∧ reverse_count d !! a = None ∧
  reverse_propose d !! a = None ∧ reverse_validate d !! a = None.
Proof. clear LL PL. intros [] Ha. rewrite <- !not_elem_of_dom in *. set_solver. Qed.

Lemma no_clash d o :
  existsb (λ k, bool_decide (is_Some (attributes o !! k))) (map_to_list (attributes d)).*1 = false ↔
  dom (attributes d) ## dom (attributes o).
Proof.
  rewrite <- not_true_iff_false, existsb_exists. split.
  - intros Hn a Hd Ho. apply Hn. exists a. split.
    + apply elem_of_dom in Hd as [c Hc]. apply list_elem_of_In, list_elem_of_fmap.
      exists (a, c). by rewrite elem_of_map_to_list.
    + apply bool_decide_eq_true. by apply elem_of_dom.
  - intros Hdisj (a & Ha & Ho). apply list_elem_of_In, list_elem_of_fmap in Ha as ([a' c] & -> & Hc).
    apply elem_of_map_to_list in Hc. apply bool_decide_eq_true in Ho.
    apply (Hdisj a'); by apply elem_of_dom.
Qed.

(** What a composition holds. *)
Record composed d o d' : Prop := {
  composed_indexed : Domain_indexed d';
  composed_left : ∀ a, a ∈ dom (attributes d) → same_attribute d d' a;
  composed_right : ∀ a, a ∈ dom (attributes o) → same_attribute o d' a;
  composed_attributes : dom (attributes d') = dom (attributes d) ∪ dom (attributes o);
  composed_sources : probed_source_count d' = (probed_source_count d + probed_source_count o)%N;
  composed_epoch : now_at d' = meet (now_at d) (now_at o);
  composed_rules : rules d' = extend (rules d) (rules o);
  composed_namespace : namespace d' = namespace d
}.

Lemma add_assign_composed d o :
  Domain_indexed d → Domain_indexed o → namespace d = namespace o →
  dom (attributes d) ## dom (attributes o) →
  probed_source_count o = 0%N ∨ probed_source_count d = 0%N →
  ∃ d', Domain_add_assign d o = Ret d' ∧ composed d o d'.
Proof. clear LL PL.
  intros Hd Ho Hns Hdisj Hps. pose proof (proj2 (no_clash d o) Hdisj) as Hcl.
  destruct (Domain_add_assign d o) as [d'|] eqn:Hadd.
  2: { exfalso. unfold Domain_add_assign in Hadd. rewrite bool_decide_true, Hcl in Hadd by done.
       destruct Hps as [Hps|Hps]; rewrite Hps in Hadd; [done|]. by rewrite orb_true_r in Hadd. }
  exists d'. split; [done|]. pose proof (add_assign_indexed d o d' Hd Ho Hadd) as Hix.
  unfold Domain_add_assign in Hadd. outcome_inv. split; try done.
  - intros a Ha. assert (attributes o !! a = None) as Hn by (apply not_elem_of_dom; set_solver).
    destruct (not_indexed o a Ho Hn) as (? & ? & ? & ? & ? & ? & ?).
    split; simpl; by apply lookup_extend_l.
  - intros a Ha. assert (attributes d !! a = None) as Hn by (apply not_elem_of_dom; set_solver).
    destruct (not_indexed d a Hd Hn) as (? & ? & ? & ? & ? & ? & ?).
    split; simpl; by apply lookup_extend_r.
  - simpl. apply dom_extend.
  - simpl. destruct (N.eqb_spec (probed_source_count d) 0); lia.
Qed.

(** C36 (composing domains).  Two indexed domains compose exactly when they
    share the namespace, have no attribute in common and not both have external
    sources.  The result holds for every attribute exactly what its domain
    held, is indexed again, has the sources of whichever had them, and its epoch is
    the greatest time below both. *)
Theorem add_assign_spec d o :
  Domain_indexed d → Domain_indexed o →
  (∃ d', Domain_add_assign d o = Ret d' ∧
     namespace d = namespace o ∧ dom (attributes d) ## dom (attributes o) ∧
     (probed_source_count o = 0%N ∨ probed_source_count d = 0%N) ∧
     Domain_indexed d' ∧
     (∀ a, a ∈ dom (attributes d) → same_attribute d d' a) ∧
     (∀ a, a ∈ dom (attributes o) → same_attribute o d' a) ∧
     dom (attributes d') = dom (attributes d) ∪ dom (attributes o) ∧
     probed_source_count d' = (probed_source_count d + probed_source_count o)%N ∧
     (∀ t, less_equal t (now_at d') = true ↔
           less_equal t (now_at d) = true ∧ less_equal t (now_at o) = true)) ∨
  (is_panic (Domain_add_assign d o) = true ∧
   (namespace d ≠ namespace o ∨ ¬ dom (attributes d) ## dom (attributes o) ∨
    (probed_source_count o ≠ 0%N ∧ probed_source_count d ≠ 0%N))).
Proof.
  intros Hd Ho.
  destruct (decide (namespace d = namespace o)) as [Hns|Hns].
  2: { right. unfold Domain_add_assign. rewrite bool_decide_false by done. auto. }
  destruct (existsb (λ k, bool_decide (is_Some (attributes o !! k)))
              (map_to_list (attributes d)).*1) eqn:Hcl.
  { right. unfold Domain_add_assign. rewrite bool_decide_true, Hcl by done. split; [done|].
    right. left. intros Hdisj%no_clash. congruence. }
  destruct ((probed_source_count o =? 0)%N || (probed_source_count d =? 0)%N) eqn:Hps.
  2: { right. unfold Domain_add_assign. rewrite bool_decide_true, Hcl, Hps by done.
       split; [done|]. apply orb_false_iff in Hps as [? ?]. rewrite !N.eqb_neq in *. auto. }
  left. apply no_clash in Hcl. apply orb_true_iff in Hps. rewrite !N.eqb_eq in Hps.
  destruct (add_assign_composed d o Hd Ho Hns Hcl Hps) as (d' & Hadd & []).
  exists d'. split_and!; try done. intros t. rewrite composed_epoch0. split.
  - intros Ht. split; eapply less_equal_trans; eauto using meet_lb_l, meet_lb_r.
  - intros []. by apply meet_greatest.
Qed.
End composition.
