(* ===== verification/ScopedDomains.v ===== *)
(** * Domains under construction

    [ScopedDomain]s built from the singleton constructors: installing indices
    never fails on them, and every index arranges the attribute's pairs under
    the key it is for.  The file ends with concrete runs of domains. *)
From Stdlib Require Import ZArith NArith Lia.
From stdpp Require Import base strings numbers list gmap sets.
From S2P Require Import Prelude Timestamps Values Sessions Weighted Dataflow Domains.
From S2P Require Import DomainTheorems.

Section scoped.
Context `{EV : ExternValues, DF : Differential}.
Context {T : Type} `{EqDecision T, PL : PartialOrderLaws T, LT : LatticeT T}.
Context `{TM : !Timely T, OT : Ord T, RW : Rewind T, DT : DefaultT T, TR : !Traces T}.
Context {Rule : Type}.
Implicit Types (s o : ScopedDomain T Rule) (into_time : T → Time).

Inductive scoped_built (into_time : T → Time) : ScopedDomain T Rule → Prop :=
| built_stream c name : scoped_built into_time (stream_as_singleton_domain c name)
| built_collection c f name : scoped_built into_time (collection_as_singleton_domain c f name)
| built_handle cap c name : scoped_built into_time (handle_as_singleton_domain [] cap c name)
| built_query_support s qs s' :
    scoped_built into_time s → Scoped_with_query_support s qs = Ret s' → scoped_built into_time s'
| built_reverse_indices s s' :
    scoped_built into_time s → Scoped_with_reverse_indices s = Ret s' → scoped_built into_time s'
| built_slack s slack :
    scoped_built into_time s → scoped_built into_time (Scoped_with_slack into_time s slack)
| built_add s o s' :
    scoped_built into_time s → scoped_built into_time o → Scoped_add s o = Ret s' →
    scoped_built into_time s'.

(** The traces [m] arrange the pairs of their attributes as [f] maps them. *)
Definition indexes {K V} `{EqDecision K, EqDecision V} (f : Value * Value → K * V)
    (r : gmap Aid (Collection (Value * Value) Z)) (m : gmap Aid (Trace (T := T) K V)) : Prop :=
  ∀ a t, m !! a = Some t → ∃ c, r !! a = Some c ∧
    ∀ name, run_rel accumulates (run (import_frontier t name).1)
              (let! l := run c in Ret (wmap f l)).

Record Scoped_ok s : Prop := {
  ok_indexed : Domain_indexed (domain s);
  ok_raw : dom (raw s) = dom (attributes (domain s));
  ok_forward_count : indexes (λ ev, (ev.1, tt)) (raw s) (forward_count (domain s));
  ok_forward_propose : indexes (λ ev, ev) (raw s) (forward_propose (domain s));
  ok_forward_validate : indexes (λ ev, (ev, tt)) (raw s) (forward_validate (domain s));
  ok_reverse_count : indexes (λ ev, (ev.2, tt)) (raw s) (reverse_count (domain s));
  ok_reverse_propose : indexes (λ ev, (ev.2, ev.1)) (raw s) (reverse_propose (domain s));
  ok_reverse_validate : indexes (λ ev, (ev, tt)) (raw s) (reverse_validate (domain s))
}.

Lemma indexes_empty {K V} `{EqDecision K, EqDecision V} (f : Value * Value → K * V) r :
  indexes f r ∅.
Proof. intros a t. by rewrite lookup_empty. Qed.

Lemma arrange_indexes {K V} `{EqDecision K, EqDecision V} (f : Value * Value → K * V) c n name :
  run_rel accumulates
    (run (import_frontier (arrange_named n (c_map (λ x, Ret (f x)) c) : Trace (T := T) K V) name).1)
    (let! l := run c in Ret (wmap f l)).
Proof.
  eapply run_rel_trans; [by apply accumulates_trans|apply import_arranged|].
  pose proof (run_map (λ x, Ret (f x)) c) as Hm.
  destruct (run c) as [l|msg]; simpl in Hm |- *.
  - rewrite (mapM_outcome_pure _ (λ p, (f p.1, p.2))) in Hm by done.
    apply run_rel_Ret_r in Hm as (l' & -> & Hl'). simpl. split.
    + by apply wlist_equiv_perm.
    + unfold wmap. rewrite Hl'. set_solver.
  - by destruct (run (c_map _ c)).
Qed.

Lemma install_index_ok {X K V} `{EqDecision K, EqDecision V} s (keys : gmap Aid X)
    (f : Value * Value → K * V) prefix :
  dom keys ⊆ dom (raw s) →
  ∃ m, install_index s keys f prefix = Ret m ∧ dom m = dom keys ∧ indexes f (raw s) m.
Proof.
  intros Hk. unfold install_index.
  destruct (map_traverse _ keys) as [m|msg] eqn:Hm.
  - exists m. split; [done|]. split; [by eapply map_traverse_dom|].
    intros a t Ha. pose proof (map_traverse_lookup _ _ _ Hm a) as Hl. rewrite Ha in Hl.
    destruct (keys !! a); [|done]. apply obind_Ret in Hl as (c & Hc & Ht).
    apply expect_Ret in Hc. exists c. split; [done|]. apply Ret_inj in Ht as <-.
    intros name. apply arrange_indexes.
  - exfalso. revert Hm. rewrite (map_traverse_pure _ (λ a _,
      arrange_named (prefix +:+ "(" +:+ a +:+ ")")
        (c_map (λ x, Ret (f x)) (default (c_concatenate []) (raw s !! a))))); [done|].
    intros a x Ha. apply elem_of_dom_2 in Ha. apply Hk in Ha. apply elem_of_dom in Ha as [c Hc].
    by rewrite Hc.
Qed.

Lemma indexes_extend {K V} `{EqDecision K, EqDecision V} (f : Value * Value → K * V) r m m' :
  indexes f r m → indexes f r m' → indexes f r (extend m m').
Proof.
  intros Hm Hm' a t. unfold extend. rewrite lookup_union_Some_raw. intros [Ha|[_ Ha]]; eauto.
Qed.

Lemma indexes_raw_r {K V} `{EqDecision K, EqDecision V} (f : Value * Value → K * V) r r' m :
  indexes f r m → (∀ a, a ∈ dom m → r' !! a = r !! a) → indexes f r' m.
Proof.
  intros Hm Hr a t Ha. destruct (Hm a t Ha) as (c & Hc & Ht). exists c. split; [|done].
  rewrite Hr; [done|]. by eapply elem_of_dom_2.
Qed.

Lemma singleton_ok name pairs sess probe n :
  dom sess ⊆ {[ name ]} → Scoped_ok (singleton_domain name pairs sess probe n).
Proof.
  intros Hs. split; simpl; try apply indexes_empty.
  - split; simpl; set_solver.
  - set_solver.
  - intros a t Ha. rewrite lookup_singleton_Some in Ha. destruct Ha as [<- <-].
    exists pairs. rewrite lookup_singleton_eq. split; [done|]. intros nm.
    eapply run_rel_trans; [by apply accumulates_trans|apply import_arranged|].
    destruct (run pairs); simpl; [|done]. unfold wmap.
    rewrite (list_fmap_ext _ id) by (by intros ? []). rewrite list_fmap_id. apply accumulates_refl.
Qed.

Lemma query_support_ok s qs :
  Scoped_ok s → ∃ s', Scoped_with_query_support s qs = Ret s' ∧ Scoped_ok s'.
Proof.
  intros [Hix Hraw ? ? ? ? ? ?]. unfold Scoped_with_query_support.
  assert (dom (forward_propose (domain s)) ⊆ dom (raw s)) as Hsub
    by (rewrite Hraw; by apply idx_forward_propose).
  destruct (install_index_ok s (forward_propose (domain s)) (λ kv, (kv.1, tt)) "->Count" Hsub)
    as (mc & Hmc & Hdc & Hic).
  destruct (install_index_ok s (forward_propose (domain s)) (λ t, (t, tt)) "->Validate" Hsub)
    as (mv & Hmv & Hdv & Hiv).
  assert (∃ mc', (if bool_decide (qs = AdaptiveWCO) then
      install_index s (forward_propose (domain s)) (λ kv, (kv.1, tt)) "->Count" else Ret ∅) = Ret mc' ∧
      dom mc' ⊆ dom (attributes (domain s)) ∧ indexes (λ ev, (ev.1, tt)) (raw s) mc') as (mc' & -> & ? & ?).
  { case_bool_decide; [exists mc|exists ∅]; (split; [done|]);
      (split; [|by try apply indexes_empty]); [rewrite Hdc; by apply idx_forward_propose|set_solver]. }
  assert (∃ mv', (if cmp_le Delta qs then
      install_index s (forward_propose (domain s)) (λ t, (t, tt)) "->Validate" else Ret ∅) = Ret mv' ∧
      dom mv' ⊆ dom (attributes (domain s)) ∧ indexes (λ ev, (ev, tt)) (raw s) mv') as (mv' & -> & ? & ?).
  { destruct (cmp_le Delta qs); [exists mv|exists ∅]; (split; [done|]);
      (split; [|by try apply indexes_empty]); [rewrite Hdv; by apply idx_forward_propose|set_solver]. }
  simpl. eexists. split; [done|]. destruct Hix.
  split; simpl; auto using indexes_extend. split; simpl; rewrite ?dom_extend; set_solver.
Qed.

Lemma reverse_indices_ok s :
  Scoped_ok s → ∃ s', Scoped_with_reverse_indices s = Ret s' ∧ Scoped_ok s'.
Proof.
  intros [Hix Hraw ? ? ? ? ? ?]. unfold Scoped_with_reverse_indices. destruct Hix.
  destruct (install_index_ok s (forward_count (domain s)) (λ ev, (ev.2, tt)) "->_Count")
    as (mc & -> & Hdc & Hic); [by rewrite Hraw|].
  destruct (install_index_ok s (forward_propose (domain s)) (λ ev, (ev.2, ev.1)) "->_Propose")
    as (mp & -> & Hdp & Hip); [by rewrite Hraw|].
  destruct (install_index_ok s (forward_validate (domain s)) (λ p, (p, tt)) "->_Validate")
    as (mv & -> & Hdv & Hiv); [by rewrite Hraw|].
  simpl. eexists. split; [done|].
  split; simpl; auto using indexes_extend. split; simpl; rewrite ?dom_extend; set_solver.
Qed.

Lemma slack_ok into_time s slack : Scoped_ok s → Scoped_ok (Scoped_with_slack into_time s slack).
Proof.
  intros [Hix Hraw ? ? ? ? ? ?]. destruct Hix.
  split; simpl; auto; [split; simpl|]; rewrite ?dom_fmap_L; done.
Qed.

Lemma scoped_add_ok s o s' :
  Scoped_ok s → Scoped_ok o → Scoped_add s o = Ret s' → Scoped_ok s'.
Proof.
  intros Hs Ho Hadd. unfold Scoped_add, Scoped_add_assign in Hadd.
  apply obind_Ret in Hadd as (m & Hm & Heq). apply Ret_inj in Heq as ->.
  apply obind_Ret in Hm as (d & Hd & Heq). apply Ret_inj in Heq as <-.
  pose proof (add_assign_indexed _ _ _ (ok_indexed _ Hs) (ok_indexed _ Ho) Hd) as Hix.
  unfold Domain_add_assign in Hd. apply obind_Ret in Hd as ([] & _ & Hd).
  apply obind_Ret in Hd as ([] & Hcl & Hd). apply obind_Ret in Hd as ([] & _ & Hd).
  apply assert_Ret, negb_true_iff in Hcl. apply no_clash in Hcl. apply Ret_inj in Hd as <-.
  destruct Hs as [[] Hraw ? ? ? ? ? ?], Ho as [[] Hraw' ? ? ? ? ? ?].
  assert (∀ a, a ∈ dom (attributes (domain s)) →
    extend (raw s) (raw o) !! a = raw s !! a) as Hl.
  { intros a Ha. apply lookup_extend_l, not_elem_of_dom. rewrite Hraw'. set_solver. }
  assert (∀ a, a ∈ dom (attributes (domain o)) →
    extend (raw s) (raw o) !! a = raw o !! a) as Hr.
  { intros a Ha. apply lookup_extend_r, not_elem_of_dom. rewrite Hraw. set_solver. }
  split; [done|simpl; rewrite !dom_extend; congruence|..]; simpl; apply indexes_extend;
    (eapply indexes_raw_r; [eassumption|]); auto.
Qed.

(** C9 (indices reflect their attribute).  Every domain under construction that
    starts from the singleton constructors and is extended with query support,
    reverse indices, slack and composition is indexed, and each of its traces
    imports to the pairs of its attribute under the trace's key: (e, v) and e
    forward, (v, e) and v reverse, whole pairs for validation.  Installing
    indices on it never fails. *)
Theorem scoped_indices_spec into_time s :
  scoped_built into_time s → Scoped_ok s ∧
  (∀ qs, ∃ s', Scoped_with_query_support s qs = Ret s') ∧
  (∃ s', Scoped_with_reverse_indices s = Ret s').
Proof.
  intros Hb. assert (Scoped_ok s) as Hok.
  { induction Hb as [c name|c f name|cap c name|s qs s' _ IH Hs|s s' _ IH Hs|s slack _ IH|
      s o s' _ IH _ IHo Hs].
    - apply singleton_ok. set_solver.
    - apply singleton_ok. set_solver.
    - apply singleton_ok. set_solver.
    - destruct (query_support_ok s qs IH) as (s1 & Hs1 & ?). congruence.
    - destruct (reverse_indices_ok s IH) as (s1 & Hs1 & ?). congruence.
    - by apply slack_ok.
    - exact (scoped_add_ok s o s' IH IHo Hs). }
  split; [done|]. split.
  - intros qs. destruct (query_support_ok s qs Hok) as (s1 & -> & _). by eexists.
  - destruct (reverse_indices_ok s Hok) as (s1 & -> & _). by eexists.
Qed.
End scoped.

(** ** Concrete runs

    On the models of the interfaces, with [u64] and bitemporal timestamps. *)
Section runs.
#[local] Existing Instances extern_model diff_model trace_model timely_model.

(** A transactable attribute "x", as the server creates it. *)
Definition scoped_x : ScopedDomain N unit :=
  handle_as_singleton_domain [] 0%N (Ret []) "x".
(** The same after the epoch was advanced to 5. *)
Definition domain_x5 : Domain N unit :=
  match Domain_advance_epoch (domain scoped_x) 5%N with
  | Ret (d, _) => d
  | Panic _ => domain scoped_x
  end.
Definition scoped_y : ScopedDomain N unit :=
  handle_as_singleton_domain [] 0%N (Ret []) "y".
(** A domain with a probed source at time 7. *)
Definition domain_sourced : Domain N unit :=
  domain (collection_as_singleton_domain (T := N) (Ret []) [7%N] "z").

Lemma scoped_x_sessions_ok : Sessions_ok (domain scoped_x).
Proof.
  intros a s Ha. cbn in Ha. apply lookup_singleton_Some in Ha as [_ <-].
  split; [apply session_from_wf|done].
Qed.

Lemma domain_x5_sessions_ok : Sessions_ok domain_x5.
Proof.
  apply (advance_epoch_ok (domain scoped_x) 5%N _ (Ok tt) scoped_x_sessions_ok).
  vm_refl.
Qed.

Lemma domain_x5_session : input_sessions domain_x5 !! "x" = Some (mkSession 5%N 5%N [] 0 []).
Proof. vm_refl. Qed.

Lemma domain_index_invariant_witness :
  domain_reachable (set_probe (Domain_new (Rule := unit) 0%N) [3%N]) ∧
  Domain_indexed (set_probe (Domain_new (Rule := unit) 0%N) [3%N]).
Proof.
  assert (domain_reachable (set_probe (Domain_new (Rule := unit) 0%N) [3%N])) as Hr.
  { eapply reach_step; [apply (reach_new 0%N)|apply step_probe]. }
  split; [exact Hr|]. exact (domain_index_invariant _ Hr).
Defined.

Lemma domain_time_monotone_witness :
  Sessions_ok domain_x5 ∧ less_equal (now_at (domain scoped_x)) (now_at domain_x5) = true.
Proof.
  apply (domain_time_monotone (domain scoped_x) domain_x5 scoped_x_sessions_ok).
  apply rtc_once. apply (step_advance_epoch _ 5%N _ (Ok tt)). vm_refl.
Defined.

Lemma advance_epoch_spec_witness :
  (less_equal (now_at domain_x5) 3%N = false ∧
   Domain_advance_epoch domain_x5 3%N = Ret (domain_x5, Err rewind_error)) ∨
  less_equal (now_at domain_x5) 3%N = true.
Proof.
  destruct (advance_epoch_spec domain_x5 3%N domain_x5_sessions_ok) as [?|[? _]]; auto.
Defined.

Definition tx_x : list Datom :=
  [Datom_add 1%N "x" (VNumber 1); Datom_add_at 2%N "x" (VNumber 2) (TxId 8);
   Datom_add 3%N "unknown" (VNumber 3); Datom_add 4%N "x" (VNumber 4)].

Lemma tx_x_accepted : accepted domain_x5 tx_x = firstn 2 tx_x.
Proof. vm_refl. Qed.
Lemma tx_x_result : transact_result domain_x5 tx_x = Err (transact_error "unknown").
Proof. vm_refl. Qed.
Lemma tx_x_times x s :
  x ∈ accepted domain_x5 tx_x → input_sessions domain_x5 !! d_a x = Some s →
  is_Some (datom_time (s_cap s) x).
Proof.
  rewrite tx_x_accepted. intros [->|[->|Hx]%elem_of_cons]%elem_of_cons.
  - simpl d_a. rewrite domain_x5_session. intros [= <-]. vm_compute. eauto.
  - simpl d_a. rewrite domain_x5_session. intros [= <-]. vm_compute. eauto.
  - by apply not_elem_of_nil in Hx.
Qed.
Lemma tx_x_log :
  omap (datom_update 5%N) (filter (λ x, d_a x = "x") (accepted domain_x5 tx_x)) =
  [((VEid 1, VNumber 1), 5, 1%Z); ((VEid 2, VNumber 2), 8, 1%Z)]%N.
Proof. rewrite tx_x_accepted. vm_refl. Qed.

Lemma transact_spec_witness :
  ∃ d', Domain_transact domain_x5 tx_x = Ret (d', Err (transact_error "unknown")) ∧
    ∃ s', input_sessions d' !! "x" = Some s' ∧
      session_log s' = [((VEid 1, VNumber 1), 5, 1%Z); ((VEid 2, VNumber 2), 8, 1%Z)]%N.
Proof.
  destruct (transact_spec domain_x5 tx_x domain_x5_sessions_ok tx_x_times)
    as (d' & Hd' & _ & _ & Hs).
  rewrite tx_x_result in Hd'. exists d'. split; [exact Hd'|].
  destruct (Hs "x" _ domain_x5_session) as (s' & Hs' & _ & _ & Hl).
  exists s'. split; [exact Hs'|]. simpl s_cap in Hl. rewrite tx_x_log in Hl. exact Hl.
Defined.

Lemma transact_past_panics_witness :
  is_panic (Domain_transact domain_x5 [Datom_add_at 1%N "x" (VNumber 1) (TxId 3)]) = true.
Proof.
  apply (transact_past_panics domain_x5 (Datom_add_at 1%N "x" (VNumber 1) (TxId 3)) []
           (mkSession 5%N 5%N [] 0 []) (TxId 3) 3%N domain_x5_session); vm_refl.
Defined.

Lemma u64_total_order (x y : N) : less_equal x y = cmp_le x y.
Proof. unfold less_equal, u64_less_equal, cmp_le, cmp, Ord_N, N.leb. by destruct (x ?= y)%N. Qed.

Lemma advance_total_order_witness :
  ∃ d', Domain_advance domain_sourced = Ret (d', Ok tt) ∧ Sessions_ok d' ∧
    less_equal (now_at domain_sourced) (now_at d') = true ∧
    (probed_source_count domain_sourced ≠ 0%N → domain_probe domain_sourced ≠ [] →
     antichain_less_equal (domain_probe domain_sourced) (now_at d') = true).
Proof.
  apply (advance_total_order domain_sourced u64_total_order).
  - intros a s Ha. cbn in Ha. rewrite lookup_empty in Ha. discriminate Ha.
  - intros a c s Ha. cbn in Ha. apply lookup_singleton_Some in Ha as [_ <-]. discriminate.
Defined.

Lemma advance_traces_spec_witness :
  ∃ d', Domain_advance_traces domain_sourced [7%N] = Ret (d', Ok tt) ∧ last_advance d' = [7%N].
Proof.
  destruct (advance_traces_spec domain_sourced [7%N]) as (d' & Hd' & _ & _ & _ & Hif).
  - intros a c s Ha. cbn in Ha. apply lookup_singleton_Some in Ha as [_ <-]. discriminate.
  - exists d'. split; [exact Hd'|]. exact (proj1 Hif).
Defined.

Lemma compose_xy : is_panic (Domain_add_assign (domain scoped_x) (domain scoped_y)) = false.
Proof. vm_refl. Qed.
Lemma scoped_x_indexed : Domain_indexed (domain scoped_x).
Proof. apply (ok_indexed scoped_x). apply singleton_ok. set_solver. Qed.
Lemma scoped_y_indexed : Domain_indexed (domain scoped_y).
Proof. apply (ok_indexed scoped_y). apply singleton_ok. set_solver. Qed.

Lemma add_assign_spec_witness :
  ∃ d, Domain_add_assign (domain scoped_x) (domain scoped_y) = Ret d ∧
    ∀ t, less_equal t (now_at d) = true ↔ less_equal t 0%N = true ∧ less_equal t 0%N = true.
Proof.
  destruct (add_assign_spec (domain scoped_x) (domain scoped_y) scoped_x_indexed scoped_y_indexed)
    as [(d & Hd & _ & _ & _ & _ & _ & _ & _ & _ & Ht)|[Hp _]].
  - exists d. split; [exact Hd|exact Ht].
  - rewrite compose_xy in Hp. discriminate Hp.
Defined.

Lemma scoped_indices_spec_witness :
  scoped_built (T := N) Time_from_u64 scoped_x ∧
  ∃ s', Scoped_with_query_support scoped_x AdaptiveWCO = Ret s'.
Proof.
  assert (scoped_built (T := N) Time_from_u64 scoped_x) as Hb by apply built_handle.
  split; [exact Hb|]. exact (proj1 (proj2 (scoped_indices_spec Time_from_u64 scoped_x Hb)) AdaptiveWCO).
Defined.

(** (creating an attribute rewinds the epoch).  Composing a domain at epoch 5
    with a new attribute, as the server does, takes the meet of their epochs and
    so falls back to 0.  Before, a request to go to epoch 3 was refused with an
    error; afterwards the same request passes the check against rewinding and
    panics the worker in the assertion of the session that is at 5. *)
Theorem compose_rewinds_epoch :
  Domain_advance_epoch domain_x5 3%N = Ret (domain_x5, Err rewind_error) ∧
  ∃ d, Domain_add_assign domain_x5 (domain scoped_y) = Ret d ∧
    now_at domain_x5 = 5%N ∧ now_at d = 0%N ∧
    Domain_advance_epoch d 3%N = Panic "assertion failed: self.epoch().less_equal(&time)".
Proof.
  split; [vm_refl|].
  exists (match Domain_add_assign domain_x5 (domain scoped_y) with Ret d => d | _ => domain_x5 end).
  split_and!; vm_refl.
Qed.

(** (bitemporal domains can fail to advance).  With [Pair] timestamps the
    maximum of the frontier in the lexicographic order need not follow the epoch
    in the product order: a domain at epoch (1, 1) whose sources are at the
    frontier {(0, 3), (2, 0)} cannot advance, and reports the attempt as a
    rewind. *)
Theorem advance_bitemporal_conflict :
  let d : Domain (Pair Duration N) unit :=
    set_now_at
      (domain (collection_as_singleton_domain (T := Pair Duration N) (Ret [])
         [mkPair (from_secs 0) 3%N; mkPair (from_secs 2) 0%N] "z"))
      (mkPair (from_secs 1) 1%N) in
  Domain_advance d = Ret (d, Err rewind_error).
Proof. cbv zeta. vm_refl. Qed.
End runs.
