(* ===== verification/Relations.v ===== *)
(** * Relations (src/src/lib.rs, lines 474 to 851)

    A [Relation] is a collection of tuples with the variables their offsets
    stand for, or an attribute's forward index.  Panics of the closures given to
    operators happen when the dataflow runs ([run]); the other panics happen
    while it is built.  The semantics of a relation is the weight it gives to
    assignments of values to its variables. *)
From Stdlib Require Import ZArith NArith Lia.
From stdpp Require Import base strings numbers list gmap sets.
From S2P Require Import Prelude Timestamps Values Bindings Sessions Weighted Dataflow Domains.

(** [slice[i]]. *)
Definition index {A} (l : list A) (i : nat) : outcome A := expect "index out of bounds" (l !! i).

Section relations.
Context `{EV : ExternValues, DF : Differential}.
Context {T : Type} `{TR : !Traces T} {Rule : Type}.

Abbreviation Tuples := (Collection (list Value) Z) (only parsing).
Abbreviation Handle := (ShutdownHandle (Button (T := T))) (only parsing).

Record CollectionRelation := mkCollectionRelation {
  cr_variables : list Var;
  cr_tuples : Tuples
}.

Inductive Implemented :=
| IAttribute (b : AttributeBinding)
| ICollection (r : CollectionRelation).

(** ** [impl AsBinding] *)

Definition CollectionRelation_variables (self : CollectionRelation) : list Var :=
  cr_variables self.
Definition CollectionRelation_binds (self : CollectionRelation) (variable : Var) : option nat :=
  Vec_binds (cr_variables self) variable.

Definition Implemented_variables (self : Implemented) : list Var :=
  match self with
  | IAttribute b => AttributeBinding_variables b
  | ICollection r => CollectionRelation_variables r
  end.
Definition Implemented_binds (self : Implemented) (variable : Var) : option nat :=
  match self with
  | IAttribute b => AttributeBinding_binds b variable
  | ICollection r => CollectionRelation_binds r variable
  end.
Definition Implemented_ready_to_extend (self : Implemented) (prefix : Prefix)
    : outcome (option Var) :=
  match self with
  | IAttribute b => Ret (AttributeBinding_ready_to_extend b prefix)
  | ICollection _ => Panic "not yet implemented"
  end.
Definition Implemented_required_to_extend (self : Implemented) (prefix : Prefix) (target : Var)
    : outcome (option (option Var)) :=
  match self with
  | IAttribute b => AttributeBinding_required_to_extend b prefix target
  | ICollection _ => Panic "not yet implemented"
  end.

(** ** [impl Relation for CollectionRelation] *)

Definition CollectionRelation_tuples (self : CollectionRelation) (_ : Domain T Rule)
    : outcome (Tuples * Handle) :=
  Ret (cr_tuples self, ShutdownHandle_empty).

(** The closure mapping a tuple to its values at the target variables. *)
Definition project_closure (relation_variables target_variables : list Var) (tuple : list Value)
    : outcome (list Value) :=
  mapM_outcome (λ x,
    let! idx := expect "called `Option::unwrap()` on a `None` value"
                  (Vec_binds relation_variables x) in
    index tuple idx) target_variables.

Definition CollectionRelation_projected (self : CollectionRelation) (_ : Domain T Rule)
    (target_variables : list Var) : outcome (Tuples * Handle) :=
  if bool_decide (CollectionRelation_variables self = target_variables)
  then Ret (cr_tuples self, ShutdownHandle_empty)
  else Ret (c_map (project_closure (CollectionRelation_variables self) target_variables)
              (cr_tuples self), ShutdownHandle_empty).

(** [values_length] is a difference of two [usize].  With more key variables than
    the relation has it wraps around, and [Vec::with_capacity] refuses it. *)
Definition CollectionRelation_tuples_by_variables (self : CollectionRelation)
    (_ : Domain T Rule) (vars : list Var)
    : outcome (Collection (list Value * list Value) Z * Handle) :=
  if bool_decide (vars = CollectionRelation_variables self)
  then Ret (c_map (λ x, Ret (x, [])) (cr_tuples self), ShutdownHandle_empty)
  else if bool_decide (vars = [])
  then Ret (c_map (λ x, Ret ([], x)) (cr_tuples self), ShutdownHandle_empty)
  else if (length (CollectionRelation_variables self) <? length vars)%nat
  then Panic "capacity overflow"
  else
    let! key_offsets := mapM_outcome (λ x,
      expect "called `Option::unwrap()` on a `None` value" (CollectionRelation_binds self x)) vars in
    let value_offsets :=
      fst <$> filter (λ p : nat * Var, p.2 ∉ vars)
        (imap pair (CollectionRelation_variables self)) in
    let arranged := c_map (λ tuple,
      let! key := mapM_outcome (index tuple) key_offsets in
      let! values := mapM_outcome (index tuple) value_offsets in
      Ret (key, values)) (cr_tuples self) in
    Ret (arranged, ShutdownHandle_empty).

(** ** [impl Relation for AttributeBinding] *)

Definition import_propose (d : Domain T Rule) (a : Aid)
    : outcome (Collection (Value * Value) Z * Button (T := T)) :=
  match Domain_forward_propose d a with
  | None => Panic ("attribute " +:+ a +:+ " does not exist")
  | Some propose_trace => Ret (import_frontier propose_trace a)
  end.

Definition AttributeBinding_projected (self : AttributeBinding) (d : Domain T Rule)
    (target_variables : list Var) : outcome (Tuples * Handle) :=
  let! '(tuples, shutdown_propose) := import_propose d (source_attribute self) in
  let '(e, v) := ab_variables self in
  let! projected :=
    if bool_decide (target_variables = [e; v])
    then Ret (c_map (λ ev, Ret [ev.1; ev.2]) tuples)
    else if bool_decide (target_variables = [v; e])
    then Ret (c_map (λ ev, Ret [ev.2; ev.1]) tuples)
    else if bool_decide (target_variables = [e]) then Ret (c_map (λ ev, Ret [ev.1]) tuples)
    else if bool_decide (target_variables = [v]) then Ret (c_map (λ ev, Ret [ev.2]) tuples)
    else Panic "invalid projection" in
  Ret (projected, ShutdownHandle_from_button shutdown_propose).

Definition AttributeBinding_tuples (self : AttributeBinding) (d : Domain T Rule)
    : outcome (Tuples * Handle) :=
  AttributeBinding_projected self d (AttributeBinding_variables self).

Definition AttributeBinding_tuples_by_variables (self : AttributeBinding) (d : Domain T Rule)
    (vars : list Var) : outcome (Collection (list Value * list Value) Z * Handle) :=
  let! '(tuples, shutdown_propose) := import_propose d (source_attribute self) in
  let '(e, v) := ab_variables self in
  let! arranged :=
    if bool_decide (vars = [e; v]) then Ret (c_map (λ ev, Ret ([ev.1; ev.2], [])) tuples)
    else if bool_decide (vars = [v; e]) then Ret (c_map (λ ev, Ret ([ev.2; ev.1], [])) tuples)
    else if bool_decide (vars = [e]) then Ret (c_map (λ ev, Ret ([ev.1], [ev.2])) tuples)
    else if bool_decide (vars = [v]) then Ret (c_map (λ ev, Ret ([ev.2], [ev.1])) tuples)
    else Panic "invalid projection" in
  Ret (arranged, ShutdownHandle_from_button shutdown_propose).

(** ** [impl Relation for Implemented] *)

Definition Implemented_tuples (self : Implemented) (d : Domain T Rule)
    : outcome (Tuples * Handle) :=
  match self with
  | IAttribute b => AttributeBinding_tuples b d
  | ICollection r => CollectionRelation_tuples r d
  end.
Definition Implemented_projected (self : Implemented) (d : Domain T Rule)
    (target_variables : list Var) : outcome (Tuples * Handle) :=
  match self with
  | IAttribute b => AttributeBinding_projected b d target_variables
  | ICollection r => CollectionRelation_projected r d target_variables
  end.
Definition Implemented_tuples_by_variables (self : Implemented) (d : Domain T Rule)
    (vars : list Var) : outcome (Collection (list Value * list Value) Z * Handle) :=
  match self with
  | IAttribute b => AttributeBinding_tuples_by_variables b d vars
  | ICollection r => CollectionRelation_tuples_by_variables r d vars
  end.
End relations.
