(* ===== verification/Extenders.v ===== *)
(** * Prefix extenders (src/src/plan/hector.rs)

    The extenders a delta pipeline chooses from, each a record of the three
    methods of [PrefixExtender], and [extend], which lets the extender with the
    fewest candidates propose values for a prefix and the others validate them.
    Streams are lists of updates, transformed as the operators do when they have
    seen all their input ([Lookups]); a closure that panics makes the stream a
    panic. *)
From Stdlib Require Import ZArith NArith Lia.
From stdpp Require Import base strings numbers list sets.
From S2P Require Import Prelude Timestamps Values Bindings HectorPlan Weighted Streams Lookups.
From S2P Require Import Dataflow Domains Relations.
Local Open Scope Z_scope.

Section extenders.
Context `{EV : ExternValues} {T : Type} `{EqDecision T, PartialOrderT T}.

Abbreviation P := (list Value) (only parsing).

(** [trait PrefixExtender]. *)
Record PrefixExtender := mkPrefixExtender {
  e_count : Stream T (P * N * N) → N → outcome (option (Stream T (P * N * N)));
  e_propose : Stream T P → outcome (Stream T (P * Value));
  e_validate : Stream T (P * Value) → outcome (Stream T (P * Value))
}.

(** A closure that panics on every record it is given. *)
Definition never {D D'} (msg : string) (l : Stream T D) : outcome (Stream T D') :=
  match l with [] => Ret [] | _ => Panic msg end.

(** ** Constants *)
Definition ConstantExtender_count (prefixes : Stream T (P * N * N)) (index : N)
    : Stream T (P * N * N) :=
  respond (λ _ x, let '(prefix, old_count, old_index) := x in
             [if (1 <? old_count)%N then (prefix, 1%N, index) else (prefix, old_count, old_index)])
    prefixes.
Definition ConstantExtender_propose (value : Value) (prefixes : Stream T P) : Stream T (P * Value) :=
  respond (λ _ prefix, [(prefix, value)]) prefixes.
Definition ConstantExtender_validate (target : Value) (extensions : Stream T (P * Value))
    : Stream T (P * Value) :=
  wfilter (λ x, bool_decide (x.1.2 = target)) extensions.
Definition ConstantExtender (value : Value) : PrefixExtender :=
  mkPrefixExtender
    (λ prefixes index, Ret (Some (ConstantExtender_count prefixes index)))
    (λ prefixes, Ret (ConstantExtender_propose value prefixes))
    (λ extensions, Ret (ConstantExtender_validate value extensions)).

(** ** Binary predicates *)

(** The comparison of an extension with the value the prefix binds. *)
Definition predicate_accepts (predicate : BinaryPredicate) (d : Direction) (bound extension : Value)
    : bool :=
  match d with
  | DReverse _ =>
      match predicate with
      | LT => bool_decide (cmp extension bound = Gt)
      | LTE => bool_decide (cmp extension bound ≠ Lt)
      | GT => bool_decide (cmp extension bound = Lt)
      | GTE => bool_decide (cmp extension bound ≠ Gt)
      | EQ => bool_decide (extension = bound)
      | NEQ => bool_decide (extension ≠ bound)
      end
  | DForward _ =>
      match predicate with
      | LT => bool_decide (cmp extension bound = Lt)
      | LTE => bool_decide (cmp extension bound ≠ Gt)
      | GT => bool_decide (cmp extension bound = Gt)
      | GTE => bool_decide (cmp extension bound ≠ Lt)
      | EQ => bool_decide (extension = bound)
      | NEQ => bool_decide (extension ≠ bound)
      end
  end.

Definition direction_offset (d : Direction) : nat :=
  match d with DForward offset | DReverse offset => offset end.

Definition BinaryPredicateExtender_validate (predicate : BinaryPredicate) (d : Direction)
    (extensions : Stream T (P * Value)) : outcome (Stream T (P * Value)) :=
  respondM (λ _ x,
    let! bound := index x.1 (direction_offset d) in
    Ret (if predicate_accepts predicate d bound x.2 then [x] else [])) extensions.
Definition BinaryPredicateExtender (predicate : BinaryPredicate) (d : Direction) : PrefixExtender :=
  mkPrefixExtender
    (λ _ _, Ret None)
    (never "BinaryPredicateExtender should never be asked to propose.")
    (BinaryPredicateExtender_validate predicate d).

(** ** Collections: the key of a prefix is looked up in the three indices *)
Definition CollectionExtender_count (count : Stream T (Value * unit)) (offset : nat)
    (prefixes : Stream T (P * N * N)) (i : N) : outcome (Stream T (P * N * N)) :=
  respondM (λ time x,
    let! key := index x.1.1 offset in Ret (count_lookup (λ _, key) i count time x)) prefixes.
Definition CollectionExtender_propose (propose : Stream T (Value * Value)) (offset : nat)
    (prefixes : Stream T P) : outcome (Stream T (P * Value)) :=
  respondM (λ time prefix,
    let! key := index prefix offset in Ret (propose_lookup (λ _, key) propose time prefix)) prefixes.
Definition CollectionExtender_validate (validate : Stream T (Value * Value * unit)) (offset : nat)
    (extensions : Stream T (P * Value)) : outcome (Stream T (P * Value)) :=
  respondM (λ time x,
    let! key := index x.1 offset in Ret (validate_lookup (λ _, key) validate time x)) extensions.
Definition CollectionExtender (count : Stream T (Value * unit)) (propose : Stream T (Value * Value))
    (validate : Stream T (Value * Value * unit)) (offset : nat) : PrefixExtender :=
  mkPrefixExtender
    (λ prefixes i, let! counts := CollectionExtender_count count offset prefixes i in Ret (Some counts))
    (CollectionExtender_propose propose offset)
    (CollectionExtender_validate validate offset).

(** ** Negations *)
Definition AntijoinExtender_validate (extender : PrefixExtender) (extensions : Stream T (P * Value))
    : outcome (Stream T (P * Value)) :=
  let! validated := e_validate extender extensions in
  Ret (extensions ++ wneg validated).
Definition AntijoinExtender (extender : PrefixExtender) : PrefixExtender :=
  mkPrefixExtender
    (λ _ _, Ret None)
    (never "AntijoinExtender should never be asked to propose.")
    (AntijoinExtender_validate extender).

(** ** [IntoExtender] *)
Definition ConstantBinding_into_extender (self : ConstantBinding) (_ : list Var) : list PrefixExtender :=
  [ConstantExtender (cb_value self)].
Definition BinaryPredicateBinding_into_extender (self : BinaryPredicateBinding) (prefix : list Var)
    : list PrefixExtender :=
  match direction (Vec_binds prefix) (bp_variables self) with
  | Err _ => []
  | Ok d => [BinaryPredicateExtender (bp_predicate self) d]
  end.

(** ** [ProposeExtensionMethod::extend] *)

(** [for (index, extender) in extenders.iter_mut().enumerate()]. *)
Fixpoint count_all (i : N) (extenders : list PrefixExtender) (counts : Stream T (P * N * N))
    : outcome (Stream T (P * N * N)) :=
  match extenders with
  | [] => Ret counts
  | extender :: extenders =>
      let! new_counts := e_count extender counts i in
      count_all (i + 1) extenders (default counts new_counts)
  end.

(** The part of the counts that nominates an extender. *)
Definition nominations (counts : Stream T (P * N * N)) (i : N) : Stream T P :=
  wmap (λ x, (x.1.1.1, x.2)) (wfilter (λ x, (x.1.2 =? i)%N) counts).

(** [for other in (0..extenders.len()).filter(|&x| x != index)]. *)
Definition validate_others (i : nat) (extenders : list PrefixExtender)
    (extensions : Stream T (P * Value)) : outcome (Stream T (P * Value)) :=
  foldl (λ extensions other, let! extensions := extensions in e_validate other extensions)
    (Ret extensions) (snd <$> filter (λ p : nat * PrefixExtender, p.1 ≠ i) (imap pair extenders)).

Definition extend_prefixes (self : Stream T P) (extenders : list PrefixExtender)
    : outcome (Stream T (P * Value)) :=
  match extenders with
  | [] => Panic "No extenders specified."
  | [extender] => e_propose extender self
  | _ =>
      let! counts := count_all 0 extenders (respond (λ _ p, [(p, 2 ^ 31, 0)%N]) self) in
      let! results := mapM_outcome (λ '(i, extender),
          let! extensions := e_propose extender (nominations counts (N.of_nat i)) in
          validate_others i extenders extensions) (imap pair extenders) in
      Ret (concat results)
  end.
End extenders.
Arguments PrefixExtender {_} T.
