(* ===== verification/ExtenderTheorems.v ===== *)
(** * Extending prefixes

    What an extender promises ([extender_ok]), that the four kinds of extenders
    keep their promise, and that [extend_prefixes], whatever extender each prefix
    is sent to, keeps exactly the extensions that all of them accept. *)
From Stdlib Require Import ZArith NArith Lia.
From stdpp Require Import base strings numbers list sets.
From S2P Require Import Prelude Timestamps Values Bindings HectorPlan Weighted Streams Lookups.
From S2P Require Import LookupTheorems Dataflow Domains Relations Extenders.
Local Open Scope Z_scope.

Section extenders.
Context `{EV : ExternValues} {T : Type} `{EqDecision T, PartialOrderT T}.
Implicit Types (p : list Value) (v : Value) (t : T) (e : PrefixExtender T).

(** The counting of an extender that can propose [size t p] values. *)
Definition counting (size : T → list Value → N) (i : N) (t : T) (x : list Value * N * N)
    : list (list Value * N * N) :=
  let '(p, old_count, old_index) := x in
  if (0 <? size t p)%N then
    [if (size t p <? old_count)%N then (p, size t p, i) else (p, old_count, old_index)]
  else [].

(** ** The interface

    On streams of prefixes that satisfy [valid], the methods do not panic;
    [accepts] decides what the extender proposes, and, if it also validates as
    it proposes, what it lets pass; [size], if the extender can propose, bounds
    the proposals in that no value is accepted where it is zero. *)
Section interface.
Context (valid : list Value → Prop).

Record proposes_ok e (accepts : T → list Value → Value → bool)
    (size : option (T → list Value → N)) : Prop := {
  ok_runs : ∀ l : Stream T (list Value * Value), (∀ p v t, (p, v, t) ∈ l.*1 → valid p) →
    ∃ out, e_validate e l = Ret out ∧ out.*1 ⊆ l.*1;
  ok_propose : ∀ l : Stream T (list Value), (∀ p t, (p, t) ∈ l.*1 → valid p) →
    (size = None → l = []) →
    ∃ out, e_propose e l = Ret out ∧ (∀ p v t, (p, v, t) ∈ out.*1 → (p, t) ∈ l.*1) ∧
      ∀ p v t, wt out (p, v, t) = if accepts t p v then wt l (p, t) else 0;
  ok_count : ∀ l i, (∀ p c j t, (p, c, j, t) ∈ l.*1 → valid p) →
    e_count e l i = Ret (match size with
                         | Some size => Some (respond (counting size i) l)
                         | None => None
                         end);
  ok_size : ∀ sz t p v, size = Some sz → valid p → sz t p = 0%N → accepts t p v = false
}.

Definition validates_ok e (accepts : T → list Value → Value → bool) : Prop :=
  ∀ l : Stream T (list Value * Value), (∀ p v t, (p, v, t) ∈ l.*1 → valid p) →
  ∃ out, e_validate e l = Ret out ∧ out.*1 ⊆ l.*1 ∧
    ∀ p v t, wt out (p, v, t) = if accepts t p v then wt l (p, v, t) else 0.

Definition extender_ok e accepts size : Prop := proposes_ok e accepts size ∧ validates_ok e accepts.

Lemma validates_runs e accepts (l : Stream T (list Value * Value)) :
  validates_ok e accepts → (∀ p v t, (p, v, t) ∈ l.*1 → valid p) →
  ∃ out, e_validate e l = Ret out ∧ out.*1 ⊆ l.*1.
Proof. intros Hv Hl. destruct (Hv l Hl) as (out & ? & ? & _). by exists out. Qed.

(** An extender that validates as it proposes, from its four parts. *)
Lemma extender_ok_intro e accepts size :
  validates_ok e accepts →
  (∀ l : Stream T (list Value), (∀ p t, (p, t) ∈ l.*1 → valid p) → (size = None → l = []) →
    ∃ out, e_propose e l = Ret out ∧ (∀ p v t, (p, v, t) ∈ out.*1 → (p, t) ∈ l.*1) ∧
      ∀ p v t, wt out (p, v, t) = if accepts t p v then wt l (p, t) else 0) →
  (∀ l i, (∀ p c j t, (p, c, j, t) ∈ l.*1 → valid p) →
    e_count e l i = Ret (match size with
                         | Some size => Some (respond (counting size i) l)
                         | None => None
                         end)) →
  (∀ sz t p v, size = Some sz → valid p → sz t p = 0%N → accepts t p v = false) →
  extender_ok e accepts size.
Proof. intros Hv Hp Hc Hs. split; [split; [|done..]|done]. intros l Hl. by apply (validates_runs e accepts). Qed.

(** *** Constants *)
Lemma ConstantExtender_ok value :
  extender_ok (ConstantExtender value) (λ _ _ v, bool_decide (v = value)) (Some (λ _ _, 1%N)).
Proof.
  apply extender_ok_intro; simpl.
  - intros l _. eexists. split; [done|]. split.
    + intros x (u & -> & Hu)%list_elem_of_fmap. apply list_elem_of_filter in Hu as [_ Hu].
      by apply list_elem_of_fmap_2.
    + intros p v t. unfold ConstantExtender_validate. by rewrite wt_wfilter.
  - intros l _ _. eexists. split; [done|]. split.
    + intros p v t (x & Hx & Hin)%elem_of_respond. set_solver.
    + intros p v t. unfold ConstantExtender_propose.
      rewrite (wt_respond _ fst (λ _ y, bool_decide (y.2 = value))); [done|..].
      * intros. apply NoDup_singleton.
      * intros t' x [p' v']. simpl. rewrite list_elem_of_singleton, bool_decide_eq_true. naive_solver.
  - done.
  - intros sz t p v [= <-] _ Hz. done.
Qed.

(** *** Filters: an extender that validates by inspecting the extension *)
Lemma filtering_ok (f : T → list Value * Value → outcome (list (list Value * Value)))
    (accepts : T → list Value → Value → bool) l :
  (∀ p v t, (p, v, t) ∈ l.*1 → f t (p, v) = Ret (if accepts t p v then [(p, v)] else [])) →
  ∃ out, respondM f l = Ret out ∧ out.*1 ⊆ l.*1 ∧
    ∀ p v t, wt out (p, v, t) = if accepts t p v then wt l (p, v, t) else 0.
Proof.
  intros Hf. exists (respond (λ t x, if accepts t x.1 x.2 then [x] else []) l). split; [|split].
  - apply respondM_pure. intros [p v] t Hin. by apply Hf.
  - intros [x t] (x' & Hx & Hin)%elem_of_respond. destruct (accepts _ _ _); set_solver.
  - intros p v t. apply (wt_respond _ id (λ t x, accepts t x.1 x.2)).
    + intros t' x. destruct (accepts _ _ _); [apply NoDup_singleton|constructor].
    + intros t' x y. unfold id. destruct (accepts t' x.1 x.2) eqn:Ha.
      * rewrite list_elem_of_singleton. split; [by intros ->|by intros [-> _]].
      * split; [set_solver|]. intros [-> Hb]. congruence.
Qed.

Lemma never_propose msg (accepts : T → list Value → Value → bool) (l : Stream T (list Value)) :
  l = [] → ∃ out : Stream T (list Value * Value), never msg l = Ret out ∧
    (∀ p v t, (p, v, t) ∈ out.*1 → (p, t) ∈ l.*1) ∧
    ∀ p v t, wt out (p, v, t) = if accepts t p v then wt l (p, t) else 0.
Proof.
  intros ->. exists []. split; [done|]. split; [intros p v t; simpl; set_solver|].
  intros p v t. by destruct (accepts _ _ _).
Qed.
(** *** Binary predicates *)
Lemma BinaryPredicateExtender_ok predicate d :
  (∀ p, valid p → is_Some (p !! direction_offset d)) →
  extender_ok (BinaryPredicateExtender predicate d)
    (λ _ p v, match p !! direction_offset d with
              | Some bound => predicate_accepts predicate d bound v | None => false end) None.
Proof.
  intros Hd. apply extender_ok_intro; simpl; [|intros; by apply never_propose; auto|done|done].
  intros l Hl. apply filtering_ok. intros p v t Hin. unfold index. simpl.
  destruct (Hd p) as [bound Hb]; [by eapply Hl|]. by rewrite Hb.
Qed.

(** *** Collections *)
Definition validate_agrees (propose : Stream T (Value * Value))
    (validate : Stream T (Value * Value * unit)) (t : T) : Prop :=
  ∀ k v, 0 < wt (accumulate validate t) (k, v, tt) ↔ 0 < wt (accumulate propose t) (k, v).

Definition count_agrees (count : Stream T (Value * unit)) (propose : Stream T (Value * Value)) (t : T)
    : Prop :=
  ∀ k, wt (accumulate count t) (k, tt) = 0 → ∀ v, wt (accumulate propose t) (k, v) ≤ 0.

Definition propose_holds (propose : Stream T (Value * Value)) (offset : nat) (t : T) p v : bool :=
  match p !! offset with
  | Some k => 0 <? wt (accumulate propose t) (k, v) | None => false end.

Definition key_size (count : Stream T (Value * unit)) (offset : nat) (t : T) (p : list Value) : N :=
  match p !! offset with
  | Some k => as_usize (wt (accumulate count t) (k, tt)) | None => 0%N end.

Lemma as_usize_zero z : in_i64 z → as_usize z = 0%N → z = 0.
Proof.
  unfold as_usize, in_i64. intros Hz Hu.
  assert (z mod 2 ^ 64 = 0) as Hm by (pose proof (Z.mod_pos_bound z (2 ^ 64)); lia).
  apply Z.mod_divide in Hm as [q ->]; [|lia]. nia.
Qed.

(** Validation runs whatever the index holds. *)
Lemma CollectionExtender_filters count propose validate offset l :
  (∀ p, valid p → is_Some (p !! offset)) → (∀ p v t, (p, v, t) ∈ l.*1 → valid p) →
  ∃ out, e_validate (CollectionExtender count propose validate offset) l = Ret out ∧ out.*1 ⊆ l.*1 ∧
    ∀ p v t, wt out (p, v, t) =
      if match p !! offset with
         | Some k => 0 <? wt (accumulate validate t) (k, v, tt) | None => false end
      then wt l (p, v, t) else 0.
Proof.
  intros Hp Hl. apply (filtering_ok _ (λ t p v, match p !! offset with
    | Some k => 0 <? wt (accumulate validate t) (k, v, tt) | None => false end)).
  intros p v t Hin. unfold index, validate_lookup. simpl.
  destruct (Hp p) as [k Hk]; [by eapply Hl|]. by rewrite Hk.
Qed.

Lemma CollectionExtender_validates count propose validate offset :
  (∀ p, valid p → is_Some (p !! offset)) → (∀ t, validate_agrees propose validate t) →
  validates_ok (CollectionExtender count propose validate offset) (propose_holds propose offset).
Proof.
  intros Hp Hv l Hl.
  destruct (CollectionExtender_filters count propose validate offset l Hp Hl) as (out & Hout & Hsub & Hw).
  exists out. split; [done|]. split; [done|]. intros p v t. rewrite Hw. unfold propose_holds.
  destruct (p !! offset) as [k|]; [|done]. specialize (Hv t k v).
  destruct (Z.ltb_spec 0 (wt (accumulate validate t) (k, v, tt))),
    (Z.ltb_spec 0 (wt (accumulate propose t) (k, v))); done || lia.
Qed.

Lemma CollectionExtender_proposes count propose validate offset :
  (∀ p, valid p → is_Some (p !! offset)) → (∀ t, count_agrees count propose t) →
  proposes_ok (CollectionExtender count propose validate offset) (propose_holds propose offset)
    (Some (key_size count offset)).
Proof.
  intros Hp Ha. split; simpl.
  - intros l Hl. destruct (CollectionExtender_filters count propose validate offset l Hp Hl)
      as (out & ? & ? & _). by exists out.
  - intros l Hl _. set (f := λ t p, match p !! offset with
      | Some k => propose_lookup (λ _, k) propose t p | None => [] end).
    exists (respond f l). split; [|split].
    + apply respondM_pure. intros p t Hin. unfold index, f.
      destruct (Hp p) as [k Hk]; [by eapply Hl|]. by rewrite Hk.
    + intros p v t (p' & Hin & Hv)%elem_of_respond. unfold f in Hv.
      destruct (p' !! offset); [|set_solver]. by apply list_elem_of_fmap in Hv as (? & [= -> ->] & _).
    + intros p v t. rewrite (wt_respond f fst (λ t y, propose_holds propose offset t y.1 y.2)); [done|..];
        unfold propose_holds.
      * intros t' p'. unfold f, propose_lookup. destruct (p' !! offset); [|constructor].
        apply NoDup_fmap_2; [by intros ?? [=]|]. apply NoDup_filter, NoDup_remove_dups.
      * intros t' p' [p1 v1]. unfold f, propose_lookup. simpl. split.
        -- destruct (p' !! offset) as [k|] eqn:Hk; [|set_solver].
           intros (? & [= -> ->] & [Hw _]%list_elem_of_filter)%list_elem_of_fmap.
           rewrite Hk. split; [done|]. by apply Z.ltb_lt.
        -- intros [-> Hw]. destruct (p1 !! offset) as [k|]; [|done]. apply Z.ltb_lt in Hw.
           apply list_elem_of_fmap_2, list_elem_of_filter. split; [done|].
           eapply values_of_weight. by apply Z.neq_sym, Z.lt_neq.
  - intros l i Hl. unfold CollectionExtender_count.
    rewrite (respondM_pure _ (counting (key_size count offset) i)); [done|].
    intros [[p c] j] t Hin. unfold index, counting, key_size, count_lookup. simpl.
    destruct (Hp p) as [k Hk]; [by eapply Hl|]. rewrite Hk. simpl.
    generalize (as_usize (wt (accumulate count t) (k, tt))). intros n.
    by destruct (0 <? n)%N, (n <? c)%N.
  - intros sz t p v [= <-] Hv. unfold key_size, propose_holds. destruct (p !! offset) as [k|]; [|done].
    intros Hz. apply as_usize_zero in Hz; [|apply wt_range].
    specialize (Ha t k Hz v). by apply Z.ltb_ge.
Qed.

(** *** Negations *)
Lemma AntijoinExtender_runs e (l : Stream T (list Value * Value)) out :
  e_validate e l = Ret out → out.*1 ⊆ l.*1 →
  ∃ out', AntijoinExtender_validate e l = Ret out' ∧ out'.*1 ⊆ l.*1 ∧
    ∀ x, wt out' x = wrap_i 64 (wt l x - wt out x).
Proof.
  intros Hout Hsub. unfold AntijoinExtender_validate. rewrite Hout. simpl. eexists. split; [done|]. split.
  - intros x. rewrite fmap_app, elem_of_app. unfold wneg. rewrite <- list_fmap_compose.
    change (fst ∘ (λ p0 : list Value * Value * T * Z, (p0.1, wrap_i 64 (- p0.2)))) with
      (fst (A := list Value * Value * T) (B := Z)). intros [|]; [done|]. by apply Hsub.
  - intros x. rewrite wt_app, wt_wneg, Z.add_comm, wrap_i64_add_l. f_equal. lia.
Qed.

Lemma AntijoinExtender_validates e accepts :
  validates_ok e accepts → validates_ok (AntijoinExtender e) (λ t p v, negb (accepts t p v)).
Proof.
  intros He l Hl. destruct (He l Hl) as (out & Hout & Hsub & Hw).
  destruct (AntijoinExtender_runs e l out Hout Hsub) as (out' & Hout' & Hsub' & Hw').
  exists out'. split; [done|]. split; [done|]. intros p v t. rewrite Hw', Hw.
  pose proof (wt_range l (p, v, t)) as Hr. destruct (accepts t p v); simpl.
  - by rewrite Z.sub_diag.
  - rewrite Z.sub_0_r. by apply wrap_i64_id.
Qed.

Lemma AntijoinExtender_proposes e accepts size :
  proposes_ok e accepts size →
  proposes_ok (AntijoinExtender e) (λ t p v, negb (accepts t p v)) None.
Proof.
  intros He. split; simpl; [|intros; by apply never_propose; auto|done|done].
  intros l Hl. destruct (ok_runs _ _ _ He l Hl) as (out & Hout & Hsub).
  destruct (AntijoinExtender_runs e l out Hout Hsub) as (out' & Hout' & Hsub' & _). by exists out'.
Qed.

Lemma AntijoinExtender_ok e accepts size :
  extender_ok e accepts size →
  extender_ok (AntijoinExtender e) (λ t p v, negb (accepts t p v)) None.
Proof.
  intros [Hp Hv]. split; [by eapply AntijoinExtender_proposes|by apply AntijoinExtender_validates].
Qed.

(** ** Extending *)

Abbreviation Spec := ((T → list Value → Value → bool) * option (T → list Value → N))%type (only parsing).
Implicit Types (specs : list Spec) (es : list (PrefixExtender T)).

Definition accepted specs t p v : bool := forallb (λ spec, spec.1 t p v) specs.

(** What counting with every extender makes of a request. *)
Fixpoint choose (sizes : list (option (T → list Value → N))) (i : N) t (x : list Value * N * N)
    : list (list Value * N * N) :=
  match sizes with
  | [] => [x]
  | None :: sizes => choose sizes (i + 1) t x
  | Some size :: sizes => counting size i t x ≫= choose sizes (i + 1) t
  end.

Lemma counting_valid size i (l : Stream T (list Value * N * N)) :
  (∀ p c j t, (p, c, j, t) ∈ l.*1 → valid p) →
  ∀ p c j t, (p, c, j, t) ∈ (respond (counting size i) l).*1 → valid p.
Proof.
  intros Hl p c j t ([[p' c'] j'] & Hin & Hx)%elem_of_respond. unfold counting in Hx.
  assert (p = p') as ->; [|by eapply Hl].
  destruct (0 <? size t p')%N, (size t p' <? c')%N; set_solver.
Qed.

Lemma count_all_spec es specs i l :
  Forall2 (λ e spec, proposes_ok e spec.1 spec.2) es specs →
  (∀ p c j t, (p, c, j, t) ∈ l.*1 → valid p) →
  count_all i es l = Ret (respond (choose specs.*2 i) l).
Proof.
  intros Hes. revert i l. induction Hes as [|e [acc size] es specs He _ IH]; intros i l Hl; simpl.
  { by rewrite respond_singleton. }
  rewrite (ok_count _ _ _ He) by done. destruct size as [size|]; simpl; [|by apply IH].
  rewrite IH by (by apply counting_valid). by rewrite respond_respond.
Qed.

(** The extender that is chosen can propose, unless all have too many values. *)
Lemma choose_spec sizes i t p c j :
  match choose sizes i t (p, c, j) with
  | [] => ∃ size, Some size ∈ sizes ∧ size t p = 0%N
  | [(p', c', j')] => p' = p ∧ (c' ≤ c)%N ∧ (∀ size, Some size ∈ sizes → (c' ≤ size t p)%N) ∧
      ((c', j') = (c, j) ∨
       ∃ k size, sizes !! k = Some (Some size) ∧ j' = (i + N.of_nat k)%N)
  | _ => False
  end.
Proof.
  revert i c j. induction sizes as [|[size|] sizes IH]; intros i c j; simpl.
  - split; [done|]. split; [done|]. split; [set_solver|]. by left.
  - destruct (N.ltb_spec 0 (size t p)) as [Hpos|Hz].
    2: { simpl. exists size. split; [set_solver|lia]. }
    simpl. rewrite app_nil_r. destruct (N.ltb_spec (size t p) c) as [Hlt|Hge].
    + specialize (IH (i + 1)%N (size t p) i).
      destruct (choose sizes (i + 1) t (p, size t p, i)) as [|[[p' c'] j'] [|]]; [set_solver| |done].
      destruct IH as (-> & Hle & Hall & Hj). split; [done|]. split; [lia|]. split; [set_solver|].
      right. destruct Hj as [[= -> ->]|(k & s & Hk & ->)].
      * exists 0%nat, size. split; [done|lia].
      * exists (S k), s. split; [done|lia].
    + specialize (IH (i + 1)%N c j).
      destruct (choose sizes (i + 1) t (p, c, j)) as [|[[p' c'] j'] [|]]; [set_solver| |done].
      destruct IH as (-> & Hle & Hall & Hj). split; [done|]. split; [lia|]. split.
      { intros s [[= ->]|Hs]%elem_of_cons; [lia|by apply Hall]. }
      destruct Hj as [?|(k & s & Hk & ->)]; [by left|]. right. exists (S k), s. split; [done|lia].
  - specialize (IH (i + 1)%N c j).
    destruct (choose sizes (i + 1) t (p, c, j)) as [|[[p' c'] j'] [|]]; [set_solver| |done].
    destruct IH as (-> & Hle & Hall & Hj). split; [done|]. split; [lia|]. split; [set_solver|].
    destruct Hj as [?|(k & s & Hk & ->)]; [by left|]. right. exists (S k), s. split; [done|lia].
Qed.

(** The index of the extender a prefix is sent to. *)
Definition chosen specs t p : option N := snd <$> head (choose specs.*2 0 t (p, 2 ^ 31, 0)%N).

Lemma chosen_spec specs t p :
  valid p → (∃ acc size, (acc, Some size) ∈ specs ∧ (size t p < 2 ^ 31)%N) →
  match chosen specs t p with
  | None => ∃ acc size, (acc, Some size) ∈ specs ∧ size t p = 0%N
  | Some j => ∃ k acc size, specs !! k = Some (acc, Some size) ∧ j = N.of_nat k
  end.
Proof.
  intros Hp (acc & size & Hin & Hlt). unfold chosen.
  pose proof (choose_spec specs.*2 0 t p (2 ^ 31) 0) as Hc.
  destruct (choose _ _ _ _) as [|[[p' c'] j'] [|]]; [| |done]; simpl.
  - destruct Hc as (sz & (spec & Hs & Hsp)%list_elem_of_fmap & Hz). destruct spec as [acc' ?].
    simplify_eq/=. by exists acc', sz.
  - destruct Hc as (_ & _ & Hall & Hj).
    assert (c' ≤ size t p)%N as Hle.
    { apply Hall, list_elem_of_fmap. by exists (acc, Some size). }
    destruct Hj as [[= -> ->]|(k & sz & Hk & ->)]; [lia|].
    rewrite list_lookup_fmap in Hk. destruct (specs !! k) as [[acc' ?]|] eqn:Hs; [|done].
    simplify_eq/=. by exists k, acc', sz.
Qed.

Lemma nominations_respond (f : T → list Value → list (list Value * N * N)) (l : Stream T (list Value)) i :
  nominations (respond f l) i =
  respond (λ t p, (λ y, y.1.1) <$> filter (λ y, (y.2 =? i)%N = true) (f t p)) l.
Proof.
  unfold nominations, wmap, wfilter, respond. induction l as [|[[p t] d] l IH]; [done|].
  rewrite !bind_cons, filter_app, fmap_app, IH. f_equal. simpl.
  induction (f t p) as [|[[p' c] j] ys IHy]; [done|]. rewrite fmap_cons, !filter_cons. simpl.
  destruct (j =? i)%N; [|exact IHy]. csimpl. by f_equal.
Qed.

Lemma wt_nominations specs (l : Stream T (list Value)) i p t :
  wt (nominations (respond (choose specs.*2 0) (respond (λ _ p, [(p, 2 ^ 31, 0)%N]) l)) i) (p, t) =
  if bool_decide (chosen specs t p = Some i) then wt l (p, t) else 0.
Proof.
  rewrite respond_respond, nominations_respond. set (f := λ t p, _ <$> _).
  assert (∀ t p, f t p = if bool_decide (chosen specs t p = Some i) then [p] else []) as Hf.
  { intros t' p'. unfold f, chosen. rewrite bind_cons. simpl. rewrite app_nil_r.
    pose proof (choose_spec specs.*2 0 t' p' (2 ^ 31) 0) as Hc.
    destruct (choose _ _ _ _) as [|[[p1 c1] j1] [|]]; [done| |done]. destruct Hc as [-> _]. simpl.
    rewrite filter_cons. simpl. destruct (N.eqb_spec j1 i) as [->|Hne].
    - by rewrite bool_decide_true.
    - rewrite bool_decide_false by congruence. done. }
  rewrite (wt_respond f id (λ t p, bool_decide (chosen specs t p = Some i))); [done|..].
  - intros t' p'. rewrite Hf. case_bool_decide; [apply NoDup_singleton|constructor].
  - intros t' p' y. rewrite Hf. unfold id. case_bool_decide as Hb; split.
    + intros ->%list_elem_of_singleton. by rewrite bool_decide_true.
    + intros [-> _]. by apply list_elem_of_singleton.
    + set_solver.
    + intros [-> Hb']. by apply bool_decide_eq_true in Hb'.
Qed.

Lemma nominations_elem specs (l : Stream T (list Value)) i p t :
  (p, t) ∈ (nominations (respond (choose specs.*2 0) (respond (λ _ p, [(p, 2 ^ 31, 0)%N]) l)) i).*1 →
  (p, t) ∈ l.*1 ∧ chosen specs t p = Some i.
Proof.
  rewrite respond_respond, nominations_respond. intros (p' & Hin & Hp)%elem_of_respond.
  rewrite bind_cons in Hp. simpl in Hp. rewrite app_nil_r in Hp. unfold chosen.
  pose proof (choose_spec specs.*2 0 t p' (2 ^ 31) 0) as Hc.
  destruct (choose _ _ _ _) as [|[[p1 c1] j1] [|]] eqn:Hch; [set_solver| |done].
  destruct Hc as [-> _]. apply list_elem_of_fmap in Hp as (y & -> & [Hy Hin']%list_elem_of_filter).
  apply list_elem_of_singleton in Hin' as ->. simpl in *. apply N.eqb_eq in Hy as ->.
  by rewrite Hch.
Qed.

(** The elements of a list but one. *)
Definition without {A} (i : nat) (l : list A) : list A :=
  snd <$> filter (λ p : nat * A, p.1 ≠ i) (imap pair l).

Lemma elem_of_without {A} (l : list A) i x : x ∈ without i l ↔ ∃ j, j ≠ i ∧ l !! j = Some x.
Proof.
  unfold without. rewrite list_elem_of_fmap. split.
  - intros ([j y] & -> & [Hj Hin]%list_elem_of_filter). apply elem_of_lookup_imap in Hin as (k & z & [= -> ->] & Hl).
    by exists k.
  - intros (j & Hj & Hl). exists (j, x). split; [done|]. apply list_elem_of_filter. split; [done|].
    apply elem_of_lookup_imap. by exists j, x.
Qed.

Lemma Forall2_without {A B} (R : A → B → Prop) l k i : Forall2 R l k → Forall2 R (without i l) (without i k).
Proof.
  unfold without. intros Hlk. assert (∀ g : nat → nat,
    Forall2 R (snd <$> filter (λ p : nat * A, p.1 ≠ i) (imap (λ n x, (g n, x)) l))
      (snd <$> filter (λ p : nat * B, p.1 ≠ i) (imap (λ n x, (g n, x)) k))) as Hg; [|exact (Hg id)].
  induction Hlk as [|x y l k Hxy _ IH]; intros g; [constructor|]. rewrite !imap_cons, !filter_cons.
  simpl. specialize (IH (g ∘ S)). case_decide; [by constructor|done].
Qed.

Lemma validate_chain es specs (l : Stream T (list Value * Value)) :
  Forall2 (λ e spec, validates_ok e spec.1) es specs →
  (∀ p v t, (p, v, t) ∈ l.*1 → valid p) →
  ∃ out, foldl (λ m other, let! x := m in e_validate other x) (Ret l) es = Ret out ∧
    out.*1 ⊆ l.*1 ∧ ∀ p v t, wt out (p, v, t) = if accepted specs t p v then wt l (p, v, t) else 0.
Proof.
  intros Hes. revert l. induction Hes as [|e [acc size] es specs He _ IH]; intros l Hl; simpl.
  { by exists l. }
  destruct (He l Hl) as (out & -> & Hsub & Hw).
  destruct (IH out) as (out' & Hout' & Hsub' & Hw').
  { intros p v t Hin. eapply Hl. by apply Hsub. }
  exists out'. split; [done|]. split; [by transitivity (out.*1)|]. intros p v t. rewrite Hw', Hw. unfold accepted. simpl.
  by destruct (acc t p v), (forallb _ _).
Qed.

Lemma accepted_without specs k acc size t p v :
  specs !! k = Some (acc, size) →
  accepted specs t p v = acc t p v && accepted (without k specs) t p v.
Proof.
  intros Hk. apply eq_true_iff_eq. unfold accepted.
  rewrite andb_true_iff, !forallb_forall. setoid_rewrite <- list_elem_of_In. split.
  - intros Hall. split; [by apply (Hall (acc, size)), list_elem_of_lookup; exists k|].
    intros x (j & _ & Hj)%elem_of_without. apply Hall, list_elem_of_lookup. by exists j.
  - intros [Hacc Hall] x [j Hj]%list_elem_of_lookup. destruct (decide (j = k)) as [->|Hne].
    + by simplify_eq/=.
    + apply Hall, elem_of_without. by exists j.
Qed.

(** Without extensions, there is nothing to validate. *)
Lemma validate_nothing es specs :
  Forall2 (λ e spec, proposes_ok e spec.1 spec.2) es specs →
  foldl (λ m other, let! x := m in e_validate other x) (Ret ([] : Stream T (list Value * Value))) es = Ret [].
Proof.
  induction 1 as [|e spec es specs He _ IH]; [done|]. simpl.
  destruct (ok_runs _ _ _ He []) as (out & -> & Hsub); [set_solver|].
  assert (out = []) as ->; [|done]. destruct out as [|u out]; [done|].
  exfalso. apply (not_elem_of_nil u.1), Hsub. by left.
Qed.

(** Every extender that may be asked to validate the proposals of another one
    validates as it proposes. *)
Definition validated es specs : Prop :=
  ∀ i e spec, es !! i = Some e → specs !! i = Some spec →
    validates_ok e spec.1 ∨ ∀ j acc size, specs !! j = Some (acc, Some size) → j = i.

Lemma validated_without es specs k acc size :
  validated es specs → Forall2 (λ e spec, proposes_ok e spec.1 spec.2) es specs →
  specs !! k = Some (acc, Some size) →
  Forall2 (λ e spec, validates_ok e spec.1) (without k es) (without k specs).
Proof.
  intros Hv Hes Hk.
  unfold without. set (Q := λ (x : nat * PrefixExtender T) (y : nat * Spec), x.1 = y.1 ∧
    (x.1 ≠ k → validates_ok x.2 y.2.1)).
  assert (Forall2 Q (imap pair es) (imap pair specs)) as HQ.
  { apply Forall2_same_length_lookup. split; [by rewrite !length_imap, (Forall2_length _ _ _ Hes)|].
    intros i x y Hx Hy. rewrite !list_lookup_imap in *.
    destruct (es !! i) as [e|] eqn:He, (specs !! i) as [spec|] eqn:Hs; simplify_eq/=.
    split; [done|]. simpl. intros Hi. destruct (Hv i e spec He Hs) as [|Hno]; [done|].
    by destruct Hi; symmetry; eapply Hno. }
  clear -HQ. induction HQ as [|x y l l' [Hxy Hq] _ IH]; [constructor|]. rewrite !filter_cons, <- Hxy.
  case_decide as Hi; [|exact IH]. constructor; [by apply Hq|exact IH].
Qed.

(** What one of several extenders contributes. *)
Lemma extender_result es specs (l : Stream T (list Value)) k e :
  Forall2 (λ e spec, proposes_ok e spec.1 spec.2) es specs → validated es specs →
  (∀ p t, (p, t) ∈ l.*1 → valid p) →
  (∀ p t, valid p → ∃ acc size, (acc, Some size) ∈ specs ∧ (size t p < 2 ^ 31)%N) →
  es !! k = Some e →
  let counts := respond (choose specs.*2 0) (respond (λ _ p, [(p, 2 ^ 31, 0)%N]) l) in
  ∃ out, (let! extensions := e_propose e (nominations counts (N.of_nat k)) in
          validate_others k es extensions) = Ret out ∧
    (∀ p v t, (p, v, t) ∈ out.*1 → (p, t) ∈ l.*1) ∧
    ∀ p v t, wt out (p, v, t) =
      if bool_decide (chosen specs t p = Some (N.of_nat k)) && accepted specs t p v
      then wt l (p, t) else 0.
Proof.
  intros Hes Hv Hl Hsz Hk counts. destruct (Forall2_lookup_l _ _ _ _ _ Hes Hk) as ([acc size] & Hs & He).
  assert (size = None → nominations counts (N.of_nat k) = []) as Hnom.
  { intros Hnone. simpl in Hnone. subst size. apply elem_of_nil_inv. intros [[p t] d] Hin.
    apply (list_elem_of_fmap_2 fst) in Hin. simpl in Hin. apply nominations_elem in Hin as [Hin Hc].
    pose proof (chosen_spec specs t p (Hl _ _ Hin) (Hsz p t (Hl _ _ Hin))) as Hch. rewrite Hc in Hch.
    destruct Hch as (j & acc' & sz & Hj & Heq%Nat2N.inj). subst j. congruence. }
  destruct (ok_propose _ _ _ He (nominations counts (N.of_nat k))) as (out & -> & Hsub & Hw);
    [intros p t [Hin _]%nominations_elem; by eapply Hl|done|]. cbn [obind].
  assert (∃ out', validate_others k es out = Ret out' ∧ out'.*1 ⊆ out.*1 ∧ ∀ p v t,
    wt out' (p, v, t) = if accepted (without k specs) t p v then wt out (p, v, t) else 0)
    as (out' & Hout' & Hsub' & Hw').
  { destruct size as [size|].
    - apply validate_chain; [by apply (validated_without es specs k acc size)|].
      intros p v t Hin%Hsub. apply nominations_elem in Hin as [Hin _]. by eapply Hl.
    - assert (out = []) as ->.
      { rewrite (Hnom eq_refl) in Hsub. destruct out as [|[[[p v] t] z] out]; [done|].
        exfalso. apply (not_elem_of_nil (p, t)), (Hsub p v t). by left. }
      exists []. split; [|split; [done|intros; by destruct (accepted _ _ _ _)]].
      apply (validate_nothing _ _ (Forall2_without _ _ _ k Hes)). }
  exists out'. split; [exact Hout'|]. split.
  { intros p v t Hin%Hsub'%Hsub. by apply nominations_elem in Hin as [Hin _]. }
  intros p v t.
  rewrite Hw', Hw, (accepted_without specs k acc size) by done. unfold counts. rewrite wt_nominations.
  simpl. by destruct (accepted _ _ _ _), (acc t p v), (bool_decide _).
Qed.

(** (extension is intersection).  Let every extender propose as promised on the
    prefixes of a stream, and validate so too if another one can propose, and let
    some extender that can propose have fewer than 2^31 values for each.  Then extending does not panic, and an extension has
    the weight of its prefix, at the same time, if every extender accepts it,
    and no weight otherwise, whichever extender proposed it. *)
Theorem extend_prefixes_spec es specs (l : Stream T (list Value)) :
  Forall2 (λ e spec, proposes_ok e spec.1 spec.2) es specs → validated es specs →
  (∀ p t, (p, t) ∈ l.*1 → valid p) →
  (∃ acc size, (acc, Some size) ∈ specs) →
  (∀ p t, valid p → ∃ acc size, (acc, Some size) ∈ specs ∧ (size t p < 2 ^ 31)%N) →
  ∃ out, extend_prefixes l es = Ret out ∧ (∀ p v t, (p, v, t) ∈ out.*1 → (p, t) ∈ l.*1) ∧
    ∀ p v t, valid p → wt out (p, v, t) = if accepted specs t p v then wt l (p, t) else 0.
Proof.
  intros Hes Hv Hl (acc0 & size0 & Hin0) Hsz. destruct es as [|e [|e' es]].
  { apply Forall2_nil_inv_l in Hes as ->. set_solver. }
  { apply Forall2_cons_inv_l in Hes as ([acc size] & k & He & ->%Forall2_nil_inv_l & ->).
    apply list_elem_of_singleton in Hin0 as [= <- <-].
    destruct (ok_propose _ _ _ He l Hl) as (out & Hout & Hsub & Hw); [done|].
    exists out. split; [done|]. split; [done|]. intros p v t _. rewrite Hw. unfold accepted. simpl. by rewrite andb_true_r. }
  set (ess := e :: e' :: es) in *. unfold extend_prefixes at 1. unfold ess at 1.
  rewrite (count_all_spec ess specs) by first [done | intros p c j t (x & Hx & Heq)%elem_of_respond;
    apply list_elem_of_singleton in Heq; simplify_eq; by eapply Hl].
  set (counts := respond (choose specs.*2 0) _). cbn [obind].
  destruct (mapM_outcome_exists (λ '(i, extender),
      let! extensions := e_propose extender (nominations counts (N.of_nat i)) in
      validate_others i ess extensions)
    (λ k out, (∀ p v t, (p, v, t) ∈ out.*1 → (p, t) ∈ l.*1) ∧ ∀ p v t, wt out (p, v, t) =
       if bool_decide (chosen specs t p = Some (N.of_nat k)) && accepted specs t p v
       then wt l (p, t) else 0) (imap pair ess)) as (results & -> & Hlen & Hres).
  { intros k x Hx. rewrite list_lookup_imap in Hx. destruct (ess !! k) as [ek|] eqn:Hek; [|done].
    simplify_eq/=. by apply extender_result. }
  rewrite length_imap in Hlen. cbn [obind]. eexists. split; [done|]. split.
  { intros p v t (u & Hu & (out & Hin & Hout)%list_elem_of_In%in_concat)%list_elem_of_fmap.
    apply list_elem_of_In, list_elem_of_lookup in Hin as [i Hi]. apply list_elem_of_In in Hout.
    apply (proj1 (Hres i out Hi) p v). rewrite Hu. by apply list_elem_of_fmap_2. }
  assert (∀ i out, results !! i = Some out → ∀ p v t, wt out (p, v, t) =
    if bool_decide (chosen specs t p = Some (N.of_nat i)) && accepted specs t p v
    then wt l (p, t) else 0) as Hw by (intros i out Hi; by apply Hres).
  clear Hres. intros p v t Hp.
  pose proof (chosen_spec specs t p Hp (Hsz p t Hp)) as Hc.
  destruct (chosen specs t p) as [j|] eqn:Hch.
  - destruct Hc as (k & acc & size & Hk & ->).
    rewrite (wt_concat_one results (p, v, t) k (if accepted specs t p v then wt l (p, t) else 0)).
    + rewrite decide_True; [done|]. rewrite Hlen, (Forall2_length _ _ _ Hes). by eapply lookup_lt_Some.
    + destruct (accepted specs t p v); [apply wt_range|]. unfold in_i64. lia.
    + intros i out Hi. rewrite (Hw i out Hi), Hch. case_decide as Hik.
      * subst i. by rewrite bool_decide_true.
      * rewrite bool_decide_false; [done|]. intros [= ?%Nat2N.inj]. congruence.
  - destruct Hc as (acc & size & Hin & Hz). rewrite wt_concat_zero.
    + apply list_elem_of_lookup in Hin as [k Hk].
      destruct (Forall2_lookup_r _ _ _ _ _ Hes Hk) as (ek & _ & Hek).
      rewrite (accepted_without specs k acc (Some size)) by done.
      pose proof (ok_size _ _ _ Hek size t p v) as Ha. simpl in Ha. by rewrite Ha.
    + intros out [i Hi]%list_elem_of_lookup. by rewrite (Hw i out Hi), Hch.
Qed.
End interface.
End extenders.
