(* ===== verification/RelationTheorems.v ===== *)
(** * Relations: projections and keys

    Projecting a relation and partitioning its tuples by variables, for
    collections and for attributes, agree with what they mean on assignments of
    values to variables. *)
From Stdlib Require Import ZArith NArith Lia.
From stdpp Require Import base strings numbers list gmap sets.
From S2P Require Import Prelude Timestamps Values Bindings Sessions Weighted Dataflow Domains.
From S2P Require Import Relations.

Section tuples.
Context `{EV : ExternValues}.
Implicit Types (vs ks : list Var) (t : list Value) (σ : Var → Value).

(** The value a tuple gives to a variable of its relation. *)
Definition env vs t (x : Var) : Value := default (VEid 0) (i ← Vec_binds vs x; t !! i).

Definition project vs ks t : list Value := env vs t <$> ks.

Definition other_variables vs ks : list Var := filter (λ x, x ∉ ks) vs.

(** A tuple split into the values of its key and the others. *)
Definition keyed vs ks t : list Value * list Value :=
  (project vs ks t, project vs (other_variables vs ks) t).

Lemma env_lookup vs t x :
  x ∈ vs → length t = length vs → ∃ i, Vec_binds vs x = Some i ∧ t !! i = Some (env vs t x).
Proof.
  intros Hx Hlen. unfold env. destruct (Vec_binds vs x) as [i|] eqn:Hi.
  - exists i. split; [done|]. simpl. pose proof (Vec_binds_Some _ _ _ Hi) as Hv.
    destruct (t !! i) eqn:Ht; [done|]. apply lookup_ge_None in Ht.
    apply lookup_lt_Some in Hv. lia.
  - by apply Vec_binds_None in Hi.
Qed.

Lemma env_at vs t i x : NoDup vs → length t = length vs → vs !! i = Some x →
  t !! i = Some (env vs t x).
Proof.
  intros Hnd Hlen Hi. destruct (env_lookup vs t x) as (j & Hj & Ht);
    [by eapply list_elem_of_lookup_2|done|].
  rewrite (Vec_binds_NoDup _ _ _ Hnd Hi) in Hj. by simplify_eq.
Qed.

Lemma project_self vs t : NoDup vs → length t = length vs → project vs vs t = t.
Proof.
  intros Hnd Hlen. unfold project. apply list_eq. intros i. rewrite list_lookup_fmap.
  destruct (vs !! i) as [x|] eqn:Hx; simpl; [by rewrite (env_at vs t i x)|].
  symmetry. apply lookup_ge_None. apply lookup_ge_None in Hx. lia.
Qed.

Lemma env_assignment vs σ x : x ∈ vs → env vs (σ <$> vs) x = σ x.
Proof.
  intros Hx. destruct (env_lookup vs (σ <$> vs) x Hx) as (i & Hi & Hv); [by rewrite length_fmap|].
  rewrite list_lookup_fmap, (Vec_binds_Some _ _ _ Hi) in Hv. simpl in Hv. congruence.
Qed.

Lemma env_cons y vs v t x : env (y :: vs) (v :: t) x = if decide (x = y) then v else env vs t x.
Proof.
  unfold env, Vec_binds. simpl. destruct (N.eqb_spec x y) as [->|Hne]; [by rewrite decide_True|].
  rewrite decide_False by done. by destruct (position _ vs).
Qed.

(** The value of a variable in a tuple put together from two. *)
Lemma env_app vs vs' t t' x :
  length t = length vs → env (vs ++ vs') (t ++ t') x = if decide (x ∈ vs) then env vs t x else env vs' t' x.
Proof.
  revert t. induction vs as [|y vs IH]; intros [|v t]; simpl; try done; intros [= Hlen].
  rewrite !env_cons, IH by done. repeat case_decide; set_solver.
Qed.

Lemma env_project vs ks t x : x ∈ ks → env ks (project vs ks t) x = env vs t x.
Proof. apply (env_assignment ks (env vs t)). Qed.

(** The values of a variable in the tuples of a relation, cancelled or not. *)
Definition column vs (l : wlist (list Value)) (x : Var) : list Value := (λ t, env vs t x) <$> l.*1.

Lemma elem_of_column vs l x v : v ∈ column vs l x ↔ ∃ t, t ∈ l.*1 ∧ v = env vs t x.
Proof. unfold column. rewrite list_elem_of_fmap. naive_solver. Qed.

Lemma column_records vs l k x v : l.*1 ⊆ k.*1 → v ∈ column vs l x → v ∈ column vs k x.
Proof. rewrite !elem_of_column. intros Hlk (t & Ht & ->). exists t. auto. Qed.

(** Mapping tuples without changing the value of a variable. *)
Lemma column_wmap vs vs' (f : list Value → list Value) l k x v :
  k ≡ₚ wmap f l → (∀ t, t ∈ l.*1 → env vs' (f t) x = env vs t x) →
  v ∈ column vs' k x → v ∈ column vs l x.
Proof.
  intros Hk Hf. rewrite !elem_of_column. intros (t & Ht & ->). rewrite Hk in Ht.
  apply elem_of_wmap in Ht as (t0 & -> & Ht0). exists t0. auto.
Qed.

Lemma project_assignment vs ks σ : ks ⊆ vs → project vs ks (σ <$> vs) = σ <$> ks.
Proof.
  intros Hks. unfold project. apply list_fmap_ext. intros i x Hx. apply env_assignment.
  apply Hks. by eapply list_elem_of_lookup_2.
Qed.

Lemma other_variables_subset vs ks : other_variables vs ks ⊆ vs.
Proof. unfold other_variables. intros x. rewrite list_elem_of_filter. tauto. Qed.

Lemma other_variables_cons vs ks x :
  other_variables (x :: vs) ks =
  if decide (x ∈ ks) then other_variables vs ks else x :: other_variables vs ks.
Proof.
  unfold other_variables. rewrite filter_cons. repeat case_decide; tauto.
Qed.

Lemma other_variables_pair e v :
  e ≠ v → other_variables [e; v] [e; v] = [] ∧ other_variables [e; v] [v; e] = [] ∧
    other_variables [e; v] [e] = [v] ∧ other_variables [e; v] [v] = [e].
Proof.
  intros Hne. assert (other_variables [] = λ ks, []) as Hn by done.
  split_and!; rewrite !other_variables_cons, Hn; repeat case_decide; try done; exfalso; set_solver.
Qed.

Lemma other_variables_self vs : other_variables vs vs = [].
Proof.
  apply elem_of_nil_inv. intros x. unfold other_variables. rewrite list_elem_of_filter. tauto.
Qed.
Lemma other_variables_nil vs : other_variables vs [] = vs.
Proof.
  induction vs as [|x vs IH]; [done|]. rewrite other_variables_cons, IH.
  by rewrite decide_False by set_solver.
Qed.

Lemma keyed_assignment vs ks σ :
  ks ⊆ vs → keyed vs ks (σ <$> vs) = (σ <$> ks, σ <$> other_variables vs ks).
Proof.
  intros Hks. unfold keyed. rewrite !project_assignment; auto using other_variables_subset.
Qed.

Lemma fmap_agree {A B} (f g : A → B) (l : list A) : f <$> l = g <$> l ↔ ∀ x, x ∈ l → f x = g x.
Proof.
  split.
  - intros Hfg x [i Hi]%list_elem_of_lookup. apply (f_equal (.!! i)) in Hfg.
    rewrite !list_lookup_fmap, Hi in Hfg. simpl in Hfg. congruence.
  - intros Hfg. apply list_fmap_ext. intros i x Hi. apply Hfg. by eapply list_elem_of_lookup_2.
Qed.

(** A tuple is determined by its key and its other values. *)
Lemma keyed_inj vs ks t σ :
  NoDup vs → length t = length vs → ks ⊆ vs →
  keyed vs ks t = keyed vs ks (σ <$> vs) → t = σ <$> vs.
Proof.
  intros Hnd Hlen Hks. rewrite keyed_assignment by done. unfold keyed, project.
  intros [= Hk Ho]. rewrite <- (project_self vs t Hnd Hlen). unfold project.
  apply fmap_agree. intros x Hx. rewrite fmap_agree in Hk, Ho.
  destruct (decide (x ∈ ks)); [auto|]. apply Ho. unfold other_variables.
  by rewrite list_elem_of_filter.
Qed.

(** Keying the tuples keeps the weights of assignments. *)
Lemma keyed_weight vs ks (l : wlist (list Value)) σ :
  NoDup vs → ks ⊆ vs → (∀ t, t ∈ l.*1 → length t = length vs) →
  wt (wmap (keyed vs ks) l) (σ <$> ks, σ <$> other_variables vs ks) = wt l (σ <$> vs).
Proof.
  intros Hnd Hks Hlen. rewrite <- keyed_assignment by done.
  apply wt_wmap_inj. intros t Ht. apply keyed_inj; auto.
Qed.

(** *** The closures of [projected] and [tuples_by_variables] *)

Lemma project_closure_pure vs ks t :
  ks ⊆ vs → length t = length vs → project_closure vs ks t = Ret (project vs ks t).
Proof.
  intros Hks Hlen. unfold project_closure, project. apply mapM_outcome_pure. intros x Hx.
  destruct (env_lookup vs t x (Hks x Hx) Hlen) as (i & -> & Ht). simpl. unfold index.
  by rewrite Ht.
Qed.

Lemma mapM_index vs t (ixs : list (nat * Var)) :
  NoDup vs → length t = length vs → (∀ i x, (i, x) ∈ ixs → vs !! i = Some x) →
  mapM_outcome (index t) ixs.*1 = Ret (env vs t <$> ixs.*2).
Proof.
  intros Hnd Hlen. induction ixs as [|[i x] ixs IH]; intros Hix; [done|]. csimpl.
  assert (index t i = Ret (env vs t x)) as ->.
  { unfold index. rewrite (env_at vs t i x); [done|done|done|]. apply Hix. set_solver. }
  rewrite IH by set_solver. done.
Qed.

Lemma imap_pair_elem {A} (f : nat → nat) (l : list A) i x :
  (i, x) ∈ imap (λ j, pair (f j)) l → ∃ j, i = f j ∧ l !! j = Some x.
Proof.
  revert f; induction l as [|y l IH]; intros f; [set_solver|]. rewrite imap_cons.
  rewrite elem_of_cons. intros [[= -> ->]|Hin]; [by exists 0|].
  destruct (IH (f ∘ S)) as (j & -> & Hj); [exact Hin|]. by exists (S j).
Qed.

Lemma filter_imap_snd (P : Var → Prop) `{∀ x, Decision (P x)} (f : nat → nat) vs :
  (filter (λ p : nat * Var, P p.2) (imap (λ j, pair (f j)) vs)).*2 = filter P vs.
Proof.
  revert f; induction vs as [|x vs IH]; intros f; [done|]. rewrite imap_cons, !filter_cons. simpl.
  pose proof (IH (f ∘ S)) as IH'. destruct (decide (P x)); csimpl; [f_equal|]; exact IH'.
Qed.

Lemma key_offsets_pure vs ks :
  ks ⊆ vs → ∃ ixs : list (nat * Var), ixs.*2 = ks ∧ (∀ i x, (i, x) ∈ ixs → vs !! i = Some x) ∧
    ∀ msg, mapM_outcome (λ x, expect msg (Vec_binds vs x)) ks = Ret ixs.*1.
Proof.
  induction ks as [|x ks IH]; intros Hks.
  - exists []. split_and!; [done|set_solver|done].
  - destruct IH as (ixs & <- & Hix & Hm); [set_solver|].
    assert (x ∈ vs) as Hx by set_solver.
    destruct (Vec_binds vs x) as [i|] eqn:Hi; [|by apply Vec_binds_None in Hi].
    exists ((i, x) :: ixs). split_and!; [done| |].
    + intros j y [[= -> ->]|Hin]%elem_of_cons; [by apply Vec_binds_Some|by apply Hix].
    + intros msg. csimpl. rewrite Hi, Hm. done.
Qed.
End tuples.

Section relation_theorems.
Context `{EV : ExternValues, DF : Differential}.
Context {T : Type} `{TR : !Traces T} {Rule : Type}.
Implicit Types (rel : Implemented) (d : Domain T Rule) (ks : list Var).

(** The tuples of a relation, in the order of its variables. *)
Definition rel_run rel d : outcome (wlist (list Value)) :=
  match rel with
  | ICollection r => run (cr_tuples r)
  | IAttribute b =>
      let! '(c, _) := import_propose d (source_attribute b) in
      let! l := run c in
      Ret (wmap (λ ev, [ev.1; ev.2]) l)
  end.

(** No variable occurs twice, and every tuple has one value per variable. *)
Definition relation_wf rel d : Prop :=
  NoDup (Implemented_variables rel) ∧
  ∀ l t, rel_run rel d = Ret l → t ∈ l.*1 → length t = length (Implemented_variables rel).

(** The variable lists an attribute can be projected to or keyed by. *)
Definition attribute_keys (b : AttributeBinding) : list (list Var) :=
  let '(e, v) := ab_variables b in [[e; v]; [v; e]; [e]; [v]].

(** Building the relation's dataflow panics: only for an attribute, when it has
    no index or for other variable lists than [attribute_keys]. *)
Definition attribute_refuses rel d ks : Prop :=
  match rel with
  | ICollection _ => False
  | IAttribute b => forward_propose d !! source_attribute b = None ∨ ks ∉ attribute_keys b
  end.

(** Keying it panics also for more variables than the relation has. *)
Definition keying_refuses rel d ks : Prop :=
  attribute_refuses rel d ks ∨ (length (Implemented_variables rel) < length ks)%nat.

Lemma distinct_keys_fit (ks vs : list Var) : NoDup ks → ks ⊆ vs → (length ks ≤ length vs)%nat.
Proof. intros Hnd Hks. apply submseteq_length, NoDup_submseteq; [done|]. intros x Hx. by apply Hks. Qed.

Lemma distinct_keys_accepted rel d ks :
  NoDup ks → ks ⊆ Implemented_variables rel → ¬ attribute_refuses rel d ks → ¬ keying_refuses rel d ks.
Proof. intros Hnd Hks Href [?|Hlt]; [done|]. pose proof (distinct_keys_fit ks _ Hnd Hks). lia. Qed.

Lemma run_map_perm {D D'} (f : D → outcome D') (g : D → D') (c : Collection D Z) :
  (∀ l x, run c = Ret l → x ∈ l.*1 → f x = Ret (g x)) →
  run_rel (≡ₚ) (run (c_map f c)) (let! l := run c in Ret (wmap g l)).
Proof.
  intros Hf. pose proof (run_map f c) as Hm. destruct (run c) as [l|msg] eqn:Hc; simpl in *.
  - destruct (run_map_pure f g c l Hc) as (l' & -> & Hl'); [by intros; eapply Hf|done].
  - by destruct (run (c_map f c)).
Qed.

Lemma run_rel_ret_map {A B} (R : A → B → Prop) (m : outcome A) (g : A → B) :
  (∀ a, m = Ret a → R a (g a)) → run_rel R m (let! a := m in Ret (g a)).
Proof. destruct m; simpl; auto. Qed.

Lemma wmap_project_self vs (l : wlist (list Value)) :
  NoDup vs → (∀ t, t ∈ l.*1 → length t = length vs) → wmap (project vs vs) l = l.
Proof.
  intros Hnd Hlen. unfold wmap. rewrite <- (list_fmap_id l) at 2. apply list_fmap_ext.
  intros i [t w] Hi. simpl. rewrite project_self; [done|done|]. apply Hlen.
  apply list_elem_of_fmap. exists (t, w). split; [done|]. by eapply list_elem_of_lookup_2.
Qed.

Lemma pair_env (b : AttributeBinding) e v (x y : Value) :
  ab_variables b = (e, v) → e ≠ v →
  env [e; v] [x; y] e = x ∧ env [e; v] [x; y] v = y.
Proof.
  intros _ Hne. unfold env, Vec_binds. simpl. rewrite !N.eqb_refl. simpl.
  assert ((v =? e)%N = false) as -> by (by apply N.eqb_neq). done.
Qed.

(** One dispatch of an attribute on the requested variables. *)
Lemma attribute_case {D} (f g : Value * Value → D)
    (c : Collection (Value * Value) Z) :
  (∀ ev, f ev = g ev) →
  run_rel (≡ₚ) (run (c_map (λ ev, Ret (f ev)) c)) (let! l := run c in Ret (wmap g l)).
Proof. intros Hfg. apply run_map_perm. intros. by rewrite Hfg. Qed.

Lemma wmap_wmap {A B C} (f : A → B) (g : B → C) (l : wlist A) : wmap g (wmap f l) = wmap (g ∘ f) l.
Proof. unfold wmap. by rewrite <- list_fmap_compose. Qed.

Lemma projected_cases rel d ks :
  relation_wf rel d → ks ⊆ Implemented_variables rel →
  match Implemented_projected rel d ks with
  | Ret (c, _) => run_rel (≡ₚ) (run c)
      (let! l := rel_run rel d in Ret (wmap (project (Implemented_variables rel) ks) l))
  | Panic _ => attribute_refuses rel d ks
  end.
Proof.
  intros [Hnd Hlen] Hks. destruct rel as [b|r]; simpl.
  - unfold AttributeBinding_projected, import_propose, Domain_forward_propose.
    destruct (forward_propose d !! source_attribute b) as [tr|] eqn:Htr; simpl; [|by left].
    destruct (import_frontier tr (source_attribute b)) as [c btn] eqn:Himp. simpl.
    unfold AttributeBinding_variables, pair_variables. simpl in Hnd.
    unfold AttributeBinding_variables, pair_variables in Hnd.
    destruct (ab_variables b) as [e v] eqn:Hb. simpl in *.
    assert (e ≠ v) as Hev by (apply NoDup_cons in Hnd as [Hn _]; set_solver).
    pose proof (λ x y, proj1 (pair_env b e v x y Hb Hev)) as Hx.
    pose proof (λ x y, proj2 (pair_env b e v x y Hb Hev)) as Hy.
    assert (∀ m : outcome (wlist (Value * Value)),
      (let! l := (let! l := m in Ret (wmap (λ ev, [ev.1; ev.2]) l)) in
       Ret (wmap (project [e; v] ks) l)) =
      (let! l := m in Ret (wmap (project [e; v] ks ∘ (λ ev, [ev.1; ev.2])) l))) as ->.
    { intros [l|]; simpl; [|done]. by rewrite wmap_wmap. }
    repeat case_bool_decide; subst; simpl;
      try (apply attribute_case; intros ev; unfold compose, project; csimpl;
           rewrite ?Hx, ?Hy; done).
    right. unfold attribute_keys. rewrite Hb. set_solver.
  - unfold CollectionRelation_projected, CollectionRelation_variables. case_bool_decide as Heq; simpl.
    + subst ks. apply run_rel_ret_map. intros l Hl.
      rewrite wmap_project_self; [done|done|]. intros t. by apply Hlen.
    + apply run_map_perm. intros l t Hl Ht. apply project_closure_pure; [done|].
      by eapply Hlen.
Qed.

Lemma tuples_by_variables_cases rel d ks :
  relation_wf rel d → ks ⊆ Implemented_variables rel →
  match Implemented_tuples_by_variables rel d ks with
  | Ret (c, _) => run_rel (≡ₚ) (run c)
      (let! l := rel_run rel d in Ret (wmap (keyed (Implemented_variables rel) ks) l))
  | Panic _ => keying_refuses rel d ks
  end.
Proof.
  intros [Hnd Hlen] Hks. destruct rel as [b|r]; simpl.
  - unfold AttributeBinding_tuples_by_variables, import_propose, Domain_forward_propose.
    destruct (forward_propose d !! source_attribute b) as [tr|] eqn:Htr; simpl; [|by left; left].
    destruct (import_frontier tr (source_attribute b)) as [c btn] eqn:Himp. simpl.
    unfold AttributeBinding_variables, pair_variables. simpl in Hnd.
    unfold AttributeBinding_variables, pair_variables in Hnd.
    destruct (ab_variables b) as [e v] eqn:Hb. simpl in *.
    assert (e ≠ v) as Hev by (apply NoDup_cons in Hnd as [Hn _]; set_solver).
    destruct (other_variables_pair e v Hev) as (Ho1 & Ho2 & Ho3 & Ho4).
    pose proof (λ x y, proj1 (pair_env b e v x y Hb Hev)) as Hx.
    pose proof (λ x y, proj2 (pair_env b e v x y Hb Hev)) as Hy.
    assert (∀ m : outcome (wlist (Value * Value)),
      (let! l := (let! l := m in Ret (wmap (λ ev, [ev.1; ev.2]) l)) in
       Ret (wmap (keyed [e; v] ks) l)) =
      (let! l := m in Ret (wmap (keyed [e; v] ks ∘ (λ ev, [ev.1; ev.2])) l))) as ->.
    { intros [l|]; simpl; [|done]. by rewrite wmap_wmap. }
    repeat case_bool_decide; subst; simpl;
      try (apply attribute_case; intros ev; unfold compose, keyed, project;
           rewrite ?Ho1, ?Ho2, ?Ho3, ?Ho4; csimpl; rewrite ?Hx, ?Hy; done).
    left. right. unfold attribute_keys. rewrite Hb. set_solver.
  - unfold CollectionRelation_tuples_by_variables, CollectionRelation_variables.
    unfold CollectionRelation_binds. simpl in *. unfold CollectionRelation_variables in *.
    set (vs := cr_variables r) in *. case_bool_decide as Heq; [subst ks; simpl|].
    { apply run_map_perm. intros l t Hl Ht. unfold keyed. rewrite project_self by (eauto).
      by rewrite other_variables_self. }
    case_bool_decide as Hnil; [subst ks; simpl|].
    { apply run_map_perm. intros l t Hl Ht. unfold keyed.
      by rewrite other_variables_nil, project_self by eauto. }
    destruct (Nat.ltb_spec (length vs) (length ks)) as [Hlong|_]; [by right|].
    destruct (key_offsets_pure vs ks Hks) as (ixs & Hixs & Hix & ->). simpl.
    apply run_map_perm. intros l t Hl Ht.
    rewrite (mapM_index vs t ixs) by eauto. simpl.
    rewrite (mapM_index vs t); [|done|by eauto|].
    + simpl. rewrite Hixs. unfold keyed, project, other_variables.
      pose proof (filter_imap_snd (λ x, x ∉ ks) id vs) as Hf.
      change (imap (λ j, pair (id j)) vs) with (imap pair vs) in Hf. by rewrite Hf.
    + intros i x [_ Hin]%list_elem_of_filter.
      apply (imap_pair_elem id) in Hin as (j & -> & Hj). done.
Qed.
(** (projecting and partitioning relations).  For a well-formed relation and
    some of its variables, projecting onto them yields its tuples restricted to
    the values of those variables, in the requested order, and partitioning by
    them splits every tuple into those values and the values of the remaining
    variables in their original order, weights kept.  Building either panics
    only for an attribute, and only when it has no forward index or the list is
    none of the four it supports, or, when partitioning, when there are more key
    variables than the relation has; running it never adds a panic. *)
Theorem relation_accessors_spec rel d ks :
  relation_wf rel d → ks ⊆ Implemented_variables rel →
  match Implemented_projected rel d ks with
  | Ret (c, _) => run_rel (≡ₚ) (run c)
      (let! l := rel_run rel d in Ret (wmap (project (Implemented_variables rel) ks) l))
  | Panic _ => attribute_refuses rel d ks
  end ∧
  match Implemented_tuples_by_variables rel d ks with
  | Ret (c, _) => run_rel (≡ₚ) (run c)
      (let! l := rel_run rel d in Ret (wmap (keyed (Implemented_variables rel) ks) l))
  | Panic _ => keying_refuses rel d ks
  end.
Proof. split; [by apply projected_cases|by apply tuples_by_variables_cases]. Qed.
End relation_theorems.
