(* ===== verification/Queries.v ===== *)
(** * What a query means

    The bindings of a query as conditions on an assignment of its variables, and
    the table of its answers: no order of variables, no indices, no changes.
    The reference the delta pipelines and the plans are compared with. *)
From Stdlib Require Import ZArith NArith Lia.
From stdpp Require Import base strings numbers sets gmap list.
From S2P Require Import Prelude Timestamps Values Bindings HectorPlan Sessions Weighted Streams.
From S2P Require Import Dataflow Domains Relations RelationTheorems Extenders.
Local Open Scope Z_scope.

Section queries.
Context `{EV : ExternValues}.
Implicit Types (b : Binding) (ρ : Var → Value) (q : Hector).

(** A binding, given which pairs are in which attribute. *)
Fixpoint binding_holds (pair : Aid → Value → Value → bool) ρ b : bool :=
  match b with
  | BAttribute b => pair (source_attribute b) (ρ (ab_variables b).1) (ρ (ab_variables b).2)
  | BNot b => negb (binding_holds pair ρ b)
  | BConstant b => bool_decide (ρ (cb_variable b) = cb_value b)
  | BBinaryPredicate b =>
      predicate_accepts (bp_predicate b) (DForward 0) (ρ (bp_variables b).1) (ρ (bp_variables b).2)
  end.

(** ** The table of answers *)
Context (contents : Aid → wlist (Value * Value)).

Definition pair_present (a : Aid) (e v : Value) : bool := bool_decide (wt (contents a) (e, v) = 1).
Definition query_holds ρ q : bool := forallb (binding_holds pair_present ρ) (he_bindings q).

(** The values a binding can assign. *)
Definition binding_values b : list Value :=
  match b with
  | BAttribute b => ev ← (contents (source_attribute b)).*1; [ev.1; ev.2]
  | BConstant b => [cb_value b]
  | _ => []
  end.

Fixpoint rows (values : list Value) (n : nat) : list (list Value) :=
  match n with
  | 0%nat => [[]]
  | S n => v ← values; cons v <$> rows values n
  end.

Definition query_table q : wlist (list Value) :=
  (λ t, (t, 1)) <$>
    filter (λ t, query_holds (env (he_variables q) t) q = true)
      (rows (remove_dups (he_bindings q ≫= binding_values)) (length (he_variables q))).

(** Every variable occurs in an attribute or equals a constant, and the
    bindings are over the query's variables. *)
Definition query_safe q : bool :=
  forallb (λ x, existsb (λ b, match b with
                              | BAttribute _ | BConstant _ => bool_decide (x ∈ Binding_variables b)
                              | _ => false
                              end) (he_bindings q)) (he_variables q) &&
  forallb (λ b, bool_decide (Binding_variables b ⊆ he_variables q)) (he_bindings q).

(** ** Its weights *)
Lemma elem_of_rows values n t : t ∈ rows values n ↔ length t = n ∧ t ⊆ values.
Proof.
  revert t. induction n as [|n IH]; intros t; simpl.
  { rewrite list_elem_of_singleton. split; [intros ->; set_solver|]. by intros [->%nil_length_inv _]. }
  rewrite list_elem_of_bind. split.
  - intros (v & (t' & -> & [Hn Hs]%IH)%list_elem_of_fmap & Hv). simpl. split; [by rewrite Hn|]. intros x [->|Hx]%elem_of_cons; [done|by apply Hs].
  - intros [Hn Hs]. destruct t as [|v t]; [done|]. exists v. split; [|set_solver].
    apply list_elem_of_fmap_2, IH. split; [by injection Hn|set_solver].
Qed.

Lemma rows_NoDup values n : NoDup values → NoDup (rows values n).
Proof.
  intros Hv. induction n as [|n IH]; simpl; [apply NoDup_singleton|].
  apply NoDup_bind; [|intros v _; by apply (NoDup_fmap_2 _)|done].
  intros v v' t _ _ (t1 & -> & _)%list_elem_of_fmap (t2 & [=] & _)%list_elem_of_fmap. done.
Qed.

Lemma binding_holds_ext pair ρ ρ' b :
  (∀ x, x ∈ Binding_variables b → ρ x = ρ' x) → binding_holds pair ρ b = binding_holds pair ρ' b.
Proof.
  induction b as [[[e v] a]|b IH|b|[[x y] p]]; intros Hρ.
  - simpl. by rewrite (Hρ e), (Hρ v) by (simpl; unfold AttributeBinding_variables, BinaryPredicateBinding_variables; simpl; set_solver).
  - simpl. by rewrite IH.
  - simpl. by rewrite (Hρ (cb_variable b)) by (by apply list_elem_of_singleton).
  - simpl. by rewrite (Hρ x), (Hρ y) by (simpl; unfold AttributeBinding_variables, BinaryPredicateBinding_variables; simpl; set_solver).
Qed.

Lemma query_holds_ext ρ ρ' q :
  query_safe q = true → (∀ x, x ∈ he_variables q → ρ x = ρ' x) → query_holds ρ q = query_holds ρ' q.
Proof.
  intros [_ Hb]%andb_true_iff Hρ. unfold query_holds. rewrite forallb_forall in Hb.
  induction (he_bindings q) as [|b bs IH]; [done|]. simpl. f_equal.
  - apply binding_holds_ext. intros x Hx. apply Hρ. specialize (Hb b ltac:(by left)).
    apply bool_decide_eq_true in Hb. by apply Hb.
  - apply IH. intros b' Hb'. apply Hb. by right.
Qed.

(** An answer assigns values that occur. *)
Lemma answer_values ρ q x :
  query_safe q = true → query_holds ρ q = true → x ∈ he_variables q →
  ρ x ∈ he_bindings q ≫= binding_values.
Proof.
  intros [Hx _]%andb_true_iff Hq Hin. rewrite forallb_forall in Hx.
  apply list_elem_of_In, Hx, existsb_exists in Hin as (b & Hb & Hxb).
  unfold query_holds in Hq. rewrite forallb_forall in Hq. specialize (Hq b Hb).
  apply list_elem_of_bind. exists b. split; [|by apply list_elem_of_In].
  destruct b as [[[e v] a]|b|[y c]|b]; try done; apply bool_decide_eq_true in Hxb; simpl in Hq.
  - apply bool_decide_eq_true in Hq. simpl. apply list_elem_of_bind. exists (ρ e, ρ v).
    split; [simpl in *; set_solver|]. apply wt_elem. by rewrite Hq.
  - apply bool_decide_eq_true in Hq. simpl in *. apply list_elem_of_singleton in Hxb as ->.
    simpl. rewrite Hq. by apply list_elem_of_singleton.
Qed.

Lemma query_table_weight q t :
  wt (query_table q) t =
  if decide (query_holds (env (he_variables q) t) q = true ∧
             t ∈ rows (remove_dups (he_bindings q ≫= binding_values)) (length (he_variables q)))
  then 1 else 0.
Proof.
  unfold query_table. rewrite wt_indicator_NoDup by (apply NoDup_filter, rows_NoDup, NoDup_remove_dups).
  case_decide as Hf; rewrite list_elem_of_filter in Hf; [by rewrite decide_True|by rewrite decide_False].
Qed.

(** The table has every assignment that satisfies the bindings, once. *)
Lemma query_table_assignment q ρ :
  query_safe q = true →
  wt (query_table q) (ρ <$> he_variables q) = if query_holds ρ q then 1 else 0.
Proof.
  intros Hs. rewrite query_table_weight.
  rewrite (query_holds_ext _ ρ) by (done || by apply env_assignment).
  destruct (query_holds ρ q) eqn:Hq; [|by rewrite decide_False by naive_solver].
  rewrite decide_True; [done|]. split; [done|]. apply elem_of_rows. rewrite length_fmap.
  split; [done|]. intros v (x & -> & Hx)%list_elem_of_fmap. rewrite elem_of_remove_dups.
  by apply answer_values.
Qed.

Lemma query_table_lengths q t : t ∈ (query_table q).*1 → length t = length (he_variables q).
Proof.
  unfold query_table. rewrite <- list_fmap_compose. simpl. rewrite list_fmap_id.
  by intros [_ [Ht _]%elem_of_rows]%list_elem_of_filter.
Qed.

Lemma query_table_nonnegative q t : 0 ≤ wt (query_table q) t.
Proof. rewrite query_table_weight. by case_decide. Qed.
End queries.
