(* ===== verification/PlanOps.v ===== *)
(** * Plan stages (src/src/plan/{project,union,antijoin,filter,transform,join}.rs)

    Each stage is generic in the plans it is built from ([P: Implementable]); its
    [implement] takes the implementation of those as a function.  The scope and
    the local arrangements only reach the stages through that function. *)
From Stdlib Require Import ZArith NArith Lia.
From stdpp Require Import base strings numbers list gmap sets.
From S2P Require Import Prelude Timestamps Values Bindings Sessions Weighted Dataflow Domains.
From S2P Require Import Relations.

Section stages.
Context `{EV : ExternValues, DF : Differential}.
Context {T : Type} `{TR : !Traces T} {Rule : Type}.
Context {P : Type}.

Abbreviation Handle := (ShutdownHandle (Button (T := T))) (only parsing).
Abbreviation Implementation := (outcome (Implemented * Handle)) (only parsing).

(** ** [Project] *)
Record Project := mkProject { pj_variables : list Var; pj_plan : P }.

Definition Project_implement (implement : P → Implementation) (d : Domain T Rule)
    (self : Project) : Implementation :=
  let! '(relation, shutdown_handle) := implement (pj_plan self) in
  let! '(tuples, shutdown) := Implemented_projected relation d (pj_variables self) in
  let shutdown_handle := ShutdownHandle_merge_with shutdown_handle shutdown in
  Ret (ICollection (mkCollectionRelation (pj_variables self) tuples), shutdown_handle).

(** ** [Union] *)
Record Union := mkUnion { un_variables : list Var; un_plans : list P }.

Definition Union_implement (implement : P → Implementation) (d : Domain T Rule)
    (self : Union) : Implementation :=
  let! streams := mapM_outcome (λ plan,
    let! '(relation, shutdown) := implement plan in
    let! '(projected, shutdown') := Implemented_projected relation d (un_variables self) in
    Ret (projected, ShutdownHandle_merge shutdown shutdown')) (un_plans self) in
  let shutdown_handle := foldl ShutdownHandle_merge_with ShutdownHandle_empty streams.*2 in
  let concat := c_concatenate streams.*1 in
  Ret (ICollection (mkCollectionRelation (un_variables self) (c_distinct concat)),
       shutdown_handle).

(** ** [Antijoin] *)
Record Antijoin := mkAntijoin {
  aj_variables : list Var; aj_left_plan : P; aj_right_plan : P
}.

Definition chain_others (target : list Var) (vars : list Var) : list Var :=
  filter (λ x, x ∉ target) vars.

Definition Antijoin_implement (implement : P → Implementation) (d : Domain T Rule)
    (self : Antijoin) : Implementation :=
  let shutdown_handle := ShutdownHandle_empty in
  let! '(left_rel, shutdown) := implement (aj_left_plan self) in
  let shutdown_handle := ShutdownHandle_merge_with shutdown_handle shutdown in
  let! '(right_rel, shutdown) := implement (aj_right_plan self) in
  let shutdown_handle := ShutdownHandle_merge_with shutdown_handle shutdown in
  let vars := aj_variables self ++ chain_others (aj_variables self) (Implemented_variables left_rel) in
  let! '(right_projected, shutdown) := Implemented_projected right_rel d (aj_variables self) in
  let shutdown_handle := ShutdownHandle_merge_with shutdown_handle shutdown in
  let! '(left_arranged, shutdown) :=
    Implemented_tuples_by_variables left_rel d (aj_variables self) in
  let shutdown_handle := ShutdownHandle_merge_with shutdown_handle shutdown in
  let tuples :=
    c_map (λ kt : list Value * list Value, Ret (kt.1 ++ kt.2))
      (c_antijoin (c_distinct left_arranged) (c_distinct right_projected)) in
  Ret (ICollection (mkCollectionRelation vars tuples), shutdown_handle).

(** ** [Filter] *)
Definition lt (a b : Value) : bool := cmp_lt a b.
Definition lte (a b : Value) : bool := cmp_le a b.
Definition gt (a b : Value) : bool := cmp_lt b a.
Definition gte (a b : Value) : bool := cmp_le b a.
Definition eq (a b : Value) : bool := bool_decide (a = b).
Definition neq (a b : Value) : bool := negb (bool_decide (a = b)).

Record Filter := mkFilter {
  fi_variables : list Var;
  fi_predicate : BinaryPredicate;
  fi_plan : P;
  fi_constants : list (option Value)
}.

Definition binary_predicate (predicate : BinaryPredicate) : Value → Value → bool :=
  match predicate with
  | LT => lt | LTE => lte | GT => gt | GTE => gte | EQ => eq | NEQ => neq
  end.

Definition key_offsets_of (relation : Implemented) (vars : list Var) : outcome (list nat) :=
  mapM_outcome (λ variable, expect "variable not found" (Implemented_binds relation variable)) vars.

Definition Filter_implement (implement : P → Implementation) (d : Domain T Rule)
    (self : Filter) : Implementation :=
  let! '(relation, shutdown_handle) := implement (fi_plan self) in
  let! key_offsets := key_offsets_of relation (fi_variables self) in
  let pred := binary_predicate (fi_predicate self) in
  let vars := Implemented_variables relation in
  let! '(projected, shutdown) := Implemented_projected relation d vars in
  let shutdown_handle := ShutdownHandle_merge_with shutdown_handle shutdown in
  let at_offset (tuple : list Value) (i : nat) : outcome Value :=
    let! offset := index key_offsets i in index tuple offset in
  let! c0 := index (fi_constants self) 0 in
  let! filtered :=
    match c0 with
    | Some constant => Ret (c_filter (λ tuple,
        let! x := at_offset tuple 0 in Ret (pred constant x)) projected)
    | None =>
        let! c1 := index (fi_constants self) 1 in
        match c1 with
        | Some constant => Ret (c_filter (λ tuple,
            let! x := at_offset tuple 0 in Ret (pred x constant)) projected)
        | None => Ret (c_filter (λ tuple,
            let! x := at_offset tuple 0 in
            let! y := at_offset tuple 1 in Ret (pred x y)) projected)
        end
    end in
  Ret (ICollection (mkCollectionRelation vars filtered), shutdown_handle).

(** ** [Transform] *)
Inductive Function := TRUNCATE | ADD | SUBTRACT.

Record Transform := mkTransform {
  tr_variables : list Var;
  tr_result_variable : Var;
  tr_plan : P;
  tr_function : Function;
  tr_constants : list (option Value)
}.

Definition mod_val (interval_param : string) : outcome N :=
  if bool_decide (interval_param = ":minute") then Ret 60000%N
  else if bool_decide (interval_param = ":hour") then Ret 3600000%N
  else if bool_decide (interval_param = ":day") then Ret 86400000%N
  else if bool_decide (interval_param = ":week") then Ret 604800000%N
  else Panic "Unknown interval for TRUNCATE".

Definition transform_truncate (key_offsets : list nat) (constants : list (option Value))
    (tuple : list Value) : outcome (list Value) :=
  let! offset := index key_offsets 0 in
  let! value := index tuple offset in
  let! t := match value with
            | VInstant inst => Ret inst
            | _ => Panic "TRUNCATE can only be applied to timestamps"
            end in
  let! c1 := index constants 1 in
  let! interval_param := match c1 with
                         | Some (VString interval) => Ret interval
                         | None => Ret ":hour"
                         | _ => Panic "Parameter for TRUNCATE must be a string"
                         end in
  let! m := mod_val interval_param in
  Ret (tuple ++ [VInstant (t - t mod m)]).

Definition as_number (msg : string) (v : Value) : outcome Z :=
  match v with VNumber s => Ret s | _ => Panic msg end.

(** [for offset in &key_offsets { result = op(result, tuple[*offset]) }]. *)
Fixpoint accumulate_variables (op : Z → Z → Z) (msg : string) (tuple : list Value)
    (key_offsets : list nat) (result : Z) : outcome Z :=
  match key_offsets with
  | [] => Ret result
  | offset :: rest =>
      let! v := index tuple offset in
      let! s := as_number msg v in
      accumulate_variables op msg tuple rest (wrap_i 64 (op result s))
  end.

Fixpoint accumulate_constants (op : Z → Z → Z) (msg : string)
    (constants : list (option Value)) (result : Z) : outcome Z :=
  match constants with
  | [] => Ret result
  | None :: rest => accumulate_constants op msg rest result
  | Some constant :: rest =>
      let! s := as_number msg constant in
      accumulate_constants op msg rest (wrap_i 64 (op result s))
  end.

Definition transform_add (key_offsets : list nat) (constants : list (option Value))
    (tuple : list Value) : outcome (list Value) :=
  let msg := "ADD can only be applied to numbers" in
  let! result := accumulate_variables Z.add msg tuple key_offsets 0 in
  let! result := accumulate_constants Z.add msg constants result in
  Ret (tuple ++ [VNumber result]).

Definition transform_subtract (key_offsets : list nat) (constants : list (option Value))
    (tuple : list Value) : outcome (list Value) :=
  let msg := "SUBTRACT can only be applied to numbers" in
  let! c0 := index constants 0 in
  let! result := match c0 with
                 | Some constant => as_number msg constant
                 | None => let! offset := index key_offsets 0 in
                           let! v := index tuple offset in as_number msg v
                 end in
  let result := wrap_i 64 (result + result) in
  let! result := accumulate_variables Z.sub msg tuple key_offsets result in
  let! result := accumulate_constants Z.sub msg constants result in
  Ret (tuple ++ [VNumber result]).

Definition Transform_implement (implement : P → Implementation) (d : Domain T Rule)
    (self : Transform) : Implementation :=
  let! '(relation, shutdown_handle) := implement (tr_plan self) in
  let! key_offsets := key_offsets_of relation (tr_variables self) in
  let vars := Implemented_variables relation ++ [tr_result_variable self] in
  let! '(tuples, shutdown) := Implemented_tuples relation d in
  let shutdown_handle := ShutdownHandle_merge_with shutdown_handle shutdown in
  let transformed :=
    match tr_function self with
    | TRUNCATE => c_map (transform_truncate key_offsets (tr_constants self)) tuples
    | ADD => c_map (transform_add key_offsets (tr_constants self)) tuples
    | SUBTRACT => c_map (transform_subtract key_offsets (tr_constants self)) tuples
    end in
  Ret (ICollection (mkCollectionRelation vars transformed), shutdown_handle).

(** ** [Join] *)
Record Join := mkJoin { jn_variables : list Var; jn_left_plan : P; jn_right_plan : P }.

(** One side of an attribute join: the index keyed by the target variable and
    the other variable. *)
Definition attribute_side (d : Domain T Rule) (target : Var) (b : AttributeBinding)
    : outcome (Var * (Collection (Value * Value) Z * Button (T := T))) :=
  if (target =? (ab_variables b).1)%N then
    let! index := expect "forward propose trace does not exist"
                    (Domain_forward_propose d (source_attribute b)) in
    Ret ((ab_variables b).2, import_frontier index ("Propose(" +:+ source_attribute b +:+ ")"))
  else if (target =? (ab_variables b).2)%N then
    let! index := expect "reverse propose trace does not exist"
                    (Domain_reverse_propose d (source_attribute b)) in
    Ret ((ab_variables b).1, import_frontier index ("_Propose(" +:+ source_attribute b +:+ ")"))
  else Panic "Unbound target variable in Attribute<->Attribute join.".

Definition attribute_attribute (d : Domain T Rule) (target : Var) (left right : AttributeBinding)
    : Implementation :=
  let! '(lvar, (left_arranged, shutdown_left)) := attribute_side d target left in
  let! '(rvar, (right_arranged, shutdown_right)) := attribute_side d target right in
  let vars := [target; lvar; rvar] in
  let tuples := c_join_core (λ key v1 v2, Ret [[key; v1; v2]]) left_arranged right_arranged in
  let shutdown_handle := ShutdownHandle_from_button shutdown_left in
  let shutdown_handle := ShutdownHandle_add_button shutdown_handle shutdown_right in
  Ret (ICollection (mkCollectionRelation vars tuples), shutdown_handle).

Definition collection_collection (d : Domain T Rule) (target_variables : list Var)
    (left right : CollectionRelation) : Implementation :=
  let shutdown_handle := ShutdownHandle_empty in
  let vars := target_variables ++ chain_others target_variables (CollectionRelation_variables left)
                ++ chain_others target_variables (CollectionRelation_variables right) in
  let! '(left_arranged, shutdown) :=
    CollectionRelation_tuples_by_variables left d target_variables in
  let shutdown_handle := ShutdownHandle_merge_with shutdown_handle shutdown in
  let! '(right_arranged, shutdown) :=
    CollectionRelation_tuples_by_variables right d target_variables in
  let shutdown_handle := ShutdownHandle_merge_with shutdown_handle shutdown in
  let tuples := c_join_core (λ key v1 v2, Ret [key ++ v1 ++ v2]) left_arranged right_arranged in
  Ret (ICollection (mkCollectionRelation vars tuples), shutdown_handle).

Definition collection_attribute (d : Domain T Rule) (target_variables : list Var)
    (left : CollectionRelation) (right : AttributeBinding) : Implementation :=
  let! propose_trace := expect ("attribute " +:+ source_attribute right +:+ " does not exist")
                          (Domain_forward_propose d (source_attribute right)) in
  let '(propose, shutdown_propose) :=
    import_frontier propose_trace ("Propose(" +:+ source_attribute right +:+ ")") in
  let tuples := c_map (λ ev, Ret [ev.1; ev.2]) propose in
  let right_collected := mkCollectionRelation
    [(ab_variables right).1; (ab_variables right).2] tuples in
  let! '(implemented, shutdown_handle) :=
    collection_collection d target_variables left right_collected in
  Ret (implemented, ShutdownHandle_add_button shutdown_handle shutdown_propose).

Definition Join_implement (implement : P → Implementation) (d : Domain T Rule)
    (self : Join) : Implementation :=
  let! _ := assert_that "assertion failed: !self.variables.is_empty()"
              (negb (bool_decide (jn_variables self = []))) in
  let! '(left_rel, shutdown_left) := implement (jn_left_plan self) in
  let! '(right_rel, shutdown_right) := implement (jn_right_plan self) in
  let! '(implemented, shutdown_handle) :=
    match left_rel, right_rel with
    | IAttribute left_rel, IAttribute right_rel =>
        match jn_variables self with
        | [target] => attribute_attribute d target left_rel right_rel
        | [_; _] => Panic "not yet implemented"
        | _ => Panic "Attribute<->Attribute joins can't target more than two variables."
        end
    | IAttribute left_rel, ICollection right_rel =>
        collection_attribute d (jn_variables self) right_rel left_rel
    | ICollection left_rel, IAttribute right_rel =>
        collection_attribute d (jn_variables self) left_rel right_rel
    | ICollection left_rel, ICollection right_rel =>
        collection_collection d (jn_variables self) left_rel right_rel
    end in
  let shutdown_handle := ShutdownHandle_merge_with shutdown_handle shutdown_left in
  let shutdown_handle := ShutdownHandle_merge_with shutdown_handle shutdown_right in
  Ret (implemented, shutdown_handle).
End stages.
Arguments Project : clear implicits.
Arguments Union : clear implicits.
Arguments Antijoin : clear implicits.
Arguments Filter {_} P.
Arguments Transform {_} P.
Arguments Join : clear implicits.
