(* ===== verification/JoinTheorems.v ===== *)
(** * Joins

    [Join] computes the natural join: the weight of an assignment in the result
    is the product of its weights in the two inputs, whether they are
    collections or attributes.  [Antijoin] keeps the assignments of its left
    input whose target values do not occur in its right input. *)
From Stdlib Require Import ZArith NArith Lia.
From stdpp Require Import base strings numbers list gmap sets.
From S2P Require Import Prelude Timestamps Values Bindings Sessions Weighted Dataflow Domains.
From S2P Require Import Relations RelationTheorems PlanOps.

Section keyed_lists.
Context `{EV : ExternValues}.
Implicit Types (vs ks : list Var) (σ : Var → Value).

Lemma keyed_lengths vs ks (l : wlist (list Value)) k a :
  (k, a) ∈ (wmap (keyed vs ks) l).*1 →
  length k = length ks ∧ length a = length (other_variables vs ks).
Proof.
  unfold wmap. rewrite <- list_fmap_compose. intros ([t w] & [= -> ->] & _)%list_elem_of_fmap.
  unfold project. by rewrite !length_fmap.
Qed.

(** The values in a joined tuple are those of the tuples it was joined from. *)
Lemma keyed_columns vsl vsr ks (l r : wlist (list Value)) k a b x :
  ks ⊆ vsl → ks ⊆ vsr → x ∈ ks ++ other_variables vsl ks ++ other_variables vsr ks →
  (k, a) ∈ (wmap (keyed vsl ks) l).*1 → (k, b) ∈ (wmap (keyed vsr ks) r).*1 →
  let v := env (ks ++ other_variables vsl ks ++ other_variables vsr ks) (k ++ a ++ b) x in
  (x ∈ vsl ∧ v ∈ column vsl l x) ∨ (x ∈ vsr ∧ v ∈ column vsr r x).
Proof.
  intros Hkl Hkr Hx Ha Hb. pose proof (keyed_lengths _ _ _ _ _ Ha) as [Hk Hla].
  apply elem_of_wmap in Ha as (tl & Htl & Hinl). apply elem_of_wmap in Hb as (tr & Htr & Hinr).
  injection Htl as -> ->. injection Htr as _ ->. simpl. rewrite env_app by done.
  case_decide as Hxk; [left|].
  - split; [by apply Hkl|]. rewrite env_project by done. apply elem_of_column. by exists tl.
  - rewrite env_app by done. case_decide as Hxl; [left|right]; unfold other_variables in Hxl.
    + split; [by apply list_elem_of_filter in Hxl as [_ ?]|]. rewrite env_project by done.
      apply elem_of_column. by exists tl.
    + assert (x ∈ other_variables vsr ks) as Hxr by (rewrite !elem_of_app in Hx; tauto).
      split; [unfold other_variables in Hxr; by apply list_elem_of_filter in Hxr as [_ ?]|].
      rewrite env_project by done. apply elem_of_column. by exists tr.
Qed.

(** The weight of an assignment in the join of two keyed relations. *)
Lemma keyed_join_weight vsl vsr ks (l r : wlist (list Value)) kl kr out σ :
  NoDup vsl → NoDup vsr → ks ⊆ vsl → ks ⊆ vsr →
  (∀ t, t ∈ l.*1 → length t = length vsl) → (∀ t, t ∈ r.*1 → length t = length vsr) →
  accumulates kl (wmap (keyed vsl ks) l) → accumulates kr (wmap (keyed vsr ks) r) →
  out ≡ wjoin (λ key v1 v2, [key ++ v1 ++ v2]) kl kr →
  wt out (σ <$> ks ++ other_variables vsl ks ++ other_variables vsr ks) =
  wrap_i 64 (wt l (σ <$> vsl) * wt r (σ <$> vsr)).
Proof.
  intros Hndl Hndr Hkl Hkr Hll Hlr [Hakl Hikl] [Hakr Hikr] Hout.
  rewrite (Hout _), !fmap_app.
  rewrite (wt_wjoin_inj (λ k a b : list Value, k ++ a ++ b)).
  - rewrite (Hakl _), (Hakr _), !keyed_weight by done. done.
  - intros k' a' b' Hka Hkb Heq. apply Hikl, keyed_lengths in Hka as [Hk Ha].
    apply app_inj_1 in Heq as [-> Heq]; [|by rewrite length_fmap].
    by apply app_inj_1 in Heq as [-> ->]; [|by rewrite length_fmap].
Qed.

(** A keyed pair of an attribute: the target's value and the other one. *)
Lemma pair_weight (e v target other : Var) (f : Value * Value → Value * Value)
    (l : wlist (Value * Value)) kl σ :
  e ≠ v →
  (target = e ∧ other = v ∧ f = id) ∨ (target = v ∧ other = e ∧ f = λ ev, (ev.2, ev.1)) →
  accumulates kl (wmap f l) →
  wt kl (σ target, σ other) = wt (wmap (λ ev, [ev.1; ev.2]) l) (σ <$> [e; v]).
Proof.
  intros Hev Hcase [Hk _]. rewrite (Hk _).
  change (σ <$> [e; v]) with ((λ ev : Value * Value, [ev.1; ev.2]) (σ e, σ v)).
  rewrite (wt_wmap_inj (λ ev : Value * Value, [ev.1; ev.2]) l (σ e, σ v)).
  - destruct Hcase as [(-> & -> & ->)|(-> & -> & ->)].
    + change (σ e, σ v) with (id (σ e, σ v)) at 1. by apply wt_wmap_inj.
    + change (σ v, σ e) with ((λ ev : Value * Value, (ev.2, ev.1)) (σ e, σ v)).
      apply wt_wmap_inj. intros [x y] _. simpl. congruence.
  - intros [x y] _. simpl. congruence.
Qed.
End keyed_lists.

Section joins.
Context `{EV : ExternValues, DF : Differential}.
Context {T : Type} `{TR : !Traces T} {Rule : Type}.
Context {P : Type}.
Implicit Types (d : Domain T Rule) (ks : list Var).

(** The reverse propose index of an attribute holds the swapped pairs of the
    forward one, as [scoped_indices_spec] guarantees. *)
Definition reverse_index_ok d (a : Aid) : Prop :=
  ∃ f t, forward_propose d !! a = Some f ∧ reverse_propose d !! a = Some t ∧
    ∀ n, run_rel accumulates (run (import_frontier t n).1)
           (let! l := run (import_frontier f n).1 in Ret (wmap (λ ev, (ev.2, ev.1)) l)).

Lemma accumulates_wmap {D D'} `{EqDecision D, EqDecision D'} (f : D → D') (l k : wlist D) :
  accumulates l k → accumulates (wmap f l) (wmap f k).
Proof.
  intros [Hlk Hsub]. split; [by rewrite Hlk|]. unfold wmap. rewrite <- !list_fmap_compose.
  intros y (p & -> & Hp)%list_elem_of_fmap. simpl.
  assert (p.1 ∈ k.*1) as Hin by (apply Hsub, list_elem_of_fmap; eauto).
  apply list_elem_of_fmap in Hin as (q & Hq & Hqk). apply list_elem_of_fmap.
  exists q. simpl. by rewrite Hq.
Qed.

Lemma accumulates_perm {D} `{EqDecision D} (l k : wlist D) : l ≡ₚ k → accumulates l k.
Proof. intros Hlk. split; [by apply wlist_equiv_perm|]. rewrite Hlk. set_solver. Qed.

Lemma run_rel_Ret_l {A B} (Q : A → B → Prop) m b :
  run_rel Q m (Ret b) → ∃ a, m = Ret a ∧ Q a b.
Proof. destruct m; simpl; eauto. done. Qed.

(** What building and running a join promises. *)
Definition joins d (r : outcome (Implemented * ShutdownHandle (Button (T := T))))
    (ks vsl vsr : list Var) (l m : wlist (list Value)) : Prop :=
  ∃ rel h out, r = Ret (ICollection rel, h) ∧ run (cr_tuples rel) = Ret out ∧
    (∀ x, x ∈ cr_variables rel ↔ x ∈ vsl ∨ x ∈ vsr) ∧
    (∀ σ : Var → Value, wt out (σ <$> cr_variables rel) =
       wrap_i 64 (wt l (σ <$> vsl) * wt m (σ <$> vsr))) ∧
    (NoDup ks → (∀ x, x ∈ vsl → x ∈ vsr → x ∈ ks) → relation_wf (ICollection rel) d) ∧
    (∀ x v, x ∈ cr_variables rel → v ∈ column (cr_variables rel) out x →
       (x ∈ vsl ∧ v ∈ column vsl l x) ∨ (x ∈ vsr ∧ v ∈ column vsr m x)).

Lemma join_wf d vars (c : Collection (list Value) Z) out :
  NoDup vars → run c = Ret out → (∀ t, t ∈ out.*1 → length t = length vars) →
  relation_wf (ICollection (mkCollectionRelation vars c)) d.
Proof. intros Hnd Hc Hlen. split; [done|]. simpl. rewrite Hc. intros l t [= <-]. by apply Hlen. Qed.

Lemma join_variables_NoDup ks vsl vsr :
  NoDup ks → NoDup vsl → NoDup vsr → (∀ x, x ∈ vsl → x ∈ vsr → x ∈ ks) →
  NoDup (ks ++ other_variables vsl ks ++ other_variables vsr ks).
Proof.
  intros Hk Hl Hr Hshared. unfold other_variables.
  apply NoDup_app. split; [done|]. setoid_rewrite elem_of_app. setoid_rewrite list_elem_of_filter.
  split; [tauto|]. apply NoDup_app. split; [by apply NoDup_filter|].
  setoid_rewrite list_elem_of_filter. split; [naive_solver|by apply NoDup_filter].
Qed.

Lemma join_variables_iff ks vsl vsr x :
  ks ⊆ vsl → x ∈ ks ++ other_variables vsl ks ++ other_variables vsr ks ↔ x ∈ vsl ∨ x ∈ vsr.
Proof.
  intros Hk. unfold other_variables. rewrite !elem_of_app, !list_elem_of_filter.
  destruct (decide (x ∈ ks)); set_solver.
Qed.

Lemma collection_collection_joins d ks (rl rr : CollectionRelation) l r :
  relation_wf (ICollection rl) d → relation_wf (ICollection rr) d →
  run (cr_tuples rl) = Ret l → run (cr_tuples rr) = Ret r →
  ks ⊆ cr_variables rl → ks ⊆ cr_variables rr →
  (length ks ≤ length (cr_variables rl))%nat → (length ks ≤ length (cr_variables rr))%nat →
  joins d (collection_collection d ks rl rr) ks (cr_variables rl) (cr_variables rr) l r.
Proof.
  intros [Hndl Hll] [Hndr Hlr] Hl Hr Hkl Hkr Hfl Hfr. unfold collection_collection.
  pose proof (tuples_by_variables_cases (ICollection rl) d ks (conj Hndl Hll) Hkl) as Htl.
  pose proof (tuples_by_variables_cases (ICollection rr) d ks (conj Hndr Hlr) Hkr) as Htr.
  simpl in Htl, Htr.
  destruct (CollectionRelation_tuples_by_variables rl d ks) as [[cl hl]|];
    [|destruct Htl as [[]|Hlt%Nat.lt_nge]; by destruct Hlt].
  destruct (CollectionRelation_tuples_by_variables rr d ks) as [[cr hr]|];
    [|destruct Htr as [[]|Hlt%Nat.lt_nge]; by destruct Hlt].
  simpl. rewrite Hl in Htl. rewrite Hr in Htr. simpl in Htl, Htr.
  apply run_rel_Ret_l in Htl as (kl & Hkl' & Hpl). apply run_rel_Ret_l in Htr as (kr & Hkr' & Hpr).
  destruct (run_join_core (λ key v1 v2, Ret [key ++ v1 ++ v2]) (λ key v1 v2, [key ++ v1 ++ v2])
    cl cr kl kr Hkl' Hkr') as (out & Hout & Hacc & Hrec); [done|].
  eexists _, _, out. split; [done|]. split; [exact Hout|]. cbn [cr_variables]. split_and!.
  - intros x. by apply join_variables_iff.
  - intros σ. apply (keyed_join_weight _ _ _ _ _ kl kr); eauto using accumulates_perm.
  - intros Hnd Hshared. eapply join_wf; [by apply join_variables_NoDup|exact Hout|].
    intros t Ht%Hrec. apply wjoin_records in Ht as (key & a & b & Ha & Hb & ->%list_elem_of_singleton).
    rewrite Hpl in Ha. rewrite Hpr in Hb. apply keyed_lengths in Ha as [Hk Ha], Hb as [_ Hb].
    rewrite !length_app, Hk, Ha, Hb. done.
  - intros x v Hx (t & Ht%Hrec & ->)%elem_of_column.
    apply wjoin_records in Ht as (key & a & b & Ha & Hb & ->%list_elem_of_singleton).
    rewrite Hpl in Ha. rewrite Hpr in Hb. by apply keyed_columns.
Qed.

Lemma joins_equiv d r ks vsl vsr l m l' m' :
  joins d r ks vsl vsr l m → accumulates l l' → accumulates m m' → joins d r ks vsl vsr l' m'.
Proof.
  intros (rel & h & out & Hr & Hout & Hv & Hw & Hwf & Hcol) [Hl Hrl] [Hm Hrm]. exists rel, h, out.
  split_and!; [done..| |done|].
  - intros σ. by rewrite Hw, (Hl _), (Hm _).
  - intros x v Hx Hin. destruct (Hcol x v Hx Hin) as [[? Hc]|[? Hc]]; [left|right];
      (split; [done|]); by eapply column_records.
Qed.

Lemma joins_comm d r ks vsl vsr l m : joins d r ks vsl vsr l m → joins d r ks vsr vsl m l.
Proof.
  intros (rel & h & out & Hr & Hout & Hv & Hw & Hwf & Hcol). exists rel, h, out.
  split_and!; [done|done| | | |].
  - intros x. rewrite Hv. tauto.
  - intros σ. by rewrite Hw, Z.mul_comm.
  - intros Hnd Hshared. apply Hwf; [done|]. auto.
  - intros x v Hx Hin. destruct (Hcol x v Hx Hin); auto.
Qed.

Lemma joins_handle d r ks vsl vsr l m g :
  joins d r ks vsl vsr l m →
  joins d (let! '(implemented, h) := r in Ret (implemented, g h)) ks vsl vsr l m.
Proof.
  intros (rel & h & out & -> & Hout & Hv & Hw & Hwf & Hcol). simpl. by exists rel, (g h), out.
Qed.

(** Importing an attribute's forward index under any name accumulates to its
    relation. *)
Lemma import_attribute d (b : AttributeBinding) l name :
  rel_run (IAttribute b) d = Ret l →
  ∃ tr pairs l0, forward_propose d !! source_attribute b = Some tr ∧
    run (import_frontier tr name).1 = Ret pairs ∧ accumulates pairs l0 ∧
    l = wmap (λ ev, [ev.1; ev.2]) l0 ∧
    run (import_frontier tr (source_attribute b)).1 = Ret l0.
Proof.
  simpl. unfold import_propose, Domain_forward_propose.
  destruct (forward_propose d !! source_attribute b) as [tr|]; [|done]. simpl.
  pose proof (import_renamed tr name (source_attribute b)) as Hn.
  destruct (import_frontier tr (source_attribute b)) as [c btn] eqn:Hi. simpl in *.
  destruct (run c) as [l0|] eqn:Hc; [|done]. simpl. intros [= <-].
  apply run_rel_Ret_l in Hn as (pairs & Hp & Ha).
  exists tr, pairs, l0. split_and!; try done. by rewrite Hi.
Qed.

Lemma collection_attribute_joins d ks (rl : CollectionRelation) (b : AttributeBinding) l r :
  relation_wf (ICollection rl) d → relation_wf (IAttribute b) d →
  run (cr_tuples rl) = Ret l → rel_run (IAttribute b) d = Ret r →
  ks ⊆ cr_variables rl → ks ⊆ AttributeBinding_variables b →
  (length ks ≤ length (cr_variables rl))%nat → (length ks ≤ 2)%nat →
  joins d (collection_attribute d ks rl b) ks (cr_variables rl) (AttributeBinding_variables b) l r.
Proof.
  intros Hwl [Hnd _] Hl Hr Hkl Hkr Hfl Hfr. unfold collection_attribute, Domain_forward_propose.
  destruct (import_attribute d b r ("Propose(" +:+ source_attribute b +:+ ")") Hr)
    as (tr & pairs & l0 & -> & Hrun & Hacc & -> & _). simpl.
  destruct (import_frontier tr _) as [c btn]. simpl in *.
  destruct (run_map_pure (λ ev : Value * Value, Ret [ev.1; ev.2]) (λ ev, [ev.1; ev.2]) c pairs Hrun)
    as (tuples & Htuples & Hperm); [done|].
  apply joins_handle.
  assert (relation_wf (ICollection (mkCollectionRelation [(ab_variables b).1; (ab_variables b).2]
    (c_map (λ ev : Value * Value, Ret [ev.1; ev.2]) c))) d) as Hwr.
  { split; [exact Hnd|]. simpl. rewrite Htuples. intros l' t [= <-]. rewrite Hperm.
    rewrite <- list_fmap_compose. by intros (p & -> & _)%list_elem_of_fmap. }
  eapply (joins_equiv _ _ _ _ _ l tuples).
  - by apply (collection_collection_joins d ks rl _ l tuples Hwl Hwr).
  - by apply accumulates_perm.
  - apply (accumulates_wmap (λ ev : Value * Value, [ev.1; ev.2])) in Hacc as [Hacc Hrec].
    split; [apply wlist_equiv_perm in Hperm; rewrite Hperm; exact Hacc|].
    intros t Ht. apply Hrec. unfold wmap. by rewrite <- Hperm.
Qed.

Lemma pair_columns (e v : Var) (l : wlist (Value * Value)) x y :
  e ≠ v → (x, y) ∈ l.*1 →
  x ∈ column [e; v] (wmap (λ ev, [ev.1; ev.2]) l) e ∧ y ∈ column [e; v] (wmap (λ ev, [ev.1; ev.2]) l) v.
Proof.
  intros Hev Hxy. rewrite !elem_of_column. split; exists [x; y]; rewrite elem_of_wmap;
    (split; [by exists (x, y)|]); rewrite !env_cons; repeat case_decide; congruence.
Qed.

(** One side of an attribute join holds the pairs (target, other). *)
Lemma attribute_side_spec d (b : AttributeBinding) l target :
  relation_wf (IAttribute b) d → rel_run (IAttribute b) d = Ret l →
  reverse_index_ok d (source_attribute b) → target ∈ AttributeBinding_variables b →
  ∃ other c btn kl, attribute_side d target b = Ret (other, (c, btn)) ∧ run c = Ret kl ∧
    (∀ x, x ∈ AttributeBinding_variables b ↔ x = target ∨ x = other) ∧ other ≠ target ∧
    (∀ σ : Var → Value,
      wt kl (σ target, σ other) = wt l (σ <$> AttributeBinding_variables b)) ∧
    ∀ k a, (k, a) ∈ kl.*1 →
      k ∈ column (AttributeBinding_variables b) l target ∧ a ∈ column (AttributeBinding_variables b) l other.
Proof.
  intros [Hnd _] Hl (f & t & Hf & Ht & Hrev) Htarget. unfold attribute_side.
  unfold AttributeBinding_variables, pair_variables in *. simpl in Hnd.
  assert ((ab_variables b).1 ≠ (ab_variables b).2) as Hev.
  { apply NoDup_cons in Hnd as [Hn _]. set_solver. }
  unfold Domain_forward_propose, Domain_reverse_propose.
  destruct (N.eqb_spec target (ab_variables b).1) as [->|Hne].
  - destruct (import_attribute d b l ("Propose(" +:+ source_attribute b +:+ ")") Hl)
      as (tr & pairs & l0 & -> & Hrun & Hacc & -> & _). simpl.
    destruct (import_frontier tr _) as [c btn]. simpl in *.
    eexists _, c, btn, pairs. split; [done|]. split; [done|]. split; [set_solver|]. split; [congruence|]. split.
    + intros σ. apply (pair_weight _ _ _ _ id); [done|by left|].
      unfold wmap. rewrite (list_fmap_ext _ id) by (by intros ? []). by rewrite list_fmap_id.
    + intros k a Hka. apply Hacc in Hka. by apply pair_columns.
  - assert (target = (ab_variables b).2) as -> by set_solver.
    rewrite N.eqb_refl, Ht. simpl.
    set (n := "_Propose(" +:+ source_attribute b +:+ ")").
    destruct (import_attribute d b l n Hl) as (tr & pairs & l0 & Htr & Hrun & Hacc & -> & _).
    assert (tr = f) as -> by congruence. specialize (Hrev n). rewrite Hrun in Hrev. simpl in Hrev.
    apply run_rel_Ret_l in Hrev as (kl & Hkl & Hk).
    destruct (import_frontier t n) as [c btn]. simpl in *.
    eexists _, c, btn, kl. split; [done|]. split; [done|]. split; [set_solver|]. split; [congruence|].
    destruct Hk as [Hk1 Hk2]. split.
    + intros σ. apply (pair_weight _ _ _ _ (λ ev, (ev.2, ev.1))); [done|by right|].
      apply (accumulates_wmap (λ ev : Value * Value, (ev.2, ev.1))) in Hacc as [Ha1 Ha2].
      split; [by rewrite Hk1|set_solver].
    + intros k a Hka. apply Hk2, elem_of_wmap in Hka as ([x y] & [= -> ->] & Hxy). apply Hacc in Hxy.
      apply and_comm. by apply pair_columns.
Qed.

Lemma attribute_attribute_joins d target (bl br : AttributeBinding) l r :
  relation_wf (IAttribute bl) d → relation_wf (IAttribute br) d →
  rel_run (IAttribute bl) d = Ret l → rel_run (IAttribute br) d = Ret r →
  reverse_index_ok d (source_attribute bl) → reverse_index_ok d (source_attribute br) →
  target ∈ AttributeBinding_variables bl → target ∈ AttributeBinding_variables br →
  joins d (attribute_attribute d target bl br) [target]
    (AttributeBinding_variables bl) (AttributeBinding_variables br) l r.
Proof.
  intros Hwl Hwr Hl Hr Hrl Hrr Htl Htr. unfold attribute_attribute.
  destruct (attribute_side_spec d bl l target) as (ol & cl & bnl & kl & -> & Hkl & Hvl & Hnl & Hwtl & Hcl); auto.
  destruct (attribute_side_spec d br r target) as (or & cr & bnr & kr & -> & Hkr & Hvr & Hnr & Hwtr & Hcr); auto.
  simpl.
  destruct (run_join_core (λ key v1 v2, Ret [[key; v1; v2]]) (λ key v1 v2, [[key; v1; v2]])
    cl cr kl kr Hkl Hkr) as (out & Hout & Hacc & Hrec); [done|].
  eexists _, _, out. split; [done|]. split; [exact Hout|]. simpl. split_and!.
  - intros x. rewrite Hvl, Hvr. set_solver.
  - intros σ.
    transitivity (wrap_i 64 (wt kl (σ target, σ ol) * wt kr (σ target, σ or)));
      [|by rewrite Hwtl, Hwtr].
    rewrite (Hacc _). rewrite (wt_wjoin_inj (λ k a b : Value, [k; a; b])); [done|]. naive_solver.
  - intros _ Hshared. eapply join_wf; [|exact Hout|].
    + assert (ol ≠ or) as Hne.
      { intros <-. apply Hnl. assert (ol ∈ [target]) as Hin; [|by apply list_elem_of_singleton in Hin].
        apply Hshared; [apply Hvl|apply Hvr]; by right. }
      rewrite !NoDup_cons, !not_elem_of_cons. split_and!; auto using not_elem_of_nil, NoDup_nil_2.
    + intros t Ht%Hrec.
      by apply wjoin_records in Ht as (key & a & b & _ & _ & ->%list_elem_of_singleton).
  - intros x v Hx (t & Ht%Hrec & ->)%elem_of_column.
    apply wjoin_records in Ht as (key & a & b & [Hk Ha]%Hcl & [_ Hb]%Hcr & ->%list_elem_of_singleton).
    rewrite !env_cons. repeat case_decide; subst; [left|left|right|set_solver];
      (split; [first [apply Hvl|apply Hvr]; auto|done]).
Qed.

(** A join of two attributes is on one variable, and needs their reverse indices;
    another join is on no more variables than either relation has. *)
Definition joinable d (rl rr : Implemented) (ks : list Var) : Prop :=
  match rl, rr with
  | IAttribute bl, IAttribute br =>
      length ks = 1 ∧ reverse_index_ok d (source_attribute bl) ∧
      reverse_index_ok d (source_attribute br)
  | _, _ => (length ks ≤ length (Implemented_variables rl))%nat ∧
            (length ks ≤ length (Implemented_variables rr))%nat
  end.

Lemma Join_implements d (implement : P → outcome (Implemented * ShutdownHandle (Button (T := T))))
    (self : Join P) rl rr hl hr l r :
  implement (jn_left_plan self) = Ret (rl, hl) → implement (jn_right_plan self) = Ret (rr, hr) →
  relation_wf rl d → relation_wf rr d → rel_run rl d = Ret l → rel_run rr d = Ret r →
  jn_variables self ≠ [] →
  jn_variables self ⊆ Implemented_variables rl → jn_variables self ⊆ Implemented_variables rr →
  joinable d rl rr (jn_variables self) →
  joins d (Join_implement implement d self) (jn_variables self)
    (Implemented_variables rl) (Implemented_variables rr) l r.
Proof.
  intros Hil Hir Hwl Hwr Hl Hr Hne Hsl Hsr Hj. unfold Join_implement.
  rewrite bool_decide_false by done. rewrite Hil, Hir. simpl.
  match goal with |- context [let! '(i, h) := ?m in Ret (i, @?g h)] =>
    apply (joins_handle d m (jn_variables self) _ _ l r g) end.
  destruct rl as [bl|cl], rr as [br|cr]; simpl in *.
  - destruct Hj as (Hlen & Hjl & Hjr). destruct (jn_variables self) as [|x [|]]; try done.
    apply attribute_attribute_joins; auto; set_solver.
  - destruct Hj. by apply joins_comm, collection_attribute_joins.
  - destruct Hj. by apply collection_attribute_joins.
  - destruct Hj. by apply collection_collection_joins.
Qed.

(** C10 (joins are natural joins).  Joining two well-formed relations on a
    non-empty list of variables that both bind (one variable, with reverse
    indices installed, when both are attributes, and otherwise no longer a list
    than either relation's) succeeds and runs without panics; the result binds exactly the variables of both, and gives every
    assignment the product of its weights in the two relations.  It is
    well-formed when the join variables are distinct and the only shared ones. *)
Theorem join_natural d (implement : P → outcome (Implemented * ShutdownHandle (Button (T := T))))
    (self : Join P) rl rr hl hr l r :
  implement (jn_left_plan self) = Ret (rl, hl) → implement (jn_right_plan self) = Ret (rr, hr) →
  relation_wf rl d → relation_wf rr d → rel_run rl d = Ret l → rel_run rr d = Ret r →
  jn_variables self ≠ [] →
  jn_variables self ⊆ Implemented_variables rl → jn_variables self ⊆ Implemented_variables rr →
  joinable d rl rr (jn_variables self) →
  ∃ rel h out, Join_implement implement d self = Ret (ICollection rel, h) ∧
    run (cr_tuples rel) = Ret out ∧
    (∀ x, x ∈ cr_variables rel ↔ x ∈ Implemented_variables rl ∨ x ∈ Implemented_variables rr) ∧
    (∀ σ : Var → Value, wt out (σ <$> cr_variables rel) =
       wrap_i 64 (wt l (σ <$> Implemented_variables rl) * wt r (σ <$> Implemented_variables rr))) ∧
    (NoDup (jn_variables self) →
     (∀ x, x ∈ Implemented_variables rl → x ∈ Implemented_variables rr → x ∈ jn_variables self) →
     relation_wf (ICollection rel) d).
Proof.
  intros Hil Hir Hwl Hwr Hl Hr Hne Hsl Hsr Hj.
  destruct (Join_implements d implement self rl rr hl hr l r) as (rel & h & out & ? & ? & ? & ? & ? & _); [done..|].
  by exists rel, h, out.
Qed.
End joins.
