(* ===== verification/StageTheorems.v ===== *)
(** * Projection, union, antijoin, filters and transformations

    What each stage's result holds, in terms of the weights its inputs give to
    assignments of values to variables. *)
From Stdlib Require Import ZArith NArith Lia.
From stdpp Require Import base strings numbers list gmap sets.
From S2P Require Import Prelude Timestamps Values Bindings Sessions Weighted Dataflow Domains.
From S2P Require Import Relations RelationTheorems PlanOps JoinTheorems.

Section sets.
Context `{EV : ExternValues, DF : Differential}.
Context {T : Type} `{TR : !Traces T} {Rule : Type}.
Context {P : Type}.
Implicit Types (d : Domain T Rule) (ks : list Var).
Abbreviation Handle := (ShutdownHandle (Button (T := T))) (only parsing).

(** A well-formed input that can be projected to and keyed by [ks], with its
    tuples. *)
Definition input d ks (implement : P → outcome (Implemented * Handle)) (p : P)
    (rel : Implemented) (l : wlist (list Value)) : Prop :=
  (∃ h, implement p = Ret (rel, h)) ∧ relation_wf rel d ∧ rel_run rel d = Ret l ∧
  ks ⊆ Implemented_variables rel ∧ ¬ attribute_refuses rel d ks.

Lemma input_projected d ks implement p rel l :
  input d ks implement p rel l →
  ∃ c h l', Implemented_projected rel d ks = Ret (c, h) ∧ run c = Ret l' ∧
    l' ≡ₚ wmap (project (Implemented_variables rel) ks) l.
Proof.
  intros (_ & Hwf & Hl & Hks & Href). pose proof (projected_cases rel d ks Hwf Hks) as Hc.
  destruct (Implemented_projected rel d ks) as [[c h]|]; [|done].
  rewrite Hl in Hc. apply run_rel_Ret_l in Hc as (l' & Hl' & Hp). eauto 10.
Qed.

Lemma input_keyed d ks implement p rel l :
  input d ks implement p rel l → (length ks ≤ length (Implemented_variables rel))%nat →
  ∃ c h l', Implemented_tuples_by_variables rel d ks = Ret (c, h) ∧ run c = Ret l' ∧
    l' ≡ₚ wmap (keyed (Implemented_variables rel) ks) l.
Proof.
  intros (_ & Hwf & Hl & Hks & Href) Hfit.
  pose proof (tuples_by_variables_cases rel d ks Hwf Hks) as Hc.
  destruct (Implemented_tuples_by_variables rel d ks) as [[c h]|]; [|destruct Hc as [|Hlt]; [done|lia]].
  rewrite Hl in Hc. apply run_rel_Ret_l in Hc as (l' & Hl' & Hp). eauto 10.
Qed.

Lemma Union_implements d (implement : P → outcome (Implemented * Handle)) (self : Union P)
    (inputs : list (Implemented * wlist (list Value))) :
  Forall2 (λ p i, input d (un_variables self) implement p i.1 i.2) (un_plans self) inputs →
  let total := concat ((λ i, wmap (project (Implemented_variables i.1) (un_variables self)) i.2)
                         <$> inputs) in
  ∃ rel h out, Union_implement implement d self = Ret (ICollection rel, h) ∧
    cr_variables rel = un_variables self ∧ run (cr_tuples rel) = Ret out ∧
    distinct_of total out.
Proof.
  intros Hin total. unfold Union_implement.
  set (ks := un_variables self) in *.
  assert (∃ streams ls, mapM_outcome (λ plan,
    let! '(relation, shutdown) := implement plan in
    let! '(projected, shutdown') := Implemented_projected relation d ks in
    Ret (projected, ShutdownHandle_merge shutdown shutdown')) (un_plans self) = Ret streams ∧
    mapM_outcome run streams.*1 = Ret ls ∧ concat ls ≡ₚ total) as (streams & ls & -> & Hls & Hp).
  { unfold total. clear total.
    induction Hin as [|p [rel l] ps ins Hp Hps (streams & ls & Hs & Hl & Hc)]; [by exists [], []|].
    destruct (input_projected _ _ _ _ _ _ Hp) as (c & h & l' & Hproj & Hrun & Hperm).
    destruct Hp as [[h0 Himp] _]. cbn [fst snd] in *.
    exists ((c, ShutdownHandle_merge h0 h) :: streams), (l' :: ls).
    rewrite mapM_outcome_cons, Himp. cbn [obind]. rewrite Hproj. cbn [obind]. rewrite Hs.
    split; [done|]. rewrite fmap_cons, mapM_outcome_cons. cbn [fst]. rewrite Hrun. cbn [obind].
    rewrite Hl. split; [done|]. simpl. by rewrite Hperm, Hc. }
  simpl. eexists _, _. destruct (run_concatenate_Ret streams.*1 ls Hls) as (lc & Hlc & Hpc).
  destruct (run_distinct_Ret (c_concatenate streams.*1) lc Hlc) as (out & Hout & Hin' & Hd).
  exists out. split; [done|]. split; [done|]. split; [exact Hout|]. rewrite Hp in Hpc. split.
  - by rewrite <- Hpc.
  - intros τ. apply wlist_equiv_perm in Hpc. rewrite <- (Hpc τ). apply Hd.
Qed.

(** (union).  The union of any number of inputs that bind the requested
    variables succeeds and runs without panics; a tuple of values for those
    variables occurs once when its weights in the inputs add up to a positive
    number, and not at all when they add up to zero. *)
Theorem union_spec d (implement : P → outcome (Implemented * Handle)) (self : Union P)
    (inputs : list (Implemented * wlist (list Value))) :
  Forall2 (λ p i, input d (un_variables self) implement p i.1 i.2) (un_plans self) inputs →
  let total := concat ((λ i, wmap (project (Implemented_variables i.1) (un_variables self)) i.2)
                         <$> inputs) in
  ∃ rel h out, Union_implement implement d self = Ret (ICollection rel, h) ∧
    cr_variables rel = un_variables self ∧ run (cr_tuples rel) = Ret out ∧
    ∀ τ : list Value, ((0 < wt total τ)%Z → wt out τ = 1%Z) ∧ (wt total τ = 0%Z → wt out τ = 0%Z).
Proof.
  intros Hin total. destruct (Union_implements d implement self inputs Hin)
    as (rel & h & out & Hu & Hv & Hr & _ & Hd). eauto 10.
Qed.

Lemma Antijoin_implements d (implement : P → outcome (Implemented * Handle)) (self : Antijoin P)
    rl rr l r :
  input d (aj_variables self) implement (aj_left_plan self) rl l →
  input d (aj_variables self) implement (aj_right_plan self) rr r →
  (length (aj_variables self) ≤ length (Implemented_variables rl))%nat →
  ∃ rel h out, Antijoin_implement implement d self = Ret (ICollection rel, h) ∧
    run (cr_tuples rel) = Ret out ∧
    (∀ t, t ∈ out.*1 → length t = length (cr_variables rel)) ∧
    cr_variables rel = aj_variables self ++ other_variables (Implemented_variables rl) (aj_variables self) ∧
    (∀ x v, x ∈ cr_variables rel → v ∈ column (cr_variables rel) out x → v ∈ column (Implemented_variables rl) l x) ∧
    ∀ σ : Var → Value,
      let wl := wt l (σ <$> Implemented_variables rl) in
      let wr := wt (wmap (project (Implemented_variables rr) (aj_variables self)) r)
                  (σ <$> aj_variables self) in
      (wl = 0%Z → wt out (σ <$> cr_variables rel) = 0%Z) ∧
      ((0 < wl)%Z → (0 < wr)%Z → wt out (σ <$> cr_variables rel) = 0%Z) ∧
      ((0 < wl)%Z → wr = 0%Z → wt out (σ <$> cr_variables rel) = 1%Z).
Proof.
  intros Hl Hr Hfit. unfold Antijoin_implement. set (ks := aj_variables self) in *.
  destruct (input_keyed _ _ _ _ _ _ Hl Hfit) as (cl & sl & kl & Hkl & Hrl & Hpl).
  destruct (input_projected _ _ _ _ _ _ Hr) as (cr & sr & kr & Hkr & Hrr & Hpr).
  destruct Hl as ([hl Hil] & [Hnd Hlen] & Hrunl & Hks & _), Hr as ([hr Hir] & _).
  rewrite Hil. simpl. rewrite Hir. simpl. rewrite Hkr. simpl. rewrite Hkl. simpl.
  destruct (run_distinct_Ret cl kl Hrl) as (dl & Hdl & Hdl1 & Hdl2).
  destruct (run_distinct_Ret cr kr Hrr) as (dr & Hdr & Hdr1 & Hdr2).
  pose proof (run_antijoin (c_distinct cl) (c_distinct cr)) as Ha. rewrite Hdl, Hdr in Ha.
  apply run_rel_Ret_r in Ha as (la & Hla & Ha1 & Ha2).
  destruct (run_map_pure (λ kt : list Value * list Value, Ret (kt.1 ++ kt.2)) (λ kt, kt.1 ++ kt.2)
    _ la Hla) as (out & Hout & Hpout); [done|].
  assert (∀ k a, (k, a) ∈ la.*1 → (k, a) ∈ (wmap (keyed (Implemented_variables rl) ks) l).*1) as Hkeyed.
  { intros k a Hka. apply Ha2 in Hka. rewrite fmap_app in Hka.
    assert ((k, a) ∈ dl.*1) as Hin.
    { apply elem_of_app in Hka as [?|Hka]; [done|].
      apply (wsemijoin_records dl dr). unfold wneg in Hka. by rewrite <- list_fmap_compose in Hka. }
    apply Hdl1 in Hin. by rewrite Hpl in Hin. }
  assert (∀ k a, (k, a) ∈ la.*1 → length k = length ks ∧
    length a = length (other_variables (Implemented_variables rl) ks)) as Hlens
    by (intros k a Hka%Hkeyed; by apply keyed_lengths in Hka).
  eexists _, _, out. split; [done|]. split; [exact Hout|]. split.
  { intros t. rewrite Hpout. rewrite <- list_fmap_compose.
    intros ([[k a] w] & -> & Hka)%list_elem_of_fmap. simpl.
    destruct (Hlens k a) as [Hk Ha]; [apply list_elem_of_fmap; by eexists (_, _)|].
    by rewrite !length_app, Hk, Ha. }
  split; [done|]. split.
  { intros x v Hx. rewrite !elem_of_column. intros (t & Ht & ->). rewrite Hpout in Ht.
    apply (elem_of_wmap (λ kt : list Value * list Value, kt.1 ++ kt.2)) in Ht as ([k a] & -> & Hka).
    apply Hkeyed, elem_of_wmap in Hka as (t0 & [= -> ->] & Ht0). exists t0.
    split; [done|]. cbn [fst snd cr_variables] in Hx |- *. unfold project. rewrite <- fmap_app.
    by apply env_assignment. }
  intros σ. set (wl := wt l _). set (wr := wt (wmap _ r) _).
  change (cr_variables _) with (ks ++ other_variables (Implemented_variables rl) ks).
  assert (wt out (σ <$> ks ++ other_variables (Implemented_variables rl) ks) =
    wt la (σ <$> ks, σ <$> other_variables (Implemented_variables rl) ks)) as ->.
  { apply wlist_equiv_perm in Hpout. rewrite (Hpout _), fmap_app.
    apply (wt_wmap_inj (λ kt : list Value * list Value, kt.1 ++ kt.2) la (_, _)).
    intros [k a] Hka. simpl. intros Heq. destruct (Hlens k a Hka) as [Hk Hl'].
    apply app_inj_1 in Heq as [-> ->]; [done|]. exact (eq_trans Hk (eq_sym (length_fmap σ ks))). }
  rewrite (Ha1 _), wt_app, wt_wneg, wt_wsemijoin. simpl.
  assert (wt kl (σ <$> ks, σ <$> other_variables (Implemented_variables rl) ks) = wl) as Hwl.
  { apply wlist_equiv_perm in Hpl. rewrite (Hpl _). apply keyed_weight; eauto. }
  assert (wt kr (σ <$> ks) = wr) as Hwr by (apply wlist_equiv_perm in Hpr; by rewrite (Hpr _)).
  destruct (Hdl2 (σ <$> ks, σ <$> other_variables (Implemented_variables rl) ks)) as [Hl1 Hl0].
  destruct (Hdr2 (σ <$> ks)) as [Hr1 Hr0]. rewrite Hwl in *. rewrite Hwr in *.
  split_and!.
  - intros H0. by rewrite (Hl0 H0).
  - intros Hpos Hpos'. by rewrite (Hl1 Hpos), (Hr1 Hpos').
  - intros Hpos Hz. by rewrite (Hl1 Hpos), (Hr0 Hz).
Qed.

(** (antijoin).  The antijoin of two inputs binding the target variables
    succeeds and runs without panics.  It binds the variables of its left
    input, and an assignment occurs once when it has a positive weight on the
    left and its target values have weight zero on the right, and not at all
    when the target values have a positive weight on the right or the
    assignment none on the left. *)
Theorem antijoin_spec d (implement : P → outcome (Implemented * Handle)) (self : Antijoin P)
    rl rr l r :
  input d (aj_variables self) implement (aj_left_plan self) rl l →
  input d (aj_variables self) implement (aj_right_plan self) rr r →
  (length (aj_variables self) ≤ length (Implemented_variables rl))%nat →
  ∃ rel h out, Antijoin_implement implement d self = Ret (ICollection rel, h) ∧
    run (cr_tuples rel) = Ret out ∧
    cr_variables rel = aj_variables self ++ other_variables (Implemented_variables rl) (aj_variables self) ∧
    ∀ σ : Var → Value,
      let wl := wt l (σ <$> Implemented_variables rl) in
      let wr := wt (wmap (project (Implemented_variables rr) (aj_variables self)) r)
                  (σ <$> aj_variables self) in
      (wl = 0%Z → wt out (σ <$> cr_variables rel) = 0%Z) ∧
      ((0 < wl)%Z → (0 < wr)%Z → wt out (σ <$> cr_variables rel) = 0%Z) ∧
      ((0 < wl)%Z → wr = 0%Z → wt out (σ <$> cr_variables rel) = 1%Z).
Proof.
  intros Hl Hr Hfit. destruct (Antijoin_implements d implement self rl rr l r Hl Hr Hfit)
    as (rel & h & out & Ha & Hrun & _ & Hv & _ & Hrest). eauto 10.
Qed.

Lemma Project_implements d (implement : P → outcome (Implemented * Handle)) (self : Project P) rel l :
  input d (pj_variables self) implement (pj_plan self) rel l →
  ∃ out h l', Project_implement implement d self = Ret (ICollection out, h) ∧
    cr_variables out = pj_variables self ∧ run (cr_tuples out) = Ret l' ∧
    l' ≡ₚ wmap (project (Implemented_variables rel) (pj_variables self)) l.
Proof.
  intros Hin. destruct (input_projected _ _ _ _ _ _ Hin) as (c & h' & l' & Hp & Hl' & Hperm).
  destruct Hin as [[h Hi] _]. unfold Project_implement. rewrite Hi. simpl. rewrite Hp. simpl.
  eexists _, _, l'. done.
Qed.

(** (projection stages).  Projecting an input onto variables it binds
    succeeds, runs without panics, and holds the values of those variables in
    the requested order, weights of tuples that coincide adding up.  Asking a
    collection for a variable it does not bind also builds, but the dataflow
    panics as soon as a tuple arrives. *)
Theorem project_spec d (implement : P → outcome (Implemented * Handle)) (self : Project P) rel l :
  (input d (pj_variables self) implement (pj_plan self) rel l →
   ∃ out h l', Project_implement implement d self = Ret (ICollection out, h) ∧
     cr_variables out = pj_variables self ∧ run (cr_tuples out) = Ret l' ∧
     l' ≡ₚ wmap (project (Implemented_variables rel) (pj_variables self)) l) ∧
  (∀ r h, implement (pj_plan self) = Ret (ICollection r, h) → run (cr_tuples r) = Ret l →
   (∃ x, x ∈ pj_variables self ∧ x ∉ cr_variables r) →
   ∃ out h', Project_implement implement d self = Ret (ICollection out, h') ∧
     is_panic (run (cr_tuples out)) = negb (bool_decide (l = []))).
Proof.
  split.
  - apply Project_implements.
  - intros r h Hi Hl (x & Hx & Hnx). unfold Project_implement. rewrite Hi. simpl.
    unfold CollectionRelation_projected, CollectionRelation_variables.
    rewrite bool_decide_false by (intros Heq; by rewrite Heq in Hnx). simpl. eexists _, _. split; [done|]. simpl.
    pose proof (run_map (project_closure (cr_variables r) (pj_variables self)) (cr_tuples r)) as Hm.
    rewrite Hl in Hm. simpl in Hm. apply run_rel_panic in Hm. rewrite Hm.
    destruct l as [|[t w] l]; [done|]. rewrite bool_decide_false by done. simpl.
    assert (is_panic (project_closure (cr_variables r) (pj_variables self) t) = true) as Hpan.
    { clear -Hx Hnx. induction (pj_variables self) as [|y ys IH]; [by apply not_elem_of_nil in Hx|].
      unfold project_closure. rewrite mapM_outcome_cons.
      destruct (decide (x = y)) as [<-|Hne].
      - apply Vec_binds_None in Hnx. by rewrite Hnx.
      - destruct (expect _ _) as [i|]; [|done]. simpl. destruct (index t i); [|done]. simpl.
        assert (x ∈ ys) as Hxs by set_solver. specialize (IH Hxs). unfold project_closure in IH.
        by destruct (mapM_outcome _ ys). }
    by destruct (project_closure _ _ t).
Qed.
End sets.
