(* ===== verification/FilterTransform.v ===== *)
(** * Filters and transformations

    [Filter] keeps the assignments its predicate holds of; [Transform] extends
    every tuple by the value of its function, [i64] arithmetic wrapping. *)
From Stdlib Require Import ZArith NArith Lia.
From stdpp Require Import base strings numbers list gmap sets.
From S2P Require Import Prelude Timestamps Values Bindings Sessions Weighted Dataflow Domains.
From S2P Require Import Relations RelationTheorems PlanOps JoinTheorems.

Section offsets.
Context `{EV : ExternValues, DF : Differential}.
Context {T : Type} `{TR : !Traces T} {Rule : Type}.
Implicit Types (d : Domain T Rule) (rel : Implemented) (t : list Value).

Lemma Implemented_binds_Vec rel x : Implemented_binds rel x = Vec_binds (Implemented_variables rel) x.
Proof.
  destruct rel as [b|r]; [|done]. simpl.
  unfold AttributeBinding_binds, pair_binds, AttributeBinding_variables, pair_variables, Vec_binds.
  simpl. rewrite (N.eqb_sym x), (N.eqb_sym x).
  by destruct (_ =? x)%N; [|destruct (_ =? x)%N].
Qed.

(** The offsets of bound variables point at their values. *)
Lemma key_offsets_env rel xs :
  xs ⊆ Implemented_variables rel →
  ∃ offs, key_offsets_of rel xs = Ret offs ∧
    Forall2 (λ o x, ∀ t, length t = length (Implemented_variables rel) →
      index t o = Ret (env (Implemented_variables rel) t x)) offs xs.
Proof.
  unfold key_offsets_of. induction xs as [|x xs IH]; intros Hxs; [by exists []|].
  destruct IH as (offs & Hoffs & Hall); [set_solver|].
  assert (x ∈ Implemented_variables rel) as Hx by set_solver.
  rewrite mapM_outcome_cons, Implemented_binds_Vec.
  destruct (Vec_binds (Implemented_variables rel) x) as [i|] eqn:Hi; [|by apply Vec_binds_None in Hi].
  cbn [expect obind]. rewrite Hoffs. exists (i :: offs). split; [done|]. constructor; [|done].
  intros t Hlen. destruct (env_lookup _ t x Hx Hlen) as (j & Hj & Ht).
  unfold index. rewrite Hi in Hj. injection Hj as <-. by rewrite Ht.
Qed.

Lemma offset_at rel offs xs i x t :
  Forall2 (λ o x, ∀ t, length t = length (Implemented_variables rel) →
      index t o = Ret (env (Implemented_variables rel) t x)) offs xs →
  xs !! i = Some x → length t = length (Implemented_variables rel) →
  (let! offset := index offs i in index t offset) = Ret (env (Implemented_variables rel) t x).
Proof.
  intros Hall Hx Hlen. destruct (Forall2_lookup_r _ _ _ _ _ Hall Hx) as (o & Ho & Ht).
  unfold index at 1. rewrite Ho. simpl. by apply Ht.
Qed.

(** Projecting a relation to all of its own variables. *)
Lemma projected_self rel d l :
  relation_wf rel d → rel_run rel d = Ret l →
  ∃ c h l', Implemented_projected rel d (Implemented_variables rel) = Ret (c, h) ∧
    run c = Ret l' ∧ l' ≡ₚ l.
Proof.
  intros Hwf Hl. pose proof (projected_cases rel d (Implemented_variables rel) Hwf ltac:(done)) as Hc.
  destruct (Implemented_projected rel d (Implemented_variables rel)) as [[c h]|].
  - rewrite Hl in Hc. apply run_rel_Ret_l in Hc as (l' & Hl' & Hp). exists c, h, l'.
    split; [done|]. split; [done|]. destruct Hwf as [Hnd Hlen].
    rewrite wmap_project_self in Hp; [done|done|]. intros t. by apply Hlen.
  - exfalso. destruct rel as [b|r]; [|done]. simpl in *. destruct Hc as [Hn|Hn].
    + unfold import_propose, Domain_forward_propose in Hl. by rewrite Hn in Hl.
    + apply Hn. unfold attribute_keys, AttributeBinding_variables, pair_variables.
      destruct (ab_variables b). simpl. set_solver.
Qed.

Lemma tuples_self rel d l :
  relation_wf rel d → rel_run rel d = Ret l →
  ∃ c h l', Implemented_tuples rel d = Ret (c, h) ∧ run c = Ret l' ∧ l' ≡ₚ l.
Proof.
  intros Hwf Hl. destruct rel as [b|r]; [exact (projected_self (IAttribute b) d l Hwf Hl)|].
  simpl in *. unfold CollectionRelation_tuples. eauto 10.
Qed.
End offsets.

Section filter.
Context `{EV : ExternValues, DF : Differential}.
Context {T : Type} `{TR : !Traces T} {Rule : Type}.
Context {P : Type}.
Implicit Types (d : Domain T Rule) (rel : Implemented).

(** The two operands of the predicate: a constant in the first or the second
    position and a variable, or two variables. *)
Definition filter_operands (self : Filter P) (σ : Var → Value) : option (Value * Value) :=
  match fi_constants self, fi_variables self with
  | Some c :: _, x :: _ => Some (c, σ x)
  | None :: Some c :: _, x :: _ => Some (σ x, c)
  | None :: None :: _, x :: y :: _ => Some (σ x, σ y)
  | _, _ => None
  end.

Definition filter_holds (self : Filter P) (σ : Var → Value) : bool :=
  match filter_operands self σ with
  | Some (a, b) =>
      match fi_predicate self with
      | LT => bool_decide (cmp a b = Lt)
      | LTE => bool_decide (cmp a b ≠ Gt)
      | GT => bool_decide (cmp a b = Gt)
      | GTE => bool_decide (cmp a b ≠ Lt)
      | EQ => bool_decide (a = b)
      | NEQ => bool_decide (a ≠ b)
      end
  | None => false
  end.

Lemma binary_predicate_holds p a b :
  binary_predicate p a b =
  match p with
  | LT => bool_decide (cmp a b = Lt)
  | LTE => bool_decide (cmp a b ≠ Gt)
  | GT => bool_decide (cmp a b = Gt)
  | GTE => bool_decide (cmp a b ≠ Lt)
  | EQ => bool_decide (a = b)
  | NEQ => bool_decide (a ≠ b)
  end.
Proof.
  pose proof (cmp_antisym a b) as Hba.
  destruct p; simpl; unfold lt, gt, lte, gte, eq, neq, cmp_lt, cmp_le; try rewrite Hba;
    try (by destruct (cmp a b)).
  destruct (decide (a = b)) as [H|H].
  - rewrite bool_decide_true, bool_decide_false; tauto.
  - rewrite bool_decide_false, bool_decide_true; tauto.
Qed.

Lemma Filter_implements d (implement : P → outcome (Implemented * ShutdownHandle (Button (T := T))))
    (self : Filter P) rel h l :
  implement (fi_plan self) = Ret (rel, h) → relation_wf rel d → rel_run rel d = Ret l →
  fi_variables self ⊆ Implemented_variables rel →
  is_some (filter_operands self (λ _, VEid 0)) = true →
  ∃ out h' l', Filter_implement implement d self = Ret (ICollection out, h') ∧
    cr_variables out = Implemented_variables rel ∧ run (cr_tuples out) = Ret l' ∧
    l' ≡ₚ wfilter (λ t, filter_holds self (env (Implemented_variables rel) t)) l.
Proof.
  intros Hi Hwf Hl Hxs Hops. unfold Filter_implement. rewrite Hi. simpl.
  destruct (key_offsets_env rel (fi_variables self) Hxs) as (offs & -> & Hall). simpl.
  destruct (projected_self rel d l Hwf Hl) as (c & hc & lc & -> & Hlc & Hpc). simpl.
  set (vs := Implemented_variables rel) in *.
  assert (∀ t, t ∈ lc.*1 → length t = length vs) as Hlen.
  { intros t Ht. rewrite Hpc in Ht. destruct Hwf as [_ Hw]. by eapply Hw. }
  assert (∀ (f : list Value → outcome bool),
    (∀ t, t ∈ lc.*1 → f t = Ret (filter_holds self (env vs t))) →
    ∃ l', run (c_filter f c) = Ret l' ∧ l' ≡ₚ wfilter (λ t, filter_holds self (env vs t)) l) as Hgoal.
  { intros f Hf. destruct (run_filter_pure f (λ t, filter_holds self (env vs t)) c lc Hlc Hf)
      as (l' & Hl' & Hp). exists l'. split; [done|]. unfold wfilter. by rewrite Hp, Hpc. }
  assert (∀ i x t, fi_variables self !! i = Some x → t ∈ lc.*1 →
    (let! offset := index offs i in index t offset) = Ret (env vs t x)) as Hat.
  { intros i x t Hx Ht. by apply (offset_at rel offs (fi_variables self)); auto. }
  assert (∀ t a b, filter_operands self (env vs t) = Some (a, b) →
    filter_holds self (env vs t) = binary_predicate (fi_predicate self) a b) as Hholds.
  { intros t a b Hab. unfold filter_holds. by rewrite Hab, binary_predicate_holds. }
  unfold filter_operands in Hops, Hholds.
  destruct (fi_constants self) as [|[c0|] cs]; [done| |]; simpl.
  - destruct (fi_variables self) as [|x xs]; [done|].
    edestruct Hgoal as (l' & Hl' & Hw); [|by eexists _, _, l'].
    intros t Ht. cbv beta. rewrite (Hat 0 x t) by done. simpl. by erewrite Hholds.
  - destruct cs as [|[c1|] cs]; [done| |]; simpl.
    + destruct (fi_variables self) as [|x xs]; [done|].
      edestruct Hgoal as (l' & Hl' & Hw); [|by eexists _, _, l'].
      intros t Ht. cbv beta. rewrite (Hat 0 x t) by done. simpl. by erewrite Hholds.
    + destruct (fi_variables self) as [|x [|y xs]]; [done|done|].
      edestruct Hgoal as (l' & Hl' & Hw); [|by eexists _, _, l'].
      intros t Ht. cbv beta. rewrite (Hat 0 x t), (Hat 1 y t) by done. simpl. by erewrite Hholds.
Qed.
Lemma filter_holds_env (self : Filter P) vs σ :
  fi_variables self ⊆ vs → filter_holds self (env vs (σ <$> vs)) = filter_holds self σ.
Proof.
  intros Hxs. assert (∀ x, x ∈ fi_variables self → env vs (σ <$> vs) x = σ x) as Henv
    by (intros; apply env_assignment; auto).
  unfold filter_holds, filter_operands.
  destruct (fi_constants self) as [|[c0|] [|[c1|] ?]], (fi_variables self) as [|x [|y ?]];
    rewrite ?Henv by set_solver; done.
Qed.

(** (filters).  A filter whose variables its input binds, with operands for
    its predicate, succeeds and runs without panics; it keeps exactly the
    assignments the predicate holds of, with their weights, the comparison
    being the derived order of values and the operands in the order written. *)
Theorem filter_spec d (implement : P → outcome (Implemented * ShutdownHandle (Button (T := T))))
    (self : Filter P) rel h l :
  implement (fi_plan self) = Ret (rel, h) → relation_wf rel d → rel_run rel d = Ret l →
  fi_variables self ⊆ Implemented_variables rel →
  is_some (filter_operands self (λ _, VEid 0)) = true →
  ∃ out h' l', Filter_implement implement d self = Ret (ICollection out, h') ∧
    cr_variables out = Implemented_variables rel ∧ run (cr_tuples out) = Ret l' ∧
    ∀ σ : Var → Value, wt l' (σ <$> Implemented_variables rel) =
      if filter_holds self σ then wt l (σ <$> Implemented_variables rel) else 0%Z.
Proof.
  intros Hi Hwf Hl Hxs Hops.
  destruct (Filter_implements d implement self rel h l Hi Hwf Hl Hxs Hops)
    as (out & h' & l' & Hf & Hv & Hr & Hp). exists out, h', l'. split_and!; [done..|].
  intros σ. apply wlist_equiv_perm in Hp. rewrite (Hp _), wt_wfilter. by rewrite filter_holds_env.
Qed.
End filter.

Section transform.
Context `{EV : ExternValues, DF : Differential}.
Context {T : Type} `{TR : !Traces T} {Rule : Type}.
Context {P : Type}.
Implicit Types (d : Domain T Rule) (rel : Implemented) (σ : Var → Value).

Definition number (v : Value) : option Z := match v with VNumber z => Some z | _ => None end.

(** The windows [TRUNCATE] knows, in milliseconds. *)
Definition window (interval : option Value) : option N :=
  match interval with
  | None => Some 3600000%N
  | Some (VString s) => match mod_val s with Ret m => Some m | Panic _ => None end
  | _ => None
  end.

(** What a transformation computes from an assignment; [None] where it panics. *)
Definition transform_value (self : Transform P) σ : option Value :=
  match tr_function self with
  | TRUNCATE =>
      match tr_variables self, tr_constants self with
      | x :: _, _ :: interval :: _ =>
          match σ x with
          | VInstant t => m ← window interval; Some (VInstant (m * (t / m)))
          | _ => None
          end
      | _, _ => None
      end
  | ADD =>
      xs ← mapM number (σ <$> tr_variables self);
      cs ← mapM number (omap id (tr_constants self));
      Some (VNumber (wrap_i 64 (sumZ xs + sumZ cs)))
  | SUBTRACT =>
      match tr_constants self with
      | Some c :: constants =>
          m ← number c;
          xs ← mapM number (σ <$> tr_variables self);
          cs ← mapM number (omap id constants);
          Some (VNumber (wrap_i 64 (m - sumZ xs - sumZ cs)))
      | None :: constants =>
          match tr_variables self with
          | x :: rest =>
              m ← number (σ x);
              xs ← mapM number (σ <$> rest);
              cs ← mapM number (omap id constants);
              Some (VNumber (wrap_i 64 (m - sumZ xs - sumZ cs)))
          | [] => None
          end
      | [] => None
      end
  end.

Lemma as_number_number msg v z : number v = Some z → as_number msg v = Ret z.
Proof. destruct v; simpl; congruence. Qed.

(** The offsets point at the values of the variables in the tuple. *)
Definition offsets_point (offs : list nat) (xs : list Var) σ (t : list Value) : Prop :=
  Forall2 (λ o x, index t o = Ret (σ x)) offs xs.

Lemma wrap_add_step a b s : wrap_i 64 (wrap_i 64 (a + b) + s) = wrap_i 64 (a + (b + s)).
Proof. rewrite wrap_i64_add_l. f_equal. lia. Qed.

Lemma accumulate_variables_add msg t offs xs σ zs r :
  offsets_point offs xs σ t → mapM number (σ <$> xs) = Some zs →
  accumulate_variables Z.add msg t offs (wrap_i 64 r) = Ret (wrap_i 64 (r + sumZ zs)).
Proof.
  intros Hp. revert r zs. induction Hp as [|o x offs xs Ho Hp IH]; intros r zs Hzs.
  - simpl in Hzs. injection Hzs as <-. simpl. f_equal. f_equal. unfold sumZ. simpl. lia.
  - csimpl in Hzs. apply bind_Some in Hzs as (z & Hz & Hzs).
    apply bind_Some in Hzs as (zs' & Hzs & [= <-]). simpl. rewrite Ho. simpl.
    rewrite (as_number_number _ _ _ Hz). simpl. rewrite wrap_i64_add_l, (IH _ _ Hzs).
    f_equal. f_equal. unfold sumZ. simpl. lia.
Qed.

Lemma accumulate_constants_add msg cs zs r :
  mapM number (omap id cs) = Some zs →
  accumulate_constants Z.add msg cs (wrap_i 64 r) = Ret (wrap_i 64 (r + sumZ zs)).
Proof.
  revert r zs. induction cs as [|[c|] cs IH]; intros r zs Hzs; csimpl in Hzs.
  - injection Hzs as <-. simpl. f_equal. f_equal. unfold sumZ. simpl. lia.
  - apply bind_Some in Hzs as (z & Hz & Hzs).
    apply bind_Some in Hzs as (zs' & Hzs & [= <-]). simpl.
    rewrite (as_number_number _ _ _ Hz). simpl. rewrite wrap_i64_add_l, (IH _ _ Hzs).
    f_equal. f_equal. unfold sumZ. simpl. lia.
  - simpl. by apply IH.
Qed.

(** Subtraction adds the negated numbers. *)
Lemma wrap_sub_l a b : wrap_i 64 (wrap_i 64 a - b) = wrap_i 64 (a - b).
Proof. apply (wrap_i64_add_l a (- b)). Qed.

Lemma accumulate_variables_sub msg t offs xs σ zs r :
  offsets_point offs xs σ t → mapM number (σ <$> xs) = Some zs →
  accumulate_variables Z.sub msg t offs (wrap_i 64 r) = Ret (wrap_i 64 (r - sumZ zs)).
Proof.
  intros Hp. revert r zs. induction Hp as [|o x offs xs Ho Hp IH]; intros r zs Hzs.
  - simpl in Hzs. injection Hzs as <-. simpl. f_equal. f_equal. unfold sumZ. simpl. lia.
  - csimpl in Hzs. apply bind_Some in Hzs as (z & Hz & Hzs).
    apply bind_Some in Hzs as (zs' & Hzs & [= <-]). simpl. rewrite Ho. simpl.
    rewrite (as_number_number _ _ _ Hz). simpl. rewrite wrap_sub_l, (IH _ _ Hzs).
    f_equal. f_equal. unfold sumZ. simpl. lia.
Qed.

Lemma accumulate_constants_sub msg cs zs r :
  mapM number (omap id cs) = Some zs →
  accumulate_constants Z.sub msg cs (wrap_i 64 r) = Ret (wrap_i 64 (r - sumZ zs)).
Proof.
  revert r zs. induction cs as [|[c|] cs IH]; intros r zs Hzs; csimpl in Hzs.
  - injection Hzs as <-. simpl. f_equal. f_equal. unfold sumZ. simpl. lia.
  - apply bind_Some in Hzs as (z & Hz & Hzs).
    apply bind_Some in Hzs as (zs' & Hzs & [= <-]). simpl.
    rewrite (as_number_number _ _ _ Hz). simpl. rewrite wrap_sub_l, (IH _ _ Hzs).
    f_equal. f_equal. unfold sumZ. simpl. lia.
  - simpl. by apply IH.
Qed.

Lemma truncate_floor t m : m ≠ 0%N → (t - t mod m = m * (t / m))%N.
Proof.
  intros Hm. pose proof (N.div_mod t m Hm) as Ht. revert Ht.
  generalize (m * (t / m))%N, (t mod m)%N. intros. lia.
Qed.

Lemma mod_val_pos s m : mod_val s = Ret m → m ≠ 0%N.
Proof. unfold mod_val. repeat case_bool_decide; naive_solver. Qed.

Lemma transform_truncate_ok self σ v t offs :
  tr_function self = TRUNCATE → offsets_point offs (tr_variables self) σ t →
  transform_value self σ = Some v →
  transform_truncate offs (tr_constants self) t = Ret (t ++ [v]).
Proof.
  intros Hf Hp. unfold transform_value. rewrite Hf.
  destruct Hp as [|o x offs xs Ho Hp]; [done|].
  destruct (tr_constants self) as [|c0 [|c1 cs]]; [done..|].
  destruct (σ x) as [| | | | | |i|] eqn:Hx; try done. intros Hv.
  apply bind_Some in Hv as (m & Hm & [= <-]).
  unfold transform_truncate, index at 1. simpl. rewrite Ho. simpl. 
  unfold index. simpl. unfold window in Hm.
  destruct c1 as [[|s| | | | | |]|]; try done; simpl.
  - destruct (mod_val s) as [m'|] eqn:Hs; [|done]. injection Hm as <-. simpl.
    by rewrite truncate_floor by (by eapply mod_val_pos).
  - injection Hm as <-. by rewrite truncate_floor.
Qed.

Lemma transform_add_ok self σ v t offs :
  tr_function self = ADD → offsets_point offs (tr_variables self) σ t →
  transform_value self σ = Some v →
  transform_add offs (tr_constants self) t = Ret (t ++ [v]).
Proof.
  intros Hf Hp. unfold transform_value. rewrite Hf. intros Hv.
  apply bind_Some in Hv as (xs & Hxs & Hv). apply bind_Some in Hv as (cs & Hcs & [= <-]).
  unfold transform_add. change 0%Z with (wrap_i 64 0).
  rewrite (accumulate_variables_add _ _ _ _ _ _ _ Hp Hxs). cbn [obind].
  by rewrite (accumulate_constants_add _ _ _ _ Hcs).
Qed.

Ltac wrapped_number_eq :=
  match goal with |- Ret (?t ++ [VNumber (wrap_i 64 ?a)]) = Ret (?t ++ [VNumber (wrap_i 64 ?b)]) =>
    replace a with b; [done|unfold sumZ; simpl; lia] end.

Lemma transform_subtract_ok self σ v t offs :
  tr_function self = SUBTRACT → offsets_point offs (tr_variables self) σ t →
  transform_value self σ = Some v →
  transform_subtract offs (tr_constants self) t = Ret (t ++ [v]).
Proof.
  intros Hf Hp. unfold transform_value. rewrite Hf.
  destruct (tr_constants self) as [|[c|] constants]; [done| |]; intros Hv.
  - apply bind_Some in Hv as (m & Hm & Hv). apply bind_Some in Hv as (xs & Hxs & Hv).
    apply bind_Some in Hv as (cs & Hcs & [= <-]).
    unfold transform_subtract, index at 1. cbn [lookup list_lookup expect obind].
    rewrite (as_number_number _ _ _ Hm). cbn [obind].
    rewrite (accumulate_variables_sub _ _ _ _ _ _ _ Hp Hxs). cbn [obind].
    erewrite (accumulate_constants_sub _ (Some c :: constants) (m :: cs)).
    + cbn [obind]. wrapped_number_eq.
    + csimpl. rewrite Hm. simpl. by setoid_rewrite Hcs.
  - destruct Hp as [|o x offs rest Ho Hp]; [done|].
    apply bind_Some in Hv as (m & Hm & Hv). apply bind_Some in Hv as (xs & Hxs & Hv).
    apply bind_Some in Hv as (cs & Hcs & [= <-]).
    unfold transform_subtract. unfold index at 1 2. cbn [lookup list_lookup expect obind].
    rewrite Ho. cbn [obind]. rewrite (as_number_number _ _ _ Hm). cbn [obind].
    assert (mapM number (σ <$> x :: rest) = Some (m :: xs)) as Hall
      by (csimpl; rewrite Hm; simpl; by setoid_rewrite Hxs).
    erewrite (accumulate_variables_sub _ _ _ (x :: rest)); [|by constructor|exact Hall].
    cbn [obind]. erewrite (accumulate_constants_sub _ (None :: constants) cs) by done.
    cbn [obind]. wrapped_number_eq.
Qed.

(** A transformation looks at its variables only. *)
Lemma transform_value_ext (self : Transform P) (σ τ : Var → Value) :
  (∀ x, x ∈ tr_variables self → σ x = τ x) → transform_value self σ = transform_value self τ.
Proof.
  intros Hx. unfold transform_value. pose proof (proj2 (fmap_agree σ τ (tr_variables self)) Hx) as Hmap.
  destruct (tr_function self).
  - destruct (tr_variables self) as [|x xs]; [done|]. by rewrite Hx by set_solver.
  - by rewrite Hmap.
  - destruct (tr_constants self) as [|[c|] cs]; [done|by rewrite Hmap|].
    destruct (tr_variables self) as [|x xs]; [done|]. rewrite (Hx x) by set_solver.
    rewrite (proj2 (fmap_agree σ τ xs)); [done|]. intros y Hy. apply Hx. set_solver.
Qed.

Lemma Transform_implements d (implement : P → outcome (Implemented * ShutdownHandle (Button (T := T))))
    (self : Transform P) rel h l (f : list Value → Value) :
  implement (tr_plan self) = Ret (rel, h) → relation_wf rel d → rel_run rel d = Ret l →
  tr_variables self ⊆ Implemented_variables rel →
  (∀ t, t ∈ l.*1 → transform_value self (env (Implemented_variables rel) t) = Some (f t)) →
  ∃ out h' l', Transform_implement implement d self = Ret (ICollection out, h') ∧
    cr_variables out = Implemented_variables rel ++ [tr_result_variable self] ∧
    run (cr_tuples out) = Ret l' ∧ l' ≡ₚ wmap (λ t, t ++ [f t]) l.
Proof.
  intros Hi Hwf Hl Hxs Hval. unfold Transform_implement. rewrite Hi. simpl.
  destruct (key_offsets_env rel (tr_variables self) Hxs) as (offs & -> & Hall). simpl.
  destruct (tuples_self rel d l Hwf Hl) as (c & hc & lc & -> & Hlc & Hpc). simpl.
  set (vs := Implemented_variables rel) in *.
  assert (∀ t, t ∈ lc.*1 → offsets_point offs (tr_variables self) (env vs t) t ∧
    transform_value self (env vs t) = Some (f t)) as Ht.
  { intros t Ht. rewrite Hpc in Ht. split; [|by apply Hval].
    eapply Forall2_impl; [exact Hall|]. intros o x Hox. apply Hox.
    destruct Hwf as [_ Hw]. by eapply Hw. }
  assert (∀ g : list Value → outcome (list Value),
    (∀ t, t ∈ lc.*1 → g t = Ret (t ++ [f t])) →
    ∃ l', run (c_map g c) = Ret l' ∧ l' ≡ₚ wmap (λ t, t ++ [f t]) l) as Hgoal.
  { intros g Hg. destruct (run_map_pure g (λ t, t ++ [f t]) c lc Hlc Hg) as (l' & Hl' & Hp).
    exists l'. split; [done|]. by rewrite Hp, Hpc. }
  destruct (tr_function self) eqn:Hf.
  - destruct (Hgoal (transform_truncate offs (tr_constants self))) as (l' & Hl' & Hp).
    { intros t Hin. destruct (Ht t Hin). by eapply transform_truncate_ok. }
    by eexists _, _, l'.
  - destruct (Hgoal (transform_add offs (tr_constants self))) as (l' & Hl' & Hp).
    { intros t Hin. destruct (Ht t Hin). by eapply transform_add_ok. }
    by eexists _, _, l'.
  - destruct (Hgoal (transform_subtract offs (tr_constants self))) as (l' & Hl' & Hp).
    { intros t Hin. destruct (Ht t Hin). by eapply transform_subtract_ok. }
    by eexists _, _, l'.
Qed.

(** (transformations).  A transformation whose variables its input binds, and
    whose function is defined on every tuple of the input, succeeds and runs
    without panics; it appends to every tuple the function's value: the start
    of the instant's minute, hour, day or week; the sum of all numbers; or the
    first operand minus all others, both modulo 2^64. *)
Theorem transform_spec d (implement : P → outcome (Implemented * ShutdownHandle (Button (T := T))))
    (self : Transform P) rel h l (f : list Value → Value) :
  implement (tr_plan self) = Ret (rel, h) → relation_wf rel d → rel_run rel d = Ret l →
  tr_variables self ⊆ Implemented_variables rel →
  (∀ t, t ∈ l.*1 → transform_value self (env (Implemented_variables rel) t) = Some (f t)) →
  ∃ out h' l', Transform_implement implement d self = Ret (ICollection out, h') ∧
    cr_variables out = Implemented_variables rel ++ [tr_result_variable self] ∧
    run (cr_tuples out) = Ret l' ∧ l' ≡ₚ wmap (λ t, t ++ [f t]) l.
Proof. apply Transform_implements. Qed.
End transform.
