(* ===== verification/Aggregates.v ===== *)
(** * Aggregation (src/src/plan/aggregate_neu.rs)

    The default aggregation stage (multiset semantics).  Tuples are split into a
    key and values, every aggregation function reduces the values of each key,
    and the results are joined and inserted into the key at precomputed output
    offsets. *)
From Stdlib Require Import ZArith NArith Lia Sorting.Sorted.
From stdpp Require Import base strings numbers list gmap sets sorting.
From S2P Require Import Prelude Timestamps Values Bindings Sessions Weighted Dataflow Domains.
From S2P Require Import Relations RelationTheorems PlanOps JoinTheorems.

(** [Vec::insert]. *)
Definition vec_insert {A} (l : list A) (i : nat) (x : A) : outcome (list A) :=
  if i <=? length l then Ret (take i l ++ x :: drop i l)
  else Panic "insertion index should be <= len".

Section aggregate.
Context `{EV : ExternValues, DF : Differential}.
Context {T : Type} `{TR : !Traces T} {Rule : Type}.
Context {P : Type}.
Abbreviation Handle := (ShutdownHandle (Button (T := T))) (only parsing).
Abbreviation Implementation := (outcome (Implemented * Handle)) (only parsing).
Abbreviation Keyed := (list Value * list Value)%type (only parsing).

Inductive AggregationFn := MIN | MAX | MEDIAN | COUNT | SUM | AVG | VARIANCE.

Record Aggregate := mkAggregate {
  ag_variables : list Var;
  ag_plan : P;
  ag_aggregation_fns : list AggregationFn;
  ag_key_variables : list Var;
  ag_aggregation_variables : list Var;
  ag_with_variables : list Var
}.

(** The loop computing [value_offsets], threading [seen]. *)
Fixpoint value_offsets_from (seen : list Var) (vars : list Var) : outcome (list nat) :=
  match vars with
  | [] => Ret []
  | x :: vars' =>
      if bool_decide (x ∈ seen) then
        let! o := expect "called `Option::unwrap()` on a `None` value" (Vec_binds seen x) in
        let! os := value_offsets_from seen vars' in
        Ret (o :: os)
      else
        let seen' := seen ++ [x] in
        let! os := value_offsets_from seen' vars' in
        Ret ((length seen' - 1) :: os)
  end.

(** The loop computing [output_offsets]: consumed slots are overwritten by 0. *)
Fixpoint output_offsets_from (variables : list Var) (vars : list Var) : outcome (list nat) :=
  match vars with
  | [] => Ret []
  | x :: vars' =>
      let! output_index := expect "called `Option::unwrap()` on a `None` value"
                             (Vec_binds variables x) in
      let! os := output_offsets_from (<[output_index := 0%N]> variables) vars' in
      Ret (output_index :: os)
  end.

Definition prepare_unary (value_offset with_length : nat) (kt : Keyed) : outcome Keyed :=
  let! value := index kt.2 value_offset in
  let v := [value] in
  let v := if 0 <? with_length then v ++ take with_length (reverse kt.2) else v in
  Ret (kt.1, v).

(** The closures given to [reduce]. *)
Definition first_component (v : list Value * Z) : outcome Value := index v.1 0.

Definition reduce_min (_ : list Value) (vals : list (list Value * Z))
    : outcome (list (list Value * Z)) :=
  let! v := index vals 0 in
  let! min := first_component v in Ret [([min], 1%Z)].
Definition reduce_max (_ : list Value) (vals : list (list Value * Z))
    : outcome (list (list Value * Z)) :=
  let! v := index vals (length vals - 1) in
  let! max := first_component v in Ret [([max], 1%Z)].
Definition reduce_median (_ : list Value) (vals : list (list Value * Z))
    : outcome (list (list Value * Z)) :=
  let! v := index vals (length vals / 2) in
  let! median := first_component v in Ret [([median], 1%Z)].
Definition reduce_count (_ : list Value) (input : list (list Value * Z))
    : outcome (list (list Value * Z)) :=
  let total_count := foldl (λ acc v, wrap_i 64 (acc + v.2)) 0%Z input in
  Ret [([VNumber total_count], 1%Z)].

(** The closures given to [explode], and those mapping the accumulated
    differences. *)
Definition number_of (msg : string) (val : list Value) : outcome Z :=
  let! v := index val 0 in as_number msg v.

Definition explode_sum (kv : Keyed) : outcome (list (list Value * Z)) :=
  let! v := number_of "SUM can only be applied on type Number." kv.2 in
  Ret [(kv.1, wrap_i 64 v)].
Definition finish_sum (kc : list Value * Z) : outcome Keyed := Ret (kc.1, [VNumber kc.2]).

Definition explode_avg (kv : Keyed) : outcome (list (list Value * DiffPair Z Z)) :=
  let! v := number_of "AVG can only be applied on type Number." kv.2 in
  Ret [(kv.1, mkDiffPair (wrap_i 64 v) 1%Z)].
Definition finish_avg (kc : list Value * DiffPair Z Z) : outcome Keyed :=
  let! r := Ratio_new (wrap_i 32 (element1 kc.2)) (wrap_i 32 (element2 kc.2)) in
  Ret (kc.1, [VRational32 r]).

Definition explode_variance (kv : Keyed)
    : outcome (list (list Value * DiffPair (DiffPair Z Z) Z)) :=
  let! v := number_of "VARIANCE can only be applied on type Number." kv.2 in
  Ret [(kv.1, mkDiffPair (mkDiffPair (wrap_i 64 (v * v)) (wrap_i 64 v)) 1%Z)].
Definition finish_variance (kc : list Value * DiffPair (DiffPair Z Z) Z) : outcome Keyed :=
  let sum_square := wrap_i 32 (element1 (element1 kc.2)) in
  let sum := wrap_i 32 (element2 (element1 kc.2)) in
  let c := wrap_i 32 (element2 kc.2) in
  let! mean_square := Ratio_new sum_square c in
  let! mean := Ratio_new sum c in
  Ret (kc.1, [VRational32 (Ratio_sub mean_square (Ratio_pow mean 2))]).

(** One aggregation over the split tuples. *)
Definition aggregate_collection (fn : AggregationFn) (prepare : Keyed → outcome Keyed)
    (tuples : Collection Keyed Z) : Collection Keyed Z :=
  let prepared := c_map prepare tuples in
  match fn with
  | MIN => c_reduce reduce_min prepared
  | MAX => c_reduce reduce_max prepared
  | MEDIAN => c_reduce reduce_median prepared
  | COUNT => c_reduce reduce_count prepared
  | SUM => c_map finish_sum (c_count (c_explode explode_sum prepared))
  | AVG => c_map finish_avg (c_count (c_explode explode_avg prepared))
  | VARIANCE => c_map finish_variance (c_count (c_explode explode_variance prepared))
  end.

(** [for (i, val) in vals.iter().enumerate() { v.insert(output_offsets[i], val) }]. *)
Fixpoint insert_all (output_offsets : list nat) (i : nat) (vals v : list Value)
    : outcome (list Value) :=
  match vals with
  | [] => Ret v
  | val :: vals' =>
      let! o := index output_offsets i in
      let! v' := vec_insert v o val in
      insert_all output_offsets (S i) vals' v'
  end.

Definition join_map (left right : Collection Keyed Z) : Collection Keyed Z :=
  c_join_core (λ key v1 v2, Ret [(key, v1 ++ v2)]) left right.

(** The stage, with the collection that each aggregation function makes of the split
    tuples. *)
Definition aggregate_stage
    (aggregate_collection : AggregationFn → (Keyed → outcome Keyed) → Collection Keyed Z → Collection Keyed Z)
    (implement : P → Implementation) (d : Domain T Rule) (self : Aggregate) : Implementation :=
  let! '(relation, shutdown_handle) := implement (ag_plan self) in
  let! '(tuples, shutdown) :=
    Implemented_tuples_by_variables relation d (ag_key_variables self) in
  let shutdown_handle := ShutdownHandle_merge_with shutdown_handle shutdown in
  let! value_offsets := value_offsets_from [] (ag_aggregation_variables self) in
  let! output_offsets :=
    output_offsets_from (ag_variables self) (ag_aggregation_variables self) in
  let with_length := length (ag_with_variables self) in
  let! collections := mapM_outcome (λ ifn : nat * AggregationFn,
    let! value_offset := index value_offsets ifn.1 in
    Ret (aggregate_collection ifn.2 (prepare_unary value_offset with_length) tuples))
    (imap pair (ag_aggregation_fns self)) in
  match collections with
  | [collection] =>
      let! output_index := index output_offsets 0 in
      let tuples := c_map (λ kv : Keyed,
        let! v := index kv.2 0 in vec_insert kv.1 output_index v) collection in
      Ret (ICollection (mkCollectionRelation (ag_variables self) tuples), shutdown_handle)
  | [] => Panic "removal index (is 0) should be < len (is 0)"
  | first :: rest =>
      let tuples := foldl join_map first rest in
      let tuples := c_map (λ kv : Keyed, insert_all output_offsets 0 kv.2 kv.1) tuples in
      Ret (ICollection (mkCollectionRelation (ag_variables self) tuples), shutdown_handle)
  end.

Definition Aggregate_implement : (P → Implementation) → Domain T Rule → Aggregate → Implementation :=
  aggregate_stage aggregate_collection.
End aggregate.
Arguments Aggregate : clear implicits.

Section aggregate_theorems.
Context `{EV : ExternValues, DF : Differential}.
Context {T : Type} `{TR : !Traces T} {Rule : Type}.
Context {P : Type}.
Implicit Types (d : Domain T Rule) (rel : Implemented).

(** *** What [reduce] presents is sorted *)

Lemma StronglySorted_dedup {A} `{EqDecision A} (R : A → A → Prop) l :
  StronglySorted R l → StronglySorted R (dedup l).
Proof.
  induction 1 as [|x l Hl IH Hx]; [constructor|]. destruct l as [|y l]; [repeat constructor|].
  change (StronglySorted R (if decide (x = y) then dedup (y :: l) else x :: dedup (y :: l))).
  case_decide; [done|]. constructor; [done|]. rewrite Forall_forall in *.
  intros z Hz. apply Hx. by apply elem_of_dedup.
Qed.

Lemma group_sorted {K V} `{EqDecision K, EqDecision V, TotalOrd V} (l : wlist (K * V)) k :
  StronglySorted (λ a b, cmp_le a b = true) (group l k).*1 ∧ NoDup (group l k).*1.
Proof.
  unfold group. rewrite <- list_fmap_compose.
  rewrite (list_fmap_ext _ id) by done. rewrite list_fmap_id.
  assert (StronglySorted (λ a b : V, cmp_le a b = true)
    (sort_by cmp_le ((snd ∘ fst) <$> filter (λ p : (K * V) * Z, p.1.1 = k) l))) as Hs
    by (apply sort_by_sorted; [apply cmp_le_total|apply cmp_le_trans]).
  split; [by apply StronglySorted_filter, StronglySorted_dedup|].
  by apply NoDup_filter, NoDup_dedup_sorted.
Qed.

Lemma elem_of_group {K V} `{EqDecision K, EqDecision V, TotalOrd V} (l : wlist (K * V)) k v w :
  (v, w) ∈ group l k ↔ w = wt l (k, v) ∧ w ≠ 0%Z.
Proof.
  unfold group. rewrite list_elem_of_fmap. setoid_rewrite list_elem_of_filter. split.
  - intros (v' & [= -> ->] & Hw & _). done.
  - intros [-> Hw]. exists v. split; [done|]. split; [done|].
    rewrite elem_of_dedup, sort_by_perm. pose proof (wt_elem l (k, v) Hw) as Hin.
    apply list_elem_of_fmap in Hin as (p & Hp & Hin). apply list_elem_of_fmap. exists p.
    rewrite list_elem_of_filter. destruct p as [[k' v'] w']. simpl in *. by simplify_eq.
Qed.

Lemma group_fst {K V} `{EqDecision K, EqDecision V, TotalOrd V} (l : wlist (K * V)) k :
  group l k = (λ v, (v, wt l (k, v))) <$> (group l k).*1.
Proof.
  unfold group. set (vs := filter _ _).
  assert (((λ v, (v, wt l (k, v))) <$> vs).*1 = vs) as ->; [|done].
  rewrite <- list_fmap_compose. by apply list_fmap_id.
Qed.

(** Groups depend on the accumulated weights only. *)
Lemma group_equiv {K V} `{EqDecision K, EqDecision V, TotalOrd V} (l l' : wlist (K * V)) k :
  l ≡ l' → group l k = group l' k.
Proof.
  intros Hl. rewrite (group_fst l), (group_fst l').
  destruct (group_sorted l k) as [Hs Hnd], (group_sorted l' k) as [Hs' Hnd'].
  assert ((group l k).*1 = (group l' k).*1) as ->.
  { assert (AntiSymm (=) (λ a b : V, cmp_le a b = true)) by (intros a b; apply cmp_le_antisym).
    apply (StronglySorted_unique (λ a b : V, cmp_le a b = true)); [done..|].
    apply NoDup_Permutation; [done..|]. intros v. rewrite !list_elem_of_fmap. split.
    - intros ([v' w] & -> & Hin). apply elem_of_group in Hin as [-> Hw]. exists (v', wt l' (k, v')).
      rewrite elem_of_group. by rewrite <- (Hl (k, v')).
    - intros ([v' w] & -> & Hin). apply elem_of_group in Hin as [-> Hw]. exists (v', wt l (k, v')).
      rewrite elem_of_group. by rewrite (Hl (k, v')). }
  apply list_fmap_ext. intros i v _. by rewrite (Hl (k, v)).
Qed.

Lemma sumZ_single {K} `{EqDecision K} (f : K → Z) (xs : list K) k :
  NoDup xs → (∀ x, x ≠ k → f x = 0%Z) →
  sumZ (f <$> xs) = if decide (k ∈ xs) then f k else 0%Z.
Proof.
  intros Hnd Hf. induction Hnd as [|x xs Hx Hnd IH]; [by rewrite decide_False by set_solver|].
  csimpl. change (sumZ (?a :: ?b)) with (a + sumZ b)%Z. rewrite IH.
  destruct (decide (x = k)) as [->|Hne].
  - rewrite (decide_False (P := k ∈ xs)) by done. rewrite decide_True by set_solver. lia.
  - rewrite (Hf x Hne). destruct (decide (k ∈ xs)).
    + by rewrite decide_True by set_solver.
    + by rewrite decide_False by set_solver.
Qed.

Lemma group_key {K V} `{EqDecision K, EqDecision V, TotalOrd V} (l : wlist (K * V)) k :
  group l k ≠ [] → k ∈ (fst ∘ fst) <$> l.
Proof.
  intros Hg. destruct (group l k) as [|[v w] g] eqn:E; [done|].
  assert ((v, w) ∈ group l k) as Hin by (rewrite E; set_solver).
  apply elem_of_group in Hin as [-> Hw]. apply wt_elem in Hw.
  apply list_elem_of_fmap in Hw as ([x z] & Hx & Hin). apply list_elem_of_fmap. simpl in Hx.
  exists (x, z). subst x. done.
Qed.

(** The weight a reduction gives to a key's output. *)
Lemma wt_reduced {K V V2} `{EqDecision K, EqDecision V, TotalOrd V, EqDecision V2}
    (g : K → list (V * Z) → list (V2 * Z)) (l : wlist (K * V)) k v2 :
  wt (reduced g l) (k, v2) =
  match group l k with [] => 0%Z | gr => wt (g k gr) v2 end.
Proof.
  unfold wt at 1, reduced. rewrite wsum_bind.
  rewrite (sumZ_single _ _ k); [|apply NoDup_remove_dups|].
  - destruct (group l k) as [|p gr] eqn:Hg; [by case_decide|].
    rewrite decide_True.
    + unfold wt. f_equal. induction (g k (p :: gr)) as [|o os IH]; [done|].
      csimpl. rewrite !wsum_cons, IH. unfold indicator. simpl.
      destruct (decide (o.1 = v2)) as [->|Hne]; [by rewrite decide_True|].
      rewrite decide_False; [done|congruence].
    + apply elem_of_remove_dups, group_key. by rewrite Hg.
  - intros x Hx. destruct (group l x) as [|p gr]; [done|].
    rewrite (wsum_ext _ (λ _, 0%Z)); [apply wsum_zero|].
    rewrite <- list_fmap_compose. intros y (o & -> & _)%list_elem_of_fmap. simpl.
    unfold indicator. rewrite decide_False; [done|congruence].
Qed.

Lemma reduced_equiv {K V V2} `{EqDecision K, EqDecision V, TotalOrd V, EqDecision V2}
    (g : K → list (V * Z) → list (V2 * Z)) (l l' : wlist (K * V)) :
  l ≡ l' → reduced g l ≡ reduced g l'.
Proof. intros Hl [k v2]. by rewrite !wt_reduced, (group_equiv l l' k Hl). Qed.

(** Renaming the keys. *)
Definition rename_key {K K' V} (f : K → K') (kv : K * V) : K' * V := (f kv.1, kv.2).

Lemma group_rename {K K' V} `{EqDecision K, EqDecision K', EqDecision V, TotalOrd V} (f : K → K')
    (l : wlist (K * V)) k :
  (∀ kv, kv ∈ l.*1 → f kv.1 = f k → kv.1 = k) → group (wmap (rename_key f) l) (f k) = group l k.
Proof.
  intros Hf. unfold group.
  assert ((snd ∘ fst) <$> filter (λ p : (K' * V) * Z, p.1.1 = f k) (wmap (rename_key f) l) =
          (snd ∘ fst) <$> filter (λ p : (K * V) * Z, p.1.1 = k) l) as ->.
  { clear -Hf. unfold wmap. induction l as [|[[k' v] w] l IH]; [done|]. rewrite fmap_cons, !filter_cons. simpl.
    destruct (decide (k' = k)) as [->|Hne].
    - rewrite decide_True by done. rewrite !fmap_cons, IH by (intros kv Hkv; apply Hf; csimpl; set_solver). done.
    - rewrite decide_False; [apply IH; intros kv Hkv; apply Hf; csimpl; set_solver|].
      intros Heq. apply Hne. apply (Hf (k', v)); [csimpl; set_solver|done]. }
  assert (∀ v, wt (wmap (rename_key f) l) (f k, v) = wt l (k, v)) as Hw.
  { intros v. apply (wt_wmap_inj (rename_key f) l (k, v)). intros [k1 v1] Hin Heq.
    injection Heq as Hk ->. f_equal. exact (Hf (k1, v) Hin Hk). }
  rewrite (list_filter_iff _ (λ v, wt l (k, v) ≠ 0%Z)) by (intros v; by rewrite Hw). apply list_fmap_ext. intros i v _. by rewrite Hw.
Qed.

Lemma reduced_rename {K K' V V2} `{EqDecision K, EqDecision K', EqDecision V, TotalOrd V, EqDecision V2}
    (f : K → K') (g : list (V * Z) → list (V2 * Z)) (l : wlist (K * V)) :
  (∀ kv kv', kv ∈ l.*1 → kv' ∈ l.*1 → f kv.1 = f kv'.1 → kv.1 = kv'.1) →
  wmap (rename_key f) (reduced (λ _, g) l) ≡ reduced (λ _, g) (wmap (rename_key f) l).
Proof.
  intros Hf [k' v2]. rewrite wt_reduced.
  assert (∀ k v3, (k, v3) ∈ (reduced (λ _, g) l).*1 → ∃ v, (k, v) ∈ l.*1) as Hrec.
  { intros k v3 ([|[v w] vs] & Hne & Hin & _)%reduced_records; [done|]. exists v. apply Hin. csimpl. set_solver. }
  destruct (decide (Exists (λ kv, f kv.1 = k') l.*1)) as [([k v] & Hin & <-)%Exists_exists|Hnone].
  - rewrite group_rename by (intros kv Hkv; by apply (Hf kv (k, v))). rewrite <- wt_reduced with (g := λ _, g).
    apply (wt_wmap_inj (rename_key f) (reduced (λ _, g) l) (k, v2)).
    intros [k1 v1] Hin1 Heq. injection Heq as Hk ->. destruct (Hrec _ _ Hin1) as [v1 Hv1].
    f_equal. exact (Hf (k1, v1) (k, v) Hv1 Hin Hk).
  - assert (group (wmap (rename_key f) l) k' = []) as ->.
    { destruct (group _ k') eqn:Hg; [done|]. exfalso. apply Hnone.
      assert (k' ∈ (fst ∘ fst) <$> wmap (rename_key f) l) as Hk by (apply group_key; by rewrite Hg).
      rewrite list_fmap_compose in Hk. apply list_elem_of_fmap in Hk as (kv & -> & (kv' & -> & Hkv)%elem_of_wmap).
      apply Exists_exists. by exists kv'. }
    apply wt_wmap_none. intros [k v3] Hin3 Heq. injection Heq as Hk _. destruct (Hrec _ _ Hin3) as [v Hv].
    apply Hnone, Exists_exists. by exists (k, v).
Qed.

(** *** The reductions as pure functions of non-empty groups of non-empty values *)

Definition value_at (i : nat) (vals : list (list Value * Z)) : Value :=
  default (VEid 0) (v ← vals !! i; v.1 !! 0).

(** The value a reducing function computes for a group. *)
Definition reduced_value (fn : AggregationFn) (vals : list (list Value * Z)) : Value :=
  match fn with
  | MIN => value_at 0 vals
  | MAX => value_at (length vals - 1) vals
  | MEDIAN => value_at (length vals / 2) vals
  | _ => VNumber (wrap_i 64 (sumZ vals.*2))
  end.

Definition reducing (fn : AggregationFn) : bool :=
  match fn with MIN | MAX | MEDIAN | COUNT => true | _ => false end.

Definition reduce_closure (fn : AggregationFn) :
    list Value → list (list Value * Z) → outcome (list (list Value * Z)) :=
  match fn with
  | MIN => reduce_min | MAX => reduce_max | MEDIAN => reduce_median | _ => reduce_count
  end.

Lemma index_value vals i :
  i < length vals → (∀ v, v ∈ vals.*1 → v ≠ []) →
  (let! v := index vals i in first_component v) = Ret (value_at i vals).
Proof.
  intros Hi Hne. unfold value_at, first_component, index.
  destruct (lookup_lt_is_Some_2 vals i Hi) as [[v w] Hv]. rewrite Hv. simpl.
  assert (v ≠ []) as Hv'.
  { apply Hne, list_elem_of_fmap. exists (v, w). split; [done|]. by eapply list_elem_of_lookup_2. }
  by destruct v.
Qed.

Lemma foldl_wrap_sum (vals : list (list Value * Z)) a :
  foldl (λ acc v, wrap_i 64 (acc + v.2)) (wrap_i 64 a) vals = wrap_i 64 (a + sumZ vals.*2).
Proof.
  revert a; induction vals as [|v vals IH]; intros a; csimpl.
  - f_equal. unfold sumZ. simpl. lia.
  - rewrite wrap_i64_add_l, IH. f_equal. unfold sumZ. simpl. lia.
Qed.

Lemma reduce_closure_pure fn k vals :
  reducing fn = true → vals ≠ [] → (∀ v, v ∈ vals.*1 → v ≠ []) →
  reduce_closure fn k vals = Ret [([reduced_value fn vals], 1%Z)].
Proof.
  intros Hr Hnil Hne. assert (0 < length vals) as Hlen by (destruct vals; simpl; [done|lia]).
  assert (∀ i, i < length vals →
    (let! v := index vals i in let! m := first_component v in Ret [([m], 1%Z)]) =
    Ret [([value_at i vals], 1%Z)]) as Hix.
  { intros i Hi. pose proof (index_value vals i Hi Hne) as Hv.
    destruct (index vals i); simpl in *; [|done]. by rewrite Hv. }
  destruct fn; try done; simpl.
  - by apply Hix.
  - apply Hix. lia.
  - apply (Hix (length vals / 2)). apply Nat.div_lt; lia.
  - unfold reduce_count. change 0%Z with (wrap_i 64 0). by rewrite foldl_wrap_sum.
Qed.

(** The prepared value of a split tuple. *)
Definition prepared (o w : nat) (kt : list Value * list Value) : list Value * list Value :=
  (kt.1, default (VEid 0) (kt.2 !! o) :: take w (reverse kt.2)).

Lemma prepare_unary_pure o w kt :
  o < length kt.2 → prepare_unary o w kt = Ret (prepared o w kt).
Proof.
  intros Ho. unfold prepare_unary, prepared, index.
  destruct (lookup_lt_is_Some_2 kt.2 o Ho) as [v Hv]. rewrite Hv. simpl.
  destruct w; [by rewrite take_0|done].
Qed.

(** What an aggregation function has to do with non-empty values: reduce them to one
    value for each key. *)
Definition aggregates_by (aggregated : Collection (list Value * list Value) Z → Collection (list Value * list Value) Z)
    (value : list (list Value * Z) → Value) : Prop :=
  ∀ c lp, run c = Ret lp → (∀ k v, (k, v) ∈ lp.*1 → v ≠ []) →
  ∃ lr, run (aggregated c) = Ret lr ∧ lr ≡ reduced (λ _ vals, [([value vals], 1%Z)]) lp ∧
    ∀ k v2, (k, v2) ∈ lr.*1 → (∃ v, (k, v) ∈ lp.*1) ∧ length v2 = 1.

Lemma stage_single d aggregated
    (agg : AggregationFn → (list Value * list Value → outcome (list Value * list Value)) →
           Collection (list Value * list Value) Z → Collection (list Value * list Value) Z)
    (implement : P → outcome (Implemented * ShutdownHandle (Button (T := T))))
    (self : Aggregate P) rel h l fn value a i :
  implement (ag_plan self) = Ret (rel, h) → relation_wf rel d → rel_run rel d = Ret l →
  ag_key_variables self ⊆ Implemented_variables rel →
  ¬ keying_refuses rel d (ag_key_variables self) →
  ag_aggregation_fns self = [fn] → (∀ prepare c, agg fn prepare c = aggregated (c_map prepare c)) →
  aggregates_by aggregated value →
  ag_aggregation_variables self = [a] →
  head (other_variables (Implemented_variables rel) (ag_key_variables self)) = Some a →
  Vec_binds (ag_variables self) a = Some i → i ≤ length (ag_key_variables self) →
  let keyed_tuples := wmap (keyed (Implemented_variables rel) (ag_key_variables self)) l in
  let w := length (ag_with_variables self) in
  ∃ out h' l', aggregate_stage agg implement d self = Ret (ICollection out, h') ∧
    cr_variables out = ag_variables self ∧ run (cr_tuples out) = Ret l' ∧
    (∀ t, t ∈ l'.*1 → length t = S (length (ag_key_variables self))) ∧
    ∃ groups, l' ≡ wmap (λ kv, take i kv.1 ++ default (VEid 0) (head kv.2) :: drop i kv.1) groups ∧
      groups ≡ reduced (λ _ vals, [([value vals], 1%Z)]) (wmap (prepared 0 w) keyed_tuples).
Proof.
  intros Hi Hwf Hl Hks Href Hfn Hagg Hby Hav Hhd Hpos Hle keyed_tuples w.
  unfold aggregate_stage. rewrite Hi. simpl.
  pose proof (tuples_by_variables_cases rel d _ Hwf Hks) as Hc.
  destruct (Implemented_tuples_by_variables rel d (ag_key_variables self)) as [[c hc]|]; [|done].
  rewrite Hl in Hc. apply run_rel_Ret_l in Hc as (lk & Hlk & Hpk). simpl.
  rewrite Hav, Hfn. simpl. rewrite Hpos. simpl. rewrite Hagg.
  assert (∀ kt, kt ∈ lk.*1 → length kt.1 = length (ag_key_variables self) ∧ 0 < length kt.2) as Hlen.
  { intros [k v] Hkt. rewrite Hpk in Hkt. apply keyed_lengths in Hkt as [Hk Hv]. split; [done|].
    simpl. rewrite Hv. destruct (other_variables _ _); simpl in *; [done|lia]. }
  assert (∃ lp, run (c_map (prepare_unary 0 w) c) = Ret lp ∧ lp ≡ₚ wmap (prepared 0 w) lk)
    as (lp & Hlp & Hpp).
  { apply run_map_pure; [done|]. intros kt Hkt. apply prepare_unary_pure. by apply Hlen. }
  assert (∀ k v, (k, v) ∈ lp.*1 → v ≠ [] ∧ length k = length (ag_key_variables self)) as Hin.
  { intros k v Hv. rewrite Hpp in Hv. unfold wmap in Hv. rewrite <- list_fmap_compose in Hv.
    apply list_elem_of_fmap in Hv as ([kt z] & [= -> ->] & Hin). split; [done|].
    apply Hlen. apply list_elem_of_fmap. by exists (kt, z). }
  destruct (Hby _ lp Hlp) as (lr & Hlr & Hrr & Hrec); [intros k v Hv; by destruct (Hin k v Hv)|].
  destruct (run_map_pure (λ kv : list Value * list Value,
      let! v := index kv.2 0 in vec_insert kv.1 i v)
    (λ kv, take i kv.1 ++ default (VEid 0) (head kv.2) :: drop i kv.1)
    (aggregated (c_map (prepare_unary 0 w) c)) lr) as (lo & Hlo & Hpo); [done| |].
  { intros [k v2] Hkv. apply Hrec in Hkv as [[v [_ Hk]%Hin] Hone]. destruct v2 as [|x v2]; [done|]. simpl in *.
    unfold vec_insert. destruct (Nat.leb_spec i (length k)) as [|Hlt]; [done|]. lia. }
  eexists _, _, lo. split; [done|]. split; [done|]. split; [exact Hlo|]. split.
  { intros t. rewrite Hpo. rewrite <- list_fmap_compose. intros ([[k v] w0] & -> & Hkv)%list_elem_of_fmap.
    assert ((k, v) ∈ lr.*1) as Hkv' by (apply list_elem_of_fmap; by exists (k, v, w0)). clear Hkv. rename Hkv' into Hkv.
    apply Hrec in Hkv as [[v' [_ Hk]%Hin] _].
    simpl. rewrite length_app, length_cons, length_take, length_drop. lia. }
  exists lr. split; [by apply wlist_equiv_perm|]. rewrite Hrr. apply reduced_equiv.
  apply wlist_equiv_perm in Hpp, Hpk. by rewrite Hpp, Hpk.
Qed.

(** The reducing functions of the default stage. *)
Lemma reducing_aggregates fn :
  reducing fn = true → aggregates_by (c_reduce (reduce_closure fn)) (reduced_value fn).
Proof.
  intros Hred c lp Hlp Hne.
  destruct (run_reduce (reduce_closure fn) (λ _ vals, [([reduced_value fn vals], 1%Z)]) c lp Hlp)
    as (lr & Hlr & Hrr & Hrec).
  { intros k vs Hvs Hin. apply reduce_closure_pure; [done|done|]. intros v Hv. by eapply Hne, Hin. }
  exists lr. split; [done|]. split; [done|]. intros k v2 Hkv. apply Hrec in Hkv as (vs & Hvs & Hin & Hv).
  apply list_elem_of_singleton in Hv as ->. split; [|done]. destruct vs as [|[v0 w0] vs]; [done|].
  exists v0. apply Hin. set_solver.
Qed.

(** (single aggregations).  A stage with one reducing function (MIN, MAX,
    MEDIAN or COUNT) over a variable of its well-formed input, whose values
    follow the key in the input's own order, succeeds and runs without panics.
    The result is the reduction of the prepared tuples: for every key with a
    non-empty group, the function's value is inserted into the key at the
    aggregated variable's output position. *)
Theorem aggregate_single_spec d
    (implement : P → outcome (Implemented * ShutdownHandle (Button (T := T))))
    (self : Aggregate P) rel h l fn a i :
  implement (ag_plan self) = Ret (rel, h) → relation_wf rel d → rel_run rel d = Ret l →
  ag_key_variables self ⊆ Implemented_variables rel →
  ¬ keying_refuses rel d (ag_key_variables self) →
  ag_aggregation_fns self = [fn] → reducing fn = true →
  ag_aggregation_variables self = [a] →
  head (other_variables (Implemented_variables rel) (ag_key_variables self)) = Some a →
  Vec_binds (ag_variables self) a = Some i → i ≤ length (ag_key_variables self) →
  let keyed_tuples := wmap (keyed (Implemented_variables rel) (ag_key_variables self)) l in
  let w := length (ag_with_variables self) in
  ∃ out h' l', Aggregate_implement implement d self = Ret (ICollection out, h') ∧
    cr_variables out = ag_variables self ∧ run (cr_tuples out) = Ret l' ∧
    ∃ groups, l' ≡ wmap (λ kv, take i kv.1 ++ default (VEid 0) (head kv.2) :: drop i kv.1) groups ∧
      groups ≡ reduced (λ _ vals, [([reduced_value fn vals], 1%Z)])
                 (wmap (prepared 0 w) keyed_tuples).
Proof.
  intros Hi Hwf Hl Hks Href Hfn Hred Hav Hhd Hpos Hle.
  destruct (stage_single d (c_reduce (reduce_closure fn)) aggregate_collection implement self rel h l fn
    (reduced_value fn) a i)
    as (out & h' & l' & ? & ? & ? & _ & ?); try done; [by destruct fn|by apply reducing_aggregates|].
  by exists out, h', l'.
Qed.

Lemma cmp_le_head (x y : Value) l k : cmp_le (x :: l) (y :: k) = true → cmp_le x y = true.
Proof.
  unfold cmp_le. rewrite cmp_cons. by destruct (cmp x y).
Qed.

Lemma sorted_lookup {A} (R : A → A → Prop) (l : list A) i j x y :
  StronglySorted R l → i < j → l !! i = Some x → l !! j = Some y → R x y.
Proof.
  intros Hs. revert i j. induction Hs as [|z l Hs IH Hz]; intros i j Hij Hi Hj; [done|].
  destruct j as [|j]; [lia|]. simpl in Hj. destruct i as [|i]; simplify_eq/=.
  - rewrite Forall_forall in Hz. apply Hz. by eapply list_elem_of_lookup_2.
  - apply (IH i j); [lia|done|done].
Qed.

(** (what the reductions compute).  For a key with values of non-zero weight,
    MIN and MAX are the first components of such values and bound all of them
    from below and above in the order of values, MEDIAN is one of them, and
    COUNT is the sum of their weights, as an [i64]. *)
Theorem reduced_value_spec (l : wlist (list Value * list Value)) k :
  group l k ≠ [] → (∀ v, (k, v) ∈ l.*1 → v ≠ []) →
  (∀ fn, fn ∈ [MIN; MAX; MEDIAN] →
     ∃ v, wt l (k, v) ≠ 0%Z ∧ head v = Some (reduced_value fn (group l k))) ∧
  (∀ v x, wt l (k, v) ≠ 0%Z → head v = Some x →
     cmp_le (reduced_value MIN (group l k)) x = true ∧
     cmp_le x (reduced_value MAX (group l k)) = true) ∧
  reduced_value COUNT (group l k) =
    VNumber (wrap_i 64 (sumZ ((λ v, wt l (k, v)) <$> (group l k).*1))).
Proof.
  intros Hg Hne. set (g := group l k) in *.
  assert (0 < length g) as Hlen by (destruct g; simpl; [done|lia]).
  assert (∀ i v w, g !! i = Some (v, w) → wt l (k, v) ≠ 0%Z ∧
    head v = Some (value_at i g)) as Hat.
  { intros i v w Hi. assert ((v, w) ∈ g) as Hin by (by eapply list_elem_of_lookup_2).
    apply elem_of_group in Hin as [-> Hw]. split; [done|].
    unfold value_at. rewrite Hi. simpl. pose proof (Hne v (wt_elem l (k, v) Hw)). by destruct v. }
  assert (∀ i, i < length g → ∃ v, wt l (k, v) ≠ 0%Z ∧ head v = Some (value_at i g)) as Hex.
  { intros i Hi. destruct (lookup_lt_is_Some_2 g i Hi) as [[v w] Hv]. eauto. }
  destruct (group_sorted l k) as [Hs _]. fold g in Hs.
  assert (∀ i j, i ≤ j → j < length g → cmp_le (value_at i g) (value_at j g) = true) as Hmono.
  { intros i j Hij Hj. destruct (decide (i = j)) as [->|Hneq]; [apply cmp_le_refl|].
    destruct (lookup_lt_is_Some_2 g i) as [[v w] Hv]; [lia|].
    destruct (lookup_lt_is_Some_2 g j) as [[v' w'] Hv']; [lia|].
    assert (cmp_le v v' = true) as Hvv.
    { apply (sorted_lookup (λ a b, cmp_le a b = true) g.*1 i j v v' Hs); [lia| |];
        by rewrite list_lookup_fmap, ?Hv, ?Hv'. }
    destruct (Hat _ _ _ Hv) as [_ Hh], (Hat _ _ _ Hv') as [_ Hh'].
    destruct v as [|x v], v' as [|x' v']; try done. simpl in Hh, Hh'. simplify_eq.
    by apply cmp_le_head in Hvv. }
  split_and!.
  - intros fn Hfn. repeat (apply elem_of_cons in Hfn as [->|Hfn]); [..|by apply not_elem_of_nil in Hfn].
    + apply Hex. lia.
    + apply (Hex (length g - 1)). lia.
    + apply (Hex (length g / 2)). apply Nat.div_lt; lia.
  - intros v x Hw Hx. assert ((v, wt l (k, v)) ∈ g) as Hin by (by apply elem_of_group).
    apply list_elem_of_lookup in Hin as [i Hi]. destruct (Hat _ _ _ Hi) as [_ Hh].
    assert (x = value_at i g) as -> by congruence. apply lookup_lt_Some in Hi.
    split; apply Hmono; lia.
  - simpl. do 3 f_equal. unfold g. rewrite group_fst at 1. rewrite <- !list_fmap_compose. done.
Qed.
End aggregate_theorems.

(** ** Concrete runs *)
Section aggregate_runs.
#[local] Existing Instances extern_model diff_model trace_model timely_model.

Definition entity_rows : outcome (wlist (list Value)) :=
  Ret [([VEid 1; VNumber 10; VNumber 20], 1%Z); ([VEid 1; VNumber 11; VNumber 5], 1%Z)].

(** The run of an aggregation over the rows, the relation binding [vars]. *)
Definition run_aggregate (vars : list Var) (self : Aggregate unit) : outcome (wlist (list Value)) :=
  let! '(rel, _) := Aggregate_implement (T := N) (Rule := unit)
    (λ _, Ret (ICollection (mkCollectionRelation vars entity_rows), ShutdownHandle_empty))
    (Domain_new 0%N) self in
  match rel with ICollection r => cr_tuples r | IAttribute _ => Panic "" end.

(** (aggregates read the wrong column).  The offset of an aggregated variable
    is its position among the aggregated variables, not among the values of the
    input: asked for the minimum of the third variable per entity, the stage
    returns the minimum of the second.  Consumed output slots are marked with
    the variable 0, which a query may use: with two aggregates, of variables 1
    and 0, both get the same output offset and their results change places. *)
Theorem aggregate_offsets_confused :
  run_aggregate [1; 2; 3]%N (mkAggregate [1; 3]%N tt [MIN] [1]%N [3]%N []) =
    Ret [([VEid 1; VNumber 10], 1%Z)] ∧
  output_offsets_from [2; 1; 0]%N [1; 0]%N = Ret [1; 1] ∧
  run_aggregate [2; 1; 0]%N (mkAggregate [2; 1; 0]%N tt [MIN; MAX] [2]%N [1; 0]%N []) =
    Ret [([VEid 1; VNumber 20; VNumber 10], 1%Z)].
Proof. split_and!; vm_refl. Qed.
End aggregate_runs.
