(* ===== verification/StageRuns.v ===== *)
(** * Plan stages on concrete inputs

    Collections, operators and traces are those of the model of the interface;
    each lemma applies a stage's specification to an input its hypotheses hold
    for. *)
From Stdlib Require Import ZArith NArith Lia.
From stdpp Require Import base strings numbers list gmap sets.
From S2P Require Import Prelude Timestamps Values Bindings Sessions Weighted Dataflow Domains.
From S2P Require Import Relations RelationTheorems PlanOps JoinTheorems StageTheorems.
From S2P Require Import FilterTransform Aggregates.

Section stage_runs.
#[local] Existing Instances extern_model diff_model trace_model timely_model.

Definition d0 : Domain N unit := Domain_new 0%N.
Definition rows (vars : list Var) (l : wlist (list Value)) : Implemented :=
  ICollection (mkCollectionRelation vars (Ret l)).
Definition people : wlist (list Value) :=
  [([VEid 1; VNumber 10], 1%Z); ([VEid 2; VNumber 20], 2%Z)].
Definition cities : wlist (list Value) :=
  [([VEid 1; VString "Berlin"], 1%Z); ([VEid 1; VString "Rome"], 3%Z)].

(** The two inputs, as the plans [false] and [true]. *)
Definition plans (p : bool) : outcome (Implemented * ShutdownHandle (Button (T := N))) :=
  Ret (if p then rows [1; 3]%N cities else rows [1; 2]%N people, ShutdownHandle_empty).

Lemma rows_wf vars l :
  NoDup vars → Forall (λ t, length t = length vars) l.*1 → relation_wf (rows vars l) d0.
Proof.
  intros Hnd Hl. split; [done|]. intros l' t [= <-] Ht. rewrite Forall_forall in Hl. by apply Hl.
Qed.

Lemma people_wf : relation_wf (rows [1; 2]%N people) d0.
Proof.
  apply rows_wf; [|by repeat constructor].
  apply NoDup_cons. split; [set_solver|]. apply NoDup_singleton.
Qed.
Lemma cities_wf : relation_wf (rows [1; 3]%N cities) d0.
Proof.
  apply rows_wf; [|by repeat constructor].
  apply NoDup_cons. split; [set_solver|]. apply NoDup_singleton.
Qed.

Lemma people_input ks p : ks ⊆ [1; 2]%N → p = false → input d0 ks plans p (rows [1; 2]%N people) people.
Proof.
  intros Hks ->. split; [by eexists|]. split; [apply people_wf|]. split; [done|].
  split; [done|]. by intros [].
Qed.
Lemma cities_input ks p : ks ⊆ [1; 3]%N → p = true → input d0 ks plans p (rows [1; 3]%N cities) cities.
Proof.
  intros Hks ->. split; [by eexists|]. split; [apply cities_wf|]. split; [done|].
  split; [done|]. by intros [].
Qed.

Lemma relation_accessors_spec_witness :
  relation_wf (rows [1; 2]%N people) d0 ∧
  match Implemented_projected (rows [1; 2]%N people) d0 [2%N] with
  | Ret (c, _) => run_rel (≡ₚ) (run c)
      (Ret [([VNumber 10], 1%Z); ([VNumber 20], 2%Z)])
  | Panic _ => False
  end.
Proof.
  split; [exact people_wf|].
  exact (proj1 (relation_accessors_spec (rows [1; 2]%N people) d0 [2%N] people_wf
    ltac:(set_solver))).
Defined.

(** The assignment 1 ↦ #1, 2 ↦ 10, 3 ↦ "Rome". *)
Definition at_rome (x : Var) : Value :=
  if (x =? 1)%N then VEid 1 else if (x =? 2)%N then VNumber 10 else VString "Rome".

Lemma rome_weights :
  (wt people (at_rome <$> [1; 2]%N), wt cities (at_rome <$> [1; 3]%N)) = (1%Z, 3%Z).
Proof. vm_refl. Qed.

Lemma join_natural_witness :
  ∃ rel h out, Join_implement plans d0 (mkJoin [1%N] false true) = Ret (ICollection rel, h) ∧
    run (cr_tuples rel) = Ret out ∧ wt out (at_rome <$> cr_variables rel) = 3%Z.
Proof.
  destruct (join_natural d0 plans (mkJoin [1%N] false true) (rows [1; 2]%N people)
    (rows [1; 3]%N cities) ShutdownHandle_empty ShutdownHandle_empty people cities)
    as (rel & h & out & Hj & Hr & _ & Hw & _); try reflexivity.
  - exact people_wf.
  - exact cities_wf.
  - discriminate.
  - set_solver.
  - set_solver.
  - split; simpl; lia.
  - exists rel, h, out. split; [exact Hj|]. split; [exact Hr|]. rewrite Hw.
    pose proof rome_weights as Hrw.
    apply (f_equal (λ p, wrap_i 64 (p.1 * p.2))) in Hrw. exact Hrw.
Defined.

(** More join variables than a relation has: the length of the values wraps. *)
Example too_many_keys :
  Join_implement plans d0 (mkJoin [1; 1; 1]%N false true) = Panic "capacity overflow".
Proof. vm_refl. Qed.

Lemma union_spec_witness :
  ∃ rel h out, Union_implement plans d0 (mkUnion [1%N] [false; true]) = Ret (ICollection rel, h) ∧
    run (cr_tuples rel) = Ret out ∧ wt out [VEid 1] = 1%Z.
Proof.
  destruct (union_spec d0 plans (mkUnion [1%N] [false; true])
    [(rows [1; 2]%N people, people); (rows [1; 3]%N cities, cities)])
    as (rel & h & out & Hu & _ & Hr & Hw).
  - apply Forall2_cons. split; [apply people_input; set_solver|].
    apply Forall2_cons. split; [apply cities_input; set_solver|]. constructor.
  - exists rel, h, out. split; [exact Hu|]. split; [exact Hr|].
    apply (proj1 (Hw [VEid 1])). apply Z.ltb_lt. vm_refl.
Defined.

Lemma antijoin_spec_witness :
  ∃ rel h out, Antijoin_implement plans d0 (mkAntijoin [1%N] false true) = Ret (ICollection rel, h) ∧
    run (cr_tuples rel) = Ret out ∧ wt out (at_rome <$> cr_variables rel) = 0%Z.
Proof.
  destruct (antijoin_spec d0 plans (mkAntijoin [1%N] false true) (rows [1; 2]%N people)
    (rows [1; 3]%N cities) people cities) as (rel & h & out & Ha & Hr & _ & Hw).
  - apply people_input; set_solver.
  - apply cities_input; set_solver.
  - simpl. lia.
  - exists rel, h, out. split; [exact Ha|]. split; [exact Hr|].
    apply (proj1 (proj2 (Hw at_rome))); apply Z.ltb_lt; vm_refl.
Defined.

Lemma project_spec_witness :
  ∃ out h l', Project_implement plans d0 (mkProject [2%N] false) = Ret (ICollection out, h) ∧
    run (cr_tuples out) = Ret l' ∧ l' ≡ₚ [([VNumber 10], 1%Z); ([VNumber 20], 2%Z)].
Proof.
  destruct (proj1 (project_spec d0 plans (mkProject [2%N] false) (rows [1; 2]%N people) people))
    as (out & h & l' & Hp & _ & Hr & Hl).
  - apply people_input; set_solver.
  - exists out, h, l'. split; [exact Hp|]. split; [exact Hr|]. exact Hl.
Defined.

Definition older : Filter bool := mkFilter [2%N] GT false [None; Some (VNumber 15)].

Lemma filter_spec_witness :
  ∃ out h l', Filter_implement plans d0 older = Ret (ICollection out, h) ∧
    run (cr_tuples out) = Ret l' ∧ wt l' (at_rome <$> [1; 2]%N) = 0%Z.
Proof.
  destruct (filter_spec d0 plans older (rows [1; 2]%N people) ShutdownHandle_empty people)
    as (out & h & l' & Hf & _ & Hr & Hw); try reflexivity.
  - exact people_wf.
  - set_solver.
  - exists out, h, l'. split; [exact Hf|]. split; [exact Hr|].
    refine (eq_trans (Hw at_rome) _). vm_refl.
Defined.

Definition increment : Transform bool := mkTransform [2%N] 9%N false ADD [None; Some (VNumber 1)].
Definition incremented (t : list Value) : Value :=
  match t with [_; VNumber z] => VNumber (z + 1) | _ => VEid 0 end.

Lemma transform_spec_witness :
  ∃ out h l', Transform_implement plans d0 increment = Ret (ICollection out, h) ∧
    cr_variables out = [1; 2; 9]%N ∧
    run (cr_tuples out) = Ret l' ∧
    l' ≡ₚ [([VEid 1; VNumber 10; VNumber 11], 1%Z); ([VEid 2; VNumber 20; VNumber 21], 2%Z)].
Proof.
  destruct (transform_spec d0 plans increment (rows [1; 2]%N people) ShutdownHandle_empty people
    incremented) as (out & h & l' & Ht & Hv & Hr & Hl); try reflexivity.
  - exact people_wf.
  - set_solver.
  - intros t [->|[->|Hx]%elem_of_cons]%elem_of_cons; [vm_refl..|].
    by apply not_elem_of_nil in Hx.
  - exists out, h, l'. split; [exact Ht|]. split; [exact Hv|]. split; [exact Hr|]. exact Hl.
Defined.

(** The greatest second column per first column. *)
Definition oldest : Aggregate bool := mkAggregate [1; 2]%N false [MAX] [1%N] [2%N] [].

Lemma aggregate_single_spec_witness :
  ∃ out h l', Aggregate_implement plans d0 oldest = Ret (ICollection out, h) ∧
    cr_variables out = [1; 2]%N ∧ run (cr_tuples out) = Ret l'.
Proof.
  destruct (aggregate_single_spec d0 plans oldest (rows [1; 2]%N people) ShutdownHandle_empty people
    MAX 2%N 1) as (out & h & l' & Ha & Hv & Hr & _); try reflexivity.
  - exact people_wf.
  - set_solver.
  - apply distinct_keys_accepted; [by apply NoDup_singleton|set_solver|by intros []].
  - exists out, h, l'. split; [exact Ha|]. split; [exact Hv|exact Hr].
Defined.

Definition ages : wlist (list Value * list Value) :=
  [(([VEid 1], [VNumber 20]), 1%Z); (([VEid 1], [VNumber 10]), 2%Z)].

Lemma ages_length : length (group ages [VEid 1]) = 2.
Proof. vm_refl. Qed.
Lemma ages_grouped : group ages [VEid 1] ≠ [].
Proof. intros Hg. pose proof ages_length as Hl. by rewrite Hg in Hl. Qed.

Lemma reduced_value_spec_witness :
  group ages [VEid 1] ≠ [] ∧ reduced_value MIN (group ages [VEid 1]) = VNumber 10 ∧
  reduced_value COUNT (group ages [VEid 1]) = VNumber 3.
Proof.
  pose proof ages_grouped as Hne.
  destruct (reduced_value_spec ages [VEid 1] Hne) as (_ & _ & Hc).
  - intros v [[= ->]|[[= ->]|Hx]%elem_of_cons]%elem_of_cons; try discriminate.
    by apply not_elem_of_nil in Hx.
  - split; [exact Hne|]. split; [vm_refl|]. refine (eq_trans Hc _).
    vm_refl.
Defined.
End stage_runs.
