(* ===== verification/Pulls.v ===== *)
(** * Pull expressions (src/src/plan/pull.rs)

    [PullLevel] extends the tuples of its input by the attributes of an entity
    variable, interleaving attribute names into the path; [Pull] concatenates
    levels; [PullAll] lists attributes.  Attribute identifiers become values
    ([into_value]).  Entering an arrangement with its times forwarded keeps its
    contents. *)
From Stdlib Require Import ZArith NArith Lia.
From stdpp Require Import base strings numbers list gmap sets.
From S2P Require Import Prelude Timestamps Values Bindings Sessions Weighted Dataflow Domains.
From S2P Require Import Relations RelationTheorems PlanOps JoinTheorems FilterTransform.

Section interleave.
Context `{EV : ExternValues}.

(** The loop body at index [i], [rounds] rounds left. *)
Fixpoint interleave_loop (rounds i next_value next_const : nat) (values : list Value)
    (constants : list Aid) (result : list Value) : outcome (list Value) :=
  match rounds with
  | O => Ret result
  | S rounds' =>
      if Nat.even i then
        let! v := index values next_value in
        interleave_loop rounds' (S i) (S next_value) next_const values constants (result ++ [v])
      else
        let! a := index constants next_const in
        interleave_loop rounds' (S i) next_value (S next_const) values constants
          (result ++ [into_value a])
  end.

Definition interleave (values : list Value) (constants : list Aid) : outcome (list Value) :=
  if bool_decide (values = []) || bool_decide (constants = []) then Ret values
  else
    let size := length values + length constants in
    interleave_loop size 0 0 0 values constants [].

(** Elements of the two lists in turn, beginning with the first. *)
Fixpoint alternate {A} (n : nat) (l k : list A) : list A :=
  match n, l with
  | S n', x :: l' => x :: alternate n' k l'
  | _, _ => []
  end.
End interleave.

Section pull.
Context `{EV : ExternValues, DF : Differential}.
Context {T : Type} `{TR : !Traces T} {Rule : Type}.
Context {P : Type}.
Abbreviation Handle := (ShutdownHandle (Button (T := T))) (only parsing).
Abbreviation Implementation := (outcome (Implemented * Handle)) (only parsing).

Record PullLevel := mkPullLevel {
  pl_variables : list Var;
  pl_plan : P;
  pl_pull_variable : Var;
  pl_pull_attributes : list Aid;
  pl_path_attributes : list Aid;
  pl_cardinality_many : bool
}.
Record Pull := mkPull { pu_variables : list Var; pu_paths : list P }.
Record PullAll := mkPullAll { pa_variables : list Var; pa_pull_attributes : list Aid }.

(** The forward index of a pulled attribute. *)
Definition import_pulled (d : Domain T Rule) (a : Aid)
    : outcome (Collection (Value * Value) Z * Button (T := T)) :=
  let! propose_trace := expect ("attribute " +:+ a +:+ " does not exist")
                          (Domain_forward_propose d a) in
  Ret (import_frontier propose_trace ("Propose(" +:+ a +:+ ")")).

(** [Vec::pop]. *)
Definition pop {A} (l : list A) : option (list A * A) :=
  match last l with Some x => Some (take (length l - 1) l, x) | None => None end.

(** The result tuple of one pulled attribute. *)
Definition pull_tuple (self : PullLevel) (a : Aid) (path : list Value) (v : Value)
    : outcome (list Value) :=
  let! result := interleave path (pl_path_attributes self) in
  if bool_decide (pl_path_attributes self = []) || pl_cardinality_many self
  then Ret (result ++ [into_value a] ++ [v])
  else
    let! '(result, _) := expect "malformed path" (pop result) in
    Ret (result ++ [into_value a] ++ [v]).

Definition db_id_tuple (self : PullLevel) (path : list Value) : outcome (list Value) :=
  let! result := interleave path (pl_path_attributes self) in
  let! '(result, eid) := expect "malformed path" (pop result) in
  Ret (result ++ [VAid "db__id"] ++ [eid]).

Definition PullLevel_implement (implement : P → Implementation) (d : Domain T Rule)
    (self : PullLevel) : Implementation :=
  let! '(input, shutdown_handle) := implement (pl_plan self) in
  if bool_decide (pl_pull_attributes self = []) then
    if bool_decide (pl_path_attributes self = []) then Ret (input, shutdown_handle)
    else
      let! '(tuples, shutdown) := Implemented_tuples input d in
      let shutdown_handle := ShutdownHandle_merge_with shutdown_handle shutdown in
      let tuples := c_map (λ tuple, interleave tuple (pl_path_attributes self)) tuples in
      Ret (ICollection (mkCollectionRelation (pl_variables self) tuples), shutdown_handle)
  else
    let! e_offset := expect "input relation doesn't bind pull_variable"
                       (Implemented_binds input (pl_pull_variable self)) in
    let! '(paths, shutdown) := Implemented_tuples input d in
    let shutdown_handle := ShutdownHandle_merge_with shutdown_handle shutdown in
    let e_path := c_map (λ t, let! e := index t e_offset in Ret (e, t)) paths in
    let! streams := mapM_outcome (λ a,
      let! '(e_v, shutdown_propose) := import_pulled d a in
      Ret (c_join_core (λ _ path v, let! r := pull_tuple self a path v in Ret [r]) e_path e_v,
           shutdown_propose)) (pl_pull_attributes self) in
    let shutdown_handle := foldl ShutdownHandle_add_button shutdown_handle streams.*2 in
    let tuples :=
      if bool_decide (pl_path_attributes self = []) || pl_cardinality_many self
      then c_concatenate streams.*1
      else
        let db_ids := c_map (db_id_tuple self) paths in
        c_concatenate [c_concatenate streams.*1; db_ids] in
    Ret (ICollection (mkCollectionRelation [] tuples), shutdown_handle).

Definition Pull_implement (implement : P → Implementation) (d : Domain T Rule)
    (self : Pull) : Implementation :=
  let! streams := mapM_outcome (λ path,
    let! '(relation, shutdown) := implement path in
    let! '(tuples, shutdown') := Implemented_tuples relation d in
    Ret (tuples, ShutdownHandle_merge shutdown shutdown')) (pu_paths self) in
  let shutdown_handle := foldl ShutdownHandle_merge_with ShutdownHandle_empty streams.*2 in
  Ret (ICollection (mkCollectionRelation (pu_variables self) (c_concatenate streams.*1)),
       shutdown_handle).

Definition PullAll_implement (d : Domain T Rule) (self : PullAll) : Implementation :=
  let! _ := assert_that "assertion failed: !self.pull_attributes.is_empty()"
              (negb (bool_decide (pa_pull_attributes self = []))) in
  let! streams := mapM_outcome (λ a,
    let! '(e_v, shutdown_propose) := import_pulled d a in
    Ret (c_map (λ ev : Value * Value, Ret [ev.1; into_value a; ev.2]) e_v, shutdown_propose))
    (pa_pull_attributes self) in
  let shutdown_handle := foldl ShutdownHandle_add_button ShutdownHandle_empty streams.*2 in
  Ret (ICollection (mkCollectionRelation [] (c_concatenate streams.*1)), shutdown_handle).
End pull.
Arguments PullLevel : clear implicits.
Arguments Pull : clear implicits.

Section interleave_theorems.
Context `{EV : ExternValues}.

Lemma interleave_loop_even rounds i nv nc values constants result :
  Nat.even i = true →
  interleave_loop (S rounds) i nv nc values constants result =
  let! v := index values nv in
  interleave_loop rounds (S i) (S nv) nc values constants (result ++ [v]).
Proof. intros Hi. simpl. by rewrite Hi. Qed.

Lemma interleave_loop_odd rounds i nv nc values constants result :
  Nat.even i = false →
  interleave_loop (S rounds) i nv nc values constants result =
  let! a := index constants nc in
  interleave_loop rounds (S i) nv (S nc) values constants (result ++ [into_value a]).
Proof. intros Hi. simpl. by rewrite Hi. Qed.

(** What the loop has left to do, from either kind of index. *)
Lemma interleave_loop_spec rounds i nv nc values constants result :
  let vs := drop nv values in
  let cs := into_value <$> drop nc constants in
  interleave_loop rounds i nv nc values constants result =
  if Nat.even i then
    if decide ((rounds + 1) / 2 ≤ length vs ∧ rounds / 2 ≤ length cs)
    then Ret (result ++ alternate rounds vs cs) else Panic "index out of bounds"
  else
    if decide ((rounds + 1) / 2 ≤ length cs ∧ rounds / 2 ≤ length vs)
    then Ret (result ++ alternate rounds cs vs) else Panic "index out of bounds".
Proof.
  revert i nv nc result. induction rounds as [|rounds IH]; intros i nv nc result vs cs.
  - change ((0 + 1) / 2) with 0. change (0 / 2) with 0.
    destruct (Nat.even i); rewrite decide_True by lia; cbn; by rewrite app_nil_r.
  - assert ((S rounds + 1) / 2 = S (rounds / 2)) as Hd.
    { replace (S rounds + 1) with (rounds + 1 * 2) by lia. rewrite Nat.div_add by lia. lia. }
    rewrite Hd. replace (S rounds / 2) with ((rounds + 1) / 2) by (f_equal; lia).
    assert (Nat.even (S i) = negb (Nat.even i)) as Hev by (by rewrite Nat.even_succ, <- Nat.negb_even).
    destruct (Nat.even i) eqn:Hi.
    + rewrite interleave_loop_even by done. unfold index.
      destruct (values !! nv) as [v|] eqn:Hv; simpl.
      * assert (vs = v :: drop (S nv) values) as -> by (unfold vs; by apply drop_S).
        rewrite IH, Hev. simpl. fold cs. rewrite <- app_assoc. simpl.
        repeat case_decide; try done; exfalso; simpl in *; lia.
      * assert (vs = []) as -> by (unfold vs; apply drop_ge; by apply lookup_ge_None).
        rewrite decide_False; [done|]. simpl. lia.
    + rewrite interleave_loop_odd by done. unfold index.
      destruct (constants !! nc) as [a|] eqn:Ha; simpl.
      * assert (cs = into_value a :: (into_value <$> drop (S nc) constants)) as ->
          by (unfold cs; by rewrite (drop_S _ _ _ Ha)).
        rewrite IH, Hev. simpl. fold vs. rewrite <- app_assoc. simpl.
        repeat case_decide; try done; exfalso; simpl in *; lia.
      * assert (cs = []) as -> by (unfold cs; rewrite drop_ge; [done|by apply lookup_ge_None]).
        rewrite decide_False; [done|]. simpl. lia.
Qed.

(** (interleaving paths).  With a non-empty path and attribute names,
    [interleave] alternates values and names, starting with a value, exactly
    when there are as many names as values or one fewer; with any other number
    of names it panics with an index out of bounds.  If either is empty it
    returns the path unchanged. *)
Theorem interleave_spec (values : list Value) (constants : list Aid) :
  interleave values constants =
  if decide (values = [] ∨ constants = []) then Ret values
  else if decide (length values = length constants ∨ length values = S (length constants))
  then Ret (alternate (length values + length constants) values (into_value <$> constants))
  else Panic "index out of bounds".
Proof.
  unfold interleave. destruct (decide (values = [] ∨ constants = [])) as [He|He].
  - destruct He as [-> | ->]; [done|]. by rewrite orb_true_r.
  - rewrite !bool_decide_false by tauto. cbv zeta. cbn [orb]. rewrite interleave_loop_spec.
    cbn [Nat.even]. rewrite !drop_0, length_fmap, app_nil_l.
    set (n := length values). set (m := length constants).
    pose proof (Nat.div_mod (n + m) 2 ltac:(lia)). pose proof (Nat.mod_upper_bound (n + m) 2 ltac:(lia)).
    pose proof (Nat.div_mod (n + m + 1) 2 ltac:(lia)).
    pose proof (Nat.mod_upper_bound (n + m + 1) 2 ltac:(lia)).
    repeat case_decide; try done; exfalso; lia.
Qed.
End interleave_theorems.
