(* ===== verification/DeltaJoin.v ===== *)
(** * Hector's delta pipelines (src/src/plan/hector.rs)

    The implementation of a query with several bindings: for every attribute
    among them a pipeline that starts from the changes of that attribute and
    extends them, one variable after the other, by the other bindings.  Inside
    the pipelines times are pairs of a time and a flag: a binding before the
    source is seen with the updates of the current time, one after it without
    them.  [updates] are the updates that importing a trace delivers. *)
From Stdlib Require Import ZArith NArith Lia.
From stdpp Require Import base strings numbers sets gmap list.
From S2P Require Import Prelude Timestamps Values Bindings HectorPlan Sessions Weighted Streams.
From S2P Require Import Dataflow Domains Relations Extenders.

Section delta_join.
Context `{EV : ExternValues, DF : Differential}.
Context {T : Type} `{EqDecision T, PartialOrderT T, TR : !Traces T} {Rule : Type}.
Context (updates : ∀ K V, Trace (T := T) K V → Stream T (K * V)).
Implicit Types (d : Domain T Rule).

(** The times of the scope of the rules' variables, and of the pipelines'. *)
Abbreviation Nested := (Product T N) (only parsing).
Abbreviation Scoped := (AltNeu (Product T N)) (only parsing).
Abbreviation Handle := (ShutdownHandle (Button (T := T))) (only parsing).
Abbreviation P := (list Value) (only parsing).

(** [enter(&scope.parent).enter(&scope)], and the second step by [enter_at]. *)
Definition enter_nested (t : T) : Nested := mkProduct t 0%N.
Definition enter_scope (t : T) : Scoped := AltNeu_to_inner (enter_nested t).
Definition enter_at (is_neu : bool) (t : T) : Scoped := mkAltNeu (enter_nested t) is_neu.

(** ** Imports are cached *)
Record Caches := mkCaches {
  forward_counts : gmap Aid (Stream T (Value * unit));
  forward_proposes : gmap Aid (Stream T (Value * Value));
  forward_validates : gmap Aid (Stream T (Value * Value * unit));
  reverse_counts : gmap Aid (Stream T (Value * unit));
  reverse_proposes : gmap Aid (Stream T (Value * Value));
  reverse_validates : gmap Aid (Stream T (Value * Value * unit));
  shutdown_handle : Handle
}.
Definition no_imports : Caches := mkCaches ∅ ∅ ∅ ∅ ∅ ∅ ShutdownHandle_empty.

(** [cache.entry(aid).or_insert_with(|| { import; add_button })]. *)
Definition import_cached {K V} (cache : gmap Aid (Stream T (K * V))) (aid : Aid)
    (trace : option (Trace (T := T) K V)) (missing name : string) (handle : Handle)
    : outcome (Stream T (K * V) * gmap Aid (Stream T (K * V)) * Handle) :=
  match cache !! aid with
  | Some arranged => Ret (arranged, cache, handle)
  | None =>
      let! trace := expect missing trace in
      let '(_, shutdown) := import_frontier trace name in
      Ret (updates _ _ trace, <[aid := updates _ _ trace]> cache,
           ShutdownHandle_add_button handle shutdown)
  end.

(** The three imports of an attribute binding in one direction. *)
Definition forward_extender d (source aid : Aid) (offset : nat) (is_neu : bool) (st : Caches)
    : outcome (PrefixExtender Scoped * Caches) :=
  let! '(count, counts, handle) := import_cached (forward_counts st) aid (Domain_forward_count d aid)
    "forward count doesn't exist" ("Counts(" +:+ debug source +:+ ")") (shutdown_handle st) in
  let! '(propose, proposes, handle) := import_cached (forward_proposes st) aid
    (Domain_forward_propose d aid) "forward propose doesn't exist"
    ("Propose(" +:+ debug source +:+ ")") handle in
  let! '(validate, validates, handle) := import_cached (forward_validates st) aid
    (Domain_forward_validate d aid) "forward validate doesn't exist"
    ("Validate(" +:+ debug source +:+ ")") handle in
  Ret (CollectionExtender (retime (enter_at is_neu) count) (retime (enter_at is_neu) propose)
         (retime (enter_at is_neu) validate) offset,
       mkCaches counts proposes validates (reverse_counts st) (reverse_proposes st)
         (reverse_validates st) handle).

Definition reverse_extender d (source aid : Aid) (offset : nat) (is_neu : bool) (st : Caches)
    : outcome (PrefixExtender Scoped * Caches) :=
  let! '(count, counts, handle) := import_cached (reverse_counts st) aid (Domain_reverse_count d aid)
    "reverse count doesn't exist" ("_Counts(" +:+ debug source +:+ ")") (shutdown_handle st) in
  let! '(propose, proposes, handle) := import_cached (reverse_proposes st) aid
    (Domain_reverse_propose d aid) "reverse propose doesn't exist"
    ("_Propose(" +:+ debug source +:+ ")") handle in
  let! '(validate, validates, handle) := import_cached (reverse_validates st) aid
    (Domain_reverse_validate d aid) "reverse validate doesn't exist"
    ("_Validate(" +:+ debug source +:+ ")") handle in
  Ret (CollectionExtender (retime (enter_at is_neu) count) (retime (enter_at is_neu) propose)
         (retime (enter_at is_neu) validate) offset,
       mkCaches (forward_counts st) (forward_proposes st) (forward_validates st) counts proposes
         validates handle).

(** ** The extenders of a variable *)

(** A negated binding is processed as the binding it negates, whose extender is
    then wrapped. *)
Definition binding_queue (bindings : list Binding) : list (nat * Binding) :=
  concat (imap (λ idx binding, match binding with
                               | BNot inner => [(idx, inner); (idx, binding)]
                               | _ => [(idx, binding)]
                               end) bindings).

Definition use_binding d (idx : nat) (source : Aid) (prefix : list Var) (target : Var)
    (st : list (PrefixExtender Scoped) * Caches) (entry : nat * Binding)
    : outcome (list (PrefixExtender Scoped) * Caches) :=
  let '(extenders, caches) := st in
  let '(other_idx, other) := entry in
  if Nat.eqb other_idx idx then Ret st
  else if is_none (Binding_binds other target) then Ret st
  else if negb (can_extend other (Vec_binds prefix) target) then Ret st
  else
    let is_neu := Nat.leb idx other_idx in
    match other with
    | BNot _ =>
        let! internal_extender := expect "No internal extender available on stack." (last extenders) in
        Ret (removelast extenders ++ [AntijoinExtender internal_extender], caches)
    | BConstant other => Ret (extenders ++ ConstantBinding_into_extender other prefix, caches)
    | BBinaryPredicate other =>
        Ret (extenders ++ BinaryPredicateBinding_into_extender other prefix, caches)
    | BAttribute other =>
        match direction (Vec_binds prefix) (ab_variables other) with
        | Err msg => Panic msg
        | Ok (DForward offset) =>
            let! '(extender, caches) :=
              forward_extender d source (source_attribute other) offset is_neu caches in
            Ret (extenders ++ [extender], caches)
        | Ok (DReverse offset) =>
            let! '(extender, caches) :=
              reverse_extender d source (source_attribute other) offset is_neu caches in
            Ret (extenders ++ [extender], caches)
        end
    end.

(** [while let Some((other_idx, other)) = bindings.pop_front()]. *)
Definition use_bindings d (idx : nat) (source : Aid) (prefix : list Var) (target : Var)
    (queue : list (nat * Binding)) (st : list (PrefixExtender Scoped) * Caches)
    : outcome (list (PrefixExtender Scoped) * Caches) :=
  foldl (λ st entry, let! st := st in use_binding d idx source prefix target st entry) (Ret st) queue.

(** [for target in variables.iter()]. *)
Fixpoint extend_variables d (idx : nat) (delta_source : Aid) (bindings : list Binding)
    (variables : list Var) (prefix : list Var) (source : Stream Scoped P) (caches : Caches)
    : outcome (list Var * Stream Scoped P * Caches) :=
  match variables with
  | [] => Ret (prefix, source, caches)
  | target :: variables =>
      match Vec_binds prefix target with
      | Some _ => extend_variables d idx delta_source bindings variables prefix source caches
      | None =>
          let! '(extenders, caches) :=
            use_bindings d idx delta_source prefix target (binding_queue bindings) ([], caches) in
          let prefix := prefix ++ [target] in
          let! extended := extend_prefixes source extenders in
          let source := respond (λ _ x, [x.1 ++ [x.2]]) extended in
          extend_variables d idx delta_source bindings variables prefix source caches
      end
  end.

(** ** A pipeline *)

(** The prefixes a pipeline starts from: the pairs of the source attribute,
    restricted by a constant for one of its variables. *)
Definition pipeline_source d (idx : nat) (bindings : list Binding) (delta_binding : AttributeBinding)
    (caches : Caches) : outcome (list Var * Stream Scoped P * Caches) :=
  let aid := source_attribute delta_binding in
  let! '(propose, proposes, handle) := import_cached (forward_proposes caches) aid
    (Domain_forward_propose d aid) "forward propose trace doesn't exist"
    ("Counts(" +:+ debug aid +:+ ")") (shutdown_handle caches) in
  let caches := mkCaches (forward_counts caches) proposes (forward_validates caches)
    (reverse_counts caches) (reverse_proposes caches) (reverse_validates caches) handle in
  let! conflicts := source_conflicts idx bindings in
  match conflicts with
  | [] =>
      let prefix := [(ab_variables delta_binding).1; (ab_variables delta_binding).2] in
      Ret (prefix, respond (λ _ ev, [[ev.1; ev.2]]) (retime enter_scope propose), caches)
  | [BConstant constant_binding] =>
      let prefix := [cb_variable constant_binding] in
      let match_v := cb_value constant_binding in
      match direction (Vec_binds prefix) (ab_variables delta_binding) with
      | Err _ => Panic "called `Result::unwrap()` on an `Err` value"
      | Ok (DForward _) =>
          let filtered := wfilter (λ x, bool_decide (x.1.1 = match_v)) propose in
          Ret (prefix ++ [(ab_variables delta_binding).2],
               respond (λ _ ev, [[ev.1; ev.2]]) (retime enter_scope filtered), caches)
      | Ok (DReverse _) =>
          let filtered := wfilter (λ x, bool_decide (x.1.2 = match_v)) propose in
          Ret (prefix ++ [(ab_variables delta_binding).1],
               respond (λ _ ev, [[ev.2; ev.1]]) (retime enter_scope filtered), caches)
      end
  | [_] => Panic "Can't resolve conflicts on bindings"
  | _ => Panic "assertion failed: `(left == right)`"
  end.

(** The changes driven by one attribute binding; [None] if [plan_order] has not
    returned after [fuel] rounds. *)
Definition pipeline (fuel : nat) d (idx : nat) (self : Hector) (delta_binding : AttributeBinding)
    (caches : Caches) : outcome (option (Stream Scoped P * Caches)) :=
  let! ordered := plan_order fuel idx (he_bindings self) in
  match ordered with
  | None => Ret None
  | Some (variables, _) =>
      let! '(prefix, source, caches) :=
        pipeline_source d idx (he_bindings self) delta_binding caches in
      let! '(prefix, source, caches) := extend_variables d idx (source_attribute delta_binding)
        (he_bindings self) variables prefix source caches in
      if bool_decide (he_variables self = prefix) then Ret (Some (source, caches))
      else
        let! projected := respondM (λ _ tuple,
          let! out := project_closure prefix (he_variables self) tuple in Ret [out]) source in
        Ret (Some (projected, caches))
  end.

(** [self.bindings.iter().enumerate().flat_map(..)]. *)
Fixpoint pipelines (fuel : nat) d (self : Hector) (idx : nat) (bindings : list Binding)
    (caches : Caches) : outcome (option (list (Stream Scoped P) * Caches)) :=
  match bindings with
  | [] => Ret (Some ([], caches))
  | BAttribute delta_binding :: bindings =>
      let! first := pipeline fuel d idx self delta_binding caches in
      match first with
      | None => Ret None
      | Some (changes, caches) =>
          let! rest := pipelines fuel d self (S idx) bindings caches in
          match rest with
          | None => Ret None
          | Some (others, caches) => Ret (Some (changes :: others, caches))
          end
      end
  | _ :: bindings => pipelines fuel d self (S idx) bindings caches
  end.

(** [inner.concatenate(changes).as_collection().leave()]. *)
Definition delta_join (fuel : nat) d (self : Hector) : outcome (option (Stream Nested P * Handle)) :=
  let! result := pipelines fuel d self 0 (he_bindings self) no_imports in
  match result with
  | None => Ret None
  | Some (changes, caches) =>
      Ret (Some (retime AltNeu_to_outer (concat changes), shutdown_handle caches))
  end.
End delta_join.
