(* ===== verification/DeltaExtenders.v ===== *)
(** * Bindings as extenders

    What a binding sees of the history of its attribute inside a pipeline, and
    that the extenders a pipeline collects for a variable propose exactly the
    values that satisfy the bindings they were made from, and which of them
    validate the proposals of others as faithfully. *)
From Stdlib Require Import ZArith NArith Lia.
From stdpp Require Import base strings numbers sets gmap list.
From S2P Require Import Prelude Timestamps Values Bindings HectorPlan Sessions Weighted Streams.
From S2P Require Import Lookups Dataflow Domains Relations Extenders ExtenderTheorems Queries DeltaJoin.
Local Open Scope Z_scope.

(** ** What is visible at a time of a pipeline *)

Abbreviation Scoped := (AltNeu (Product N N)) (only parsing).

(** The history up to a time, or nothing. *)
Definition visible {D} (h : Stream N D) (c : option N) : wlist D :=
  match c with Some t => accumulate h t | None => [] end.

(** The last time of a history that a binding shows at a time of the pipeline. *)
Definition cutoff (is_neu : bool) (t : Scoped) : option N :=
  let s := outer (an_time t) in
  if (inner (an_time t) =? 0)%N && is_neu && negb (neu t)
  then if (s =? 0)%N then None else Some (s - 1)%N
  else Some s.

Lemma accumulate_enter_at {D} is_neu (h : Stream N D) (t : Scoped) :
  accumulate (retime (enter_at is_neu) h) t = visible h (cutoff is_neu t).
Proof.
  assert (∀ t', less_equal (enter_at is_neu t') t =
    match cutoff is_neu t with Some s => (t' <=? s)%N | None => false end) as Hle.
  { intros t'. destruct t as [[s r] n]. unfold cutoff, enter_at, enter_nested. simpl.
    unfold less_equal, AltNeu_less_equal, Product_less_equal, less_equal, u64_less_equal, bool_le.
    simpl. case_decide as Heq.
    - simplify_eq/=. destruct is_neu, n; simpl; try (symmetry; apply N.leb_le; lia).
      destruct (N.eqb_spec s 0); [done|]. symmetry. apply N.leb_gt. lia.
    - destruct (N.eqb_spec r 0) as [->|Hr]; simpl.
      + rewrite andb_true_r. assert (t' ≠ s) by congruence.
        destruct is_neu, n; simpl; try done. destruct (N.eqb_spec s 0) as [->|].
        * apply N.leb_gt. lia.
        * apply eq_true_iff_eq. rewrite !N.leb_le. lia.
      + rewrite (proj2 (N.leb_le 0 r)) by lia. by rewrite andb_true_r. }
  unfold accumulate, retime. induction h as [|[[x t'] z] h IH].
  { unfold visible. by destruct (cutoff _ _). }
  unfold wmap, wfilter in *. rewrite fmap_cons, filter_cons. simpl. rewrite Hle.
  unfold visible, accumulate, wmap, wfilter in *. destruct (cutoff is_neu t) as [s|].
  - rewrite filter_cons. simpl. unfold less_equal, u64_less_equal in *.
    destruct (t' <=? s)%N; [|exact IH]. csimpl. by f_equal.
  - done.
Qed.

(** ** Histories of sets

    At every time each pair is there once or not at all, and fewer than 2^31
    pairs share a key. *)
Section sets.
Context {D K : Type} `{EqDecision D, EqDecision K}.
Implicit Types (l : wlist D) (h : Stream N D) (f : D → K).

Definition is_set l : Prop := ∀ x, wt l x = 0 ∨ wt l x = 1.
Definition present l : list D := filter (λ x, wt l x = 1) (remove_dups l.*1).
Definition degree f l (k : K) : nat := length (filter (λ x, f x = k) (present l)).

Lemma elem_of_present l x : x ∈ present l ↔ wt l x = 1.
Proof.
  unfold present. rewrite list_elem_of_filter, elem_of_remove_dups. split; [by intros []|].
  intros Hx. split; [done|]. apply wt_elem. by rewrite Hx.
Qed.

Lemma set_equiv l : is_set l → l ≡ (λ x, (x, 1)) <$> present l.
Proof.
  intros Hl x. rewrite wt_indicator_NoDup by (apply NoDup_filter, NoDup_remove_dups).
  destruct (Hl x) as [Hx|Hx]; case_decide as Hp; rewrite elem_of_present in Hp; congruence.
Qed.

(** The weight of a key counts the pairs. *)
Lemma wt_degree f l k :
  is_set l → wt (wmap (λ x, (f x, tt)) l) (k, tt) = wrap_i 64 (Z.of_nat (degree f l k)).
Proof.
  intros Hl. unfold degree. transitivity (wt (wmap (λ x, (f x, tt)) ((λ x, (x, 1)) <$> present l)) (k, tt)).
  { apply wmap_proper. by apply set_equiv. }
  unfold wt. f_equal. rewrite wsum_wmap, wsum_ones, Z.mul_1_r.
  induction (present l) as [|x xs IH]; [done|]. rewrite fmap_cons, sumZ_cons, IH, filter_cons.
  unfold indicator. simpl. repeat case_decide; simplify_eq/=; lia || done.
Qed.

Lemma wt_degree_small f l k :
  is_set l → (Z.of_nat (degree f l k) < 2 ^ 31) →
  wt (wmap (λ x, (f x, tt)) l) (k, tt) = Z.of_nat (degree f l k).
Proof. intros Hl Hd. rewrite wt_degree by done. apply wrap_i64_id. unfold in_i64. lia. Qed.

Lemma degree_zero f l k x : degree f l k = 0%nat → f x = k → is_set l → wt l x = 0.
Proof.
  intros Hd Hx Hl. destruct (Hl x) as [|Hw]; [done|]. apply elem_of_present in Hw.
  assert (x ∈ filter (λ x, f x = k) (present l)) as Hin by (by apply list_elem_of_filter).
  apply length_zero_iff_nil in Hd. rewrite Hd in Hin. set_solver.
Qed.

Lemma is_set_nil : is_set [].
Proof. by left. Qed.
End sets.

(** ** The attributes of a domain *)
Section bindings.
Context `{EV : ExternValues, DF : Differential, TR : !Traces N} {Rule : Type}.
Context (updates : ∀ K V, Trace (T := N) K V → Stream N (K * V)) (d : Domain N Rule).
Context (history : Aid → Stream N (Value * Value)).
Context (mirrored : Aid → bool).
Implicit Types (b : Binding) (ρ : Var → Value) (prefix : list Var) (t : Scoped).

(** The index exists, and has the attribute's pairs under the index's key. *)
Definition indexes_history {K V} `{EqDecision K, EqDecision V} (trace : option (Trace (T := N) K V))
    (f : Value * Value → K * V) (h : Stream N (Value * Value)) : Prop :=
  ∃ tr, trace = Some tr ∧ ∀ s, accumulate (updates _ _ tr) s ≡ wmap f (accumulate h s).

(** The six indices are those [with_query_support] and [with_reverse_indices]
    install.  The last one holds the pairs as they are, although the reverse
    extender looks up swapped pairs in it: what it validates is what the
    attribute's pairs make of it only if every pair comes with its mirror image,
    which [mirrored] claims of some attributes. *)
Record attribute_indexed (a : Aid) : Prop := {
  ai_forward_count : indexes_history (Domain_forward_count d a) (λ ev, (ev.1, tt)) (history a);
  ai_forward_propose : indexes_history (Domain_forward_propose d a) id (history a);
  ai_forward_validate : indexes_history (Domain_forward_validate d a) (λ ev, (ev, tt)) (history a);
  ai_reverse_count : indexes_history (Domain_reverse_count d a) (λ ev, (ev.2, tt)) (history a);
  ai_reverse_propose : indexes_history (Domain_reverse_propose d a) (λ ev, (ev.2, ev.1)) (history a);
  ai_reverse_validate : indexes_history (Domain_reverse_validate d a) (λ ev, (ev, tt)) (history a);
  ai_mirrored : mirrored a = true → ∀ s e v,
    wt (accumulate (history a) s) (v, e) = wt (accumulate (history a) s) (e, v);
  ai_set : ∀ s, is_set (accumulate (history a) s);
  ai_degree : ∀ s k, Z.of_nat (degree fst (accumulate (history a) s) k) < 2 ^ 31 ∧
                     Z.of_nat (degree snd (accumulate (history a) s) k) < 2 ^ 31
}.

(** What the bindings mean, given the pairs of every attribute. *)
Definition contents (c : option N) (a : Aid) (e v : Value) : bool :=
  bool_decide (wt (visible (history a) c) (e, v) = 1).

Definition satisfied (c : option N) ρ b : bool := binding_holds (contents c) ρ b.
Arguments satisfied _ _ !_ /.

Fixpoint binding_wf b : Prop :=
  match b with
  | BAttribute b => (ab_variables b).1 ≠ (ab_variables b).2 ∧ attribute_indexed (source_attribute b)
  | BNot (BNot _) => False
  | BNot b => binding_wf b
  | BConstant _ => True
  | BBinaryPredicate b => (bp_variables b).1 ≠ (bp_variables b).2
  end.

(** The binding's extender validates values of the target as it proposes them. *)
Fixpoint validated_ok (target : Var) b : bool :=
  match b with
  | BAttribute b => bool_decide ((ab_variables b).2 = target) || mirrored (source_attribute b)
  | BNot b => validated_ok target b
  | _ => true
  end.

Definition is_proposer b : bool :=
  match b with BAttribute _ | BConstant _ => true | _ => false end.

(** ** Indices inside a pipeline *)

Lemma visible_set a c : attribute_indexed a → is_set (visible (history a) c).
Proof. intros Ha. destruct c; [apply ai_set, Ha|apply is_set_nil]. Qed.

Lemma visible_degree a c k :
  attribute_indexed a → Z.of_nat (degree fst (visible (history a) c) k) < 2 ^ 31 ∧
                        Z.of_nat (degree snd (visible (history a) c) k) < 2 ^ 31.
Proof. intros Ha. destruct c; [apply ai_degree, Ha|done]. Qed.

Lemma visible_index {K V} `{EqDecision K, EqDecision V} (h : Stream N (K * V)) f a c :
  (∀ s, accumulate h s ≡ wmap f (accumulate (history a) s)) →
  visible h c ≡ wmap f (visible (history a) c).
Proof. intros Hh. destruct c; [apply Hh|done]. Qed.

Lemma visible_mirrored a c e v :
  attribute_indexed a → mirrored a = true →
  wt (visible (history a) c) (v, e) = wt (visible (history a) c) (e, v).
Proof. intros Ha Hm. destruct c; [by apply ai_mirrored|done]. Qed.

(** The three indices of one direction; [f] swaps the pairs in the reverse one. *)
Section direction.
Context (a : Aid) (f : Value * Value → Value * Value).
Context (count : Stream N (Value * unit)) (propose : Stream N (Value * Value)).
Context (validate : Stream N (Value * Value * unit)).
Context (f_involutive : ∀ x, f (f x) = x) (a_indexed : attribute_indexed a).
Context (a_degree : ∀ c k, Z.of_nat (degree (λ x, (f x).1) (visible (history a) c) k) < 2 ^ 31).
Context (count_index : ∀ s, accumulate count s ≡ wmap (λ ev, ((f ev).1, tt)) (accumulate (history a) s)).
Context (propose_index : ∀ s, accumulate propose s ≡ wmap f (accumulate (history a) s)).

Lemma propose_weight is_neu t x :
  wt (accumulate (retime (enter_at is_neu) propose) t) x =
  wt (visible (history a) (cutoff is_neu t)) (f x).
Proof.
  rewrite accumulate_enter_at, (visible_index _ f a) by done.
  rewrite <- (f_involutive x) at 1. apply (wt_wmap_inj f).
  intros y z Hyz. by rewrite <- (f_involutive y), Hyz.
Qed.

Lemma count_weight is_neu t k :
  wt (accumulate (retime (enter_at is_neu) count) t) (k, tt) =
  Z.of_nat (degree (λ x, (f x).1) (visible (history a) (cutoff is_neu t)) k).
Proof.
  rewrite accumulate_enter_at, (visible_index _ (λ ev, ((f ev).1, tt)) a) by done.
  apply (wt_degree_small (λ x, (f x).1)); [by apply visible_set|apply a_degree].
Qed.

Lemma direction_counts is_neu t :
  count_agrees (retime (enter_at is_neu) count) (retime (enter_at is_neu) propose) t.
Proof.
  intros k. rewrite count_weight. intros Hd v. rewrite propose_weight.
  rewrite (degree_zero (λ x, (f x).1) _ k (f (k, v))); [done|lia| |by apply visible_set].
  by rewrite f_involutive.
Qed.

(** The index to validate with holds the pairs the index to propose from does. *)
Lemma direction_validates is_neu t (g : Value * Value → Value * Value) :
  (∀ x, g (g x) = x) →
  (∀ s, accumulate validate s ≡ wmap (λ ev, (g ev, tt)) (accumulate (history a) s)) →
  (∀ c x, wt (visible (history a) c) (g x) = wt (visible (history a) c) (f x)) →
  validate_agrees (retime (enter_at is_neu) propose) (retime (enter_at is_neu) validate) t.
Proof.
  intros Hg Hv Hgf k v. rewrite propose_weight, <- Hgf.
  rewrite accumulate_enter_at, (visible_index _ (λ ev, (g ev, tt)) a) by done.
  rewrite <- (Hg (k, v)) at 1. rewrite (wt_wmap_inj (λ ev, (g ev, tt))); [done|].
  intros y _ [= Hyz]. by rewrite <- (Hg y), Hyz, Hg.
Qed.

Lemma key_size_small offset is_neu t (p : list Value) :
  (key_size (retime (enter_at is_neu) count) offset t p < 2 ^ 31)%N.
Proof.
  unfold key_size. destruct (p !! offset); [|done]. rewrite count_weight.
  unfold as_usize. rewrite Z.mod_small; [|specialize (a_degree (cutoff is_neu t) v); lia].
  specialize (a_degree (cutoff is_neu t) v). lia.
Qed.

Lemma direction_accepts ρ (prefix : list Var) offset x is_neu t (v : Value) :
  prefix !! offset = Some x →
  propose_holds (retime (enter_at is_neu) propose) offset t (ρ <$> prefix) v = let y := f (ρ x, v) in contents (cutoff is_neu t) a y.1 y.2.
Proof.
  intros Hx. unfold propose_holds. rewrite list_lookup_fmap, Hx. simpl. rewrite propose_weight. unfold contents.
  rewrite <- surjective_pairing.
  destruct (visible_set a (cutoff is_neu t) a_indexed (f (ρ x, v))) as [-> | ->]; done.
Qed.
End direction.

(** ** Caches *)

Definition cache_ok {K V} (lookup : Aid → option (Trace (T := N) K V)) (cache : gmap Aid (Stream N (K * V)))
    : Prop := ∀ a h, cache !! a = Some h → ∃ tr, lookup a = Some tr ∧ h = updates _ _ tr.

Record caches_ok (st : Caches (T := N)) : Prop := {
  ck_forward_counts : cache_ok (Domain_forward_count d) (forward_counts st);
  ck_forward_proposes : cache_ok (Domain_forward_propose d) (forward_proposes st);
  ck_forward_validates : cache_ok (Domain_forward_validate d) (forward_validates st);
  ck_reverse_counts : cache_ok (Domain_reverse_count d) (reverse_counts st);
  ck_reverse_proposes : cache_ok (Domain_reverse_propose d) (reverse_proposes st);
  ck_reverse_validates : cache_ok (Domain_reverse_validate d) (reverse_validates st)
}.

Lemma no_imports_ok : caches_ok no_imports.
Proof. by split. Qed.

Lemma import_cached_ok {K V} `{EqDecision K, EqDecision V} lookup (cache : gmap Aid (Stream N (K * V)))
    a missing name handle f :
  cache_ok lookup cache → indexes_history (lookup a) f (history a) →
  ∃ h cache' handle', import_cached updates cache a (lookup a) missing name handle =
      Ret (h, cache', handle') ∧ cache_ok lookup cache' ∧
    ∀ s, accumulate h s ≡ wmap f (accumulate (history a) s).
Proof.
  intros Hc (tr & Htr & Hf). unfold import_cached. destruct (cache !! a) as [h|] eqn:Ha.
  - destruct (Hc a h Ha) as (tr' & Htr' & ->). simplify_eq. by exists (updates _ _ tr), cache, handle.
  - rewrite Htr. simpl. destruct (import_frontier tr name) as [? button].
    eexists _, _, _. split; [done|]. split; [|done]. intros a' h [[<- <-]|[_ Hh]]%lookup_insert_Some.
    + by exists tr.
    + by apply Hc.
Qed.

(** What the extender of a binding promises. *)
Record usable_extender prefix is_neu b (target : Var) (x : PrefixExtender Scoped)
    (spec : (Scoped → list Value → Value → bool) * option (Scoped → list Value → N)) : Prop := {
  ux_proposes : proposes_ok (λ p, length p = length prefix) x spec.1 spec.2;
  ux_validates : validated_ok target b = true →
    validates_ok (λ p, length p = length prefix) x spec.1;
  ux_accepts : ∀ t ρ, spec.1 t (ρ <$> prefix) (ρ target) = satisfied (cutoff is_neu t) ρ b;
  ux_size : if is_proposer b then ∃ sz, spec.2 = Some sz ∧ ∀ t p, (sz t p < 2 ^ 31)%N
            else spec.2 = None
}.

(** The extender of an attribute binding, in either direction; the index to
    validate with has the pairs swapped by [g]. *)
Lemma direction_usable a f g count propose validate prefix is_neu x target e v offset :
  (∀ x, f (f x) = x) → (∀ x, g (g x) = x) → attribute_indexed a →
  (∀ c k, Z.of_nat (degree (λ x, (f x).1) (visible (history a) c) k) < 2 ^ 31) →
  (∀ s, accumulate count s ≡ wmap (λ ev, ((f ev).1, tt)) (accumulate (history a) s)) →
  (∀ s, accumulate propose s ≡ wmap f (accumulate (history a) s)) →
  (∀ s, accumulate validate s ≡ wmap (λ ev, (g ev, tt)) (accumulate (history a) s)) →
  (validated_ok target (BAttribute (mkAttributeBinding (e, v) a)) = true →
   ∀ c x, wt (visible (history a) c) (g x) = wt (visible (history a) c) (f x)) →
  prefix !! offset = Some x → (∀ ρ, f (ρ x, ρ target) = (ρ e, ρ v)) →
  ∃ spec, usable_extender prefix is_neu (BAttribute (mkAttributeBinding (e, v) a)) target
    (CollectionExtender (retime (enter_at is_neu) count) (retime (enter_at is_neu) propose)
       (retime (enter_at is_neu) validate) offset) spec.
Proof.
  intros Hf Hg Ha Hd Hc Hp Hv Hgf Hx Hev.
  assert (offset < length prefix)%nat as Ho by (by eapply lookup_lt_Some).
  assert (∀ p : list Value, length p = length prefix → is_Some (p !! offset)) as Hin
    by (intros p Hlen; by apply lookup_lt_is_Some_2; rewrite Hlen).
  eexists (_, Some _). split; cbn [fst snd].
  - apply CollectionExtender_proposes; [done|]. intros t. by apply (direction_counts a f).
  - intros Hok. apply CollectionExtender_validates; [done|]. intros t.
    apply (direction_validates a f _ _ Hf Hp _ _ g); [done..|]. by apply Hgf.
  - intros t ρ. rewrite (direction_accepts a f propose Hf Ha Hp ρ prefix offset x) by done.
    cbv zeta. by rewrite Hev.
  - eexists. split; [done|]. intros t p. by apply (key_size_small a f count).
Qed.

Lemma forward_extender_ok prefix is_neu source a x target offset st :
  caches_ok st → attribute_indexed a → prefix !! offset = Some x →
  ∃ e st', forward_extender updates d source a offset is_neu st = Ret (e, st') ∧ caches_ok st' ∧
    ∃ spec, usable_extender prefix is_neu (BAttribute (mkAttributeBinding (x, target) a)) target e spec.
Proof.
  intros [] Ha Hx. unfold forward_extender.
  edestruct (import_cached_ok (Domain_forward_count d)) as (count & counts & h1 & -> & Hcs & Hc);
    [done|apply Ha|].
  cbn [obind].
  edestruct (import_cached_ok (Domain_forward_propose d)) as (propose & proposes & h2 & -> & Hps & Hp);
    [done|apply Ha|].
  cbn [obind].
  edestruct (import_cached_ok (Domain_forward_validate d)) as (validate & validates & h3 & -> & Hvs & Hv);
    [done|apply Ha|].
  cbn [obind]. eexists _, _. split; [done|]. split; [by split|].
  apply (direction_usable a id id _ _ _ _ _ x); try done. intros c k. by apply visible_degree.
Qed.

Lemma reverse_extender_ok prefix is_neu source a x target offset st :
  caches_ok st → attribute_indexed a → prefix !! offset = Some x → x ≠ target →
  ∃ e st', reverse_extender updates d source a offset is_neu st = Ret (e, st') ∧ caches_ok st' ∧
    ∃ spec, usable_extender prefix is_neu (BAttribute (mkAttributeBinding (target, x) a)) target e spec.
Proof.
  intros [] Ha Hx Hne. unfold reverse_extender.
  edestruct (import_cached_ok (Domain_reverse_count d)) as (count & counts & h1 & -> & Hcs & Hc);
    [done|apply Ha|].
  cbn [obind].
  edestruct (import_cached_ok (Domain_reverse_propose d)) as (propose & proposes & h2 & -> & Hps & Hp);
    [done|apply Ha|].
  cbn [obind].
  edestruct (import_cached_ok (Domain_reverse_validate d)) as (validate & validates & h3 & -> & Hvs & Hv);
    [done|apply Ha|].
  cbn [obind]. eexists _, _. split; [done|]. split; [by split|].
  apply (direction_usable a (λ ev, (ev.2, ev.1)) id _ _ _ _ _ x); try done.
  - by intros [].
  - intros c k. by apply visible_degree.
  - simpl. rewrite bool_decide_false by done. intros Hm c [e v]. by rewrite (visible_mirrored a).
Qed.

(** ** One binding *)

Lemma pair_direction vars prefix target :
  pair_ready_to_extend vars (Vec_binds prefix) = Some target →
  ∃ offset x, prefix !! offset = Some x ∧ x ≠ target ∧
    ((direction (Vec_binds prefix) vars = Ok (DForward offset) ∧ vars = (x, target)) ∨
     (direction (Vec_binds prefix) vars = Ok (DReverse offset) ∧ vars = (target, x))).
Proof.
  destruct vars as [a b]. rewrite pair_ready_spec. unfold direction. simpl.
  intros [Ht [[-> Ha]|[-> Hb]]].
  - destruct (Vec_binds prefix a) as [o|] eqn:Ho; [|done]. exists o, a.
    split; [by apply Vec_binds_Some|]. split; [congruence|]. left. by rewrite Ht.
  - destruct (Vec_binds prefix b) as [o|] eqn:Ho; [|done]. exists o, b.
    split; [by apply Vec_binds_Some|]. split; [congruence|]. right. by rewrite Ht.
Qed.

Lemma predicate_flip predicate o o' (x y : Value) :
  predicate_accepts predicate (DReverse o) x y = predicate_accepts predicate (DForward o') y x.
Proof.
  unfold predicate_accepts. destruct predicate;
    try (apply bool_decide_ext; rewrite (cmp_antisym y x); destruct (cmp y x); naive_solver);
    apply bool_decide_ext; naive_solver.
Qed.

Lemma predicate_usable prefix is_neu (b : BinaryPredicateBinding) target offset x dir :
  prefix !! offset = Some x →
  (dir = DForward offset ∧ bp_variables b = (x, target)) ∨
  (dir = DReverse offset ∧ bp_variables b = (target, x)) →
  ∃ spec, usable_extender prefix is_neu (BBinaryPredicate b) target
    (BinaryPredicateExtender (bp_predicate b) dir) spec.
Proof.
  intros Hx Hdir. assert (direction_offset dir = offset) as Ho by naive_solver.
  destruct (BinaryPredicateExtender_ok (T := Scoped) (λ p, length p = length prefix) (bp_predicate b) dir) as [Hpr Hv].
  { intros p Hp. apply lookup_lt_is_Some_2. rewrite Ho, Hp. by eapply lookup_lt_Some. }
  eexists (_, None). split; [exact Hpr|intros _; exact Hv| |done].
  - intros t ρ. simpl. rewrite Ho, list_lookup_fmap, Hx. simpl.
    destruct Hdir as [[-> ->]|[-> ->]]; [done|]. by rewrite (predicate_flip _ offset 0).
Qed.

(** A binding that can extend the prefix contributes one extender. *)
Lemma use_plain idx j source prefix target exts st b :
  j ≠ idx → (∀ b', b ≠ BNot b') → binding_wf b → caches_ok st →
  can_extend b (Vec_binds prefix) target = true →
  ∃ x st', use_binding updates d idx source prefix target (exts, st) (j, b) = Ret (exts ++ [x], st') ∧
    caches_ok st' ∧ ∃ spec, usable_extender prefix (Nat.leb idx j) b target x spec.
Proof.
  intros Hj Hnot Hwf Hst Hcan. unfold use_binding. rewrite (proj2 (Nat.eqb_neq j idx)) by done.
  assert (Binding_ready_to_extend b (Vec_binds prefix) = Some target) as Hready
    by (by apply bool_decide_eq_true in Hcan).
  pose proof (Binding_ready_in _ _ _ Hready) as [Hin _]. apply Binding_binds_is_some in Hin.
  unfold is_none. rewrite Hin, Hcan. cbn [negb].
  destruct b as [[vars a]|b|b|b]; [|by edestruct Hnot| |].
  - destruct (pair_direction vars prefix target Hready) as (o & x & Hx & Hne & Hdir). simpl in *.
    destruct Hwf as [_ Ha]. destruct Hdir as [[-> ->]|[-> ->]].
    + edestruct (forward_extender_ok prefix (Nat.leb idx j) source a x target o st)
        as (e & st' & -> & Hst' & He); [done..|]. by exists e, st'.
    + edestruct (reverse_extender_ok prefix (Nat.leb idx j) source a x target o st)
        as (e & st' & -> & Hst' & He); [done..|]. by exists e, st'.
  - eexists _, st. split; [done|]. split; [done|].
    simpl in Hready. unfold ConstantBinding_ready_to_extend in Hready.
    destruct (is_none _); simplify_eq.
    destruct (ConstantExtender_ok (T := Scoped) (λ p, length p = length prefix) (cb_value b)) as [Hpr Hv].
    eexists (_, Some _). split; [exact Hpr|intros _; exact Hv|intros t ρ; by apply bool_decide_ext|].
    by eexists.
  - destruct (pair_direction (bp_variables b) prefix target Hready) as (o & x & Hx & Hne & Hdir).
    unfold BinaryPredicateBinding_into_extender.
    destruct Hdir as [[-> Hb]|[-> Hb]]; (eexists _, st; split; [done|]; split; [done|]);
      apply (predicate_usable _ _ _ _ o x); auto.
Qed.

Lemma use_skip idx j source prefix target exts st b :
  j = idx ∨ can_extend b (Vec_binds prefix) target = false →
  use_binding updates d idx source prefix target (exts, st) (j, b) = Ret (exts, st).
Proof.
  intros Hskip. unfold use_binding. destruct (Nat.eqb_spec j idx) as [|Hj]; [done|].
  destruct Hskip as [|Hcan]; [done|]. destruct (is_none _); [done|]. by rewrite Hcan.
Qed.

Lemma use_not idx j source prefix target exts x st b spec :
  j ≠ idx → can_extend (BNot b) (Vec_binds prefix) target = true →
  usable_extender prefix (Nat.leb idx j) b target x spec →
  ∃ y, use_binding updates d idx source prefix target (exts ++ [x], st) (j, BNot b) =
      Ret (exts ++ [y], st) ∧ ∃ spec, usable_extender prefix (Nat.leb idx j) (BNot b) target y spec.
Proof.
  intros Hj Hcan [Hpr Hv Hacc _]. unfold use_binding.
  rewrite (proj2 (Nat.eqb_neq j idx)) by done.
  assert (Binding_ready_to_extend (BNot b) (Vec_binds prefix) = Some target) as Hready
    by (by apply bool_decide_eq_true in Hcan).
  pose proof (Binding_ready_in _ _ _ Hready) as [Hin _]. apply Binding_binds_is_some in Hin.
  unfold is_none. rewrite Hin, Hcan. cbn [negb]. rewrite last_snoc. cbn [expect obind].
  rewrite removelast_last. eexists. split; [done|].
  exists (λ t p v, negb (spec.1 t p v), None). split; [|..|done].
  - by eapply AntijoinExtender_proposes.
  - intros Hok. by apply AntijoinExtender_validates, Hv.
  - intros t ρ. simpl. by rewrite Hacc.
Qed.

(** What processing one binding's entries of the queue adds. *)
Definition queue_of (j : nat) b : list (nat * Binding) :=
  match b with BNot inner => [(j, inner); (j, b)] | _ => [(j, b)] end.

Lemma use_one idx j source prefix target exts st b :
  binding_wf b → caches_ok st →
  if bool_decide (j ≠ idx) && can_extend b (Vec_binds prefix) target then
    ∃ x st', use_bindings updates d idx source prefix target (queue_of j b) (exts, st) =
        Ret (exts ++ [x], st') ∧ caches_ok st' ∧
      ∃ spec, usable_extender prefix (Nat.leb idx j) b target x spec
  else use_bindings updates d idx source prefix target (queue_of j b) (exts, st) = Ret (exts, st).
Proof.
  intros Hwf Hst. destruct (bool_decide (j ≠ idx) && can_extend b (Vec_binds prefix) target) eqn:Huse.
  - apply andb_true_iff in Huse as [Hj%bool_decide_eq_true Hcan].
    destruct b as [b|b'|b|b];
      try (edestruct (use_plain idx j source prefix target exts st) as (x & st' & Hu & Hst' & Hx);
           [exact Hj| |exact Hwf|exact Hst|exact Hcan|]; [by intros b' [=]|];
           exists x, st'; split; [exact Hu|done]).
    unfold queue_of, use_bindings. cbn [foldl obind].
    edestruct (use_plain idx j source prefix target exts st b') as (x & st' & -> & Hst' & spec & Hx);
      [done|by intros b'' ->|by destruct b'|done|exact Hcan|].
    cbn [obind].
    edestruct (use_not idx j source prefix target exts x st' b' spec) as (y & -> & Hy); [done..|].
    by exists y, st'.
  - assert (j = idx ∨ can_extend b (Vec_binds prefix) target = false) as Hskip.
    { apply andb_false_iff in Huse as [Hj%bool_decide_eq_false|]; [left|by right].
      by apply dec_stable. }
    unfold queue_of, use_bindings. destruct b as [b|b|b|b]; cbn [foldl obind]; rewrite use_skip by done; try done.
    cbn [obind]. by rewrite use_skip.
Qed.
End bindings.
Arguments satisfied {_} _ _ _ !_ /.
