(* ===== verification/DeltaPipelines.v ===== *)
(** * A delta pipeline computes its share of the changes

    Extending variable by variable, a pipeline keeps the changes of its source
    for which every other binding is satisfied, those before the source by what
    is known at the time of the change, those after it by what was known before. *)
From Stdlib Require Import ZArith NArith Lia.
From stdpp Require Import base strings numbers sets gmap list.
From S2P Require Import Prelude Timestamps Values Bindings HectorPlan Sessions Weighted Streams.
From S2P Require Import Lookups Dataflow Domains Relations RelationTheorems Extenders.
From S2P Require Import ExtenderTheorems DeltaJoin DeltaExtenders.
Local Open Scope Z_scope.

Section all_bindings.
Context `{EV : ExternValues}.

(** A test of every binding and its position. *)
Fixpoint all_bindings (Q : nat → Binding → bool) (k : nat) (bs : list Binding) : bool :=
  match bs with
  | [] => true
  | b :: bs => Q k b && all_bindings Q (S k) bs
  end.

Lemma all_bindings_ext Q Q' k bs :
  (∀ i b, bs !! i = Some b → Q (k + i)%nat b = Q' (k + i)%nat b) →
  all_bindings Q k bs = all_bindings Q' k bs.
Proof.
  revert k. induction bs as [|b bs IH]; intros k Hq; [done|]. simpl. f_equal.
  - specialize (Hq 0%nat b eq_refl). by rewrite Nat.add_0_r in Hq.
  - apply IH. intros i b' Hb'. rewrite Nat.add_succ_comm. by apply (Hq (S i)).
Qed.

Lemma all_bindings_and Q Q' k bs :
  all_bindings (λ j b, Q j b && Q' j b) k bs = all_bindings Q k bs && all_bindings Q' k bs.
Proof.
  revert k. induction bs as [|b bs IH]; intros k; [done|]. simpl. rewrite IH.
  by destruct (Q k b), (Q' k b), (all_bindings Q _ _), (all_bindings Q' _ _).
Qed.

End all_bindings.

Section pipelines.
Context `{EV : ExternValues, DF : Differential, TR : !Traces N} {Rule : Type}.
Context (updates : ∀ K V, Trace (T := N) K V → Stream N (K * V)) (d : Domain N Rule).
Context (history : Aid → Stream N (Value * Value)).
Context (mirrored : Aid → bool).
Implicit Types (b : Binding) (ρ : Var → Value) (prefix : list Var) (t : Scoped) (bs : list Binding).

Abbreviation binding_wf := (binding_wf updates d history mirrored).
Abbreviation satisfied := (satisfied history).
Abbreviation caches_ok := (caches_ok updates d).

(** ** The extenders of a target *)

Definition usable (idx : nat) prefix target (j : nat) b : bool :=
  bool_decide (j ≠ idx) && can_extend b (Vec_binds prefix) target.

(** What a binding accepts, in the pipeline of the binding at [idx]. *)
Definition sees (idx : nat) t ρ (j : nat) b : bool := satisfied (cutoff (Nat.leb idx j) t) ρ b.

Lemma use_bindings_app idx source prefix target queue queue' st :
  use_bindings updates d idx source prefix target (queue ++ queue') st =
  (let! st := use_bindings updates d idx source prefix target queue st in
   use_bindings updates d idx source prefix target queue' st).
Proof.
  unfold use_bindings. rewrite foldl_app.
  destruct (foldl _ (Ret st) queue) as [st'|msg]; [done|]. simpl.
  induction queue' as [|entry queue' IH]; [done|]. simpl. done.
Qed.

(** The bindings that contribute an extender, with their positions. *)
Definition usables (idx : nat) prefix target k bs : list (nat * Binding) :=
  filter (λ p, usable idx prefix target p.1 p.2 = true) (imap (λ i b, ((k + i)%nat, b)) bs).

Lemma usables_cons idx prefix target k b bs :
  usables idx prefix target k (b :: bs) =
  (if usable idx prefix target k b then [(k, b)] else []) ++ usables idx prefix target (S k) bs.
Proof.
  unfold usables. rewrite imap_cons, filter_cons, Nat.add_0_r. simpl.
  assert (imap ((λ i b, ((k + i)%nat, b)) ∘ S) bs = imap (λ i b, (S (k + i), b)) bs) as ->.
  { apply imap_ext. intros i b' _. simpl. by rewrite Nat.add_succ_r. }
  destruct (usable idx prefix target k b); [by rewrite decide_True|by rewrite decide_False].
Qed.

Lemma use_from idx source prefix target k bs exts st :
  (∀ b, b ∈ bs → binding_wf b) → caches_ok st →
  ∃ es specs st', use_bindings updates d idx source prefix target
      (concat (imap (λ i b, queue_of (k + i) b) bs)) (exts, st) = Ret (exts ++ es, st') ∧
    caches_ok st' ∧ length specs = length es ∧
    Forall2 (λ x p, usable_extender history mirrored prefix (Nat.leb idx p.1) p.2 target x.1 x.2)
      (zip es specs) (usables idx prefix target k bs).
Proof.
  revert k exts st. induction bs as [|b bs IH]; intros k exts st Hwf Hst.
  { exists [], [], st. rewrite app_nil_r. by split_and!. }
  rewrite imap_cons. cbn [concat]. rewrite Nat.add_0_r, use_bindings_app.
  pose proof (use_one updates d history mirrored idx k source prefix target exts st b
    (Hwf b ltac:(set_solver)) Hst) as Hone.
  assert (imap ((λ i b, queue_of (k + i) b) ∘ S) bs = imap (λ i b, queue_of (S k + i) b) bs) as ->.
  { apply imap_ext. intros i b' _. simpl. by rewrite Nat.add_succ_r. }
  rewrite usables_cons. unfold usable at 1.
  destruct (bool_decide (k ≠ idx) && can_extend b (Vec_binds prefix) target).
  - destruct Hone as (x & st1 & -> & Hst1 & spec & Hx). cbn [obind].
    destruct (IH (S k) (exts ++ [x]) st1) as (es & specs & st' & -> & Hst' & Hlen & Hes);
      [set_solver|done|].
    exists (x :: es), (spec :: specs), st'. rewrite <- (assoc_L (++)). split; [done|].
    split; [done|]. split; [by simpl; rewrite Hlen|]. by constructor.
  - rewrite Hone. cbn [obind]. apply IH; [set_solver|done].
Qed.

(** What the extenders accept together. *)
Lemma usables_accepted idx prefix target k bs (xs : list (PrefixExtender Scoped * _)) t ρ :
  Forall2 (λ x p, usable_extender history mirrored prefix (Nat.leb idx p.1) p.2 target x.1 x.2)
    xs (usables idx prefix target k bs) →
  accepted xs.*2 t (ρ <$> prefix) (ρ target) =
  all_bindings (λ j b, implb (usable idx prefix target j b) (sees idx t ρ j b)) k bs.
Proof.
  revert k xs. induction bs as [|b bs IH]; intros k xs Hxs.
  { by apply Forall2_nil_inv_r in Hxs as ->. }
  rewrite usables_cons in Hxs. cbn [all_bindings].
  destruct (usable idx prefix target k b); [|by apply IH].
  apply Forall2_cons_inv_r in Hxs as (x & xs' & Hx & Hxs & ->).
  unfold accepted. cbn [fmap list_fmap forallb implb]. f_equal.
  - exact (ux_accepts _ _ _ _ _ _ _ _ Hx t ρ).
  - exact (IH _ _ Hxs).
Qed.

(** The target has an extender that proposes, and an extender that does not
    validate as it proposes has no other to propose for it. *)
Definition extensible (idx : nat) prefix target bs : bool :=
  let us := usables idx prefix target 0 bs in
  let proposers := filter (λ p, is_proposer p.2 = true) us in
  negb (bool_decide (proposers = [])) &&
  forallb (λ p, validated_ok mirrored target p.2 || forallb (λ q, Nat.eqb q.1 p.1) proposers) us.

Lemma usables_positions idx prefix target k bs i j p q :
  usables idx prefix target k bs !! i = Some p → usables idx prefix target k bs !! j = Some q →
  p.1 = q.1 → i = j.
Proof.
  assert (NoDup (usables idx prefix target k bs).*1) as Hnd.
  { revert k. induction bs as [|b bs IH]; intros k; [constructor|]. rewrite usables_cons.
    destruct (usable idx prefix target k b); [|apply IH]. simpl. constructor; [|apply IH].
    intros (p' & Hk & [_ (n & b' & -> & _)%elem_of_lookup_imap]%list_elem_of_filter)%list_elem_of_fmap.
    simpl in Hk. lia. }
  intros Hi Hj Heq. eapply NoDup_lookup; [exact Hnd|..].
  - by rewrite list_lookup_fmap, Hi.
  - by rewrite list_lookup_fmap, Hj, Heq.
Qed.

Lemma usables_extend idx prefix target bs (xs : list (PrefixExtender Scoped * _)) :
  Forall2 (λ x p, usable_extender history mirrored prefix (Nat.leb idx p.1) p.2 target x.1 x.2)
    xs (usables idx prefix target 0 bs) →
  extensible idx prefix target bs = true →
  Forall2 (λ e spec, proposes_ok (λ p, length p = length prefix) e spec.1 spec.2) xs.*1 xs.*2 ∧
  validated (λ p, length p = length prefix) xs.*1 xs.*2 ∧
  ∃ acc size, (acc, Some size) ∈ xs.*2 ∧ ∀ t p, (size t p < 2 ^ 31)%N.
Proof.
  unfold extensible. set (us := usables idx prefix target 0 bs). intros Hxs [Hne Hval]%andb_true_iff.
  split; [|split].
  - clear Hne Hval. induction Hxs as [|x p xs ps Hx _ IH]; constructor; [|exact IH].
    exact (ux_proposes _ _ _ _ _ _ _ _ Hx).
  - intros i e spec He Hs. rewrite (list_lookup_fmap fst) in He. rewrite (list_lookup_fmap snd) in Hs.
    destruct (xs !! i) as [x|] eqn:Hi; [|done]. simplify_eq/=.
    destruct (Forall2_lookup_l _ _ _ _ _ Hxs Hi) as (p & Hp & Hx).
    rewrite forallb_forall in Hval. pose proof (Hval p ltac:(by eapply list_elem_of_In, list_elem_of_lookup_2))
      as [Hok|Hsole]%orb_true_iff; [left; by apply (ux_validates _ _ _ _ _ _ _ _ Hx)|right].
    intros j acc size Hj. rewrite (list_lookup_fmap snd) in Hj. destruct (xs !! j) as [y|] eqn:Hy; [|done].
    simpl in Hj. destruct (Forall2_lookup_l _ _ _ _ _ Hxs Hy) as (q & Hq & Hyq).
    eapply usables_positions; [exact Hq|exact Hp|]. rewrite forallb_forall in Hsole.
    apply Nat.eqb_eq, Hsole, list_elem_of_In, list_elem_of_filter.
    split; [|by eapply list_elem_of_lookup_2]. pose proof (ux_size _ _ _ _ _ _ _ _ Hyq) as Hsize.
    destruct (is_proposer q.2); [done|]. by destruct y as [y [acc' size']]; simplify_eq/=.
  - apply negb_true_iff, bool_decide_eq_false in Hne.
    destruct (filter (λ p, is_proposer p.2 = true) us) as [|p ps] eqn:Hps; [done|].
    assert (p ∈ p :: ps) as Hin by left. rewrite <- Hps in Hin.
    apply list_elem_of_filter in Hin as [Hpr [i Hi]%list_elem_of_lookup].
    destruct (Forall2_lookup_r _ _ _ _ _ Hxs Hi) as (x & Hx & Hxp).
    pose proof (ux_size _ _ _ _ _ _ _ _ Hxp) as Hsize. rewrite Hpr in Hsize.
    destruct Hsize as (sz & Hsz & Hlt). exists x.2.1, sz. split; [|done].
    rewrite <- Hsz, <- surjective_pairing. by eapply list_elem_of_fmap_2, list_elem_of_lookup_2.
Qed.

(** ** One variable *)

Definition covered prefix b : bool := forallb (λ x, bool_decide (x ∈ prefix)) (Binding_variables b).

Lemma covered_iff prefix b : covered prefix b = true ↔ Binding_variables b ⊆ prefix.
Proof.
  unfold covered. rewrite forallb_forall. setoid_rewrite bool_decide_eq_true.
  setoid_rewrite <- list_elem_of_In. done.
Qed.

Lemma wf_variables b :
  binding_wf b → (∃ x, Binding_variables b = [x]) ∨ ∃ x y, x ≠ y ∧ Binding_variables b = [x; y].
Proof.
  induction b as [[[e v] a]|b IH|b|[[x y] p]]; simpl.
  - intros [Hne _]. right. by exists e, v.
  - destruct b; try done; apply IH.
  - intros _. left. by eexists.
  - intros Hne. right. by exists x, y.
Qed.

(** A binding is covered from the variable on that it can extend the prefix to. *)
Lemma covered_snoc prefix x b :
  binding_wf b → x ∉ prefix →
  covered (prefix ++ [x]) b = covered prefix b || can_extend b (Vec_binds prefix) x.
Proof.
  intros Hwf Hx. apply eq_true_iff_eq. rewrite orb_true_iff, !covered_iff.
  unfold can_extend. rewrite bool_decide_eq_true.
  change (ready_to_extend b (Vec_binds prefix)) with (Binding_ready_to_extend b (Vec_binds prefix)).
  rewrite Binding_ready_cases, Vec_binds_None.
  assert (∀ w, Vec_binds prefix w ≠ None ↔ w ∈ prefix) as Hw.
  { intros w. by rewrite <- is_some_true, Vec_binds_is_some. }
  setoid_rewrite Hw. pose proof (wf_variables b Hwf) as Hvars.
  assert (∀ y (l : list Var), [y] ⊆ l ↔ y ∈ l) as H1 by (intros y l; clear; set_solver).
  assert (∀ y z (l : list Var), [y; z] ⊆ l ↔ y ∈ l ∧ z ∈ l) as H2 by (intros y z l; clear; set_solver).
  clear Hwf Hw. destruct Hvars as [[y ->]|(y & z & Hyz & ->)].
  - rewrite !H1, elem_of_app, list_elem_of_singleton. naive_solver.
  - rewrite !H2, !elem_of_app, !list_elem_of_singleton.
    destruct (decide (y = x)) as [->|]; [|destruct (decide (z = x)) as [->|]]; naive_solver.
Qed.

(** The part of a pipeline up to some prefix: the source's changes at the tuples
    of values for which the covered bindings are satisfied. *)
Record pipeline_at (idx : nat) bs (ends : Var * Var) (src : Stream Scoped (Value * Value)) prefix
    (S : Stream Scoped (list Value)) : Prop := {
  at_nodup : NoDup prefix;
  at_length : ∀ p t, (p, t) ∈ S.*1 → length p = length prefix;
  at_weight : ∀ ρ t, wt S (ρ <$> prefix, t) =
    if all_bindings (λ j b, implb (bool_decide (j ≠ idx) && covered prefix b) (sees idx t ρ j b)) 0 bs
    then wt src ((ρ ends.1, ρ ends.2), t) else 0
}.

Lemma append_weight (l : Stream Scoped (list Value * Value)) p v t :
  wt (respond (λ _ x, [x.1 ++ [x.2]]) l) (p ++ [v], t) = wt l ((p, v), t).
Proof.
  rewrite (wt_respond _ (λ y, (removelast y, default v (last y))) (λ _ y, bool_decide (y ≠ []))).
  - rewrite bool_decide_true by (by destruct p). by rewrite removelast_last, last_snoc.
  - intros. apply NoDup_singleton.
  - intros t' [p' v'] y. rewrite list_elem_of_singleton, bool_decide_eq_true. simpl. split.
    + intros ->. rewrite removelast_last, last_snoc. split; [done|by destruct p'].
    + intros [[= -> ->] Hy]. destruct y as [|y0 y] using rev_ind; [done|].
      by rewrite removelast_last, last_snoc.
Qed.

Lemma extend_one idx bs ends src source prefix S target st :
  (∀ b, b ∈ bs → binding_wf b) → caches_ok st → pipeline_at idx bs ends src prefix S →
  target ∉ prefix → extensible idx prefix target bs = true →
  ∃ es st' extended, use_bindings updates d idx source prefix target (binding_queue bs) ([], st) =
      Ret (es, st') ∧ caches_ok st' ∧ extend_prefixes S es = Ret extended ∧
    pipeline_at idx bs ends src (prefix ++ [target]) (respond (λ _ x, [x.1 ++ [x.2]]) extended).
Proof.
  intros Hwf Hst [Hnd Hlen Hw] Htarget Hext.
  destruct (use_from idx source prefix target 0 bs [] st Hwf Hst)
    as (es & specs & st' & Huse & Hst' & Hlens & Hes).
  exists es, st'. simpl in Huse.
  destruct (usables_extend idx prefix target bs _ Hes Hext) as (Hpr & Hval & acc & size & Hacc & Hsize).
  pose proof (λ t ρ, usables_accepted idx prefix target 0 bs _ t ρ Hes) as Hall.
  rewrite fst_zip, snd_zip in * by lia.
  destruct (extend_prefixes_spec (λ p, length p = length prefix) es specs S) as (out & Hout & Hsub & Hwt);
    [done|done|intros p t Hp; by eapply Hlen|by exists acc, size|by intros; exists acc, size|].
  exists out. split; [exact Huse|]. split; [done|]. split; [done|]. split.
  - apply NoDup_app. split; [done|]. split; [set_solver|apply NoDup_singleton].
  - intros p t (x & Hx & ->%list_elem_of_singleton)%elem_of_respond. destruct x as [p v].
    apply Hsub, Hlen in Hx. rewrite !length_app. simpl. by rewrite Hx.
  - intros ρ t. rewrite fmap_app. simpl. rewrite append_weight, Hwt by (by rewrite length_fmap).
    rewrite Hall, Hw.
    rewrite (all_bindings_ext (λ j b, implb (bool_decide (j ≠ idx) && covered (prefix ++ [target]) b)
        (sees idx t ρ j b))
      (λ j b, implb (usable idx prefix target j b) (sees idx t ρ j b) &&
              implb (bool_decide (j ≠ idx) && covered prefix b) (sees idx t ρ j b))).
    + rewrite all_bindings_and. by destruct (all_bindings _ _ _), (all_bindings _ _ _).
    + intros k b Hk. rewrite covered_snoc; [|by eapply Hwf, list_elem_of_lookup_2|done]. unfold usable.
      by destruct (bool_decide _), (covered prefix b), (can_extend b _ _), (sees _ _ _ _ _).
Qed.

(** ** All variables *)

Fixpoint plannable (idx : nat) bs (variables prefix : list Var) : bool :=
  match variables with
  | [] => true
  | target :: variables =>
      if bool_decide (target ∈ prefix) then plannable idx bs variables prefix
      else extensible idx prefix target bs && plannable idx bs variables (prefix ++ [target])
  end.

Lemma extend_variables_spec idx bs ends src source variables prefix S st :
  (∀ b, b ∈ bs → binding_wf b) → caches_ok st → pipeline_at idx bs ends src prefix S →
  plannable idx bs variables prefix = true →
  ∃ prefix' S' st', extend_variables updates d idx source bs variables prefix S st =
      Ret (prefix', S', st') ∧ caches_ok st' ∧ pipeline_at idx bs ends src prefix' S' ∧
    (∀ x, x ∈ prefix' ↔ x ∈ prefix ∨ x ∈ variables).
Proof.
  intros Hwf. revert prefix S st. induction variables as [|target variables IH];
    intros prefix S st Hst HS Hplan.
  { exists prefix, S, st. split_and!; try done. set_solver. }
  simpl in *. case_bool_decide as Hin.
  - destruct (Vec_binds prefix target) eqn:Hb; [|apply Vec_binds_None in Hb; done].
    destruct (IH prefix S st Hst HS Hplan) as (prefix' & S' & st' & -> & Hst' & HS' & Hx).
    exists prefix', S', st'. split_and!; try done. intros x. rewrite Hx, elem_of_cons. naive_solver.
  - rewrite (proj2 (Vec_binds_None prefix target)) by done.
    apply andb_true_iff in Hplan as [Hprop Hplan].
    destruct (extend_one idx bs ends src source prefix S target st)
      as (es & st1 & extended & -> & Hst1 & He & HS1); [done..|].
    cbn [obind]. rewrite He. cbn [obind].
    destruct (IH _ _ st1 Hst1 HS1 Hplan) as (prefix' & S' & st' & -> & Hst' & HS' & Hx).
    exists prefix', S', st'. split_and!; try done. intros x. rewrite Hx. set_solver.
Qed.

(** ** The result, in the order of the requested variables *)

Lemma respond_one {D D'} (f : D → D') (l : Stream Scoped D) :
  respond (λ _ x, [f x]) l = wmap (λ x, (f x.1, x.2)) l.
Proof. unfold respond, wmap. induction l as [|[[] ?] l IH]; [done|]. csimpl in *. by rewrite IH. Qed.

Lemma project_weight prefix vs (S : Stream Scoped (list Value)) :
  NoDup prefix → (∀ p t, (p, t) ∈ S.*1 → length p = length prefix) →
  (∀ x, x ∈ prefix ↔ x ∈ vs) →
  ∀ ρ t, wt (respond (λ _ p, [project prefix vs p]) S) (ρ <$> vs, t) = wt S (ρ <$> prefix, t).
Proof.
  intros Hnd Hlen Hvs ρ t. rewrite respond_one. rewrite <- (project_assignment prefix vs ρ) by (intros x; apply Hvs).
    set (f := λ x : list Value * Scoped, (project prefix vs x.1, x.2)).
    change (project prefix vs (ρ <$> prefix), t) with (f (ρ <$> prefix, t)). apply wt_wmap_inj.
    intros [p t'] Hin [= Heq ->]. f_equal. specialize (Hlen _ _ Hin).
    rewrite <- (project_self prefix p) by done. rewrite <- (project_self prefix (ρ <$> prefix))
      by (done || by rewrite length_fmap).
    unfold project in *. apply list_fmap_ext. intros i x Hx.
    assert (x ∈ vs) as Hxv by (by apply Hvs, (list_elem_of_lookup_2 _ i)).
    apply list_elem_of_lookup in Hxv as [k Hk].
    apply (f_equal (lookup k)) in Heq. rewrite !list_lookup_fmap, Hk in Heq. simpl in Heq. congruence.
Qed.

(** ** The source of a pipeline *)

Lemma conflict_covered b e v :
  binding_wf b → e ≠ v →
  can_extend b (Vec_binds [e]) v = true ∨ can_extend b (Vec_binds [v]) e = true ↔
  covered [e; v] b = true.
Proof.
  intros Hwf Hev.
  pose proof (covered_snoc [e] v b Hwf ltac:(set_solver)) as H1.
  pose proof (covered_snoc [v] e b Hwf ltac:(set_solver)) as H2. simpl in *.
  assert (covered [v; e] b = covered [e; v] b) as H3.
  { apply eq_true_iff_eq. rewrite !covered_iff. set_solver. }
  assert (covered [e] b = true → covered [v] b = true → False) as H4.
  { rewrite !covered_iff. destruct (wf_variables b Hwf) as [[y ->]|(y & z & _ & ->)]; set_solver. }
  rewrite H3 in H2. destruct (covered [e; v] b), (covered [e] b), (covered [v] b),
    (can_extend b (Vec_binds [e]) v), (can_extend b (Vec_binds [v]) e); simpl in *; naive_solver.
Qed.

Lemma all_bindings_forall Q k bs :
  all_bindings Q k bs = true ↔ ∀ i b, bs !! i = Some b → Q (k + i)%nat b = true.
Proof.
  revert k. induction bs as [|b bs IH]; intros k; [done|]. simpl. rewrite andb_true_iff, IH. split.
  - intros [Hb Hbs] [|i] b' Hb'; simplify_eq/=; [by rewrite Nat.add_0_r|].
    rewrite Nat.add_succ_r. by apply Hbs.
  - intros Hall. split.
    + specialize (Hall 0%nat b eq_refl). by rewrite Nat.add_0_r in Hall.
    + intros i b' Hb'. rewrite Nat.add_succ_comm. by apply (Hall (S i)).
Qed.

Definition start_prefix (e v : Var) (conflicts : list Binding) : option (list Var) :=
  match conflicts with
  | [] => Some [e; v]
  | [BConstant c] => Some (if bool_decide (cb_variable c = e) then [e; v] else [v; e])
  | _ => None
  end.

Lemma elem_of_conflicts idx bs e v a conflicts j b :
  (∀ b, b ∈ bs → binding_wf b) → bs !! idx = Some (Binding_attribute e a v) → e ≠ v →
  source_conflicts idx bs = Ret conflicts → bs !! j = Some b → j ≠ idx →
  covered [e; v] b = true → b ∈ conflicts.
Proof.
  intros Hwf Hidx Hev Hc Hj Hne Hcov. unfold source_conflicts in Hc. rewrite Hidx in Hc. simpl in Hc.
  simplify_eq. apply list_elem_of_filter. split.
  - apply conflict_covered; [by eapply Hwf, list_elem_of_lookup_2|done..].
  - apply elem_of_others. by exists j.
Qed.

Lemma conflicts_elem idx bs e v a conflicts b :
  (∀ b, b ∈ bs → binding_wf b) → bs !! idx = Some (Binding_attribute e a v) → e ≠ v →
  source_conflicts idx bs = Ret conflicts → b ∈ conflicts →
  covered [e; v] b = true ∧ ∃ j, j ≠ idx ∧ bs !! j = Some b.
Proof.
  intros Hwf Hidx Hev Hc Hb. unfold source_conflicts in Hc. rewrite Hidx in Hc. simpl in Hc.
  simplify_eq. apply list_elem_of_filter in Hb as [Hcan Hoth]. apply elem_of_others in Hoth as (j & Hj & Hb).
  split; [|by exists j]. apply conflict_covered; [by eapply Hwf, list_elem_of_lookup_2|done..].
Qed.

(** What the conflicts demand of the source. *)
Definition conflicts_hold (conflicts : list Binding) ρ : bool :=
  forallb (λ b, satisfied None ρ b) conflicts.

Lemma start_bindings idx bs e v a conflicts prefix t ρ :
  (∀ b, b ∈ bs → binding_wf b) → bs !! idx = Some (Binding_attribute e a v) → e ≠ v →
  source_conflicts idx bs = Ret conflicts → start_prefix e v conflicts = Some prefix →
  all_bindings (λ j b, implb (bool_decide (j ≠ idx) && covered prefix b) (sees idx t ρ j b)) 0 bs =
  conflicts_hold conflicts ρ.
Proof.
  intros Hwf Hidx Hev Hc Hp.
  assert (∀ b, covered prefix b = covered [e; v] b) as Hcov.
  { intros b. apply eq_true_iff_eq. rewrite !covered_iff. unfold start_prefix in Hp.
    destruct conflicts as [|[] []]; simplify_eq; [done|]. case_bool_decide; simplify_eq; [done|set_solver]. }
  assert (∀ c, c ∈ conflicts → ∀ c' ρ, satisfied c' ρ c = satisfied None ρ c) as Hstatic.
  { intros c Hin c' ρ'. unfold start_prefix in Hp.
    destruct conflicts as [|[] []]; simplify_eq; [set_solver|]. by apply list_elem_of_singleton in Hin as ->. }
  apply eq_true_iff_eq. unfold conflicts_hold. rewrite all_bindings_forall, forallb_forall.
  setoid_rewrite <- list_elem_of_In. split.
  - intros Hall b Hb. destruct (conflicts_elem idx bs e v a conflicts b) as (Hb' & j & Hj & Hl); [done..|].
    specialize (Hall j b Hl). simpl in Hall. rewrite Hcov, Hb', bool_decide_true in Hall by done.
    simpl in Hall. unfold sees in Hall. by rewrite Hstatic in Hall.
  - intros Hall j b Hl. simpl. case_bool_decide as Hj; [|done]. rewrite Hcov.
    destruct (covered [e; v] b) eqn:Hb; [|done]. simpl.
    assert (b ∈ conflicts) as Hin by (by eapply elem_of_conflicts).
    unfold sees. rewrite Hstatic by done. by apply Hall.
Qed.

Lemma tuple_weight (f : Value * Value → list Value) (l : Stream Scoped (Value * Value)) x t :
  Inj (=) (=) f → wt (respond (λ _ ev, [f ev]) l) (f x, t) = wt l (x, t).
Proof.
  intros Hf. rewrite respond_one. set (g := λ y : Value * Value * Scoped, (f y.1, y.2)).
  change (f x, t) with (g (x, t)). apply wt_wmap_inj. intros [y t'] _ [= Heq ->]. f_equal. by apply Hf.
Qed.

Lemma wfilter_true {D} (l : wlist D) : wfilter (λ _, true) l = l.
Proof.
  unfold wfilter. induction l as [|u l IH]; [done|]. rewrite filter_cons, IH. by rewrite decide_True.
Qed.

Lemma retime_filter (f : N → Scoped) (g : Value * Value → bool) (h : Stream N (Value * Value)) :
  retime f (wfilter (λ x, g x.1) h) = wfilter (λ x, g x.1) (retime f h).
Proof.
  unfold retime, wmap, wfilter. induction h as [|u h IH]; [done|].
  rewrite fmap_cons, !filter_cons. simpl. by case_decide; rewrite ?fmap_cons, IH.
Qed.

(** The source, restricted to the pairs that satisfy [g] and as tuples [f]. *)
Lemma source_at idx bs e v a conflicts prefix h (f : Value * Value → list Value) g :
  (∀ b, b ∈ bs → binding_wf b) → bs !! idx = Some (Binding_attribute e a v) → e ≠ v →
  source_conflicts idx bs = Ret conflicts → start_prefix e v conflicts = Some prefix →
  Inj (=) (=) f → (∀ x, length (f x) = 2%nat) → (∀ ρ, f (ρ e, ρ v) = ρ <$> prefix) →
  (∀ ρ, g (ρ e, ρ v) = conflicts_hold conflicts ρ) →
  pipeline_at idx bs (e, v) (retime enter_scope h) prefix
    (respond (λ _ ev, [f ev]) (retime enter_scope (wfilter (λ x, g x.1) h))).
Proof.
  intros Hwf Hidx Hev Hc Hp Hf Hlen Hfρ Hgρ.
  assert (NoDup prefix ∧ length prefix = 2%nat) as [Hnd Hl].
  { assert (NoDup [e; v] ∧ NoDup [v; e]) as [].
    { split; (apply NoDup_cons; split; [by rewrite list_elem_of_singleton|apply NoDup_singleton]). }
    unfold start_prefix in Hp. destruct conflicts as [|[] []]; simplify_eq; [done|].
    by case_bool_decide; simplify_eq. }
  split; [done|..].
  - intros p t (x & _ & ->%list_elem_of_singleton)%elem_of_respond. by rewrite Hlen, Hl.
  - intros ρ t. rewrite <- Hfρ, tuple_weight, retime_filter, wt_wfilter by done. simpl.
    rewrite (start_bindings idx bs e v a conflicts) by done. by rewrite Hgρ.
Qed.

Lemma pipeline_source_spec idx bs e v a conflicts prefix st :
  (∀ b, b ∈ bs → binding_wf b) → bs !! idx = Some (Binding_attribute e a v) → e ≠ v →
  source_conflicts idx bs = Ret conflicts → start_prefix e v conflicts = Some prefix →
  caches_ok st →
  ∃ h S st', pipeline_source updates d idx bs (mkAttributeBinding (e, v) a) st = Ret (prefix, S, st') ∧
    caches_ok st' ∧ (∀ s, accumulate h s ≡ wmap id (accumulate (history a) s)) ∧
    pipeline_at idx bs (e, v) (retime enter_scope h) prefix S.
Proof.
  intros Hwf Hidx Hev Hc Hp Hst.
  assert (attribute_indexed updates d history mirrored a) as Ha
    by (apply (Hwf (Binding_attribute e a v)); by eapply list_elem_of_lookup_2).
  unfold pipeline_source. simpl. edestruct (import_cached_ok updates history (Domain_forward_propose d))
    as (h & proposes & handle & -> & Hps & Hh); [apply Hst|apply Ha|]. cbn [obind].
  rewrite Hc. cbn [obind]. pose proof Hp as Hp'. unfold start_prefix in Hp'.
  destruct conflicts as [|[b|b|b|b] []]; simplify_eq.
  - eexists h, _, _. split; [done|]. split; [by destruct Hst; split|]. split; [done|].
    pose proof (source_at idx bs e v a [] [e; v] h (λ ev, [ev.1; ev.2]) (λ _, true)) as Hs.
    rewrite wfilter_true in Hs. apply Hs; try done. by intros [] [] [= -> ->].
  - destruct (conflicts_elem idx bs e v a [BConstant b] (BConstant b)) as (Hcov & _); [done..|set_solver|].
    apply covered_iff in Hcov. simpl in Hcov. unfold ConstantBinding_variables in Hcov.
    case_bool_decide as Hbe; simplify_eq.
    + unfold direction, Vec_binds. simpl. rewrite N.eqb_refl. rewrite (proj2 (N.eqb_neq v _)) by congruence.
      simpl. eexists h, _, _. split; [done|]. split; [by destruct Hst; split|]. split; [done|].
      set (g := λ ev : Value * Value, bool_decide (ev.1 = cb_value b)).
      apply (source_at idx bs _ v a [BConstant b] _ h (λ ev, [ev.1; ev.2]) g); try done.
      * by intros [] [] [= -> ->].
      * intros ρ. unfold conflicts_hold, g. simpl. by rewrite andb_true_r.
    + assert (cb_variable b = v) as Hbv by set_solver. unfold direction, Vec_binds. simpl.
      rewrite Hbv, N.eqb_refl, (proj2 (N.eqb_neq e v)) by done. simpl.
      eexists h, _, _. split; [done|]. split; [by destruct Hst; split|]. split; [done|].
      set (g := λ ev : Value * Value, bool_decide (ev.2 = cb_value b)).
      apply (source_at idx bs e v a [BConstant b] _ h (λ ev, [ev.2; ev.1]) g); try done.
      * by intros [] [] [= -> ->].
      * intros ρ. unfold conflicts_hold, g. simpl. by rewrite andb_true_r, Hbv.
Qed.

(** ** A whole pipeline *)

(** The checks a query has to pass for the pipeline of one of its attributes:
    the variables can be ordered within the fuel, at most one constant conflicts
    with the source, and every further variable is bound by an attribute or a
    constant, by only one if an attribute that is not mirrored would validate it
    in reverse; all variables are reached, and requested. *)
Definition pipeline_ok (fuel : nat) (q : Hector) (idx : nat) (b : AttributeBinding) : bool :=
  let bs := he_bindings q in
  match plan_order fuel idx bs, source_conflicts idx bs with
  | Ret (Some (variables, _)), Ret conflicts =>
      match start_prefix (ab_variables b).1 (ab_variables b).2 conflicts with
      | Some prefix =>
          plannable idx bs variables prefix && forallb (covered (prefix ++ variables)) bs &&
          bool_decide (he_variables q ⊆ prefix ++ variables) &&
          bool_decide (prefix ++ variables ⊆ he_variables q)
      | None => false
      end
  | _, _ => false
  end.

Lemma finish_spec idx bs ends src prefix vs S st :
  pipeline_at idx bs ends src prefix S → (∀ x, x ∈ prefix ↔ x ∈ vs) →
  (∀ b, b ∈ bs → covered prefix b = true) →
  ∃ out : Stream Scoped (list Value),
    (if bool_decide (vs = prefix) then Ret (Some (S, st))
     else let! projected := respondM (λ _ tuple, let! out := project_closure prefix vs tuple in Ret [out]) S in
          Ret (Some (projected, st))) = Ret (Some (out, st : Caches (T := N))) ∧
    (∀ ρ t, wt out (ρ <$> vs, t) =
       if all_bindings (λ j b, implb (bool_decide (j ≠ idx)) (sees idx t ρ j b)) 0 bs
       then wt src ((ρ ends.1, ρ ends.2), t) else 0) ∧
    (∀ x t, (x, t) ∈ out.*1 → ∃ ρ, x = ρ <$> vs).
Proof.
  intros [Hnd Hlen Hw] Hvs Hcov.
  assert (∀ ρ t, all_bindings (λ j b, implb (bool_decide (j ≠ idx) && covered prefix b)
      (sees idx t ρ j b)) 0 bs =
    all_bindings (λ j b, implb (bool_decide (j ≠ idx)) (sees idx t ρ j b)) 0 bs) as Hall.
  { intros ρ t. apply all_bindings_ext. intros i b Hb.
    by rewrite Hcov, andb_true_r by (by eapply list_elem_of_lookup_2). }
  case_bool_decide as Heq.
  - subst vs. exists S. split; [done|]. split; [intros ρ t; by rewrite Hw, Hall|].
    intros x t Hin. exists (env prefix x).
    rewrite <- (project_self prefix x) at 1 by (done || by eapply Hlen). done.
  - exists (respond (λ _ p, [project prefix vs p]) S). split.
    + rewrite (respondM_pure _ (λ _ p, [project prefix vs p])); [done|].
      intros p t Hin. rewrite project_closure_pure; [done|intros x; apply Hvs|by eapply Hlen].
    + split; [intros ρ t; by rewrite (project_weight prefix vs S Hnd Hlen Hvs), Hw, Hall|].
      intros x t (p & _ & ->%list_elem_of_singleton)%elem_of_respond. by exists (env prefix p).
Qed.

Lemma pipeline_spec fuel q idx e v a st :
  (∀ b, b ∈ he_bindings q → binding_wf b) → he_bindings q !! idx = Some (Binding_attribute e a v) →
  pipeline_ok fuel q idx (mkAttributeBinding (e, v) a) = true → caches_ok st →
  ∃ h out st', pipeline updates fuel d idx q (mkAttributeBinding (e, v) a) st = Ret (Some (out, st')) ∧
    caches_ok st' ∧ (∀ s, accumulate h s ≡ wmap id (accumulate (history a) s)) ∧
    (∀ ρ t, wt out (ρ <$> he_variables q, t) =
       if all_bindings (λ j b, implb (bool_decide (j ≠ idx)) (sees idx t ρ j b)) 0 (he_bindings q)
       then wt (retime enter_scope h) ((ρ e, ρ v), t) else 0) ∧
    (∀ x t, (x, t) ∈ out.*1 → ∃ ρ, x = ρ <$> he_variables q).
Proof.
  intros Hwf Hidx Hok Hst. unfold pipeline, pipeline_ok in *. cbn [ab_variables fst snd] in Hok.
  destruct (plan_order fuel idx (he_bindings q)) as [[[variables order]|]|]; [|done..]. cbn [obind].
  destruct (source_conflicts idx (he_bindings q)) as [conflicts|] eqn:Hc; [|done].
  destruct (start_prefix e v conflicts) as [prefix|] eqn:Hp; [|done].
  apply andb_true_iff in Hok as [[[Hplan Hcov]%andb_true_iff Hsub]%andb_true_iff Hsup].
  apply bool_decide_eq_true in Hsub, Hsup. rewrite forallb_forall in Hcov.
  assert (e ≠ v) as Hev by (apply (Hwf (Binding_attribute e a v)); by eapply list_elem_of_lookup_2).
  destruct (pipeline_source_spec idx (he_bindings q) e v a conflicts prefix st)
    as (h & S & st1 & -> & Hst1 & Hh & HS); [done..|]. cbn [obind source_attribute].
  destruct (extend_variables_spec idx (he_bindings q) (e, v) (retime enter_scope h) a variables prefix S st1)
    as (prefix' & S' & st2 & -> & Hst2 & HS' & Hx); [done..|]. cbn [obind].
  destruct (finish_spec idx (he_bindings q) (e, v) (retime enter_scope h) prefix' (he_variables q) S' st2)
    as (out & Hout & Hw & Hno); [done| | |].
  - intros x. rewrite Hx, <- elem_of_app. split; [apply Hsup|apply Hsub].
  - intros b Hb. apply covered_iff. intros x Hxb. apply Hx, elem_of_app.
    apply list_elem_of_In, Hcov, covered_iff in Hb. by apply Hb.
  - exists h, out, st2. by split_and!.
Qed.
End pipelines.
