(* ===== verification/DeltaTheorems.v ===== *)
(** * Delta joins compute the query

    Summed over the pipelines, the changes at a time telescope: together they
    take the answers of the query from what they were before that time to what
    they are then.  So at every time the output of a delta join accumulates to
    the query's answers. *)
From Stdlib Require Import ZArith NArith Lia.
From stdpp Require Import base strings numbers sets gmap list.
From S2P Require Import Prelude Timestamps Values Bindings HectorPlan Sessions Weighted Streams.
From S2P Require Import Lookups LookupTheorems Dataflow Domains Relations RelationTheorems Extenders ExtenderTheorems.
From S2P Require Import DeltaJoin DeltaExtenders DeltaPipelines.
Local Open Scope Z_scope.

(** ** Times *)

(** What was known before a time. *)
Definition previous (t : N) : option N := if (t =? 0)%N then None else Some (t - 1)%N.

Lemma cutoff_enter is_neu t :
  cutoff is_neu (enter_scope t) = if is_neu : bool then previous t else Some t.
Proof. by destruct is_neu. Qed.

Section times.
Context {D : Type} `{EqDecision D}.
Implicit Types (l : Stream N D) (x : D).

(** A collection changes by the updates of the time. *)
Lemma accumulate_step l t x :
  wt (accumulate l t) x = wrap_i 64 (wt (visible l (previous t)) x + wt l (x, t)).
Proof.
  unfold wt, visible, accumulate, previous.
  rewrite wrap_i64_add_l, Z.add_comm, wrap_i64_add_l, Z.add_comm. f_equal.
  rewrite wsum_wmap, wsum_wfilter. destruct (N.eqb_spec t 0) as [->|Ht].
  - change (wsum (indicator x) []) with 0. rewrite Z.add_0_l. apply wsum_ext. intros [y s] _.
    unfold less_equal, u64_less_equal, indicator. simpl. destruct (N.leb_spec s 0).
    + assert (s = 0%N) as -> by lia. repeat case_decide; naive_solver.
    + rewrite (decide_False (P := (y, s) = (x, 0%N))); [done|]. intros [=]. lia.
  - rewrite wsum_wmap, wsum_wfilter. induction l as [|[[y s] z] l IH]; [done|].
    rewrite !wsum_cons, IH. unfold less_equal, u64_less_equal, indicator. simpl.
    destruct (N.eq_dec s t) as [->|Hne].
    + rewrite (proj2 (N.leb_le t t)), (proj2 (N.leb_gt t (t - 1))) by lia.
      repeat case_decide; simplify_eq/=; lia.
    + rewrite (decide_False (P := (y, s) = (x, t))) by congruence.
      destruct (N.leb_spec s t), (N.leb_spec s (t - 1)); lia.
Qed.

(** A collection is what its steps make of it. *)
Lemma accumulate_by_steps l x (g : option N → Z) t :
  g None = 0 → (∀ s, wrap_i 64 (g (previous s) + wt l (x, s)) = g (Some s)) →
  wt (accumulate l t) x = g (Some t).
Proof.
  intros Hnone Hstep. induction t as [|t IH] using N.peano_ind; rewrite accumulate_step, <- Hstep.
  - change (previous 0) with (@None N). by rewrite Hnone.
  - unfold previous. rewrite (proj2 (N.eqb_neq (N.succ t) 0)) by lia.
    replace (N.succ t - 1)%N with t by lia. simpl. by rewrite IH.
Qed.

(** The updates of a time, for a set. *)
Lemma change_of_set l t x :
  (∀ c, is_set (visible l c)) →
  wt l (x, t) = wt (accumulate l t) x - wt (visible l (previous t)) x.
Proof.
  intros Hset. pose proof (accumulate_step l t x) as Hstep.
  assert (in_i64 (wt (accumulate l t) x - wt (visible l (previous t)) x)) as Hr.
  { destruct (Hset (Some t) x) as [H1|H1], (Hset (previous t) x) as [H2|H2]; simpl in H1;
      rewrite H1, H2; unfold in_i64; lia. }
  rewrite <- (wrap_i64_id _ Hr), Hstep.
  replace (wrap_i 64 (wt (visible l (previous t)) x + wt l (x, t)) - wt (visible l (previous t)) x)
    with (wrap_i 64 (wt (visible l (previous t)) x + wt l (x, t)) + - wt (visible l (previous t)) x) by lia.
  rewrite wrap_i64_add_l. replace (wt (visible l (previous t)) x + wt l (x, t) + - wt (visible l (previous t)) x)
    with (wt l (x, t)) by lia.
  symmetry. apply wrap_i64_id, wt_range.
Qed.

(** A stream whose updates are at times that entered the scope. *)
Lemma leave_spec (l : Stream Scoped D) :
  (∀ x t, (∀ s, t ≠ enter_scope s) → wt l (x, t) = 0) →
  ∃ l', (∀ t r, accumulate (retime AltNeu_to_outer l) (mkProduct t r) ≡ accumulate l' t) ∧
    ∀ x s, wt l' (x, s) = wt l (x, enter_scope s).
Proof.
  intros Hl. set (entered := λ x : D * Scoped, (inner (an_time x.2) =? 0)%N && negb (neu x.2)).
  assert (l ≡ wfilter entered l) as Heq.
  { intros [x t]. rewrite wt_wfilter. destruct (entered (x, t)) eqn:He; [done|]. apply Hl.
    intros s ->. by unfold entered in He. }
  exists (retime (λ t, outer (an_time t)) (wfilter entered l)). split.
  - intros t r. transitivity (accumulate (retime AltNeu_to_outer (wfilter entered l)) (mkProduct t r)).
    { unfold accumulate, retime. apply wmap_proper, wfilter_proper, wmap_proper, Heq. }
    intros x. unfold wt, accumulate, retime. f_equal. rewrite !wsum_wmap, !wsum_wfilter, !wsum_wmap,
      !wsum_wfilter. apply wsum_ext. intros [y [[s n] b]] _. unfold entered. simpl.
    unfold less_equal, Product_less_equal, less_equal, u64_less_equal. simpl.
    destruct (N.eqb_spec n 0) as [->|]; [|done]. simpl. rewrite (proj2 (N.leb_le 0 r)) by lia.
    by rewrite andb_true_r.
  - intros x s. unfold wt, retime. f_equal. rewrite wsum_wmap, wsum_wfilter. apply wsum_ext.
    intros [y [[s' n] b]] _. unfold entered, indicator, enter_scope, AltNeu_to_inner, AltNeu_alt, enter_nested.
    simpl. destruct (N.eqb_spec n 0) as [->|]; destruct b; simpl; repeat case_decide; naive_solver.
Qed.

Lemma enter_weight l x t : wt (retime enter_scope l) (x, enter_scope t) = wt l (x, t).
Proof.
  set (f := λ y : D * N, (y.1, enter_scope y.2)). change (x, enter_scope t) with (f (x, t)).
  apply wt_wmap_inj. by intros [y s] _ [= -> ->].
Qed.

Lemma enter_only l x t : (∀ s, t ≠ enter_scope s) → wt (retime enter_scope l) (x, t) = 0.
Proof. intros Ht. apply wt_wmap_none. intros [y s] _ [= _ <-]. by apply (Ht s). Qed.
End times.

(** ** Telescoping *)
Section telescope.
Context `{EV : ExternValues}.
Implicit Types (b : Binding) (bs : list Binding).

Definition is_attribute b : bool := match b with BAttribute _ => true | _ => false end.

Definition b2z (b : bool) : Z := if b then 1 else 0.

(** The sum over the attribute bindings. *)
Fixpoint attribute_sum (term : nat → Binding → Z) (k : nat) bs : Z :=
  match bs with
  | [] => 0
  | b :: bs => (if is_attribute b then term k b else 0) + attribute_sum term (S k) bs
  end.

(** The share of one binding in the change from [old] to [new]. *)
Definition share (old new : nat → Binding → bool) bs (i : nat) b : Z :=
  if all_bindings (λ j b, implb (bool_decide (j ≠ i)) (if Nat.leb i j then old j b else new j b)) 0 bs
  then b2z (new i b) - b2z (old i b) else 0.

Lemma all_bindings_app Q k bs bs' :
  all_bindings Q k (bs ++ bs') = all_bindings Q k bs && all_bindings Q (k + length bs) bs'.
Proof.
  revert k. induction bs as [|b bs IH]; intros k; simpl; [by rewrite Nat.add_0_r|].
  rewrite IH, andb_assoc. by rewrite Nat.add_succ_comm.
Qed.

Lemma share_split old new bs1 b bs2 :
  share old new (bs1 ++ b :: bs2) (length bs1) b =
  b2z (all_bindings new 0 bs1) * (b2z (new (length bs1) b) - b2z (old (length bs1) b)) *
  b2z (all_bindings old (S (length bs1)) bs2).
Proof.
  unfold share. rewrite all_bindings_app. simpl. rewrite bool_decide_false by (intros Hn; by apply Hn).
  simpl. rewrite (all_bindings_ext _ new 0 bs1), (all_bindings_ext _ old (S (length bs1)) bs2).
  - destruct (all_bindings new 0 bs1), (all_bindings old _ bs2); simpl; lia.
  - intros i b' _. rewrite bool_decide_true by lia. rewrite (proj2 (Nat.leb_le _ _)) by lia. done.
  - intros i b' Hi. apply lookup_lt_Some in Hi. rewrite bool_decide_true by lia.
    rewrite (proj2 (Nat.leb_gt _ _)) by lia. done.
Qed.

Lemma telescope_from old new bs1 bs2 :
  (∀ i b, bs2 !! i = Some b → is_attribute b = false → old (length bs1 + i)%nat b = new (length bs1 + i)%nat b) →
  attribute_sum (share old new (bs1 ++ bs2)) (length bs1) bs2 =
  b2z (all_bindings new 0 bs1) *
  (b2z (all_bindings new (length bs1) bs2) - b2z (all_bindings old (length bs1) bs2)).
Proof.
  revert bs1. induction bs2 as [|b bs2 IH]; intros bs1 Hstatic; [simpl; lia|]. cbn [attribute_sum all_bindings].
  specialize (IH (bs1 ++ [b])). rewrite <- (assoc_L (++)) in IH. cbn [app] in IH.
  rewrite length_app, Nat.add_1_r in IH. rewrite IH; clear IH.
  - rewrite share_split, all_bindings_app. simpl. rewrite andb_true_r.
    destruct (is_attribute b) eqn:Hb.
    + destruct (all_bindings new 0 bs1), (new (length bs1) b), (old (length bs1) b),
        (all_bindings new _ bs2), (all_bindings old _ bs2); done.
    + specialize (Hstatic 0%nat b eq_refl Hb). rewrite Nat.add_0_r in Hstatic. rewrite Hstatic.
      destruct (all_bindings new 0 bs1), (new (length bs1) b),
        (all_bindings new _ bs2), (all_bindings old _ bs2); done.
  - intros i b' Hb'. rewrite Nat.add_succ_comm. by apply (Hstatic (S i)).
Qed.

Lemma telescope old new bs :
  (∀ i b, bs !! i = Some b → is_attribute b = false → old i b = new i b) →
  attribute_sum (share old new bs) 0 bs = b2z (all_bindings new 0 bs) - b2z (all_bindings old 0 bs).
Proof. intros Hs. pose proof (telescope_from old new [] bs Hs) as Ht. simpl in Ht. lia. Qed.
End telescope.

(** ** The join *)
Section join.
Context `{EV : ExternValues, DF : Differential, TR : !Traces N} {Rule : Type}.
Context (updates : ∀ K V, Trace (T := N) K V → Stream N (K * V)) (d : Domain N Rule).
Context (history : Aid → Stream N (Value * Value)).
Context (mirrored : Aid → bool).
Implicit Types (b : Binding) (ρ : Var → Value) (bs : list Binding) (q : Hector).

Abbreviation binding_wf := (binding_wf updates d history mirrored).
Abbreviation pipeline_ok := (pipeline_ok mirrored).
Abbreviation satisfied := (satisfied history).
Abbreviation caches_ok := (caches_ok updates d).

Definition query_ok (fuel : nat) q : bool :=
  existsb is_attribute (he_bindings q) &&
  all_bindings (λ j b, match b with BAttribute b => pipeline_ok fuel q j b | _ => true end) 0
    (he_bindings q).

(** Negated attributes do not change once the others have begun to: from [t0]
    on they are as before it, and before it the others are empty. *)
Definition settled (t0 : N) q : Prop :=
  (∀ b s ρ, b ∈ he_bindings q → is_attribute b = false → (t0 ≤ s)%N →
     satisfied (Some s) ρ b = satisfied (previous t0) ρ b) ∧
  (∀ b s ρ, b ∈ he_bindings q → is_attribute b = true → (s < t0)%N →
     satisfied (Some s) ρ b = false).

Definition answer (c : option N) ρ q : bool := forallb (satisfied c ρ) (he_bindings q).

Lemma forallb_all_bindings (f : Binding → bool) k bs : forallb f bs = all_bindings (λ _, f) k bs.
Proof. revert k. induction bs as [|b bs IH]; intros k; [done|]. simpl. by rewrite <- IH. Qed.

(** The share of a pipeline in the change of the answers at a time. *)
Definition pipeline_share q ρ (t : N) : nat → Binding → Z :=
  share (λ _, satisfied (previous t) ρ) (λ _, satisfied (Some t) ρ) (he_bindings q).

Lemma attribute_change a x t (h : Stream N (Value * Value)) :
  attribute_indexed updates d history mirrored a →
  (∀ s, accumulate h s ≡ wmap id (accumulate (history a) s)) →
  wt h (x, t) = b2z (contents history (Some t) a x.1 x.2) - b2z (contents history (previous t) a x.1 x.2).
Proof.
  intros Ha Hh.
  assert (∀ c y, wt (visible h c) y = wt (visible (history a) c) y) as Hc.
  { intros c y. rewrite (visible_index history h id a c Hh). unfold wmap.
    by rewrite (list_fmap_ext _ id) by (by intros ? []); rewrite list_fmap_id. }
  assert (∀ c, is_set (visible h c)) as Hset.
  { intros c y. rewrite Hc. by apply (visible_set updates d history mirrored). }
  rewrite (change_of_set h t x Hset). change (accumulate h t) with (visible h (Some t)).
  rewrite !Hc. unfold contents. rewrite <- surjective_pairing.
  destruct (visible_set updates d history mirrored a (Some t) Ha x) as [-> | ->],
    (visible_set updates d history mirrored a (previous t) Ha x) as [-> | ->]; done.
Qed.

(** A tuple over variables is an assignment of them, or not. *)
Lemma assigned_dec (vs : list Var) (x : list Value) :
  {ρ | x = ρ <$> vs} + {∀ ρ, x ≠ ρ <$> vs}.
Proof.
  destruct (decide (x = env vs x <$> vs)) as [Heq|Hne]; [left; by eexists|right].
  intros ρ ->. apply Hne. by rewrite <- (project_assignment vs vs ρ) at 1.
Qed.

Lemma pipelines_spec fuel q k bs st :
  (∀ b, b ∈ he_bindings q → binding_wf b) →
  (∀ i b, bs !! i = Some b → he_bindings q !! (k + i)%nat = Some b) →
  all_bindings (λ j b, match b with BAttribute b => pipeline_ok fuel q j b | _ => true end) k bs = true →
  caches_ok st →
  ∃ outs st', pipelines updates fuel d q k bs st = Ret (Some (outs, st')) ∧ caches_ok st' ∧
    (∀ ρ t, sumZ ((λ out, wt out (ρ <$> he_variables q, enter_scope t)) <$> outs) =
       attribute_sum (pipeline_share q ρ t) k bs) ∧
    (∀ x t out, out ∈ outs → (∀ s, t ≠ enter_scope s) → wt out (x, t) = 0) ∧
    (∀ x t out, out ∈ outs → (x, t) ∈ out.*1 → ∃ ρ, x = ρ <$> he_variables q).
Proof.
  intros Hwf. revert k st. induction bs as [|b bs IH]; intros k st Hbs Hok Hst.
  { exists [], st. split_and!; try done; set_solver. }
  cbn [all_bindings] in Hok. apply andb_true_iff in Hok as [Hb Hok].
  assert (∀ i b, bs !! i = Some b → he_bindings q !! (S k + i)%nat = Some b) as Hbs'.
  { intros i b' Hb'. rewrite Nat.add_succ_comm. by apply Hbs. }
  destruct (is_attribute b) eqn:Hattr; cycle 1.
  { destruct (IH (S k) st) as (outs & st' & Hrun & Hrest); [done..|]. exists outs, st'.
    split; [by destruct b|]. split_and!; try apply Hrest.
    intros ρ t. destruct Hrest as (_ & Hsum & _). rewrite Hsum. cbn [attribute_sum]. by rewrite Hattr. }
  destruct b as [[[e v] a]|b|b|b]; try done.
  assert (he_bindings q !! k = Some (Binding_attribute e a v)) as Hidx.
  { specialize (Hbs 0%nat _ eq_refl). by rewrite Nat.add_0_r in Hbs. }
  destruct (pipeline_spec updates d history mirrored fuel q k e v a st) as (h & out & st1 & Hrun & Hst1 & Hh & Hw & Hno);
    [done..|].
  destruct (IH (S k) st1) as (outs & st' & Hrest & Hst' & Hsum & Hent & Hnos); [done..|].
  exists (out :: outs), st'. cbn [pipelines]. rewrite Hrun. cbn [obind]. rewrite Hrest. cbn [obind].
  split; [done|]. split; [done|]. split; [|split].
  - intros ρ t. rewrite fmap_cons, sumZ_cons, Hsum. cbn [attribute_sum is_attribute]. f_equal.
    rewrite Hw, enter_weight. unfold pipeline_share, share.
    rewrite (attribute_change a _ t h) by (done || apply (Hwf (Binding_attribute e a v));
      by eapply list_elem_of_lookup_2).
    erewrite all_bindings_ext; [done|]. intros i b' _. simpl. unfold sees. rewrite cutoff_enter.
    by destruct (Nat.leb k i).
  - intros x t out' [->|Hin]%elem_of_cons Ht; [|by eapply Hent].
    destruct (assigned_dec (he_variables q) x) as [[ρ ->]|Hx];
      [|by apply wt_not_elem; intros [ρ ->]%Hno; apply (Hx ρ)].
    rewrite Hw, enter_only by done. by case_match.
  - intros x t out' [->|Hin]%elem_of_cons Hx; [by eapply Hno|by eapply Hnos].
Qed.

(** The answers at a time are those before it and the shares of the pipelines. *)
Lemma answer_step q ρ t t0 :
  settled t0 q → existsb is_attribute (he_bindings q) = true →
  attribute_sum (pipeline_share q ρ t) 0 (he_bindings q) =
  b2z (answer (Some t) ρ q) - b2z (answer (previous t) ρ q).
Proof.
  intros [Hneg Hpos] Hattr. unfold answer. rewrite !(forallb_all_bindings _ 0).
  destruct (N.lt_ge_cases t t0) as [Ht|Ht].
  - assert (∀ c b, c = Some t ∨ c = previous t → b ∈ he_bindings q → is_attribute b = true →
      satisfied c ρ b = false) as Hfalse.
    { intros c b [->| ->] Hb Hba; [by apply Hpos|]. unfold previous. destruct (N.eqb_spec t 0).
      - by destruct b as [b| | |].
      - apply Hpos; [done..|lia]. }
    assert (∀ c, c = Some t ∨ c = previous t →
      all_bindings (λ _, satisfied c ρ) 0 (he_bindings q) = false) as Hall.
    { intros c Hc. apply not_true_iff_false. rewrite all_bindings_forall. intros Hall.
      apply existsb_exists in Hattr as (b & Hin & Hb). apply list_elem_of_In in Hin.
      pose proof Hin as [j Hj]%list_elem_of_lookup. specialize (Hall j b Hj). simpl in Hall.
      by rewrite (Hfalse c b) in Hall. }
    rewrite !Hall by auto. simpl.
    assert (∀ k bs, (∀ b, b ∈ bs → b ∈ he_bindings q) → attribute_sum (pipeline_share q ρ t) k bs = 0) as Hz;
      [|by apply Hz].
    intros k bs. revert k. induction bs as [|b bs IH]; intros k Hbs; [done|]. cbn [attribute_sum].
    rewrite IH by set_solver. destruct (is_attribute b) eqn:Hb; [|done]. unfold pipeline_share, share.
    rewrite (Hfalse (Some t) b), (Hfalse (previous t) b) by (auto || set_solver). by destruct (all_bindings _ _ _).
  - unfold pipeline_share. rewrite telescope; [done|]. intros i b Hi Hb.
    assert (b ∈ he_bindings q) as Hin by (by eapply list_elem_of_lookup_2).
    rewrite (Hneg b t ρ) by done. unfold previous at 1. destruct (N.eqb_spec t 0) as [->|Hne].
    + assert (t0 = 0%N) as -> by lia. done.
    + destruct (decide (t = t0)) as [->|].
      * unfold previous. by rewrite (proj2 (N.eqb_neq t0 0)).
      * apply Hneg; [done..|lia].
Qed.

(** The stream of the output: its records are tuples over the query's variables,
    and at every time the tuples change with the answers. *)
Lemma delta_join_changes fuel q t0 :
  (∀ b, b ∈ he_bindings q → binding_wf b) → query_ok fuel q = true → settled t0 q →
  ∃ out handle l, delta_join updates fuel d q = Ret (Some (out, handle)) ∧
    (∀ x t, (x, t) ∈ out.*1 → ∃ ρ, x = ρ <$> he_variables q) ∧
    (∀ t r x, wt (accumulate out (mkProduct t r)) x = wt (visible l (Some t)) x) ∧
    ∀ ρ s, wt l (ρ <$> he_variables q, s) =
      wrap_i 64 (b2z (answer (Some s) ρ q) - b2z (answer (previous s) ρ q)).
Proof.
  intros Hwf [Hattr Hok]%andb_true_iff Hset.
  destruct (pipelines_spec fuel q 0 (he_bindings q) no_imports) as
    (outs & st & Hrun & _ & Hsum & Hent & Hno); [done..|by apply no_imports_ok|].
  destruct (leave_spec (concat outs)) as (l & Hl & Hw).
  { intros x t Ht. apply wt_concat_zero. intros out Hin. by apply (Hent x t out). }
  eexists _, _, l. unfold delta_join. rewrite Hrun. cbn [obind]. split; [done|]. split; [|split].
  - intros x t (u & Hu & ([y z] & -> & Hin)%list_elem_of_fmap)%list_elem_of_fmap. simplify_eq/=.
    apply list_elem_of_In, in_concat in Hin as (out & Hin & Hout). apply list_elem_of_In in Hin, Hout.
    apply (Hno y.1 y.2 out); [done|]. rewrite <- surjective_pairing.
    apply (list_elem_of_fmap_2 fst _ _ Hout).
  - intros t r x. apply Hl.
  - intros ρ s. by rewrite Hw, wt_concat_sum, Hsum, (answer_step q ρ s t0).
Qed.

(** Changes add up to the answers. *)
Lemma accumulated_answers q (l : Stream N (list Value)) ρ t :
  existsb is_attribute (he_bindings q) = true →
  (∀ s, wt l (ρ <$> he_variables q, s) =
     wrap_i 64 (b2z (answer (Some s) ρ q) - b2z (answer (previous s) ρ q))) →
  wt (visible l (Some t)) (ρ <$> he_variables q) = if answer (Some t) ρ q then 1 else 0.
Proof.
  intros Hattr Hl. apply (accumulate_by_steps l _ (λ c, if answer c ρ q then 1 else 0)).
  - unfold answer. destruct (forallb (satisfied None ρ) (he_bindings q)) eqn:Hall; [|done].
    rewrite forallb_forall in Hall. apply existsb_exists in Hattr as (b & Hin & Hb).
    apply Hall in Hin. by destruct b as [b| | |].
  - intros s. rewrite Hl, Z.add_comm, wrap_i64_add_l.
    by destruct (answer (Some s) ρ q), (answer (previous s) ρ q).
Qed.

(** C2 (delta joins compute the query at every time).  Take a query whose
    bindings are over distinct variables and whose attributes are sets, in the six
    indices the code installs, that passes the checks of every pipeline, and whose
    negated attributes have settled before the others begin to change.  One of the
    checks is that an attribute that validates, from its value to its entity, what
    another binding has proposed holds each pair with its mirror image, since the
    code's index to validate in reverse does not swap the pairs.  Its delta join is
    built without a panic, and at every time, in every round, the accumulated
    output holds exactly the tuples of values that satisfy all bindings at that
    time, each once. *)
Theorem delta_join_spec fuel q t0 :
  (∀ b, b ∈ he_bindings q → binding_wf b) → query_ok fuel q = true → settled t0 q →
  ∃ out handle, delta_join updates fuel d q = Ret (Some (out, handle)) ∧ ∀ t r,
    (∀ ρ, wt (accumulate out (mkProduct t r)) (ρ <$> he_variables q) =
       if answer (Some t) ρ q then 1 else 0) ∧
    (∀ x, (∀ ρ, x ≠ ρ <$> he_variables q) → wt (accumulate out (mkProduct t r)) x = 0).
Proof.
  intros Hwf Hok Hset.
  destruct (delta_join_changes fuel q t0 Hwf Hok Hset) as (out & handle & l & Hrun & Hin & Hl & Hch).
  exists out, handle. split; [done|]. intros t r. split.
  - intros ρ. rewrite Hl. apply andb_true_iff in Hok as [Hattr _]. by apply accumulated_answers.
  - intros x Hx. apply wt_not_elem. intros (s & Hs)%accumulate_elem. apply Hin in Hs as [ρ ->].
    by apply (Hx ρ).
Qed.
End join.
