(* ===== verification/Plans.v ===== *)
(** * Query plans (src/src/plan/mod.rs, the dispatch of src/src/plan/hector.rs)

    The [Plan] type, its variables and dependencies, its translation to bindings,
    and its implementation as the composition of the stages' implementations.
    The local arrangements are the collections of the rules in scope.  Hector's
    delta pipelines, for two or more bindings, are an argument of the
    implementation ([delta_join]; [DeltaJoin] models them). *)
From Stdlib Require Import ZArith NArith Lia.
From stdpp Require Import base strings numbers sets gmap list.
From S2P Require Import Prelude Timestamps Values Bindings HectorPlan Sessions Weighted.
From S2P Require Import Dataflow Domains Relations PlanOps Aggregates Pulls.

(** ** [gensym]: the counter is a [usize], a variable a [u32] *)
Definition SYM : N := (2 ^ 64 - 1)%N.
Definition gensym (sym : N) : Var * N := ((sym mod 2 ^ 32)%N, ((sym + (2 ^ 64 - 1)) mod 2 ^ 64)%N).

(** ** [Dependencies] *)
Record Dependencies := mkDependencies { names : gset Aid; dep_attributes : gset Aid }.

Definition Dependencies_none : Dependencies := mkDependencies ∅ ∅.
Definition Dependencies_name (name : Aid) : Dependencies := mkDependencies {[name]} ∅.
Definition Dependencies_attribute (aid : Aid) : Dependencies := mkDependencies ∅ {[aid]}.
Definition Dependencies_add (self other : Dependencies) : Dependencies :=
  mkDependencies (names self ∪ names other) (dep_attributes self ∪ dep_attributes other).
Definition Dependencies_sum (l : list Dependencies) : Dependencies :=
  foldl Dependencies_add Dependencies_none l.

(** A GraphQL query, with the paths it was translated to (plan/graphql.rs). *)
Record GraphQl (P : Type) := mkGraphQl { gq_query : string; gq_paths : list P }.
Arguments mkGraphQl {P} gq_query gq_paths.
Arguments gq_query {P} _.
Arguments gq_paths {P} _.

Section plans.
Context `{EV : ExternValues}.

Inductive Plan : Type :=
| PProject (p : Project Plan)
| PAggregate (p : Aggregate Plan)
| PUnion (p : Union Plan)
| PJoin (p : Join Plan)
| PHector (p : Hector)
| PAntijoin (p : Antijoin Plan)
| PNegate (p : Plan)
| PFilter (p : Filter Plan)
| PTransform (p : Transform Plan)
| PMatchA (e : Var) (a : Aid) (v : Var)
| PMatchEA (match_e : Eid) (a : Aid) (v : Var)
| PMatchAV (e : Var) (a : Aid) (match_v : Value)
| PNameExpr (variables : list Var) (name : Aid)
| PPull (p : Pull Plan)
| PPullLevel (p : PullLevel Plan)
| PPullAll (p : PullAll)
| PGraphQl (p : GraphQl Plan).

Definition Plan_match_a (e : Var) (a : Aid) (v : Var) : Plan := PMatchA e a v.
Definition Plan_match_ea (e : Eid) (a : Aid) (v : Var) : Plan := PMatchEA e a v.
Definition Plan_match_av (e : Var) (a : Aid) (v : Value) : Plan := PMatchAV e a v.

Fixpoint Plan_variables (self : Plan) : outcome (list Var) :=
  match self with
  | PProject p => Ret (pj_variables p)
  | PAggregate p => Ret (ag_variables p)
  | PUnion p => Ret (un_variables p)
  | PJoin p => Ret (jn_variables p)
  | PHector p => Ret (he_variables p)
  | PAntijoin p => Ret (aj_variables p)
  | PNegate p => Plan_variables p
  | PFilter p => Ret (fi_variables p)
  | PTransform p => Ret (tr_variables p)
  | PMatchA e _ v => Ret [e; v]
  | PMatchEA _ _ v => Ret [v]
  | PMatchAV e _ _ => Ret [e]
  | PNameExpr variables _ => Ret variables
  | PPull p => Ret (pu_variables p)
  | PPullLevel p => Ret (pl_variables p)
  | PPullAll p => Ret (pa_variables p)
  | PGraphQl _ => Panic "not yet implemented"
  end.

(** ** [dependencies] *)

Definition Hector_dependencies (self : Hector) : Dependencies :=
  mkDependencies ∅ (list_to_set (omap (λ binding,
    match binding with BAttribute b => Some (source_attribute b) | _ => None end)
    (he_bindings self))).

Fixpoint Plan_dependencies (self : Plan) : Dependencies :=
  match self with
  | PProject p => Plan_dependencies (pj_plan p)
  | PAggregate p => Plan_dependencies (ag_plan p)
  | PUnion p => Dependencies_sum (Plan_dependencies <$> un_plans p)
  | PJoin p => Dependencies_add (Plan_dependencies (jn_left_plan p))
                 (Plan_dependencies (jn_right_plan p))
  | PHector p => Hector_dependencies p
  | PAntijoin p => Dependencies_add (Plan_dependencies (aj_left_plan p))
                     (Plan_dependencies (aj_right_plan p))
  | PNegate p => Plan_dependencies p
  | PFilter p => Plan_dependencies (fi_plan p)
  | PTransform p => Plan_dependencies (tr_plan p)
  | PMatchA _ a _ | PMatchEA _ a _ | PMatchAV _ a _ => Dependencies_attribute a
  | PNameExpr _ name => Dependencies_name name
  | PPull p => Dependencies_sum (Plan_dependencies <$> pu_paths p)
  | PPullLevel p => Dependencies_add (Plan_dependencies (pl_plan p))
                      (Dependencies_sum (Dependencies_attribute <$> pl_pull_attributes p))
  | PPullAll p => Dependencies_sum (Dependencies_attribute <$> pa_pull_attributes p)
  | PGraphQl p => Dependencies_sum (Plan_dependencies <$> gq_paths p)
  end.

(** ** [into_bindings], threading the symbol counter *)

Definition not_via_hector {A} : outcome A := Panic "This plan can't be implemented via Hector.".

Fixpoint Plan_into_bindings (self : Plan) (sym : N) : outcome (list Binding * N) :=
  match self with
  | PProject p => Plan_into_bindings (pj_plan p) sym
  | PAggregate p => Plan_into_bindings (ag_plan p) sym
  | PUnion p =>
      (fix flat_map (plans : list Plan) (sym : N) : outcome (list Binding * N) :=
         match plans with
         | [] => Ret ([], sym)
         | plan :: rest =>
             let! '(bindings, sym) := Plan_into_bindings plan sym in
             let! '(others, sym) := flat_map rest sym in
             Ret (bindings ++ others, sym)
         end) (un_plans p) sym
  | PJoin p =>
      let! '(left_bindings, sym) := Plan_into_bindings (jn_left_plan p) sym in
      let! '(right_bindings, sym) := Plan_into_bindings (jn_right_plan p) sym in
      Ret (left_bindings ++ right_bindings, sym)
  | PHector p => Ret (he_bindings p, sym)
  | PAntijoin _ => Panic "not yet implemented"
  | PNegate p => Plan_into_bindings p sym
  | PFilter _ => Panic "not yet implemented"
  | PTransform p => Plan_into_bindings (tr_plan p) sym
  | PMatchA e a v => Ret ([Binding_attribute e a v], sym)
  | PMatchEA match_e a v =>
      let '(e, sym) := gensym sym in
      Ret ([Binding_attribute e a v; Binding_constant e (VEid match_e)], sym)
  | PMatchAV e a match_v =>
      let '(v, sym) := gensym sym in
      Ret ([Binding_attribute e a v; Binding_constant v match_v], sym)
  | PNameExpr _ _ => Panic "not yet implemented"
  | PPull _ | PPullLevel _ | PPullAll _ | PGraphQl _ => not_via_hector
  end.

(** [q]. *)
Definition q (target_variables : list Var) (bindings : list Binding) : Plan :=
  PHector (mkHector target_variables bindings).
End plans.

(** ** [implement] *)
Section implement.
Context `{EV : ExternValues, DF : Differential}.
Context {T : Type} `{TR : !Traces T} {Rule : Type}.

Abbreviation Handle := (ShutdownHandle (Button (T := T))) (only parsing).
Abbreviation Implementation := (outcome (Implemented * Handle)) (only parsing).
Abbreviation VariableMap := (gmap Aid (Collection (list Value) Z)) (only parsing).

(** [IndexNode] for a pair of values. *)
Definition index_pair (tuple : Value * Value) (index : nat) : outcome Value :=
  let! _ := assert_that "assertion failed: index <= 1" (Nat.leb index 1) in
  Ret (if Nat.eqb index 0 then tuple.1 else tuple.2).

(** The closure mapping a pair to its values at the target variables. *)
Definition single_binding_tuple (prefix target_variables : list Var) (tuple : Value * Value)
    : outcome (list Value) :=
  mapM_outcome (λ x,
    let! offset := expect "called `Option::unwrap()` on a `None` value" (Vec_binds prefix x) in
    index_pair tuple offset) target_variables.

Definition Hector_implement_single_binding (d : Domain T Rule) (self : Hector) : Implementation :=
  match he_bindings self with
  | BAttribute binding :: _ =>
      let! forward_trace := expect ("Unknown attribute " +:+ source_attribute binding)
                              (Domain_forward_propose d (source_attribute binding)) in
      let '(forward, shutdown_forward) :=
        import_frontier forward_trace ("Propose(" +:+ source_attribute binding +:+ ")") in
      let prefix := AttributeBinding_variables binding in
      let tuples := c_map (single_binding_tuple prefix (he_variables self)) forward in
      Ret (ICollection (mkCollectionRelation (he_variables self) tuples),
           ShutdownHandle_from_button shutdown_forward)
  | _ :: _ => Panic "Passed a single, non-sourceable binding."
  | [] => Panic "called `Option::unwrap()` on a `None` value"
  end.

Definition Hector_implement (delta_join : Hector → Implementation) (d : Domain T Rule)
    (self : Hector) : Implementation :=
  if bool_decide (he_bindings self = []) then Panic "No bindings passed."
  else if bool_decide (he_variables self = []) then Panic "No variables requested."
  else if Nat.eqb (length (he_bindings self)) 1 then Hector_implement_single_binding d self
  else delta_join self.

Definition Negate_implement (implement : Plan → Implementation) (d : Domain T Rule)
    (plan : Plan) : Implementation :=
  let! '(relation, shutdown_handle) := implement plan in
  let variables := Implemented_variables relation in
  let! '(projected, shutdown) := Implemented_projected relation d variables in
  let shutdown_handle := ShutdownHandle_merge_with shutdown_handle shutdown in
  Ret (ICollection (mkCollectionRelation variables (c_negate projected)), shutdown_handle).

(** The forward index of a pattern's attribute, filtered and mapped. *)
Definition match_pattern (d : Domain T Rule) (a : Aid) (sym1 : Var)
    (matches : Value * Value → bool) (value : Value * Value → Value) : Implementation :=
  match Domain_forward_propose d a with
  | None => Panic ("attribute " +:+ a +:+ " does not exist")
  | Some propose_trace =>
      let '(propose, shutdown_propose) :=
        import_frontier propose_trace ("Propose(" +:+ a +:+ ")") in
      let tuples := c_map (λ ev, Ret [value ev]) (c_filter (λ ev, Ret (matches ev)) propose) in
      Ret (ICollection (mkCollectionRelation [sym1] tuples),
           ShutdownHandle_from_button shutdown_propose)
  end.

(** The levels of a query, as the paths of one pull expression. *)
Definition GraphQl_implement (implement : Plan → Implementation) (d : Domain T Rule)
    (self : GraphQl Plan) : Implementation :=
  Pull_implement implement d (mkPull [] (gq_paths self)).

Fixpoint Plan_implement (delta_join : Hector → Implementation) (d : Domain T Rule)
    (local_arrangements : VariableMap) (self : Plan) : Implementation :=
  let implement := Plan_implement delta_join d local_arrangements in
  match self with
  | PProject p => Project_implement implement d p
  | PAggregate p => Aggregate_implement implement d p
  | PUnion p => Union_implement implement d p
  | PJoin p => Join_implement implement d p
  | PHector p => Hector_implement delta_join d p
  | PAntijoin p => Antijoin_implement implement d p
  | PNegate p => Negate_implement implement d p
  | PFilter p => Filter_implement implement d p
  | PTransform p => Transform_implement implement d p
  | PMatchA e a v => Ret (IAttribute (mkAttributeBinding (e, v) a), ShutdownHandle_empty)
  | PMatchEA match_e a sym1 =>
      match_pattern d a sym1 (λ ev, bool_decide (ev.1 = VEid match_e)) snd
  | PMatchAV sym1 a match_v => match_pattern d a sym1 (λ ev, bool_decide (ev.2 = match_v)) fst
  | PNameExpr syms name =>
      match local_arrangements !! name with
      | None => Panic (name +:+ " not in relation map")
      | Some named => Ret (ICollection (mkCollectionRelation syms named), ShutdownHandle_empty)
      end
  | PPull p => Pull_implement implement d p
  | PPullLevel p => PullLevel_implement implement d p
  | PPullAll p => PullAll_implement d p
  | PGraphQl p => GraphQl_implement implement d p
  end.
End implement.
