(* ===== verification/Assignments.v ===== *)
(** * Relations as weighted sets of assignments

    A tuple of a relation assigns values to the relation's variables.  Seen as
    finite maps, the tuples of a well-formed relation no longer depend on the
    order of its variables; projection, selection and extension of tuples become
    operations on maps. *)
From Stdlib Require Import ZArith NArith Lia.
From stdpp Require Import base strings numbers sets gmap fin_maps list.
From S2P Require Import Prelude Timestamps Values Bindings Sessions Weighted Dataflow Domains.
From S2P Require Import Relations RelationTheorems.

Abbreviation Assignment := (gmap Var Value).

Section assignments.
Context `{EV : ExternValues}.
Implicit Types (vs ks : list Var) (t : list Value) (l : wlist (list Value)).

Implicit Types m : Assignment.

Definition assign vs t : Assignment := list_to_map (zip vs t).
Definition value_of m (x : Var) : Value := default (VEid 0) (m !! x).
Definition restrict ks m : Assignment := filter (λ p, p.1 ∈ ks) m.

Lemma lookup_assign vs σ x :
  assign vs (σ <$> vs) !! x = if decide (x ∈ vs) then Some (σ x) else None.
Proof.
  induction vs as [|y vs IH]; [done|]. rewrite fmap_cons.
  change (assign (y :: vs) (σ y :: (σ <$> vs))) with (<[y := σ y]> (assign vs (σ <$> vs))).
  destruct (decide (x = y)) as [->|Hne].
  - rewrite lookup_insert_eq. by rewrite decide_True by set_solver.
  - rewrite lookup_insert_ne by done. rewrite IH.
    repeat case_decide; set_solver.
Qed.

Lemma lookup_restrict ks m x : restrict ks m !! x = if decide (x ∈ ks) then m !! x else None.
Proof.
  unfold restrict. case_decide as Hx.
  - rewrite map_lookup_filter. destruct (m !! x); simpl; [|done]. by rewrite option_guard_True.
  - apply map_lookup_filter_None. right. naive_solver.
Qed.

Lemma value_of_restrict ks m x : x ∈ ks → value_of (restrict ks m) x = value_of m x.
Proof. intros Hx. unfold value_of. by rewrite lookup_restrict, decide_True. Qed.

(** A tuple is the list of its values. *)
Lemma tuple_values vs t : NoDup vs → length t = length vs → t = env vs t <$> vs.
Proof. intros Hnd Hlen. symmetry. by apply project_self. Qed.

Lemma env_value_of vs t x :
  NoDup vs → length t = length vs → value_of (assign vs t) x = env vs t x.
Proof.
  intros Hnd Hlen. rewrite (tuple_values vs t) at 1 by done. unfold value_of.
  rewrite lookup_assign. case_decide as Hx; [done|]. simpl. unfold env.
  apply Vec_binds_None in Hx. by rewrite Hx.
Qed.

Lemma assign_project vs ks t :
  NoDup vs → ks ⊆ vs → length t = length vs →
  assign ks (project vs ks t) = restrict ks (assign vs t).
Proof.
  intros Hnd Hks Hlen. apply map_eq. intros x. rewrite lookup_restrict.
  unfold project. rewrite lookup_assign. case_decide as Hx; [|done].
  rewrite (tuple_values vs t) at 2 by done. rewrite lookup_assign, decide_True by auto. done.
Qed.

Lemma assign_snoc vs t x v :
  NoDup vs → x ∉ vs → length t = length vs →
  assign (vs ++ [x]) (t ++ [v]) = <[x := v]> (assign vs t).
Proof.
  intros Hnd Hx Hlen. unfold assign. rewrite zip_with_app by done. simpl.
  rewrite list_to_map_snoc; [done|]. rewrite fst_zip by lia. done.
Qed.

(** Putting a variable between others. *)
Lemma assign_insert ks t x v i :
  NoDup ks → x ∉ ks → length t = length ks →
  assign (take i ks ++ x :: drop i ks) (take i t ++ v :: drop i t) = <[x := v]> (assign ks t).
Proof.
  intros Hnd Hx Hlen. unfold assign. rewrite zip_with_app by (by rewrite !length_take, Hlen).
  transitivity (list_to_map (M := gmap Var Value) ((x, v) :: zip ks t)); [|done].
  rewrite <- (take_drop i ks) in Hnd, Hx. apply not_elem_of_app in Hx as [Hx1 Hx2].
  apply list_to_map_proper.
  - rewrite <- zip_with_app by (by rewrite !length_take, Hlen).
    rewrite fst_zip by (rewrite !length_app, !length_cons, !length_take, !length_drop; lia).
    rewrite <- Permutation_middle. apply NoDup_cons. split; [by apply not_elem_of_app|done].
  - simpl. rewrite <- Permutation_middle. apply Permutation_skip.
    rewrite <- zip_with_app by (by rewrite !length_take, Hlen). by rewrite !take_drop.
Qed.

Lemma dom_assign vs t : length t = length vs → dom (assign vs t) = list_to_set vs.
Proof. intros Hlen. unfold assign. rewrite dom_list_to_map_L, fst_zip by lia. done. Qed.

(** An assignment of all the variables is a tuple's. *)
Lemma assign_values vs m :
  dom m = list_to_set (C := gset Var) vs → assign vs (value_of m <$> vs) = m.
Proof.
  intros Hdom. apply map_eq. intros x. rewrite lookup_assign.
  assert (x ∈ vs ↔ is_Some (m !! x)) as Hx by (rewrite <- elem_of_dom, Hdom; set_solver).
  unfold value_of. case_decide as Hin.
  - apply Hx in Hin as [v ->]. done.
  - symmetry. apply eq_None_not_Some. tauto.
Qed.

Lemma assign_inj vs t t' :
  NoDup vs → length t = length vs → length t' = length vs → assign vs t = assign vs t' → t = t'.
Proof.
  intros Hnd Hlen Hlen' Heq. rewrite (tuple_values vs t), (tuple_values vs t') by done.
  apply list_fmap_ext. intros i x _. rewrite <- !env_value_of by done. by rewrite Heq.
Qed.

(** The weight of an assignment in a list of tuples. *)
Lemma wt_assign vs l m :
  NoDup vs → (∀ t, t ∈ l.*1 → length t = length vs) →
  wt (wmap (assign vs) l) m =
  if decide (dom m = list_to_set (C := gset Var) vs) then wt l (value_of m <$> vs) else 0%Z.
Proof.
  intros Hnd Hlen. case_decide as Hdom.
  - rewrite <- (assign_values vs m Hdom) at 1. apply wt_wmap_inj. intros t Ht.
    apply assign_inj; [done|by apply Hlen|by rewrite length_fmap].
  - apply wt_wmap_none. intros t Ht Heq. apply Hdom. rewrite <- Heq. by apply dom_assign, Hlen.
Qed.

Lemma wmap_ext {D D'} (f g : D → D') (l : wlist D) :
  (∀ x, x ∈ l.*1 → f x = g x) → wmap f l = wmap g l.
Proof.
  intros Hfg. unfold wmap. apply list_fmap_ext. intros i p Hp. f_equal. apply Hfg.
  apply list_elem_of_fmap. exists p. split; [done|]. by eapply list_elem_of_lookup_2.
Qed.

Lemma wmap_compose {A B C} (f : A → B) (g : B → C) (l : wlist A) :
  wmap g (wmap f l) = wmap (λ x, g (f x)) l.
Proof. unfold wmap. by rewrite <- list_fmap_compose. Qed.

Lemma wmap_concat {A B} (f : A → B) (ls : list (wlist A)) :
  wmap f (concat ls) = concat (wmap f <$> ls).
Proof.
  unfold wmap. induction ls as [|l ls IH]; [done|]. csimpl. by rewrite fmap_app, IH.
Qed.

Lemma wmap_wfilter {D D'} (f : D → D') (g : D → bool) (h : D' → bool) (l : wlist D) :
  (∀ x, x ∈ l.*1 → g x = h (f x)) → wmap f (wfilter g l) = wfilter h (wmap f l).
Proof.
  unfold wmap, wfilter. induction l as [|p l IH]; intros Hgh; [done|].
  rewrite filter_cons. csimpl. rewrite filter_cons. simpl.
  rewrite (Hgh p.1) by (csimpl; set_solver).
  destruct (h (f p.1)); rewrite ?decide_True, ?decide_False by done; csimpl; rewrite IH; try done;
    intros; apply Hgh; csimpl; set_solver.
Qed.

Lemma wmap_wneg {D D'} (f : D → D') (l : wlist D) : wmap f (wneg l) = wneg (wmap f l).
Proof. unfold wmap, wneg. by rewrite <- !list_fmap_compose. Qed.

Lemma wt_distinct_list {D} `{EqDecision D} (l : wlist D) x :
  wt (distinct_list l) x = if decide (0 < wt l x)%Z then 1%Z else 0%Z.
Proof.
  unfold distinct_list. rewrite wt_indicator_NoDup by apply NoDup_filter, NoDup_remove_dups.
  rewrite (decide_ext _ (0 < wt l x)%Z); [done|].
  rewrite list_elem_of_filter, elem_of_remove_dups. split; [tauto|].
  intros Hx. split; [done|]. apply wt_elem. lia.
Qed.

(** The join of two weighted sets on the variables [ks]. *)
Definition join_on ks (l r : wlist Assignment) : wlist Assignment :=
  wjoin (λ _ m1 m2, [m1 ∪ m2]) (wmap (λ m, (restrict ks m, m)) l) (wmap (λ m, (restrict ks m, m)) r).

#[export] Instance join_on_proper ks : Proper ((≡) ==> (≡) ==> (≡)) (join_on ks).
Proof. intros l l' Hl r r' Hr. unfold join_on. apply wjoin_proper; by apply wmap_proper. Qed.

Lemma wt_assign_restrict vs l m :
  NoDup vs → (∀ t, t ∈ l.*1 → length t = length vs) → list_to_set vs ⊆ dom m →
  wt (wmap (assign vs) l) (restrict vs m) = wt l (value_of m <$> vs).
Proof.
  intros Hnd Hlen Hdom. rewrite wt_assign by done. rewrite decide_True.
  - f_equal. apply list_fmap_ext. intros i x Hx. apply value_of_restrict.
    by eapply list_elem_of_lookup_2.
  - apply set_eq. intros x. rewrite elem_of_dom, lookup_restrict, elem_of_list_to_set.
    case_decide as Hx; [|by split; [intros [? [=]]|]].
    rewrite <- elem_of_dom. set_solver.
Qed.

Lemma lookup_union_bound (m1 m2 : Assignment) x :
  (m1 ∪ m2) !! x = match m1 !! x with Some v => Some v | None => m2 !! x end.
Proof.
  destruct (m1 !! x) eqn:E; [by apply lookup_union_Some_l|by apply lookup_union_r].
Qed.

(** Its weights: an assignment of the variables of both sides gets the product
    of the weights of its two parts. *)
Lemma wt_join_on ks vsl vsr (l r : wlist Assignment) m :
  (∀ x, x ∈ ks ↔ x ∈ vsl ∧ x ∈ vsr) →
  (∀ a, a ∈ l.*1 → dom a = list_to_set (C := gset Var) vsl) →
  (∀ a, a ∈ r.*1 → dom a = list_to_set (C := gset Var) vsr) →
  wt (join_on ks l r) m =
  if decide (dom m = list_to_set (C := gset Var) (vsl ++ vsr))
  then wrap_i 64 (wt l (restrict vsl m) * wt r (restrict vsr m)) else 0%Z.
Proof.
  intros Hks Hl Hr. unfold join_on.
  assert (∀ (vs : list Var) (a : Assignment) x, dom a = list_to_set (C := gset Var) vs → x ∉ vs → a !! x = None) as Hnone.
  { intros vs a x Hdom Hx. apply not_elem_of_dom. rewrite Hdom. set_solver. }
  case_decide as Hdom.
  - assert (m = restrict vsl m ∪ restrict vsr m) as Hm.
    { apply map_eq. intros x. rewrite lookup_union_bound, !lookup_restrict.
      destruct (decide (x ∈ vsl)), (decide (x ∈ vsr)); try by destruct (m !! x).
      apply (Hnone (vsl ++ vsr)); [done|set_solver]. }
    rewrite Hm at 1.
    rewrite (wt_wjoin_inj (λ _ m1 m2 : Assignment, m1 ∪ m2) _ _ (restrict ks m) (restrict vsl m) (restrict vsr m)).
    + assert (∀ vs (w : wlist Assignment), ks ⊆ vs →
        wt (wmap (λ a, (restrict ks a, a)) w) (restrict ks m, restrict vs m) = wt w (restrict vs m)) as Hside.
      { intros vs w Hsub.
        assert ((restrict ks m, restrict vs m) = (λ a : Assignment, (restrict ks a, a)) (restrict vs m)) as ->.
        { simpl. f_equal. apply map_eq. intros x. rewrite !lookup_restrict.
          repeat case_decide; try done. exfalso. auto. }
        apply (wt_wmap_inj (λ a : Assignment, (restrict ks a, a)) w (restrict vs m)). by intros a _ [= _ ->]. }
      rewrite !Hside; [done|intros x; rewrite Hks; tauto..].
    + intros k' a' b' (a & [= -> ->] & Ha)%elem_of_wmap (b & [= Hab ->] & Hb)%elem_of_wmap Heq.
      rewrite <- Hm in Heq.
      assert (∀ x, (a ∪ b) !! x = m !! x) as Hx by (intros; by rewrite Heq).
      setoid_rewrite lookup_union_bound in Hx.
      assert (∀ x, x ∈ ks → a !! x = b !! x) as Hagree.
      { intros x Hk. apply (f_equal (.!! x)) in Hab.
        rewrite !lookup_restrict, !decide_True in Hab by done. done. }
      apply Hl in Ha. apply Hr in Hb.
      assert (∀ x, x ∈ vsl → is_Some (a !! x)) as Hal by (intros x ?; apply elem_of_dom; rewrite Ha; set_solver).
      assert (a = restrict vsl m) as Hal'.
      { apply map_eq. intros x. rewrite lookup_restrict, <- Hx. case_decide as Hxl.
        - by destruct (Hal x Hxl) as [v ->].
        - by apply (Hnone vsl). }
      split_and!; [|exact Hal'|].
      * apply map_eq. intros x. rewrite !lookup_restrict. case_decide as Hk; [|done].
        rewrite <- Hx. apply Hks in Hk as [Hkl _]. by destruct (Hal x Hkl) as [v ->].
      * apply map_eq. intros x. rewrite lookup_restrict, <- Hx. case_decide as Hxr.
        -- destruct (a !! x) as [v|] eqn:Hax; [|done]. rewrite <- Hagree; [done|].
           apply Hks. split; [|done]. destruct (decide (x ∈ vsl)) as [|Hn]; [done|].
           by rewrite (Hnone vsl a x Ha Hn) in Hax.
        -- by apply (Hnone vsr).
  - apply wt_not_elem. intros (k & a & b & Ha & Hb & ->%list_elem_of_singleton)%wjoin_records.
    apply elem_of_wmap in Ha as (a' & [= _ ->] & Ha), Hb as (b' & [= _ ->] & Hb).
    apply Hdom. rewrite dom_union_L, (Hl _ Ha), (Hr _ Hb), list_to_set_app_L. done.
Qed.
End assignments.
