(* ===== verification/PlanReference.v ===== *)
(** * The reference semantics of plans

    [reference] evaluates a plan directly on weighted sets of assignments: no
    indexes, no arrangements, no variable order.  Pull expressions, which describe
    no assignments, and aggregations by more than one function are not part of it.
    [plan_ok] says which plans are well-formed.  Transformations panic on values of
    the wrong type: [may] bounds the values a variable can have in the records of a
    plan's relation, those that cancel included. *)
From Stdlib Require Import ZArith NArith Lia.
From stdpp Require Import base strings numbers sets gmap fin_maps list.
From S2P Require Import Prelude Timestamps Values Bindings HectorPlan Sessions Weighted.
From S2P Require Import Dataflow Domains Relations RelationTheorems Queries PlanOps JoinTheorems.
From S2P Require Import StageTheorems FilterTransform Aggregates Pulls Plans Assignments.

Section reference.
Context `{EV : ExternValues}.
Context (contents : Aid → wlist (Value * Value)) (named : Aid → wlist (list Value)).

Definition pattern (e v : Var) (ev : Value * Value) : Assignment := assign [e; v] [ev.1; ev.2].

(** A query: the pairs of its only attribute, or the table of its answers. *)
Definition hector_reference (q : Hector) : wlist Assignment :=
  match he_bindings q with
  | [b] =>
      match b with
      | BAttribute b =>
          wmap (restrict (he_variables q))
            (wmap (pattern (ab_variables b).1 (ab_variables b).2) (contents (source_attribute b)))
      | _ => []
      end
  | _ => wmap (assign (he_variables q)) (query_table contents q)
  end.

(** A transformation adds a variable. *)
Definition transformed {P} (p : Transform P) (m : Assignment) : Assignment :=
  <[tr_result_variable p := default (VEid 0) (transform_value p (value_of m))]> m.

(** An aggregation groups the values of a variable by the others.  What the stage
    prepares for the [with] variables is the value again: no other variable is left. *)
Definition split_values (a : Var) (ks : list Var) (w : nat) (m : Assignment) : Assignment * list Value :=
  (restrict ks m, value_of m a :: take w [value_of m a]).

Definition joined_value (a : Var) (kv : Assignment * list Value) : Assignment :=
  <[a := default (VEid 0) (head kv.2)]> kv.1.

Definition aggregated (fn : AggregationFn) (a : Var) (ks : list Var) (w : nat) (l : wlist Assignment)
    : wlist Assignment :=
  wmap (joined_value a)
    (reduced (λ _ vals, [([reduced_value fn vals], 1%Z)]) (wmap (split_values a ks w) l)).

Fixpoint reference (p : Plan) : wlist Assignment :=
  match p with
  | PProject p => wmap (restrict (pj_variables p)) (reference (pj_plan p))
  | PUnion p =>
      distinct_list (concat ((λ c, wmap (restrict (un_variables p)) (reference c)) <$> un_plans p))
  | PJoin p => join_on (jn_variables p) (reference (jn_left_plan p)) (reference (jn_right_plan p))
  | PAntijoin p =>
      let ks := aj_variables p in
      let right := wmap (restrict ks) (reference (aj_right_plan p)) in
      wfilter (λ m, bool_decide (wt right (restrict ks m) = 0%Z))
        (distinct_list (reference (aj_left_plan p)))
  | PNegate p => wneg (reference p)
  | PFilter p => wfilter (λ m, filter_holds p (value_of m)) (reference (fi_plan p))
  | PMatchA e a v => wmap (pattern e v) (contents a)
  | PMatchEA match_e a v =>
      wmap (λ ev, assign [v] [ev.2]) (wfilter (λ ev, bool_decide (ev.1 = VEid match_e)) (contents a))
  | PMatchAV e a match_v =>
      wmap (λ ev, assign [e] [ev.1]) (wfilter (λ ev, bool_decide (ev.2 = match_v)) (contents a))
  | PNameExpr variables name => wmap (assign variables) (named name)
  | PHector q => hector_reference q
  | PTransform p => wmap (transformed p) (reference (tr_plan p))
  | PAggregate p =>
      match ag_aggregation_fns p, ag_aggregation_variables p with
      | [fn], [a] => aggregated fn a (ag_key_variables p) (length (ag_with_variables p)) (reference (ag_plan p))
      | _, _ => []
      end
  | _ => []
  end.

(** The variables a plan's relation binds. *)
Fixpoint bound (p : Plan) : gset Var :=
  match p with
  | PProject p => list_to_set (pj_variables p)
  | PUnion p => list_to_set (un_variables p)
  | PJoin p => bound (jn_left_plan p) ∪ bound (jn_right_plan p)
  | PAntijoin p => bound (aj_left_plan p)
  | PNegate p => bound p
  | PFilter p => bound (fi_plan p)
  | PMatchA e _ v => {[e; v]}
  | PMatchEA _ _ v => {[v]}
  | PMatchAV e _ _ => {[e]}
  | PNameExpr variables _ => list_to_set variables
  | PHector h => list_to_set (he_variables h)
  | PTransform p => bound (tr_plan p) ∪ {[tr_result_variable p]}
  | PAggregate p => list_to_set (ag_variables p)
  | _ => ∅
  end.

(** The values a variable may have. *)
Fixpoint may (p : Plan) (x : Var) (v : Value) : Prop :=
  match p with
  | PProject p => may (pj_plan p) x v
  | PUnion p => foldr (λ c rest, may c x v ∨ rest) False (un_plans p)
  | PJoin p =>
      (x ∈ bound (jn_left_plan p) ∧ may (jn_left_plan p) x v) ∨
      (x ∈ bound (jn_right_plan p) ∧ may (jn_right_plan p) x v)
  | PAntijoin p => may (aj_left_plan p) x v
  | PNegate p => may p x v
  | PFilter p => may (fi_plan p) x v
  | PTransform p =>
      if decide (x = tr_result_variable p)
      then ∃ σ : Var → Value, (∀ y, y ∈ tr_variables p → may (tr_plan p) y (σ y)) ∧ transform_value p σ = Some v
      else may (tr_plan p) x v
  | PMatchA e a v' => ∃ ev, ev ∈ (contents a).*1 ∧ v = if decide (x = e) then ev.1 else ev.2
  | PMatchEA _ a _ => ∃ ev, ev ∈ (contents a).*1 ∧ v = ev.2
  | PMatchAV _ a _ => ∃ ev, ev ∈ (contents a).*1 ∧ v = ev.1
  | PHector q =>
      match he_bindings q with
      | [BAttribute b] =>
          ∃ ev, ev ∈ (contents (source_attribute b)).*1 ∧
            v = if decide (x = (ab_variables b).1) then ev.1 else ev.2
      | _ => True
      end
  | _ => True
  end.

#[export] Instance aggregated_proper fn a ks w : Proper ((≡) ==> (≡)) (aggregated fn a ks w).
Proof. intros W W' HW. unfold aggregated. apply (wmap_proper (joined_value a)), reduced_equiv. by rewrite HW. Qed.
End reference.

(** ** Plans that are implemented without panics *)
(** The rules in scope: the length of their tuples, and the tuples. *)
Abbreviation RuleContents := (gmap Aid (nat * wlist (list Value))) (only parsing).

(** The queries the delta join is required to answer. *)
Class DeltaJoinable `{EV : ExternValues} := delta_joinable : Hector → Prop.

Section well_formed_plans.
Context `{EV : ExternValues, DF : Differential, DJ : !DeltaJoinable}.
Context {T : Type} `{TR : !Traces T} {Rule : Type}.
Context (d : Domain T Rule) (named : RuleContents).

(** The pairs of an attribute, and the tuples of a rule. *)
Definition attribute_contents (a : Aid) : wlist (Value * Value) :=
  match (let! '(c, _) := import_propose d a in run c) with Ret l => l | Panic _ => [] end.
Definition rule_contents (name : Aid) : wlist (list Value) :=
  match named !! name with Some (_, l) => l | None => [] end.

Definition reference_in : Plan → wlist Assignment := reference attribute_contents rule_contents.

Definition attribute_usable (a : Aid) : Prop :=
  ∃ l, (let! '(c, _) := import_propose d a in run c) = Ret l.

(** The variables can be projected to or keyed by. *)
Definition keyable (p : Plan) (ks : list Var) : Prop :=
  NoDup ks ∧ list_to_set ks ⊆ bound p ∧
  match p with
  | PMatchA e _ v => ks ∈ [[e; v]; [v; e]; [e]; [v]]
  | _ => True
  end.

Definition nonnegative (l : wlist Assignment) : Prop := ∀ m, (0 ≤ wt l m)%Z.

Definition attributes_joinable (l r : Plan) (ks : list Var) : Prop :=
  match l, r with
  | PMatchA _ a _, PMatchA _ b _ => length ks = 1 ∧ reverse_index_ok d a ∧ reverse_index_ok d b
  | _, _ => True
  end.

(** What a delta join promises: a collection of the answers. *)
Class DeltaJoins (delta_join : Hector → outcome (Implemented * ShutdownHandle (Button (T := T)))) : Prop :=
  delta_joins q : delta_joinable q →
    ∃ c h l, delta_join q = Ret (ICollection (mkCollectionRelation (he_variables q) c), h) ∧
      run c = Ret l ∧ (∀ t, t ∈ l.*1 → length t = length (he_variables q)) ∧
      l ≡ query_table attribute_contents q.

Definition hector_ok (q : Hector) : Prop :=
  match he_bindings q with
  | [] => False
  | [b] =>
      match b with
      | BAttribute b =>
          NoDup (he_variables q) ∧ he_variables q ≠ [] ∧
          he_variables q ⊆ pair_variables (ab_variables b) ∧
          (ab_variables b).1 ≠ (ab_variables b).2 ∧ attribute_usable (source_attribute b)
      | _ => False
      end
  | _ => NoDup (he_variables q) ∧ he_variables q ≠ [] ∧ delta_joinable q
  end.

Fixpoint plan_ok (p : Plan) : Prop :=
  match p with
  | PProject p => plan_ok (pj_plan p) ∧ keyable (pj_plan p) (pj_variables p)
  | PUnion p =>
      NoDup (un_variables p) ∧
      foldr (λ c rest, (plan_ok c ∧ keyable c (un_variables p)) ∧ rest) True (un_plans p) ∧
      nonnegative (concat ((λ c, wmap (restrict (un_variables p)) (reference_in c)) <$> un_plans p))
  | PJoin p =>
      let l := jn_left_plan p in
      let r := jn_right_plan p in
      let ks := jn_variables p in
      plan_ok l ∧ plan_ok r ∧ NoDup ks ∧ ks ≠ [] ∧
      list_to_set ks = bound l ∩ bound r ∧ attributes_joinable l r ks
  | PAntijoin p =>
      let l := aj_left_plan p in
      let r := aj_right_plan p in
      let ks := aj_variables p in
      plan_ok l ∧ plan_ok r ∧ keyable l ks ∧ keyable r ks ∧
      nonnegative (reference_in l) ∧ nonnegative (wmap (restrict ks) (reference_in r))
  | PNegate p => plan_ok p
  | PFilter p =>
      plan_ok (fi_plan p) ∧ list_to_set (fi_variables p) ⊆ bound (fi_plan p) ∧
      is_some (filter_operands p (λ _, VEid 0)) = true
  | PMatchA e a v => e ≠ v ∧ attribute_usable a
  | PMatchEA _ a _ | PMatchAV _ a _ => attribute_usable a
  | PNameExpr variables name =>
      NoDup variables ∧ ∃ l, named !! name = Some (length variables, l)
  | PHector q => hector_ok q
  | PTransform p =>
      plan_ok (tr_plan p) ∧ list_to_set (tr_variables p) ⊆ bound (tr_plan p) ∧
      tr_result_variable p ∉ bound (tr_plan p) ∧
      ∀ σ : Var → Value, (∀ y, y ∈ tr_variables p → may attribute_contents (tr_plan p) y (σ y)) →
        is_Some (transform_value p σ)
  | PAggregate p =>
      match ag_aggregation_fns p, ag_aggregation_variables p with
      | [fn], [a] =>
          let ks := ag_key_variables p in
          plan_ok (ag_plan p) ∧ reducing fn = true ∧ keyable (ag_plan p) ks ∧ a ∉ ks ∧
          bound (ag_plan p) = {[a]} ∪ list_to_set ks ∧
          ∃ i, i ≤ length ks ∧ ag_variables p = take i ks ++ a :: drop i ks
      | _, _ => False
      end
  | _ => False
  end.

(** The collections of the rules in scope hold the rules' contents. *)
Definition in_scope (local_arrangements : gmap Aid (Collection (list Value) Z)) : Prop :=
  ∀ name k l, named !! name = Some (k, l) →
    ∃ c l', local_arrangements !! name = Some c ∧ run c = Ret l' ∧ l' ≡ l ∧
      ∀ t, t ∈ l'.*1 → length t = k.
End well_formed_plans.

(** ** Induction on plans *)
Section plan_induction.
Context `{EV : ExternValues}.

Definition children (p : Plan) : list Plan :=
  match p with
  | PProject p => [pj_plan p]
  | PAggregate p => [ag_plan p]
  | PUnion p => un_plans p
  | PJoin p => [jn_left_plan p; jn_right_plan p]
  | PAntijoin p => [aj_left_plan p; aj_right_plan p]
  | PNegate p => [p]
  | PFilter p => [fi_plan p]
  | PTransform p => [tr_plan p]
  | PPull p => pu_paths p
  | PPullLevel p => [pl_plan p]
  | PGraphQl p => gq_paths p
  | PHector _ | PMatchA _ _ _ | PMatchEA _ _ _ | PMatchAV _ _ _ | PNameExpr _ _ | PPullAll _ => []
  end.

Lemma Plan_children_ind (Q : Plan → Prop) :
  (∀ p, (∀ c, c ∈ children p → Q c) → Q p) → ∀ p, Q p.
Proof.
  intros Hstep. enough (∀ p, Forall Q (children p)) as Hall.
  { intros p. apply Hstep. by apply Forall_forall. }
  fix IH 1. intros p.
  assert (∀ c, Forall Q (children c) → Q c) as Hc by (intros c; rewrite Forall_forall; apply Hstep).
  destruct p as [[? c]|[? c ? ? ? ?]|[? cs]|[? c c']|h|[? c c']|c|[? ? c ?]|[? ? c ? ?]
    |e a v|e a v|e a v|vs n|[? cs]|[? c ? ? ? ?]|p|[? cs]]; simpl; repeat constructor; try (apply Hc, IH).
  - induction cs as [|c cs IHcs]; constructor; [apply Hc, IH|exact IHcs].
  - induction cs as [|c cs IHcs]; constructor; [apply Hc, IH|exact IHcs].
  - induction cs as [|c cs IHcs]; constructor; [apply Hc, IH|exact IHcs].
Qed.
End plan_induction.
