(* ===== verification/PlanStages.v ===== *)
(** * The stages compute the reference semantics

    For every kind of plan: if its inputs are implemented by relations that hold
    their reference, so is the plan. *)
From Stdlib Require Import ZArith NArith Lia.
From stdpp Require Import base strings numbers sets gmap fin_maps list.
From S2P Require Import Prelude Timestamps Values Bindings HectorPlan Sessions Weighted.
From S2P Require Import Dataflow Domains Relations RelationTheorems Queries PlanOps JoinTheorems.
From S2P Require Import StageTheorems FilterTransform Aggregates Pulls Plans Assignments PlanReference.

(** ** The refinement, stage by stage *)
Section refinement.
Context `{EV : ExternValues, DF : Differential}.
Context {T : Type} `{TR : !Traces T} {Rule : Type}.
Context (d : Domain T Rule).
Implicit Types (W : wlist Assignment) (rel : Implemented) (vs ks : list Var).
Abbreviation Handle := (ShutdownHandle (Button (T := T))) (only parsing).
Abbreviation Implementation := (outcome (Implemented * Handle)) (only parsing).

(** A relation that binds the variables and holds the assignments. *)
Definition holds rel (variables : gset Var) W : Prop :=
  relation_wf rel d ∧ list_to_set (Implemented_variables rel) = variables ∧
  ∃ l, rel_run rel d = Ret l ∧ wmap (assign (Implemented_variables rel)) l ≡ W.

(** A collection's tuples have the right length. *)
Lemma collection_wf vars (c : Collection (list Value) Z) l :
  NoDup vars → run c = Ret l → (∀ t, t ∈ l.*1 → length t = length vars) →
  relation_wf (ICollection (mkCollectionRelation vars c)) d.
Proof. apply join_wf. Qed.

Lemma holds_collection vars (c : Collection (list Value) Z) l W :
  NoDup vars → run c = Ret l → (∀ t, t ∈ l.*1 → length t = length vars) →
  wmap (assign vars) l ≡ W →
  holds (ICollection (mkCollectionRelation vars c)) (list_to_set vars) W.
Proof. intros Hnd Hc Hlen Hw. split; [by eapply collection_wf|]. split; [done|]. by exists l. Qed.

(** The values in the records of a relation are among those expected. *)
Definition confined rel (M : Var → Value → Prop) : Prop :=
  ∀ l x v, rel_run rel d = Ret l → x ∈ Implemented_variables rel →
    v ∈ column (Implemented_variables rel) l x → M x v.

Lemma holds_lengths rel variables W l :
  holds rel variables W → rel_run rel d = Ret l →
  ∀ t, t ∈ l.*1 → length t = length (Implemented_variables rel).
Proof. intros [[_ Hlen] _] Hl t. by apply Hlen. Qed.

Lemma restrict_weights rel variables W l ks :
  holds rel variables W → rel_run rel d = Ret l → list_to_set ks ⊆ variables → NoDup ks →
  wmap (assign ks) (wmap (project (Implemented_variables rel) ks) l) ≡ wmap (restrict ks) W.
Proof.
  intros Hh Hl Hks Hnd. pose proof (holds_lengths _ _ _ _ Hh Hl) as Hlen.
  destruct Hh as ([Hnd' _] & <- & l' & Hl' & HW). rewrite Hl in Hl'. injection Hl' as <-.
  rewrite <- HW, !wmap_compose. erewrite wmap_ext; [done|]. intros t Ht. apply assign_project; auto.
  set_solver.
Qed.

(** What the implementation of a plan, and of a stage, must deliver. *)
Abbreviation allowed := (may (attribute_contents d)) (only parsing).

Definition means (implement : Plan → Implementation) (p : Plan) W : Prop :=
  ∃ rel h, implement p = Ret (rel, h) ∧ holds rel (bound p) W ∧ confined rel (allowed p) ∧
    ∀ b, rel = IAttribute b → p = PMatchA (ab_variables b).1 (source_attribute b) (ab_variables b).2.

Definition computes (r : Implementation) (variables : gset Var) (M : Var → Value → Prop) W : Prop :=
  ∃ c h, r = Ret (ICollection c, h) ∧ holds (ICollection c) variables W ∧ confined (ICollection c) M.

Lemma computes_collection r vars (c : Collection (list Value) Z) h l M W :
  r = Ret (ICollection (mkCollectionRelation vars c), h) →
  NoDup vars → run c = Ret l → (∀ t, t ∈ l.*1 → length t = length vars) →
  wmap (assign vars) l ≡ W → (∀ x v, x ∈ vars → v ∈ column vars l x → M x v) →
  computes r (list_to_set vars) M W.
Proof.
  intros -> Hnd Hc Hlen HW HM. eexists _, _. split; [done|]. split; [by eapply holds_collection|].
  intros l' x v Hl' Hx Hv. simpl in Hl'. rewrite Hc in Hl'. injection Hl' as <-. by apply HM.
Qed.

Lemma means_input implement p W ks :
  means implement p W → keyable p ks →
  ∃ rel l, input d ks implement p rel l ∧ holds rel (bound p) W ∧ confined rel (allowed p).
Proof.
  intros (rel & h & Hi & Hh & Hconf & Hattr) (Hnd & Hks & Hkeys).
  pose proof Hh as (Hwf & Hvars & l & Hl & HW). exists rel, l. split; [|done].
  split; [by exists h|]. split; [done|]. split; [done|]. split; [set_solver|].
  destruct rel as [b|c]; [|by intros []]. simpl. rewrite (Hattr b eq_refl) in Hkeys. intros [Hn|Hn].
  - unfold rel_run, import_propose, Domain_forward_propose in Hl. by rewrite Hn in Hl.
  - apply Hn. unfold attribute_keys. by destruct (ab_variables b).
Qed.

Lemma computes_project implement self W :
  means implement (pj_plan self) W → keyable (pj_plan self) (pj_variables self) →
  computes (Project_implement implement d self) (list_to_set (pj_variables self)) (allowed (pj_plan self))
    (wmap (restrict (pj_variables self)) W).
Proof.
  intros Hm Hk. destruct (means_input _ _ _ _ Hm Hk) as (rel & l & Hin & Hh & Hconf).
  destruct (Project_implements d implement self rel l Hin) as ([vars c] & h & l' & Hi & Hv & Hr & Hp).
  simpl in Hv, Hr. subst vars. destruct Hin as (_ & _ & Hl & Hsub & _). destruct Hk as (Hnd & Hks & _).
  eapply computes_collection; [exact Hi|done|exact Hr|..].
  - intros t. rewrite Hp. intros (t' & -> & _)%elem_of_wmap. unfold project. by rewrite length_fmap.
  - apply wlist_equiv_perm in Hp. rewrite Hp. by eapply restrict_weights.
  - intros x v Hx Hv. apply (Hconf l); [done|by apply Hsub|].
    eapply column_wmap; [exact Hp| |exact Hv]. intros t _. by apply env_project.
Qed.

Lemma computes_negate implement p W :
  means implement p W → computes (Negate_implement implement d p) (bound p) (allowed p) (wneg W).
Proof.
  intros (rel & h & Hi & Hh & Hconf & _). pose proof Hh as (Hwf & <- & l & Hl & HW).
  destruct (projected_self rel d l Hwf Hl) as (c & hc & lc & Hpr & Hlc & Hpc).
  unfold Negate_implement. rewrite Hi. simpl. rewrite Hpr. simpl.
  pose proof (run_negate c) as Hn. rewrite Hlc in Hn.
  apply run_rel_Ret_r in Hn as (ln & Hln & Hpn). destruct Hwf as [Hnd Hlen].
  assert (ln.*1 ⊆ l.*1) as Hrec.
  { intros t. rewrite Hpn. unfold wneg. rewrite <- list_fmap_compose.
    intros (q & -> & Hq)%list_elem_of_fmap. rewrite <- Hpc. apply list_elem_of_fmap. by exists q. }
  eapply computes_collection; [done|done|exact Hln|..].
  - intros t Ht. by apply (Hlen l), Hrec.
  - apply wlist_equiv_perm in Hpn, Hpc. rewrite Hpn, wmap_wneg, Hpc. by rewrite HW.
  - intros x v Hx Hv. apply (Hconf l); [done..|]. by eapply column_records.
Qed.

Lemma computes_filter implement self W :
  means implement (fi_plan self) W → list_to_set (fi_variables self) ⊆ bound (fi_plan self) →
  is_some (filter_operands self (λ _, VEid 0)) = true →
  computes (Filter_implement implement d self) (bound (fi_plan self)) (allowed (fi_plan self))
    (wfilter (λ m, filter_holds self (value_of m)) W).
Proof.
  intros (rel & h & Hi & Hh & Hconf & _) Hxs Hops. pose proof Hh as (Hwf & Hvs & l & Hl & HW).
  assert (fi_variables self ⊆ Implemented_variables rel) as Hsub by set_solver.
  destruct (Filter_implements d implement self rel h l Hi Hwf Hl Hsub Hops)
    as ([vars c] & h' & l' & Hf & Hv & Hr & Hp). simpl in Hv, Hr. subst vars.
  rewrite <- Hvs. destruct Hwf as [Hnd Hlen].
  assert (l'.*1 ⊆ l.*1) as Hrec.
  { intros t. rewrite Hp. intros ([t' w] & -> & Ht)%list_elem_of_fmap.
    unfold wfilter in Ht. apply list_elem_of_filter in Ht as [_ Ht].
    apply list_elem_of_fmap. by exists (t', w). }
  eapply computes_collection; [exact Hf|done|exact Hr|..];
    [intros t Ht; by apply (Hlen l), Hrec| |intros x v Hx Hv; apply (Hconf l); [done..|by eapply column_records]].
  apply wlist_equiv_perm in Hp. rewrite Hp.
  rewrite (wmap_wfilter _ _ (λ m, filter_holds self (value_of m))); [by rewrite HW|].
  intros t Ht. apply Hlen in Ht; [|done]. unfold filter_holds, filter_operands.
  destruct (fi_constants self) as [|[c0|] [|[c1|] ?]], (fi_variables self) as [|x [|y ?]];
    rewrite ?env_value_of by done; done.
Qed.

Lemma computes_join implement self Wl Wr :
  means implement (jn_left_plan self) Wl → means implement (jn_right_plan self) Wr →
  NoDup (jn_variables self) → jn_variables self ≠ [] →
  list_to_set (jn_variables self) = bound (jn_left_plan self) ∩ bound (jn_right_plan self) →
  attributes_joinable d (jn_left_plan self) (jn_right_plan self) (jn_variables self) →
  computes (Join_implement implement d self)
    (bound (jn_left_plan self) ∪ bound (jn_right_plan self)) (allowed (PJoin self)) (join_on (jn_variables self) Wl Wr).
Proof.
  intros (rl & hl & Hil & Hhl & Hcl & Hal) (rr & hr & Hir & Hhr & Hcr & Har) Hnd Hne Hks Hj.
  pose proof Hhl as (Hwl & Hvl & l & Hl & HWl). pose proof Hhr as (Hwr & Hvr & r & Hr & HWr).
  set (vsl := Implemented_variables rl) in *. set (vsr := Implemented_variables rr) in *.
  assert (∀ x, x ∈ jn_variables self ↔ x ∈ vsl ∧ x ∈ vsr) as Hshared.
  { intros x. rewrite <- !(elem_of_list_to_set (C := gset Var)), Hvl, Hvr, Hks. set_solver. }
  assert (joinable d rl rr (jn_variables self)) as Hjoin.
  { assert (length (jn_variables self) ≤ length vsl ∧ length (jn_variables self) ≤ length vsr)%nat as Hfit
      by (split; apply distinct_keys_fit; try done; intros x Hx; by apply Hshared).
    destruct rl as [bl|]; [|exact Hfit]. destruct rr as [br|]; [|exact Hfit].
    rewrite (Hal bl eq_refl), (Har br eq_refl) in Hj. exact Hj. }
  destruct (Join_implements d implement self rl rr hl hr l r)
    as ([vars c] & h & out & Hi & Hout & Hv & Hw & Hwf & Hcols); try done.
  { intros x Hx. by apply Hshared. } { intros x Hx. by apply Hshared. }
  simpl in Hout, Hv, Hw, Hcols. fold vsl vsr in Hv, Hw, Hcols.
  assert (relation_wf (ICollection (mkCollectionRelation vars c)) d) as [Hnd' Hlen].
  { apply Hwf; [done|]. intros x Hx Hx'. by apply Hshared. }
  assert (bound (jn_left_plan self) ∪ bound (jn_right_plan self) = list_to_set vars) as ->.
  { rewrite <- Hvl, <- Hvr. apply set_eq. intros x. rewrite elem_of_union, !elem_of_list_to_set.
    by rewrite Hv. }
  eapply computes_collection; [exact Hi|done|exact Hout|..].
  { intros t. by apply Hlen. }
  2: { intros x v Hx Hxv. cbn [may]. rewrite <- Hvl, <- Hvr, !elem_of_list_to_set.
       destruct (Hcols x v Hx Hxv) as [[? ?]|[? ?]]; [left|right]; split; eauto. }
  rewrite <- HWl, <- HWr. intros m. rewrite wt_assign; [|done|by intros t; apply Hlen].
  destruct Hwl as [Hndl Hlenl], Hwr as [Hndr Hlenr].
  rewrite (wt_join_on _ vsl vsr); [|done| |].
  - rewrite (decide_ext _ (dom m = list_to_set (C := gset Var) (vsl ++ vsr))).
    2: { assert (list_to_set (C := gset Var) vars = list_to_set (vsl ++ vsr)) as ->; [|done].
         apply set_eq. intros x. rewrite !elem_of_list_to_set, elem_of_app. apply Hv. }
    case_decide as Hdom; [|done]. rewrite Hw.
    rewrite (wt_assign_restrict vsl), (wt_assign_restrict vsr); try done.
    + intros t. by apply Hlenr.
    + rewrite Hdom. set_solver.
    + intros t. by apply Hlenl.
    + rewrite Hdom. set_solver.
  - intros a (t & -> & Ht)%elem_of_wmap. apply dom_assign. by apply (Hlenl l).
  - intros a (t & -> & Ht)%elem_of_wmap. apply dom_assign. by apply (Hlenr r).
Qed.

Lemma union_may self p x v : p ∈ un_plans self → allowed p x v → allowed (PUnion self) x v.
Proof.
  intros Hp Hv. cbn [may]. induction (un_plans self) as [|c cs IH]; [by apply not_elem_of_nil in Hp|].
  apply elem_of_cons in Hp as [->|Hp]; [by left|]. right. by apply IH.
Qed.

Lemma computes_union implement self (Ws : list (wlist Assignment)) :
  NoDup (un_variables self) →
  Forall2 (λ p W, means implement p W ∧ keyable p (un_variables self)) (un_plans self) Ws →
  (∀ m, (0 ≤ wt (concat (wmap (restrict (un_variables self)) <$> Ws)) m)%Z) →
  computes (Union_implement implement d self) (list_to_set (un_variables self)) (allowed (PUnion self))
    (distinct_list (concat (wmap (restrict (un_variables self)) <$> Ws))).
Proof.
  intros Hnd Hps Hpos. set (ks := un_variables self) in *.
  assert (∃ inputs, Forall2 (λ p i, input d ks implement p i.1 i.2) (un_plans self) inputs ∧
    Forall2 (λ p i, confined i.1 (allowed p)) (un_plans self) inputs ∧
    wmap (assign ks) (concat ((λ i, wmap (project (Implemented_variables i.1) ks) i.2) <$> inputs))
      ≡ concat (wmap (restrict ks) <$> Ws)) as (inputs & Hin & Hconf & Htotal).
  { clear Hpos. induction Hps as [|p W ps Ws [Hm Hk] _ (inputs & Hin & Hconf & IH)]; [by exists []|].
    destruct (means_input _ _ _ _ Hm Hk) as (rel & l & Hp & Hh & Hc). exists ((rel, l) :: inputs).
    split; [by constructor|]. split; [by constructor|]. csimpl. unfold wmap at 1. rewrite fmap_app. fold (wmap (assign ks)).
    apply wlist_app_proper; [|exact IH]. destruct Hp as (_ & _ & Hl & _), Hk as (_ & Hks & _).
    by eapply restrict_weights. }
  destruct (Union_implements d implement self inputs Hin)
    as ([vars c] & h & out & Hi & Hv & Hr & Hrec & Hd). simpl in Hv, Hr. subst vars.
  fold ks in Hrec, Hd. set (total := concat _) in Htotal, Hrec, Hd.
  assert (∀ t, t ∈ total.*1 → ∃ i t', i ∈ inputs ∧ t = project (Implemented_variables i.1) ks t' ∧ t' ∈ i.2.*1) as Hfrom.
  { intros t (p & -> & Hp)%list_elem_of_fmap. unfold total in Hp.
    apply list_elem_of_In, in_concat in Hp as (x & Hx & Hpx).
    apply list_elem_of_In, list_elem_of_fmap in Hx as (i & -> & Hii). apply list_elem_of_In in Hpx.
    unfold wmap in Hpx. apply list_elem_of_fmap in Hpx as (q & -> & Hq). exists i, q.1.
    split; [done|]. split; [done|]. apply list_elem_of_fmap. by exists q. }
  assert (∀ t, t ∈ total.*1 → length t = length ks) as Hlen.
  { intros t (i & t' & _ & -> & _)%Hfrom. unfold project. by rewrite length_fmap. }
  eapply computes_collection; [exact Hi|done|exact Hr|by intros t Ht; apply Hlen, Hrec|..]; fold ks.
  2: { intros x v Hx. rewrite elem_of_column. intros (t & (i & t' & Hii & -> & Ht')%Hrec%Hfrom & ->).
       rewrite env_project by done. apply list_elem_of_lookup in Hii as [n Hn].
       destruct (Forall2_lookup_r _ _ _ _ _ Hconf Hn) as (p & Hp & Hcp).
       destruct (Forall2_lookup_r _ _ _ _ _ Hin Hn) as (p' & Hp' & _ & _ & Hli & Hsub & _).
       apply union_may with p; [by eapply list_elem_of_lookup_2|]. apply (Hcp i.2); [done|by apply Hsub|].
       apply elem_of_column. by exists t'. }
  intros m. rewrite wt_distinct_list, wt_assign; [|done|by intros t Ht; apply Hlen, Hrec].
  rewrite <- (Htotal m). specialize (Hpos m). rewrite <- (Htotal m) in Hpos.
  rewrite wt_assign in * by done. case_decide as Hdom; [|done].
  destruct (Hd (value_of m <$> ks)) as [Hd1 Hd0]. case_decide; [by apply Hd1|].
  apply Hd0. lia.
Qed.

Lemma computes_antijoin implement self Wl Wr :
  means implement (aj_left_plan self) Wl → means implement (aj_right_plan self) Wr →
  keyable (aj_left_plan self) (aj_variables self) →
  keyable (aj_right_plan self) (aj_variables self) →
  nonnegative Wl → nonnegative (wmap (restrict (aj_variables self)) Wr) →
  computes (Antijoin_implement implement d self) (bound (aj_left_plan self)) (allowed (aj_left_plan self))
    (wfilter (λ m, bool_decide (wt (wmap (restrict (aj_variables self)) Wr)
                                   (restrict (aj_variables self) m) = 0%Z)) (distinct_list Wl)).
Proof.
  intros Hml Hmr Hkl Hkr Hpl Hpr. set (ks := aj_variables self) in *.
  destruct (means_input _ _ _ _ Hml Hkl) as (rl & l & Hil & Hhl & Hconf).
  destruct (means_input _ _ _ _ Hmr Hkr) as (rr & r & Hir & Hhr & _).
  assert (length ks ≤ length (Implemented_variables rl))%nat as Hfit.
  { destruct Hil as (_ & _ & _ & Hks & _), Hkl as [Hnd _]. by apply distinct_keys_fit. }
  destruct (Antijoin_implements d implement self rl rr l r Hil Hir Hfit)
    as ([vars c] & h & out & Hi & Hout & Hlen & Hv & Hcols & Hw). simpl in Hout, Hv, Hw, Hlen, Hcols. fold ks in Hv, Hw.
  destruct Hil as (_ & [Hndl Hlenl] & Hl & Hksl & _), Hir as (_ & _ & Hr & _).
  pose proof Hhl as (_ & Hvl & l' & Hl' & HWl). rewrite Hl in Hl'. injection Hl' as <-.
  destruct Hkr as (Hnd & Hksr & _).
  pose proof (restrict_weights _ _ _ _ _ Hhr Hr Hksr Hnd) as HWr.
  assert (NoDup vars) as Hndv.
  { rewrite Hv. unfold other_variables. apply NoDup_app. split; [done|].
    setoid_rewrite list_elem_of_filter. split; [tauto|by apply NoDup_filter]. }
  assert (bound (aj_left_plan self) = list_to_set vars) as ->.
  { rewrite <- Hvl, Hv. apply set_eq. intros x. rewrite !elem_of_list_to_set, elem_of_app.
    unfold other_variables. rewrite list_elem_of_filter. destruct (decide (x ∈ ks)); [|tauto].
    split; [by left|]. intros _. by apply Hksl. }
  assert (list_to_set (C := gset Var) vars = list_to_set (Implemented_variables rl)) as Hsets.
  { rewrite Hv. apply set_eq. intros x. rewrite !elem_of_list_to_set, elem_of_app.
    unfold other_variables. rewrite list_elem_of_filter. destruct (decide (x ∈ ks)); [|tauto].
    split; [|by left]. intros _. by apply Hksl. }
  eapply computes_collection; [exact Hi|done|exact Hout|done|..].
  2: { intros x v Hx Hxv. apply (Hconf l x v Hl); [|by apply Hcols].
       apply (elem_of_list_to_set (C := gset Var)). rewrite <- Hsets. by apply elem_of_list_to_set. }
  intros m. rewrite wt_wfilter, wt_distinct_list, wt_assign by done. rewrite Hsets.
  rewrite <- (HWl m). rewrite wt_assign by (try done; intros t; by apply Hlenl).
  specialize (Hpl m). rewrite <- (HWl m), wt_assign in Hpl by (try done; intros t; by apply Hlenl).
  case_decide as Hdom; [|by case_bool_decide].
  destruct (Hw (value_of m)) as (H0 & Hpos & Hone). clear Hw.
  assert (wt (wmap (restrict ks) Wr) (restrict ks m) =
    wt (wmap (project (Implemented_variables rr) ks) r) (value_of m <$> ks)) as Hwr.
  { rewrite <- (HWr _). apply wt_assign_restrict; [done| |].
    - intros t (t' & -> & _)%elem_of_wmap. unfold project. by rewrite length_fmap.
    - rewrite Hdom. set_solver. }
  specialize (Hpr (restrict ks m)). rewrite Hwr in *.
  case_bool_decide as Hz.
  - case_decide; [by apply Hone|]. apply H0. lia.
  - destruct (decide (wt l (value_of m <$> Implemented_variables rl) = 0%Z)); [auto|].
    apply Hpos; lia.
Qed.

Lemma usable_import a name :
  attribute_usable d a →
  ∃ tr pairs, Domain_forward_propose d a = Some tr ∧
    run (import_frontier tr name).1 = Ret pairs ∧ accumulates pairs (attribute_contents d a).
Proof.
  intros [l Hl]. unfold attribute_contents. rewrite Hl. unfold import_propose in Hl.
  destruct (Domain_forward_propose d a) as [tr|]; [|done]. simpl in Hl.
  destruct (import_frontier tr a) as [c btn] eqn:Hi.
  pose proof (import_renamed tr name a) as Hn. rewrite Hi in Hn. simpl in Hn. rewrite Hl in Hn.
  apply run_rel_Ret_l in Hn as (pairs & Hp & Ha). by exists tr, pairs.
Qed.

(** The values of the two variables of a pattern. *)
Lemma pair_column e v (l : wlist (Value * Value)) x u :
  x ∈ [e; v] → u ∈ column [e; v] (wmap (λ ev, [ev.1; ev.2]) l) x →
  ∃ ev, ev ∈ l.*1 ∧ u = if decide (x = e) then ev.1 else ev.2.
Proof.
  intros Hx. rewrite elem_of_column. intros (t & (ev & -> & Hev)%elem_of_wmap & ->). exists ev.
  split; [done|]. rewrite !env_cons. repeat case_decide; set_solver.
Qed.

Lemma holds_match_a e a v :
  e ≠ v → attribute_usable d a →
  holds (IAttribute (mkAttributeBinding (e, v) a)) {[e; v]} (wmap (pattern e v) (attribute_contents d a)) ∧
  confined (IAttribute (mkAttributeBinding (e, v) a)) (allowed (PMatchA e a v)).
Proof.
  intros Hev [l Hl]. assert (attribute_contents d a = l) as -> by (unfold attribute_contents; by rewrite Hl).
  assert (rel_run (IAttribute (mkAttributeBinding (e, v) a)) d = Ret (wmap (λ ev, [ev.1; ev.2]) l)) as Hrun.
  { simpl. destruct (import_propose d a) as [[c btn]|]; [|done]. simpl in *. by rewrite Hl. }
  split; [split; [split|split]|].
  - apply NoDup_cons. split; [simpl; set_solver|apply NoDup_singleton].
  - intros l' t. rewrite Hrun. intros [= <-] (ev & -> & _)%elem_of_wmap. done.
  - unfold Implemented_variables, AttributeBinding_variables, pair_variables. simpl. set_solver.
  - exists (wmap (λ ev, [ev.1; ev.2]) l). split; [exact Hrun|]. by rewrite wmap_compose.
  - intros l' x u. rewrite Hrun. intros [= <-] Hx Hu. cbn [may]. unfold attribute_contents. rewrite Hl.
    exact (pair_column e v l x u Hx Hu).
Qed.

Lemma computes_match_pattern a x matches value :
  attribute_usable d a →
  computes (match_pattern d a x matches value) {[x]}
    (λ _ v, ∃ ev, ev ∈ (attribute_contents d a).*1 ∧ v = value ev)
    (wmap (λ ev, assign [x] [value ev]) (wfilter matches (attribute_contents d a))).
Proof.
  intros Hu. unfold match_pattern.
  destruct (usable_import a ("Propose(" +:+ a +:+ ")") Hu) as (tr & pairs & -> & Hrun & [Hacc Hrec]).
  destruct (import_frontier tr _) as [c btn]. simpl in Hrun.
  destruct (run_filter_pure (λ ev, Ret (matches ev)) matches c pairs Hrun) as (lf & Hlf & Hpf); [done|].
  destruct (run_map_pure (λ ev, Ret [value ev]) (λ ev, [value ev]) _ lf Hlf) as (lm & Hlm & Hpm); [done|].
  change (lm ≡ₚ wmap (λ ev, [value ev]) lf) in Hpm.
  assert (list_to_set [x] = {[x]} :> gset Var) as <- by set_solver.
  eapply computes_collection; [done|apply NoDup_singleton|exact Hlm|..].
  - intros t. rewrite Hpm. by intros (ev & -> & _)%elem_of_wmap.
  - pose proof (wlist_equiv_perm _ _ Hpf) as Hf. apply wlist_equiv_perm in Hpm. rewrite Hpm.
    rewrite wmap_compose, Hf. fold (wfilter matches pairs). by rewrite Hacc.
  - intros y v ->%list_elem_of_singleton. rewrite elem_of_column. intros (t & Ht & ->). rewrite Hpm in Ht.
    apply elem_of_wmap in Ht as (ev & -> & Hev). exists ev. rewrite env_cons, decide_True by done.
    split; [|done]. apply Hrec. rewrite Hpf in Hev. apply list_elem_of_fmap in Hev as (p & -> & Hp).
    apply list_elem_of_filter in Hp as [_ Hp]. apply list_elem_of_fmap. by exists p.
Qed.

Lemma computes_single_binding delta_join (b : AttributeBinding) vs :
  NoDup vs → vs ≠ [] → vs ⊆ pair_variables (ab_variables b) →
  (ab_variables b).1 ≠ (ab_variables b).2 → attribute_usable d (source_attribute b) →
  computes (Hector_implement delta_join d (mkHector vs [BAttribute b])) (list_to_set vs)
    (allowed (PHector (mkHector vs [BAttribute b])))
    (wmap (restrict vs) (wmap (pattern (ab_variables b).1 (ab_variables b).2)
                            (attribute_contents d (source_attribute b)))).
Proof.
  intros Hnd Hne Hsub Hev Hu. unfold Hector_implement. simpl.
  rewrite bool_decide_false by done. unfold Hector_implement_single_binding. simpl.
  set (a := source_attribute b).
  destruct (usable_import a ("Propose(" +:+ a +:+ ")") Hu) as (tr & pairs & -> & Hrun & [Hacc Hrec]).
  simpl. destruct (import_frontier tr _) as [c btn]. simpl in Hrun.
  destruct (ab_variables b) as [e v] eqn:Hab. simpl in *.
  assert (NoDup [e; v]) as Hnd2 by (apply NoDup_cons; split; [set_solver|apply NoDup_singleton]).
  edestruct (run_map_pure (single_binding_tuple (AttributeBinding_variables b) vs)
    (λ ev : Value * Value, project [e; v] vs [ev.1; ev.2]) c pairs Hrun)
    as (lm & Hlm & Hpm).
  2: { change (lm ≡ₚ wmap (λ ev : Value * Value, project [e; v] vs [ev.1; ev.2]) pairs) in Hpm.
       eapply computes_collection; [done|done|exact Hlm|..].
       - intros t. rewrite Hpm. intros (ev & -> & _)%elem_of_wmap. unfold project. by rewrite length_fmap.
       - apply wlist_equiv_perm in Hpm. rewrite Hpm. fold a. rewrite <- Hacc.
         rewrite !wmap_compose. erewrite wmap_ext; [done|]. intros ev _.
         unfold pattern. by rewrite assign_project.
       - intros x u Hx Hu'. cbn [may he_bindings]. fold a.
         assert (u ∈ column [e; v] (wmap (λ ev : Value * Value, [ev.1; ev.2]) pairs) x) as Hpair.
         { eapply column_wmap with (f := project [e; v] vs); [|intros t _; by apply env_project|exact Hu'].
           rewrite Hpm. by rewrite wmap_compose. }
         apply pair_column in Hpair as (ev & Hin & ->); [|by apply Hsub]. exists ev.
         rewrite ?Hab. split; [by apply Hrec|done]. }
  intros ev _. unfold project. apply mapM_outcome_pure. intros x Hx.
  unfold AttributeBinding_variables. rewrite Hab.
  destruct (env_lookup [e; v] [ev.1; ev.2] x) as (i & Hi & Ht); [by apply Hsub|done|].
  change (pair_variables (e, v)) with [e; v]. rewrite Hi. simpl. unfold index_pair.
  destruct i as [|[|i]]; simpl in Ht |- *; [by injection Ht as <-..|done].
Qed.
(** Transformations: every value a variable can have is transformed. *)
Lemma computes_transform implement self W :
  means implement (tr_plan self) W → list_to_set (tr_variables self) ⊆ bound (tr_plan self) →
  tr_result_variable self ∉ bound (tr_plan self) →
  (∀ σ : Var → Value, (∀ y, y ∈ tr_variables self → allowed (tr_plan self) y (σ y)) →
    is_Some (transform_value self σ)) →
  computes (Transform_implement implement d self) (bound (tr_plan self) ∪ {[tr_result_variable self]})
    (allowed (PTransform self)) (wmap (transformed self) W).
Proof.
  intros (rel & h & Hi & Hh & Hconf & _) Hxs Hres Hsome. pose proof Hh as (Hwf & Hvs & l & Hl & HW).
  set (vs := Implemented_variables rel) in *. set (r := tr_result_variable self) in *.
  set (f := λ t, default (VEid 0) (transform_value self (env vs t))).
  assert (tr_variables self ⊆ vs) as Hsub by set_solver.
  assert (r ∉ vs) as Hr by set_solver.
  assert (∀ t, t ∈ l.*1 → transform_value self (env vs t) = Some (f t)) as Hf.
  { intros t Ht. destruct (Hsome (env vs t)) as [v Hv]; [|unfold f; by rewrite Hv].
    intros y Hy. apply (Hconf l y); [done|by apply Hsub|]. apply elem_of_column. by exists t. }
  destruct (Transform_implements d implement self rel h l f Hi Hwf Hl Hsub Hf)
    as ([vars c] & h' & l' & Ht & Hv & Hrun & Hp). simpl in Hv, Hrun. subst vars. fold vs r in Hp, Ht.
  destruct Hwf as [Hnd Hlen]. fold vs in Hnd, Hlen.
  assert (bound (tr_plan self) ∪ {[r]} = list_to_set (vs ++ [r])) as -> by (rewrite <- Hvs; set_solver).
  eapply computes_collection; [exact Ht| |exact Hrun|..].
  - apply NoDup_app. split; [done|]. split; [set_solver|apply NoDup_singleton].
  - intros t. rewrite Hp. intros (t' & -> & Ht')%elem_of_wmap. rewrite !length_app. by rewrite (Hlen l t').
  - apply wlist_equiv_perm in Hp. rewrite Hp, <- HW, !wmap_compose. erewrite wmap_ext; [done|].
    intros t Hin. pose proof (Hlen l t Hl Hin) as Htl. simpl. rewrite assign_snoc by done.
    unfold transformed. fold r. f_equal. unfold f. f_equal. apply transform_value_ext.
    intros y _. symmetry. by apply env_value_of.
  - intros x v Hx. rewrite elem_of_column. intros (t' & Hin & ->). rewrite Hp in Hin.
    apply elem_of_wmap in Hin as (t & -> & Hin). rewrite env_app by (by apply (Hlen l)).
    cbn [may]. fold r. repeat case_decide; subst; try done.
    + exists (env vs t). rewrite env_cons, decide_True by done. split; [|by apply Hf].
      intros y Hy. apply (Hconf l y); [done|by apply Hsub|]. apply elem_of_column. by exists t.
    + apply (Hconf l x); [done..|]. apply elem_of_column. by exists t.
    + set_solver.
Qed.

Lemma sole_element (vs : list Var) a : NoDup vs → (∀ x, x ∈ vs ↔ x = a) → vs = [a].
Proof.
  intros Hnd Hvs. apply Permutation_singleton_r, NoDup_Permutation; [done|apply NoDup_singleton|].
  intros x. rewrite Hvs. set_solver.
Qed.

(** The values that the stage reduces are those of the groups of assignments. *)
Lemma aggregated_tuples fn a i vs ks w (l : wlist (list Value)) :
  NoDup vs → NoDup ks → ks ⊆ vs → a ∉ ks → i ≤ length ks → other_variables vs ks = [a] →
  (∀ t, t ∈ l.*1 → length t = length vs) →
  wmap (λ kv, assign (take i ks ++ a :: drop i ks)
                (take i kv.1 ++ default (VEid 0) (head kv.2) :: drop i kv.1))
    (reduced (λ _ vals, [([reduced_value fn vals], 1%Z)]) (wmap (prepared 0 w) (wmap (keyed vs ks) l)))
  ≡ aggregated fn a ks w (wmap (assign vs) l).
Proof.
  intros Hndv Hnd Hsub Ha Hi Hoth Hlen.
  set (kts := wmap (prepared 0 w) (wmap (keyed vs ks) l)) in *.
  assert (∀ kv, kv ∈ kts.*1 → length kv.1 = length ks) as Hkl.
  { intros kv (kt & -> & (t & -> & _)%elem_of_wmap)%elem_of_wmap. simpl. unfold project. by rewrite length_fmap. }
  set (g := λ vals : list (list Value * Z), [([reduced_value fn vals], 1%Z)]) in *.
  transitivity (wmap (joined_value a) (wmap (rename_key (assign ks)) (reduced (λ _, g) kts))).
  { rewrite wmap_compose. erewrite wmap_ext; [done|].
    intros [k v] ([|[v0 w0] vals] & Hne & Hin & _)%reduced_records; [done|].
    assert (length k = length ks) as Hlk by (apply (Hkl (k, v0)), Hin; csimpl; set_solver).
    simpl. by apply assign_insert. }
  unfold aggregated. apply (wmap_proper (joined_value a)).
  etransitivity; [apply reduced_rename; intros kv kv' Hkv Hkv'; apply assign_inj; auto|].
  apply reduced_equiv. unfold kts. rewrite !wmap_compose. erewrite wmap_ext; [done|].
  intros t Ht. pose proof (Hlen t Ht) as Htl. unfold rename_key, prepared, keyed, split_values. simpl.
  rewrite Hoth, assign_project, env_value_of by done. done.
Qed.

(** Aggregations by one function, of the only variable that is no key. *)
Lemma computes_aggregate implement self fn a i W :
  means implement (ag_plan self) W → keyable (ag_plan self) (ag_key_variables self) →
  ag_aggregation_fns self = [fn] → reducing fn = true → ag_aggregation_variables self = [a] →
  a ∉ ag_key_variables self → bound (ag_plan self) = {[a]} ∪ list_to_set (ag_key_variables self) →
  i ≤ length (ag_key_variables self) →
  ag_variables self = take i (ag_key_variables self) ++ a :: drop i (ag_key_variables self) →
  computes (Aggregate_implement implement d self) (list_to_set (ag_variables self)) (allowed (PAggregate self))
    (aggregated fn a (ag_key_variables self) (length (ag_with_variables self)) W).
Proof.
  intros Hm Hk Hfn Hred Hav Ha Hb Hi Hagv. pose proof Hk as (Hnd & _).
  destruct (means_input _ _ _ _ Hm Hk) as (rel & l & ([h Himp] & Hwf & Hl & Hsub & Href) & Hh & _).
  set (ks := ag_key_variables self) in *. set (w := length (ag_with_variables self)) in *.
  pose proof Hh as (_ & Hvs & l0 & Hl0 & HW). rewrite Hl in Hl0. injection Hl0 as <-.
  pose proof Hwf as [Hndv Hlen]. set (vs := Implemented_variables rel) in *.
  assert (other_variables vs ks = [a]) as Hoth.
  { apply sole_element; [by apply NoDup_filter|]. intros x. unfold other_variables.
    rewrite list_elem_of_filter, <- (elem_of_list_to_set (C := gset Var) x vs), Hvs, Hb. set_solver. }
  assert (ag_variables self ≡ₚ a :: ks) as Hperm by (by rewrite Hagv, <- Permutation_middle, take_drop).
  assert (NoDup (ag_variables self)) as Hnda by (rewrite Hperm; by apply NoDup_cons).
  assert (Vec_binds (ag_variables self) a = Some i) as Hpos.
  { apply Vec_binds_NoDup; [done|]. rewrite Hagv, lookup_app_r by (rewrite length_take; lia).
    rewrite length_take, Nat.min_l by done. by rewrite Nat.sub_diag. }
  pose proof (distinct_keys_accepted rel d ks Hnd Hsub Href) as Hacc.
  destruct (stage_single d (c_reduce (reduce_closure fn)) aggregate_collection implement self rel h l fn
    (reduced_value fn) a i)
    as ([vars c] & h' & l' & Hst & Hv & Hrun & Hlen' & groups & Hl' & Hgroups); try done;
    [by destruct fn|by apply reducing_aggregates|by fold vs ks; rewrite Hoth|].
  simpl in Hv, Hrun. subst vars. fold vs ks w in Hl', Hgroups, Hlen'.
  eapply computes_collection; [exact Hst|done|exact Hrun| | |done].
  { intros t Ht. rewrite Hperm. simpl. by apply Hlen'. }
  rewrite Hl', Hgroups, wmap_compose, Hagv, <- HW. apply aggregated_tuples; try done. intros t. by apply Hlen.
Qed.
End refinement.
