(* ===== verification/PlanSemantics.v ===== *)
(** * Plans compute their reference semantics

    The theorem of this file is a refinement: the dataflow a well-formed plan is
    implemented by computes the reference.  For queries of several bindings it is
    proved against an interface, [DeltaJoins], which the delta pipelines satisfy
    ([DeltaPlans]). *)
From Stdlib Require Import ZArith NArith Lia.
From stdpp Require Import base strings numbers sets gmap fin_maps list.
From S2P Require Import Prelude Timestamps Values Bindings HectorPlan Sessions Weighted.
From S2P Require Import Dataflow Domains Relations RelationTheorems Queries PlanOps JoinTheorems.
From S2P Require Import StageTheorems FilterTransform Aggregates Pulls Plans Assignments PlanReference PlanStages.

(** *** Queries *)
Section hector.
Context `{EV : ExternValues, DF : Differential, DJ : !DeltaJoinable}.
Context {T : Type} `{TR : !Traces T} {Rule : Type} (d : Domain T Rule).
Context (delta_join : Hector → outcome (Implemented * ShutdownHandle (Button (T := T)))).

Lemma Hector_implement_joined q rel h :
  DeltaJoins d delta_join → hector_ok d q → Hector_implement delta_join d q = Ret (rel, h) →
  Implemented_variables rel = he_variables q.
Proof.
  intros Hj Hok Hi. destruct q as [vs bindings]. unfold hector_ok, Hector_implement in *. simpl in *.
  destruct bindings as [|b [|b' bs]]; [done|..]; simpl in Hi; case_bool_decide; try done.
  - unfold Hector_implement_single_binding in Hi. simpl in Hi. destruct b as [b| | |]; [|done..].
    apply obind_Ret in Hi as (tr & _ & Hi). destruct (import_frontier tr _). by outcome_inv.
  - destruct Hok as (_ & _ & Hq). destruct (Hj _ Hq) as (c & h' & l & Hr & _).
    rewrite Hr in Hi. by outcome_inv.
Qed.

Lemma computes_hector q :
  DeltaJoins d delta_join → hector_ok d q →
  computes d (Hector_implement delta_join d q) (list_to_set (he_variables q))
    (may (attribute_contents d) (PHector q)) (hector_reference (attribute_contents d) q).
Proof.
  intros Hj Hok. destruct q as [vs bindings]. unfold hector_ok, hector_reference in *. simpl in *.
  destruct bindings as [|b [|b' bs]]; [done|..].
  - destruct b as [b| | |]; [|done..]. destruct Hok as (Hnd & Hne & Hsub & Hev & Hu).
    by apply computes_single_binding.
  - destruct Hok as (Hnd & Hne & Hq). destruct (Hj _ Hq) as (c & h & l & Hr & Hl & Hlen & Heq).
    unfold Hector_implement. simpl. rewrite bool_decide_false by done. rewrite Hr.
    assert (wmap (assign vs) l ≡ wmap (assign vs)
      (query_table (attribute_contents d) (mkHector vs (b :: b' :: bs)))) as Hw by (by rewrite Heq).
    eapply computes_collection; [done..|exact Hw|by destruct b].
Qed.
End hector.

(** ** The theorem *)
Section plan_refinement.
Context `{EV : ExternValues, DF : Differential, DJ : !DeltaJoinable}.
Context {T : Type} `{TR : !Traces T} {Rule : Type}.
Context (delta_join : Hector → outcome (Implemented * ShutdownHandle (Button (T := T)))).
Context (d : Domain T Rule) {Hjoins : DeltaJoins d delta_join}.
Context (local_arrangements : gmap Aid (Collection (list Value) Z)).
Context (named : RuleContents) (Hscope : in_scope named local_arrangements).

Lemma computes_means implement p c W :
  computes d c (bound p) (may (attribute_contents d) p) W → implement p = c → means d implement p W.
Proof. intros (rel & h & -> & Hh & Hconf) Hi. by exists (ICollection rel), h. Qed.

Lemma foldr_and {A} (Q : A → Prop) l : foldr (λ c rest, Q c ∧ rest) True l → ∀ c, c ∈ l → Q c.
Proof. induction l as [|x l IH]; [set_solver|]. simpl. intros [Hx Hl] c [->|Hc]%elem_of_cons; auto. Qed.

Lemma plan_means p :
  plan_ok d named p →
  means d (Plan_implement delta_join d local_arrangements) p (reference_in d named p).
Proof.
  induction p as [p IH] using Plan_children_ind. intros Hok.
  destruct p as [p|p|p|p|q|p|p|p|p|e a v|eid a v|e a mv|vs n|p|p|p|p]; try done.
  - destruct Hok as [Hc Hk]. eapply computes_means; [|done].
    apply (computes_project d _ p); [|done]. apply IH; [set_solver|done].
  - unfold plan_ok in Hok. fold (plan_ok d named) in Hok. unfold reference_in. cbn [reference].
    destruct (ag_aggregation_fns p) as [|fn [|? ?]] eqn:Hfn; try done.
    destruct (ag_aggregation_variables p) as [|a [|? ?]] eqn:Hav; try done.
    destruct Hok as (Hc & Hred & Hk & Ha & Hb & i & Hi & Hagv). eapply computes_means; [|done].
    apply (computes_aggregate d _ p fn a i); try done. apply IH; [set_solver|done].
  - destruct Hok as (Hnd & Hcs & Hpos). eapply computes_means; [|done].
    assert ((λ c, wmap (restrict (un_variables p)) (reference_in d named c)) <$> un_plans p =
      wmap (restrict (un_variables p)) <$> (reference_in d named <$> un_plans p)) as Heq
      by (by rewrite <- list_fmap_compose).
    unfold reference_in in *. cbn [reference]. rewrite Heq in *.
    apply (computes_union d _ p); [done| |exact Hpos].
    apply Forall2_fmap_r, Forall2_same_length_lookup_2; [done|]. intros i c c' Hi Hi'.
    simplify_eq. pose proof (foldr_and _ _ Hcs c) as [Hc Hk]; [by eapply list_elem_of_lookup_2|].
    split; [|done]. apply IH; [|done]. simpl. by eapply list_elem_of_lookup_2.
  - destruct Hok as (Hl & Hr & Hnd & Hne & Hks & Hj). eapply computes_means; [|done].
    apply (computes_join d _ p); try done; apply IH; try done; simpl; set_solver.
  - eapply computes_means; [|done]. by apply (computes_hector d delta_join q).
  - destruct Hok as (Hl & Hr & Hkl & Hkr & Hpl & Hpr). eapply computes_means; [|done].
    apply (computes_antijoin d _ p); try done; apply IH; try done; simpl; set_solver.
  - eapply computes_means; [|done]. apply (computes_negate d _ p). apply IH; [simpl; set_solver|done].
  - destruct Hok as (Hc & Hxs & Hops). eapply computes_means; [|done].
    apply (computes_filter d _ p); try done. apply IH; [simpl; set_solver|done].
  - destruct Hok as (Hc & Hxs & Hres & Hsome). eapply computes_means; [|done].
    apply (computes_transform d _ p); try done. apply IH; [simpl; set_solver|done].
  - destruct Hok as [Hev Hu]. eexists _, _. split; [done|].
    destruct (holds_match_a d e a v Hev Hu) as [Hh Hconf]. split; [done|]. split; [done|].
    by intros b [= <-].
  - eapply computes_means; [|done]. by apply (computes_match_pattern d a v).
  - eapply computes_means; [|done]. by apply (computes_match_pattern d a e).
  - destruct Hok as (Hnd & l & Hl). destruct (Hscope _ _ _ Hl) as (c & l' & Hn & Hc & Hll & Hlen).
    eapply computes_means; [|cbn [Plan_implement]; by rewrite Hn]. unfold reference_in. cbn [reference bound].
    unfold rule_contents. rewrite Hl. eapply computes_collection; [done..| |done]. by rewrite Hll.
Qed.

(** C1 (plans compute their reference semantics).  Let the collections of the
    rules in scope hold the rules' contents, and the delta join answer the
    queries it is required to (as the pipelines do: [DeltaPlans.pipelines_join]).
    A well-formed plan built from patterns, rule names, projection, union, joins,
    antijoins, negation, filters, transformations, aggregations by one of MIN, MAX,
    MEDIAN and COUNT, and such queries is implemented without a panic, by a dataflow
    that runs without a panic.  Its relation is well-formed, binds the plan's
    variables, and holds every assignment of them with the weight the reference
    evaluation gives it.  Antijoins are those whose inputs both bind the target
    variables; whether they bind the same variables otherwise, which the comment on
    the stage says it checks, makes no difference. *)
Theorem plan_implements_reference p :
  plan_ok d named p →
  ∃ rel h l, Plan_implement delta_join d local_arrangements p = Ret (rel, h) ∧
    relation_wf rel d ∧ list_to_set (Implemented_variables rel) = bound p ∧
    rel_run rel d = Ret l ∧
    ∀ m : Assignment, wt (wmap (assign (Implemented_variables rel)) l) m =
      wt (reference_in d named p) m.
Proof.
  intros Hok. destruct (plan_means p Hok) as (rel & h & Hi & (Hwf & Hv & l & Hl & HW) & _).
  by exists rel, h, l.
Qed.
End plan_refinement.
