(* ===== verification/DeltaPlans.v ===== *)
(** * Delta joins inside plans

    The delta pipelines as an implementation of the queries of a plan: they
    satisfy the interface the plans' semantics is proved against.  Streams and
    collections meet here: a collection is a stream observed at one time. *)
From Stdlib Require Import ZArith NArith Lia.
From stdpp Require Import base strings numbers sets gmap list.
From S2P Require Import Prelude Timestamps Values Bindings HectorPlan Sessions Weighted Streams.
From S2P Require Import LookupTheorems Dataflow Domains Relations RelationTheorems Queries.
From S2P Require Import Extenders DeltaJoin DeltaExtenders DeltaPipelines DeltaTheorems Plans.
From S2P Require Import Assignments PlanReference PlanStages PlanSemantics.
Local Open Scope Z_scope.

(** ** Observing streams

    The collections of the model are observed at a time [now], in a round of the
    scope of the rules' variables.  A stream leaves the pipelines as the
    collection it has accumulated to; an imported trace has the accumulated
    updates of its history. *)
Class Observed `{DF : Differential, TR : !Traces N}
    (updates : ∀ K V, Trace (T := N) K V → Stream N (K * V)) := {
  now : N;
  round : N;
  as_collection : ∀ {D} `{EqDecision D}, Stream (Product N N) D → Collection D Z;
  run_as_collection : ∀ {D} `{EqDecision D} (l : Stream (Product N N) D),
    ∃ l', run (as_collection l) = Ret l' ∧ accumulates l' (accumulate l (mkProduct now round));
  run_imported : ∀ {K V} `{EqDecision K, EqDecision V} (trace : Trace (T := N) K V) name l,
    run (import_frontier trace name).1 = Ret l → accumulates l (accumulate (updates _ _ trace) now)
}.

Section delta_plans.
Context `{EV : ExternValues, DF : Differential, TR : !Traces N} {Rule : Type}.
Context (updates : ∀ K V, Trace (T := N) K V → Stream N (K * V)) {OB : Observed updates}.
Abbreviation Implementation := (outcome (Implemented * ShutdownHandle (Button (T := N)))) (only parsing).

(** The relation of a delta join.  [unfinished] stands for a call that has found
    no order of the variables within the fuel. *)
Definition Hector_delta_join (fuel : nat) (unfinished : Implementation) (d : Domain N Rule)
    (self : Hector) : Implementation :=
  let! joined := delta_join updates fuel d self in
  match joined with
  | Some (out, shutdown_handle) =>
      Ret (ICollection (mkCollectionRelation (he_variables self) (as_collection out)), shutdown_handle)
  | None => unfinished
  end.

Context (fuel : nat) (unfinished : Implementation) (t0 : N) (d : Domain N Rule).
Context (mirrored : Aid → bool).

(** The history of an attribute, in its forward index. *)
Definition history_in (a : Aid) : Stream N (Value * Value) :=
  match Domain_forward_propose d a with Some tr => updates _ _ tr | None => [] end.

(** The attribute's collection does not panic. *)
Fixpoint binding_usable (b : Binding) : Prop :=
  match b with
  | BAttribute b => attribute_usable d (source_attribute b)
  | BNot b => binding_usable b
  | _ => True
  end.

(** The queries the pipelines answer. *)
#[export] Instance pipelines_joinable : DeltaJoinable := λ q,
  (∀ b, b ∈ he_bindings q → binding_wf updates d history_in mirrored b ∧ binding_usable b) ∧
  NoDup (he_variables q) ∧ query_ok mirrored fuel q = true ∧ settled history_in t0 q ∧ query_safe q = true.

Lemma attribute_indexed_ext h h' a :
  attribute_indexed updates d h mirrored a → h' a = h a → attribute_indexed updates d h' mirrored a.
Proof. intros [] Heq. split; rewrite Heq; done. Qed.

(** What a plan sees of an attribute is its history up to now. *)
Lemma contents_history a :
  attribute_usable d a → attribute_contents d a ≡ accumulate (history_in a) now.
Proof.
  intros [l Hl]. unfold attribute_contents, history_in. rewrite Hl. unfold import_propose in Hl.
  destruct (Domain_forward_propose d a) as [tr|]; [|done]. cbn [obind] in Hl.
  destruct (import_frontier tr a) as [c btn] eqn:Hc.
  apply (run_imported tr a). by rewrite Hc.
Qed.

Lemma binding_now b ρ :
  binding_usable b →
  satisfied history_in (Some now) ρ b = binding_holds (pair_present (attribute_contents d)) ρ b.
Proof.
  induction b as [b|b IH|b|b]; intros Hu; [|cbn; f_equal; by apply IH|done..].
  simpl. unfold contents, pair_present. by rewrite (contents_history (source_attribute b)).
Qed.

Lemma answer_now q ρ :
  (∀ b, b ∈ he_bindings q → binding_usable b) →
  answer history_in (Some now) ρ q = query_holds (attribute_contents d) ρ q.
Proof.
  intros Hu. unfold answer, query_holds. induction (he_bindings q) as [|b bs IH]; [done|]. simpl.
  rewrite binding_now by (apply Hu; set_solver). f_equal. apply IH. set_solver.
Qed.

(** The pipelines keep the promise of the interface. *)
#[export] Instance pipelines_join : DeltaJoins d (Hector_delta_join fuel unfinished d).
Proof.
  intros q (Hb & Hnd & Hok & Hset & Hsafe).
  assert (∀ b, b ∈ he_bindings q → binding_wf updates d history_in mirrored b) as Hwf by (intros b; apply Hb).
  assert (∀ b, b ∈ he_bindings q → binding_usable b) as Hu by (intros b; apply Hb).
  destruct (delta_join_changes updates d history_in mirrored fuel q t0 Hwf Hok Hset)
    as (out & h & l & Hrun & Hin & Hl & Hch).
  destruct (run_as_collection out) as (l' & Hl' & Hacc & Hsub).
  assert (∀ t, t ∈ l'.*1 → ∃ ρ, t = ρ <$> he_variables q) as Hrec.
  { intros t Ht. apply Hsub, accumulate_elem in Ht as [s Hs]. by eapply Hin. }
  exists (as_collection out), h, l'. unfold Hector_delta_join. rewrite Hrun. split; [done|].
  split; [done|]. split; [intros t [ρ ->]%Hrec; by rewrite length_fmap|].
  intros t. destruct (assigned_dec (he_variables q) t) as [[ρ ->]|Hno].
  - rewrite (Hacc _), Hl, query_table_assignment, <- answer_now by done.
    apply andb_true_iff in Hok as [Hattr _]. by apply (accumulated_answers history_in).
  - rewrite !wt_not_elem; [done|..].
    + intros Ht%query_table_lengths. apply (Hno (env (he_variables q) t)).
      by apply tuple_values.
    + intros [ρ ->]%Hrec. by apply (Hno ρ).
Qed.
End delta_plans.
