(* ===== verification/PlanRuns.v ===== *)
(** * Queries on concrete data

    A projection of a filtered join of a rule and an attribute, and an aggregation
    of a transformation, in the model of the dataflow interface. *)
From Stdlib Require Import ZArith NArith Lia.
From stdpp Require Import base strings numbers sets gmap fin_maps list.
From S2P Require Import Prelude Timestamps Values Bindings HectorPlan Sessions.
From S2P Require Import Weighted Dataflow Domains Relations RelationTheorems PlanOps FilterTransform Aggregates Plans.
From S2P Require Import Assignments PlanReference PlanStages PlanSemantics.

Section plan_runs.
#[local] Existing Instances extern_model diff_model trace_model timely_model.

Definition ages_domain : Domain N unit :=
  domain (collection_as_singleton_domain (T := N)
    (Ret [((VEid 1, VNumber 30), 1%Z); ((VEid 2, VNumber 12), 1%Z)]) [0%N] "age").

Definition person_rule : gmap Aid (outcome (wlist (list Value))) :=
  {[ "person" := Ret [([VEid 1; VString "Mabel"], 1%Z); ([VEid 2; VString "Dipper"], 1%Z)] ]}.

Definition person_contents : gmap Aid (nat * wlist (list Value)) :=
  {[ "person" := (2, [([VEid 1; VString "Mabel"], 1%Z); ([VEid 2; VString "Dipper"], 1%Z)]) ]}.

(** [?name ?age] of the persons older than 18. *)
Definition adults : Plan :=
  PProject (mkProject [2; 3]%N
    (PFilter (mkFilter [3%N] GT
      (PJoin (mkJoin [1%N] (PNameExpr [1; 2]%N "person") (PMatchA 1 "age" 3)))
      [None; Some (VNumber 18)]))).

Definition no_delta_join : Hector → outcome (Implemented * ShutdownHandle (Button (T := N))) :=
  λ _, Panic "not reached".

#[export] Instance no_joins : DeltaJoinable := λ _, False.
#[export] Instance no_delta_joins {Rule} (d : Domain N Rule) : DeltaJoins d no_delta_join.
Proof. by intros q []. Qed.

Lemma ages_usable : attribute_usable ages_domain "age".
Proof.
  exists [((VEid 1, VNumber 30), 1%Z); ((VEid 2, VNumber 12), 1%Z)]. vm_refl.
Qed.

Lemma person_in_scope : in_scope person_contents person_rule.
Proof.
  intros name k l. unfold person_contents. rewrite lookup_singleton_Some. intros [<- [= <- <-]].
  exists (Ret [([VEid 1; VString "Mabel"], 1%Z); ([VEid 2; VString "Dipper"], 1%Z)]).
  exists [([VEid 1; VString "Mabel"], 1%Z); ([VEid 2; VString "Dipper"], 1%Z)].
  split; [vm_refl|]. split; [vm_refl|]. split; [done|].
  intros t [->|[->|Ht]%elem_of_cons]%elem_of_cons; [done..|]. by apply not_elem_of_nil in Ht.
Qed.

Lemma NoDup_pair {A} (x y : A) : x ≠ y → NoDup [x; y].
Proof. intros Hxy. apply NoDup_cons. split; [set_solver|apply NoDup_singleton]. Qed.

Lemma adults_ok : plan_ok ages_domain person_contents adults.
Proof.
  unfold adults. cbn [plan_ok pj_plan fi_plan jn_left_plan jn_right_plan jn_variables pj_variables
       fi_variables bound].
  split_and!; try done.
  - by apply NoDup_pair.
  - exists [([VEid 1; VString "Mabel"], 1%Z); ([VEid 2; VString "Dipper"], 1%Z)]. vm_refl.
  - exact ages_usable.
  - apply NoDup_singleton.
  - set_solver.
  - split; [by apply NoDup_pair|]. split; [|done].
    cbn [bound fi_plan jn_left_plan jn_right_plan]. set_solver.
Qed.

Lemma adults_reference :
  wt (reference_in ages_domain person_contents adults)
     (assign [2; 3]%N [VString "Mabel"; VNumber 30]) = 1%Z.
Proof. vm_refl. Qed.

Lemma adults_implemented :
  ∃ rel h l, Plan_implement no_delta_join ages_domain person_rule adults = Ret (rel, h) ∧
    rel_run rel ages_domain = Ret l ∧
    wt (wmap (assign (Implemented_variables rel)) l)
       (assign [2; 3]%N [VString "Mabel"; VNumber 30]) = 1%Z.
Proof.
  destruct (plan_means no_delta_join ages_domain person_rule person_contents person_in_scope adults adults_ok)
    as (rel & h & Hi & (_ & _ & l & Hl & HW) & _).
  exists rel, h, l. split; [exact Hi|]. split; [exact Hl|]. rewrite (HW _). exact adults_reference.
Qed.

(** The persons without a known age: the sources of the antijoin are not
    union-compatible, which the comment on the stage says it refuses. *)
Definition ageless : Plan :=
  PAntijoin (mkAntijoin [1%N] (PNameExpr [1; 2]%N "person")
    (PProject (mkProject [1%N] (PMatchA 1 "age" 3)))).
Example sources_not_compatible :
  (let! '(rel, _) := Plan_implement no_delta_join ages_domain person_rule ageless in
   let! l := rel_run rel ages_domain in
   Ret (Implemented_variables rel, wt l [VEid 1; VString "Mabel"])) = Ret ([1; 2]%N, 0%Z).
Proof. vm_refl. Qed.

(** The largest age next year, [?next]: an aggregation of a transformation. *)
Definition oldest_next_year : Plan :=
  PAggregate (mkAggregate [4%N]
    (PProject (mkProject [4%N]
      (PTransform (mkTransform [3%N] 4%N (PMatchA 1 "age" 3) ADD [Some (VNumber 1)]))))
    [MAX] [] [4%N] []).

Lemma age_contents ev : ev ∈ (attribute_contents ages_domain "age").*1 → ∃ z, ev.2 = VNumber z.
Proof.
  assert (attribute_contents ages_domain "age" =
    [((VEid 1, VNumber 30), 1%Z); ((VEid 2, VNumber 12), 1%Z)]) as -> by vm_refl.
  intros [->|[->|Hev]%elem_of_cons]%elem_of_cons; [by eexists..|by apply not_elem_of_nil in Hev].
Qed.

Lemma oldest_ok : plan_ok ages_domain person_contents oldest_next_year.
Proof.
  unfold oldest_next_year. cbn [plan_ok ag_aggregation_fns ag_aggregation_variables ag_plan ag_key_variables
    ag_variables pj_plan pj_variables tr_plan tr_variables tr_result_variable bound].
  split_and!; try done.
  - exact ages_usable.
  - set_solver.
  - intros σ Hσ. destruct (Hσ 3%N) as (ev & Hev & Hv); [set_solver|].
    apply age_contents in Hev as [z Hz]. simpl in Hv. rewrite Hz in Hv.
    unfold transform_value. cbn. rewrite Hv. by eexists.
  - split; [apply NoDup_singleton|]. split; [|done]. cbn [bound tr_plan]. set_solver.
  - split; [apply NoDup_nil_2|]. split; [|done]. set_solver.
  - set_solver.
  - by exists 0.
Qed.

Lemma oldest_implemented :
  ∃ rel h l, Plan_implement no_delta_join ages_domain person_rule oldest_next_year = Ret (rel, h) ∧
    rel_run rel ages_domain = Ret l ∧
    wt (wmap (assign (Implemented_variables rel)) l) (assign [4%N] [VNumber 31]) = 1%Z.
Proof.
  destruct (plan_means no_delta_join ages_domain person_rule person_contents person_in_scope oldest_next_year
    oldest_ok) as (rel & h & Hi & (_ & _ & l & Hl & HW) & _).
  exists rel, h, l. split; [exact Hi|]. split; [exact Hl|]. rewrite (HW _). vm_refl.
Qed.
End plan_runs.
