(* ===== verification/Rules.v ===== *)
(** * Rules (src/src/lib.rs, lines 455 to 472 and 877 to 1127)

    A rule names a plan.  [collect_dependencies] gathers the rules a query needs,
    breadth first; [implement] gives every one of them a recursive variable in an
    iterative scope and defines the variables by the rules' plans.

    A collection of the iterative scope is a sequence of collections, one for
    each round: a variable is empty in the first round and holds, in the next,
    what it was set to in the current one.  A relation that leaves the scope is
    the limit of its rounds.  Hash sets are iterated in an arbitrary order.  The
    crate's feature [set-semantics], off by default, is the argument
    [set_semantics]. *)
From Stdlib Require Import ZArith NArith Lia.
From stdpp Require Import base strings numbers sets gmap fin_maps list.
From S2P Require Import Prelude Timestamps Values Bindings HectorPlan Sessions Weighted.
From S2P Require Import Dataflow Domains Relations PlanOps Plans.

(** The order in which a hash set is iterated. *)
Class SetIteration := {
  set_iter : gset Aid → list Aid;
  set_iter_perm s : set_iter s ≡ₚ elements s
}.
Definition set_iteration_model : SetIteration := {| set_iter := elements; set_iter_perm _ := Permutation_refl _ |}.

Section rules.
Context `{EV : ExternValues, DF : Differential, SI : SetIteration}.
Context {T : Type} `{DT : DefaultT T, TR : !Traces T}.

Record Rule := mkRule { r_name : Aid; r_plan : Plan }.
Definition Rule_named (name : Aid) (plan : Plan) : Rule := mkRule name plan.

Abbreviation Dom := (Domain T Rule) (only parsing).
Abbreviation Tuples := (Collection (list Value) Z) (only parsing).
Abbreviation Handle := (ShutdownHandle (Button (T := T))) (only parsing).
Abbreviation Implementation := (outcome (Implemented * Handle)) (only parsing).
Abbreviation VariableMap := (gmap Aid (Collection (list Value) Z)) (only parsing).

(** ** [collect_dependencies] *)

Fixpoint enqueue_names (d : Dom) (names : list Aid) (seen : gset Aid) (queue : list Rule)
    : Result (gset Aid * list Rule) Error :=
  match names with
  | [] => Ok (seen, queue)
  | name :: names =>
      match Domain_rule d name with
      | None => Err (Error_not_found ("Unknown rule " +:+ name +:+ "."))
      | Some rule => enqueue_names d names ({[name]} ∪ seen) (queue ++ [rule])
      end
  end.

Fixpoint enqueue_dependencies (d : Dom) (names : list Aid) (seen : gset Aid) (queue : list Rule)
    : Result (gset Aid * list Rule) Error :=
  match names with
  | [] => Ok (seen, queue)
  | dep_name :: names =>
      if bool_decide (dep_name ∈ seen) then enqueue_dependencies d names seen queue
      else match Domain_rule d dep_name with
           | None => Err (Error_not_found ("Unknown rule " +:+ dep_name))
           | Some rule => enqueue_dependencies d names ({[dep_name]} ∪ seen) (queue ++ [rule])
           end
  end.

Definition check_attributes (d : Dom) (aids : list Aid) : Result unit Error :=
  match filter (λ aid, Domain_has_attribute d aid = false) aids with
  | [] => Ok tt
  | aid :: _ => Err (Error_not_found ("Rule " +:+ debug aid +:+ " depends on unknown attribute"))
  end.

(** The [while] loop, for at most [fuel] rules. *)
Fixpoint collect_loop (fuel : nat) (d : Dom) (seen : gset Aid) (queue rules : list Rule)
    : outcome (Result (list Rule) Error) :=
  match queue with
  | [] => Ret (Ok rules)
  | next :: queue =>
      match fuel with
      | 0 => Panic "collect_dependencies does not terminate"
      | S fuel =>
          let dependencies := Plan_dependencies (r_plan next) in
          match enqueue_dependencies d (set_iter (names dependencies)) seen queue with
          | Err e => Ret (Err e)
          | Ok (seen, queue) =>
              match check_attributes d (set_iter (dep_attributes dependencies)) with
              | Err e => Ret (Err e)
              | Ok _ => collect_loop fuel d seen queue (rules ++ [next])
              end
          end
      end
  end.

Definition collect_dependencies (d : Dom) (names : list Aid) : outcome (Result (list Rule) Error) :=
  match enqueue_names d names ∅ [] with
  | Err e => Ret (Err e)
  | Ok (seen, queue) => collect_loop (length names + size (rules d)) d seen queue []
  end.

(** ** The steps of [implement] *)

Definition rule_le (x y : Rule) : bool := cmp_le (r_name x) (r_name y).

(** [for index in 1..rules.len() - 1]. *)
Definition duplicate_definition (rules : list Rule) : option Aid :=
  head (omap (λ index,
    match rules !! index, rules !! (index - 1) with
    | Some x, Some y => if bool_decide (r_name x = r_name y) then Some (r_name x) else None
    | _, _ => None
    end) (seq 1 (length rules - 2))).

(** Step 0. *)
Definition canonical_rules (name : Aid) (rules : list Rule) : Result (list Rule) Error :=
  if bool_decide (rules = [])
  then Err (Error_not_found ("Couldn't find any rules for name " +:+ name +:+ "."))
  else
    let rules := sort_by rule_le rules in
    match duplicate_definition rules with
    | Some n => Err (Error_conflict ("Duplicate rule definitions for rule " +:+ n))
    | None => Ok rules
    end.

(** Step 1: a new variable is empty in the first round. *)
Definition new_variables (names : list Aid) : VariableMap :=
  list_to_map ((λ name, (name, c_concatenate [])) <$> names).

(** Step 3. *)
Fixpoint plan_executions (implement : Plan → Implementation) (plans : list Plan)
    (shutdown_handle : Handle) : outcome (list Implemented * Handle) :=
  match plans with
  | [] => Ret ([], shutdown_handle)
  | plan :: plans =>
      let! '(relation, shutdown) := implement plan in
      let! '(executions, shutdown_handle) :=
        plan_executions implement plans (ShutdownHandle_merge_with shutdown_handle shutdown) in
      Ret (relation :: executions, shutdown_handle)
  end.

Definition settle (set_semantics : bool) (tuples : Tuples) : Tuples :=
  if set_semantics then c_distinct tuples else c_consolidate tuples.

(** Step 4: what the variables are set to, in the order of the rules. *)
Fixpoint complete_rules (set_semantics : bool) (d : Dom) (completed : list (Aid * Implemented))
    (local_arrangements definitions : VariableMap) (shutdown_handle : Handle)
    : outcome (Result (VariableMap * Handle) Error) :=
  match completed with
  | [] => Ret (Ok (definitions, shutdown_handle))
  | (name, execution) :: completed =>
      match local_arrangements !! name with
      | None => Ret (Err (Error_not_found
                  ("Rule " +:+ debug name +:+ " should be in local arrangements, but isn't.")))
      | Some _ =>
          let! '(tuples, shutdown) := Implemented_tuples execution d in
          complete_rules set_semantics d completed (delete name local_arrangements)
            (<[name := settle set_semantics tuples]> definitions)
            (ShutdownHandle_merge_with shutdown_handle shutdown)
      end
  end.

(** Steps 3 and 4 on the variables of one round. *)
Definition define_rules (set_semantics : bool) (delta_join : Hector → Implementation) (d : Dom)
    (rules : list (Aid * Plan)) (local_arrangements : VariableMap)
    : outcome (Result (VariableMap * Handle) Error) :=
  let! '(executions, shutdown_handle) :=
    plan_executions (Plan_implement delta_join d local_arrangements) rules.*2 ShutdownHandle_empty in
  complete_rules set_semantics d (zip rules.*1 executions) local_arrangements ∅ shutdown_handle.

(** The contents of the variables in a round. *)
Fixpoint variables_at (set_semantics : bool) (delta_join : Hector → Implementation) (d : Dom)
    (rules : list (Aid * Plan)) (variables : VariableMap) (round : nat) : VariableMap :=
  match round with
  | 0 => variables
  | S round =>
      let variables := variables_at set_semantics delta_join d rules variables round in
      match define_rules set_semantics delta_join d rules variables with
      | Ret (Ok (definitions, _)) => definitions
      | _ => variables
      end
  end.

(** A relation that left the iterative scope: its contents, round by round. *)
Definition Left : Type := nat → option Tuples.

Definition implement (set_semantics : bool) (delta_join : Hector → Implementation) (d : Dom) (name : Aid)
    : outcome (Result (gmap Aid Left * Handle) Error) :=
  let! collected := collect_dependencies d [name] in
  match collected with
  | Err e => Ret (Err e)
  | Ok rules =>
      match canonical_rules name rules with
      | Err e => Ret (Err e)
      | Ok rules =>
          let plans := (λ rule, (r_name rule, r_plan rule)) <$> rules in
          let local_arrangements := new_variables (r_name <$> rules) in
          match local_arrangements !! name with
          | None => Ret (Err (Error_not_found
                      ("Attempted to publish undefined name " +:+ name +:+ ".")))
          | Some _ =>
              let result_map := {[ name := λ round,
                variables_at set_semantics delta_join d plans local_arrangements round !! name ]} in
              let! completed := define_rules set_semantics delta_join d plans local_arrangements in
              match completed with
              | Err e => Ret (Err e)
              | Ok (_, shutdown_handle) => Ret (Ok (result_map, shutdown_handle))
              end
          end
      end
  end.

(** ** [implement_neu]: every plan is rewritten to a Hector plan *)

(** Step 3; the rewritten plans are returned with their implementations. *)
Fixpoint neu_executions (implement : Plan → Implementation) (rules : list Rule)
    (shutdown_handle : Handle) (sym : N)
    : outcome (list (Aid * Plan) * list Implemented * Handle * N) :=
  match rules with
  | [] => Ret ([], [], shutdown_handle, sym)
  | rule :: rules =>
      let! variables := Plan_variables (r_plan rule) in
      let! '(bindings, sym) := Plan_into_bindings (r_plan rule) sym in
      let plan := q variables bindings in
      let! '(relation, shutdown) := implement plan in
      let! '(plans, executions, shutdown_handle, sym) :=
        neu_executions implement rules (ShutdownHandle_merge_with shutdown_handle shutdown) sym in
      Ret ((r_name rule, plan) :: plans, relation :: executions, shutdown_handle, sym)
  end.

Definition implement_neu (set_semantics : bool) (delta_join : Hector → Implementation) (d : Dom) (name : Aid) (sym : N)
    : outcome (Result (gmap Aid Left * Handle) Error * N) :=
  let! collected := collect_dependencies d [name] in
  match collected with
  | Err e => Ret (Err e, sym)
  | Ok rules =>
      match canonical_rules name rules with
      | Err e => Ret (Err e, sym)
      | Ok rules =>
          let local_arrangements := new_variables [name] in
          match local_arrangements !! name with
          | None => Ret (Err (Error_not_found
                      ("Attempted to publish undefined name " +:+ name +:+ ".")), sym)
          | Some _ =>
              let! '(plans, executions, shutdown_handle, sym) :=
                neu_executions (Plan_implement delta_join d local_arrangements) rules
                  ShutdownHandle_empty sym in
              let result_map := {[ name := λ round,
                variables_at set_semantics delta_join d plans local_arrangements round !! name ]} in
              let! completed :=
                complete_rules set_semantics d (zip (r_name <$> rules) executions) local_arrangements ∅
                  shutdown_handle in
              match completed with
              | Err e => Ret (Err e, sym)
              | Ok (_, shutdown_handle) => Ret (Ok (result_map, shutdown_handle), sym)
              end
          end
      end
  end.
End rules.
Arguments Rule {_}.
Arguments Left {_ _}.
