(* ===== verification/RuleTheorems.v ===== *)
(** * Collecting the rules of a query

    [collect_dependencies] terminates and returns the rules reachable from the
    requested names; [implement_neu] only succeeds for rules without
    dependencies. *)
From Stdlib Require Import ZArith NArith Lia.
From stdpp Require Import base strings numbers sets gmap fin_maps list.
From S2P Require Import Prelude Timestamps Values Bindings HectorPlan Sessions Weighted.
From S2P Require Import Dataflow Domains Relations PlanOps Plans Rules.

Section collect.
Context `{EV : ExternValues, DF : Differential, SI : SetIteration}.
Context {T : Type} `{TR : !Traces T}.
Context (d : Domain T Rule).
Implicit Types (r : Rule) (n : Aid) (queue collected : list Rule) (seen : gset Aid).

(** Every rule is registered under its name. *)
Definition rules_named : Prop := ∀ n r, rules d !! n = Some r → r_name r = n.

(** The names a query for [roots] needs. *)
Inductive needed (roots : list Aid) : Aid → Prop :=
| needed_root n : n ∈ roots → needed roots n
| needed_dependency n r n' :
    needed roots n → rules d !! n = Some r → n' ∈ names (Plan_dependencies (r_plan r)) →
    needed roots n'.

(** What makes a needed name impossible to implement. *)
Definition unavailable n : Prop :=
  rules d !! n = None ∨
  ∃ r a, rules d !! n = Some r ∧ a ∈ dep_attributes (Plan_dependencies (r_plan r)) ∧
    Domain_has_attribute d a = false.

Lemma elem_of_set_iter s n : n ∈ set_iter s ↔ n ∈ s.
Proof. rewrite set_iter_perm. apply elem_of_elements. Qed.

(** New entries of the queue. *)
Record fresh_rules (wanted : list Aid) seen seen' (new : list Rule) : Prop := {
  fresh_seen : seen' = seen ∪ list_to_set (r_name <$> new);
  fresh_NoDup : NoDup (r_name <$> new);
  fresh_unseen : ∀ r, r ∈ new → r_name r ∉ seen;
  fresh_rule : ∀ r, r ∈ new → rules d !! r_name r = Some r ∧ r_name r ∈ wanted;
  fresh_complete : ∀ n, n ∈ wanted → n ∈ seen'
}.

Lemma enqueue_dependencies_spec wanted seen queue :
  rules_named →
  match enqueue_dependencies d wanted seen queue with
  | Ok (seen', queue') => ∃ new, queue' = queue ++ new ∧ fresh_rules wanted seen seen' new
  | Err e => category e = "df.error.category/not-found" ∧ ∃ n, n ∈ wanted ∧ rules d !! n = None
  end.
Proof.
  intros Hnamed. revert seen queue. induction wanted as [|n wanted IH]; intros seen queue; simpl.
  { exists []. rewrite app_nil_r. split; [done|]. split; set_solver by (try apply NoDup_nil_2). }
  case_bool_decide as Hseen.
  { specialize (IH seen queue). destruct (enqueue_dependencies _ _ _ _) as [[seen' queue']|e].
    - destruct IH as (new & Hq & []). exists new. split; [done|]. split; set_solver.
    - set_solver. }
  unfold Domain_rule. destruct (rules d !! n) as [r|] eqn:Hr; [|set_solver].
  pose proof (Hnamed n r Hr) as Hn. specialize (IH ({[n]} ∪ seen) (queue ++ [r])).
  destruct (enqueue_dependencies _ _ _ _) as [[seen' queue']|e]; [|set_solver].
  destruct IH as (new & -> & [Hs Hnd Hun Hru Hc]). exists (r :: new). rewrite <- app_assoc. split; [done|].
  split; csimpl.
  - rewrite Hs, Hn. set_solver.
  - apply NoDup_cons. split; [|done]. intros (r' & Hr' & Hin)%list_elem_of_fmap.
    apply (Hun r' Hin). rewrite <- Hr', Hn. set_solver.
  - intros r' [->|Hin]%elem_of_cons; [by rewrite Hn|]. apply Hun in Hin. set_solver.
  - intros r' [->|Hin]%elem_of_cons; [rewrite Hn; set_solver|]. apply Hru in Hin. set_solver.
  - intros n' [->|Hin]%elem_of_cons; [rewrite Hs; set_solver|by apply Hc].
Qed.

Lemma enqueue_names_spec wanted seen queue :
  rules_named →
  match enqueue_names d wanted seen queue with
  | Ok (seen', queue') => ∃ new, queue' = queue ++ new ∧ r_name <$> new = wanted ∧
      (∀ r, r ∈ new → rules d !! r_name r = Some r) ∧ seen' = seen ∪ list_to_set wanted
  | Err e => category e = "df.error.category/not-found" ∧ ∃ n, n ∈ wanted ∧ rules d !! n = None
  end.
Proof.
  intros Hnamed. revert seen queue. induction wanted as [|n wanted IH]; intros seen queue; simpl.
  { exists []. rewrite app_nil_r. split_and!; try done; set_solver. }
  unfold Domain_rule. destruct (rules d !! n) as [r|] eqn:Hr; [|set_solver].
  pose proof (Hnamed n r Hr) as Hn. specialize (IH ({[n]} ∪ seen) (queue ++ [r])).
  destruct (enqueue_names _ _ _ _) as [[seen' queue']|e]; [|set_solver].
  destruct IH as (new & -> & Hnew & Hru & ->). exists (r :: new). rewrite <- app_assoc.
  split; [done|]. split; [csimpl; by rewrite Hn, Hnew|]. split; [|set_solver].
  intros r' [->|Hin]%elem_of_cons; [by rewrite Hn|by apply Hru].
Qed.

Lemma check_attributes_spec aids :
  match check_attributes d aids with
  | Ok _ => ∀ a, a ∈ aids → Domain_has_attribute d a = true
  | Err e => category e = "df.error.category/not-found" ∧
      ∃ a, a ∈ aids ∧ Domain_has_attribute d a = false
  end.
Proof.
  unfold check_attributes. destruct (filter _ aids) as [|a l] eqn:Hf.
  - intros a Ha. destruct (Domain_has_attribute d a) eqn:E; [done|].
    assert (a ∈ filter (λ a, Domain_has_attribute d a = false) aids) as Hin
      by (by apply list_elem_of_filter). rewrite Hf in Hin. set_solver.
  - split; [done|]. exists a. assert (a ∈ a :: l) as Hin by set_solver. rewrite <- Hf in Hin.
    apply list_elem_of_filter in Hin. tauto.
Qed.

(** The invariant of the loop: [seen] are the names of the rules collected or
    queued; they are needed, and the collected rules' dependencies are seen. *)
Record collecting (roots : list Aid) seen queue collected : Prop := {
  coll_seen : ∀ n, n ∈ seen ↔ n ∈ r_name <$> (collected ++ queue);
  coll_needed : ∀ n, n ∈ seen → needed roots n;
  coll_roots : ∀ n, n ∈ roots → n ∈ seen;
  coll_rule : ∀ r, r ∈ collected ++ queue → rules d !! r_name r = Some r;
  coll_closed : ∀ r, r ∈ collected →
    (∀ n, n ∈ names (Plan_dependencies (r_plan r)) → n ∈ seen) ∧
    (∀ a, a ∈ dep_attributes (Plan_dependencies (r_plan r)) → Domain_has_attribute d a = true);
  coll_NoDup : NoDup roots → NoDup (r_name <$> (collected ++ queue))
}.

Lemma fresh_rules_size wanted seen seen' new :
  fresh_rules wanted seen seen' new →
  length new + size (dom (rules d) ∖ seen') ≤ size (dom (rules d) ∖ seen).
Proof.
  intros [-> Hnd Hun Hru _].
  assert (list_to_set (r_name <$> new) ⊆ dom (rules d) ∖ seen) as Hsub.
  { intros n. rewrite elem_of_list_to_set. intros (r & -> & Hr)%list_elem_of_fmap.
    apply elem_of_difference. split; [|by apply Hun]. apply elem_of_dom. exists r. by apply Hru. }
  assert (dom (rules d) ∖ (seen ∪ list_to_set (r_name <$> new)) =
    (dom (rules d) ∖ seen) ∖ list_to_set (r_name <$> new)) as -> by set_solver.
  rewrite size_difference by done. pose proof (subseteq_size _ _ Hsub) as Hle.
  rewrite size_list_to_set, length_fmap in * by done. lia.
Qed.

Lemma collecting_step roots seen seen' next queue collected new :
  collecting roots seen (next :: queue) collected →
  fresh_rules (set_iter (names (Plan_dependencies (r_plan next)))) seen seen' new →
  (∀ a, a ∈ dep_attributes (Plan_dependencies (r_plan next)) → Domain_has_attribute d a = true) →
  collecting roots seen' (queue ++ new) (collected ++ [next]).
Proof.
  intros [Hs Hneed Hro Hru Hcl Hnd] [Hs' Hnd' Hun Hru' Hc] Ha.
  assert ((collected ++ [next]) ++ queue ++ new = (collected ++ next :: queue) ++ new) as Heq
    by (by rewrite <- !app_assoc).
  assert (rules d !! r_name next = Some next) as Hnext by (apply Hru; set_solver).
  split; rewrite ?Heq.
  - intros n. rewrite Hs', fmap_app, elem_of_app, elem_of_union, Hs, elem_of_list_to_set. done.
  - intros n. rewrite Hs', elem_of_union, elem_of_list_to_set.
    intros [Hn|(r & -> & Hr)%list_elem_of_fmap]; [by apply Hneed|].
    apply (needed_dependency _ (r_name next) next); [|done|].
    + apply Hneed, Hs. apply list_elem_of_fmap. exists next. set_solver.
    + apply elem_of_set_iter. by apply Hru'.
  - intros n Hn. rewrite Hs'. apply Hro in Hn. set_solver.
  - intros r [Hr|Hr]%elem_of_app; [by apply Hru|by apply Hru'].
  - intros r [Hr|Hr%list_elem_of_singleton]%elem_of_app.
    + destruct (Hcl r Hr) as [Hn Hat]. split; [|done]. intros n Hin. apply Hn in Hin. set_solver.
    + subst r. split; [|done]. intros n Hn. apply Hc. by apply elem_of_set_iter.
  - intros Hroots. rewrite fmap_app. apply NoDup_app. split; [by apply Hnd|]. split; [|done].
    intros n Hn (r & -> & Hr)%list_elem_of_fmap. apply (Hun r Hr). by apply Hs.
Qed.

Lemma collect_loop_spec roots fuel seen queue collected :
  rules_named → collecting roots seen queue collected →
  length queue + size (dom (rules d) ∖ seen) ≤ fuel →
  match collect_loop fuel d seen queue collected with
  | Ret (Ok all) => ∃ seen', collecting roots seen' [] all
  | Ret (Err e) => category e = "df.error.category/not-found" ∧ ∃ n, needed roots n ∧ unavailable n
  | Panic _ => False
  end.
Proof.
  intros Hnamed. revert seen queue collected.
  induction fuel as [|fuel IH]; intros seen [|next queue] collected Hinv Hfuel; simpl in *;
    [by exists seen|lia|by exists seen|].
  assert (needed roots (r_name next)) as Hneed.
  { eapply coll_needed; [done|]. eapply coll_seen; [done|]. apply list_elem_of_fmap. exists next. set_solver. }
  assert (rules d !! r_name next = Some next) as Hnext by (eapply coll_rule; [done|set_solver]).
  pose proof (enqueue_dependencies_spec (set_iter (names (Plan_dependencies (r_plan next)))) seen queue
    Hnamed) as Hdeps.
  destruct (enqueue_dependencies _ _ _ _) as [[seen' queue']|e].
  2: { destruct Hdeps as (He & n & Hn & Hnone). split; [done|]. exists n. split; [|by left].
       eapply needed_dependency; [done..|]. by apply elem_of_set_iter. }
  destruct Hdeps as (new & -> & Hfresh).
  pose proof (check_attributes_spec (set_iter (dep_attributes (Plan_dependencies (r_plan next))))) as Ha.
  destruct (check_attributes _ _) as [[]|e].
  2: { destruct Ha as (He & a & Hin & Hno). split; [done|]. exists (r_name next). split; [done|]. right.
       exists next, a. split; [done|]. split; [by apply elem_of_set_iter|done]. }
  apply IH.
  - apply (collecting_step _ seen); [done..|]. intros a Hin. apply Ha. by apply elem_of_set_iter.
  - apply fresh_rules_size in Hfresh. rewrite length_app. lia.
Qed.

Lemma collecting_start roots new :
  r_name <$> new = roots → (∀ r, r ∈ new → rules d !! r_name r = Some r) →
  collecting roots (∅ ∪ list_to_set roots) new [].
Proof.
  intros Hnew Hru. split; simpl; rewrite ?Hnew; try done.
  - set_solver.
  - intros n Hn. apply needed_root. set_solver.
  - set_solver.
  - intros r Hr. by apply not_elem_of_nil in Hr.
Qed.

Lemma collecting_done roots seen all :
  collecting roots seen [] all →
  (∀ n, n ∈ r_name <$> all ↔ needed roots n) ∧
  (∀ r, r ∈ all → rules d !! r_name r = Some r) ∧
  (∀ n, needed roots n → ~ unavailable n) ∧ (NoDup roots → NoDup (r_name <$> all)).
Proof.
  intros [Hs Hneed Hro Hru Hcl Hnd]. rewrite app_nil_r in *.
  assert (∀ n, needed roots n → ∃ r, n = r_name r ∧ r ∈ all) as Hall.
  { induction 1 as [n Hn|n r n' _ (r' & -> & Hin) Hr Hn'].
    - by apply Hro, Hs, list_elem_of_fmap in Hn.
    - rewrite Hru in Hr by done. injection Hr as <-. apply (Hcl r' Hin) in Hn'.
      by apply Hs, list_elem_of_fmap in Hn'. }
  split_and!; [|done| |done].
  - intros n. split; [intros Hn; by apply Hneed, Hs|]. intros Hn. by apply list_elem_of_fmap, Hall.
  - intros n (r & -> & Hin)%Hall [Hnone|(r' & a & Hr' & Ha & Hno)]; rewrite Hru in * by done; [done|].
    injection Hr' as <-. apply (Hcl r Hin) in Ha. congruence.
Qed.

Lemma collect_spec roots :
  rules_named →
  match collect_dependencies d roots with
  | Ret (Ok all) => ∃ seen, collecting roots seen [] all
  | Ret (Err e) => category e = "df.error.category/not-found" ∧ ∃ n, needed roots n ∧ unavailable n
  | Panic _ => False
  end.
Proof.
  intros Hnamed. unfold collect_dependencies.
  pose proof (enqueue_names_spec roots ∅ [] Hnamed) as Hq.
  destruct (enqueue_names _ _ _ _) as [[seen queue]|e].
  2: { destruct Hq as (He & n & Hn & Hnone). split; [done|]. exists n. split; [by apply needed_root|by left]. }
  destruct Hq as (new & -> & Hnew & Hru & ->). simpl.
  apply collect_loop_spec; [done|by apply collecting_start|].
  rewrite <- Hnew, length_fmap. apply Nat.add_le_mono_l.
  rewrite <- size_dom. apply subseteq_size. set_solver.
Qed.

(** C21 (the rules a query needs).  When every rule is registered under its name,
    [collect_dependencies] terminates.  It fails, with a not-found error, only if
    some name reachable from the requested ones through the plans' dependencies
    is not a rule, or is a rule that reads an unknown attribute.  Otherwise it
    returns the registered rules of exactly the reachable names, and each of them
    once if the requested names are distinct. *)
Theorem collect_dependencies_spec roots :
  rules_named →
  ∃ result, collect_dependencies d roots = Ret result ∧
    match result with
    | Ok all =>
        (∀ n, n ∈ r_name <$> all ↔ needed roots n) ∧
        (∀ r, r ∈ all → rules d !! r_name r = Some r) ∧
        (∀ n, needed roots n → ~ unavailable n) ∧
        (NoDup roots → NoDup (r_name <$> all))
    | Err e =>
        category e = "df.error.category/not-found" ∧ ∃ n, needed roots n ∧ unavailable n
    end.
Proof.
  intros Hnamed. pose proof (collect_spec roots Hnamed) as Hc.
  destruct (collect_dependencies d roots) as [[all|e]|]; [|by exists (Err e)|done].
  exists (Ok all). split; [done|]. destruct Hc as [seen Hc]. by apply (collecting_done roots seen).
Qed.
End collect.

(** ** [implement_neu] *)
Section neu.
Context `{EV : ExternValues, DF : Differential, SI : SetIteration}.
Context {T : Type} `{TR : !Traces T}.
Context (delta_join : Hector → outcome (Implemented * ShutdownHandle (Button (T := T)))).
Context (set_semantics : bool) (d : Domain T Rule).

Lemma complete_rules_variables completed vars defs0 h0 res :
  complete_rules set_semantics d completed vars defs0 h0 = Ret (Ok res) →
  ∀ name, name ∈ completed.*1 → is_Some (vars !! name).
Proof.
  revert vars defs0 h0. induction completed as [|[n rel] completed IH]; intros vars defs0 h0; simpl.
  { intros _ name Hn. by apply not_elem_of_nil in Hn. }
  destruct (vars !! n) as [v|] eqn:Hv; [|done]. intros Hc. apply obind_Ret in Hc as ([c h] & _ & Hc).
  intros name [->|Hn]%elem_of_cons; [eauto|]. apply (IH _ _ _ Hc) in Hn as [v' Hv'].
  apply lookup_delete_Some in Hv' as [_ Hv']. eauto.
Qed.

Lemma neu_executions_length (implement : Plan → outcome (Implemented * ShutdownHandle (Button (T := T))))
    (all : list Rule) h0 sym plans executions h sym' :
  neu_executions implement all h0 sym = Ret (plans, executions, h, sym') →
  length executions = length all.
Proof.
  revert h0 sym plans executions. induction all as [|r all IH]; intros h0 sym plans executions; simpl.
  { intros Hn. by outcome_inv. }
  intros Hn. apply obind_Ret in Hn as (vs & _ & Hn). apply obind_Ret in Hn as ([b s1] & _ & Hn). apply obind_Ret in Hn as ([rel h1] & _ & Hn).
  apply obind_Ret in Hn as ([[[ps es] h2] s2] & Hn & Hr). injection Hr as <- <- <- <-. simpl. f_equal.
  by eapply IH.
Qed.

Lemma canonical_rules_perm name (all : list Rule) sorted :
  canonical_rules name all = Ok sorted → sorted ≡ₚ all.
Proof.
  unfold canonical_rules. case_bool_decide; [done|]. destruct (duplicate_definition _); [done|].
  intros [= <-]. apply sort_by_perm.
Qed.

Lemma NoDup_constant {A} (x : A) l : NoDup l → (∀ y, y ∈ l → y = x) → x ∈ l → l = [x].
Proof.
  intros Hnd Hall Hx. destruct l as [|y [|z l]]; [by apply not_elem_of_nil in Hx| |].
  - by rewrite (Hall y) by set_solver.
  - exfalso. apply NoDup_cons in Hnd as [Hy _]. apply Hy.
    rewrite (Hall y), (Hall z) by set_solver. set_solver.
Qed.

(** (the optimizer implements single rules only).  [implement_neu] creates a
    variable for the published name alone, so it succeeds only if the query
    needs no other rule. *)
Theorem implement_neu_single name sym res sym' :
  rules_named d → implement_neu set_semantics delta_join d name sym = Ret (Ok res, sym') →
  ∃ r, collect_dependencies d [name] = Ret (Ok [r]) ∧ r_name r = name.
Proof.
  intros Hnamed. unfold implement_neu. pose proof (collect_spec d [name] Hnamed) as Hspec.
  destruct (collect_dependencies d [name]) as [[all|e]|]; simpl; [|done|done].
  destruct Hspec as [seen (Hneed & _ & _ & Hnd)%collecting_done].
  destruct (canonical_rules name all) as [sorted|e] eqn:Hcan; [|done].
  apply canonical_rules_perm in Hcan. destruct (new_variables _ !! name); [|done].
  intros Hi. apply obind_Ret in Hi as ([[[plans es] h] s] & Hes & Hi).
  apply obind_Ret in Hi as (res' & Hcr & Hi). destruct res' as [[defs h']|]; [|done].
  apply neu_executions_length in Hes. pose proof (complete_rules_variables _ _ _ _ _ Hcr) as Hvars.
  rewrite fst_zip in Hvars by (rewrite length_fmap; lia).
  assert (r_name <$> all = [name]) as Hall.
  { apply NoDup_constant; [apply Hnd, NoDup_singleton| |apply Hneed, needed_root; set_solver].
    intros n Hn. rewrite <- Hcan in Hn. apply Hvars in Hn as [v Hv].
    unfold new_variables in Hv. simpl in Hv. by apply lookup_insert_Some in Hv as [[-> _]|[_ Hv]]. }
  destruct all as [|r [|r' all]]; [done| |done]. exists r. split; [done|]. by injection Hall as <-.
Qed.
End neu.
