(* ===== verification/RuleSemantics.v ===== *)
(** * Recursive rules compute their naive evaluation

    The reference semantics of a set of rules evaluates all their plans at once,
    on the contents of the previous round, starting from empty rules.  The
    variables [implement] creates go through the same rounds; once a round
    repeats the contents of the previous one, all later rounds do. *)
From Stdlib Require Import ZArith NArith Lia.
From stdpp Require Import base strings numbers sets gmap fin_maps list.
From S2P Require Import Prelude Timestamps Values Bindings HectorPlan Sessions Weighted.
From S2P Require Import Dataflow Domains Relations RelationTheorems PlanOps JoinTheorems.
From S2P Require Import StageTheorems FilterTransform Aggregates Plans Assignments PlanReference PlanStages PlanSemantics.
From S2P Require Import Rules RuleTheorems.

(** ** The order of a plan's variables *)
Section variable_order.
Context `{EV : ExternValues, DF : Differential}.
Context {T : Type} `{TR : !Traces T} {Rule : Type}.

Definition other_side (target : Var) (e v : Var) : Var := if (target =? e)%N then v else e.

(** The variables of the relation a plan is implemented by. *)
Fixpoint relation_variables (p : Plan) : list Var :=
  match p with
  | PProject p => pj_variables p
  | PUnion p => un_variables p
  | PJoin p =>
      let ks := jn_variables p in
      let l := chain_others ks (relation_variables (jn_left_plan p)) in
      let r := chain_others ks (relation_variables (jn_right_plan p)) in
      match jn_left_plan p, jn_right_plan p, ks with
      | PMatchA e _ v, PMatchA e' _ v', [k] => [k; other_side k e v; other_side k e' v']
      | PMatchA _ _ _, _, _ => ks ++ r ++ l
      | _, _, _ => ks ++ l ++ r
      end
  | PAntijoin p =>
      aj_variables p ++ chain_others (aj_variables p) (relation_variables (aj_left_plan p))
  | PNegate p => relation_variables p
  | PFilter p => relation_variables (fi_plan p)
  | PMatchA e _ v => [e; v]
  | PMatchEA _ _ v => [v]
  | PMatchAV e _ _ => [e]
  | PNameExpr variables _ => variables
  | PHector h => he_variables h
  | PTransform p => relation_variables (tr_plan p) ++ [tr_result_variable p]
  | PAggregate p => ag_variables p
  | _ => []
  end.

Lemma attribute_side_variable (d : Domain T Rule) k b x r :
  attribute_side d k b = Ret (x, r) → x = other_side k (ab_variables b).1 (ab_variables b).2.
Proof.
  unfold attribute_side, other_side. destruct (k =? _)%N; [intros; by outcome_inv|].
  destruct (k =? _)%N; [intros; by outcome_inv|done].
Qed.

Lemma collection_collection_variables (d : Domain T Rule) ks left right rel h :
  collection_collection d ks left right = Ret (rel, h) →
  Implemented_variables rel =
    ks ++ chain_others ks (cr_variables left) ++ chain_others ks (cr_variables right).
Proof.
  unfold collection_collection. intros Hc. apply obind_Ret in Hc as ([c1 h1] & _ & Hc).
  apply obind_Ret in Hc as ([c2 h2] & _ & Hc). by outcome_inv.
Qed.

Lemma collection_attribute_variables (d : Domain T Rule) ks left b rel h :
  collection_attribute d ks left b = Ret (rel, h) →
  Implemented_variables rel =
    ks ++ chain_others ks (cr_variables left) ++ chain_others ks (AttributeBinding_variables b).
Proof.
  unfold collection_attribute. intros Hc. apply obind_Ret in Hc as (tr & _ & Hc).
  destruct (import_frontier tr _) as [c btn]. apply obind_Ret in Hc as ([rel' h'] & Hc & Hr).
  injection Hr as <- _. apply collection_collection_variables in Hc. rewrite Hc. simpl.
  unfold AttributeBinding_variables. by destruct (ab_variables b).
Qed.

Definition of_pattern (rel : Implemented) (p : Plan) : Prop :=
  match rel with
  | IAttribute b => p = PMatchA (ab_variables b).1 (source_attribute b) (ab_variables b).2
  | ICollection _ => ∀ e a v, p ≠ PMatchA e a v
  end.

Lemma join_implement_variables implement (d : Domain T Rule) (p : Join Plan) rel h rl hl rr hr :
  implement (jn_left_plan p) = Ret (rl, hl) → implement (jn_right_plan p) = Ret (rr, hr) →
  Implemented_variables rl = relation_variables (jn_left_plan p) → of_pattern rl (jn_left_plan p) →
  Implemented_variables rr = relation_variables (jn_right_plan p) → of_pattern rr (jn_right_plan p) →
  Join_implement implement d p = Ret (rel, h) →
  Implemented_variables rel = relation_variables (PJoin p).
Proof.
  intros Hl Hr Hvl Hpl Hvr Hpr. unfold Join_implement. rewrite Hl, Hr. cbn [obind].
  destruct (negb _); [|done]. simpl. intros Hj. apply obind_Ret in Hj as ([rel' h'] & Hj & Hrel).
  injection Hrel as <- _.
  destruct rl as [bl|cl], rr as [br|cr]; simpl in Hpl, Hpr, Hvl, Hvr.
  - rewrite Hpl, Hpr. destruct (jn_variables p) as [|k [|k' [|]]]; try done.
    unfold attribute_attribute in Hj. apply obind_Ret in Hj as ([x [cl btl]] & Hx & Hj).
    apply obind_Ret in Hj as ([y [cr btr]] & Hy & Hj). injection Hj as <- _.
    by rewrite (attribute_side_variable _ _ _ _ _ Hx), (attribute_side_variable _ _ _ _ _ Hy).
  - apply collection_attribute_variables in Hj. rewrite Hj. unfold CollectionRelation_variables in Hvr.
    rewrite Hvl, Hvr. rewrite Hpl. destruct (jn_right_plan p); try done. by destruct (Hpr e a v).
  - apply collection_attribute_variables in Hj. rewrite Hj. unfold CollectionRelation_variables in Hvl.
    rewrite Hvl, Hvr. destruct (jn_left_plan p); try done. by destruct (Hpl e a v).
  - apply collection_collection_variables in Hj. rewrite Hj.
    unfold CollectionRelation_variables in Hvl, Hvr. rewrite Hvl, Hvr.
    destruct (jn_left_plan p); try done. by destruct (Hpl e a v).
Qed.
End variable_order.

Section plan_variables.
Context `{EV : ExternValues, DF : Differential, DJ : !DeltaJoinable}.
Context {T : Type} `{TR : !Traces T} {Rule : Type}.
Context (delta_join : Hector → outcome (Implemented * ShutdownHandle (Button (T := T)))).
Context (d : Domain T Rule) {Hjoins : DeltaJoins d delta_join}.
Context (local_arrangements : gmap Aid (Collection (list Value) Z)).
Context (named : RuleContents) (Hscope : in_scope named local_arrangements).

Lemma implement_of_pattern p rel h :
  plan_ok d named p → Plan_implement delta_join d local_arrangements p = Ret (rel, h) →
  of_pattern rel p.
Proof.
  intros Hok Hi. destruct (plan_means delta_join d _ _ Hscope p Hok) as (rel' & h' & Hi' & _ & _ & Hattr).
  rewrite Hi in Hi'. injection Hi' as <- <-. destruct rel as [b|c]; simpl; [by apply Hattr|].
  by intros e a v ->.
Qed.

Lemma aggregate_implement_variables (implement : Plan → outcome (Implemented * ShutdownHandle (Button (T := T))))
    p rel h :
  Aggregate_implement implement d p = Ret (rel, h) → Implemented_variables rel = ag_variables p.
Proof.
  unfold Aggregate_implement, aggregate_stage. intros Hi.
  apply obind_Ret in Hi as ([r h1] & _ & Hi). apply obind_Ret in Hi as ([c h2] & _ & Hi).
  apply obind_Ret in Hi as (vos & _ & Hi). apply obind_Ret in Hi as (oos & _ & Hi).
  apply obind_Ret in Hi as ([|c1 [|c2 cs]] & _ & Hi); [done| |by outcome_inv].
  apply obind_Ret in Hi as (o & _ & Hi). by outcome_inv.
Qed.

Lemma transform_implement_variables (implement : Plan → outcome (Implemented * ShutdownHandle (Button (T := T))))
    p rel h :
  Transform_implement implement d p = Ret (rel, h) →
  ∃ r hr, implement (tr_plan p) = Ret (r, hr) ∧
    Implemented_variables rel = Implemented_variables r ++ [tr_result_variable p].
Proof.
  unfold Transform_implement. intros Hi. apply obind_Ret in Hi as ([r hr] & Hr & Hi).
  apply obind_Ret in Hi as (ks & _ & Hi). apply obind_Ret in Hi as ([c h2] & _ & Hi).
  outcome_inv. by exists r, hr.
Qed.

Lemma implement_variables p rel h :
  plan_ok d named p → Plan_implement delta_join d local_arrangements p = Ret (rel, h) →
  Implemented_variables rel = relation_variables p.
Proof.
  revert rel h. induction p as [p IH] using Plan_children_ind. intros rel h Hok Hi.
  destruct p as [p|p|p|p|q|p|p|p|p|e a v|eid a v|e a mv|vs n|p|p|p|p]; try done.
  - cbn in Hi. unfold Project_implement in Hi. apply obind_Ret in Hi as ([r h1] & _ & Hi).
    apply obind_Ret in Hi as ([c h2] & _ & Hi). by outcome_inv.
  - exact (aggregate_implement_variables _ p rel h Hi).
  - cbn in Hi. unfold Union_implement in Hi. apply obind_Ret in Hi as (streams & _ & Hi). by outcome_inv.
  - destruct Hok as (Hl & Hr & _).
    destruct (plan_means delta_join d _ _ Hscope _ Hl) as (rl & hl & Hil & _).
    destruct (plan_means delta_join d _ _ Hscope _ Hr) as (rr & hr & Hir & _).
    eapply join_implement_variables; [exact Hil|exact Hir|..|exact Hi];
      eauto using implement_of_pattern; eapply IH; try done; simpl; set_solver.
  - by eapply Hector_implement_joined.
  - destruct Hok as (Hl & _). cbn in Hi. unfold Antijoin_implement in Hi.
    apply obind_Ret in Hi as ([rl hl] & Hil & Hi). apply obind_Ret in Hi as ([rr hr] & _ & Hi).
    apply obind_Ret in Hi as ([c1 h1] & _ & Hi). apply obind_Ret in Hi as ([c2 h2] & _ & Hi).
    outcome_inv. simpl. rewrite (IH (aj_left_plan p) ltac:(simpl; set_solver) _ _ Hl Hil). done.
  - cbn in Hi. unfold Negate_implement in Hi. apply obind_Ret in Hi as ([r hr] & Hir & Hi).
    apply obind_Ret in Hi as ([c1 h1] & _ & Hi). outcome_inv. simpl.
    exact (IH p ltac:(simpl; set_solver) _ _ Hok Hir).
  - destruct Hok as (Hl & _). cbn in Hi. unfold Filter_implement in Hi.
    apply obind_Ret in Hi as ([r hr] & Hir & Hi). apply obind_Ret in Hi as (ks & _ & Hi).
    apply obind_Ret in Hi as ([c1 h1] & _ & Hi). apply obind_Ret in Hi as (c0 & _ & Hi).
    apply obind_Ret in Hi as (f & _ & Hi). outcome_inv. simpl.
    exact (IH (fi_plan p) ltac:(simpl; set_solver) _ _ Hl Hir).
  - destruct Hok as (Hl & _). destruct (transform_implement_variables _ p rel h Hi) as (r & hr & Hr & ->).
    simpl. by rewrite (IH (tr_plan p) ltac:(simpl; set_solver) _ _ Hl Hr).
  - by injection Hi as <- _.
  - cbn in Hi. unfold match_pattern in Hi. destruct (Domain_forward_propose d a); [|done].
    destruct (import_frontier _ _). by outcome_inv.
  - cbn in Hi. unfold match_pattern in Hi. destruct (Domain_forward_propose d a); [|done].
    destruct (import_frontier _ _). by outcome_inv.
  - cbn in Hi. destruct (local_arrangements !! n); [|done]. by outcome_inv.
Qed.
End plan_variables.

(** ** Naive evaluation *)
Section naive.
Context `{EV : ExternValues, DF : Differential, DJ : !DeltaJoinable}.
Context {T : Type} `{TR : !Traces T} {Rule : Type}.
Context (set_semantics : bool) (d : Domain T Rule) (program : list (Aid * Plan)).

(** The tuples of a rule, given the contents of the rules it refers to. *)
Definition rule_tuples (named : RuleContents) (p : Plan) : wlist (list Value) :=
  let tuples := wmap (λ m, value_of m <$> relation_variables p) (reference_in d named p) in
  if set_semantics then distinct_list tuples else tuples.

Definition naive_round (named : RuleContents) : RuleContents :=
  list_to_map ((λ rule, (rule.1, (length (relation_variables rule.2), rule_tuples named rule.2)))
                 <$> program).

Fixpoint naive (round : nat) : RuleContents :=
  match round with
  | 0 => list_to_map ((λ rule, (rule.1, (length (relation_variables rule.2), []))) <$> program)
  | S round => naive_round (naive round)
  end.

Definition rule_ok (named : RuleContents) (p : Plan) : Prop :=
  plan_ok d named p ∧ (set_semantics = true → nonnegative (reference_in d named p)).

Definition program_ok (named : RuleContents) : Prop :=
  ∀ name p, (name, p) ∈ program → rule_ok named p.

(** *** A rule's tuples from its relation *)
Lemma holds_tuples rel vars W l :
  holds d rel vars W → rel_run rel d = Ret l →
  wmap (λ m, value_of m <$> Implemented_variables rel) W ≡ l.
Proof.
  intros ([Hnd Hlen] & _ & l' & Hl' & <-) Hl. rewrite Hl in Hl'. injection Hl' as <-.
  rewrite wmap_compose. apply wlist_equiv_perm, reflexive_eq.
  rewrite <- (list_fmap_id l) at 2. apply list_fmap_ext. intros i [t w] Ht. simpl. f_equal.
  assert (t ∈ l.*1) as Hin.
  { apply list_elem_of_fmap. exists (t, w). split; [done|]. by eapply list_elem_of_lookup_2. }
  rewrite (tuple_values (Implemented_variables rel) t) at 2 by (done || by apply (Hlen l)).
  apply list_fmap_ext. intros j x _. apply env_value_of; [done|by apply (Hlen l)].
Qed.

Lemma holds_nonnegative rel vars W l :
  holds d rel vars W → rel_run rel d = Ret l → nonnegative W → ∀ t, (0 ≤ wt l t)%Z.
Proof.
  intros ([Hnd Hlen] & _ & l' & Hl' & HW) Hl Hpos t. rewrite Hl in Hl'. injection Hl' as <-.
  destruct (decide (t ∈ l.*1)) as [Ht|Ht]; [|by rewrite wt_not_elem].
  pose proof (Hlen l t Hl Ht) as Ht'. specialize (Hpos (assign (Implemented_variables rel) t)).
  rewrite <- (HW _) in Hpos. rewrite wt_wmap_inj in Hpos; [done|].
  intros t' Hin. apply assign_inj; [done| |done]. by apply (Hlen l).
Qed.

Lemma distinct_list_equiv {D} `{EqDecision D} (l k : wlist D) :
  l ≡ k → distinct_list l ≡ distinct_list k.
Proof. intros Hlk x. rewrite !wt_distinct_list. by rewrite (Hlk x). Qed.

Lemma distinct_of_nonnegative {D} `{EqDecision D} (l k : wlist D) :
  distinct_of l k → (∀ x, (0 ≤ wt l x)%Z) → k ≡ distinct_list l.
Proof.
  intros [_ Hd] Hpos x. rewrite wt_distinct_list. destruct (Hd x) as [H1 H0]. specialize (Hpos x).
  case_decide; [by apply H1|]. apply H0. lia.
Qed.
End naive.

(** ** One round *)
Section rounds.
Context `{EV : ExternValues, DF : Differential, SI : SetIteration, DJ : !DeltaJoinable}.
Context {T : Type} `{TR : !Traces T}.
Context (delta_join : Hector → outcome (Implemented * ShutdownHandle (Button (T := T)))).
Context (set_semantics : bool) (d : Domain T Rule) {Hjoins : DeltaJoins d delta_join}.
Implicit Types (program : list (Aid * Plan)) (named : RuleContents).
Implicit Types vars : gmap Aid (Collection (list Value) Z).

Lemma settle_spec (c : Collection (list Value) Z) l :
  run c = Ret l → (set_semantics = true → ∀ t, (0 ≤ wt l t)%Z) →
  ∃ out, run (settle set_semantics c) = Ret out ∧ out.*1 ⊆ l.*1 ∧
    out ≡ (if set_semantics then distinct_list l else l).
Proof.
  intros Hc Hpos. unfold settle. destruct set_semantics.
  - destruct (run_distinct_Ret c l Hc) as (out & Hout & Hd). exists out. split; [done|].
    split; [by apply Hd|]. apply distinct_of_nonnegative; auto.
  - pose proof (run_consolidate c) as Hr. rewrite Hc in Hr. apply run_rel_Ret_r in Hr as (out & Hout & Ha & Hsub).
    by exists out.
Qed.

Lemma rule_tuples_equiv named p (l : wlist (list Value)) :
  wmap (λ m, value_of m <$> relation_variables p) (reference_in d named p) ≡ l →
  rule_tuples set_semantics d named p ≡ (if set_semantics then distinct_list l else l).
Proof. intros Hl. unfold rule_tuples. destruct set_semantics; [by apply distinct_list_equiv|done]. Qed.

Lemma rule_defined vars named p :
  in_scope named vars → rule_ok set_semantics d named p →
  ∃ rel h c h' l, Plan_implement delta_join d vars p = Ret (rel, h) ∧
    Implemented_tuples rel d = Ret (c, h') ∧ run (settle set_semantics c) = Ret l ∧
    l ≡ rule_tuples set_semantics d named p ∧ ∀ t, t ∈ l.*1 → length t = length (relation_variables p).
Proof.
  intros Hscope [Hok Hpos].
  destruct (plan_means delta_join d vars named Hscope p Hok) as (rel & h & Hi & Hh & _).
  pose proof Hh as (Hwf & _ & l & Hl & _).
  destruct (tuples_self rel d l Hwf Hl) as (c & h' & lc & Hc & Hlc & Hperm).
  pose proof (wlist_equiv_perm _ _ Hperm) as Heq.
  destruct (settle_spec c lc Hlc) as (out & Hout & Hsub & Hset).
  { intros Hss t. rewrite (Heq t). eapply holds_nonnegative; [exact Hh|exact Hl|]. by apply Hpos. }
  pose proof (implement_variables delta_join d vars named Hscope p rel h Hok Hi) as Hv.
  exists rel, h, c, h', out. split_and!; try done.
  - rewrite Hset. symmetry. apply rule_tuples_equiv. rewrite <- Hv, Heq. by eapply holds_tuples.
  - intros t Ht. rewrite <- Hv. destruct Hwf as [_ Hlen]. apply (Hlen l); [done|].
    rewrite <- Hperm. by apply Hsub.
Qed.

Lemma plan_executions_Ret (implement : Plan → outcome (Implemented * ShutdownHandle (Button (T := T))))
    plans h0 :
  (∀ p, p ∈ plans → ∃ rel h, implement p = Ret (rel, h)) →
  ∃ rels h, plan_executions implement plans h0 = Ret (rels, h) ∧
    Forall2 (λ p rel, ∃ h, implement p = Ret (rel, h)) plans rels.
Proof.
  revert h0. induction plans as [|p plans IH]; intros h0 Hall; simpl; [by exists [], h0|].
  destruct (Hall p) as (rel & h & Hp); [set_solver|]. rewrite Hp. simpl.
  destruct (IH (ShutdownHandle_merge_with h0 h)) as (rels & h' & -> & Hrels); [set_solver|].
  simpl. eexists _, _. split; [done|]. constructor; eauto.
Qed.

Lemma complete_rules_Ret completed vars defs0 h0 :
  NoDup completed.*1 →
  (∀ name rel, (name, rel) ∈ completed →
     is_Some (vars !! name) ∧ ∃ c h, Implemented_tuples rel d = Ret (c, h)) →
  ∃ defs h, complete_rules set_semantics d completed vars defs0 h0 = Ret (Ok (defs, h)) ∧
    (∀ name rel, (name, rel) ∈ completed →
       ∃ c h, Implemented_tuples rel d = Ret (c, h) ∧ defs !! name = Some (settle set_semantics c)) ∧
    ∀ name, name ∉ completed.*1 → defs !! name = defs0 !! name.
Proof.
  revert vars defs0 h0. induction completed as [|[name rel] completed IH]; intros vars defs0 h0; simpl.
  { intros _ _. exists defs0, h0. split_and!; [done| |done]. intros ? ? Hin. by apply not_elem_of_nil in Hin. }
  intros [Hname Hnd]%NoDup_cons Hall.
  destruct (Hall name rel) as ([x Hx] & c & h & Hc); [set_solver|]. rewrite Hx, Hc. simpl.
  destruct (IH (delete name vars) (<[name:=settle set_semantics c]> defs0) (ShutdownHandle_merge_with h0 h) Hnd)
    as (defs & h' & Hcr & Hin & Hout).
  { intros n r Hnr. destruct (Hall n r) as [Hs Ht]; [set_solver|]. split; [|done].
    rewrite lookup_delete_ne; [done|]. intros <-. apply Hname, list_elem_of_fmap. by exists (name, r). }
  exists defs, h'. split; [done|]. split.
  - intros n r [[= -> ->]|Hnr]%elem_of_cons; [|by apply Hin]. exists c, h. split; [done|].
    rewrite Hout by done. apply lookup_insert_eq.
  - intros n [Hne Hn]%not_elem_of_cons. rewrite Hout by done. by apply lookup_insert_ne.
Qed.

Lemma round_computes program named vars :
  NoDup program.*1 → (∀ name, name ∈ program.*1 → is_Some (vars !! name)) →
  in_scope named vars → program_ok set_semantics d program named →
  ∃ defs h, define_rules set_semantics delta_join d program vars = Ret (Ok (defs, h)) ∧
    (∀ name, name ∈ program.*1 → is_Some (defs !! name)) ∧
    in_scope (naive_round set_semantics d program named) defs.
Proof.
  intros Hnd Hvars Hscope Hok. unfold define_rules.
  destruct (plan_executions_Ret (Plan_implement delta_join d vars) program.*2 ShutdownHandle_empty)
    as (rels & h & -> & Hrels).
  { intros p ([name q] & -> & Hin)%list_elem_of_fmap.
    destruct (rule_defined vars named q Hscope (Hok _ _ Hin)) as (rel & h & _ & _ & _ & Hi & _). eauto. }
  simpl. pose proof (Forall2_length _ _ _ Hrels) as Hlen. rewrite length_fmap in Hlen.
  assert (∀ name rel, (name, rel) ∈ zip program.*1 rels →
    ∃ p h, (name, p) ∈ program ∧ Plan_implement delta_join d vars p = Ret (rel, h)) as Hzip.
  { intros name rel (i & Hi)%list_elem_of_lookup. apply lookup_zip_Some in Hi as [Hn Hr].
    apply list_lookup_fmap_Some in Hn as ([n p] & -> & Hp).
    destruct (Forall2_lookup_r _ _ _ _ _ Hrels Hr) as (p' & Hp' & hr & Himp).
    rewrite list_lookup_fmap, Hp in Hp'. injection Hp' as <-. exists p, hr. split; [|done].
    by eapply list_elem_of_lookup_2. }
  destruct (complete_rules_Ret (zip program.*1 rels) vars ∅ h) as (defs & h' & -> & Hin & _).
  { rewrite fst_zip by (rewrite length_fmap; lia). done. }
  { intros name rel Hnr. destruct (Hzip _ _ Hnr) as (p & hr & Hp & Hi). split.
    - apply Hvars, list_elem_of_fmap. by exists (name, p).
    - destruct (rule_defined vars named p Hscope (Hok _ _ Hp)) as (rel' & ? & c & hc & _ & Hi' & Hc & _).
      rewrite Hi in Hi'. injection Hi' as <- <-. eauto. }
  exists defs, h'. split; [done|].
  assert (∀ name p, (name, p) ∈ program → ∃ c l, defs !! name = Some c ∧ run c = Ret l ∧
    l ≡ rule_tuples set_semantics d named p ∧ ∀ t, t ∈ l.*1 → length t = length (relation_variables p)) as Hdefs.
  { intros name p (i & Hi)%list_elem_of_lookup.
    destruct (Forall2_lookup_l _ _ _ i p Hrels) as (rel & Hr & hr & Himp).
    { by rewrite list_lookup_fmap, Hi. }
    destruct (Hin name rel) as (c & hc & Hc & Hd).
    { apply (list_elem_of_lookup_2 _ i), lookup_zip_Some. by rewrite list_lookup_fmap, Hi. }
    destruct (rule_defined vars named p Hscope) as (rel' & ? & c' & ? & l & Hi' & Hc' & Hl & He & Ht).
    { apply (Hok name). by eapply list_elem_of_lookup_2. }
    rewrite Himp in Hi'. injection Hi' as <- <-. rewrite Hc in Hc'. injection Hc' as <- <-.
    by exists (settle set_semantics c), l. }
  split.
  - intros name ([n p] & -> & Hp)%list_elem_of_fmap. destruct (Hdefs n p Hp) as (c & _ & Hc & _). eauto.
  - intros name k l Hl. unfold naive_round in Hl. apply elem_of_list_to_map_2 in Hl.
    apply list_elem_of_fmap in Hl as ([n p] & [= -> -> ->] & Hp). simpl. by apply Hdefs.
Qed.
End rounds.

(** ** Rounds with the same contents *)
Section same_contents.
Context `{EV : ExternValues, DF : Differential, DJ : !DeltaJoinable}.
Context {T : Type} `{TR : !Traces T} {Rule : Type}.
Context (d : Domain T Rule).
Implicit Types (named : RuleContents) (program : list (Aid * Plan)).

Definition same_rule (x y : nat * wlist (list Value)) : Prop := x.1 = y.1 ∧ x.2 ≡ y.2.
Definition same_contents named named' : Prop :=
  ∀ name, option_Forall2 same_rule (named !! name) (named' !! name).

#[export] Instance same_contents_equivalence : Equivalence same_contents.
Proof.
  split.
  - intros named name. destruct (named !! name); constructor. done.
  - intros n1 n2 H name. destruct (H name) as [x y [H1 H2]|]; constructor. done.
  - intros n1 n2 n3 H H' name. specialize (H' name).
    destruct (H name) as [x y [H1 H2]|]; inversion H' as [? z [H3 H4]|]; constructor.
    split; [congruence|]. by rewrite H2.
Qed.

Lemma rule_contents_same named named' name :
  same_contents named named' → rule_contents named name ≡ rule_contents named' name.
Proof.
  intros H. unfold rule_contents. destruct (H name) as [[k l] [k' l'] [_ Hl]|]; [exact Hl|done].
Qed.

Lemma concat_equiv {D} `{EqDecision D} {A} (f g : A → wlist D) (xs : list A) :
  (∀ x, x ∈ xs → f x ≡ g x) → concat (f <$> xs) ≡ concat (g <$> xs).
Proof.
  induction xs as [|x xs IH]; intros Hfg; [done|]. csimpl. apply wlist_app_proper.
  - apply Hfg. set_solver.
  - apply IH. set_solver.
Qed.

Lemma reference_same contents (n1 n2 : Aid → wlist (list Value)) p :
  (∀ name, n1 name ≡ n2 name) → reference contents n1 p ≡ reference contents n2 p.
Proof.
  intros Hn. induction p as [p IH] using Plan_children_ind.
  destruct p as [p|p|p|p|h|p|p|p|p|e a v|e a v|e a v|vs n|p|p|p|p]; cbn [reference] in *; try done.
  - rewrite (IH (pj_plan p)) by (simpl; set_solver). done.
  - destruct (ag_aggregation_fns p) as [|fn [|? ?]]; [done| |done].
    destruct (ag_aggregation_variables p) as [|a [|? ?]]; [done| |done].
    rewrite (IH (ag_plan p)) by (simpl; set_solver). done.
  - apply distinct_list_equiv, concat_equiv. intros c Hc. rewrite (IH c); [done|exact Hc].
  - rewrite (IH (jn_left_plan p)), (IH (jn_right_plan p)) by (simpl; set_solver). done.
  - assert (reference contents n1 (aj_left_plan p) ≡ reference contents n2 (aj_left_plan p)) as Hl
      by (apply IH; simpl; set_solver).
    assert (reference contents n1 (aj_right_plan p) ≡ reference contents n2 (aj_right_plan p)) as Hr
      by (apply IH; simpl; set_solver).
    intros m. rewrite !wt_wfilter, (distinct_list_equiv _ _ Hl m).
    assert (wmap (restrict (aj_variables p)) (reference contents n1 (aj_right_plan p)) ≡
      wmap (restrict (aj_variables p)) (reference contents n2 (aj_right_plan p))) as Hr' by (by rewrite Hr).
    by rewrite (Hr' _).
  - rewrite (IH p) by (simpl; set_solver). done.
  - rewrite (IH (fi_plan p)) by (simpl; set_solver). done.
  - rewrite (IH (tr_plan p)) by (simpl; set_solver). done.
  - by rewrite (Hn n).
Qed.

Lemma reference_in_same named named' p :
  same_contents named named' → reference_in d named p ≡ reference_in d named' p.
Proof. intros H. apply reference_same. intros. by apply rule_contents_same. Qed.

Lemma nonnegative_same (l k : wlist Assignment) : l ≡ k → nonnegative l → nonnegative k.
Proof. intros Hlk Hl m. rewrite <- (Hlk m). apply Hl. Qed.

Lemma plan_ok_same named named' p :
  same_contents named named' → plan_ok d named p → plan_ok d named' p.
Proof.
  intros Hs. induction p as [p IH] using Plan_children_ind.
  destruct p as [p|p|p|p|h|p|p|p|p|e a v|e a v|e a v|vs n|p|p|p|p]; try done.
  - intros [Hc Hk]. split; [|done]. apply IH; [simpl; set_solver|done].
  - cbn [plan_ok]. destruct (ag_aggregation_fns p) as [|fn [|? ?]]; [done| |done].
    destruct (ag_aggregation_variables p) as [|a [|? ?]]; [done| |done].
    intros [Hc Hrest]. split; [apply IH; [simpl; set_solver|done]|done].
  - intros (Hnd & Hcs & Hpos). split; [done|]. split.
    + assert (∀ c, c ∈ un_plans p → plan_ok d named c → plan_ok d named' c) as IH' by (exact IH).
      clear IH Hpos. induction (un_plans p) as [|c cs IHcs]; [done|]. destruct Hcs as [[Hc Hk] Hcs].
      split; [split; [apply IH'; [set_solver|done]|done]|]. apply IHcs; [done|]. intros c' Hc'.
      apply IH'. set_solver.
    + eapply nonnegative_same; [|exact Hpos]. apply concat_equiv. intros c _.
      by rewrite (reference_in_same named named' c Hs).
  - intros (Hl & Hr & Hrest). split; [apply IH; [simpl; set_solver|done]|].
    split; [apply IH; [simpl; set_solver|done]|done].
  - intros (Hl & Hr & Hkl & Hkr & Hpl & Hpr).
    split; [apply IH; [simpl; set_solver|done]|]. split; [apply IH; [simpl; set_solver|done]|].
    split; [done|]. split; [done|].
    split; [eapply nonnegative_same; [|exact Hpl]; by apply reference_in_same|].
    eapply nonnegative_same; [|exact Hpr].
    by rewrite (reference_in_same named named' (aj_right_plan p) Hs).
  - apply (IH p). simpl. set_solver.
  - intros [Hc Hrest]. split; [apply IH; [simpl; set_solver|done]|done].
  - intros [Hc Hrest]. split; [apply IH; [simpl; set_solver|done]|done].
  - intros (Hnd & l & Hl). split; [done|]. specialize (Hs n). rewrite Hl in Hs.
    destruct (named' !! n) as [[k l']|]; inversion Hs as [? ? [Hk ?]|]; simpl in Hk; subst. by exists l'.
Qed.
End same_contents.

(** ** The theorem *)
Section rule_refinement.
Context `{EV : ExternValues, DF : Differential, SI : SetIteration, DJ : !DeltaJoinable}.
Context {T : Type} `{TR : !Traces T}.
Context (delta_join : Hector → outcome (Implemented * ShutdownHandle (Button (T := T)))).
Context (set_semantics : bool) (d : Domain T Rule) {Hjoins : DeltaJoins d delta_join}.
Implicit Types (program : list (Aid * Plan)) (named : RuleContents).

Lemma naive_round_same program named named' :
  same_contents named named' →
  same_contents (naive_round set_semantics d program named) (naive_round set_semantics d program named').
Proof.
  intros Hs name. unfold naive_round. induction program as [|[n p] program IH]; csimpl; [constructor|].
  destruct (decide (n = name)) as [->|Hne]; [|by rewrite !lookup_insert_ne].
  rewrite !lookup_insert_eq. constructor. split; [done|]. simpl. unfold rule_tuples at 2.
  apply rule_tuples_equiv. by rewrite (reference_in_same d named named' p Hs).
Qed.

Lemma program_ok_same program named named' :
  same_contents named named' → program_ok set_semantics d program named → program_ok set_semantics d program named'.
Proof.
  intros Hs Hok name p Hp. destruct (Hok name p Hp) as [Hpo Hpos].
  split; [by eapply plan_ok_same|]. intros Hss. eapply nonnegative_same; [|by apply Hpos].
  by apply reference_in_same.
Qed.

(** Once a round repeats its predecessor, so do all later rounds. *)
Lemma naive_stable program n m :
  same_contents (naive set_semantics d program (S n)) (naive set_semantics d program n) → n ≤ m →
  same_contents (naive set_semantics d program m) (naive set_semantics d program n).
Proof.
  intros Hs Hle. induction Hle as [|m _ IH]; [done|]. etrans; [|exact Hs]. simpl.
  by apply naive_round_same.
Qed.

Lemma new_variables_in_scope program :
  in_scope (naive set_semantics d program 0) (new_variables program.*1) ∧
  ∀ name, name ∈ program.*1 → is_Some (new_variables (DF := DF) program.*1 !! name).
Proof.
  destruct (run_concatenate_Ret (D := list Value) (R := Z) [] [] eq_refl) as (l0 & Hl0 & ->%Permutation_nil_r).
  assert (∀ names name, name ∈ names → new_variables names !! name = Some (c_concatenate [])) as Hnew.
  { induction names as [|n names IH]; intros name; [set_solver|].
    change (new_variables (n :: names)) with (<[n := c_concatenate []]> (new_variables names)).
    destruct (decide (n = name)) as [->|Hne]; [by rewrite lookup_insert_eq|].
    rewrite lookup_insert_ne by done. intros [->|Hin]%elem_of_cons; [done|by apply IH]. }
  split; [|intros name Hn; eexists; by apply Hnew].
  intros name k l Hl. simpl in Hl. apply elem_of_list_to_map_2 in Hl.
  apply list_elem_of_fmap in Hl as ([n p] & [= -> -> ->] & Hp).
  exists (c_concatenate []), []. split; [apply Hnew, list_elem_of_fmap; by exists (n, p)|].
  split; [done|]. split; [done|]. intros t Ht. by apply not_elem_of_nil in Ht.
Qed.

Lemma variables_at_naive program round :
  NoDup program.*1 → (∀ i, i < round → program_ok set_semantics d program (naive set_semantics d program i)) →
  let vars := variables_at set_semantics delta_join d program (new_variables program.*1) round in
  in_scope (naive set_semantics d program round) vars ∧ ∀ name, name ∈ program.*1 → is_Some (vars !! name).
Proof.
  intros Hnd. induction round as [|round IH]; intros Hok; [apply new_variables_in_scope|].
  destruct IH as [Hscope Hvars]; [intros i Hi; apply Hok; lia|]. cbn [variables_at].
  destruct (round_computes delta_join set_semantics d program _ _ Hnd Hvars Hscope) as (defs & h & -> & Hdefs & Hin);
    [apply Hok; lia|done].
Qed.

(** *** The collected rules *)
Definition program_of (all : list Rule) : list (Aid * Plan) :=
  (λ rule, (r_name rule, r_plan rule)) <$> sort_by rule_le all.

Lemma program_of_names all : (program_of all).*1 = r_name <$> sort_by rule_le all.
Proof. unfold program_of. by rewrite <- list_fmap_compose. Qed.

Lemma duplicate_definition_NoDup (all : list Rule) :
  NoDup (r_name <$> all) → duplicate_definition all = None.
Proof.
  intros Hnd. unfold duplicate_definition.
  match goal with |- head (omap ?f ?l) = None =>
    enough (∀ i, i ∈ l → f i = None) as Hall; [generalize Hall; generalize l|] end.
  { intros l. clear Hall. induction l as [|i l IH]; intros Hall; [done|]. cbn [omap list_omap].
    rewrite (Hall i) by set_solver. apply IH. set_solver. }
  intros i Hi%elem_of_seq. destruct (all !! i) as [x|] eqn:Hx; [|done].
  destruct (all !! (i - 1)) as [y|] eqn:Hy; [|done]. case_bool_decide as Hxy; [|done]. exfalso.
  assert (i = i - 1); [|lia]. eapply (NoDup_lookup (r_name <$> all)); [done|..].
  - by rewrite list_lookup_fmap, Hx.
  - by rewrite list_lookup_fmap, Hy, Hxy.
Qed.

Lemma collected_program name all :
  rules_named d → collect_dependencies d [name] = Ret (Ok all) →
  canonical_rules name all = Ok (sort_by rule_le all) ∧
  NoDup (program_of all).*1 ∧ name ∈ (program_of all).*1.
Proof.
  intros Hnamed Hc. pose proof (collect_spec d [name] Hnamed) as Hspec. rewrite Hc in Hspec.
  destruct Hspec as [seen Hcoll]. destruct (collecting_done d [name] seen all Hcoll) as (Hneed & _ & _ & Hnd).
  assert (NoDup (r_name <$> sort_by rule_le all)) as Hsorted.
  { rewrite sort_by_perm. apply Hnd, NoDup_singleton. }
  assert (name ∈ r_name <$> sort_by rule_le all) as Hname.
  { rewrite sort_by_perm. apply Hneed, needed_root. set_solver. }
  rewrite program_of_names. split; [|done]. unfold canonical_rules.
  rewrite bool_decide_false, duplicate_definition_NoDup by (try done; intros ->; by apply not_elem_of_nil in Hname).
  done.
Qed.

Lemma implement_collected name all :
  rules_named d → collect_dependencies d [name] = Ret (Ok all) →
  program_ok set_semantics d (program_of all) (naive set_semantics d (program_of all) 0) →
  ∃ h, implement set_semantics delta_join d name = Ret (Ok ({[ name := λ round,
    variables_at set_semantics delta_join d (program_of all) (new_variables (program_of all).*1) round !! name ]}, h)).
Proof.
  intros Hnamed Hc Hok. destruct (collected_program name all Hnamed Hc) as (Hcan & Hnd & Hname).
  unfold implement. rewrite Hc. simpl. rewrite Hcan. fold (program_of all). rewrite <- program_of_names.
  destruct (new_variables_in_scope (program_of all)) as [Hscope Hvars].
  destruct (Hvars name Hname) as [v ->].
  destruct (round_computes delta_join set_semantics d _ _ _ Hnd Hvars Hscope Hok) as (defs & h & -> & _). simpl. eauto.
Qed.

Lemma round_contents name all round :
  rules_named d → collect_dependencies d [name] = Ret (Ok all) →
  (∀ i, i < round → program_ok set_semantics d (program_of all) (naive set_semantics d (program_of all) i)) →
  ∃ c l, variables_at set_semantics delta_join d (program_of all) (new_variables (program_of all).*1) round !! name
      = Some c ∧ run c = Ret l ∧ l ≡ rule_contents (naive set_semantics d (program_of all) round) name.
Proof.
  intros Hnamed Hc Hok. destruct (collected_program name all Hnamed Hc) as (_ & Hnd & Hname).
  destruct (variables_at_naive (program_of all) round Hnd Hok) as [Hscope _].
  assert (∃ k l, naive set_semantics d (program_of all) round !! name = Some (k, l)) as (k & l & Hl).
  { apply list_elem_of_fmap in Hname as ([n p] & -> & Hp).
    assert (∀ f : Plan → nat * wlist (list Value), ∃ k l,
      list_to_map (M := RuleContents) ((λ rule, (rule.1, f rule.2)) <$> program_of all) !! n = Some (k, l)) as Hf.
    { intros f. exists (f p).1, (f p).2. rewrite <- surjective_pairing.
      apply elem_of_list_to_map; [by rewrite <- list_fmap_compose|]. apply list_elem_of_fmap. by exists (n, p). }
    destruct round; [apply (Hf (λ p, (length (relation_variables p), [])))|].
    apply (Hf (λ p, (length (relation_variables p), rule_tuples set_semantics d (naive set_semantics d (program_of all) round) p))). }
  destruct (Hscope name k l Hl) as (c & l' & Hc' & Hrun & Heq & _). exists c, l'.
  split; [done|]. split; [done|]. unfold rule_contents. by rewrite Hl.
Qed.

(** (rules compute the rounds of their naive evaluation).  Let every rule be
    registered under its name, and the collected rules' plans be well-formed (and,
    under set semantics, of non-negative weights) on the contents of the first
    rounds of the naive evaluation.  Then the query is implemented without an
    error or a panic, and its relation holds in every such round, and in the next
    one, exactly the tuples of the naive evaluation. *)
Theorem implement_rounds name all n :
  rules_named d → collect_dependencies d [name] = Ret (Ok all) →
  (∀ i, i ≤ n → program_ok set_semantics d (program_of all) (naive set_semantics d (program_of all) i)) →
  ∃ left h, implement set_semantics delta_join d name = Ret (Ok ({[name := left]}, h)) ∧
    ∀ i, i ≤ S n → ∃ c l, left i = Some c ∧ run c = Ret l ∧
      ∀ t, wt l t = wt (rule_contents (naive set_semantics d (program_of all) i) name) t.
Proof.
  intros Hnamed Hc Hok. destruct (implement_collected name all Hnamed Hc) as [h Hi]; [apply Hok; lia|].
  eexists _, h. split; [exact Hi|]. intros i Hle. apply round_contents; [done..|].
  intros j Hj. apply Hok. lia.
Qed.

(** C3 (recursive rules reach a fixed point).  If moreover round [n + 1] of the
    naive evaluation repeats the contents of round [n], then from round [n] on
    the query's relation does not change, so that this is what leaves the
    iterative scope; and these contents solve the rules: every rule holds exactly
    what its plan computes from them. *)
Theorem implement_fixpoint name all n :
  rules_named d → collect_dependencies d [name] = Ret (Ok all) →
  (∀ i, i ≤ n → program_ok set_semantics d (program_of all) (naive set_semantics d (program_of all) i)) →
  same_contents (naive set_semantics d (program_of all) (S n)) (naive set_semantics d (program_of all) n) →
  (∃ left h, implement set_semantics delta_join d name = Ret (Ok ({[name := left]}, h)) ∧
     ∀ i, n ≤ i → ∃ c l, left i = Some c ∧ run c = Ret l ∧
       ∀ t, wt l t = wt (rule_contents (naive set_semantics d (program_of all) n) name) t) ∧
  ∀ x p, (x, p) ∈ program_of all →
    ∀ t, wt (rule_contents (naive set_semantics d (program_of all) n) x) t =
         wt (rule_tuples set_semantics d (naive set_semantics d (program_of all) n) p) t.
Proof.
  intros Hnamed Hc Hok Hs. split.
  - destruct (implement_collected name all Hnamed Hc) as [h Hi]; [apply Hok; lia|].
    eexists _, h. split; [exact Hi|]. intros i Hle.
    destruct (round_contents name all i Hnamed Hc) as (c & l & Hl & Hrun & Heq).
    { intros j _. destruct (decide (j ≤ n)); [by apply Hok|].
      eapply program_ok_same; [|apply (Hok n); lia]. symmetry. apply naive_stable; [done|lia]. }
    exists c, l. split; [done|]. split; [done|]. intros t. rewrite (Heq t).
    apply rule_contents_same. by apply naive_stable.
  - intros x p Hp t. symmetry. rewrite <- (rule_contents_same _ _ x Hs t).
    destruct (collected_program name all Hnamed Hc) as (_ & Hnd & _). cbn [naive]. unfold rule_contents.
    unfold naive_round. erewrite (elem_of_list_to_map_1 _ x (length (relation_variables p), rule_tuples set_semantics d _ p)); [done| |].
    + by rewrite <- list_fmap_compose.
    + apply list_elem_of_fmap. by exists (x, p).
Qed.
End rule_refinement.
