(* ===== verification/RuleRuns.v ===== *)
(** * A recursive query on concrete data

    The transitive closure of an attribute, in the model of the dataflow
    interface: the rounds of its rule reach a fixed point. *)
From Stdlib Require Import ZArith NArith Lia.
From stdpp Require Import base strings numbers sets gmap fin_maps list.
From S2P Require Import Prelude Timestamps Values Bindings HectorPlan Sessions Weighted.
From S2P Require Import Dataflow Domains Relations RelationTheorems PlanOps JoinTheorems Plans.
From S2P Require Import Assignments PlanReference PlanStages PlanSemantics PlanRuns Rules RuleTheorems RuleSemantics.

Section rule_runs.
#[local] Existing Instances extern_model diff_model trace_model timely_model set_iteration_model.

(** Small sums of non-negative weights do not overflow. *)
Definition small_weights {D} (l : wlist D) : bool :=
  forallb (λ p, 0 <=? p.2)%Z l && (sumZ l.*2 <? 2 ^ 63)%Z.

Lemma small_weights_nonnegative (l : wlist Assignment) : small_weights l = true → nonnegative l.
Proof.
  unfold small_weights. intros [Hpos Hsum]%andb_true_iff m. rewrite forallb_forall in Hpos.
  assert (0 ≤ wsum (indicator m) l ≤ sumZ l.*2)%Z as Hb.
  { clear Hsum. induction l as [|[x w] l IH]; [done|].
    assert (0 ≤ w)%Z by (specialize (Hpos (x, w)); simpl in Hpos; apply Z.leb_le, Hpos; by left).
    assert (0 ≤ wsum (indicator m) l ≤ sumZ l.*2)%Z by (apply IH; intros y Hy; apply Hpos; by right).
    rewrite wsum_cons. csimpl. unfold indicator at 1 3. unfold sumZ in *. simpl. case_decide; lia. }
  unfold wt. rewrite wrap_i64_id; [lia|]. unfold in_i64. apply Z.ltb_lt in Hsum. lia.
Qed.

Definition edges : wlist (Value * Value) := [((VEid 1, VEid 2), 1%Z); ((VEid 2, VEid 3), 1%Z)].

(** [?x ?y] where an edge, or an edge and a path, lead from [?x] to [?y]. *)
Definition path : Rule :=
  Rule_named "path" (PUnion (mkUnion [1; 2]%N
    [PMatchA 1 "edge" 2;
     PProject (mkProject [1; 2]%N
       (PJoin (mkJoin [3%N] (PMatchA 1 "edge" 3) (PNameExpr [3; 2]%N "path"))))])).

Definition graph : Domain N Rule :=
  set_rules (domain (collection_as_singleton_domain (T := N) (Ret edges) [0%N] "edge"))
    {[ "path" := path ]}.

Lemma graph_named : rules_named graph.
Proof.
  intros n r. unfold graph. cbn [rules set_rules]. rewrite lookup_singleton_Some. by intros [<- <-].
Qed.

Lemma path_collected : collect_dependencies graph ["path"] = Ret (Ok [path]).
Proof. vm_refl. Qed.

Lemma edge_usable : attribute_usable graph "edge".
Proof. exists edges. vm_refl. Qed.

(** What is left to check for the contents of a round. *)
Definition round_check (named : gmap Aid (nat * wlist (list Value))) : bool :=
  bool_decide (fst <$> (named !! "path") = Some 2) &&
  small_weights (concat ((λ c, wmap (restrict [1; 2]%N) (reference_in graph named c)) <$>
    match r_plan path with PUnion p => un_plans p | _ => [] end)).

Lemma path_ok named : round_check named = true → rule_ok false graph named (r_plan path).
Proof.
  unfold round_check. intros [Hn Hu]%andb_true_iff. split; [|done]. split; [by apply NoDup_pair|].
  split; [|by apply small_weights_nonnegative]. cbn [un_plans foldr path r_plan Rule_named un_variables].
  assert (NoDup [1; 2]%N) as Hnd by (by apply NoDup_pair).
  split; [split; [split; [done|exact edge_usable]|split; [done|split; [|set_solver]]]|].
  { cbn [bound]. set_solver. }
  split; [|done]. split; [|split; [done|split; [|done]]].
  2: { cbn [bound jn_left_plan jn_right_plan]. set_solver. }
  split; [|split; [done|split; [|done]]].
  2: { cbn [bound jn_left_plan jn_right_plan]. set_solver. }
  cbn [plan_ok jn_left_plan jn_right_plan jn_variables bound pj_plan]. split_and!; try done.
  - exact edge_usable.
  - by apply NoDup_pair.
  - case_bool_decide as Hpath; [|done]. destruct (named !! "path") as [[k l]|]; simplify_eq/=. by exists l.
  - apply NoDup_singleton.
Qed.

Lemma program_ok_checked n :
  forallb (λ i, round_check (naive false graph (program_of [path]) i)) (seq 0 (S n)) = true →
  ∀ i, i ≤ n → program_ok false graph (program_of [path]) (naive false graph (program_of [path]) i).
Proof.
  intros Hall i Hi name p Hp. rewrite forallb_forall in Hall.
  change (program_of [path]) with [("path", r_plan path)] in Hp.
  apply list_elem_of_singleton in Hp as [= -> ->]. apply path_ok, Hall, in_seq. lia.
Qed.

Lemma rounds_checked :
  forallb (λ i, round_check (naive false graph (program_of [path]) i)) (seq 0 3) = true.
Proof. vm_refl. Qed.

Lemma path_stable :
  same_contents (naive false graph (program_of [path]) 3) (naive false graph (program_of [path]) 2).
Proof.
  assert (naive false graph (program_of [path]) 3 = naive false graph (program_of [path]) 2) as Heq by vm_refl.
  by rewrite Heq.
Qed.

Lemma path_1_3 :
  wt (rule_contents (naive false graph (program_of [path]) 2) "path") [VEid 1; VEid 3] = 1%Z.
Proof. vm_refl. Qed.

Lemma implement_rounds_witness :
  ∃ left h, implement false no_delta_join graph "path" = Ret (Ok ({["path" := left]}, h)) ∧
    ∃ c l, left 2 = Some c ∧ run c = Ret l ∧ wt l [VEid 1; VEid 3] = 1%Z.
Proof.
  destruct (implement_rounds no_delta_join false graph "path" [path] 2 graph_named path_collected
    (program_ok_checked 2 rounds_checked)) as (left & h & Hi & Hrounds).
  exists left, h. split; [exact Hi|]. destruct (Hrounds 2) as (c & l & Hc & Hl & Hw); [lia|].
  exists c, l. split; [exact Hc|]. split; [exact Hl|]. rewrite Hw. exact path_1_3.
Defined.

Lemma implement_fixpoint_witness :
  ∃ left h, implement false no_delta_join graph "path" = Ret (Ok ({["path" := left]}, h)) ∧
    ∀ i, 2 ≤ i → ∃ c l, left i = Some c ∧ run c = Ret l ∧ wt l [VEid 1; VEid 3] = 1%Z.
Proof.
  destruct (implement_fixpoint no_delta_join false graph "path" [path] 2 graph_named path_collected
    (program_ok_checked 2 rounds_checked) path_stable) as [(left & h & Hi & Hrounds) _].
  exists left, h. split; [exact Hi|]. intros i Hle. destruct (Hrounds i Hle) as (c & l & Hc & Hl & Hw).
  exists c, l. split; [exact Hc|]. split; [exact Hl|]. rewrite Hw. exact path_1_3.
Defined.

Lemma collect_dependencies_spec_witness :
  ∃ result, collect_dependencies graph ["path"] = Ret result ∧
    match result with
    | Ok all => ∀ n, n ∈ r_name <$> all ↔ needed graph ["path"] n
    | Err _ => False
    end.
Proof.
  destruct (collect_dependencies_spec graph ["path"] graph_named) as (result & Hr & Hspec).
  exists result. split; [exact Hr|]. rewrite path_collected in Hr. injection Hr as <-. apply Hspec.
Defined.

(** A rule the optimizer implements. *)
Definition edge_rule : Rule := Rule_named "edges" (PMatchA 1 "edge" 2).
Definition edge_graph : Domain N Rule := set_rules graph {[ "edges" := edge_rule ]}.

Lemma edge_graph_named : rules_named edge_graph.
Proof.
  intros n r. unfold edge_graph. cbn [rules set_rules]. rewrite lookup_singleton_Some. by intros [<- <-].
Qed.

Lemma edges_implemented :
  match implement_neu false no_delta_join edge_graph "edges" SYM with
  | Ret (Ok _, _) => true
  | _ => false
  end = true.
Proof. vm_refl. Qed.

Lemma implement_neu_single_witness :
  ∃ r, collect_dependencies edge_graph ["edges"] = Ret (Ok [r]) ∧ r_name r = "edges".
Proof.
  destruct (implement_neu false no_delta_join edge_graph "edges" SYM) as [[[res|e] s]|m] eqn:Hi.
  - exact (implement_neu_single no_delta_join false edge_graph "edges" SYM res s edge_graph_named Hi).
  - exfalso. pose proof edges_implemented as H. rewrite Hi in H. discriminate H.
  - exfalso. pose proof edges_implemented as H. rewrite Hi in H. discriminate H.
Defined.
End rule_runs.
