(* ===== verification/LastWriteWins.v ===== *)
(** * Last-write-wins attributes (src/src/operators/last_write_wins.rs)

    The operator receives the batches of an arrangement, presents the updates of
    every key in the order of their times to a state machine, and the state
    machine replaces the value of the key.  A batch is what its cursor walks
    through: keys with their values, times and differences.  The states of
    timely's state machine operator, a hash map, are observed by lookups. *)
From Stdlib Require Import ZArith NArith Lia Sorting.Sorted.
From stdpp Require Import base strings numbers sets list sorting.
From S2P Require Import Prelude Timestamps Values.

Section last_write_wins.
Context `{EV : ExternValues} {T : Type} `{OT : Ord T}.

Abbreviation Update := (Value * Value * T * Z)%type (only parsing).
Abbreviation Batch := (list (Value * list (Value * list (T * Z)))) (only parsing).

Definition u_key (u : Update) : Value := u.1.1.1.
Definition u_value (u : Update) : Value := u.1.1.2.
Definition u_time (u : Update) : T := u.1.2.
Definition u_diff (u : Update) : Z := u.2.

(** The updates of a key, in the order the cursor finds them. *)
Definition key_tuples (key : Value) (vals : list (Value * list (T * Z))) : list Update :=
  val ← vals; (λ td : T * Z, (key, val.1, td.1, td.2)) <$> val.2.

(** The closure of the first operator, on one batch. *)
Definition batch_updates (batch : Batch) : list Update :=
  key ← batch; sort_by (λ a b, cmp_le (u_time a) (u_time b)) (key_tuples key.1 key.2).

(** The closure of the state machine: whether to drop the state, the state and
    the output. *)
Definition lww_fold (e : Value) (next_v : Value) (t : T) (diff : Z) (v : option Value)
    : outcome (bool * option Value * list Update) :=
  match v with
  | None =>
      let! _ := assert_that "Received a retraction of a new key on a LastWriteWins attribute"
                  (0 <? diff)%Z in
      Ret (false, Some next_v, [(e, next_v, t, 1%Z)])
  | Some old_v =>
      if (0 <? diff)%Z
      then Ret (false, Some next_v, [(e, old_v, t, (-1)%Z); (e, next_v, t, 1%Z)])
      else Ret (true, Some old_v, [(e, old_v, t, (-1)%Z)])
  end.

(** [state_machine]: a key without a state starts with the default, [None]. *)
Definition States : Type := Value → option (option Value).
Definition set_state (s : States) (e : Value) (v : option (option Value)) : States :=
  λ e', if decide (e' = e) then v else s e'.

Fixpoint state_machine (s : States) (updates : list Update) : outcome (States * list Update) :=
  match updates with
  | [] => Ret (s, [])
  | u :: updates =>
      let e := u_key u in
      let! '(remove, v, out) := lww_fold e (u_value u) (u_time u) (u_diff u) (default None (s e)) in
      let s := if remove : bool then set_state s e None else set_state s e (Some v) in
      let! '(s, rest) := state_machine s updates in
      Ret (s, out ++ rest)
  end.

Definition last_write_wins (batches : list Batch) : outcome (list Update) :=
  let! '(_, out) := state_machine (λ _, None) (concat (batch_updates <$> batches)) in
  Ret out.

(** ** What the operator promises *)

(** The value of a key after some updates: the last one written, unless it was
    retracted since. *)
Definition written (e : Value) (v : option Value) (u : Update) : option Value :=
  if decide (u_key u = e) then if (0 <? u_diff u)%Z then Some (u_value u) else None else v.
Definition value_after (e : Value) (v : option Value) (updates : list Update) : option Value :=
  foldl (written e) v updates.

(** The updates and the weight of a record as of a time. *)
Definition until (t : T) (updates : list Update) : list Update :=
  filter (λ u, cmp_le (u_time u) t = true) updates.
Definition weight (updates : list Update) (e v : Value) : Z :=
  sumZ (u_diff <$> filter (λ u, u_key u = e ∧ u_value u = v) updates).

Definition is_value (v : option Value) (x : Value) : Z := if decide (v = Some x) then 1%Z else 0%Z.

(** A batch presents each key once, and batches cover successive times. *)
Definition batch_ok (batch : Batch) : Prop := NoDup batch.*1.
Definition successive (batches : list Batch) : Prop :=
  ∀ i j bi bj u u', i < j → batches !! i = Some bi → batches !! j = Some bj →
    u ∈ batch_updates bi → u' ∈ batch_updates bj → cmp_le (u_time u) (u_time u') = true.

Definition time_sorted : list Update → Prop :=
  StronglySorted (λ a b, cmp_le (u_time a) (u_time b) = true).
End last_write_wins.

Section last_write_wins_theorems.
Context `{EV : ExternValues} {T : Type} `{TO : TotalOrd T}.
Abbreviation Update := (Value * Value * T * Z)%type (only parsing).
Implicit Types (e v : Value) (s : States) (us out : list Update) (t : T).

Definition current s e : option Value := default None (s e).

Lemma weight_app us us' e v : weight (us ++ us') e v = (weight us e v + weight us' e v)%Z.
Proof. unfold weight. by rewrite filter_app, fmap_app, sumZ_app. Qed.

Lemma weight_other us e v : (∀ u, u ∈ us → u_key u ≠ e) → weight us e v = 0%Z.
Proof.
  intros Hne. unfold weight. induction us as [|u us IH]; [done|].
  rewrite filter_cons, decide_False; [apply IH; set_solver|]. intros [He _]. apply (Hne u); set_solver.
Qed.

Lemma filter_all {A} (P : A → Prop) `{!∀ x, Decision (P x)} (l : list A) :
  (∀ x, x ∈ l → P x) → filter P l = l.
Proof.
  induction l as [|x l IH]; intros HP; [done|]. rewrite filter_cons, decide_True by (apply HP; set_solver).
  by rewrite IH by set_solver.
Qed.

Lemma until_app t us us' : until t (us ++ us') = until t us ++ until t us'.
Proof. apply filter_app. Qed.

(** The output of one update: the old value is replaced by the new one. *)
Lemma lww_fold_spec u (w : option Value) r x out :
  lww_fold (u_key u) (u_value u) (u_time u) (u_diff u) w = Ret (r, x, out) →
  (if r : bool then None else x) = written (u_key u) w u ∧
  (∀ o, o ∈ out → u_key o = u_key u ∧ u_time o = u_time u) ∧
  ∀ v, weight out (u_key u) v = (is_value (written (u_key u) w u) v - is_value w v)%Z.
Proof.
  unfold lww_fold, written. rewrite decide_True by done.
  destruct w as [old|]; [destruct (0 <? u_diff u)%Z eqn:Hd|]; intros Hf; outcome_inv;
    (split; [by try match goal with H : (0 <? _)%Z = true |- _ => rewrite H end|]); split; try set_solver;
    intros v; unfold weight, is_value, u_key, u_value, u_diff in *; simpl; rewrite !filter_cons; simpl;
    try match goal with H : (0 <? _)%Z = true |- _ => rewrite H end; repeat case_decide; naive_solver lia.
Qed.

(** The state after one update. *)
Definition next_state s (u : Update) (remove : bool) (v : option Value) : States :=
  if remove then set_state s (u_key u) None else set_state s (u_key u) (Some v).

Lemma current_next s (u : Update) (remove : bool) (w : option Value) e :
  (if remove then None else w) = written (u_key u) (current s (u_key u)) u →
  current (next_state s u remove w) e = written e (current s e) u.
Proof.
  intros Hw. unfold current, next_state, set_state in *.
  destruct (decide (u_key u = e)) as [<-|Hne].
  - rewrite <- Hw. destruct remove; simpl; by rewrite decide_True.
  - unfold written. rewrite (decide_False (P := u_key u = e)) by done.
    destruct remove; simpl; by rewrite decide_False.
Qed.

Lemma value_after_cons e (w : option Value) (u : Update) us :
  value_after e w (u :: us) = value_after e (written e w u) us.
Proof. done. Qed.

Lemma value_after_none e (w : option Value) us :
  (∀ u, u ∈ us → u_key u ≠ e) → value_after e w us = w.
Proof.
  revert w; induction us as [|u us IH]; intros w Hne; [done|]. rewrite value_after_cons.
  rewrite IH by set_solver. unfold written. rewrite decide_False; [done|]. apply Hne. set_solver.
Qed.

(** Nothing of a key is due before its first update. *)
Lemma until_before e t (u : Update) us :
  time_sorted (filter (λ u, u_key u = e) (u :: us)) → u_key u = e → cmp_le (u_time u) t = false →
  ∀ u', u' ∈ until t us → u_key u' ≠ e.
Proof.
  intros Hs Hu Ht u' [Hu' Hin]%list_elem_of_filter He.
  rewrite filter_cons, decide_True in Hs by done. apply StronglySorted_inv in Hs as [_ Hall].
  rewrite Forall_forall in Hall. specialize (Hall u').
  rewrite (cmp_le_trans (u_time u) (u_time u') t) in Ht; [done| |done].
  apply Hall, list_elem_of_filter. done.
Qed.

Lemma state_machine_weight e t s us s' out :
  state_machine s us = Ret (s', out) → time_sorted (filter (λ u, u_key u = e) us) →
  current s' e = value_after e (current s e) us ∧
  ∀ v, weight (until t out) e v =
    (is_value (value_after e (current s e) (until t us)) v - is_value (current s e) v)%Z.
Proof.
  revert s out. induction us as [|u us IH]; intros s out; simpl.
  { intros Hr _. outcome_inv. split; [done|]. intros v. unfold weight. simpl. lia. }
  intros Hr Hs. apply obind_Ret in Hr as ([[r x] o] & Hf & Hr). fold (next_state s u r x) in Hr.
  apply obind_Ret in Hr as ([s1 rest] & Hrest & Hr). injection Hr as <- <-.
  destruct (lww_fold_spec u _ r x o Hf) as (Hx & Ho & Hw). fold (current s (u_key u)) in Hx, Hw.
  destruct (IH _ _ Hrest) as [Hcur Hwt].
  { rewrite filter_cons in Hs. case_decide; [by apply StronglySorted_inv in Hs as [? _]|done]. }
  rewrite (current_next s u r x e Hx) in Hcur, Hwt. split; [exact Hcur|].
  intros v. rewrite until_app, weight_app, Hwt.
  assert (until t (u :: us) = if decide (cmp_le (u_time u) t = true) then u :: until t us else until t us)
    as -> by (unfold until; by rewrite filter_cons).
  destruct (decide (u_key u = e)) as [<-|Hne].
  - case_decide as Ht.
    + rewrite value_after_cons. assert (until t o = o) as ->.
      { apply filter_all. intros y Hy. by destruct (Ho y Hy) as [_ ->]. }
      rewrite Hw. lia.
    + rewrite !value_after_none; [|eapply until_before; [done|done|by destruct (cmp_le _ _)]..].
      assert (weight (until t o) (u_key u) v = 0%Z) as ->; [|lia].
      assert (until t o = []) as ->; [|done]. apply elem_of_nil_inv.
      intros y [Hy Hin]%list_elem_of_filter. destruct (Ho y Hin) as [_ Hty]. by rewrite Hty in Hy.
  - rewrite (weight_other (until t o)) by
      (intros y [_ Hy]%list_elem_of_filter; destruct (Ho y Hy) as [-> _]; done).
    assert (written e (current s e) u = current s e) as Hsame by (unfold written; by rewrite decide_False).
    case_decide; rewrite ?value_after_cons, Hsame; lia.
Qed.

(** ** The updates of a key arrive in the order of their times *)
Abbreviation Batch := (list (Value * list (Value * list (T * Z)))) (only parsing).
Implicit Types (batch : Batch) (batches : list Batch).

Lemma key_tuples_key (key : Value) (vals : list (Value * list (T * Z))) u :
  u ∈ key_tuples key vals → u_key u = key.
Proof.
  unfold key_tuples. intros (val & Hu & _)%list_elem_of_bind.
  by apply list_elem_of_fmap in Hu as (td & -> & _).
Qed.

Lemma batch_sorted batch e :
  batch_ok batch → time_sorted (filter (λ u, u_key u = e) (batch_updates batch)).
Proof.
  unfold batch_ok, batch_updates, time_sorted. induction batch as [|[k vals] batch IH]; csimpl; [constructor|].
  intros [Hk Hnd]%NoDup_cons. rewrite filter_app. set (le := λ a b : Update, cmp_le (u_time a) (u_time b)).
  assert (∀ u, u ∈ sort_by le (key_tuples k vals) → u_key u = k) as Hkey.
  { intros u. rewrite sort_by_perm. apply key_tuples_key. }
  destruct (decide (k = e)) as [->|Hne].
  - rewrite (filter_all (λ u, u_key u = e) (sort_by le _)) by done.
    assert (filter (λ u : Update, u_key u = e) (batch ≫= λ key, sort_by le (key_tuples key.1 key.2)) = []) as ->.
    { apply elem_of_nil_inv. intros u [Hu ([k' vs'] & Hin & Hb)%list_elem_of_bind]%list_elem_of_filter.
      rewrite sort_by_perm in Hin. apply key_tuples_key in Hin. simpl in Hin. apply Hk.
      apply list_elem_of_fmap. exists (k', vs'). split; [|done]. simpl. congruence. }
    rewrite app_nil_r. apply sort_by_sorted; unfold le; intros *; [apply cmp_le_total|apply cmp_le_trans].
  - assert (filter (λ u, u_key u = e) (sort_by le (key_tuples k vals)) = []) as ->; [|by apply IH].
    apply elem_of_nil_inv. intros u [Hu Hin]%list_elem_of_filter. apply Hkey in Hin. congruence.
Qed.

Lemma batches_sorted batches e :
  Forall batch_ok batches → successive batches →
  time_sorted (filter (λ u, u_key u = e) (concat (batch_updates <$> batches))).
Proof.
  induction 1 as [|batch batches Hb _ IH]; intros Hsucc; csimpl; [constructor|].
  rewrite filter_app. apply StronglySorted_app_2; [|by apply batch_sorted|].
  - intros u u' [_ Hu]%list_elem_of_filter [_ Hu']%list_elem_of_filter.
    apply list_elem_of_In, in_concat in Hu' as (us & Hus & Hu'). apply list_elem_of_In in Hus, Hu'.
    apply list_elem_of_fmap in Hus as (b' & -> & [i Hi]%list_elem_of_lookup).
    apply (Hsucc 0 (S i) batch b'); [lia|done..].
  - apply IH. intros i j bi bj u u' Hij Hi Hj. apply (Hsucc (S i) (S j)); [lia|done..].
Qed.

(** ** Panics *)
Lemma state_machine_panic s us :
  is_panic (state_machine s us) = true ↔
  ∃ before u after, us = before ++ u :: after ∧ (u_diff u ≤ 0)%Z ∧
    value_after (u_key u) (current s (u_key u)) before = None.
Proof.
  revert s. induction us as [|u us IH]; intros s; simpl.
  { split; [done|]. intros (before & u & after & Hus & _). by destruct before. }
  destruct (lww_fold _ _ _ _ _) as [[[r x] o]|m] eqn:Hf; simpl.
  - fold (next_state s u r x). specialize (IH (next_state s u r x)).
    destruct (lww_fold_spec u _ r x o Hf) as (Hx & _). fold (current s (u_key u)) in Hx.
    assert (is_panic (let! '(s, rest) := state_machine (next_state s u r x) us in Ret (s, o ++ rest)) =
      is_panic (state_machine (next_state s u r x) us)) as ->
      by (by destruct (state_machine (next_state s u r x) us) as [[]|]).
    rewrite IH. split.
    + intros (before & u' & after & -> & Hd & Hv). exists (u :: before), u', after.
      split; [done|]. split; [done|]. rewrite value_after_cons. by rewrite (current_next s u r x _ Hx) in Hv.
    + intros ([|u0 before] & u' & after & [= <- ->] & Hd & Hv).
      * exfalso. unfold value_after in Hv. simpl in Hv. unfold current in Hv. unfold lww_fold in Hf.
        rewrite Hv in Hf. apply Z.ltb_ge in Hd. by rewrite Hd in Hf.
      * exists before, u', after. split; [done|]. split; [done|].
        by rewrite (current_next s u r x _ Hx).
  - split; [|done]. intros _. exists [], u, us. split; [done|].
    unfold lww_fold in Hf. unfold current. destruct (default None (s (u_key u))); [by destruct (0 <? _)%Z|].
    destruct (Z.ltb_spec 0 (u_diff u)); [done|]. split; [lia|done].
Qed.

(** C16 (last write wins).  Whatever the batches, one that presents each key
    once and follows the times of its predecessors: the operator panics exactly
    if an update retracts a key that has no value.  Otherwise, as of every time,
    its output holds for each key exactly one value, with weight one, if the last
    update of the key up to then was a write, namely the value written, and none
    if it was a retraction or there was none. *)
Theorem last_write_wins_spec batches :
  Forall batch_ok batches → successive batches →
  let updates := concat (batch_updates <$> batches) in
  (is_panic (last_write_wins batches) = true ↔
   ∃ before u after, updates = before ++ u :: after ∧ (u_diff u ≤ 0)%Z ∧
     value_after (u_key u) None before = None) ∧
  ∀ out, last_write_wins batches = Ret out → ∀ t e v,
    weight (until t out) e v = is_value (value_after e None (until t updates)) v.
Proof.
  intros Hok Hsucc updates. unfold last_write_wins. fold updates.
  pose proof (state_machine_panic (λ _, None) updates) as Hp.
  destruct (state_machine _ updates) as [[s out]|m] eqn:Hrun; simpl; (split; [exact Hp|]); [|done].
  intros _ [= <-] t e v. destruct (state_machine_weight e t _ _ _ _ Hrun) as [_ Hw]; [by apply batches_sorted|].
  rewrite (Hw v). unfold is_value at 2. unfold current. simpl. lia.
Qed.
End last_write_wins_theorems.

(** ** A concrete run *)
Section lww_run.
#[local] Existing Instances extern_model.

(** The value of an entity, written at the times 0, 3 and 7. *)
Definition lww_batches : list (list (Value * list (Value * list (N * Z)))) :=
  [[(VEid 1, [(VNumber 10, [(3%N, 1%Z)]); (VNumber 20, [(0%N, 1%Z)])])];
   [(VEid 1, [(VNumber 5, [(7%N, 1%Z)])])]].

Lemma lww_batches_ok : Forall batch_ok lww_batches ∧ successive lww_batches.
Proof.
  split; [repeat constructor; by intros ?%not_elem_of_nil|].
  intros i j bi bj u u' Hij Hi Hj Hu Hu'.
  destruct i as [|[|i]], j as [|[|j]]; try lia; try done. injection Hi as <-. injection Hj as <-.
  change (u ∈ [(VEid 1, VNumber 20, 0%N, 1%Z); (VEid 1, VNumber 10, 3%N, 1%Z)]) in Hu.
  change (u' ∈ [(VEid 1, VNumber 5, 7%N, 1%Z)]) in Hu'. set_solver.
Qed.

(** A retraction of the only value, and one more. *)
Definition retracted_twice : list (list (Value * list (Value * list (N * Z)))) :=
  [[(VEid 1, [(VNumber 10, [(0%N, 1%Z); (3%N, (-1)%Z); (4%N, (-1)%Z)])])]].

Lemma retracted_twice_ok : Forall batch_ok retracted_twice ∧ successive retracted_twice.
Proof.
  split; [repeat constructor; by intros ?%not_elem_of_nil|].
  intros i j bi bj u u' Hij Hi Hj. destruct i as [|i], j as [|j]; try lia; done.
Qed.

Lemma last_write_wins_spec_witness :
  (∃ out, last_write_wins lww_batches = Ret out ∧
    weight (until 3%N out) (VEid 1) (VNumber 10) = 1%Z ∧ weight (until 3%N out) (VEid 1) (VNumber 20) = 0%Z) ∧
  is_panic (last_write_wins retracted_twice) = true.
Proof.
  split.
  - destruct (last_write_wins_spec lww_batches (proj1 lww_batches_ok) (proj2 lww_batches_ok)) as [_ H].
    destruct (last_write_wins lww_batches) as [out|m] eqn:Hrun; [|discriminate Hrun].
    exists out. split; [reflexivity|]. split; rewrite (H out eq_refl); reflexivity.
  - apply (last_write_wins_spec retracted_twice (proj1 retracted_twice_ok) (proj2 retracted_twice_ok)).
    exists [(VEid 1, VNumber 10, 0%N, 1%Z); (VEid 1, VNumber 10, 3%N, (-1)%Z)].
    exists (VEid 1, VNumber 10, 4%N, (-1)%Z), []. split; [reflexivity|]. split; [discriminate|reflexivity].
Defined.
End lww_run.
