(* ===== verification/Server.v ===== *)
(** * The server (src/src/server/mod.rs)

    The server's state and the handlers of its requests.  Dropping a shutdown
    handle presses its buttons: handlers that drop handles return the buttons
    pressed, in order.  The symbol counter of the optimizer is threaded through
    [interest].  The streams a source publishes, the last-write-wins operator on
    collections and Hector's delta pipelines are arguments; the scheduler, the
    timer and the event links are left out. *)
From Stdlib Require Import ZArith NArith Lia.
From stdpp Require Import base strings numbers sets gmap fin_maps list.
From S2P Require Import Prelude Timestamps Values Bindings HectorPlan Sessions Weighted.
From S2P Require Import Dataflow Domains DomainTheorems ScopedDomains Relations PlanOps Plans.
From S2P Require Import Rules RuleTheorems.

Record Configuration := mkConfiguration {
  cf_tick : option Duration;
  manual_advance : bool;
  enable_logging : bool;
  enable_optimizer : bool
}.
Definition Configuration_default : Configuration := mkConfiguration None false false false.

Section server.
Context `{EV : ExternValues, DF : Differential, SI : SetIteration}.
Context {T : Type} `{EqDecision T, PO : PartialOrderT T, LT : LatticeT T, TM : !Timely T}.
Context `{OT : Ord T, RW : Rewind T, DT : DefaultT T, TR : !Traces T}.
Context {Token : Type} `{Countable Token}.

Abbreviation Pairs := (Collection (Value * Value) Z) (only parsing).
Abbreviation Handle := (ShutdownHandle (Button (T := T))) (only parsing).
Abbreviation Implementation := (outcome (Implemented * Handle)) (only parsing).
Abbreviation Pressed := (list (Button (T := T))) (only parsing).

Context (set_semantics : bool) (delta_join : Domain T Rule → Hector → Implementation).
Context (last_write_wins : Pairs → Pairs) (into_time : T → Time).

Record Server := mkServer {
  config : Configuration;
  internal : Domain T Rule;
  interests : gmap Aid (gset Token);
  query_handles : gmap Aid Handle;
  probe : list T
}.

Definition set_internal (self : Server) (d : Domain T Rule) : Server :=
  mkServer (config self) d (interests self) (query_handles self) (probe self).
Definition set_interests (self : Server) (i : gmap Aid (gset Token)) : Server :=
  mkServer (config self) (internal self) i (query_handles self) (probe self).
Definition set_query_handles (self : Server) (h : gmap Aid Handle) : Server :=
  mkServer (config self) (internal self) (interests self) h (probe self).

Record Register := mkRegister { rg_rules : list Rule; rg_publish : list Aid }.

Definition Server_new (config : Configuration) : Server :=
  mkServer config (Domain_new default_time) ∅ ∅ [].

(** Dropping the handle of a map entry, if there is one. *)
Definition drop_entry (handles : gmap Aid Handle) (name : Aid) : Pressed :=
  match handles !! name with Some h => ShutdownHandle_drop h | None => [] end.

Definition Server_shutdown_query (self : Server) (name : Aid) : Server * Pressed :=
  (set_query_handles self (delete name (query_handles self)), drop_entry (query_handles self) name).

Definition Server_transact (self : Server) (tx_data : list Datom) (owner worker_index : N)
    : outcome (Server * Result unit Error) :=
  if (owner =? worker_index)%N then
    let! '(d, r) := Domain_transact (internal self) tx_data in
    Ret (set_internal self d, r)
  else Ret (self, Ok tt).

(** [interest]; inserting the new handle drops one stored under the name. *)
Definition Server_interest (self : Server) (name : Aid) (sym : N)
    : outcome (Server * Result Left Error * Pressed * N) :=
  let! '(implemented, sym) :=
    if enable_optimizer (config self)
    then implement_neu set_semantics (delta_join (internal self)) (internal self) name sym
    else let! r := implement set_semantics (delta_join (internal self)) (internal self) name in Ret (r, sym) in
  match implemented with
  | Err e => Ret (self, Err e, [], sym)
  | Ok (rel_map, shutdown_handle) =>
      match rel_map !! name with
      | None => Ret (self, Err (Error_fault
                  ("Relation of interest (" +:+ name +:+ ") wasn't actually implemented.")),
                  ShutdownHandle_drop shutdown_handle, sym)
      | Some relation =>
          Ret (set_query_handles self (<[name := shutdown_handle]> (query_handles self)),
               Ok relation, drop_entry (query_handles self) name, sym)
      end
  end.

Definition register_rule (d : Domain T Rule) (rule : Rule) : Domain T Rule :=
  if bool_decide (is_Some (rules d !! r_name rule)) then d
  else set_rules d (<[r_name rule := rule]> (rules d)).

Definition Server_register (self : Server) (req : Register) : Server * Result unit Error :=
  (set_internal self (foldl register_rule (internal self) (rg_rules req)), Ok tt).

(** ** Attributes *)

Definition apply_semantics (semantics : InputSemantics) (pairs : Pairs) : Pairs :=
  match semantics with
  | Raw => pairs
  | LastWriteWins => last_write_wins pairs
  | Distinct => c_distinct pairs
  end.

(** The slack and the indices an attribute's configuration asks for. *)
Definition configure (config : AttributeConfig) (scoped_domain : ScopedDomain T Rule)
    : outcome (ScopedDomain T Rule) :=
  let! scoped_domain :=
    match trace_slack config with
    | Some slack => let! slack := from_time slack in
                    Ret (Scoped_with_slack into_time scoped_domain slack)
    | None => Ret scoped_domain
    end in
  let! scoped_domain :=
    if bool_decide (input_semantics config ≠ LastWriteWins)
    then Scoped_with_query_support scoped_domain (query_support config)
    else Ret scoped_domain in
  if bool_decide (index_direction config = Both)
  then Scoped_with_reverse_indices scoped_domain else Ret scoped_domain.

(** [create_attribute]; [pairs] is the collection of the new input, whose
    capability is the least time. *)
Definition Server_create_attribute (self : Server) (pairs : Pairs) (name : Aid)
    (config : AttributeConfig) : outcome (Server * Result unit Error) :=
  let tuples := apply_semantics (input_semantics config) pairs in
  let! scoped_domain := configure config (handle_as_singleton_domain [] minimum tuples name) in
  let! d := Domain_add_assign (internal self) (Scoped_into scoped_domain) in
  Ret (set_internal self d, Ok tt).

(** An attribute a source publishes, and the frontier of its probe. *)
Record Sourced := mkSourced {
  so_aid : Aid; so_config : AttributeConfig; so_pairs : Pairs; so_frontier : list T
}.

Fixpoint register_streams (d : Domain T Rule) (streams : list Sourced) : outcome (Domain T Rule) :=
  match streams with
  | [] => Ret d
  | s :: streams =>
      let pairs := apply_semantics (input_semantics (so_config s)) (so_pairs s) in
      let! scoped_domain :=
        configure (so_config s) (collection_as_singleton_domain pairs (so_frontier s) (so_aid s)) in
      let! d := Domain_add_assign d (Scoped_into scoped_domain) in
      register_streams d streams
  end.

Definition Server_register_source (self : Server) (attribute_streams : list Sourced)
    : outcome (Server * Result unit Error) :=
  let! d := register_streams (internal self) attribute_streams in
  Ret (set_internal self d, Ok tt).

(** ** Time, interests, clients *)

Definition Server_advance_domain (self : Server) (name : option string) (next : T)
    : outcome (Server * Result unit Error) :=
  match name with
  | None => let! '(d, r) := Domain_advance_epoch (internal self) next in
            Ret (set_internal self d, r)
  | Some _ => Ret (self, Err (Error_unsupported "Named domains are not yet supported."))
  end.

Definition Server_uninterest (self : Server) (client : Token) (name : Aid)
    : Server * Result unit Error * Pressed :=
  match interests self !! name with
  | None => (self, Ok tt, [])
  | Some entry =>
      let entry := entry ∖ {[client]} in
      let self := set_interests self (<[name := entry]> (interests self)) in
      if bool_decide (entry = ∅) then
        let '(self, pressed) := Server_shutdown_query self name in
        (set_interests self (delete name (interests self)), Ok tt, pressed)
      else (self, Ok tt, [])
  end.

(** [uninterest(client, query_name)?] for every name. *)
Fixpoint uninterest_all (self : Server) (client : Token) (names : list Aid)
    : Server * Result unit Error * Pressed :=
  match names with
  | [] => (self, Ok tt, [])
  | query_name :: names =>
      let '(self, r, pressed) := Server_uninterest self client query_name in
      match r with
      | Err e => (self, Err e, pressed)
      | Ok _ => let '(self, r, more) := uninterest_all self client names in
                (self, r, pressed ++ more)
      end
  end.

Definition Server_disconnect_client (self : Server) (client : Token)
    : Server * Result unit Error * Pressed :=
  uninterest_all self client (map_to_list (interests self)).*1.

Definition Server_is_any_outdated (self : Server) : bool :=
  Domain_dominates (internal self) (probe self).

Definition Server_test_single (self : Server) (rule : Rule) (sym : N)
    : outcome (Server * Left * Pressed * N) :=
  let '(self, registered) := Server_register self (mkRegister [rule] [r_name rule]) in
  let! _ := match registered with
            | Ok _ => Ret tt
            | Err _ => Panic "called `Result::unwrap()` on an `Err` value"
            end in
  let! '(self, relation, pressed, sym) := Server_interest self (r_name rule) sym in
  match relation with
  | Err e => Panic (category e +:+ message e)
  | Ok relation => Ret (self, relation, pressed, sym)
  end.
End server.
Arguments Server {_ _} T {_} Token {_ _}.
Arguments Sourced {_ _} T.
Arguments Register {_}.
