(* ===== verification/ServerTheorems.v ===== *)
(** * The server's handlers

    Clients and queries: which dataflows a disconnecting client takes down.
    Attributes: the indices a created attribute has.  The invariant all handlers
    keep. *)
From Stdlib Require Import ZArith NArith Lia.
From stdpp Require Import base strings numbers sets gmap fin_maps list.
From S2P Require Import Prelude Timestamps Values Bindings HectorPlan Sessions Weighted.
From S2P Require Import Dataflow Domains DomainTheorems ScopedDomains Relations PlanOps Plans.
From S2P Require Import Rules RuleTheorems Server.

(** ** Clients *)
Section clients.
Context `{EV : ExternValues, DF : Differential, SI : SetIteration}.
Context {T : Type} `{TR : !Traces T} {Token : Type} `{Countable Token}.
Implicit Types (self : Server T Token) (client : Token) (n : Aid) (names : list Aid).

Definition without client (clients : gset Token) : option (gset Token) :=
  if decide (clients ∖ {[client]} = ∅) then None else Some (clients ∖ {[client]}).

(** The client is the only one interested in the query. *)
Definition abandoned self client n : bool :=
  match interests self !! n with
  | Some clients => bool_decide (clients ∖ {[client]} = ∅)
  | None => false
  end.

(** [self'] is the server after the client lost interest in [names]. *)
Record uninterested self client names self' (pressed : list (Button (T := T))) : Prop := {
  un_internal : internal self' = internal self;
  un_config : config self' = config self;
  un_interests : ∀ n, interests self' !! n =
    if decide (n ∈ names) then interests self !! n ≫= without client else interests self !! n;
  un_handles : ∀ n, query_handles self' !! n =
    if decide (n ∈ names) then if abandoned self client n then None else query_handles self !! n
    else query_handles self !! n;
  un_pressed : ∀ b, b ∈ pressed ↔ ∃ n h, n ∈ names ∧ abandoned self client n = true ∧
    query_handles self !! n = Some h ∧ b ∈ shutdown_buttons h
}.

(** Case analysis on whether a name is the given one. *)
Ltac at_name n :=
  let m := fresh "m" in
  intros m; unfold abandoned, without; destruct (decide (m = n)) as [->|];
  [rewrite ?(decide_True (P := n ∈ [n])) by set_solver
  |rewrite ?(decide_False (P := m ∈ [n])) by set_solver]; simplify_map_eq.

Lemma uninterest_one self client n :
  ∃ self' pressed, Server_uninterest self client n = (self', Ok tt, pressed) ∧
    uninterested self client [n] self' pressed.
Proof.
  unfold Server_uninterest. destruct (interests self !! n) as [clients|] eqn:Hn.
  2: { eexists _, _. split; [done|]. split; try done; try (at_name n; by rewrite ?Hn).
       intros b. split; [by intros ?%not_elem_of_nil|].
       intros (m & h & ->%list_elem_of_singleton & Ha & _). unfold abandoned in Ha. by rewrite Hn in Ha. }
  case_bool_decide as Hempty; eexists _, _; (split; [done|]); split; simpl; try done.
  - by at_name n.
  - by at_name n; rewrite ?Hn, ?bool_decide_true by done.
  - intros b. unfold drop_entry, ShutdownHandle_drop, abandoned. split.
    + destruct (query_handles self !! n) as [h|] eqn:Hh; [|by intros ?%not_elem_of_nil].
      intros Hb. exists n, h. rewrite Hn, bool_decide_true by done. set_solver.
    + intros (m & h & ->%list_elem_of_singleton & _ & Hh & Hb). by rewrite Hh.
  - by at_name n.
  - by at_name n; rewrite ?Hn, ?bool_decide_false by done.
  - intros b. split; [by intros ?%not_elem_of_nil|].
    intros (m & h & ->%list_elem_of_singleton & Ha & _). unfold abandoned in Ha.
    by rewrite Hn, bool_decide_false in Ha.
Qed.

Lemma uninterested_cons self client n names s1 p1 s2 p2 :
  n ∉ names → uninterested self client [n] s1 p1 → uninterested s1 client names s2 p2 →
  uninterested self client (n :: names) s2 (p1 ++ p2).
Proof.
  intros Hn [Hint Hcf Hi Hh Hp] [Hint' Hcf' Hi' Hh' Hp'].
  assert (∀ m, m ∈ names → interests s1 !! m = interests self !! m ∧
    query_handles s1 !! m = query_handles self !! m) as Hsame.
  { intros m Hm. rewrite Hi, Hh, !decide_False by set_solver. done. }
  assert (∀ m, m ∈ names → abandoned s1 client m = abandoned self client m) as Hab.
  { intros m Hm. unfold abandoned. by rewrite (proj1 (Hsame m Hm)). }
  split; [congruence|congruence|..].
  - intros m. rewrite Hi'. destruct (decide (m ∈ names)) as [Hm|Hm].
    + rewrite (proj1 (Hsame m Hm)). by rewrite decide_True by set_solver.
    + rewrite Hi. apply decide_ext. set_solver.
  - intros m. rewrite Hh'. destruct (decide (m ∈ names)) as [Hm|Hm].
    + rewrite (proj2 (Hsame m Hm)), Hab by done. by rewrite decide_True by set_solver.
    + rewrite Hh. apply decide_ext. set_solver.
  - intros b. rewrite elem_of_app, Hp, Hp'. split.
    + intros [(m & h & ->%list_elem_of_singleton & Ha & Hl & Hb)|(m & h & Hm & Ha & Hl & Hb)].
      * exists n, h. set_solver.
      * exists m, h. rewrite Hab, (proj2 (Hsame m Hm)) in * by done. set_solver.
    + intros (m & h & [->|Hm]%elem_of_cons & Ha & Hl & Hb); [left; exists n, h; set_solver|right].
      exists m, h. rewrite Hab, (proj2 (Hsame m Hm)) by done. done.
Qed.

Lemma uninterest_all_spec self client names :
  NoDup names →
  ∃ self' pressed, uninterest_all self client names = (self', Ok tt, pressed) ∧
    uninterested self client names self' pressed.
Proof.
  intros Hnd. revert self. induction Hnd as [|n names Hn Hnd IH]; intros self; simpl.
  { exists self, []. split; [done|]. split; try done. intros b. set_solver. }
  destruct (uninterest_one self client n) as (s1 & p1 & -> & H1).
  destruct (IH s1) as (s2 & p2 & -> & H2). eexists _, _. split; [done|]. by apply uninterested_cons with s1.
Qed.

(** C33 (a client disconnects).  Disconnecting never fails.  The client is removed
    from the interests of every query; queries it alone was interested in lose
    their entry and their shutdown handle, and exactly the buttons of those
    handles are pressed.  Everything else, the domain included, is as before. *)
Theorem disconnect_client_spec self client :
  ∃ self' pressed, Server_disconnect_client self client = (self', Ok tt, pressed) ∧
    internal self' = internal self ∧
    (∀ n, interests self' !! n = interests self !! n ≫= without client) ∧
    (∀ n, query_handles self' !! n =
       if abandoned self client n then None else query_handles self !! n) ∧
    (∀ b, b ∈ pressed ↔ ∃ n h, abandoned self client n = true ∧
       query_handles self !! n = Some h ∧ b ∈ shutdown_buttons h).
Proof.
  unfold Server_disconnect_client.
  destruct (uninterest_all_spec self client (map_to_list (interests self)).*1)
    as (self' & pressed & Heq & [Hint _ Hi Hh Hp]); [apply NoDup_fst_map_to_list|].
  assert (∀ n, n ∉ (map_to_list (interests self)).*1 → interests self !! n = None) as Hnone.
  { intros n Hn. destruct (interests self !! n) as [ts|] eqn:E; [|done]. exfalso. apply Hn.
    apply list_elem_of_fmap. exists (n, ts). by rewrite elem_of_map_to_list. }
  exists self', pressed. split_and!; [done|done|..].
  - intros n. rewrite Hi. case_decide as Hn; [done|]. by rewrite (Hnone n Hn).
  - intros n. rewrite Hh. case_decide as Hn; [done|]. unfold abandoned. by rewrite (Hnone n Hn).
  - intros b. rewrite Hp. split; [naive_solver|]. intros (n & h & Ha & Hl & Hb). exists n, h.
    split_and!; try done. destruct (decide (n ∈ (map_to_list (interests self)).*1)) as [|Hn]; [done|].
    unfold abandoned in Ha. by rewrite (Hnone n Hn) in Ha.
Qed.
End clients.

(** ** Attributes *)
Section attributes.
Context `{EV : ExternValues, DF : Differential, SI : SetIteration}.
Context {T : Type} `{EqDecision T, PL : PartialOrderLaws T, LT : LatticeT T, TM : !Timely T}.
Context `{OT : Ord T, RW : Rewind T, DT : DefaultT T, TR : !Traces T}.
Context {Token : Type} `{Countable Token}.
Context (last_write_wins : Collection (Value * Value) Z → Collection (Value * Value) Z).
Context (into_time : T → Time).
Implicit Types (s : ScopedDomain T Rule) (cfg : AttributeConfig) (d : Domain T Rule).

(** What the installation of indices and slack leaves alone. *)
Record same_base s s' : Prop := {
  base_raw : raw s' = raw s;
  base_namespace : namespace (domain s') = namespace (domain s);
  base_epoch : now_at (domain s') = now_at (domain s);
  base_sessions : input_sessions (domain s') = input_sessions (domain s);
  base_sources : probed_source_count (domain s') = probed_source_count (domain s);
  base_attributes : dom (attributes (domain s')) = dom (attributes (domain s));
  base_propose : forward_propose (domain s') = forward_propose (domain s);
  base_rules : rules (domain s') = rules (domain s)
}.

#[export] Instance same_base_preorder : PreOrder same_base.
Proof. split; [by intros s|]. intros s1 s2 s3 [] []. split; congruence. Qed.

Lemma query_support_doms s qs s' :
  Scoped_ok s → Scoped_with_query_support s qs = Ret s' →
  same_base s s' ∧
  dom (forward_count (domain s')) = dom (forward_count (domain s)) ∪
    (if bool_decide (qs = AdaptiveWCO) then dom (forward_propose (domain s)) else ∅) ∧
  dom (forward_validate (domain s')) = dom (forward_validate (domain s)) ∪
    (if cmp_le Delta qs then dom (forward_propose (domain s)) else ∅) ∧
  reverse_count (domain s') = reverse_count (domain s) ∧
  reverse_propose (domain s') = reverse_propose (domain s) ∧
  reverse_validate (domain s') = reverse_validate (domain s).
Proof.
  intros Hok. unfold Scoped_with_query_support. intros Hs. apply obind_Ret in Hs as (mc & Hmc & Hs).
  apply obind_Ret in Hs as (mv & Hmv & Hs). injection Hs as <-. split; [done|]. simpl. rewrite !dom_extend.
  split; [f_equal; revert Hmc; case_bool_decide; [apply map_traverse_dom|by intros [= <-]]|].
  split; [f_equal; revert Hmv; destruct (cmp_le _ _); [apply map_traverse_dom|by intros [= <-]]|]. done.
Qed.

Lemma reverse_indices_doms s s' :
  Scoped_with_reverse_indices s = Ret s' →
  same_base s s' ∧ forward_count (domain s') = forward_count (domain s) ∧
  forward_validate (domain s') = forward_validate (domain s) ∧
  dom (reverse_count (domain s')) = dom (reverse_count (domain s)) ∪ dom (forward_count (domain s)) ∧
  dom (reverse_propose (domain s')) = dom (reverse_propose (domain s)) ∪ dom (forward_propose (domain s)) ∧
  dom (reverse_validate (domain s')) =
    dom (reverse_validate (domain s)) ∪ dom (forward_validate (domain s)).
Proof.
  unfold Scoped_with_reverse_indices. intros Hs. apply obind_Ret in Hs as (mc & Hmc & Hs).
  apply obind_Ret in Hs as (mp & Hmp & Hs). apply obind_Ret in Hs as (mv & Hmv & Hs). injection Hs as <-.
  split; [done|]. simpl. rewrite !dom_extend. unfold install_index in *.
  by rewrite (map_traverse_dom _ _ _ Hmc), (map_traverse_dom _ _ _ Hmp), (map_traverse_dom _ _ _ Hmv).
Qed.

Definition slack_ok_for cfg : Prop :=
  ∀ slack, trace_slack cfg = Some slack → is_panic (from_time (T := T) slack) = false.

(** The optional indices of an attribute. *)
Definition counts cfg : bool :=
  bool_decide (input_semantics cfg ≠ LastWriteWins) && bool_decide (query_support cfg = AdaptiveWCO).
Definition validates cfg : bool :=
  bool_decide (input_semantics cfg ≠ LastWriteWins) && cmp_le Delta (query_support cfg).
Definition reversed cfg : bool := bool_decide (index_direction cfg = Both).

Definition keys_if (b : bool) (keys : gset Aid) : gset Aid := if b then keys else ∅.

(** A domain with the indices the configuration asks for, on its attributes. *)
Record configured cfg s s' : Prop := {
  cfg_ok : Scoped_ok s';
  cfg_base : same_base s s';
  cfg_counts : dom (forward_count (domain s')) = keys_if (counts cfg) (dom (forward_propose (domain s)));
  cfg_validates : dom (forward_validate (domain s')) =
    keys_if (validates cfg) (dom (forward_propose (domain s)));
  cfg_reverse_counts : dom (reverse_count (domain s')) =
    keys_if (reversed cfg && counts cfg) (dom (forward_propose (domain s)));
  cfg_reverse_proposes : dom (reverse_propose (domain s')) =
    keys_if (reversed cfg) (dom (forward_propose (domain s)));
  cfg_reverse_validates : dom (reverse_validate (domain s')) =
    keys_if (reversed cfg && validates cfg) (dom (forward_propose (domain s)))
}.

(** A domain with proposals only, as the singleton constructors build it. *)
Definition only_propose s : Prop :=
  forward_count (domain s) = ∅ ∧ forward_validate (domain s) = ∅ ∧ reverse_count (domain s) = ∅ ∧
  reverse_propose (domain s) = ∅ ∧ reverse_validate (domain s) = ∅.

Lemma slack_step cfg s :
  Scoped_ok s → only_propose s → slack_ok_for cfg →
  ∃ s', match trace_slack cfg with
        | Some slack => let! slack := from_time slack in Ret (Scoped_with_slack into_time s slack)
        | None => Ret s
        end = Ret s' ∧ Scoped_ok s' ∧ same_base s s' ∧ only_propose s'.
Proof.
  intros Hok Hprop Hslack. destruct (trace_slack cfg) as [slack|] eqn:Hs; [|by exists s].
  specialize (Hslack slack Hs). destruct (from_time slack) as [t|]; [|done]. simpl.
  eexists. split; [done|]. split; [by apply slack_ok|]. split; [|done]. split; try done. simpl. by rewrite dom_fmap_L.
Qed.

Lemma support_step cfg s :
  Scoped_ok s → only_propose s →
  ∃ s', (if bool_decide (input_semantics cfg ≠ LastWriteWins)
         then Scoped_with_query_support s (query_support cfg) else Ret s) = Ret s' ∧
    Scoped_ok s' ∧ same_base s s' ∧
    dom (forward_count (domain s')) = keys_if (counts cfg) (dom (forward_propose (domain s))) ∧
    dom (forward_validate (domain s')) = keys_if (validates cfg) (dom (forward_propose (domain s))) ∧
    reverse_count (domain s') = ∅ ∧ reverse_propose (domain s') = ∅ ∧ reverse_validate (domain s') = ∅.
Proof.
  intros Hok (Hfc & Hfv & Hrc & Hrp & Hrv). unfold counts, validates, keys_if. case_bool_decide; simpl.
  - destruct (query_support_ok s (query_support cfg) Hok) as (s' & Hs' & Hok'). exists s'.
    destruct (query_support_doms s _ s' Hok Hs') as (Hb & Hc & Hv & Hr & Hr' & Hr'').
    rewrite Hfc, dom_empty_L, union_empty_l_L in Hc. rewrite Hfv, dom_empty_L, union_empty_l_L in Hv.
    by rewrite Hr, Hr', Hr''.
  - exists s. by rewrite Hfc, Hfv, !dom_empty_L.
Qed.

Lemma configure_ok cfg s :
  Scoped_ok s → only_propose s → slack_ok_for cfg →
  ∃ s', configure into_time cfg s = Ret s' ∧ configured cfg s s'.
Proof.
  intros Hok Hprop Hslack. unfold configure.
  destruct (slack_step cfg s Hok Hprop Hslack) as (s1 & -> & Hok1 & Hb1 & Hp1). simpl.
  destruct (support_step cfg s1 Hok1 Hp1) as (s2 & -> & Hok2 & Hb2 & Hc & Hv & Hrc & Hrp & Hrv). simpl.
  rewrite (base_propose _ _ Hb1) in Hc, Hv. assert (same_base s s2) as Hb by (by etrans).
  destruct (bool_decide (index_direction cfg = Both)) eqn:Hrev.
  - destruct (reverse_indices_ok s2 Hok2) as (s3 & Hs3 & Hok3). exists s3. split; [done|].
    destruct (reverse_indices_doms s2 s3 Hs3) as (Hb3 & Hfc & Hfv & Hrc3 & Hrp3 & Hrv3).
    rewrite Hrc, dom_empty_L, union_empty_l_L in Hrc3. rewrite Hrp, dom_empty_L, union_empty_l_L in Hrp3.
    rewrite Hrv, dom_empty_L, union_empty_l_L in Hrv3.
    split; unfold reversed; rewrite ?Hrev; simpl; try done; [by etrans|by rewrite Hfc|by rewrite Hfv|..].
    + by rewrite Hrc3.
    + by rewrite Hrp3, (base_propose _ _ Hb).
    + by rewrite Hrv3.
  - exists s2. split; [done|].
    split; unfold reversed; rewrite ?Hrev, ?Hrc, ?Hrp, ?Hrv, ?dom_empty_L; done.
Qed.

(** ** [create_attribute] *)

(** An index of the attribute is present or not; if it is, it arranges the
    attribute's pairs as [f] maps them. *)
Definition index_of {K V} `{EqDecision K, EqDecision V} (present : bool) (f : Value * Value → K * V)
    (m : gmap Aid (Trace (T := T) K V)) (name : Aid) (pairs : Collection (Value * Value) Z) : Prop :=
  if present then ∃ t, m !! name = Some t ∧ ∀ import_name,
    run_rel accumulates (run (import_frontier t import_name).1) (let! l := run pairs in Ret (wmap f l))
  else m !! name = None.

Lemma index_of_indexes {K V} `{EqDecision K, EqDecision V} present (f : Value * Value → K * V)
    r (m : gmap Aid (Trace (T := T) K V)) name pairs :
  indexes f r m → dom m = keys_if present {[name]} → r !! name = Some pairs →
  index_of present f m name pairs.
Proof.
  intros Hix Hdom Hr. unfold index_of, keys_if in *. destruct present.
  - assert (name ∈ dom m) as [t Ht]%elem_of_dom by (rewrite Hdom; set_solver).
    exists t. split; [done|]. destruct (Hix name t Ht) as (c & Hc & Himp). by simplify_eq.
  - apply not_elem_of_dom. rewrite Hdom. set_solver.
Qed.

(** All indices of an attribute. *)
Record attribute_ready cfg d (name : Aid) (pairs : Collection (Value * Value) Z) : Prop := {
  ready_config : is_Some (attributes d !! name);
  ready_forward_propose : index_of true (λ ev, ev) (forward_propose d) name pairs;
  ready_forward_count : index_of (counts cfg) (λ ev, (ev.1, tt)) (forward_count d) name pairs;
  ready_forward_validate : index_of (validates cfg) (λ ev, (ev, tt)) (forward_validate d) name pairs;
  ready_reverse_propose : index_of (reversed cfg) (λ ev, (ev.2, ev.1)) (reverse_propose d) name pairs;
  ready_reverse_count : index_of (reversed cfg && counts cfg) (λ ev, (ev.2, tt)) (reverse_count d) name pairs;
  ready_reverse_validate :
    index_of (reversed cfg && validates cfg) (λ ev, (ev, tt)) (reverse_validate d) name pairs
}.

Lemma attribute_ready_same cfg d d' name pairs :
  same_attribute d d' name → attribute_ready cfg d name pairs → attribute_ready cfg d' name pairs.
Proof.
  intros [Hc Hs Hfc Hfp Hfv Hrc Hrp Hrv] []. unfold index_of in *.
  split; unfold index_of; rewrite ?Hc, ?Hfc, ?Hfp, ?Hfv, ?Hrc, ?Hrp, ?Hrv; done.
Qed.

Lemma configured_ready cfg s s' name pairs sess probe n :
  s = singleton_domain name pairs sess probe n → configured cfg s s' →
  attribute_ready cfg (domain s') name pairs.
Proof.
  intros -> [[Hix Hraw Hfc Hfp Hfv Hrc Hrp Hrv] [Hr _ _ _ _ Ha Hp _] Hdc Hdv Hdrc Hdrp Hdrv]. simpl in *.
  rewrite dom_singleton_L in *.
  assert (raw s' !! name = Some pairs) as Hpairs by (rewrite Hr; apply lookup_singleton_eq).
  split; try (by eapply index_of_indexes; [done| |exact Hpairs]).
  - apply elem_of_dom. rewrite Ha. set_solver.
  - eapply index_of_indexes; [done| |exact Hpairs]. rewrite Hp. by rewrite dom_singleton_L.
Qed.

Implicit Types self : Server T Token.

Lemma handle_singleton_ok name pairs cap :
  Scoped_ok (handle_as_singleton_domain (Rule := Rule) [] cap pairs name) ∧
  only_propose (handle_as_singleton_domain (Rule := Rule) [] cap pairs name).
Proof. split; [apply singleton_ok; simpl; set_solver|done]. Qed.

Lemma collection_singleton_ok name pairs f :
  Scoped_ok (collection_as_singleton_domain (T := T) (Rule := Rule) pairs f name) ∧
  only_propose (collection_as_singleton_domain (T := T) (Rule := Rule) pairs f name).
Proof. split; [apply singleton_ok; simpl; set_solver|done]. Qed.

(** C22 (a created attribute).  In an indexed domain of the server's namespace,
    and with a slack of the server's time type, creating an attribute panics if
    the name is taken.  Otherwise it succeeds: the attribute can be transacted
    upon from the least time, has exactly the indices its configuration asks for
    (counts and validation not for last-write-wins attributes, reverse indices
    next to their forward ones), each over the input under the attribute's
    semantics, and nothing of the other attributes changed. *)
Theorem create_attribute_spec self pairs name cfg :
  Domain_indexed (internal self) → namespace (internal self) = "" → slack_ok_for cfg →
  let tuples := apply_semantics last_write_wins (input_semantics cfg) pairs in
  let created := Server_create_attribute last_write_wins into_time self pairs name cfg in
  (is_Some (attributes (internal self) !! name) ∧ is_panic created = true) ∨
  (attributes (internal self) !! name = None ∧ ∃ self', created = Ret (self', Ok tt) ∧
   attribute_ready cfg (internal self') name tuples ∧
   input_sessions (internal self') !! name = Some (session_from [] minimum) ∧
   Domain_indexed (internal self') ∧
   ∀ a, a ∈ dom (attributes (internal self)) → same_attribute (internal self) (internal self') a).
Proof.
  intros Hix Hns Hslack tuples created. unfold created, Server_create_attribute. fold tuples.
  destruct (handle_singleton_ok name tuples minimum) as [Hok Hprop].
  destruct (configure_ok cfg _ Hok Hprop Hslack) as (s' & -> & Hcfg). simpl.
  pose proof (cfg_base _ _ _ Hcfg) as [_ Hns' _ Hsess Hsrc Hattr _ _]. simpl in *.
  rewrite dom_singleton_L in Hattr. unfold Scoped_into.
  destruct (attributes (internal self) !! name) as [c|] eqn:Hname; [left|right]; (split; [by eauto|]).
  - unfold Domain_add_assign. destruct (bool_decide (namespace _ = _)); [|done]. simpl.
    destruct (existsb _ _) eqn:Hclash; [done|]. exfalso. apply no_clash in Hclash.
    apply elem_of_dom_2 in Hname. set_solver.
  - destruct (add_assign_composed (internal self) (domain s') Hix (ok_indexed _ (cfg_ok _ _ _ Hcfg)))
      as (d' & -> & [Hix' Hl Hr _ _ _ _ _]); [congruence| |by left; rewrite Hsrc|].
    { rewrite Hattr. apply not_elem_of_dom in Hname. set_solver. }
    simpl. eexists. split; [done|]. simpl. pose proof (Hr name) as Hsame.
    destruct Hsame as [? Hs ? ? ? ? ? ?]; [rewrite Hattr; set_solver|].
    split; [|split; [rewrite Hs, Hsess; apply lookup_singleton_eq|done]].
    eapply attribute_ready_same; [apply Hr; rewrite Hattr; set_solver|].
    by eapply configured_ready.
Qed.

(** ** [register_source] *)

Lemma configure_sources cfg s s' :
  configure into_time cfg s = Ret s' →
  probed_source_count (domain s') = probed_source_count (domain s).
Proof.
  unfold configure. intros Hc. apply obind_Ret in Hc as (s1 & H1 & Hc).
  apply obind_Ret in Hc as (s2 & H2 & Hc).
  assert (probed_source_count (domain s1) = probed_source_count (domain s)) as <-.
  { destruct (trace_slack cfg); outcome_inv; done. }
  assert (probed_source_count (domain s2) = probed_source_count (domain s1)) as <-.
  { destruct (bool_decide _); [|by outcome_inv]. unfold Scoped_with_query_support in H2.
    apply obind_Ret in H2 as (? & _ & H2). apply obind_Ret in H2 as (? & _ & H2). by outcome_inv. }
  destruct (bool_decide (index_direction cfg = Both)); [|by outcome_inv]. unfold Scoped_with_reverse_indices in Hc.
  apply obind_Ret in Hc as (? & _ & Hc). apply obind_Ret in Hc as (? & _ & Hc).
  apply obind_Ret in Hc as (? & _ & Hc). by outcome_inv.
Qed.

Lemma register_stream_sources d (x : Sourced T) streams d' :
  register_streams last_write_wins into_time d (x :: streams) = Ret d' →
  probed_source_count d = 0%N ∧ ∃ d1, probed_source_count d1 = 1%N ∧
    register_streams last_write_wins into_time d1 streams = Ret d'.
Proof.
  cbn [register_streams]. intros Hr. apply obind_Ret in Hr as (s & Hs & Hr).
  apply obind_Ret in Hr as (d1 & Hd1 & Hr). apply configure_sources in Hs. simpl in Hs.
  unfold Scoped_into, Domain_add_assign in Hd1. outcome_inv. rewrite Hs in *.
  assert (probed_source_count d = 0%N) as Hz.
  { match goal with H : (_ || _) = true |- _ => apply orb_true_iff in H as [H|H] end.
    - done.
    - by apply N.eqb_eq. }
  split; [done|]. eexists. split; [|exact Hr]. simpl. by rewrite Hz.
Qed.

(** The streams a server can register: none, or one on a domain that has no
    probed source yet. *)
Definition registrable (d : Domain T Rule) (streams : list (Sourced T)) : bool :=
  match streams with
  | [] => true
  | [_] => (probed_source_count d =? 0)%N
  | _ => false
  end.

(** (a source publishes one attribute).  Registering a source succeeds only
    if it publishes at most one attribute, and, if it publishes one, no source
    was registered before; in every other case the worker panics. *)
Theorem register_source_single self (streams : list (Sourced T)) self' r :
  Server_register_source last_write_wins into_time self streams = Ret (self', r) →
  registrable (internal self) streams = true.
Proof.
  unfold Server_register_source. intros Hr. apply obind_Ret in Hr as (d & Hd & _).
  destruct streams as [|x [|y streams]]; [done| |].
  - apply register_stream_sources in Hd as [Hz _]. by apply N.eqb_eq.
  - exfalso. apply register_stream_sources in Hd as (_ & d1 & H1 & Hd).
    apply register_stream_sources in Hd as [Hz _]. congruence.
Qed.
End attributes.
