(* ===== verification/EventLoop.v ===== *)
(** * The server's event loop (src/server/src/main.rs)

    Commands, as the sequencer delivers them to every worker, and what a worker
    does with one: it counts transactions, handles the requests in order,
    answers errors, and advances the domain to the transaction's number.  The
    time type is [u64], the default.  A worker sends errors and statuses to
    clients and schedules ticks: the state keeps both as lists.  Sources, sinks,
    the collections of new inputs, and the parameters of the server are
    arguments.  [Networking] models the connections, [Worker] the loop around the
    handling of commands, [Delivery] what becomes of the results. *)
From Stdlib Require Import ZArith NArith Lia.
From stdpp Require Import base strings numbers sets gmap fin_maps list.
From S2P Require Import Prelude Timestamps Values Outputs Bindings HectorPlan Sessions Weighted.
From S2P Require Import Dataflow Domains DomainTheorems ScopedDomains Relations PlanOps Plans.
From S2P Require Import Rules RuleTheorems Server ServerTheorems.

Section event_loop.
Context `{EV : ExternValues, DF : Differential, SI : SetIteration, TM : !Timely N, TR : !Traces N}.
Context {Source Sink : Type}.

Abbreviation Pairs := (Collection (Value * Value) Z) (only parsing).
Abbreviation Handle := (ShutdownHandle (Button (T := N))) (only parsing).
Abbreviation Implementation := (outcome (Implemented * Handle)) (only parsing).
Abbreviation Token := N (only parsing).

Context (set_semantics : bool) (delta_join : Domain N Rule → Hector → Implementation).
Context (last_write_wins : Pairs → Pairs).
Context (attribute_streams : Source → list (Sourced N)) (run_sink : Sink → Result unit Error).
Context (input : Aid → Pairs).

Record Interest := mkInterest {
  in_name : Aid; granularity : option Time; in_sink : option Sink; disable_logging : option bool
}.

(** The variants of a build without the feature graphql, which is off by default
    and adds one, [Derive]: [GraphQlDerive.handle_derive] is its handler. *)
Inductive Request :=
| Transact (tx_data : list Datom)
| Subscribe (aid : Aid)
| RInterest (req : Interest)
| Uninterest (name : Aid)
| RRegister (req : Register)
| RegisterSource (source : Source)
| CreateAttribute (name : Aid) (config : AttributeConfig)
| AdvanceDomain (name : option string) (next : Time)
| RTick
| CloseInput (name : Aid)
| Disconnect
| Setup
| Status
| Shutdown.

Record Command := mkCommand { owner : N; client : Token; requests : list Request }.

(** [serde_json::json!({..})] in the handler of [Request::Status]. *)
Definition status_message : JValue :=
  JObject (<["category" := JString "df/status"]> {["message" := JString "running"]}).

Record Loop := mkLoop {
  lp_server : Server N Token;
  next_tx : N;
  shutdown : bool;
  lp_sym : N;
  sent : list Output;
  ticks : list Duration
}.

Definition set_server (l : Loop) (s : Server N Token) : Loop :=
  mkLoop s (next_tx l) (shutdown l) (lp_sym l) (sent l) (ticks l).
Definition set_sym (l : Loop) (sym : N) : Loop :=
  mkLoop (lp_server l) (next_tx l) (shutdown l) sym (sent l) (ticks l).
Definition send (l : Loop) (o : Output) : Loop :=
  mkLoop (lp_server l) (next_tx l) (shutdown l) (lp_sym l) (sent l ++ [o]) (ticks l).

(** [entry(name).or_insert_with(HashSet::new)], with the client inserted. *)
Definition add_interest (s : Server N Token) (name : Aid) (client : Token) : Server N Token :=
  set_interests s (<[name := default ∅ (interests s !! name) ∪ {[client]}]> (interests s)).

Definition handle_subscribe (l : Loop) (client : Token) (aid : Aid)
    : outcome (Loop * Result unit Error) :=
  let s := add_interest (lp_server l) aid client in
  if bool_decide (1 < size (default ∅ (interests s !! aid))) then Ret (set_server l s, Ok tt)
  else
    let! _ := expect "called `Option::unwrap()` on a `None` value"
                (Domain_forward_propose (internal s) aid) in
    Ret (set_server l s, Ok tt).

Definition handle_interest (l : Loop) (client : Token) (req : Interest)
    : outcome (Loop * Result unit Error) :=
  let was_first := bool_decide (default ∅ (interests (lp_server l) !! in_name req) = ∅) in
  let s := add_interest (lp_server l) (in_name req) client in
  if was_first then
    let! '(s, relation, _, sym) := Server_interest set_semantics delta_join s (in_name req) (lp_sym l) in
    let l := set_sym (set_server l s) sym in
    match relation with
    | Err error => Ret (l, Err error)
    | Ok _ =>
        let! _ := match granularity req with
                  | None => Ret None
                  | Some granularity => let! g := from_time (T := N) granularity in Ret (Some g)
                  end in
        match in_sink req with
        | Some sink => Ret (l, run_sink sink)
        | None => Ret (l, Ok tt)
        end
    end
  else Ret (set_server l s, Ok tt).

Definition handle_tick (l : Loop) (worker_index : N) (now : Duration)
    : outcome (Loop * Result unit Error) :=
  if (worker_index =? 0)%N then
    match cf_tick (config (lp_server l)) with
    | Some tick =>
        let! interval_end := coarsen now tick in
        Ret (mkLoop (lp_server l) (next_tx l) (shutdown l) (lp_sym l) (sent l)
               (ticks l ++ [interval_end]), Ok tt)
    | None => Ret (l, Ok tt)
    end
  else Ret (l, Ok tt).

Definition handle_request (l : Loop) (worker_index : N) (now : Duration) (owner : N)
    (client : Token) (req : Request) : outcome (Loop * Result unit Error) :=
  let s := lp_server l in
  match req with
  | Transact tx_data =>
      let! '(s, r) := Server_transact s tx_data owner worker_index in Ret (set_server l s, r)
  | Subscribe aid => handle_subscribe l client aid
  | RInterest req => handle_interest l client req
  | Uninterest name =>
      let '(s, r, _) := Server_uninterest s client name in Ret (set_server l s, r)
  | RRegister req => let '(s, r) := Server_register s req in Ret (set_server l s, r)
  | RegisterSource source =>
      let! '(s, r) := Server_register_source last_write_wins Time_from_u64 s
                        (attribute_streams source) in Ret (set_server l s, r)
  | CreateAttribute name config =>
      let! '(s, r) := Server_create_attribute last_write_wins Time_from_u64 s (input name) name
                        config in Ret (set_server l s, r)
  | AdvanceDomain name next =>
      let! next := from_time next in
      let! '(s, r) := Server_advance_domain s name next in Ret (set_server l s, r)
  | CloseInput name =>
      let! '(d, r, _) := Domain_close_input (internal s) name in
      Ret (set_server l (set_internal s d), r)
  | Disconnect => let '(s, r, _) := Server_disconnect_client s client in Ret (set_server l s, r)
  | Setup => Panic "not yet implemented"
  | RTick => handle_tick l worker_index now
  | Status => Ret (send l (Message client status_message), Ok tt)
  | Shutdown => Ret (mkLoop s (next_tx l) true (lp_sym l) (sent l) (ticks l), Ok tt)
  end.

(** [for req in command.requests.drain(..)]. *)
Fixpoint handle_requests (l : Loop) (worker_index : N) (now : Duration) (owner : N)
    (client : Token) (last_tx : N) (reqs : list Request) : outcome Loop :=
  match reqs with
  | [] => Ret l
  | req :: reqs =>
      let! '(l, result) := handle_request l worker_index now owner client req in
      let l := match result with Err error => send l (OError client error last_tx) | Ok _ => l end in
      handle_requests l worker_index now owner client last_tx reqs
  end.

(** [advance_epoch(next).expect("failed to advance epoch")]. *)
Definition auto_advance (l : Loop) : outcome Loop :=
  if manual_advance (config (lp_server l)) then Ret l
  else
    let! '(d, r) := Domain_advance_epoch (internal (lp_server l)) (next_tx l) in
    match r with
    | Ok _ => Ret (set_server l (set_internal (lp_server l) d))
    | Err _ => Panic "failed to advance epoch"
    end.

Definition handle_command (l : Loop) (worker_index : N) (now : Duration) (command : Command)
    : outcome Loop :=
  let l := mkLoop (lp_server l) ((next_tx l + 1) mod 2 ^ 64) (shutdown l) (lp_sym l) (sent l) (ticks l) in
  let last_tx := ((next_tx l + (2 ^ 64 - 1)) mod 2 ^ 64)%N in
  let! l := handle_requests l worker_index now (owner command) (client command) last_tx
              (requests command) in
  auto_advance l.

(** The end of an iteration: [advance().expect("failed to advance domain")]. *)
Definition advance_domain (l : Loop) : outcome Loop :=
  let! '(d, r) := Domain_advance (internal (lp_server l)) in
  match r with
  | Ok _ => Ret (set_server l (set_internal (lp_server l) d))
  | Err _ => Panic "failed to advance domain"
  end.

(** A worker starts with a new server. *)
Definition Loop_new (config : Configuration) : Loop := mkLoop (Server_new config) 0 false SYM [] [].
End event_loop.
Arguments Request {_} Source Sink.
Arguments Command {_} Source Sink.
Arguments Interest Sink : clear implicits.
