(* ===== verification/LoopTheorems.v ===== *)
(** * Invariants of the event loop

    What every request keeps, whatever the clients send: indices belong to
    configured attributes, rules are registered under their names, every recorded
    interest has a client, and no session is ahead of the transaction counter.
    The last one is what lets the automatic advance succeed. *)
From Stdlib Require Import ZArith NArith Lia.
From stdpp Require Import base strings numbers sets gmap fin_maps list.
From S2P Require Import Prelude Timestamps Values Bindings HectorPlan Sessions Weighted.
From S2P Require Import Dataflow Domains DomainTheorems ScopedDomains Relations PlanOps Plans.
From S2P Require Import Rules RuleTheorems Server ServerTheorems EventLoop.

Section domain_ok.
Context `{EV : ExternValues, DF : Differential, SI : SetIteration, TM : !Timely N, TR : !Traces N}.
Context (bound : N).
Implicit Types d o : Domain N Rule.

Definition session_within (s : UnorderedSession N (Value * Value) Z) : Prop :=
  Session_wf s ∧ (s_time s ≤ bound)%N.

Record domain_ok d : Prop := {
  dk_indexed : Domain_indexed d;
  dk_named : rules_named d;
  dk_namespace : namespace d = "";
  dk_sessions : ∀ a s, input_sessions d !! a = Some s → session_within s;
  dk_epoch : (now_at d ≤ bound)%N
}.

Lemma domain_ok_new : domain_ok (Domain_new 0%N).
Proof. split; simpl; try done. lia. Qed.

(** *** Operations of the domain *)

Lemma transact_within d tx d' r : domain_ok d → Domain_transact d tx = Ret (d', r) → domain_ok d'.
Proof.
  intros Hd Ht. pose proof (transact_frame _ _ _ _ Ht) as [Hframe Hdom].
  assert (∀ a s, input_sessions d' !! a = Some s → session_within s) as Hs.
  { destruct Hd as [_ _ _ Hs _]. clear Hframe Hdom. revert d Hs Ht.
    induction tx as [|x tx IH]; simpl; intros d Hs Ht; [by outcome_inv|].
    destruct (input_sessions d !! d_a x) as [h|] eqn:Hh; [|by outcome_inv].
    apply obind_Ret in Ht as (h' & Hh' & Ht). eapply IH; [|exact Ht]. simpl.
    destruct (Hs _ _ Hh) as [Hwf Hle]. intros a s.
    rewrite lookup_insert_Some. intros [[<- <-]|[_ Ha]]; [|by eapply Hs].
    destruct (d_t x) as [t|].
    - apply obind_Ret in Hh' as (t' & _ & Hh'). apply update_at_ok in Hh' as [? Heq]; [|done].
      split; [done|]. by rewrite Heq.
    - injection Hh' as <-. split; [apply push_update_wf; [done|apply less_equal_refl]|].
      unfold session_update. by rewrite push_update_time. }
  rewrite Hframe in *. destruct Hd as [[] ? ? _ ?]. simpl in *.
  split; try done. split; simpl; try done. by rewrite Hdom.
Qed.

Lemma close_input_within d name d' r sent :
  domain_ok d → Domain_close_input d name = Ret (d', r, sent) → domain_ok d'.
Proof.
  intros Hd Hc. unfold Domain_close_input in Hc.
  destruct (input_sessions d !! name) as [h|]; outcome_inv; [|done].
  destruct Hd as [Hix ? ? Hs ?]. split; try done; simpl.
  - destruct Hix. split; simpl; try done. rewrite dom_delete_L. set_solver.
  - intros a s [_ Ha]%lookup_delete_Some. by eapply Hs.
Qed.

Lemma advance_epoch_within d next d' r :
  domain_ok d → (next ≤ bound)%N → Domain_advance_epoch d next = Ret (d', r) → domain_ok d'.
Proof.
  intros Hd Hn Ha. pose proof (advance_epoch_indexed _ _ _ _ (dk_indexed _ Hd) Ha) as Hix.
  unfold Domain_advance_epoch in Ha. destruct (negb (less_equal _ _)); [by outcome_inv|].
  destruct (negb (bool_decide _)); [|by outcome_inv].
  apply obind_Ret in Ha as (sessions & Hm & Ha). injection Ha as <- <-.
  destruct Hd as [_ ? ? Hs ?]. split; try done; simpl in *. intros a s Has.
  pose proof (map_traverse_lookup _ _ _ Hm a) as Hl. rewrite Has in Hl.
  destruct (input_sessions d !! a) as [s0|] eqn:Hs0; [|done]. destruct (Hs a s0 Hs0) as [Hwf _].
  apply obind_Ret in Hl as (s1 & H1 & H2).
  pose proof (session_step_wf s0 (OpAdvanceTo next) s1 Hwf H1) as Hwf1. split.
  - exact (session_step_wf s1 OpFlush s Hwf1 H2).
  - rewrite flush_Ret in H2 by done. injection H2 as <-. simpl.
    unfold session_advance_to in H1. by outcome_inv.
Qed.

Lemma add_assign_within d o d' :
  domain_ok d → domain_ok o → Domain_add_assign d o = Ret d' → domain_ok d'.
Proof.
  intros Hd Ho Ha. pose proof (add_assign_indexed _ _ _ (dk_indexed _ Hd) (dk_indexed _ Ho) Ha) as Hix.
  unfold Domain_add_assign in Ha. outcome_inv. destruct Hd as [_ Hn ? Hs He], Ho as [_ Hn' ? Hs' He'].
  split; try done; simpl.
  - intros n r. simpl. unfold extend. rewrite lookup_union_Some_raw. intros [Hr|[_ Hr]]; [by apply Hn'|by apply Hn].
  - intros a s. unfold extend. rewrite lookup_union_Some_raw. intros [Hr|[_ Hr]]; [by eapply Hs'|by eapply Hs].
  - unfold meet. simpl. lia.
Qed.

Lemma register_rule_within d rule : domain_ok d → domain_ok (register_rule d rule).
Proof.
  intros Hd. unfold register_rule. case_bool_decide as Hr; [done|].
  destruct Hd as [Hix Hn ? Hs ?]. split; try done; [by destruct Hix|].
  intros n r. simpl. rewrite lookup_insert_Some. intros [[<- <-]|[_ Hl]]; [done|by apply Hn].
Qed.
End domain_ok.

(** ** Requests *)
Section requests.
Context `{EV : ExternValues, DF : Differential, SI : SetIteration, TM : !Timely N, TR : !Traces N}.
Context {Source Sink : Type}.
Abbreviation Pairs := (Collection (Value * Value) Z) (only parsing).
Context (set_semantics : bool).
Context (delta_join : Domain N Rule → Hector → outcome (Implemented * ShutdownHandle (Button (T := N)))).
Context (last_write_wins : Pairs → Pairs).
Context (attribute_streams : Source → list (Sourced N)) (run_sink : Sink → Result unit Error).
Context (input : Aid → Pairs).
Implicit Types (s : Server N N) (l : Loop) (bound : N) (req : Request Source Sink).

Lemma configure_Ret cfg (sd sd' : ScopedDomain N Rule) :
  Scoped_ok sd → only_propose sd → configure Time_from_u64 cfg sd = Ret sd' → configured cfg sd sd'.
Proof.
  intros Hok Hp Hc. assert (slack_ok_for (T := N) cfg) as Hslack.
  { intros slack Hs. unfold configure in Hc. rewrite Hs in Hc. by destruct (from_time slack). }
  destruct (configure_ok Time_from_u64 cfg sd Hok Hp Hslack) as (sd1 & Hc1 & Hcfg). congruence.
Qed.

Lemma configured_within bound cfg name pairs sess f n sd' :
  (∀ a h, sess !! a = Some h → session_within bound h) →
  configured cfg (singleton_domain (T := N) (Rule := Rule) name pairs sess f n) sd' →
  domain_ok bound (domain sd').
Proof.
  intros Hs [Hok [_ Hns Hep Hsess _ _ _ Hru] _ _ _ _ _]. simpl in *.
  split; [by apply ok_indexed| |done| |].
  - intros m r. by rewrite Hru.
  - intros a h. rewrite Hsess. apply Hs.
  - rewrite Hep. unfold default_time, u64_default. lia.
Qed.

Lemma create_attribute_within bound s pairs name cfg s' r :
  domain_ok bound (internal s) →
  Server_create_attribute last_write_wins Time_from_u64 s pairs name cfg = Ret (s', r) →
  domain_ok bound (internal s') ∧ interests s' = interests s ∧ config s' = config s.
Proof.
  intros Hd Hc. unfold Server_create_attribute in Hc. apply obind_Ret in Hc as (sd & Hsd & Hc).
  apply obind_Ret in Hc as (d & Hadd & Hc). injection Hc as <- <-. split; [|done]. simpl.
  eapply add_assign_within; [exact Hd| |exact Hadd].
  destruct (handle_singleton_ok name (apply_semantics last_write_wins (input_semantics cfg) pairs) (minimum (T := N)))
    as [Hok Hp].
  eapply configured_within; [|by eapply configure_Ret].
  intros a h [_ <-]%lookup_singleton_Some. split; [apply session_from_wf|]. unfold minimum. simpl. lia.
Qed.

Lemma register_streams_within bound (streams : list (Sourced N)) d d' :
  domain_ok bound d → register_streams last_write_wins Time_from_u64 d streams = Ret d' →
  domain_ok bound d'.
Proof.
  revert d. induction streams as [|x streams IH]; intros d Hd; cbn [register_streams]; [by intros [= <-]|].
  intros Hr. apply obind_Ret in Hr as (sd & Hsd & Hr). apply obind_Ret in Hr as (d1 & Hadd & Hr).
  eapply IH; [|exact Hr]. eapply add_assign_within; [exact Hd| |exact Hadd].
  destruct (collection_singleton_ok (so_aid x)
    (apply_semantics last_write_wins (input_semantics (so_config x)) (so_pairs x)) (so_frontier x)) as [Hok Hp].
  eapply configured_within; [|by eapply configure_Ret]. intros a h Ha. by rewrite lookup_empty in Ha.
Qed.

(** The state of the server between requests. *)
Record server_ok bound s : Prop := {
  sk_domain : domain_ok bound (internal s);
  sk_interests : ∀ n clients, interests s !! n = Some clients → clients ≠ ∅
}.

Lemma server_ok_keep bound s s' :
  server_ok bound s → internal s' = internal s → interests s' = interests s → server_ok bound s'.
Proof. intros [] Hi Hn. split; by rewrite ?Hi, ?Hn. Qed.

Lemma add_interest_ok bound s name (c : N) : server_ok bound s → server_ok bound (add_interest s name c).
Proof.
  intros [Hd Hi]. split; [done|]. intros n clients. simpl. rewrite lookup_insert_Some.
  intros [[_ <-]|[_ Hn]]; [set_solver|by eapply Hi].
Qed.

Lemma interest_keeps s name sym s' r pressed sym' :
  Server_interest set_semantics delta_join s name sym = Ret (s', r, pressed, sym') →
  internal s' = internal s ∧ interests s' = interests s ∧ config s' = config s.
Proof.
  unfold Server_interest. intros Hi. apply obind_Ret in Hi as ([implemented sym1] & _ & Hi).
  destruct implemented as [[rel_map h]|e]; [|by outcome_inv].
  destruct (rel_map !! name); by outcome_inv.
Qed.

Lemma uninterested_ok bound s (c : N) names s' pressed :
  server_ok bound s → uninterested s c names s' pressed → server_ok bound s' ∧ config s' = config s.
Proof.
  intros [Hd Hi] [Hint Hcf Hi' _ _]. split; [|done]. split; [by rewrite Hint|]. intros n clients.
  rewrite Hi'. case_decide; [|by apply Hi].
  destruct (interests s !! n) as [ts|]; simpl; [|done]. unfold without. case_decide; [done|]. by intros [= <-].
Qed.

Definition request_within bound req : Prop :=
  match req with
  | AdvanceDomain None next => match from_time (T := N) next with Ret t => (t ≤ bound)%N | Panic _ => True end
  | _ => True
  end.

Abbreviation handle := (handle_request set_semantics delta_join last_write_wins attribute_streams run_sink input) (only parsing).

(** What a request leaves as it was. *)
Definition same_loop l l' : Prop :=
  next_tx l' = next_tx l ∧ config (lp_server l') = config (lp_server l).

Lemma handle_interest_ok bound l (c : N) (i : Interest Sink) l' r :
  server_ok bound (lp_server l) → handle_interest set_semantics delta_join run_sink l c i = Ret (l', r) →
  server_ok bound (lp_server l') ∧ same_loop l l'.
Proof.
  intros Hs. unfold handle_interest. case_bool_decide.
  2: { intros Hh. outcome_inv. split; [by apply add_interest_ok|done]. }
  intros Hh. apply obind_Ret in Hh as ([[[s1 rel] p] sym] & Hi & Hh).
  apply interest_keeps in Hi as (Hint & Hin & Hcf).
  assert (server_ok bound s1 ∧ config s1 = config (lp_server l)) as [Hs1 Hcf1].
  { split; [|by rewrite Hcf]. eapply server_ok_keep; [|exact Hint|exact Hin]. by apply add_interest_ok. }
  destruct rel as [left|e]; [|by outcome_inv]. apply obind_Ret in Hh as (g & _ & Hh).
  destruct (in_sink i); by outcome_inv.
Qed.

Lemma handle_request_ok bound l worker_index now owner client req l' r :
  server_ok bound (lp_server l) → request_within bound req →
  handle l worker_index now owner client req = Ret (l', r) →
  server_ok bound (lp_server l') ∧ same_loop l l'.
Proof.
  intros Hs Hreq Hh. pose proof Hs as [Hd Hi].
  destruct req as [tx|aid|q|name|reg|source|name cfg|name next| |name| | | |]; cbn in Hh.
  - apply obind_Ret in Hh as ([s1 r1] & Ht & Hh). injection Hh as <- <-. unfold Server_transact in Ht.
    destruct (_ =? _)%N; [|by outcome_inv]. apply obind_Ret in Ht as ([d r2] & Ht & Heq). injection Heq as <- <-.
    split; [|done]. split; [by eapply transact_within|done].
  - unfold handle_subscribe in Hh. case_bool_decide; [|apply obind_Ret in Hh as (tr & _ & Hh)]; outcome_inv;
      (split; [by apply add_interest_ok|done]).
  - by eapply handle_interest_ok.
  - destruct (uninterest_one (lp_server l) client name) as (s1 & p & Heq & Hu). rewrite Heq in Hh.
    injection Hh as <- <-. destruct (uninterested_ok bound _ _ _ _ _ Hs Hu). done.
  - injection Hh as <- <-. split; [|done]. split; [|done]. simpl. clear -Hd.
    revert Hd. generalize (internal (lp_server l)). induction (rg_rules reg) as [|x xs IH]; intros d Hd; [done|].
    simpl. by apply IH, register_rule_within.
  - apply obind_Ret in Hh as ([s1 r1] & Hr & Hh). injection Hh as <- <-.
    apply obind_Ret in Hr as (d & Hr & Heq). injection Heq as <- <-. split; [|done].
    split; [by eapply register_streams_within|done].
  - apply obind_Ret in Hh as ([s1 r1] & Hr & Hh). injection Hh as <- <-.
    apply (create_attribute_within bound) in Hr as (Hd1 & Hin & Hcf); [|done].
    split; [|done]. split; [done|]. simpl. rewrite Hin. exact Hi.
  - apply obind_Ret in Hh as (t & Ht & Hh). apply obind_Ret in Hh as ([s1 r1] & Ha & Hh). injection Hh as <- <-.
    unfold Server_advance_domain in Ha. destruct name; [by outcome_inv|].
    apply obind_Ret in Ha as ([d r2] & Ha & Heq). injection Heq as <- <-. simpl in Hreq. rewrite Ht in Hreq.
    split; [|done]. split; [by eapply advance_epoch_within|done].
  - unfold handle_tick in Hh. destruct (_ =? _)%N; [|by outcome_inv].
    destruct (cf_tick _); [|by outcome_inv]. apply obind_Ret in Hh as (e & _ & Hh). by outcome_inv.
  - apply obind_Ret in Hh as ([[d r1] sent] & Hc & Hh). injection Hh as <- <-. split; [|done].
    split; [by eapply close_input_within|done].
  - unfold Server_disconnect_client in Hh.
    destruct (uninterest_all_spec (lp_server l) client (map_to_list (interests (lp_server l))).*1)
      as (s1 & p & Heq & Hu); [apply NoDup_fst_map_to_list|]. rewrite Heq in Hh.
    injection Hh as <- <-. destruct (uninterested_ok bound _ _ _ _ _ Hs Hu). done.
  - done.
  - by outcome_inv.
  - by outcome_inv.
Qed.

Lemma handle_requests_ok bound l worker_index now owner client last_tx reqs l' :
  server_ok bound (lp_server l) → Forall (request_within bound) reqs →
  handle_requests set_semantics delta_join last_write_wins attribute_streams run_sink input
    l worker_index now owner client last_tx reqs = Ret l' →
  server_ok bound (lp_server l') ∧ same_loop l l'.
Proof.
  intros Hs Hreqs. revert l Hs. induction Hreqs as [|req reqs Hreq Hreqs IH]; intros l Hs; simpl;
    [by intros [= <-]|].
  intros Hh. apply obind_Ret in Hh as ([l1 r] & H1 & Hh).
  destruct (handle_request_ok bound _ _ _ _ _ _ _ _ Hs Hreq H1) as [Hs1 [Htx Hcf]].
  apply IH in Hh; [|by destruct r]. destruct Hh as [Hs' [Htx' Hcf']]. split; [done|].
  split; [rewrite Htx'; by destruct r|rewrite Hcf'; by destruct r].
Qed.

(** The automatic advance. *)
Lemma auto_advance_ok l :
  server_ok (next_tx l) (lp_server l) → manual_advance (config (lp_server l)) = false →
  ∃ l', auto_advance l = Ret l' ∧ server_ok (next_tx l') (lp_server l') ∧ same_loop l l' ∧
    now_at (internal (lp_server l')) = next_tx l'.
Proof.
  intros [Hd Hi] Hm. unfold auto_advance. rewrite Hm.
  pose proof (advance_epoch_within (next_tx l) (internal (lp_server l)) (next_tx l)) as Hadv.
  assert (∃ d', Domain_advance_epoch (internal (lp_server l)) (next_tx l) = Ret (d', Ok tt) ∧
    now_at d' = next_tx l) as (d' & Ha & Hnow).
  { unfold Domain_advance_epoch. assert (less_equal (now_at (internal (lp_server l))) (next_tx l) = true) as ->
      by (apply N.leb_le, dk_epoch, Hd). simpl.
    case_bool_decide as Heq; simpl; [by exists (internal (lp_server l))|].
    erewrite map_traverse_pure; [simpl; eexists; split; done|].
    intros a s Ha. destruct (dk_sessions _ _ Hd a s Ha) as [Hwf Hle].
    apply session_advance_flush; [done|]. by apply N.leb_le. }
  rewrite Ha. simpl. eexists. split; [done|]. split; [|done].
  split; [|done]. simpl. by eapply Hadv.
Qed.

(** C5 (the event loop keeps its invariants).  Between two commands, let indices
    belong to configured attributes, rules be registered under their names, every
    recorded interest have a client, and no session nor the epoch be ahead of the
    transaction counter.  Then for every command that does not ask to advance
    beyond its own transaction, on a worker that advances automatically: if no
    request makes the worker panic, the advance does not either, the domain's
    epoch is the command's transaction, and the invariant holds again. *)
Theorem handle_command_ok l worker_index now (command : Command Source Sink) l1 :
  let tx := (next_tx l + 1)%N in
  server_ok (next_tx l) (lp_server l) → manual_advance (config (lp_server l)) = false →
  (tx < 2 ^ 64)%N → Forall (request_within tx) (requests command) →
  handle_requests set_semantics delta_join last_write_wins attribute_streams run_sink input
    (mkLoop (lp_server l) tx (shutdown l) (lp_sym l) (sent l) (ticks l)) worker_index now
    (owner command) (client command) (next_tx l) (requests command) = Ret l1 →
  ∃ l', handle_command set_semantics delta_join last_write_wins attribute_streams run_sink input
      l worker_index now command = Ret l' ∧
    server_ok (next_tx l') (lp_server l') ∧ next_tx l' = tx ∧
    now_at (internal (lp_server l')) = tx.
Proof.
  intros tx Hs Hm Htx Hreqs Hh. unfold handle_command. cbn [next_tx].
  assert (((next_tx l + 1) mod 2 ^ 64)%N = tx) as -> by (by apply N.mod_small).
  assert (((tx + (2 ^ 64 - 1)) mod 2 ^ 64)%N = next_tx l) as ->.
  { unfold tx. replace (next_tx l + 1 + (2 ^ 64 - 1))%N with (next_tx l + 1 * 2 ^ 64)%N by lia.
    rewrite N.Div0.mod_add. apply N.mod_small. unfold tx in Htx. lia. }
  rewrite Hh. cbn [obind].
  assert (server_ok tx (lp_server l)) as Hs1.
  { destruct Hs as [[Hix Hn Hns Hse Hep] Hi]. split; [|done]. split; try done; [|unfold tx; lia].
    intros a s Ha. destruct (Hse a s Ha). split; [done|]. unfold tx. lia. }
  destruct (handle_requests_ok tx (mkLoop (lp_server l) tx (shutdown l) (lp_sym l) (sent l) (ticks l))
    _ _ _ _ _ _ _ Hs1 Hreqs Hh) as [Hs2 [Htx2 Hcf2]].
  simpl in Htx2, Hcf2. rewrite <- Htx2 in Hs2.
  destruct (auto_advance_ok l1 Hs2) as (l' & Ha & Hs' & [Htx' _] & Hnow); [by rewrite Hcf2|].
  exists l'. split; [done|]. split; [done|]. split; [congruence|]. congruence.
Qed.
End requests.
