(* ===== verification/LoopRuns.v ===== *)
(** * The server on concrete commands

    In the models of the interfaces, with [u64] times: the hypotheses of the
    server's theorems hold for a new server, and three behaviours clients can
    observe. *)
From Stdlib Require Import ZArith NArith Lia.
From stdpp Require Import base strings numbers sets gmap fin_maps list.
From S2P Require Import Prelude Timestamps Values Bindings HectorPlan Sessions Weighted.
From S2P Require Import Dataflow Domains DomainTheorems ScopedDomains Relations PlanOps Plans.
From S2P Require Import Rules RuleTheorems PlanRuns RuleRuns Server ServerTheorems EventLoop LoopTheorems.

Section loop_runs.
#[local] Existing Instances extern_model diff_model trace_model timely_model set_iteration_model.

Abbreviation Pairs := (Collection (Value * Value) Z) (only parsing).

Definition no_delta_joins (d : Domain N Rule) : Hector → outcome (Implemented * ShutdownHandle (Button (T := N))) :=
  no_delta_join.
Definition lww_input (pairs : Pairs) : Pairs := pairs.
Definition empty_input (name : Aid) : Pairs := (Ret [] : outcome (wlist (Value * Value))).
(** A source is the list of the attributes it publishes; every sink works. *)
Definition streams_of (source : list Aid) : list (Sourced N) :=
  (λ name, mkSourced name AttributeConfig_default (Ret [] : outcome (wlist (Value * Value))) [0%N]) <$> source.
Definition any_sink (sink : unit) : Result unit Error := Ok tt.

Definition at_start : Duration := mkDuration 0 0.
Definition loop0 : Loop := Loop_new Configuration_default.
Abbreviation run_command := (handle_command false no_delta_joins lww_input streams_of any_sink empty_input) (only parsing).

Definition first_command : Command (list Aid) unit :=
  mkCommand 0 7 [CreateAttribute "age" AttributeConfig_default;
                 Transact [Datom_add 1 "age" (VNumber 30)]; AdvanceDomain None (TxId 1)].

Definition after_requests : Loop :=
  match handle_requests false no_delta_joins lww_input streams_of any_sink empty_input
    (mkLoop (lp_server loop0) 1 false SYM [] []) 0 at_start 0 7 0 (requests first_command) with
  | Ret l => l
  | Panic _ => loop0
  end.

Lemma requests_handled :
  handle_requests false no_delta_joins lww_input streams_of any_sink empty_input
    (mkLoop (lp_server loop0) 1 false SYM [] []) 0 at_start 0 7 0 (requests first_command) =
  Ret after_requests.
Proof. vm_refl. Qed.

Lemma loop0_ok : server_ok 0 (lp_server loop0).
Proof. split; [apply domain_ok_new|]. intros n ts. simpl. by rewrite lookup_empty. Qed.

Lemma handle_command_ok_witness :
  ∃ l', run_command loop0 0 at_start first_command = Ret l' ∧
    server_ok (next_tx l') (lp_server l') ∧ next_tx l' = 1%N ∧ now_at (internal (lp_server l')) = 1%N.
Proof.
  apply (handle_command_ok false no_delta_joins lww_input streams_of any_sink empty_input loop0 0 at_start
    first_command after_requests).
  - exact loop0_ok.
  - reflexivity.
  - reflexivity.
  - repeat constructor. simpl. lia.
  - exact requests_handled.
Defined.

Lemma create_attribute_spec_witness :
  ∃ self', Server_create_attribute lww_input Time_from_u64 (lp_server loop0) (empty_input "age") "age"
      AttributeConfig_default = Ret (self', Ok tt) ∧
    attribute_ready AttributeConfig_default (internal self') "age" (empty_input "age").
Proof.
  destruct (create_attribute_spec lww_input Time_from_u64 (lp_server loop0) (empty_input "age") "age"
    AttributeConfig_default) as [[Hs _]|(_ & self' & Hc & Hr & _)].
  - exact (dk_indexed _ _ (sk_domain _ _ loop0_ok)).
  - reflexivity.
  - intros slack Hs. discriminate Hs.
  - exfalso. destruct Hs as [c Hs]. discriminate Hs.
  - exists self'. split; [exact Hc|exact Hr].
Defined.

Lemma register_source_single_witness :
  match Server_register_source lww_input Time_from_u64 (lp_server loop0) (streams_of ["temperature"]) with
  | Ret (self', r) => registrable (internal (lp_server loop0)) (streams_of ["temperature"]) = true
  | Panic _ => False
  end.
Proof.
  destruct (Server_register_source lww_input Time_from_u64 (lp_server loop0) (streams_of ["temperature"]))
    as [[self' r]|m] eqn:Hr.
  - exact (register_source_single lww_input Time_from_u64 (lp_server loop0) (streams_of ["temperature"])
      self' r Hr).
  - discriminate Hr.
Defined.

(** ** Behaviours clients can observe *)

(** A source that publishes two attributes takes the worker down. *)
Example two_attribute_source :
  is_panic (run_command loop0 0 at_start (mkCommand 0 7 [RegisterSource ["a"; "b"]])) = true.
Proof. vm_refl. Qed.

(** A client that advances the domain past its transaction takes the worker
    down, unless advancing is manual. *)
Example advance_past_transaction :
  is_panic (run_command loop0 0 at_start (mkCommand 0 7 [AdvanceDomain None (TxId 5)])) = true.
Proof. vm_refl. Qed.

(** A failed interest stays recorded: the next client is told that the query it
    is interested in was set up, although it was not. *)
Example failed_interest_recorded :
  match (let! l := run_command loop0 0 at_start (mkCommand 0 7 [RInterest (mkInterest "q" None None None)]) in
         run_command l 0 at_start (mkCommand 0 8 [RInterest (mkInterest "q" None None None)])) with
  | Ret l => (length (sent l), bool_decide (query_handles (lp_server l) = ∅),
              bool_decide (interests (lp_server l) !! "q" = Some {[7; 8]}))%N = (1, true, true)
  | Panic _ => False
  end.
Proof. vm_compute. reflexivity. Qed.
End loop_runs.
