(* ===== verification/DeltaRuns.v ===== *)
(** * Delta pipelines on concrete inputs

    Traces that carry the history of their updates, and the cases of the
    repository's own test of Hector, with several times added. *)
From Stdlib Require Import ZArith NArith Lia.
From stdpp Require Import base strings numbers list gmap sets.
From S2P Require Import Prelude Timestamps Values Bindings HectorPlan Sessions Weighted Streams.
From S2P Require Import Lookups LookupTheorems Dataflow Domains Relations Extenders.
From S2P Require Import ExtenderTheorems RelationTheorems DeltaJoin DeltaExtenders DeltaPipelines DeltaTheorems.
From S2P Require Import PlanOps Plans Assignments PlanReference PlanStages PlanSemantics DeltaPlans.

(** A trace: the history of its updates, and the frontier it was advanced to.
    What it was arranged from is its history at time 0; collections are observed
    at time [t]. *)
Lemma accumulate_at_0 {D} (l : wlist D) (t : N) : accumulate (wmap (λ x, (x, 0%N)) l) t = l.
Proof.
  unfold accumulate, wmap, wfilter. induction l as [|[x z] l IH]; [done|].
  rewrite fmap_cons, filter_cons. unfold less_equal, u64_less_equal in *. simpl.
  rewrite (proj2 (N.leb_le 0 t)) by lia. csimpl. by rewrite IH.
Qed.

Program Definition timed_trace_model (t : N) : @Traces diff_model N := {|
  Trace K V := (outcome (Stream N (K * V)) * list N)%type;
  Button := string;
  arrange_named K V name c := (let! l := c in Ret (wmap (λ x, (x, 0%N)) l), []);
  import_frontier K V tr name := (let! h := tr.1 in Ret (accumulate h t), name);
  advance_by K V tr f := (tr.1, f);
  distinguish_since K V tr f := tr;
  advance_frontier K V tr := tr.2
|}.
Next Obligation.
  intros. destruct c as [l|]; [|done]. cbn. rewrite accumulate_at_0. apply accumulates_refl.
Qed.
Next Obligation. intros. apply run_rel_refl. intros. apply accumulates_refl. Qed.
Next Obligation. intros. apply run_rel_refl. intros. apply accumulates_refl. Qed.
Next Obligation. intros. apply run_rel_refl. intros. apply accumulates_refl. Qed.
Next Obligation. done. Qed.
Next Obligation. done. Qed.

Section delta_runs.
#[local] Existing Instances extern_model diff_model timely_model.
#[local] Instance traces_at_3 : @Traces diff_model N := timed_trace_model 3.

Definition history_of K V (t : Trace (T := N) K V) : Stream N (K * V) :=
  match t.1 with Ret h => h | Panic _ => [] end.
Definition timed {K V} (h : Stream N (K * V)) : Trace (T := N) K V := (Ret h, []).

Abbreviation Pairs := (Stream N (Value * Value)) (only parsing).

(** A domain with all indices of the given attributes. *)
Definition indexed_domain (pairs : gmap Aid Pairs) : Domain N unit :=
  let index {K V} (f : Value * Value → K * V) : gmap Aid (Trace (T := N) K V) :=
    (λ h, timed (wmap (λ x, (f x.1, x.2)) h)) <$> pairs in
  mkDomain "" 0%N [] ∅ [] 0%N ((λ _, AttributeConfig_default) <$> pairs)
    (index (λ ev, (ev.1, tt))) (index id) (index (λ ev, (ev, tt)))
    (index (λ ev, (ev.2, tt))) (index (λ ev, (ev.2, ev.1))) (index (λ ev, (ev, tt))) ∅ ∅.

(** These are the indices the code builds: for the pairs of one attribute, all at
    time 0, by the functions of [ScopedDomain]. *)
Definition built_domain (name : Aid) (l : wlist (Value * Value)) : outcome (Domain N unit) :=
  let! scoped := Scoped_with_query_support (collection_as_singleton_domain (Ret l) [0%N] name) AdaptiveWCO in
  let! scoped := Scoped_with_reverse_indices scoped in
  Ret (Scoped_into scoped).

Record same_indices (d d' : Domain N unit) : Prop := {
  same_forward_count : forward_count d = forward_count d';
  same_forward_propose : forward_propose d = forward_propose d';
  same_forward_validate : forward_validate d = forward_validate d';
  same_reverse_count : reverse_count d = reverse_count d';
  same_reverse_propose : reverse_propose d = reverse_propose d';
  same_reverse_validate : reverse_validate d = reverse_validate d'
}.

Definition pairs_of (pairs : gmap Aid Pairs) (a : Aid) : Pairs := default [] (pairs !! a).

(** ** Checking histories *)

(** Between two times of a history nothing changes. *)
Lemma accumulate_last {D} (h : Stream N D) s :
  accumulate h s = [] ∨ ∃ s', s' ∈ (snd <$> h.*1) ∧ accumulate h s = accumulate h s'.
Proof.
  assert (∀ l : list N, (∀ x, x ∈ l → (s < x)%N) ∨ ∃ m, m ∈ l ∧ (m ≤ s)%N ∧ ∀ x, x ∈ l → (x ≤ s)%N → (x ≤ m)%N) as Hmax.
  { induction l as [|x l [Hl|(m & Hm & Hms & Hl)]]; [left; set_solver|..].
    - destruct (N.le_gt_cases x s) as [Hx|Hx]; [right; exists x|left; set_solver].
      split; [set_solver|]. split; [done|]. intros y [->|Hy]%elem_of_cons Hys; [lia|].
      apply Hl in Hy. lia.
    - right. destruct (N.le_gt_cases x s) as [Hx|Hx]; [|exists m; set_solver by lia].
      exists (N.max x m). split; [destruct (N.max_spec x m) as [[_ ->]|[_ ->]]; set_solver|].
      split; [lia|]. intros y [->|Hy]%elem_of_cons Hys; [lia|]. specialize (Hl y Hy Hys). lia. }
  unfold accumulate, wfilter. destruct (Hmax (snd <$> h.*1)) as [Hno|(m & Hm & Hms & Hl)].
  - left. rewrite filter_none; [done|]. intros u Hu. unfold less_equal, u64_less_equal. simpl.
    assert (u.1.2 ∈ snd <$> h.*1) as Hin by (by apply list_elem_of_fmap_2, list_elem_of_fmap_2).
    apply Hno in Hin. rewrite (proj2 (N.leb_gt _ _)) by done. done.
  - right. exists m. split; [done|]. f_equal. apply filter_agree. intros u Hu.
    assert (u.1.2 ∈ snd <$> h.*1) as Hin by (by apply list_elem_of_fmap_2, list_elem_of_fmap_2).
    unfold less_equal, u64_less_equal. simpl. rewrite !N.leb_le. split; [by apply Hl|lia].
Qed.

(** At every time of the history, every record is there once or not at all. *)
Definition set_check {D} `{EqDecision D} (h : Stream N D) : bool :=
  forallb (λ s, forallb (λ x, bool_decide (wt (accumulate h s) x = 0%Z ∨ wt (accumulate h s) x = 1%Z))
                  (fst <$> h.*1)) (snd <$> h.*1).

Lemma set_check_sound {D} `{EqDecision D} (h : Stream N D) s :
  set_check h = true → is_set (accumulate h s).
Proof.
  unfold set_check. rewrite forallb_forall. intros Hall x.
  destruct (accumulate_last h s) as [->|(s' & Hs & ->)]; [by left|].
  destruct (decide (x ∈ fst <$> h.*1)) as [Hx|Hx].
  - apply list_elem_of_In, Hall in Hs. rewrite forallb_forall in Hs.
    apply list_elem_of_In, Hs, bool_decide_eq_true in Hx. done.
  - left. apply wt_not_elem. intros (t & Hin)%accumulate_elem. apply Hx, list_elem_of_fmap.
    by exists (x, t).
Qed.

Lemma degree_length {D K} `{EqDecision D, EqDecision K} (f : D → K) (h : Stream N D) s k :
  (degree f (accumulate h s) k ≤ length h)%nat.
Proof.
  unfold degree, present. etransitivity; [apply length_filter|]. etransitivity; [apply length_filter|].
  assert (length (remove_dups (accumulate h s).*1) ≤ length (accumulate h s))%nat as Hd.
  { rewrite <- (length_fmap fst (accumulate h s)). generalize ((accumulate h s).*1) as l.
    induction l as [|x l IH]; [done|]. simpl. case_decide; simpl; lia. }
  etransitivity; [exact Hd|]. unfold accumulate, wmap, wfilter. rewrite length_fmap. apply length_filter.
Qed.

Lemma timed_index {K V} `{EqDecision K, EqDecision V} (f : Value * Value → K * V)
    (pairs : gmap Aid Pairs) a :
  is_Some (pairs !! a) →
  indexes_history history_of (((λ h, timed (wmap (λ x, (f x.1, x.2)) h)) <$> pairs) !! a) f (pairs_of pairs a).
Proof.
  intros [h Hh]. unfold pairs_of. rewrite lookup_fmap, Hh. simpl. eexists. split; [done|]. intros s.
  intros x. unfold wt, history_of, timed, accumulate. simpl. f_equal.
  rewrite !wsum_wmap, !wsum_wfilter, !wsum_wmap. done.
Qed.

(** At every time of the history, every pair has the weight of its mirror image. *)
Definition mirror_check (h : Pairs) : bool :=
  forallb (λ s, forallb (λ x, bool_decide (wt (accumulate h s) (x.2, x.1) = wt (accumulate h s) x))
                  ((fst <$> h.*1) ++ ((λ x, (x.2, x.1)) <$> (fst <$> h.*1)))) (snd <$> h.*1).

Lemma mirror_check_sound (h : Pairs) s e v :
  mirror_check h = true → wt (accumulate h s) (v, e) = wt (accumulate h s) (e, v).
Proof.
  unfold mirror_check. rewrite forallb_forall. intros Hall.
  destruct (accumulate_last h s) as [->|(s' & Hs & ->)]; [done|].
  apply list_elem_of_In, Hall in Hs. rewrite forallb_forall in Hs.
  destruct (decide ((e, v) ∈ (fst <$> h.*1) ++ ((λ x, (x.2, x.1)) <$> (fst <$> h.*1)))) as [Hx|Hx].
  - apply list_elem_of_In, Hs, bool_decide_eq_true in Hx. done.
  - rewrite !wt_not_elem; [done|intros (t & Hin)%accumulate_elem; apply Hx, elem_of_app..].
    + left. apply list_elem_of_fmap. by exists (e, v, t).
    + right. apply list_elem_of_fmap. exists (v, e). split; [done|].
      apply list_elem_of_fmap. by exists (v, e, t).
Qed.

Lemma checked_attribute (mirrored : Aid → bool) (pairs : gmap Aid Pairs) a :
  is_Some (pairs !! a) → set_check (pairs_of pairs a) = true →
  implb (mirrored a) (mirror_check (pairs_of pairs a)) = true →
  (Z.of_nat (length (pairs_of pairs a)) < 2 ^ 31)%Z →
  attribute_indexed history_of (indexed_domain pairs) (pairs_of pairs) mirrored a.
Proof.
  intros Ha Hset Hmirror Hlen. split; [by apply (timed_index _ pairs a Ha)..| | |].
  - intros Hm s e v. rewrite Hm in Hmirror. by apply mirror_check_sound.
  - intros s. by apply set_check_sound.
  - intros s k. split; (eapply Z.le_lt_trans; [apply inj_le, degree_length|done]).
Qed.

Lemma attribute_indexed_same mirrored h d d' a :
  same_indices d d' → attribute_indexed history_of d h mirrored a →
  attribute_indexed history_of d' h mirrored a.
Proof.
  intros [E1 E2 E3 E4 E5 E6] [].
  split; unfold Domain_forward_count, Domain_forward_propose, Domain_forward_validate,
    Domain_reverse_count, Domain_reverse_propose, Domain_reverse_validate in *;
    rewrite <- ?E1, <- ?E2, <- ?E3, <- ?E4, <- ?E5, <- ?E6; done.
Qed.

Lemma built_index {K V} (f : Value * Value → K * V) name (l : wlist (Value * Value)) :
  (λ h : Pairs, timed (wmap (λ x, (f x.1, x.2)) h)) <$> {[ name := wmap (λ x, (x, 0%N)) l ]} =
  <[ name := (let! l := (let! l := Ret l in mapM_outcome (λ p, let! y := Ret (f p.1) in Ret (y, p.2)) l) in
              Ret (wmap (λ x, (x, 0%N)) l), []) ]> (∅ : gmap Aid (Trace (T := N) K V)) ∪ ∅.
Proof.
  assert (mapM_outcome (λ p : (Value * Value) * Z, let! y := Ret (f p.1) in Ret (y, p.2)) l = Ret (wmap f l)) as Hmap.
  { unfold wmap. induction l as [|p l IH]; [done|]. by rewrite mapM_outcome_cons, IH. }
  rewrite map_fmap_singleton, map_union_empty. change (let! l := Ret l in mapM_outcome _ l) with
    (mapM_outcome (λ p : (Value * Value) * Z, let! y := Ret (f p.1) in Ret (y, p.2)) l).
  rewrite Hmap. cbn [obind]. unfold timed. by rewrite !wmap_wmap.
Qed.

Lemma built_same_indices l :
  ∃ d, built_domain "edge" l = Ret d ∧
    same_indices (indexed_domain {[ "edge" := wmap (λ x, (x, 0%N)) l ]}) d.
Proof.
  unfold built_domain. cbn -[mapM_outcome wmap]. eexists. split; [done|].
  split; cbn -[mapM_outcome wmap].
  - apply (built_index (λ ev, (ev.1, tt))).
  - rewrite map_fmap_singleton. unfold timed. by rewrite wmap_wmap.
  - apply (built_index (λ ev, (ev, tt))).
  - apply (built_index (λ ev, (ev.2, tt))).
  - apply (built_index (λ ev, (ev.2, ev.1))).
  - apply (built_index (λ ev, (ev, tt))).
Qed.

(** What the query has produced when the given times are complete. *)
Definition answers (pairs : gmap Aid Pairs) (q : Hector) (t : N) : option (list (list Value * Z)) :=
  match delta_join history_of 10 (indexed_domain pairs) q with
  | Ret (Some (out, _)) =>
      let l := accumulate out (mkProduct t 0%N) in
      Some (filter (λ p, p.2 ≠ 0%Z) ((λ x, (x, wt l x)) <$> remove_dups l.*1))
  | _ => None
  end.

Definition at_ (t : N) (e : N) (v : Value) : (Value * Value) * N * Z := ((VEid e, v), t, 1%Z).
Definition until (t : N) (e : N) (v : Value) : (Value * Value) * N * Z := ((VEid e, v), t, (-1)%Z).

(** ** The repository's test cases *)

Definition edges : gmap Aid Pairs :=
  {[ "edge" := [at_ 0 100 (VEid 200); at_ 0 200 (VEid 300); at_ 0 100 (VEid 300);
                at_ 0 100 (VEid 400); at_ 0 400 (VEid 500); at_ 0 500 (VEid 100)] ]}.
Definition triangle : Hector :=
  mkHector [1; 2; 3]%N [Binding_attribute 1 "edge" 2; Binding_attribute 2 "edge" 3;
                        Binding_attribute 1 "edge" 3].
Example triangle_case : answers edges triangle 0 = Some [([VEid 100; VEid 200; VEid 300], 1%Z)].
Proof. vm_refl. Qed.

(** The case [[?a :num ?b] [?a :num ?c] (< ?b ?c)]: the answers have [?c] less
    than [?b]. *)
Definition numbers (ns : list Z) : gmap Aid Pairs := {[ ":num" := at_ 0 100 ∘ VNumber <$> ns ]}.
Example less_than_case :
  answers (numbers [1; 2; 3]%Z)
    (mkHector [0; 1; 2]%N [Binding_attribute 0 ":num" 1; Binding_attribute 0 ":num" 2;
                           Binding_binary_predicate LT 1 2]) 0 =
  Some [([VEid 100; VNumber 2; VNumber 1], 1%Z); ([VEid 100; VNumber 3; VNumber 1], 1%Z);
        ([VEid 100; VNumber 3; VNumber 2], 1%Z)].
Proof. vm_refl. Qed.

Example constants_case :
  answers (numbers [1; 10; 20]%Z)
    (mkHector [0; 1; 3; 2]%N [Binding_attribute 0 ":num" 1; Binding_attribute 0 ":num" 2;
       Binding_constant 3 (VNumber 18); Binding_constant 1 (VNumber 10);
       Binding_binary_predicate LT 2 3]) 0 =
  Some [([VEid 100; VNumber 10; VNumber 18; VNumber 20], 1%Z)].
Proof. vm_refl. Qed.

(** ** Queries over edges that come and go *)
Definition none_mirrored (_ : Aid) : bool := false.
Definition all_mirrored (_ : Aid) : bool := true.

Definition changing_edges : gmap Aid Pairs :=
  {[ "edge" := [at_ 0 1 (VEid 2); at_ 1 2 (VEid 3); at_ 3 1 (VEid 3); until 5 2 (VEid 3)] ]}.

(** The same edges in both directions. *)
Definition undirected_edges : gmap Aid Pairs :=
  {[ "edge" := [at_ 0 1 (VEid 2); at_ 0 2 (VEid 1); at_ 1 2 (VEid 3); at_ 1 3 (VEid 2);
                at_ 3 1 (VEid 3); at_ 3 3 (VEid 1); until 5 2 (VEid 3); until 5 3 (VEid 2)] ]}.

(** A path of two edges.  The pipeline of the second edge proposes in reverse. *)
Definition path : Hector :=
  mkHector [1; 2; 3]%N [Binding_attribute 1 "edge" 2; Binding_attribute 2 "edge" 3].

Lemma attributes_wf (d : Domain N unit) h mirrored q :
  attribute_indexed history_of d h mirrored "edge" →
  forallb (λ b, match b with
     | BAttribute b => bool_decide (source_attribute b = "edge" ∧ (ab_variables b).1 ≠ (ab_variables b).2)
     | _ => false end) (he_bindings q) = true →
  ∀ b, b ∈ he_bindings q → binding_wf history_of d h mirrored b.
Proof.
  intros He Hq b Hb. rewrite forallb_forall in Hq. apply list_elem_of_In, Hq in Hb.
  destruct b as [b|b|b|b]; [|done..]. apply bool_decide_eq_true in Hb as [Ha Hne]. simpl. by rewrite Ha.
Qed.

Lemma changing_indexed :
  attribute_indexed history_of (indexed_domain changing_edges) (pairs_of changing_edges) none_mirrored "edge".
Proof. apply checked_attribute; [by eexists|vm_refl|done|done]. Qed.

Lemma undirected_indexed :
  attribute_indexed history_of (indexed_domain undirected_edges) (pairs_of undirected_edges) all_mirrored "edge".
Proof. apply checked_attribute; [by eexists|vm_refl|vm_refl|done]. Qed.

(** Without negations every history has settled. *)
Lemma settled_positive h q : forallb is_attribute (he_bindings q) = true → settled h 0 q.
Proof.
  rewrite forallb_forall. intros Hq. split; [|intros b s ρ _ _ Hs; by apply N.nlt_0_r in Hs].
  intros b s ρ Hb%list_elem_of_In%Hq. congruence.
Qed.

Definition weights_at (out : Stream (Product N N) (list Value)) (ts : list N) : list Z :=
  (λ t, wt (accumulate out (mkProduct t 0%N)) [VEid 1; VEid 2; VEid 3]) <$> ts.

Lemma delta_join_spec_witness :
  query_ok none_mirrored 10 path = true ∧ query_ok all_mirrored 10 triangle = true ∧
  (∃ out handle, delta_join history_of 10 (indexed_domain changing_edges) path = Ret (Some (out, handle)) ∧
    weights_at out [0; 1; 2; 3; 4; 5; 6]%N = [0; 1; 1; 1; 1; 0; 0]%Z) ∧
  ∃ out handle, delta_join history_of 10 (indexed_domain undirected_edges) triangle = Ret (Some (out, handle)) ∧
    weights_at out [0; 1; 2; 3; 4; 5; 6]%N = [0; 0; 0; 1; 1; 0; 0]%Z.
Proof.
  assert (query_ok none_mirrored 10 path = true) as Hpath by vm_refl.
  assert (query_ok all_mirrored 10 triangle = true) as Htriangle by vm_refl.
  split; [exact Hpath|]. split; [exact Htriangle|]. split.
  - destruct (delta_join_spec history_of (indexed_domain changing_edges) (pairs_of changing_edges)
      none_mirrored 10 path 0 (attributes_wf _ _ _ path changing_indexed eq_refl) Hpath)
      as (out & handle & Hrun & Hw); [by apply settled_positive|].
    exists out, handle. split; [exact Hrun|].
    assert (∀ t, wt (accumulate out (mkProduct t 0%N)) [VEid 1; VEid 2; VEid 3] =
      if answer (pairs_of changing_edges) (Some t) (λ x, VEid x) path then 1%Z else 0%Z) as Hat
      by (intros t; exact (proj1 (Hw t 0%N) (λ x, VEid x))).
    unfold weights_at. cbn [fmap list_fmap]. rewrite !Hat. vm_compute. reflexivity.
  - destruct (delta_join_spec history_of (indexed_domain undirected_edges) (pairs_of undirected_edges)
      all_mirrored 10 triangle 0 (attributes_wf _ _ _ triangle undirected_indexed eq_refl) Htriangle)
      as (out & handle & Hrun & Hw); [by apply settled_positive|].
    exists out, handle. split; [exact Hrun|].
    assert (∀ t, wt (accumulate out (mkProduct t 0%N)) [VEid 1; VEid 2; VEid 3] =
      if answer (pairs_of undirected_edges) (Some t) (λ x, VEid x) triangle then 1%Z else 0%Z) as Hat
      by (intros t; exact (proj1 (Hw t 0%N) (λ x, VEid x))).
    unfold weights_at. cbn [fmap list_fmap]. rewrite !Hat. vm_compute. reflexivity.
Defined.

(** Over directed edges, two bindings of the triangle propose in reverse for the
    same variable, and the index to validate with does not have the swapped pair:
    the triangle that the third edge completes is never reported. *)
Example triangle_missed :
  query_ok none_mirrored 10 triangle = false ∧
  forallb (λ t, bool_decide (answers changing_edges triangle t = Some [])) [0; 1; 2; 3; 4; 5]%N = true ∧
  answer (pairs_of changing_edges) (Some 3%N) (λ x, VEid x) triangle = true.
Proof. split_and!; vm_refl. Qed.

(** ** Extending two prefixes *)

(** By the value 3, which has to be less than the prefix's value, and not 4. *)
Definition three_extenders : list (PrefixExtender N) :=
  [ConstantExtender (VNumber 3); BinaryPredicateExtender LT (DForward 0);
   AntijoinExtender (ConstantExtender (VNumber 4))].
Definition two_prefixes : Stream N (list Value) := [([VNumber 5], 1%N, 2%Z); ([VNumber 1], 0%N, 1%Z)].

(** Extenders that all validate as they propose. *)
Lemma extenders_validate (valid : list Value → Prop) es
    (specs : list ((N → list Value → Value → bool) * option (N → list Value → N))) :
  Forall2 (λ e spec, extender_ok valid e spec.1 spec.2) es specs →
  Forall2 (λ e spec, proposes_ok valid e spec.1 spec.2) es specs ∧ validated valid es specs.
Proof.
  intros Hes. split; [eapply Forall2_impl; [exact Hes|by intros e spec []]|].
  intros i e spec He Hs. left. by destruct (Forall2_lookup_lr _ _ _ _ _ _ Hes He Hs).
Qed.

Lemma two_prefixes_extended :
  ∃ out, extend_prefixes two_prefixes three_extenders = Ret out ∧
    wt out ([VNumber 5], VNumber 3, 1%N) = 2%Z ∧ wt out ([VNumber 1], VNumber 3, 0%N) = 0%Z.
Proof.
  set (valid := λ p : list Value, length p = 1%nat).
  set (holds := λ (_ : N) (p : list Value) v,
    match p !! 0%nat with Some b => predicate_accepts LT (DForward 0) b v | None => false end).
  set (specs := [(λ (_ : N) (_ : list Value) v, bool_decide (v = VNumber 3), Some (λ (_ : N) (_ : list Value), 1%N));
                 (holds, None);
                 (λ (_ : N) (_ : list Value) v, negb (bool_decide (v = VNumber 4)), None)]).
  destruct (extenders_validate valid three_extenders specs) as [Hpr Hval].
  { apply Forall2_cons; split; [apply (ConstantExtender_ok valid)|].
    apply Forall2_cons; split.
    { apply (BinaryPredicateExtender_ok valid LT (DForward 0)). intros p Hp.
      apply lookup_lt_is_Some_2. rewrite Hp. constructor. }
    apply Forall2_cons; split; [|apply Forall2_nil_2].
    exact (AntijoinExtender_ok valid _ _ (Some (λ _ _, 1%N)) (ConstantExtender_ok valid (VNumber 4))). }
  destruct (extend_prefixes_spec valid three_extenders specs two_prefixes Hpr Hval) as (out & Hout & _ & Hw).
  - intros p t Hin. repeat (apply elem_of_cons in Hin as [[= -> ->]|Hin]; [reflexivity|]).
    by apply not_elem_of_nil in Hin.
  - eexists _, _. left.
  - intros p t _. eexists _, _. split; [left|reflexivity].
  - exists out. split; [exact Hout|]. split; (rewrite Hw; [vm_compute; reflexivity|reflexivity]).
Defined.

(** ** Negation *)

(** One person of age 30 on level 7, both known at time 2, unless level 7 bars
    30-year-olds, which is known from time [t] on. *)
Definition barred (t : N) : gmap Aid Pairs :=
  <["barred" := [((VNumber 7, VNumber 30), t, 1%Z)]]> (<["age" := [at_ 2 1 (VNumber 30)]]>
    {[ "level" := [at_ 2 1 (VNumber 7)] ]}).
Definition admitted (negation_first : bool) : Hector :=
  let negated := Binding_not (Binding_attribute 2 "barred" 1) in
  let age := Binding_attribute 0 "age" 1 in
  let level := Binding_attribute 0 "level" 2 in
  mkHector [0; 1; 2]%N (if negation_first then [negated; age; level] else [age; level; negated]).

(** A negated attribute that has settled before is respected. *)
Example settled_negation :
  answers (barred 1) (admitted false) 4 = Some [] ∧ answers (barred 1) (admitted true) 4 = Some [].
Proof. split; vm_refl. Qed.

(** Only the attributes that are not negated drive a pipeline.  A fact of a
    negated attribute that arrives later does not retract the answer it refutes. *)
Example stale_negation :
  answers (barred 3) (admitted true) 4 = Some [([VEid 1; VNumber 30; VNumber 7], 1%Z)].
Proof. vm_refl. Qed.

(** One that arrives at the same time is seen only if the negation comes first. *)
Example simultaneous_negation :
  answers (barred 2) (admitted true) 4 = Some [] ∧
  answers (barred 2) (admitted false) 4 = Some [([VEid 1; VNumber 30; VNumber 7], 1%Z)].
Proof. split; vm_refl. Qed.

(** A negated attribute that is looked up in reverse refutes nothing. *)
Example reverse_negation :
  answers {[ "barred" := [((VNumber 30, VNumber 7), 1%N, 1%Z)]; "age" := [at_ 2 1 (VNumber 30)];
             "level" := [at_ 2 1 (VNumber 7)] ]}
    (mkHector [0; 1; 2]%N [Binding_attribute 0 "age" 1; Binding_attribute 0 "level" 2;
       Binding_not (Binding_attribute 1 "barred" 2)]) 4 =
  Some [([VEid 1; VNumber 30; VNumber 7], 1%Z)].
Proof. vm_refl. Qed.

(** The queue of bindings unwraps one negation.  Under a second one it takes the
    extender of another binding for the negated binding's. *)
Example double_negation :
  is_panic (delta_join history_of 10 (indexed_domain (barred 1))
    (mkHector [0; 1; 2]%N [Binding_attribute 0 "age" 1; Binding_attribute 0 "level" 2;
       Binding_not (Binding_not (Binding_attribute 2 "barred" 1))])) = true.
Proof. vm_refl. Qed.

(** A binding that repeats a variable never extends a prefix: it is ignored. *)
Example repeated_variable :
  answers (<["knows" := [at_ 0 1 (VEid 2)]]> (barred 1))
    (mkHector [0; 1]%N [Binding_attribute 0 "age" 1; Binding_attribute 0 "knows" 0]) 4 =
  Some [([VEid 1; VNumber 30], 1%Z)].
Proof. vm_refl. Qed.

(** ** A delta join inside a plan, observed at time 3 *)
#[local] Program Instance observed_at_3 : Observed history_of := {|
  now := 3%N;
  round := 0%N;
  as_collection D _ l := Ret (accumulate l (mkProduct 3%N 0%N))
|}.
Next Obligation. intros. eexists. split; [done|]. apply accumulates_refl. Qed.
Next Obligation.
  intros K V ? ? [[h|] f] name l; [|done]. intros [= <-]. apply accumulates_refl.
Qed.

(** Three edges, all known at time 0, in a domain that the code's functions build. *)
Definition edge_pairs : wlist (Value * Value) :=
  [((VEid 1, VEid 2), 1%Z); ((VEid 2, VEid 3), 1%Z); ((VEid 3, VEid 4), 1%Z)].
Definition built_edges : Domain N unit :=
  match built_domain "edge" edge_pairs with Ret d => d | Panic _ => Domain_new 0%N end.
Definition edge_history : gmap Aid Pairs := {[ "edge" := wmap (λ x, (x, 0%N)) edge_pairs ]}.

Definition delta_join_at_3 : Hector → outcome (Implemented * ShutdownHandle (Button (T := N))) :=
  Hector_delta_join history_of 10 (Panic "unfinished") built_edges.
#[local] Instance joinable_at_3 : DeltaJoinable :=
  pipelines_joinable history_of 10 0 built_edges none_mirrored.

(** The first and the last node of every path of two edges. *)
Definition path_ends : Plan := PProject (mkProject [1; 3]%N (PHector path)).

Lemma built_edges_built : built_domain "edge" edge_pairs = Ret built_edges.
Proof. vm_refl. Qed.

Lemma built_edges_indices : same_indices (indexed_domain edge_history) built_edges.
Proof.
  destruct (built_same_indices edge_pairs) as (d & Hd & Hs).
  assert (d = built_edges) as Heq by (apply Ret_inj; rewrite <- Hd; exact built_edges_built).
  rewrite <- Heq. exact Hs.
Qed.

Lemma built_edges_indexed :
  attribute_indexed history_of built_edges (history_in history_of built_edges) none_mirrored "edge".
Proof.
  apply (attribute_indexed_ext history_of _ _ (pairs_of edge_history)); [|vm_refl].
  apply (attribute_indexed_same _ _ _ _ _ built_edges_indices).
  apply checked_attribute; [by eexists|vm_refl|done|done].
Qed.

Lemma path_wf b :
  b ∈ he_bindings path →
  binding_wf history_of built_edges (history_in history_of built_edges) none_mirrored b ∧
  binding_usable built_edges b.
Proof.
  intros Hb. split; [by apply (attributes_wf _ _ _ path built_edges_indexed eq_refl)|].
  assert (attribute_usable built_edges "edge") as He by (exists edge_pairs; vm_refl).
  repeat (apply elem_of_cons in Hb as [->|Hb]; [exact He|]).
  by apply not_elem_of_nil in Hb.
Qed.

Lemma path_ends_ok : plan_ok built_edges ∅ path_ends.
Proof.
  assert (NoDup [1; 2; 3]%N) as Hnd by (by apply (bool_decide_unpack _)).
  split; [split; [exact Hnd|]; split; [done|]|].
  - split; [exact path_wf|]. split; [exact Hnd|]. split; [vm_refl|]. split; [|vm_refl].
    by apply settled_positive.
  - split; [by apply (bool_decide_unpack _)|]. split; [|done]. cbn [bound he_variables path]. set_solver.
Qed.

Lemma plan_implements_reference_witness :
  built_domain "edge" edge_pairs = Ret built_edges ∧
  ∃ rel h l, Plan_implement delta_join_at_3 built_edges ∅ path_ends = Ret (rel, h) ∧
    rel_run rel built_edges = Ret l ∧
    wt (wmap (assign (Implemented_variables rel)) l) (assign [1; 3]%N [VEid 1; VEid 3]) = 1%Z.
Proof.
  split; [exact built_edges_built|].
  destruct (plan_implements_reference delta_join_at_3 built_edges
    (Hjoins := pipelines_join history_of 10 (Panic "unfinished") 0 built_edges none_mirrored)
    ∅ ∅ (λ name k l Hl, False_ind _ ltac:(by rewrite lookup_empty in Hl)) path_ends path_ends_ok)
    as (rel & h & l & Hi & _ & _ & Hl & Hw).
  exists rel, h, l. split; [exact Hi|]. split; [exact Hl|]. rewrite Hw. vm_compute. reflexivity.
Defined.
End delta_runs.
