(* ===== verification/AssocIn.v ===== *)
(** * Nested maps of results (src/src/sinks/assoc_in.rs)

    The sink that turns the tuples of a pull query, paths of alternating keys,
    into nested JSON maps: [merge_paths], and the operator around it. *)
From Stdlib Require Import ZArith NArith Lia Sorting.Sorted.
From stdpp Require Import base strings numbers gmap list pretty.
From S2P Require Import Prelude Timestamps Values Outputs.

Abbreviation JMap := (gmap string JValue) (only parsing).

(** The keys of a map, in the order of its iterator. *)
Definition map_keys {A} (m : gmap string A) : list string := sort_by cmp_le (elements (dom m)).

Section assoc_in.
Context `{EV : ExternValues}.

(** The closure [parse_key]. *)
Definition parse_key (v : Value) : outcome string :=
  match v with
  | VAid x => Ret x
  | VEid x => Ret (pretty x)
  | VString x => Ret x
  | _ => Panic "Malformed pull path. Expected a key."
  end.

(** [if change_key.len() < granularity { change_key.push(parse_key(key)) }]. *)
Definition push_key (granularity : nat) (change_key : list string) (key : Value)
    : outcome (list string) :=
  if Nat.ltb (length change_key) granularity then
    let! k := parse_key key in Ret (change_key ++ [k])
  else Ret change_key.

(** [for key in path.drain(1..)], and the insertion at the lowest level. *)
Fixpoint insert_below (granularity : nat) (entry : JValue) (keys : list Value)
    (leaf_key : string) (leaf_val : Value) (diff : Z) (change_key : list string)
    : outcome (JValue * list string) :=
  match keys with
  | [] =>
      match entry with
      | JObject map =>
          if (0 <? diff)%Z then
            let! leaf := JValue_from leaf_val in Ret (JObject (<[leaf_key := leaf]> map), change_key)
          else Ret (JObject (delete leaf_key map), change_key)
      | _ => Ret (entry, change_key)
      end
  | key :: keys =>
      let! change_key := push_key granularity change_key key in
      match entry with
      | JObject map =>
          let! k := parse_key key in
          let! '(below, change_key) := insert_below granularity (default (JObject ∅) (map !! k)) keys
            leaf_key leaf_val diff change_key in
          Ret (JObject (<[k := below]> map), change_key)
      | _ => insert_below granularity entry keys leaf_key leaf_val diff change_key
      end
  end.

(** The body of [for (mut path, _t, diff) in paths]. *)
Definition merge_path (granularity : nat) (acc : JMap) (path : list Value) (diff : Z)
    : outcome (JMap * list string) :=
  let! leaf_val := expect "leaf value missing" (last path) in
  let path := removelast path in
  let! leaf := expect "leaf keay missing" (last path) in
  let! leaf_key := parse_key leaf in
  match removelast path with
  | [] =>
      let change_key := if Nat.ltb 0 granularity then [leaf_key] else [] in
      let! leaf := JValue_from leaf_val in
      Ret (<[leaf_key := leaf]> acc, change_key)
  | first :: keys =>
      let! first_key := parse_key first in
      let change_key := if Nat.ltb 0 granularity then [first_key] else [] in
      let! '(entry, change_key) := insert_below granularity (default (JObject ∅) (acc !! first_key)) keys
        leaf_key leaf_val diff change_key in
      Ret (<[first_key := entry]> acc, change_key)
  end.

Section times.
Context {T : Type} `{EqDecision T, TotalOrd T}.

(** A path with its time and difference. *)
Abbreviation PathDiff := (list Value * T * Z)%type (only parsing).

(** [paths.sort_by_key(diff)], then [paths.sort_by_key(t)]. *)
Definition sort_paths (paths : list PathDiff) : list PathDiff :=
  sort_by (λ p q, cmp_le p.1.2 q.1.2) (sort_by (λ p q, Z.leb p.2 q.2) paths).

Fixpoint merge_sorted (granularity : nat) (acc : JMap) (paths : list PathDiff)
    (changes : list (list string)) : outcome (JMap * list (list string)) :=
  match paths with
  | [] => Ret (acc, changes)
  | (path, _, diff) :: paths =>
      let! '(acc, change_key) := merge_path granularity acc path diff in
      merge_sorted granularity acc paths (changes ++ [change_key])
  end.

Definition merge_paths (acc : JMap) (paths : list PathDiff) (granularity : nat)
    : outcome (JMap * list (list string)) :=
  let! '(acc, changes) := merge_sorted granularity acc (sort_paths paths) [] in
  Ret (acc, dedup (sort_by cmp_le changes)).

(** ** The operator *)
Context (into_time : T → Time) (name : string) (stateful : option nat).

(** The paths received at each time, and the maps kept between times. *)
Record AssocInState := mkAssocIn { waiting : list (T * list PathDiff); states : option JMap }.

Definition AssocIn_new : AssocInState :=
  mkAssocIn [] (match stateful with Some _ => Some ∅ | None => None end).

(** [paths.entry(cap.time()).or_insert_with(Vec::new).extend(..)]. *)
Fixpoint stash_paths (entries : list (T * list PathDiff)) (t : T) (data : list PathDiff)
    : list (T * list PathDiff) :=
  match entries with
  | [] => [(t, data)]
  | entry :: entries =>
      if decide (entry.1 = t) then (t, entry.2 ++ data) :: entries
      else entry :: stash_paths entries t data
  end.

(** [&map[key]], in the maps of the levels. *)
Definition index_map (m : JMap) (key : string) : outcome JValue :=
  expect "no entry found for key" (m !! key).

Fixpoint snapshot_below (value : JValue) (keys : list string) : outcome JValue :=
  match keys with
  | [] => Ret value
  | key :: keys =>
      let! value := match value with JObject map => index_map map key | _ => Ret value end in
      snapshot_below value keys
  end.
Definition snapshot (m : JMap) (change_key : list string) : outcome JValue :=
  match change_key with
  | [] => Panic "index out of bounds"
  | key :: keys => let! value := index_map m key in snapshot_below value keys
  end.

(** One notification. *)
Definition complete (self : AssocInState) (t : T) : outcome (list Output * AssocInState) :=
  match list_find (λ entry, entry.1 = t) (waiting self) with
  | None => Ret ([], self)
  | Some (_, (_, paths_at_time)) =>
      let rest := filter (λ entry, entry.1 ≠ t) (waiting self) in
      let granularity := default 1 stateful in
      match states self with
      | None =>
          let! '(map, _) := merge_paths ∅ paths_at_time granularity in
          let! out := mapM_outcome (λ key, let! value := index_map map key in
            Ret (Json name value (into_time t) 1)) (map_keys map) in
          Ret (out, mkAssocIn rest None)
      | Some map =>
          let! '(map, changes) := merge_paths map paths_at_time granularity in
          let! out := mapM_outcome (λ change_key, let! value := snapshot map change_key in
            Ret (Json name value (into_time t) 1)) changes in
          Ret (out, mkAssocIn rest (Some map))
      end
  end.

(** What an activation finds: messages with the times of their capabilities, and
    the times whose notifications are due, in order. *)
Record Step := mkStep { arrived : list (T * list PathDiff); due : list T }.

Fixpoint complete_all (self : AssocInState) (ts : list T) : outcome (list Output * AssocInState) :=
  match ts with
  | [] => Ret ([], self)
  | t :: ts =>
      let! '(out, self) := complete self t in
      let! '(out', self) := complete_all self ts in
      Ret (out ++ out', self)
  end.

Definition sink_step (self : AssocInState) (s : Step) : outcome (list Output * AssocInState) :=
  let waiting := foldl (λ w message, stash_paths w message.1 message.2) (waiting self) (arrived s) in
  complete_all (mkAssocIn waiting (states self)) (due s).
End times.
End assoc_in.
Arguments AssocInState {_} T.
Arguments Step {_} T.
