(* ===== verification/AssocInTheorems.v ===== *)
(** * What nested maps hold

    Seen from its leaves, a nested map is a finite map from lists of keys to
    leaves.  Merging a path alters that map at one list of keys, provided the
    lists of keys in use are prefix-free; merging several leaves, at each, what
    the last update says. *)
From Stdlib Require Import ZArith NArith Lia Sorting.Sorted.
From stdpp Require Import base strings numbers gmap sets list pretty.
From S2P Require Import Prelude Timestamps Values Outputs AssocIn.

Abbreviation JMap := (gmap string JValue) (only parsing).
Abbreviation Keys := (list string) (only parsing).

(** ** Leaves *)

Fixpoint lookup_path (m : JMap) (ks : Keys) : option JValue :=
  match ks with
  | [] => None
  | [k] => m !! k
  | k :: ks => match m !! k with Some (JObject m') => lookup_path m' ks | _ => None end
  end.

Definition submap (m : JMap) (k : string) : JMap :=
  match m !! k with Some (JObject m') => m' | _ => ∅ end.

(** Altering a leaf, creating the levels above it. *)
Fixpoint put (m : JMap) (ks : Keys) (leaf : option JValue) : JMap :=
  match ks with
  | [] => m
  | [k] => match leaf with Some j => <[k := j]> m | None => delete k m end
  | k :: ks => <[k := JObject (put (submap m k) ks leaf)]> m
  end.

Lemma lookup_path_cons m k ks :
  ks ≠ [] → lookup_path m (k :: ks) = lookup_path (submap m k) ks.
Proof.
  destruct ks as [|k' ks]; [done|]. intros _. unfold submap. simpl.
  destruct (m !! k) as [[| | | | |m']|]; try done; by destruct ks.
Qed.

Lemma put_cons m k ks leaf :
  ks ≠ [] → put m (k :: ks) leaf = <[k := JObject (put (submap m k) ks leaf)]> m.
Proof. by destruct ks. Qed.

Lemma submap_insert m k m' : submap (<[k := JObject m']> m) k = m'.
Proof. unfold submap. by rewrite lookup_insert_eq. Qed.
Lemma submap_insert_ne m k k' j : k ≠ k' → submap (<[k := j]> m) k' = submap m k'.
Proof. intros. unfold submap. by rewrite lookup_insert_ne. Qed.
Lemma submap_delete_ne m k k' : k ≠ k' → submap (delete k m) k' = submap m k'.
Proof. intros. unfold submap. by rewrite lookup_delete_ne. Qed.

Lemma lookup_put_same m ks leaf : ks ≠ [] → lookup_path (put m ks leaf) ks = leaf.
Proof.
  revert m. induction ks as [|k ks IH]; intros m; [done|]. intros _.
  destruct (decide (ks = [])) as [->|Hks].
  - simpl. destruct leaf; [apply lookup_insert_eq|apply lookup_delete_eq].
  - rewrite put_cons, lookup_path_cons, submap_insert by done. by apply IH.
Qed.

Lemma lookup_put_other m ks ks' leaf :
  ¬ ks `prefix_of` ks' → ¬ ks' `prefix_of` ks → lookup_path (put m ks leaf) ks' = lookup_path m ks'.
Proof.
  revert m ks'. induction ks as [|k ks IH]; intros m ks' H1 H2.
  { destruct H1. apply prefix_nil. }
  destruct ks' as [|k' ks']; [destruct H2; apply prefix_nil|].
  destruct (decide (k = k')) as [->|Hk].
  - assert (¬ ks `prefix_of` ks' ∧ ¬ ks' `prefix_of` ks) as [H1' H2'].
    { split; intros H; [apply H1|apply H2]; by apply prefix_cons. }
    assert (ks ≠ [] ∧ ks' ≠ []) as [Hks Hks'].
    { split; intros ->; [apply H1'|apply H2']; apply prefix_nil. }
    rewrite put_cons, !lookup_path_cons, submap_insert by done. by apply IH.
  - assert (put m (k :: ks) leaf !! k' = m !! k' ∧ submap (put m (k :: ks) leaf) k' = submap m k')
      as [Hl Hs].
    { destruct (decide (ks = [])) as [->|Hks].
      - simpl. destruct leaf; rewrite ?lookup_insert_ne, ?lookup_delete_ne by done;
          rewrite ?submap_insert_ne, ?submap_delete_ne by done; done.
      - rewrite put_cons, lookup_insert_ne, submap_insert_ne by done. done. }
    destruct (decide (ks' = [])) as [->|Hks']; [exact Hl|].
    by rewrite !lookup_path_cons, Hs.
Qed.

(** The levels above a leaf. *)
Lemma lookup_put_above m ks p leaf :
  p ≠ [] → p `prefix_of` ks → p ≠ ks → ∃ m', lookup_path (put m ks leaf) p = Some (JObject m').
Proof.
  revert m p. induction ks as [|k ks IH]; intros m p Hp Hpre Hne.
  { by apply prefix_nil_inv in Hpre. }
  destruct p as [|k' p]; [done|]. pose proof (prefix_cons_inv_1 _ _ _ _ Hpre) as ->.
  apply prefix_cons_inv_2 in Hpre. assert (ks ≠ []) as Hks.
  { intros ->. apply Hne. f_equal. by apply prefix_nil_inv. }
  rewrite put_cons by done. destruct (decide (p = [])) as [->|Hp'].
  - simpl. rewrite lookup_insert_eq. by eexists.
  - rewrite lookup_path_cons, submap_insert by done. apply IH; [done..|congruence].
Qed.

(** ** Merging one path *)

Definition opened (j : option JValue) : Prop :=
  match j with None | Some (JObject _) => True | _ => False end.

(** No leaf is in the way of the keys. *)
Definition above_open (m : JMap) (ks : Keys) : Prop :=
  ∀ p, p ≠ [] → p `prefix_of` ks → p ≠ ks → opened (lookup_path m p).

Lemma above_open_cons m k ks :
  ks ≠ [] → above_open m (k :: ks) →
  default (JObject ∅) (m !! k) = JObject (submap m k) ∧ above_open (submap m k) ks.
Proof.
  intros Hks Ha. split.
  - specialize (Ha [k]). unfold submap. simpl in Ha.
    assert (opened (m !! k)) as Ho.
    { apply Ha; [done|apply prefix_cons, prefix_nil|congruence]. }
    by destruct (m !! k) as [[]|].
  - intros p Hp Hpre Hne. rewrite <- lookup_path_cons by done.
    apply Ha; [done|by apply prefix_cons|congruence].
Qed.

Section paths.
Context `{EV : ExternValues}.

Definition parses (v : Value) (k : string) : Prop := parse_key v = Ret k.

Lemma insert_below_put granularity m keys ks leaf_key leaf_val j diff change_key :
  Forall2 parses keys ks → JValue_from leaf_val = Ret j → above_open m (ks ++ [leaf_key]) →
  insert_below granularity (JObject m) keys leaf_key leaf_val diff change_key =
    Ret (JObject (put m (ks ++ [leaf_key]) (if (0 <? diff)%Z then Some j else None)),
         change_key ++ take (granularity - length change_key) ks).
Proof.
  intros Hks Hj. revert m change_key.
  induction Hks as [|key k keys ks Hk _ IH]; intros m ck Hm; cbn [insert_below].
  { rewrite take_nil, app_nil_r, Hj. by destruct (0 <? diff)%Z. }
  rewrite <- app_comm_cons in *. apply above_open_cons in Hm as [Hd Hm]; [|by destruct ks].
  unfold parses in Hk. unfold push_key. rewrite Hk.
  destruct (Nat.ltb_spec (length ck) granularity) as [Hlt|Hge]; cbn [obind].
  - rewrite Hd, IH by done. cbn [obind]. rewrite put_cons by (by destruct ks). rewrite length_app, <- app_assoc. simpl.
    replace (granularity - length ck) with (S (granularity - (length ck + 1))) by lia. done.
  - rewrite Hd, IH by done. cbn [obind]. rewrite put_cons by (by destruct ks).
    by replace (granularity - length ck) with 0 by lia.
Qed.

(** The keys of a path and its leaf. *)
Definition path_keys (path : list Value) : Keys :=
  (λ v, match parse_key v with Ret k => k | Panic _ => "" end) <$> removelast path.
Definition path_leaf (path : list Value) : JValue :=
  match last path with
  | Some v => match JValue_from v with Ret j => j | Panic _ => JNull end
  | None => JNull
  end.

(** A path that does not panic: a key at least, and a value JSON has. *)
Definition path_ok (path : list Value) : bool :=
  Nat.leb 2 (length path) &&
  forallb (λ v, negb (is_panic (parse_key v))) (removelast path) &&
  match last path with Some v => negb (is_panic (JValue_from v)) | None => false end.

(** What an update leaves at its keys: at the top level, retractions insert. *)
Definition effect (ks : Keys) (leaf : JValue) (diff : Z) : option JValue :=
  if (0 <? diff)%Z || Nat.eqb (length ks) 1 then Some leaf else None.

(** The levels reported as changed. *)
Definition change_key (granularity : nat) (ks : Keys) : Keys :=
  take granularity (if Nat.eqb (length ks) 1 then ks else removelast ks).

Lemma path_ok_split path :
  path_ok path = true → ∃ keys leaf_key_v leaf_val ks leaf_key,
    path = keys ++ [leaf_key_v; leaf_val] ∧ Forall2 parses keys ks ∧ parses leaf_key_v leaf_key ∧
    path_keys path = ks ++ [leaf_key] ∧ JValue_from leaf_val = Ret (path_leaf path).
Proof.
  intros [[Hlen Hkeys]%andb_true_iff Hleaf]%andb_true_iff. apply Nat.leb_le in Hlen.
  destruct path as [|leaf_val path _] using rev_ind; [simpl in Hlen; lia|].
  destruct path as [|leaf_key_v keys _] using rev_ind; [simpl in Hlen; lia|].
  rewrite last_snoc in Hleaf. rewrite removelast_last in Hkeys. unfold path_keys, path_leaf.
  rewrite last_snoc, removelast_last, fmap_app. simpl.
  rewrite forallb_app in Hkeys. apply andb_true_iff in Hkeys as [Hks Hk]. simpl in Hk.
  rewrite andb_true_r in Hk. unfold parses in *.
  destruct (parse_key leaf_key_v) as [k|] eqn:Hk'; [|done].
  destruct (JValue_from leaf_val) as [j|] eqn:Hj; [|done].
  exists keys, leaf_key_v, leaf_val, ((λ v, match parse_key v with Ret k => k | Panic _ => "" end) <$> keys), k.
  split; [by rewrite <- app_assoc|]. split; [|done].
  clear -Hks. induction keys as [|v keys IH]; simpl in *; [constructor|].
  apply andb_true_iff in Hks as [Hv Hks]. constructor; [|by apply IH]. unfold parses. by destruct (parse_key v).
Qed.

Lemma merge_path_put granularity m path diff :
  path_ok path = true → above_open m (path_keys path) →
  merge_path granularity m path diff =
    Ret (put m (path_keys path) (effect (path_keys path) (path_leaf path) diff),
         change_key granularity (path_keys path)).
Proof.
  intros Hok Hm. destruct (path_ok_split path Hok) as (keys & kv & lv & ks & k & -> & Hks & Hk & Heq & Hj).
  rewrite Heq in *. unfold merge_path. set (j := path_leaf _) in *.
  change [kv; lv] with ([kv] ++ [lv]). rewrite app_assoc, last_snoc. simpl.
  rewrite removelast_last, last_snoc. simpl. rewrite Hk. simpl. rewrite removelast_last.
  unfold effect, change_key. rewrite length_app, Nat.add_1_r.
  destruct Hks as [|first first_key keys ks Hfirst Hks].
  - rewrite Hj. simpl. rewrite orb_true_r. destruct granularity; [done|]. simpl. by rewrite take_nil.
  - rewrite Hfirst. cbn [obind length Nat.eqb]. rewrite orb_false_r, removelast_last.
    rewrite <- app_comm_cons in *. apply above_open_cons in Hm as [Hd Hm]; [|by destruct ks].
    rewrite Hd, (insert_below_put _ _ _ ks _ _ j) by done. cbn [obind].
    rewrite put_cons by (by destruct ks). f_equal. f_equal. destruct granularity as [|g]; [done|].
    simpl. by rewrite Nat.sub_0_r.
Qed.
End paths.

(** ** Merging many *)

(** The lists of keys in use: none leads through another. *)
Definition prefix_free (schema : Keys → Prop) : Prop :=
  ∀ ks ks', schema ks → schema ks' → ks `prefix_of` ks' → ks = ks'.
Definition shaped (schema : Keys → Prop) (m : JMap) : Prop := ∀ ks, schema ks → above_open m ks.

Lemma shaped_empty schema : shaped schema ∅.
Proof. intros ks _ [|k [|k' p]] Hp _ _; [done|..]; simpl; by rewrite lookup_empty. Qed.

Lemma put_shaped schema m ks leaf :
  prefix_free schema → schema ks → shaped schema m → shaped schema (put m ks leaf).
Proof.
  intros Hfree Hks Hm ks' Hks' p Hp Hpre Hne.
  destruct (decide (ks `prefix_of` p)) as [Hkp|Hkp].
  { destruct Hne. assert (ks = ks') as -> by (apply Hfree; [done..|by etrans]). by apply (anti_symm prefix). }
  destruct (decide (p `prefix_of` ks)) as [Hpk|Hpk].
  - destruct (lookup_put_above m ks p leaf) as [m' ->]; [done..| |done]. by intros ->.
  - rewrite lookup_put_other by done. by apply (Hm ks').
Qed.

Lemma lookup_put_schema schema m ks ks' leaf :
  prefix_free schema → schema ks → schema ks' → ks ≠ [] →
  lookup_path (put m ks leaf) ks' = if decide (ks = ks') then leaf else lookup_path m ks'.
Proof.
  intros Hfree Hks Hks' Hne. case_decide as Heq; [subst; by apply lookup_put_same|].
  apply lookup_put_other; intros Hpre; apply Heq; [|symmetry]; by apply Hfree.
Qed.

Section merging.
Context `{EV : ExternValues} {T : Type} `{EqDecision T, TotalOrd T}.
Implicit Types (paths : list (list Value * T * Z)) (p : list Value * T * Z) (m : JMap).
Context (schema : Keys → Prop) (Hfree : prefix_free schema).

(** The paths do not panic, and their keys are in use. *)
Definition in_schema p : Prop := path_ok p.1.1 = true ∧ schema (path_keys p.1.1).

(** The leaf that a sequence of updates leaves at some keys. *)
Definition latest (ks : Keys) paths (before : option JValue) : option JValue :=
  match last (filter (λ p, path_keys p.1.1 = ks) paths) with
  | Some p => effect ks (path_leaf p.1.1) p.2
  | None => before
  end.

Lemma latest_cons ks p paths before :
  latest ks (p :: paths) before =
  latest ks paths (if decide (path_keys p.1.1 = ks) then effect ks (path_leaf p.1.1) p.2 else before).
Proof.
  unfold latest. rewrite filter_cons. case_decide; [|done].
  rewrite last_cons. by destruct (last _).
Qed.

Lemma path_keys_nonempty path : path_ok path = true → path_keys path ≠ [].
Proof.
  intros Hok. destruct (path_ok_split path Hok) as (? & ? & ? & ks & k & _ & _ & _ & -> & _).
  by destruct ks.
Qed.

Lemma merge_sorted_spec granularity m paths changes :
  shaped schema m → (∀ p, p ∈ paths → in_schema p) →
  ∃ m', merge_sorted granularity m paths changes =
      Ret (m', changes ++ ((λ p, change_key granularity (path_keys p.1.1)) <$> paths)) ∧
    shaped schema m' ∧ ∀ ks, schema ks → lookup_path m' ks = latest ks paths (lookup_path m ks).
Proof.
  revert m changes. induction paths as [|[[path t] diff] paths IH]; intros m changes Hm Hall; simpl.
  { exists m. by rewrite app_nil_r. }
  destruct (Hall (path, t, diff)) as [Hok Hks]; [set_solver|]. simpl in Hok, Hks.
  rewrite merge_path_put by (done || by apply Hm). simpl.
  destruct (IH (put m (path_keys path) (effect (path_keys path) (path_leaf path) diff))
    (changes ++ [change_key granularity (path_keys path)])) as (m' & -> & Hm' & Hl);
    [by apply put_shaped|set_solver|].
  exists m'. rewrite <- app_assoc. split; [done|]. split; [done|]. intros ks Hks'.
  rewrite Hl, latest_cons, (lookup_put_schema schema) by (done || by apply path_keys_nonempty).
  simpl. by case_decide as Heq; [rewrite Heq|].
Qed.

(** The levels above the leaves that were merged are there. *)
Definition level (m : JMap) (ks : Keys) : Prop :=
  ∀ q, q ≠ [] → q `prefix_of` ks → q ≠ ks → ∃ m', lookup_path m q = Some (JObject m').

Lemma put_level m ks ks' leaf :
  schema ks → schema ks' → level m ks → level (put m ks' leaf) ks.
Proof.
  intros Hks Hks' Hm q Hq Hpre Hne. destruct (decide (ks' `prefix_of` q)) as [Hkq|Hkq].
  { destruct Hne. assert (ks' = ks) as -> by (apply Hfree; [done..|by etrans]). by apply (anti_symm prefix). }
  destruct (decide (q `prefix_of` ks')) as [Hqk|Hqk].
  - apply lookup_put_above; [done..|]. by intros ->.
  - rewrite lookup_put_other by done. by apply Hm.
Qed.

Lemma merge_sorted_level granularity m paths changes m' changes' ks :
  shaped schema m → (∀ p, p ∈ paths → in_schema p) → schema ks →
  level m ks ∨ ks ∈ (λ p, path_keys p.1.1) <$> paths →
  merge_sorted granularity m paths changes = Ret (m', changes') → level m' ks.
Proof.
  revert m changes. induction paths as [|[[path t] diff] paths IH]; intros m changes Hm Hall Hks Hl; simpl.
  { intros [= <- <-]. destruct Hl as [Hl|Hl]; [done|by apply elem_of_nil in Hl]. }
  destruct (Hall (path, t, diff)) as [Hok Hks']; [set_solver|]. simpl in Hok, Hks'.
  rewrite merge_path_put by (done || by apply Hm). simpl.
  apply IH; [by apply put_shaped|set_solver|done|].
  destruct Hl as [Hl|Hl]; [left; by apply put_level|].
  simpl in Hl. apply elem_of_cons in Hl as [->|Hl]; [|by right].
  left. intros q Hq Hpre Hne. by apply lookup_put_above.
Qed.

Lemma sort_paths_perm paths : sort_paths paths ≡ₚ paths.
Proof. unfold sort_paths. by rewrite !sort_by_perm. Qed.

Lemma changes_spec (changes : list Keys) :
  NoDup (dedup (sort_by cmp_le changes)) ∧ ∀ ck, ck ∈ dedup (sort_by cmp_le changes) ↔ ck ∈ changes.
Proof.
  split.
  - apply NoDup_dedup_sorted, sort_by_sorted; [apply cmp_le_total|apply cmp_le_trans].
  - intros ck. by rewrite elem_of_dedup, sort_by_perm.
Qed.

(** (merging paths into a nested map).  Let the lists of keys in use be
    prefix-free, and no leaf of the map be in the way of one of them.  Merging
    paths with such keys does not panic; afterwards the leaf at each of them is
    what the last update for it leaves, by time, retractions first, and the one
    before if there was none; and the levels reported as changed are those of the
    paths, cut at the granularity, each once. *)
Theorem merge_paths_spec granularity m paths :
  shaped schema m → (∀ p, p ∈ paths → in_schema p) →
  ∃ m' changes, merge_paths m paths granularity = Ret (m', changes) ∧ shaped schema m' ∧
    (∀ ks, schema ks → lookup_path m' ks = latest ks (sort_paths paths) (lookup_path m ks)) ∧
    NoDup changes ∧
    ∀ ck, ck ∈ changes ↔ ∃ p, p ∈ paths ∧ ck = change_key granularity (path_keys p.1.1).
Proof.
  intros Hm Hall. destruct (merge_sorted_spec granularity m (sort_paths paths) []) as (m' & Hrun & Hm' & Hl);
    [done|intros p; rewrite sort_paths_perm; apply Hall|].
  destruct (changes_spec ([] ++ ((λ p, change_key granularity (path_keys p.1.1)) <$> sort_paths paths)))
    as [Hnd Hch].
  eexists m', _. unfold merge_paths. rewrite Hrun. split; [done|]. split; [done|]. split; [done|].
  split; [done|]. intros ck. rewrite Hch, app_nil_l, list_elem_of_fmap. setoid_rewrite sort_paths_perm. naive_solver.
Qed.
End merging.
