(* ===== verification/SinkTheorems.v ===== *)
(** * The sink of nested maps tracks the result

    Whatever the activations of the operator look like, it merges the paths of
    each time once, when the time is complete; and as long as the result is a
    function from lists of keys to leaves, the maps hold exactly the result. *)
From Stdlib Require Import ZArith NArith Lia Sorting.Sorted.
From stdpp Require Import base strings numbers gmap sets list pretty.
From S2P Require Import Prelude Timestamps Values Weighted Streams LookupTheorems Dataflow.
From S2P Require Import Outputs AssocIn AssocInTheorems.

(** ** Retractions come first *)

Section sink.
Context `{EV : ExternValues} {T : Type} `{EqDecision T, TotalOrd T}.
Abbreviation PathDiff := (list Value * T * Z)%type (only parsing).
Implicit Types (paths : list PathDiff) (m : JMap) (W : wlist (list Value)).

Lemma sort_paths_at t paths :
  (∀ p, p ∈ paths → p.1.2 = t) → StronglySorted (λ p q, (p.2 ≤ q.2)%Z) (sort_paths paths).
Proof.
  intros Ht. unfold sort_paths. rewrite sort_by_id.
  - assert (∀ x y : PathDiff, Z.leb x.2 y.2 = true → (x.2 ≤ y.2)%Z) as Hle by (intros; lia).
    pose proof (sort_by_sorted (λ p q : PathDiff, Z.leb p.2 q.2)) as Hs.
    specialize (Hs ltac:(intros; rewrite !Z.leb_le; lia) ltac:(intros x y z; rewrite !Z.leb_le; lia) paths).
    induction Hs as [|x l Hl IH Hx]; constructor; [done|]. eapply Forall_impl; [exact Hx|]. intros; by apply Hle.
  - intros p q. rewrite !sort_by_perm. intros Hp Hq. rewrite (Ht p), (Ht q) by done. apply cmp_le_refl.
Qed.

(** ** The result as a function *)
Context (schema : Keys → Prop) (Hfree : prefix_free schema).

(** A result of a pull query: paths that do not panic, one for each list of keys,
    none of them at the top level. *)
Record result W : Prop := {
  result_set path : wt W path = 0%Z ∨ wt W path = 1%Z;
  result_ok path : wt W path = 1%Z →
    path_ok path = true ∧ schema (path_keys path) ∧ 2 ≤ length (path_keys path);
  result_functional path path' :
    wt W path = 1%Z → wt W path' = 1%Z → path_keys path = path_keys path' → path = path'
}.

(** The maps hold the leaves of a result, and no others. *)
Definition shows m W : Prop :=
  shaped schema m ∧ ∀ ks j, schema ks →
    (lookup_path m ks = Some j ↔ ∃ path, wt W path = 1%Z ∧ path_keys path = ks ∧ path_leaf path = j).

Definition diffs paths : wlist (list Value) := (λ p, (p.1.1, p.2)) <$> paths.

(** Consolidated changes of one time. *)
Record consolidated (t : T) paths : Prop := {
  con_time p : p ∈ paths → p.1.2 = t;
  con_once : NoDup ((λ p, p.1.1) <$> paths);
  con_diff p : p ∈ paths → p.2 ≠ 0%Z ∧ in_i64 p.2
}.

Lemma wt_diffs t paths p : consolidated t paths → p ∈ paths → wt (diffs paths) p.1.1 = p.2.
Proof.
  intros [_ Hnd Hd] Hp. destruct (Hd p Hp) as [_ Hr]. rewrite <- (wrap_i64_id p.2) by done.
  unfold wt. f_equal. clear Hd Hr. revert Hnd Hp.
  induction paths as [|q paths IH]; [by intros _ ?%not_elem_of_nil|].
  rewrite fmap_cons. intros [Hq Hnd]%NoDup_cons Hp. unfold diffs in *. rewrite fmap_cons, wsum_cons. simpl.
  unfold indicator at 1. apply elem_of_cons in Hp as [->|Hp].
  - rewrite decide_True by done. rewrite wsum_not_elem; [lia|].
    intros Hin. apply Hq. apply list_elem_of_fmap in Hin as (? & -> & (r & -> & Hr)%list_elem_of_fmap).
    simpl. by apply (list_elem_of_fmap_2 (λ p : PathDiff, p.1.1)).
  - rewrite decide_False, IH by (done || intros Heq; apply Hq; rewrite Heq;
      by apply (list_elem_of_fmap_2 (λ p : PathDiff, p.1.1))). lia.
Qed.

Lemma change_cases t paths W p :
  consolidated t paths → result W → result (W ++ diffs paths) → p ∈ paths →
  (p.2 = 1%Z ∧ wt (W ++ diffs paths) p.1.1 = 1%Z) ∨
  (p.2 = (-1)%Z ∧ wt W p.1.1 = 1%Z ∧ wt (W ++ diffs paths) p.1.1 = 0%Z).
Proof.
  intros Hc HW HW' Hp. pose proof (wt_diffs t paths p Hc Hp) as Hd.
  destruct (con_diff _ _ Hc p Hp) as [Hne Hr].
  pose proof (result_set _ HW p.1.1) as H1. pose proof (result_set _ HW' p.1.1) as H2.
  rewrite wt_app, Hd in H2 |- *. destruct (decide (p.2 = 2 ^ 63 - 1)%Z) as [He|He].
  { exfalso. rewrite He in H2. destruct H1 as [H1|H1]; rewrite H1 in H2; by destruct H2 as [H2|H2]; vm_compute in H2. }
  rewrite wrap_i64_id in H2 |- * by (unfold in_i64 in *; lia). lia.
Qed.

(** A change of the result at some keys. *)
Lemma wt_unchanged t paths W path :
  consolidated t paths → path ∉ ((λ p, p.1.1) <$> paths) → wt (W ++ diffs paths) path = wt W path.
Proof.
  intros Hc Hp. rewrite wt_app, (wt_not_elem (diffs paths)), Z.add_0_r; [apply wrap_i64_id, wt_range|].
  intros Hin. apply Hp. apply list_elem_of_fmap in Hin as (? & -> & (r & -> & Hr)%list_elem_of_fmap).
  by apply (list_elem_of_fmap_2 (λ p : PathDiff, p.1.1)).
Qed.

Lemma changes_in_schema t paths W p :
  consolidated t paths → result W → result (W ++ diffs paths) → p ∈ paths →
  in_schema schema p ∧ 2 ≤ length (path_keys p.1.1).
Proof.
  intros Hc HW HW' Hp. destruct (change_cases t paths W p Hc HW HW' Hp) as [[_ Hw]|(_ & Hw & _)].
  - by destruct (result_ok _ HW' _ Hw) as (? & ? & ?).
  - by destruct (result_ok _ HW _ Hw) as (? & ? & ?).
Qed.

(** The leaf that the changes of one time leave is the one of the new result. *)
Lemma latest_result t paths W m ks j :
  consolidated t paths → result W → result (W ++ diffs paths) → shows m W → schema ks →
  latest ks (sort_paths paths) (lookup_path m ks) = Some j ↔
  ∃ path, wt (W ++ diffs paths) path = 1%Z ∧ path_keys path = ks ∧ path_leaf path = j.
Proof.
  intros Hc HW HW' [_ Hm] Hks. unfold latest.
  set (F := filter (λ p : PathDiff, path_keys p.1.1 = ks) (sort_paths paths)).
  assert (∀ p, p ∈ F ↔ path_keys p.1.1 = ks ∧ p ∈ paths) as HF
    by (intros p; unfold F; by rewrite list_elem_of_filter, sort_paths_perm).
  destruct (last F) as [p|] eqn:Hlast.
  - assert (p ∈ F) as [Hpk Hp]%HF by (apply last_Some_elem_of in Hlast; done).
    destruct (change_cases t paths W p Hc HW HW' Hp) as [[-> Hw]|(Hd & Hw & Hw')].
    + unfold effect. simpl. split.
      * intros [= <-]. by exists p.1.1.
      * intros (path & Hpath & Hk & <-). do 2 f_equal. apply (result_functional _ HW'); congruence.
    + destruct (changes_in_schema t paths W p Hc HW HW' Hp) as [_ Hlen].
      unfold effect. rewrite Hd, <- Hpk. destruct (Nat.eqb_spec (length (path_keys p.1.1)) 1); [lia|]. simpl.
      split; [done|]. intros (path & Hpath & Hk & _). exfalso.
      destruct (decide (path ∈ (λ p : PathDiff, p.1.1) <$> paths)) as [Hin|Hin].
      * apply list_elem_of_fmap in Hin as (q & -> & Hq).
        assert (q.2 ≤ p.2)%Z.
        { apply (StronglySorted_last (λ p q : PathDiff, (p.2 ≤ q.2)%Z) F); [done| |done|].
          - apply StronglySorted_filter, (sort_paths_at t), Hc.
          - apply HF. split; [congruence|done]. }
        destruct (change_cases t paths W q Hc HW HW' Hq) as [[? _]|(_ & _ & ?)]; lia.
      * rewrite (wt_unchanged t) in Hpath by done.
        apply Hin. rewrite (result_functional _ HW path p.1.1); [|done|done|congruence].
        by apply (list_elem_of_fmap_2 (λ p : PathDiff, p.1.1)).
  - rewrite (Hm ks j Hks). apply last_None in Hlast.
    assert (∀ path, path_keys path = ks → wt (W ++ diffs paths) path = wt W path) as Hsame.
    { intros path Hk. apply (wt_unchanged t); [done|]. intros (q & -> & Hq)%list_elem_of_fmap.
      assert (q ∈ F) as Hq' by by apply HF. rewrite Hlast in Hq'. by apply elem_of_nil in Hq'. }
    split; intros (path & ? & ? & ?); exists path; [rewrite Hsame by done|rewrite <- Hsame by done]; done.
Qed.

(** Merging the changes of one time into a map of the result. *)
Lemma merge_shows granularity t paths W m :
  consolidated t paths → result W → result (W ++ diffs paths) → shows m W →
  ∃ m' changes, merge_paths m paths granularity = Ret (m', changes) ∧ shows m' (W ++ diffs paths) ∧
    NoDup changes ∧
    (∀ ck, ck ∈ changes ↔ ∃ p, p ∈ paths ∧ ck = take granularity (removelast (path_keys p.1.1))) ∧
    ∀ p, p ∈ paths → level m' (path_keys p.1.1).
Proof.
  intros Hc HW HW' Hm. pose proof (changes_in_schema t paths W) as Hin.
  destruct (merge_sorted_spec schema Hfree granularity m (sort_paths paths) [])
    as (m' & Hrun & Hm' & Hl); [apply Hm|intros p; rewrite sort_paths_perm; intros; by eapply Hin|].
  rewrite app_nil_l in Hrun.
  destruct (changes_spec ((λ p, change_key granularity (path_keys p.1.1)) <$> sort_paths paths))
    as [Hnd Hch].
  eexists m', _. unfold merge_paths. rewrite Hrun. split; [done|]. split; [split; [done|]|].
  { intros ks j Hks. rewrite Hl by done. by apply (latest_result t). }
  split; [done|]. split.
  - intros ck. rewrite Hch, list_elem_of_fmap. setoid_rewrite sort_paths_perm.
    split; intros (p & ? & ?); exists p; destruct (Hin p) as [_ Hlen]; try done;
      unfold change_key in *; destruct (Nat.eqb_spec (length (path_keys p.1.1)) 1); (lia || done).
  - intros p Hp. eapply (merge_sorted_level schema Hfree); [apply Hm| |by eapply Hin| |exact Hrun].
    + intros q. rewrite sort_paths_perm. intros; by eapply Hin.
    + right. apply (list_elem_of_fmap_2 (λ p : PathDiff, path_keys p.1.1)). by rewrite sort_paths_perm.
Qed.
End sink.

(** ** Snapshots *)

Lemma snapshot_below_lookup m ks j :
  lookup_path m ks = Some j → snapshot_below (JObject m) ks = Ret j.
Proof.
  revert m. induction ks as [|k ks IH]; intros m; [done|]. intros Hl. simpl.
  destruct (decide (ks = [])) as [->|Hks]; [simpl in Hl; unfold index_map; by rewrite Hl|].
  unfold index_map. destruct ks as [|k' ks]; [done|]. simpl in Hl.
  destruct (m !! k) as [[| | | | |m']|]; try done. by apply IH.
Qed.

Lemma snapshot_lookup m ks j : lookup_path m ks = Some j → snapshot m ks = Ret j.
Proof.
  intros Hl. rewrite <- (snapshot_below_lookup m ks j Hl). by destruct ks.
Qed.

Lemma lookup_path_app m ks ks' below :
  ks ≠ [] → ks' ≠ [] → lookup_path m ks = Some (JObject below) →
  lookup_path m (ks ++ ks') = lookup_path below ks'.
Proof.
  revert m. induction ks as [|k ks IH]; intros m; [done|]. intros _ Hks' Hl.
  rewrite <- app_comm_cons, lookup_path_cons by (by destruct ks, ks').
  destruct (decide (ks = [])) as [->|Hks].
  - simpl in *. unfold submap. by rewrite Hl.
  - rewrite lookup_path_cons in Hl by done. by apply IH.
Qed.

(** ** Activations *)

Section activations.
Context `{EV : ExternValues} {T : Type} `{EqDecision T, TotalOrd T}.
Context (into_time : T → Time) (name : string) (stateful : option nat).
Abbreviation PathDiff := (list Value * T * Z)%type (only parsing).
Abbreviation complete := (complete into_time name stateful).
Abbreviation sink_step := (sink_step into_time name stateful).
Implicit Types (w : list (T * list PathDiff)) (ss : list (Step T)).

(** The paths stashed at a time. *)
Definition stashed w (t : T) : list PathDiff :=
  match list_find (λ entry, entry.1 = t) w with Some (_, entry) => entry.2 | None => [] end.

Lemma stashed_cons entry w t : stashed (entry :: w) t = if decide (entry.1 = t) then entry.2 else stashed w t.
Proof. unfold stashed. simpl. case_decide; [done|]. by destruct (list_find _ w) as [[]|]. Qed.

Lemma stashed_stash w t data t' :
  stashed (stash_paths w t data) t' = if decide (t = t') then stashed w t' ++ data else stashed w t'.
Proof.
  induction w as [|entry w IH]; simpl; [by rewrite stashed_cons|].
  destruct (decide (entry.1 = t)) as [Ht|Ht]; rewrite !stashed_cons; simpl.
  - rewrite <- Ht. by destruct (decide (entry.1 = t')).
  - rewrite IH. destruct (decide (entry.1 = t')), (decide (t = t')); congruence.
Qed.

Definition messages_in (messages : list (T * list PathDiff)) (t : T) : list PathDiff :=
  concat (filter (λ message, message.1 = t) messages).*2.

Lemma messages_in_cons message messages t :
  messages_in (message :: messages) t =
  (if decide (message.1 = t) then message.2 else []) ++ messages_in messages t.
Proof. unfold messages_in. rewrite filter_cons. by case_decide. Qed.

Lemma messages_in_app l k t : messages_in (l ++ k) t = messages_in l t ++ messages_in k t.
Proof. unfold messages_in. by rewrite filter_app, fmap_app, concat_app. Qed.

Lemma stashed_foldl messages w t :
  stashed (foldl (λ w message, stash_paths w message.1 message.2) w messages) t =
  stashed w t ++ messages_in messages t.
Proof.
  revert w. induction messages as [|message messages IH]; intros w; simpl; [by rewrite app_nil_r|].
  rewrite IH, stashed_stash, messages_in_cons. case_decide; [|done]. by rewrite <- app_assoc.
Qed.

Lemma stashed_filter w t t' : t ≠ t' → stashed (filter (λ entry, entry.1 ≠ t) w) t' = stashed w t'.
Proof.
  intros Ht. induction w as [|entry w IH]; [done|]. rewrite filter_cons, stashed_cons.
  destruct (decide (entry.1 ≠ t)) as [Hne|He].
  - rewrite stashed_cons. by rewrite IH.
  - rewrite IH. destruct (decide (entry.1 = t')) as [He'|]; [|done].
    apply dec_stable in He. congruence.
Qed.

(** What the paths of one complete time make of the maps. *)
Definition deliver (maps : option JMap) (t : T) (paths_at_time : list PathDiff)
    : outcome (list Output * option JMap) :=
  let! '(out, self) := complete (mkAssocIn [(t, paths_at_time)] maps) t in Ret (out, states self).

Lemma complete_found w maps t :
  ∃ w', (∀ t', t' ≠ t → stashed w' t' = stashed w t') ∧
    complete (mkAssocIn w maps) t =
      let! '(out, maps) := deliver maps t (stashed w t) in Ret (out, mkAssocIn w' maps).
Proof.
  assert (∀ paths, list_find (λ entry : T * list PathDiff, entry.1 = t) [(t, paths)] = Some (0, (t, paths))) as Hone
    by (intros; simpl; by rewrite decide_True).
  unfold deliver, AssocIn.complete. cbn [waiting states]. rewrite Hone.
  destruct (list_find _ w) as [[i [t0 paths]]|] eqn:Hf.
  - exists (filter (λ entry, entry.1 ≠ t) w).
    split; [intros; by apply stashed_filter|].
    assert (stashed w t = paths) as -> by (unfold stashed; by rewrite Hf).
    apply list_find_Some in Hf as (_ & Ht & _). simpl in Ht. subst t0.
    destruct maps as [m|].
    + destruct (merge_paths m paths _) as [[m' changes]|]; [|done]. simpl. by destruct (mapM_outcome _ changes).
    + destruct (merge_paths ∅ paths _) as [[m' changes]|]; [|done]. simpl. by destruct (mapM_outcome _ _).
  - exists w. split; [done|].
    assert (stashed w t = []) as -> by (unfold stashed; by rewrite Hf). by destruct maps.
Qed.

(** The reference: every time in turn, with all its paths. *)
Fixpoint deliver_all (maps : option JMap) (paths_at : T → list PathDiff) (ts : list T)
    : outcome (list Output * option JMap) :=
  match ts with
  | [] => Ret ([], maps)
  | t :: ts =>
      let! '(out, maps) := deliver maps t (paths_at t) in
      let! '(out', maps) := deliver_all maps paths_at ts in
      Ret (out ++ out', maps)
  end.

Lemma deliver_all_ext maps f g ts :
  (∀ t, t ∈ ts → f t = g t) → deliver_all maps f ts = deliver_all maps g ts.
Proof.
  revert maps. induction ts as [|t ts IH]; intros maps Hfg; [done|]. simpl. rewrite Hfg by set_solver.
  destruct (deliver maps t (g t)) as [[out maps']|]; [|done]. simpl. by rewrite IH by set_solver.
Qed.

Lemma deliver_all_app maps f ts ts' :
  deliver_all maps f (ts ++ ts') =
    let! '(out, maps) := deliver_all maps f ts in
    let! '(out', maps) := deliver_all maps f ts' in Ret (out ++ out', maps).
Proof.
  revert maps. induction ts as [|t ts IH]; intros maps; simpl.
  { by destruct (deliver_all maps f ts') as [[]|]. }
  destruct (deliver maps t (f t)) as [[out maps']|]; [|done]. simpl. rewrite IH.
  destruct (deliver_all maps' f ts) as [[]|]; [|done]. simpl.
  destruct (deliver_all _ f ts') as [[]|]; [|done]. simpl. by rewrite app_assoc.
Qed.

Lemma complete_all_deliver w maps ts :
  NoDup ts →
  ∃ w', (∀ t, t ∉ ts → stashed w' t = stashed w t) ∧
    complete_all into_time name stateful (mkAssocIn w maps) ts =
      let! '(out, maps) := deliver_all maps (stashed w) ts in Ret (out, mkAssocIn w' maps).
Proof.
  intros Hnd. revert w maps. induction Hnd as [|t ts Ht Hnd IH]; intros w maps; [by exists w|].
  destruct (complete_found w maps t) as (w1 & Hw1 & Hc).
  destruct (deliver maps t (stashed w t)) as [[out maps1]|e] eqn:Hd.
  - destruct (IH w1 maps1) as (w2 & Hw2 & Hall). exists w2. split.
    { intros t' [Hne Hin]%not_elem_of_cons. by rewrite Hw2, Hw1. }
    cbn [complete_all deliver_all]. rewrite Hc, Hd. simpl. rewrite Hall.
    rewrite (deliver_all_ext _ (stashed w1) (stashed w)) by (intros t' Ht'; apply Hw1; by intros ->).
    by destruct (deliver_all maps1 (stashed w) ts) as [[]|].
  - exists w. split; [done|]. cbn [complete_all deliver_all]. by rewrite Hc, Hd.
Qed.

(** Activations one after the other. *)
Fixpoint run_sink (self : AssocInState T) ss : outcome (list Output * AssocInState T) :=
  match ss with
  | [] => Ret ([], self)
  | s :: ss =>
      let! '(out, self) := sink_step self s in
      let! '(out', self) := run_sink self ss in
      Ret (out ++ out', self)
  end.

(** No message for a time arrives after the activation that completes it, and each
    time completes once. *)
Fixpoint punctual ss : Prop :=
  match ss with
  | [] => True
  | s :: ss => (∀ t, t ∈ due s → t ∉ (ss ≫= arrived).*1) ∧ punctual ss
  end.

Lemma messages_in_not (messages : list (T * list PathDiff)) t :
  t ∉ messages.*1 → messages_in messages t = [].
Proof.
  induction messages as [|message messages IH]; [done|]. csimpl. intros Ht.
  rewrite messages_in_cons, decide_False, IH by set_solver. done.
Qed.

Lemma run_sink_deliver ss w maps :
  NoDup (ss ≫= due) → punctual ss →
  (let! '(out, self) := run_sink (mkAssocIn w maps) ss in Ret (out, states self)) =
  deliver_all maps (λ t, stashed w t ++ messages_in (ss ≫= arrived) t) (ss ≫= due).
Proof.
  revert w maps. induction ss as [|s ss IH]; intros w maps; [done|].
  cbn [mbind list_bind]. intros (Hnd & Hdisj & Hnd')%NoDup_app [Hp Hps].
  cbn [run_sink]. unfold AssocIn.sink_step. cbn [waiting states].
  set (w1 := foldl _ w (arrived s)).
  assert (∀ t, stashed w1 t = stashed w t ++ messages_in (arrived s) t) as Hw1 by (intros; apply stashed_foldl).
  destruct (complete_all_deliver w1 maps (due s) Hnd) as (w2 & Hw2 & ->).
  rewrite deliver_all_app.
  rewrite (deliver_all_ext _ (λ t, stashed w t ++ messages_in (arrived s ++ (ss ≫= arrived)) t) (stashed w1)).
  2:{ intros t Ht. by rewrite Hw1, messages_in_app, (messages_in_not (ss ≫= arrived)), app_nil_r by by apply Hp. }
  destruct (deliver_all maps (stashed w1) (due s)) as [[out maps1]|]; [|done]. cbn [obind].
  rewrite (deliver_all_ext _ _ (λ t, stashed w2 t ++ messages_in (ss ≫= arrived) t)).
  2:{ intros t Ht. rewrite messages_in_app, app_assoc, <- Hw1. f_equal. symmetry. apply Hw2.
      intros Hin. by apply (Hdisj t). }
  change (list_bind _ _ due ss) with (ss ≫= due) in *. rewrite <- (IH w2 maps1 Hnd' Hps).
  by destruct (run_sink (mkAssocIn w2 maps1) ss) as [[]|].
Qed.

(** C15 (the sink does not depend on the schedule).  If no message for a time
    arrives after the activation that completes it, and each time completes once,
    what the operator sends and the maps it keeps are those of merging, for each
    completed time in turn, all the paths of that time: how the messages were cut
    and interleaved, and which activations received them, makes no difference. *)
Theorem sink_schedule_independent ss :
  NoDup (ss ≫= due) → punctual ss →
  (let! '(out, self) := run_sink (AssocIn_new stateful) ss in Ret (out, states self)) =
  deliver_all (states (AssocIn_new (T:=T) stateful)) (messages_in (ss ≫= arrived)) (ss ≫= due).
Proof. apply run_sink_deliver. Qed.

(** *** With history *)
Context (schema : Keys → Prop) (Hfree : prefix_free schema).
Abbreviation result := (result schema).
Abbreviation shows := (shows schema).

(** What is sent for a level: the leaves of the result below it. *)
Definition shows_below (t : T) (W : wlist (list Value)) (ck : Keys) (out : Output) : Prop :=
  ∃ below, out = Json name (JObject below) (into_time t) 1 ∧ ∀ ks j, ks ≠ [] → schema (ck ++ ks) →
    lookup_path below ks = Some j ↔
    ∃ path, wt W path = 1%Z ∧ path_keys path = ck ++ ks ∧ path_leaf path = j.

Lemma deliver_shows granularity t paths W m :
  stateful = Some granularity → 1 ≤ granularity →
  consolidated t paths → result W → result (W ++ diffs paths) → shows m W →
  ∃ m' changes out, deliver (Some m) t paths = Ret (out, Some m') ∧
    shows m' (W ++ diffs paths) ∧ NoDup changes ∧
    (∀ ck, ck ∈ changes ↔ ∃ p, p ∈ paths ∧ ck = take granularity (removelast (path_keys p.1.1))) ∧
    Forall2 (shows_below t (W ++ diffs paths)) changes out.
Proof.
  intros Hst Hg Hc HW HW' Hm.
  destruct (merge_shows schema Hfree granularity t paths W m) as (m' & changes & Hmerge & Hm' & Hnd & Hch & Hlev);
    [done..|].
  assert (∀ ck, ck ∈ changes → ∃ below, lookup_path m' ck = Some (JObject below) ∧ ck ≠ []) as Hck.
  { intros ck (p & Hp & ->)%Hch.
    destruct (changes_in_schema schema t paths W p) as [_ Hlen]; [done..|].
    destruct (path_keys p.1.1) as [|k ks _] eqn:Hk using rev_ind; [simpl in Hlen; lia|].
    rewrite length_app in Hlen. simpl in Hlen. rewrite removelast_last.
    assert (take granularity ks ≠ []) as Hne by (destruct granularity, ks; simpl in *; lia || done).
    destruct (Hlev p Hp (take granularity ks)) as [below Hb]; [done|..|by exists below].
    - rewrite Hk. etrans; [apply prefix_take|by apply prefix_app_r].
    - rewrite Hk. intros Heq. apply (f_equal length) in Heq. rewrite length_app, length_take in Heq. simpl in Heq. lia. }
  destruct (mapM_outcome_exists (λ change_key, let! value := snapshot m' change_key in
    Ret (Json name value (into_time t) 1)) (λ i o, ∀ ck, changes !! i = Some ck → 
      ∃ below, lookup_path m' ck = Some (JObject below) ∧ ck ≠ [] ∧ o = Json name (JObject below) (into_time t) 1) changes)
    as (out & Hout & Hlen & Hq).
  { intros i ck Hi. destruct (Hck ck) as (below & Hb & Hne); [by eapply list_elem_of_lookup_2|].
    rewrite (snapshot_lookup _ _ _ Hb). eexists. split; [done|]. intros ck' Hi'. naive_solver. }
  exists m', changes, out. split.
  { unfold deliver, AssocIn.complete. cbn [waiting states list_find]. rewrite decide_True by done. rewrite Hst.
    simpl. rewrite Hmerge. simpl. by rewrite Hout. }
  do 3 (split; [done|]). apply Forall2_same_length_lookup_2; [done|]. intros i ck o Hi Ho.
  destruct (Hq i o Ho ck Hi) as (below & Hb & Hne & ->). exists below. split; [done|].
  intros ks j Hks Hsch. rewrite <- (lookup_path_app m' ck ks below) by done. by apply Hm'.
Qed.

(** The tuples of the times completed so far. *)
Definition history (paths_at : T → list PathDiff) (ts : list T) : wlist (list Value) :=
  ts ≫= (λ t, diffs (paths_at t)).

Lemma deliver_all_shows granularity paths_at ts W m :
  stateful = Some granularity → 1 ≤ granularity →
  (∀ t, t ∈ ts → consolidated t (paths_at t)) →
  (∀ n, result (W ++ history paths_at (take n ts))) → shows m W →
  ∃ m' out, deliver_all (Some m) paths_at ts = Ret (out, Some m') ∧ shows m' (W ++ history paths_at ts).
Proof.
  intros Hst Hg. revert W m. induction ts as [|t ts IH]; intros W m Hc HW Hm.
  { exists m, []. split; [done|]. unfold history. by rewrite app_nil_r. }
  destruct (deliver_shows granularity t (paths_at t) W m) as (m1 & _ & out1 & Hd & Hm1 & _);
    [done..|apply Hc; set_solver| | |done|].
  { specialize (HW 0). unfold history in HW. simpl in HW. by rewrite app_nil_r in HW. }
  { specialize (HW 1). unfold history in HW. simpl in HW. by rewrite app_nil_r in HW. }
  destruct (IH (W ++ diffs (paths_at t)) m1) as (m' & out & Hall & Hm'); [set_solver| |done|].
  { intros n. specialize (HW (S n)). unfold history in *. simpl in HW. by rewrite <- app_assoc. }
  exists m', (out1 ++ out). cbn [deliver_all]. rewrite Hd. simpl. rewrite Hall. split; [done|].
  unfold history in *. simpl. by rewrite app_assoc.
Qed.

Lemma shows_empty : shows ∅ [].
Proof.
  split; [apply shaped_empty|]. intros ks j _. split.
  - destruct ks as [|k [|k' ks]]; simpl; rewrite ?lookup_empty; done.
  - by intros (path & Hp & _).
Qed.

(** C6 (the maps track the result).  Let the lists of keys in use be prefix-free
    and, after each completed time, the tuples received form a result: a set of
    paths, at most one leaf for each list of keys, none at the top level.  Then the
    operator that keeps history does not panic, and the maps hold exactly the
    leaves of the result at the last completed time. *)
Theorem sink_tracks_result granularity ss :
  stateful = Some granularity → 1 ≤ granularity → NoDup (ss ≫= due) → punctual ss →
  let paths_at := messages_in (ss ≫= arrived) in
  (∀ t, t ∈ ss ≫= due → consolidated t (paths_at t)) →
  (∀ n, result (history paths_at (take n (ss ≫= due)))) →
  ∃ out self m, run_sink (AssocIn_new stateful) ss = Ret (out, self) ∧ states self = Some m ∧
    shows m (history paths_at (ss ≫= due)).
Proof.
  intros Hst Hg Hnd Hp paths_at Hc HW.
  pose proof (run_sink_deliver ss [] (Some ∅) Hnd Hp) as Hrun.
  destruct (deliver_all_shows granularity paths_at (ss ≫= due) [] ∅) as (m & out & Hall & Hm);
    [done..|apply shows_empty|].
  rewrite (deliver_all_ext _ _ paths_at) in Hrun by done. rewrite Hall in Hrun.
  assert (AssocIn_new stateful = mkAssocIn [] (Some ∅)) as -> by (unfold AssocIn_new; by rewrite Hst).
  destruct (run_sink (mkAssocIn [] (Some ∅)) ss) as [[out' self]|]; [|done].
  exists out', self, m. simpl in Hrun. by injection Hrun as -> ->.
Qed.

(** (snapshots).  In the same situation, completing a time sends one JSON value
    for each level changed at it, cut at the granularity: the name and the time of
    the result, and a map of exactly the leaves of the new result below it. *)
Theorem complete_sends_snapshots granularity self t W m :
  stateful = Some granularity → 1 ≤ granularity → states self = Some m → shows m W →
  let paths := stashed (waiting self) t in
  consolidated t paths → result W → result (W ++ diffs paths) →
  ∃ out self' m' changes, complete self t = Ret (out, self') ∧ states self' = Some m' ∧
    shows m' (W ++ diffs paths) ∧ NoDup changes ∧
    (∀ ck, ck ∈ changes ↔ ∃ p, p ∈ paths ∧ ck = take granularity (removelast (path_keys p.1.1))) ∧
    Forall2 (shows_below t (W ++ diffs paths)) changes out.
Proof.
  intros Hst Hg Hm Hshows paths Hc HW HW'.
  destruct (deliver_shows granularity t paths W m) as (m' & changes & out & Hd & Hm' & Hch); [done..|].
  destruct self as [w maps]. simpl in Hm. subst maps.
  destruct (complete_found w (Some m) t) as (w' & _ & Hcomplete).
  change (stashed w t) with paths in Hcomplete. rewrite Hd in Hcomplete.
  by exists out, (mkAssocIn w' (Some m')), m', changes.
Qed.
End activations.
