(* ===== verification/SinkRuns.v ===== *)
(** * The sink of nested maps on concrete paths

    Users and their attributes, at two times, with messages cut and interleaved;
    and what a retraction at the top level, or a granularity of zero, does. *)
From Stdlib Require Import ZArith NArith Lia.
From stdpp Require Import base strings numbers gmap sets list pretty.
From S2P Require Import Prelude Timestamps Values Weighted Streams Dataflow.
From S2P Require Import Outputs AssocIn AssocInTheorems SinkTheorems.

Section sink_runs.
#[local] Existing Instance extern_model.

(** Keys of users: an attribute, an entity, an attribute. *)
Definition three_keys (ks : Keys) : Prop := length ks = 3.

Lemma three_keys_free : prefix_free three_keys.
Proof.
  unfold three_keys. intros ks ks' Hks Hks' [k ->]. rewrite length_app in Hks'.
  destruct k; [by rewrite app_nil_r|]. simpl in Hks'. lia.
Qed.

(** A result, decided on the tuples at hand. *)
Definition check_result (W : wlist (list Value)) : bool :=
  forallb (λ path, Z.eqb (wt W path) 0 || (Z.eqb (wt W path) 1 && path_ok path &&
    Nat.eqb (length (path_keys path)) 3 &&
    forallb (λ path', bool_decide (wt W path' = 1%Z → path_keys path = path_keys path' → path = path')) W.*1)) W.*1.

Lemma check_result_sound W : check_result W = true → result three_keys W.
Proof.
  intros Hc. assert (∀ path, wt W path ≠ 0%Z → wt W path = 1%Z ∧ path_ok path = true ∧
    length (path_keys path) = 3 ∧
    ∀ path', path' ∈ W.*1 → wt W path' = 1%Z → path_keys path = path_keys path' → path = path') as H.
  { intros path Hw. assert (path ∈ W.*1) as Hin by by apply wt_elem.
    unfold check_result in Hc. rewrite forallb_forall in Hc.
    apply list_elem_of_In, Hc, orb_true_iff in Hin as [Hz|Hone]; [by apply Z.eqb_eq in Hz|].
    rewrite !andb_true_iff, Z.eqb_eq, Nat.eqb_eq, forallb_forall in Hone. destruct Hone as [[[? ?] ?] Hf].
    split; [lia|]. do 2 (split; [done|]). intros path' Hin'%list_elem_of_In. apply Hf, bool_decide_eq_true in Hin'. exact Hin'. }
  split.
  - intros path. destruct (decide (wt W path = 0%Z)) as [|Hne]; [by left|right]. by apply H.
  - intros path Hp. destruct (H path) as (_ & ? & Hlen & _); [lia|]. unfold three_keys. split_and!; [done..|lia].
  - intros path path' Hp Hp'. apply (H path); [lia| |done]. apply wt_elem. lia.
Qed.

Lemma consolidated_check (t : N) (paths : list (list Value * N * Z)) :
  forallb (λ p, bool_decide (p.1.2 = t) && negb (Z.eqb p.2 0) && bool_decide (- 2 ^ 63 ≤ p.2 < 2 ^ 63)%Z) paths = true →
  NoDup ((λ p, p.1.1) <$> paths) → consolidated t paths.
Proof.
  intros Hc Hnd. rewrite forallb_forall in Hc. split; [|done|].
  - intros p Hp%list_elem_of_In. apply Hc in Hp. rewrite !andb_true_iff, bool_decide_eq_true in Hp. by destruct Hp as [[? _] _].
  - intros p Hp%list_elem_of_In. apply Hc in Hp.
    rewrite !andb_true_iff, negb_true_iff, Z.eqb_neq, !bool_decide_eq_true in Hp. by destruct Hp as [[_ ?] ?].
Qed.

Definition user (e : N) (a : string) (v : string) : list Value :=
  [VAid "user"; VEid e; VAid a; VString v].

(** The name of the first user changes at time 1; a message for time 1 arrives early. *)
Definition activations : list (Step N) := [
  mkStep [(0%N, [(user 1 "name" "Ada", 0%N, 1%Z)]);
          (1%N, [(user 1 "name" "Ada L.", 1%N, 1%Z)]);
          (0%N, [(user 2 "name" "Alan", 0%N, 1%Z); (user 1 "town" "London", 0%N, 1%Z)])] [0%N];
  mkStep [(1%N, [(user 1 "name" "Ada", 1%N, (-1)%Z)])] [1%N]].

Definition object (l : list (string * JValue)) : JValue := JObject (list_to_map l).

(** Granularity 2: only the first user is sent at time 1. *)
Lemma activations_run :
  (let! '(out, self) := run_sink Time_from_u64 "users" (Some 2) (AssocIn_new (Some 2)) activations in
   Ret out) =
  Ret [Json "users" (object [("name", JString "Ada"); ("town", JString "London")]) (TxId 0) 1;
       Json "users" (object [("name", JString "Alan")]) (TxId 0) 1;
       Json "users" (object [("name", JString "Ada L."); ("town", JString "London")]) (TxId 1) 1].
Proof. vm_refl. Qed.

Lemma activations_punctual : NoDup (activations ≫= due) ∧ punctual activations.
Proof. split; [by apply (bool_decide_unpack _)|]. repeat split; intros t; set_solver. Qed.

Lemma activations_results n :
  result three_keys (history (messages_in (activations ≫= arrived)) (take n (activations ≫= due))).
Proof.
  apply check_result_sound. destruct n as [|[|n]]; [vm_compute; reflexivity..|].
  rewrite take_ge by (simpl; lia). vm_compute. reflexivity.
Qed.

Lemma activations_consolidated t :
  t ∈ activations ≫= due → consolidated t (messages_in (activations ≫= arrived) t).
Proof.
  intros Ht. assert (t = 0%N ∨ t = 1%N) as [->| ->] by (simpl in Ht; set_solver);
    (apply consolidated_check; [vm_compute; reflexivity|by apply (bool_decide_unpack _)]).
Qed.

Lemma sink_schedule_independent_witness :
  (let! '(out, self) := run_sink Time_from_u64 "users" (Some 2) (AssocIn_new (Some 2)) activations in
   Ret (out, states self)) =
  deliver_all Time_from_u64 "users" (Some 2) (states (AssocIn_new (T:=N) (Some 2)))
    (messages_in (activations ≫= arrived)) [0%N; 1%N].
Proof. apply (sink_schedule_independent Time_from_u64 "users" (Some 2) activations); apply activations_punctual. Defined.

Lemma sink_tracks_result_witness :
  ∃ out self m, run_sink Time_from_u64 "users" (Some 2) (AssocIn_new (Some 2)) activations = Ret (out, self) ∧
    states self = Some m ∧
    shows three_keys m (history (messages_in (activations ≫= arrived)) (activations ≫= due)).
Proof.
  apply (sink_tracks_result Time_from_u64 "users" (Some 2) three_keys three_keys_free 2 activations);
    [done|lia|apply activations_punctual..|exact activations_consolidated|exact activations_results].
Defined.

(** The second user, on its own. *)
Definition alan : list (list Value * N * Z) := [(user 2 "name" "Alan", 0%N, 1%Z)].

Lemma complete_sends_snapshots_witness :
  ∃ out self' m' changes,
    complete Time_from_u64 "users" (Some 1) (mkAssocIn [(0%N, alan)] (Some ∅)) 0%N = Ret (out, self') ∧
    states self' = Some m' ∧ shows three_keys m' ([] ++ diffs alan) ∧ NoDup changes ∧
    (∀ ck, ck ∈ changes ↔ ∃ p, p ∈ alan ∧ ck = take 1 (removelast (path_keys p.1.1))) ∧
    Forall2 (shows_below Time_from_u64 "users" three_keys 0%N ([] ++ diffs alan)) changes out.
Proof.
  assert (stashed (waiting (mkAssocIn [(0%N, alan)] (Some ∅))) 0%N = alan) as Hs
    by (cbn [waiting]; by rewrite stashed_cons, decide_True).
  rewrite <- Hs.
  apply (complete_sends_snapshots Time_from_u64 "users" (Some 1) three_keys three_keys_free 1
    (mkAssocIn [(0%N, alan)] (Some ∅)) 0%N [] ∅);
    [done|lia|done|apply shows_empty|apply consolidated_check|apply check_result_sound..];
    [vm_compute; reflexivity|by apply (bool_decide_unpack _)|vm_compute; reflexivity..].
Defined.

Lemma merge_paths_spec_witness :
  ∃ m' changes, merge_paths ∅ alan 1 = Ret (m', changes) ∧ shaped three_keys m' ∧
    (∀ ks, three_keys ks →
      lookup_path m' ks = latest ks (sort_paths alan) (lookup_path ∅ ks)) ∧
    NoDup changes ∧
    ∀ ck, ck ∈ changes ↔ ∃ p, p ∈ alan ∧ ck = change_key 1 (path_keys p.1.1).
Proof.
  apply (merge_paths_spec three_keys three_keys_free); [apply shaped_empty|].
  intros p ->%list_elem_of_singleton. by split.
Defined.

(** A retraction at the top level puts the retracted value back. *)
Lemma top_level_retraction :
  (let! '(m, _) := merge_paths (T:=N) (<["count" := JNumber 2]> ∅)
      [([VAid "count"; VNumber 1], 0%N, (-1)%Z)] 1 in Ret (m !! "count")) = Ret (Some (JNumber 1)).
Proof. vm_refl. Qed.

(** With a granularity of zero the first change panics. *)
Lemma granularity_zero :
  is_panic (complete Time_from_u64 "users" (Some 0) (mkAssocIn [(0%N, alan)] (Some ∅)) 0%N) = true.
Proof. vm_refl. Qed.

(** A message of one capability holds paths of later times too: all of them are
    merged when the time of the capability completes. *)
Lemma later_times_merged_early :
  (let! '(out, _) := complete Time_from_u64 "users" (Some 1)
      (mkAssocIn [(0%N, [(user 2 "name" "Alan", 5%N, 1%Z)])] (Some ∅)) 0%N in
   Ret out) =
  Ret [Json "users" (object [("2", object [("name", JString "Alan")])]) (TxId 0) 1].
Proof. vm_refl. Qed.
End sink_runs.
