(* ===== verification/Networking.v ===== *)
(** * Networking (src/server/src/networking.rs)

    The translation of I/O events into domain events, and the delivery of outputs
    to clients.  Sockets, WebSocket connections, the slab they are kept in and
    JSON are used through interfaces; what the operating system hands over with an
    event (an accepted socket, the bytes to read) comes with the event.  [armed]
    holds the registrations of the poll: all but the server socket's are one-shot. *)
From Stdlib Require Import ZArith NArith Lia.
From stdpp Require Import base strings numbers sets gmap list.
From S2P Require Import Prelude Timestamps Values Outputs.

Definition SERVER : N := 2 ^ 64 - 2.
Definition RESULTS : N := 2 ^ 64 - 3.
Definition SYSTEM : N := 2 ^ 64 - 4.

(** ** Interfaces *)

(** [mio::Ready]. *)
Record Ready := mkReady { is_readable : bool; is_writable : bool }.

(** [slab::Slab]: a vector of entries; a full one cannot grow. *)
Class Slab (C : Type) := {
  slab : Type;
  slab_new : slab;
  slab_get : slab → N → option C;
  slab_vacant : slab → option N;
  slab_insert : slab → N → C → slab;
  slab_remove : slab → N → slab;
  slab_get_new : ∀ k, slab_get slab_new k = None;
  slab_vacant_free : ∀ s k, slab_vacant s = Some k → slab_get s k = None ∧ (k < 2 ^ 63)%N;
  slab_get_insert : ∀ s k c k', slab_get (slab_insert s k c) k' = if decide (k = k') then Some c else slab_get s k';
  slab_get_remove : ∀ s k k', slab_get (slab_remove s k) k' = if decide (k = k') then None else slab_get s k'
}.
Arguments slab C {_}.

(** [ws::Message]. *)
Inductive WsMessage := Text (string : string) | Binary (bytes : list N).

(** [ws::connection::ConnEvent], as far as the code tells events apart. *)
Inductive ConnEvent := CMessage (msg : WsMessage) | CClose (code : N) (reason : string) | COther.

(** [ws::connection::Connection]. *)
Class WebSocket (C : Type) := {
  socket : Type;
  input_bytes : Type;
  ws_error : Type;
  conn_new : N → socket → N → C;
  conn_as_server : C → option C;
  conn_token : C → N;
  conn_events : C → Ready;
  conn_read : C → input_bytes → C * list ConnEvent * option ws_error;
  conn_write : C → C * list ConnEvent * option ws_error;
  conn_error : C → ws_error → C;
  conn_send : C → WsMessage → option C;
  conn_token_new : ∀ t s i, conn_token (conn_new t s i) = t;
  conn_token_as_server : ∀ c c', conn_as_server c = Some c' → conn_token c' = conn_token c;
  conn_token_read : ∀ c b, conn_token (conn_read c b).1.1 = conn_token c;
  conn_token_write : ∀ c, conn_token (conn_write c).1.1 = conn_token c;
  conn_token_error : ∀ c e, conn_token (conn_error c e) = conn_token c;
  conn_token_send : ∀ c m c', conn_send c m = Some c' → conn_token c' = conn_token c
}.
Arguments socket C {_}.
Arguments input_bytes C {_}.
Arguments ws_error C {_}.

(** The order in which a set of tokens is iterated. *)
Class TokenIteration := {
  token_iter : gset N → list N;
  token_iter_perm s : token_iter s ≡ₚ elements s
}.

Section networking.
Context `{EV : ExternValues, TI : TokenIteration} {C : Type} `{SL : !Slab C, WS : !WebSocket C}.
Context {Request : Type}.
(** [serde_json::from_str::<Vec<Request<Aid>>>], and [serde_json::to_string]. *)
Context (parse_requests : string → Result (list Request) string).
Context (serialize : Output → option string).

Inductive DomainEvent :=
| Requests (token : N) (requests : list Request)
| Disconnected (token : N).

(** One readiness event, with what the operating system has for it. *)
Record IOEvent := mkIOEvent {
  ev_token : N; ev_ready : Ready; ev_accept : option (socket C); ev_input : input_bytes C
}.

Record IO := mkIO {
  domain_events : list DomainEvent;
  recv : list Output;
  connections : slab C;
  next_connection_id : N;
  armed : gmap N Ready
}.

Definition readable : Ready := mkReady true false.

Definition IO_new : IO :=
  mkIO [] [] slab_new 0 (<[SERVER := readable]> {[RESULTS := readable]}).

Definition push_event (self : IO) (event : DomainEvent) : IO :=
  mkIO (domain_events self ++ [event]) (recv self) (connections self) (next_connection_id self) (armed self).
Definition io_send (self : IO) (out : Output) : IO :=
  mkIO (domain_events self) (recv self ++ [out]) (connections self) (next_connection_id self) (armed self).
Definition set_connection (self : IO) (token : N) (conn : C) : IO :=
  mkIO (domain_events self) (recv self) (slab_insert (connections self) token conn)
    (next_connection_id self) (armed self).
(** [poll.register] and [poll.reregister]. *)
Definition arm (self : IO) (token : N) (events : Ready) : IO :=
  mkIO (domain_events self) (recv self) (connections self) (next_connection_id self)
    (<[token := events]> (armed self)).

(** ** A new connection *)
Definition io_accept (self : IO) (accepted : option (socket C)) : outcome IO :=
  match accepted with
  | None => Ret self
  | Some socket =>
      let! token := expect "capacity overflow" (slab_vacant (connections self)) in
      let conn := conn_new token socket (next_connection_id self) in
      let self := mkIO (domain_events self) (recv self) (slab_insert (connections self) token conn)
                    ((next_connection_id self + 1) mod 2 ^ 32) (armed self) in
      let! conn := expect "called `Result::unwrap()` on an `Err` value" (conn_as_server conn) in
      Ret (arm (set_connection self token conn) (conn_token conn) (conn_events conn))
  end.

(** ** Delivering outputs *)

Definition output_tokens (interests : gmap Aid (gset N)) (out : Output) : list N :=
  match out with
  | QueryDiff name _ | Json name _ _ _ =>
      match interests !! name with
      | None => []
      | Some tokens => token_iter tokens
      end
  | Message client _ | OError client _ _ => [client]
  end.

Definition send_to (self : IO) (msg : WsMessage) (token : N) : outcome IO :=
  match slab_get (connections self) token with
  | None => Ret (push_event self (Disconnected token))
  | Some conn =>
      let! conn := expect "failed to send message" (conn_send conn msg) in
      Ret (arm (set_connection self token conn) (conn_token conn) (conn_events conn))
  end.

Fixpoint send_all (self : IO) (msg : WsMessage) (tokens : list N) : outcome IO :=
  match tokens with
  | [] => Ret self
  | token :: tokens => let! self := send_to self msg token in send_all self msg tokens
  end.

Definition deliver_output (interests : gmap Aid (gset N)) (self : IO) (out : Output) : outcome IO :=
  let! serialized := expect "failed to serialize output" (serialize out) in
  send_all self (Text serialized) (output_tokens interests out).

Fixpoint deliver_outputs (interests : gmap Aid (gset N)) (self : IO) (outs : list Output) : outcome IO :=
  match outs with
  | [] => Ret self
  | out :: outs => let! self := deliver_output interests self out in deliver_outputs interests self outs
  end.

(** [while let Ok(out) = self.recv.try_recv()], which nothing refills. *)
Definition io_results (interests : gmap Aid (gset N)) (self : IO) : outcome IO :=
  let! self := deliver_outputs interests
    (mkIO (domain_events self) [] (connections self) (next_connection_id self) (armed self)) (recv self) in
  Ret (arm self RESULTS readable).

(** ** Events of a connection *)

Definition ready_and (x y : Ready) : Ready :=
  mkReady (is_readable x && is_readable y) (is_writable x && is_writable y).

(** The effect of reading or writing on the connection; errors are its own. *)
Definition conn_done (r : C * list ConnEvent * option (ws_error C)) : C * list ConnEvent :=
  match r with
  | (conn, events, None) => (conn, events)
  | (conn, events, Some err) => (conn_error conn err, events)
  end.

Definition io_message (t token : N) (self : IO) (event : ConnEvent) : outcome IO :=
  match event with
  | CMessage (Text string) =>
      match parse_requests string with
      | Err serde_error => Ret (io_send self (OError token (Error_incorrect serde_error) t))
      | Ok requests => Ret (push_event self (Requests token requests))
      end
  | CMessage (Binary _) => Panic "not yet implemented"
  | CClose _ _ | COther => Ret self
  end.

Fixpoint io_messages (t token : N) (self : IO) (events : list ConnEvent) : outcome IO :=
  match events with
  | [] => Ret self
  | event :: events => let! self := io_message t token self event in io_messages t token self events
  end.

Definition index_connection (self : IO) (token : N) : outcome C :=
  expect "invalid key" (slab_get (connections self) token).

(** Reading, then writing, as far as the connection wants to. *)
Definition conn_exchange (conn : C) (event_readiness : Ready) (input : input_bytes C)
    : C * list ConnEvent :=
  let '(conn, read) :=
    if is_readable (ready_and event_readiness (conn_events conn))
    then conn_done (conn_read conn input) else (conn, []) in
  let '(conn, written) :=
    if is_writable (ready_and event_readiness (conn_events conn))
    then conn_done (conn_write conn) else (conn, []) in
  (conn, read ++ written).

(** A connection that closed is removed, and its socket with it. *)
Definition io_connection (t : N) (self : IO) (event : IOEvent) : outcome IO :=
  let token := ev_token event in
  let! conn := index_connection self token in
  let '(conn, conn_evs) := conn_exchange conn (ev_ready event) (ev_input event) in
  let! self := io_messages t token (set_connection self token conn) conn_evs in
  let! conn := index_connection self token in
  if negb (is_readable (conn_events conn) || is_writable (conn_events conn)) then
    let self := push_event self (Disconnected token) in
    Ret (mkIO (domain_events self) (recv self) (slab_remove (connections self) token)
           (next_connection_id self) (delete token (armed self)))
  else Ret (arm self (conn_token conn) (conn_events conn)).

(** ** A step *)

Definition io_event (t : N) (interests : gmap Aid (gset N)) (self : IO) (event : IOEvent) : outcome IO :=
  if (ev_token event =? SERVER)%N then
    if is_readable (ev_ready event) then io_accept self (ev_accept event) else Ret self
  else if (ev_token event =? RESULTS)%N then io_results interests self
  else io_connection t self event.

Fixpoint io_events (t : N) (interests : gmap Aid (gset N)) (self : IO) (events : list IOEvent)
    : outcome IO :=
  match events with
  | [] => Ret self
  | event :: events =>
      let! self := io_event t interests self event in io_events t interests self events
  end.

(** Polling: the one-shot registrations that fire are spent. *)
Definition io_poll (self : IO) (events : list IOEvent) : IO :=
  mkIO (domain_events self) (recv self) (connections self) (next_connection_id self)
    (filter (λ kr, kr.1 = SERVER ∨ kr.1 ∉ ev_token <$> events) (armed self)).

Definition IO_step (self : IO) (t : N) (interests : gmap Aid (gset N)) (events : list IOEvent)
    : outcome IO :=
  io_events t interests (io_poll self events) events.

(** [Iterator::next]. *)
Definition IO_next (self : IO) : option DomainEvent * IO :=
  match domain_events self with
  | [] => (None, self)
  | event :: events =>
      (Some event, mkIO events (recv self) (connections self) (next_connection_id self) (armed self))
  end.
End networking.
Arguments DomainEvent Request : clear implicits.
Arguments IOEvent C {_}.
