(* ===== verification/NetworkTheorems.v ===== *)
(** * Registrations and deliveries

    Between two steps every connection is registered for events, so that none is
    forgotten; and what the channel holds goes to the clients it is meant for. *)
From Stdlib Require Import ZArith NArith Lia.
From stdpp Require Import base strings numbers sets gmap list.
From S2P Require Import Prelude Timestamps Values Outputs Networking.

Section network.
Context `{EV : ExternValues, TI : TokenIteration} {C : Type} `{SL : !Slab C, WS : !WebSocket C}.
Context {Request : Type}.
Context (parse_requests : string → Result (list Request) string).
Context (serialize : Output → option string).
Abbreviation IO := (IO (C:=C) (Request:=Request)).
Implicit Types (self : IO) (event : IOEvent C) (interests : gmap Aid (gset N)) (k : N).

(** ** Registrations *)

(** What fails outside of the translation: the operating system, the WebSocket
    library, serialization, and binary messages, which are not supported. *)
Definition io_failures : list string :=
  ["capacity overflow"; "called `Result::unwrap()` on an `Err` value"; "failed to send message";
   "failed to serialize output"; "not yet implemented"].

Definition ends (Q : IO → Prop) (o : outcome IO) : Prop :=
  match o with Ret self => Q self | Panic m => m ∈ io_failures end.

Lemma ends_bind (P Q : IO → Prop) o f :
  ends P o → (∀ self, P self → ends Q (f self)) → ends Q (obind o f).
Proof. destruct o; simpl; auto. Qed.

(** A registration for every socket whose event is not yet to be handled. *)
Record io_mid (pending : list N) self : Prop := {
  mid_server : SERVER ∈ dom (armed self);
  mid_token k conn : slab_get (connections self) k = Some conn → conn_token conn = k ∧ (k < 2 ^ 63)%N;
  mid_armed k : (k ∈ dom (armed self) ∨ k ∈ pending) ↔
    (k = SERVER ∨ k = RESULTS ∨ is_Some (slab_get (connections self) k))
}.
Abbreviation io_ok := (io_mid []).

Lemma IO_new_ok : io_ok IO_new.
Proof.
  split; simpl; [set_solver|intros k..].
  - by rewrite slab_get_new.
  - rewrite slab_get_new, dom_insert_L, dom_singleton_L. split; [set_solver|].
    intros [->|[->|[? ?]]]; [set_solver..|done].
Qed.

Lemma io_mid_same pending self self' :
  io_mid pending self → connections self' = connections self → armed self' = armed self → io_mid pending self'.
Proof. intros [] Hc Ha. split; by rewrite ?Hc, ?Ha. Qed.

(** Replacing a connection by itself at a later state, and registering it. *)
Lemma io_mid_set pending self k conn conn' :
  io_mid pending self → slab_get (connections self) k = Some conn → conn_token conn' = k →
  io_mid pending (set_connection self k conn').
Proof.
  intros [Hs Ht Ha] Hk Htok. split; simpl; [done|..].
  - intros k' c. rewrite slab_get_insert. case_decide as Heq; [|by apply Ht]. subst k'.
    intros [= <-]. split; [done|]. by apply (Ht _ conn).
  - intros k'. rewrite slab_get_insert, Ha. case_decide as Heq; [|done]. subst k'.
    split; intros; do 2 right; [by eexists|by exists conn].
Qed.

Lemma io_mid_arm pending self k events :
  io_mid (k :: pending) self → io_mid pending (arm self k events).
Proof.
  intros [Hs Ht Ha]. split; simpl; [set_solver|done|]. intros k'. rewrite <- Ha, dom_insert_L. set_solver.
Qed.

Lemma io_mid_rearm pending self k events :
  io_mid pending self → (k = SERVER ∨ k = RESULTS ∨ is_Some (slab_get (connections self) k)) →
  io_mid pending (arm self k events).
Proof.
  intros [Hs Ht Ha] Hk. apply io_mid_arm. split; [done..|]. intros k'. rewrite <- Ha in Hk |- *.
  split; [|set_solver]. intros [Hd|Hp]; [by left|]. apply elem_of_cons in Hp as [->|]; [done|by right].
Qed.

Lemma accept_ok pending self accepted :
  io_mid pending self → ends (io_mid pending) (io_accept self accepted).
Proof.
  intros Hok. destruct accepted as [sock|]; [|done]. simpl.
  destruct (slab_vacant (connections self)) as [k|] eqn:Hv; simpl; [|unfold io_failures; set_solver].
  apply slab_vacant_free in Hv as [Hfree Hk].
  destruct (conn_as_server _) as [conn|] eqn:Hs; simpl; [|unfold io_failures; set_solver].
  apply conn_token_as_server in Hs. rewrite conn_token_new in Hs. rewrite Hs.
  destruct Hok as [Hs' Ht Ha]. split; simpl; [set_solver|..].
  - intros k' c. rewrite !slab_get_insert. case_decide as Heq; [|by apply Ht]. by intros [= <-]; subst.
  - intros k'. rewrite !slab_get_insert, dom_insert_L. case_decide as Heq; [subst k'|].
    + split; [intros _; do 2 right; by eexists|set_solver].
    + rewrite <- Ha. set_solver.
Qed.

Lemma send_to_ok pending self msg k : io_mid pending self → ends (io_mid pending) (send_to self msg k).
Proof.
  intros Hok. unfold send_to. destruct (slab_get (connections self) k) as [conn|] eqn:Hk;
    [|by eapply io_mid_same].
  destruct (conn_send conn msg) as [conn'|] eqn:Hs; simpl; [|unfold io_failures; set_solver].
  apply conn_token_send in Hs. destruct (mid_token _ _ Hok k conn Hk) as [Htok _].
  rewrite Hs, Htok. apply io_mid_rearm; [by eapply io_mid_set; [..|congruence]|].
  do 2 right. simpl. rewrite slab_get_insert, decide_True by done. by eexists.
Qed.

Lemma results_ok pending interests self :
  io_mid (RESULTS :: pending) self → ends (io_mid pending) (io_results serialize interests self).
Proof.
  intros Hok. unfold io_results. set (self0 := mkIO _ _ _ _ _).
  assert (io_mid (RESULTS :: pending) self0) as H0 by by eapply io_mid_same.
  apply (ends_bind (io_mid (RESULTS :: pending))); [|intros; by apply io_mid_arm].
  revert H0. generalize self0. induction (recv self) as [|out outs IH]; intros s Hs; simpl; [done|].
  apply (ends_bind (io_mid (RESULTS :: pending))); [|apply IH].
  unfold deliver_output. destruct (serialize out) as [text|]; simpl; [|unfold io_failures; set_solver].
  clear IH. revert s Hs. induction (output_tokens interests out) as [|k tokens IH]; intros s Hs; simpl; [done|].
  apply (ends_bind (io_mid (RESULTS :: pending))); [by apply send_to_ok|apply IH].
Qed.

Lemma conn_exchange_token (conn : C) ready input :
  conn_token (conn_exchange conn ready input).1 = conn_token conn.
Proof.
  assert (∀ (r : C * list ConnEvent * option (ws_error C)), conn_token (conn_done r).1 = conn_token r.1.1) as Hd.
  { intros [[c ?] [err|]]; simpl; [apply conn_token_error|done]. }
  unfold conn_exchange.
  set (read := if is_readable _ then _ else _).
  assert (conn_token read.1 = conn_token conn) as Hread.
  { subst read. case_match; [|done]. by rewrite Hd, conn_token_read. }
  destruct read as [conn1 evs1]. simpl in Hread. rewrite <- Hread.
  set (written := if is_writable _ then _ else _).
  assert (conn_token written.1 = conn_token conn1) as Hwritten.
  { subst written. case_match; [|done]. by rewrite Hd, conn_token_write. }
  by destruct written as [conn2 evs2].
Qed.

(** Messages touch neither connections nor registrations. *)
Lemma messages_ok t k self evs :
  ends (λ self', connections self' = connections self ∧ armed self' = armed self)
    (io_messages parse_requests t k self evs).
Proof.
  revert self. induction evs as [|ev evs IH]; intros self; simpl; [done|].
  apply (ends_bind (λ self', connections self' = connections self ∧ armed self' = armed self)).
  - destruct ev as [[text|bytes]|code reason|]; simpl; [|unfold io_failures; set_solver|done..].
    by destruct (parse_requests text).
  - intros self' [<- <-]. apply IH.
Qed.

Lemma connection_ok pending t self event :
  ev_token event ≠ SERVER → ev_token event ≠ RESULTS → ev_token event ∉ pending →
  io_mid (ev_token event :: pending) self → ends (io_mid pending) (io_connection parse_requests t self event).
Proof.
  intros Hns Hnr Hnp Hok. set (k := ev_token event) in *.
  assert (is_Some (slab_get (connections self) k)) as [conn Hconn].
  { destruct (proj1 (mid_armed _ _ Hok k)) as [?|[?|?]]; [set_solver|done..]. }
  unfold io_connection, index_connection. fold k. rewrite Hconn. simpl.
  pose proof (conn_exchange_token conn (ev_ready event) (ev_input event)) as Htok.
  destruct (conn_exchange conn (ev_ready event) (ev_input event)) as [conn' evs]. simpl in Htok.
  assert (conn_token conn' = k) as Hk by (rewrite Htok; by apply (mid_token _ _ Hok)).
  pose proof (io_mid_set _ _ _ _ conn' Hok Hconn Hk) as Hset.
  eapply ends_bind; [apply messages_ok|]. intros self' [Hc Ha].
  pose proof (io_mid_same _ _ self' Hset Hc Ha) as Hmid. rewrite Hc. simpl.
  rewrite slab_get_insert, decide_True by done. simpl. destruct (negb _).
  - destruct Hmid as [Hs Ht Harm]. rewrite Hc in Ht, Harm. simpl in Ht, Harm. split; simpl; [set_solver|..].
    + intros k' c. rewrite slab_get_remove. case_decide; [done|apply Ht].
    + intros k'. rewrite slab_get_remove, dom_delete_L. specialize (Harm k'). case_decide as Heq.
      * subst k'. split; [set_solver|]. intros [?|[?|[? ?]]]; done.
      * rewrite <- Harm. set_solver.
  - simpl. rewrite Hk. by apply io_mid_arm.
Qed.

Lemma events_ok t interests self events :
  NoDup (ev_token <$> events) → io_mid (ev_token <$> events) self →
  ends io_ok (io_events parse_requests serialize t interests self events).
Proof.
  revert self. induction events as [|event events IH]; intros self Hnd Hok; simpl; [done|].
  rewrite fmap_cons in Hnd, Hok. apply NoDup_cons in Hnd as [Hnp Hnd].
  apply (ends_bind (io_mid (ev_token <$> events))); [|intros self' Hok'; by apply IH].
  unfold io_event. destruct (N.eqb_spec (ev_token event) SERVER) as [Hs|Hs].
  - assert (io_mid (ev_token <$> events) self) as Hok'. 
    { destruct Hok as [Hserver Ht Ha]. split; [done..|]. intros k. rewrite <- Ha, Hs. set_solver. }
    destruct (is_readable _); [by apply accept_ok|done].
  - destruct (N.eqb_spec (ev_token event) RESULTS) as [Hr|Hr].
    + apply results_ok. by rewrite <- Hr.
    + by apply connection_ok.
Qed.

Lemma poll_ok self events :
  io_ok self → ev_token <$> events ⊆ elements (dom (armed self)) → io_mid (ev_token <$> events) (io_poll self events).
Proof.
  intros [Hs Ht Ha] Hsub. assert (∀ k, k ∈ dom (armed (io_poll self events)) ↔
    k ∈ dom (armed self) ∧ (k = SERVER ∨ k ∉ ev_token <$> events)) as Hdom.
  { intros k. simpl. rewrite !elem_of_dom. split.
    - intros [r [Hr Hk]%map_lookup_filter_Some]. split; [by exists r|done].
    - intros [[r Hr] Hk]. exists r. by apply map_lookup_filter_Some. }
  split; [apply Hdom; naive_solver|done|]. intros k. rewrite Hdom. simpl. rewrite <- Ha.
  split.
  - intros [[? _]|Hin]; [by left|]. left. apply Hsub in Hin. by apply elem_of_elements in Hin.
  - intros [Hk|Hk]; [|by apply elem_of_nil in Hk]. destruct (decide (k ∈ ev_token <$> events)); naive_solver.
Qed.

(** C8 (no event is lost).  Let, before a step, exactly the server socket, the
    channel and the connections be registered for events.  Whatever events the
    poll reports for registered tokens, each once, the step does not use a
    connection that is gone, and afterwards exactly the server socket, the channel
    and the remaining connections are registered again.  It can panic only where
    the operating system, the WebSocket library or the serialization fails, and on
    a binary message. *)
Theorem IO_step_ok t interests self events :
  io_ok self → NoDup (ev_token <$> events) → ev_token <$> events ⊆ elements (dom (armed self)) →
  ends io_ok (IO_step parse_requests serialize self t interests events).
Proof. intros Hok Hnd Hsub. apply events_ok; [done|]. by apply poll_ok. Qed.

(** ** Deliveries *)

Fixpoint conn_sends (conn : C) (msgs : list WsMessage) : option C :=
  match msgs with
  | [] => Some conn
  | msg :: msgs => conn_send conn msg ≫= λ conn, conn_sends conn msgs
  end.

Lemma conn_sends_app conn msgs msgs' :
  conn_sends conn (msgs ++ msgs') = conn_sends conn msgs ≫= λ conn, conn_sends conn msgs'.
Proof.
  revert conn. induction msgs as [|msg msgs IH]; intros conn; [done|]. simpl.
  destruct (conn_send conn msg); [apply IH|done].
Qed.

(** What sending did: the connections, each with the messages it was sent, and
    what was reported of clients without one. *)
Record sent_each self self' (msgs : N → list WsMessage) (gone : list N) : Prop := {
  se_connections k : match slab_get (connections self) k with
                     | Some conn => slab_get (connections self') k = conn_sends conn (msgs k) ∧
                                    is_Some (slab_get (connections self') k)
                     | None => slab_get (connections self') k = None
                     end;
  se_events : domain_events self' = domain_events self ++ (Disconnected <$> gone);
  se_recv : recv self' = recv self;
  se_id : next_connection_id self' = next_connection_id self
}.

Definition connected self k : Prop := is_Some (slab_get (connections self) k).
#[export] Instance connected_dec self k : Decision (connected self k).
Proof. unfold connected. apply _. Defined.

Lemma sent_each_connected self self' msgs gone k :
  sent_each self self' msgs gone → connected self' k ↔ connected self k.
Proof.
  intros [Hc _ _ _]. specialize (Hc k). unfold connected.
  destruct (slab_get (connections self) k); [by destruct Hc as [_ ?]|].
  rewrite Hc. done.
Qed.

Lemma sent_each_trans s1 s2 s3 msgs msgs' gone gone' :
  sent_each s1 s2 msgs gone → sent_each s2 s3 msgs' gone' →
  sent_each s1 s3 (λ k, msgs k ++ msgs' k) (gone ++ gone').
Proof.
  intros [H1 He1 Hr1 Hi1] [H2 He2 Hr2 Hi2]. split; [|by rewrite He2, He1, fmap_app, app_assoc|congruence..].
  intros k. specialize (H1 k). specialize (H2 k).
  destruct (slab_get (connections s1) k) as [c1|]; [|by rewrite H1 in H2].
  destruct H1 as [H1 [c2 Hc2]]. rewrite Hc2 in H1, H2. destruct H2 as [H2 Hsome].
  by rewrite conn_sends_app, <- H1.
Qed.

Lemma sent_each_ext s1 s2 msgs msgs' gone gone' :
  (∀ k, msgs k = msgs' k) → gone = gone' → sent_each s1 s2 msgs gone → sent_each s1 s2 msgs' gone'.
Proof.
  intros Hm <- [Hc He Hr Hi]. split; [|done..]. intros k. rewrite <- Hm. apply Hc.
Qed.

Lemma send_to_spec self msg k self' :
  send_to self msg k = Ret self' →
  sent_each self self' (λ k', if decide (k = k') then [msg] else []) (if decide (connected self k) then [] else [k]).
Proof.
  unfold send_to. destruct (slab_get (connections self) k) as [conn|] eqn:Hk.
  - intros Hs. apply obind_Ret in Hs as (conn' & Hs & [= <-]). rewrite decide_True by (unfold connected; by rewrite Hk).
    split; simpl; [|by rewrite app_nil_r|done..]. intros k'. rewrite slab_get_insert.
    case_decide as Heq; [subst k'; rewrite Hk; simpl|destruct (slab_get _ k'); [split; [done|by eexists]|done]].
    destruct (conn_send conn msg); simpl in *; [injection Hs as ->|done]. split; [done|by eexists].
  - intros [= <-]. rewrite decide_False by (unfold connected; rewrite Hk; by intros [? ?]).
    split; simpl; [|done..]. intros k'. case_decide; [subst; by rewrite Hk|].
    destruct (slab_get _ k'); [split; [done|by eexists]|done].
Qed.

Lemma send_all_spec self msg tokens self' :
  NoDup tokens → send_all self msg tokens = Ret self' →
  sent_each self self' (λ k, if decide (k ∈ tokens) then [msg] else [])
    (filter (λ k, ¬ connected self k) tokens).
Proof.
  intros Hnd. revert self. induction Hnd as [|k tokens Hk Hnd IH]; intros self; cbn [send_all].
  - intros [= <-]. split; [|by rewrite app_nil_r|done..]. intros k.
    rewrite decide_False by set_solver. destruct (slab_get _ k); [split; [done|by eexists]|done].
  - intros (s1 & H1%send_to_spec & H2%IH)%obind_Ret.
    eapply sent_each_ext; [| |exact (sent_each_trans _ _ _ _ _ _ _ H1 H2)].
    + intros k'. simpl. destruct (decide (k = k')) as [->|Hne].
      * rewrite decide_False, decide_True by set_solver. done.
      * destruct (decide (k' ∈ tokens)); [rewrite decide_True by set_solver|rewrite decide_False by set_solver]; done.
    + rewrite filter_cons. rewrite (list_filter_iff (λ k, ¬ connected s1 k) (λ k, ¬ connected self k)).
      * destruct (decide (connected self k)); [rewrite decide_False by tauto|rewrite decide_True by tauto]; done.
      * intros k'. by rewrite (sent_each_connected _ _ _ _ k' H1).
Qed.

(** The text sent for an output, if there is one. *)
Definition output_text (out : Output) : list WsMessage :=
  match serialize out with Some text => [Text text] | None => [] end.

(** The messages a client is meant to get. *)
Definition messages_for interests (outs : list Output) k : list WsMessage :=
  outs ≫= λ out, if decide (k ∈ output_tokens interests out) then output_text out else [].

Lemma output_tokens_NoDup interests out : NoDup (output_tokens interests out).
Proof.
  destruct out; simpl; try apply NoDup_singleton; destruct (interests !! _); try apply NoDup_nil;
    rewrite ?token_iter_perm; try done; apply NoDup_elements.
Qed.

Lemma deliver_outputs_spec interests self outs self' :
  deliver_outputs serialize interests self outs = Ret self' →
  sent_each self self' (messages_for interests outs)
    (filter (λ k, ¬ connected self k) (outs ≫= output_tokens interests)).
Proof.
  revert self. induction outs as [|out outs IH]; intros self; cbn [deliver_outputs].
  - intros [= <-]. split; [|by rewrite app_nil_r|done..]. intros k.
    destruct (slab_get _ k); [split; [done|by eexists]|done].
  - intros (s1 & H1 & H2%IH)%obind_Ret. unfold deliver_output in H1.
    apply obind_Ret in H1 as (text & Htext & H1). apply send_all_spec in H1; [|apply output_tokens_NoDup].
    destruct (serialize out) as [text'|] eqn:Hs; simpl in Htext; [injection Htext as ->|done].
    eapply sent_each_ext; [| |exact (sent_each_trans _ _ _ _ _ _ _ H1 H2)].
    + intros k. unfold messages_for at 2, output_text. csimpl. by rewrite Hs.
    + csimpl. rewrite filter_app. f_equal. apply list_filter_iff. intros k.
      by rewrite (sent_each_connected _ _ _ _ k H1).
Qed.

(** Whom an output is meant for: results for the clients interested in the query,
    messages and errors for the client they name. *)
Inductive meant_for interests : Output → N → Prop :=
| meant_diff name results clients k :
    interests !! name = Some clients → k ∈ clients → meant_for interests (QueryDiff name results) k
| meant_json name value t r clients k :
    interests !! name = Some clients → k ∈ clients → meant_for interests (Json name value t r) k
| meant_message client msg : meant_for interests (Message client msg) client
| meant_error client err t : meant_for interests (OError client err t) client.

(** The texts of the outputs that are meant for a client, in order. *)
Inductive texts_for interests k : list Output → list WsMessage → Prop :=
| texts_nil : texts_for interests k [] []
| texts_meant out outs text msgs :
    meant_for interests out k → serialize out = Some text →
    texts_for interests k outs msgs → texts_for interests k (out :: outs) (Text text :: msgs)
| texts_other out outs msgs :
    ¬ meant_for interests out k → texts_for interests k outs msgs → texts_for interests k (out :: outs) msgs.

Lemma output_tokens_meant interests out k : k ∈ output_tokens interests out ↔ meant_for interests out k.
Proof.
  split.
  - destruct out as [name results|name value t r|client msg|client err t]; simpl;
      [destruct (interests !! name) as [clients|] eqn:Hn..| |];
      rewrite ?token_iter_perm, ?elem_of_elements, ?list_elem_of_singleton; intros Hk;
      try (by apply elem_of_nil in Hk); subst; by econstructor.
  - intros []; simpl; rewrite ?list_elem_of_singleton; try done;
      match goal with H : interests !! _ = Some _ |- _ => rewrite H end; by rewrite token_iter_perm, elem_of_elements.
Qed.

Lemma messages_texts interests outs k :
  Forall (λ out, is_Some (serialize out)) outs → texts_for interests k outs (messages_for interests outs k).
Proof.
  induction 1 as [|out outs [text Ht] _ IH]; [constructor|]. unfold messages_for. csimpl.
  fold (messages_for interests outs k). unfold output_text. rewrite Ht. case_decide as Hk; simpl.
  - constructor; [by apply output_tokens_meant|done..].
  - constructor; [by rewrite <- output_tokens_meant|done].
Qed.

Lemma delivered_serialize interests self outs self' :
  deliver_outputs serialize interests self outs = Ret self' → Forall (λ out, is_Some (serialize out)) outs.
Proof.
  revert self. induction outs as [|out outs IH]; intros self; cbn [deliver_outputs]; [constructor|].
  intros (s1 & H1 & H2%IH)%obind_Ret. constructor; [|done]. unfold deliver_output in H1.
  destruct (serialize out); [by eexists|done].
Qed.

(** C19 (outputs reach the interested clients).  When the step gets to the channel
    and nothing fails, the channel is emptied; every connected client has been
    sent the texts of the outputs that are meant for it, the results of the queries
    it is interested in and the messages and errors that name it, in the order of
    the channel, each once, and nothing else; no connection appears; and, output by
    output, exactly the clients an output is meant for that are not connected are
    reported as disconnected. *)
Theorem io_results_spec interests self self' :
  io_results serialize interests self = Ret self' →
  recv self' = [] ∧ next_connection_id self' = next_connection_id self ∧
  (∀ k, match slab_get (connections self) k with
        | Some conn => ∃ conn' msgs, texts_for interests k (recv self) msgs ∧
                       conn_sends conn msgs = Some conn' ∧ slab_get (connections self') k = Some conn'
        | None => slab_get (connections self') k = None
        end) ∧
  ∃ gone, domain_events self' = domain_events self ++ (Disconnected <$> concat gone) ∧
    Forall2 (λ out clients, NoDup clients ∧
      ∀ k, k ∈ clients ↔ meant_for interests out k ∧ ¬ connected self k) (recv self) gone.
Proof.
  intros (s1 & Hd & [= <-])%obind_Ret. pose proof (delivered_serialize _ _ _ _ Hd) as Hser.
  apply deliver_outputs_spec in Hd as [Hc He Hr Hi].
  split; [done|]. split; [done|]. split.
  - intros k. specialize (Hc k). simpl in *.
    destruct (slab_get _ k) as [conn|]; [|done]. destruct Hc as [Hc [conn' Hs]].
    exists conn', (messages_for interests (recv self) k). split; [by apply messages_texts|].
    by rewrite <- Hc.
  - exists ((λ out, filter (λ k, ¬ connected self k) (output_tokens interests out)) <$> recv self). split.
    + simpl in He |- *. rewrite He. do 2 f_equal. clear. induction (recv self) as [|out outs IH]; [done|].
      rewrite bind_cons, filter_app, IH. done.
    + apply Forall2_fmap_r. generalize (recv self) as outs. induction outs as [|out outs IH]; constructor; [|exact IH].
      split; [apply NoDup_filter, output_tokens_NoDup|]. intros k.
      rewrite list_elem_of_filter, output_tokens_meant. tauto.
Qed.

(** ** Requests *)

(** What a client's messages become: domain events, and errors sent back. *)
Definition message_events k (evs : list ConnEvent) : list (DomainEvent Request) :=
  evs ≫= λ ev, match ev with
               | CMessage (Text text) => match parse_requests text with Ok reqs => [Requests k reqs] | Err _ => [] end
               | _ => []
               end.
Definition message_errors t k (evs : list ConnEvent) : list Output :=
  evs ≫= λ ev, match ev with
               | CMessage (Text text) => match parse_requests text with
                                         | Ok _ => []
                                         | Err e => [OError k (Error_incorrect e) t]
                                         end
               | _ => []
               end.

Lemma messages_spec t k self evs self' :
  io_messages parse_requests t k self evs = Ret self' →
  domain_events self' = domain_events self ++ message_events k evs ∧
  recv self' = recv self ++ message_errors t k evs ∧
  connections self' = connections self ∧ next_connection_id self' = next_connection_id self.
Proof.
  revert self. induction evs as [|ev evs IH]; intros self; cbn [io_messages].
  - intros [= <-]. by rewrite !app_nil_r.
  - intros (s1 & H1 & (He & Hr & Hc & Hi)%IH)%obind_Ret. rewrite He, Hr, Hc, Hi.
    destruct ev as [[text|bytes]|code reason|]; simpl in H1; [|done|by injection H1 as <-..].
    unfold message_events, message_errors. csimpl.
    destruct (parse_requests text); injection H1 as <-; simpl; by rewrite <- ?app_assoc.
Qed.

(** A call of the library left the connection in this state and reported these
    events; its error, if any, has been handed to the connection. *)
Definition call_left (r : C * list ConnEvent * option (ws_error C)) (conn : C) (evs : list ConnEvent) : Prop :=
  evs = r.1.2 ∧ conn = match r.2 with Some err => conn_error r.1.1 err | None => r.1.1 end.

(** C24 (requests are read in order).  Handling an event of a connection reads if the
    event is readable and the connection wants to read, then writes if the event is
    writable and the connection then wants to write, and hands the connection the
    error either reports.  Of the events read and then written, every message that
    parses becomes a domain event, in order, every message that does not is answered
    with an error at the current transaction, and a connection left with nothing to
    wait for is removed and reported, after the requests it sent. *)
Theorem io_connection_spec t self event conn self' :
  slab_get (connections self) (ev_token event) = Some conn →
  io_connection parse_requests t self event = Ret self' →
  let k := ev_token event in
  ∃ conn1 read conn2 written,
    (if is_readable (ev_ready event) && is_readable (conn_events conn)
     then call_left (conn_read conn (ev_input event)) conn1 read
     else conn1 = conn ∧ read = []) ∧
    (if is_writable (ev_ready event) && is_writable (conn_events conn1)
     then call_left (conn_write conn1) conn2 written
     else conn2 = conn1 ∧ written = []) ∧
    let evs := read ++ written in
    let active := is_readable (conn_events conn2) || is_writable (conn_events conn2) in
    domain_events self' = domain_events self ++ message_events k evs ++ (if active then [] else [Disconnected k]) ∧
    recv self' = recv self ++ message_errors t k evs ∧
    slab_get (connections self') k = (if active then Some conn2 else None) ∧
    ∀ k', k' ≠ k → slab_get (connections self') k' = slab_get (connections self) k'.
Proof.
  intros Hk. unfold io_connection, index_connection. rewrite Hk. simpl. unfold conn_exchange, ready_and. simpl.
  assert (∀ r : C * list ConnEvent * option (ws_error C), call_left r (conn_done r).1 (conn_done r).2) as Hleft
    by (by intros [[c evs] [err|]]).
  set (r1 := if is_readable (ev_ready event) && is_readable (conn_events conn) then _ else _).
  assert (if is_readable (ev_ready event) && is_readable (conn_events conn)
     then call_left (conn_read conn (ev_input event)) r1.1 r1.2 else r1.1 = conn ∧ r1.2 = []) as H1
    by (subst r1; destruct (is_readable (ev_ready event) && is_readable (conn_events conn)); [apply Hleft|done]).
  destruct r1 as [conn1 read]. simpl in H1.
  set (r2 := if is_writable (ev_ready event) && is_writable (conn_events conn1) then _ else _).
  assert (if is_writable (ev_ready event) && is_writable (conn_events conn1)
     then call_left (conn_write conn1) r2.1 r2.2 else r2.1 = conn1 ∧ r2.2 = []) as H2
    by (subst r2; destruct (is_writable (ev_ready event) && is_writable (conn_events conn1)); [apply Hleft|done]).
  destruct r2 as [conn2 written]. simpl in H2. clear Hleft.
  intros (s1 & (He & Hr & Hc & Hi)%messages_spec & Hend)%obind_Ret.
  exists conn1, read, conn2, written. split; [exact H1|]. split; [exact H2|]. clear H1 H2. cbv zeta.
  rewrite Hc in Hend. simpl in *. rewrite slab_get_insert, decide_True in Hend by done. simpl in Hend.
  destruct (is_readable (conn_events conn2) || is_writable (conn_events conn2));
    simpl in Hend; injection Hend as <-; simpl; rewrite ?Hc, ?He, ?Hr.
  - rewrite app_nil_r, slab_get_insert, decide_True by done. split_and!; [done..|].
    intros k' Hne. by rewrite slab_get_insert, decide_False.
  - rewrite slab_get_remove, decide_True, app_assoc by done. split_and!; [done..|].
    intros k' Hne. by rewrite slab_get_remove, slab_get_insert, !decide_False.
Qed.
End network.
