(* ===== verification/Worker.v ===== *)
(** * Workers and the sequencer (src/server/src/main.rs)

    One iteration of a worker's event loop: due ticks and client requests become
    commands for the sequencer, the commands the sequencer delivers are handled,
    what they send joins the channel to the clients, the dataflows run, and the
    domain advances.  The sequencer hands all workers the same commands in the same
    order, each worker its preloaded command first; a system of workers is a step
    relation around it.  Clock readings, the poll's events, what the dataflows
    send and schedule while the worker steps are inputs of an iteration. *)
From Stdlib Require Import ZArith NArith Lia.
From stdpp Require Import base strings numbers sets gmap list.
From S2P Require Import Prelude Timestamps Values Outputs Bindings HectorPlan Sessions Scheduling Weighted.
From S2P Require Import Dataflow Domains ScopedDomains Relations PlanOps Plans Rules Server EventLoop Networking.

Section worker.
Context `{EV : ExternValues, DF : Differential, SI : SetIteration, TM : !Timely N, TR : !Traces N}.
Context `{TI : TokenIteration} {C : Type} `{SL : !Slab C, WS : !WebSocket C}.
Context {Weak Activator : Type} (upgrade : Weak → option Activator).
Context `{BH : !BinaryHeap (TimedActivator Weak), BF : !BinaryHeap (FrontieredActivator Weak N)}.
Context {Source Sink : Type}.

Abbreviation Pairs := (Collection (Value * Value) Z) (only parsing).
Abbreviation Handle := (ShutdownHandle (Button (T := N))) (only parsing).
Abbreviation Req := (Request Source Sink) (only parsing).
Abbreviation Cmd := (Command Source Sink) (only parsing).

Context (set_semantics : bool) (delta_join : Domain N Rule → Hector → outcome (Implemented * Handle)).
Context (last_write_wins : Pairs → Pairs).
Context (attribute_streams : Source → list (Sourced N)) (run_sink : Sink → Result unit Error).
Context (input : Aid → Pairs).
Context (parse_requests : string → Result (list Req) string) (serialize : Output → option string).

Record Worker := mkWorker {
  wk_index : N;
  wk_timer : N;
  wk_loop : Loop;
  wk_io : IO (C:=C) (Request:=Req);
  wk_scheduler : Scheduler (Weak:=Weak) (T:=N)
}.

Definition Server_builtins : list Req := [].

(** The preloaded command, and the first tick. *)
Definition preload_command (index : N) : Cmd := mkCommand index SYSTEM Server_builtins.
Definition kickoff (index : N) (config : Configuration) : list Cmd :=
  if (index =? 0)%N && bool_decide (is_Some (cf_tick config))
  then [mkCommand 0 SYSTEM [RTick]] else [].

Definition Worker_new (index timer : N) (config : Configuration) : Worker :=
  mkWorker index timer (Loop_new config) IO_new Scheduler_from.

(** ** One iteration *)

Record Iteration := mkIteration {
  it_clock : nat → N;
  it_events : list (IOEvent C);
  it_commands : list (Cmd * Duration);
  it_outputs : list Output;
  it_scheduled : list (TimedActivator Weak);
  it_parked : N
}.

(** [if server.scheduler.borrow().has_pending()]: activators are activated, ticks
    become commands.  Asking reads the clock, and so does every [next]. *)
Definition event_command (index : N) (event : Event) : Cmd :=
  match event with Tick => mkCommand index SYSTEM [RTick] end.

Definition run_scheduler (self : Worker) (clock : nat → N)
    : outcome (Scheduler (Weak:=Weak) (T:=N) * list Activator * list Cmd) :=
  let scheduler := wk_scheduler self in
  if Scheduler_has_pending scheduler (probe (lp_server (wk_loop self))) (clock 0) then
    let! drained := RealtimeScheduler_drain (S (length (rt_elems (sch_realtime scheduler))))
                      (sch_realtime scheduler) (λ i, clock (S i)) in
    let! '(due, realtime) := expect "out of fuel" drained in
    let scheduled := TimedActivator_schedule upgrade <$> due in
    Ret (mkScheduler (sch_frontier scheduler) realtime, scheduled ≫= fst,
         event_command (wk_index self) <$> omap snd scheduled)
  else Ret (scheduler, [], []).

(** [while let Some(event) = io.next()]. *)
Definition domain_command (index : N) (event : DomainEvent Req) : Cmd :=
  match event with
  | Requests token requests => mkCommand index token requests
  | Disconnected token => mkCommand index token [Disconnect]
  end.

Fixpoint drain_io (fuel : nat) (index : N) (io : IO (C:=C) (Request:=Req)) : list Cmd * IO :=
  match fuel with
  | O => ([], io)
  | S fuel =>
      match IO_next io with
      | (None, io) => ([], io)
      | (Some event, io) =>
          let '(commands, io) := drain_io fuel index io in (domain_command index event :: commands, io)
      end
  end.

(** [while let Some(command) = sequencer.next()]. *)
Fixpoint handle_commands (self : Loop) (index : N) (commands : list (Cmd * Duration)) : outcome Loop :=
  match commands with
  | [] => Ret self
  | (command, now) :: commands =>
      let! self := handle_command set_semantics delta_join last_write_wins attribute_streams run_sink
                     input self index now command in
      handle_commands self index commands
  end.

(** [event_at(worker.timer() + interval_end, SchedulingEvent::Tick)]. *)
Definition schedule_ticks (timer : N) (realtime : RealtimeScheduler Weak) (ticks : list Duration)
    : RealtimeScheduler Weak :=
  foldl (λ realtime interval_end,
    RealtimeScheduler_event_at realtime (timer + total_nanos interval_end)%N Tick) realtime ticks.

Definition schedule_activators (realtime : RealtimeScheduler Weak) (l : list (TimedActivator Weak))
    : RealtimeScheduler Weak :=
  foldl (λ realtime a, mkRealtime (heap_push (rt_queue realtime) a)) realtime l.

(** What the loop collected moves to the channel and the scheduler. *)
Definition flush_loop (self : Loop) : Loop :=
  mkLoop (lp_server self) (next_tx self) (shutdown self) (lp_sym self) [] [].

(** The commands for the sequencer, the activated operators, and for how long the
    worker may park. *)
Record Done := mkDone { dn_commands : list Cmd; dn_activated : list Activator; dn_delay : N }.

Definition iteration (self : Worker) (it : Iteration) : outcome (Worker * Done) :=
  let! '(scheduler, activated, tick_commands) := run_scheduler self (it_clock it) in
  let! io := IO_step parse_requests serialize (wk_io self) (next_tx (wk_loop self))
               (interests (lp_server (wk_loop self))) (it_events it) in
  let '(io_commands, io) := drain_io (S (length (domain_events io))) (wk_index self) io in
  let! loop := handle_commands (wk_loop self) (wk_index self) (it_commands it) in
  let io := foldl io_send io (sent loop ++ it_outputs it) in
  let realtime := schedule_activators
    (schedule_ticks (wk_timer self) (sch_realtime scheduler) (ticks loop)) (it_scheduled it) in
  let! loop := advance_domain (flush_loop loop) in
  let delay := default 100000000%N (RealtimeScheduler_until_next realtime (it_parked it)) in
  Ret (mkWorker (wk_index self) (wk_timer self) loop io (mkScheduler (sch_frontier scheduler) realtime),
       mkDone (tick_commands ++ io_commands) activated delay).

(** [while !shutdown], over the inputs of the iterations to come. *)
Fixpoint run_worker (self : Worker) (its : list Iteration) : outcome (Worker * list Cmd) :=
  match its with
  | [] => Ret (self, [])
  | it :: its =>
      if shutdown (wk_loop self) then Ret (self, [])
      else
        let! '(self, done) := iteration self it in
        let! '(self, commands) := run_worker self its in
        Ret (self, dn_commands done ++ commands)
  end.

(** ** Workers around a sequencer *)

(** A worker, how many commands it has handled, and what it has pushed that the
    sequencer has not ordered yet. *)
Record Member := mkMember { me_worker : Worker; me_handled : nat; me_pushed : list Cmd }.

Record System := mkSystem { sy_log : list Cmd; sy_members : list Member }.

(** The commands a worker gets. *)
Definition commands_of (log : list Cmd) (index : N) : list Cmd := preload_command index :: log.

Definition Member_new (config : Configuration) (index timer : N) : Member :=
  mkMember (Worker_new index timer config) 0 (kickoff index config).

Definition system_start (config : Configuration) (timer : N) (workers : nat) : System :=
  mkSystem [] ((λ i, Member_new config (N.of_nat i) timer) <$> seq 0 workers).

Inductive system_step : System → System → Prop :=
| step_worker log ms1 w n pushed ms2 it w' done :
    shutdown (wk_loop w) = false →
    Forall (λ a, ta_event a = None) (it_scheduled it) →
    (it_commands it).*1 `prefix_of` drop n (commands_of log (wk_index w)) →
    iteration w it = Ret (w', done) →
    system_step (mkSystem log (ms1 ++ mkMember w n pushed :: ms2))
      (mkSystem log (ms1 ++ mkMember w' (n + length (it_commands it)) (pushed ++ dn_commands done) :: ms2))
| step_sequencer log ms1 w n command pushed ms2 :
    system_step (mkSystem log (ms1 ++ mkMember w n (command :: pushed) :: ms2))
      (mkSystem (log ++ [command]) (ms1 ++ mkMember w n pushed :: ms2)).
End worker.
