(* ===== verification/WorkerTheorems.v ===== *)
(** * Workers agree

    Every worker keeps the clients' interests; they are a function of the commands
    it has handled, and the sequencer gives all workers the same commands, so that
    workers that are equally far agree.  Within one iteration all that clients
    asked for, and all ticks that are due, become commands. *)
From Stdlib Require Import ZArith NArith Lia Sorting.Sorted.
From stdpp Require Import base strings numbers sets gmap list.
From S2P Require Import Prelude Timestamps Values Outputs Bindings HectorPlan Sessions Scheduling Weighted.
From S2P Require Import Dataflow Domains ScopedDomains Relations PlanOps Plans Rules Server ServerTheorems.
From S2P Require Import EventLoop Networking NetworkTheorems Worker.

Section workers.
Context `{EV : ExternValues, DF : Differential, SI : SetIteration, TM : !Timely N, TR : !Traces N}.
Context `{TI : TokenIteration} {C : Type} `{SL : !Slab C, WS : !WebSocket C}.
Context {Weak Activator : Type} (upgrade : Weak → option Activator).
Context `{BH : !BinaryHeap (TimedActivator Weak), BF : !BinaryHeap (FrontieredActivator Weak N)}.
Context {Source Sink : Type}.
Abbreviation Pairs := (Collection (Value * Value) Z) (only parsing).
Abbreviation Handle := (ShutdownHandle (Button (T := N))) (only parsing).
Abbreviation Req := (Request Source Sink) (only parsing).
Abbreviation Cmd := (Command Source Sink) (only parsing).
Context (set_semantics : bool) (delta_join : Domain N Rule → Hector → outcome (Implemented * Handle)).
Context (last_write_wins : Pairs → Pairs).
Context (attribute_streams : Source → list (Sourced N)) (run_sink : Sink → Result unit Error).
Context (input : Aid → Pairs).
Context (parse_requests : string → Result (list Req) string) (serialize : Output → option string).
Abbreviation handle_request := (handle_request set_semantics delta_join last_write_wins attribute_streams run_sink input).
Abbreviation handle_requests := (handle_requests set_semantics delta_join last_write_wins attribute_streams run_sink input).
Abbreviation handle_command := (handle_command set_semantics delta_join last_write_wins attribute_streams run_sink input).
Abbreviation handle_commands := (handle_commands set_semantics delta_join last_write_wins attribute_streams run_sink input).
Abbreviation iteration := (iteration upgrade set_semantics delta_join last_write_wins attribute_streams run_sink
  input parse_requests serialize).
Abbreviation system_step := (system_step upgrade set_semantics delta_join last_write_wins attribute_streams run_sink
  input parse_requests serialize).
Implicit Types (l : Loop) (s : Server N N) (c : N) (name : Aid) (req : Req) (cmds : list Cmd).

(** ** Interests as a function of the requests *)

Definition after_request (client : N) req name c (before : bool) : bool :=
  match req with
  | Subscribe aid => bool_decide (client = c ∧ aid = name) || before
  | RInterest i => bool_decide (client = c ∧ in_name i = name) || before
  | Uninterest n => negb (bool_decide (client = c ∧ n = name)) && before
  | Disconnect => negb (bool_decide (client = c)) && before
  | _ => before
  end.

(** The requests of the commands, with their clients. *)
Definition history cmds : list (N * Req) := cmds ≫= λ cmd, (λ req, (client cmd, req)) <$> requests cmd.

Definition interested (h : list (N * Req)) name c : bool :=
  foldl (λ b cr, after_request cr.1 cr.2 name c b) false h.

(** Who a server takes to be interested. *)
Definition is_interested s name c : bool := bool_decide (c ∈ default ∅ (interests s !! name)).

Lemma same_interests s s' name c : interests s' = interests s → is_interested s' name c = is_interested s name c.
Proof. unfold is_interested. by intros ->. Qed.

Lemma add_interest_after s name0 client name c :
  is_interested (add_interest s name0 client) name c =
  bool_decide (client = c ∧ name0 = name) || is_interested s name c.
Proof.
  unfold is_interested, add_interest. simpl. apply eq_true_iff_eq.
  rewrite orb_true_iff, !bool_decide_eq_true, lookup_insert. case_decide as Heq; simpl.
  - subst. set_solver.
  - naive_solver.
Qed.

Lemma uninterested_after s client names s' pressed name c :
  uninterested s client names s' pressed →
  is_interested s' name c =
  negb (bool_decide (client = c ∧ name ∈ names)) && is_interested s name c.
Proof.
  intros [_ _ Hi _ _]. unfold is_interested. rewrite Hi. apply eq_true_iff_eq.
  rewrite andb_true_iff, negb_true_iff, bool_decide_eq_false, !bool_decide_eq_true.
  case_decide as Hn; [|tauto]. destruct (interests s !! name) as [cs|]; simpl; [|set_solver].
  unfold without. case_decide as He; simpl; set_solver.
Qed.

Lemma requested_interests l worker_index now owner client req l' r name c :
  handle_request l worker_index now owner client req = Ret (l', r) →
  is_interested (lp_server l') name c = after_request client req name c (is_interested (lp_server l) name c).
Proof.
  intros Hh. destruct req as [tx|aid|i|n|reg|source|n cfg|n next| |n| | | |]; cbn in Hh; cbn [after_request].
  - unfold Server_transact in Hh. apply obind_Ret in Hh as ([s1 r1] & Ht & [= <- <-]).
    destruct (_ =? _)%N; [apply obind_Ret in Ht as ([d r2] & _ & Ht)|]; by injection Ht as <- <-.
  - unfold handle_subscribe in Hh. rewrite <- add_interest_after.
    case_bool_decide; [by injection Hh as <- <-|]. by apply obind_Ret in Hh as (tr & _ & [= <- <-]).
  - unfold handle_interest in Hh. rewrite <- add_interest_after.
    destruct (bool_decide (default ∅ _ = ∅)); [|by injection Hh as <- <-].
    apply obind_Ret in Hh as ([[[s1 rel] p] sym] & Hi & Hh). 
    assert (interests s1 = interests (add_interest (lp_server l) (in_name i) client)) as Hs1.
    { unfold Server_interest in Hi. apply obind_Ret in Hi as ([impl sym1] & _ & Hi).
      destruct impl as [[rel_map h]|e]; [destruct (rel_map !! _)|]; by injection Hi as <- <- <- <-. }
    rewrite <- (same_interests _ _ name c Hs1).
    destruct rel; [|by injection Hh as <- <-]. apply obind_Ret in Hh as (g & _ & Hh).
    destruct (in_sink i); by injection Hh as <- <-.
  - destruct (uninterest_one (lp_server l) client n) as (s1 & p & Heq & Hu). rewrite Heq in Hh.
    injection Hh as <- <-. simpl. rewrite (uninterested_after _ _ _ _ _ _ _ Hu). do 2 f_equal.
    apply bool_decide_ext. set_solver.
  - by injection Hh as <- <-.
  - apply obind_Ret in Hh as ([s1 r1] & Hr & [= <- <-]). by apply obind_Ret in Hr as (d & _ & [= <- <-]).
  - apply obind_Ret in Hh as ([s1 r1] & Hr & [= <- <-]). unfold Server_create_attribute in Hr.
    apply obind_Ret in Hr as (sd & _ & Hr). by apply obind_Ret in Hr as (d & _ & [= <- <-]).
  - apply obind_Ret in Hh as (t & _ & Hh). apply obind_Ret in Hh as ([s1 r1] & Hr & [= <- <-]).
    unfold Server_advance_domain in Hr. destruct n; [by injection Hr as <- <-|].
    by apply obind_Ret in Hr as ([d r2] & _ & [= <- <-]).
  - unfold handle_tick in Hh. destruct (_ =? _)%N; [|by injection Hh as <- <-].
    destruct (cf_tick _); [by apply obind_Ret in Hh as (e & _ & [= <- <-])|by injection Hh as <- <-].
  - by apply obind_Ret in Hh as ([[d r1] q] & _ & [= <- <-]).
  - unfold Server_disconnect_client in Hh.
    destruct (uninterest_all_spec (lp_server l) client (map_to_list (interests (lp_server l))).*1)
      as (s1 & p & Heq & Hu); [apply NoDup_fst_map_to_list|]. rewrite Heq in Hh.
    injection Hh as <- <-. simpl. rewrite (uninterested_after _ _ _ _ _ _ _ Hu). apply eq_true_iff_eq.
    rewrite !andb_true_iff, !negb_true_iff, !bool_decide_eq_false. unfold is_interested. rewrite bool_decide_eq_true.
    split; intros [Hne Hin]; (split; [|done]).
    + intros ->. apply Hne. split; [done|]. destruct (interests (lp_server l) !! name) as [cs|] eqn:Hcs;
        [|by apply not_elem_of_empty in Hin].
      apply list_elem_of_fmap. exists (name, cs). split; [done|]. by apply elem_of_map_to_list.
    + by intros [-> _].
  - done.
  - by injection Hh as <- <-.
  - by injection Hh as <- <-.
Qed.

Lemma request_next_tx l worker_index now owner client req l' r :
  handle_request l worker_index now owner client req = Ret (l', r) → next_tx l' = next_tx l.
Proof.
  intros Hh. destruct req; cbn in Hh; unfold handle_subscribe, handle_interest, handle_tick in Hh;
    repeat first [progress outcome_inv | case_match]; done.
Qed.

Lemma requests_interests l worker_index now owner client last_tx reqs l' name c :
  handle_requests l worker_index now owner client last_tx reqs = Ret l' →
  is_interested (lp_server l') name c =
    foldl (λ b cr, after_request cr.1 cr.2 name c b) (is_interested (lp_server l) name c)
      ((λ req, (client, req)) <$> reqs) ∧
  next_tx l' = next_tx l.
Proof.
  revert l. induction reqs as [|req reqs IH]; intros l Hh; cbn in Hh; [by injection Hh as <-|].
  apply obind_Ret in Hh as ([l1 r] & H1 & Hh). pose proof (requested_interests _ _ _ _ _ _ _ _ name c H1) as Hi.
  pose proof (request_next_tx _ _ _ _ _ _ _ _ H1) as Hn.
  apply IH in Hh as [-> ->]. rewrite fmap_cons. simpl. rewrite <- Hi, <- Hn. by destruct r.
Qed.

(** ** Commands *)

Definition replay (h : list (N * Req)) name c (before : bool) : bool :=
  foldl (λ b cr, after_request cr.1 cr.2 name c b) before h.

(** The interests of a loop are those of another one after some commands. *)
Definition advanced_by l l' cmds : Prop :=
  (∀ name c, is_interested (lp_server l') name c =
     replay (history cmds) name c (is_interested (lp_server l) name c)) ∧
  next_tx l' = ((next_tx l + N.of_nat (length cmds)) mod 2 ^ 64)%N.

Lemma replay_app h h' name c b : replay (h ++ h') name c b = replay h' name c (replay h name c b).
Proof. apply foldl_app. Qed.

Lemma history_app cmds cmds' : history (cmds ++ cmds') = history cmds ++ history cmds'.
Proof. apply bind_app. Qed.

Lemma auto_advance_keeps l l' name c :
  auto_advance l = Ret l' → is_interested (lp_server l') name c = is_interested (lp_server l) name c ∧
  next_tx l' = next_tx l.
Proof.
  unfold auto_advance. destruct (manual_advance _); [by intros [= <-]|].
  intros ([d r] & _ & Hr)%obind_Ret. by destruct r; [injection Hr as <-|].
Qed.

Lemma advance_domain_keeps l l' :
  advance_domain l = Ret l' → interests (lp_server l') = interests (lp_server l) ∧ next_tx l' = next_tx l ∧
  shutdown l' = shutdown l.
Proof.
  intros ([d r] & _ & Hr)%obind_Ret. by destruct r; [injection Hr as <-|].
Qed.

Lemma command_advances l worker_index now cmd l' :
  handle_command l worker_index now cmd = Ret l' → advanced_by l l' [cmd].
Proof.
  intros (l1 & H1 & H2)%obind_Ret. split.
  - intros name c. destruct (requests_interests _ _ _ _ _ _ _ _ name c H1) as [Hi _].
    destruct (auto_advance_keeps _ _ name c H2) as [-> _]. rewrite Hi.
    unfold history. simpl. by rewrite app_nil_r.
  - destruct (requests_interests _ _ _ _ _ _ _ _ "" 0%N H1) as [_ Hn].
    destruct (auto_advance_keeps _ _ "" 0%N H2) as [_ ->]. by rewrite Hn.
Qed.

Lemma commands_advance l worker_index (cmds : list (Cmd * Duration)) l' :
  (next_tx l < 2 ^ 64)%N → handle_commands l worker_index cmds = Ret l' → advanced_by l l' cmds.*1.
Proof.
  revert l. induction cmds as [|[cmd now] cmds IH]; intros l Hl Hh; cbn in Hh.
  - injection Hh as <-. split; [done|]. simpl. by rewrite N.add_0_r, N.mod_small.
  - apply obind_Ret in Hh as (l1 & [Hi1 Hn1]%command_advances & Hh).
    apply IH in Hh as [Hi Hn]; [|rewrite Hn1; apply N.mod_lt; lia]. split.
    + intros name c. rewrite Hi, Hi1, <- replay_app, <- history_app. done.
    + rewrite Hn, Hn1, N.Div0.add_mod_idemp_l. f_equal. rewrite !length_fmap. cbn [length]. lia.
Qed.

Lemma iteration_advances w it w' done :
  (next_tx (wk_loop w) < 2 ^ 64)%N → iteration w it = Ret (w', done) →
  wk_index w' = wk_index w ∧ advanced_by (wk_loop w) (wk_loop w') (it_commands it).*1.
Proof.
  intros Hl ([[scheduler activated] ticks] & _ & (io & _ & Hit)%obind_Ret)%obind_Ret.
  destruct (drain_io _ _ io) as [cmds io']. apply obind_Ret in Hit as (l1 & H1%commands_advance & Hit); [|done].
  apply obind_Ret in Hit as (l2 & (Hi & Hn & _)%advance_domain_keeps & [= <- <-]). split; [done|]. simpl.
  destruct H1 as [Hi1 Hn1]. split; [|by rewrite Hn]. intros name c. rewrite <- Hi1. by apply same_interests.
Qed.

(** ** The sequencer *)

(** What a member's state is a function of. *)
Record member_agrees (log : list Cmd) (m : Member (C:=C) (Weak:=Weak) (Source:=Source) (Sink:=Sink)) : Prop := {
  ma_handled : me_handled m ≤ length (commands_of log (wk_index (me_worker m)));
  ma_interests name c :
    is_interested (lp_server (wk_loop (me_worker m))) name c =
    interested (history (take (me_handled m) (commands_of log (wk_index (me_worker m))))) name c;
  ma_next_tx : next_tx (wk_loop (me_worker m)) = (N.of_nat (me_handled m) mod 2 ^ 64)%N
}.

Lemma member_agrees_new log config index timer : member_agrees log (Member_new config index timer).
Proof. split; simpl; [lia| |done]. intros name c. unfold is_interested. simpl. by rewrite lookup_empty. Qed.

Lemma member_agrees_log log log' m : member_agrees log m → member_agrees (log ++ log') m.
Proof.
  intros [Hh Hi Hn]. assert (commands_of (log ++ log') (wk_index (me_worker m)) =
    commands_of log (wk_index (me_worker m)) ++ log') as Heq by done.
  split; rewrite ?Heq, ?length_app, ?take_app_le by done; [lia|done..].
Qed.

Lemma member_agrees_step log w n pushed it w' done pushed' :
  member_agrees log (mkMember w n pushed) →
  (it_commands it).*1 `prefix_of` drop n (commands_of log (wk_index w)) → iteration w it = Ret (w', done) →
  member_agrees log (mkMember w' (n + length (it_commands it)) pushed').
Proof.
  intros [Hh Hi Hn] [rest Hpre] Hit. simpl in *.
  destruct (iteration_advances w it w' done) as (Hidx & Hi' & Hn'); [rewrite Hn; apply N.mod_lt; lia|done|].
  set (log' := commands_of log (wk_index w)) in *. apply (f_equal length) in Hpre as Hlen.
  rewrite length_drop, length_app, length_fmap in Hlen.
  split; simpl; rewrite ?Hidx; fold log'.
  - change (length log') with (S (length log)) in Hlen. lia.
  - intros name c. rewrite Hi', Hi. unfold interested. change (foldl _ false ?h) with (replay h name c false).
    rewrite <- replay_app. f_equal. rewrite <- (take_drop n log') at 2. rewrite Hpre.
    rewrite take_app_add' by (by rewrite length_take_le). rewrite history_app. f_equal.
    rewrite take_app_length' by (by rewrite length_fmap). done.
  - rewrite Hn', Hn, length_fmap, N.Div0.add_mod_idemp_l. f_equal. lia.
Qed.

(** C7 (workers agree on the clients' interests).  However the iterations of the
    workers and the sequencer interleave, as long as no worker panics: the clients
    a worker takes to be interested in a name are those whose last request about
    it, among the commands the worker has handled, expressed interest, and the
    worker's transaction counter is the number of commands handled.  Hence workers
    that have handled equally many commands agree: each keeps the interests of all
    clients, not only, as the architecture document has it, of its own. *)
Theorem workers_agree config timer workers sy m :
  rtc system_step (system_start config timer workers) sy → m ∈ sy_members sy →
  me_handled m ≤ S (length (sy_log sy)) ∧
  (∀ name c, is_interested (lp_server (wk_loop (me_worker m))) name c =
     interested (history (take (pred (me_handled m)) (sy_log sy))) name c) ∧
  next_tx (wk_loop (me_worker m)) = (N.of_nat (me_handled m) mod 2 ^ 64)%N.
Proof.
  intros Hsteps Hm. cut (Forall (member_agrees (sy_log sy)) (sy_members sy)).
  { intros Hall. rewrite Forall_forall in Hall. destruct (Hall m Hm) as [Hh Hi Hn]. split_and!; [done| |done].
    intros name c. rewrite Hi. unfold commands_of. by destruct (me_handled m). }
  clear m Hm. assert (Forall (member_agrees (sy_log (system_start config timer workers)))
    (sy_members (system_start config timer workers))) as Hstart.
  { simpl. apply Forall_fmap, Forall_true. intros i. apply member_agrees_new. }
  revert Hstart. induction Hsteps as [|s1 s2 s3 Hstep _ IH]; intros Hstart; [done|]. apply IH. clear IH.
  destruct Hstep as [log ms1 w n pushed ms2 it w' done Hrun _ Hpre Hit|log ms1 w n command pushed ms2]; simpl in *;
    apply Forall_app in Hstart as [H1 [H H2]%Forall_cons].
  - apply Forall_app. split; [done|]. constructor; [by eapply member_agrees_step|done].
  - apply Forall_app. split; [|constructor]; try (eapply Forall_impl; [done|]; intros ?; apply member_agrees_log).
    apply (member_agrees_log log [command]) in H. by destruct H.
Qed.

(** ** What an iteration sends to the sequencer *)

Lemma drain_io_spec fuel index (io : IO (C:=C) (Request:=Req)) :
  length (domain_events io) < fuel →
  drain_io fuel index io =
    (domain_command index <$> domain_events io,
     mkIO [] (recv io) (connections io) (next_connection_id io) (armed io)).
Proof.
  revert io. induction fuel as [|fuel IH]; intros [evs r cs id ar]; simpl; [lia|].
  destruct evs as [|ev evs]; [done|]. simpl. intros Hlen. by rewrite IH by (simpl; lia).
Qed.

(** The ticks that are due, or queued. *)
Definition queued_ticks (realtime : RealtimeScheduler Weak) : nat := length (omap ta_event (rt_elems realtime)).
Definition due_ticks (realtime : RealtimeScheduler Weak) (now : N) : nat :=
  length (omap ta_event (filter (λ a, (ta_at a ≤ now)%N) (rt_elems realtime))).

Lemma tick_commands index (due : list (TimedActivator Weak)) :
  event_command index <$> omap snd (TimedActivator_schedule upgrade <$> due) =
  replicate (length (omap ta_event due)) (event_command (Source:=Source) (Sink:=Sink) index Tick).
Proof.
  induction due as [|a due IH]; [done|]. csimpl.
  destruct (ta_event a) as [[]|]; csimpl; [by f_equal|done].
Qed.

Lemma due_ticks_perm (realtime : RealtimeScheduler Weak) now due rest :
  rt_elems realtime ≡ₚ due ++ rest → Forall (λ a, (ta_at a ≤ now)%N) due → Forall (λ a, (now < ta_at a)%N) rest →
  due_ticks realtime now = length (omap ta_event due).
Proof.
  intros Hperm Hdue Hrest. unfold due_ticks. rewrite Hperm, filter_app.
  assert (filter (λ a, (ta_at a ≤ now)%N) rest = []) as ->.
  { clear -Hrest. induction Hrest; [done|]. rewrite filter_cons, decide_False by lia. done. }
  rewrite app_nil_r. do 2 f_equal. clear -Hdue. induction Hdue; [done|].
  rewrite filter_cons, decide_True by lia. by f_equal.
Qed.

(** The clock does not go back. *)
Definition forward (clock : nat → N) : Prop := ∀ i j, i ≤ j → (clock i ≤ clock j)%N.

Lemma run_scheduler_spec (w : Worker (C:=C) (Weak:=Weak) (Source:=Source) (Sink:=Sink)) clock scheduler activated cmds :
  run_scheduler upgrade w clock = Ret (scheduler, activated, cmds) →
  let realtime := sch_realtime (wk_scheduler w) in
  ∃ n, cmds = replicate n (event_command (wk_index w) Tick) ∧
    queued_ticks realtime = n + queued_ticks (sch_realtime scheduler) ∧
    (forward clock → ∃ last, n = due_ticks realtime (clock last)).
Proof.
  intros Hrun realtime. unfold run_scheduler in Hrun.
  destruct (Scheduler_has_pending (wk_scheduler w) _ (clock 0)) eqn:Hp.
  - destruct (realtime_drain_ok realtime (λ i, clock (S i)) (S (length (rt_elems realtime)))) as
      (due & rest & Hdrain & Hperm & Hdue & Hrest & _); [lia|].
    unfold realtime in Hdrain. rewrite Hdrain in Hrun. cbn [obind expect] in Hrun. injection Hrun as <- _ <-.
    exists (length (omap ta_event due)). rewrite tick_commands. split; [done|]. split.
    + unfold queued_ticks. by rewrite Hperm, omap_app, length_app.
    + intros Hfwd. exists (S (length due)). symmetry. apply (due_ticks_perm _ _ _ _ Hperm); [|exact Hrest].
      apply Forall_lookup_2. intros i a Ha. etransitivity; [by apply (Hdue i)|]. apply Hfwd.
      apply lookup_lt_Some in Ha. lia.
  - injection Hrun as <- _ <-. exists 0. split; [done|]. split; [done|]. intros _. exists 0.
    apply orb_false_iff in Hp as [_ Hp]. rewrite (due_ticks_perm _ _ [] (rt_elems realtime)); try done.
    apply Forall_forall. intros a Ha. apply N.lt_nge. intros Hle.
    assert (RealtimeScheduler_has_pending realtime (clock 0) = true); [|by unfold realtime in *; congruence].
    apply rt_has_pending_iff. eauto.
Qed.

(** C23 (an iteration forwards everything).  An iteration sends to the sequencer one
    tick for each that is due (at the last of the scheduler's clock readings, if the
    clock does not go back), then a command for each request message and each
    disconnection of its I/O step, in the order in which they were found; nothing
    of it is left for the next iteration.  The outputs of the requests and of the
    dataflows are in the channel, behind what the step left there. *)
Theorem iteration_forwards w it w' done :
  iteration w it = Ret (w', done) →
  ∃ io loop n,
    IO_step parse_requests serialize (wk_io w) (next_tx (wk_loop w)) (interests (lp_server (wk_loop w)))
      (it_events it) = Ret io ∧
    handle_commands (wk_loop w) (wk_index w) (it_commands it) = Ret loop ∧
    dn_commands done =
      replicate n (event_command (wk_index w) Tick) ++ (domain_command (wk_index w) <$> domain_events io) ∧
    (forward (it_clock it) → ∃ last, n = due_ticks (sch_realtime (wk_scheduler w)) (it_clock it last)) ∧
    domain_events (wk_io w') = [] ∧ recv (wk_io w') = recv io ++ sent loop ++ it_outputs it ∧
    connections (wk_io w') = connections io ∧ armed (wk_io w') = armed io.
Proof.
  intros ([[scheduler activated] cmds] & (n & -> & _ & Hn)%run_scheduler_spec & (io & Hio & Hit)%obind_Ret)%obind_Ret.
  rewrite drain_io_spec in Hit by lia. apply obind_Ret in Hit as (loop & Hloop & Hit).
  apply obind_Ret in Hit as (loop' & _ & [= <- <-]). exists io, loop, n. cbn [wk_io dn_commands].
  assert (∀ outs (io0 : IO (C:=C) (Request:=Req)), foldl io_send io0 outs =
    mkIO (domain_events io0) (recv io0 ++ outs) (connections io0) (next_connection_id io0) (armed io0)) as Hsend.
  { induction outs as [|out outs IH]; intros [a b c d e]; simpl; [by rewrite app_nil_r|]. rewrite IH. simpl.
    by rewrite <- app_assoc. }
  by rewrite Hsend.
Qed.
End workers.
