(* ===== verification/TickTheorems.v ===== *)
(** * Ticks are neither lost nor multiplied

    With a tick interval configured, the first worker pushes one tick when it
    starts.  A tick is queued in a scheduler, or among the commands on their way to
    the first worker: there is always exactly one, as long as clients send none. *)
From Stdlib Require Import ZArith NArith Lia.
From stdpp Require Import base strings numbers sets gmap list.
From S2P Require Import Prelude Timestamps Values Outputs Bindings HectorPlan Sessions Scheduling Weighted.
From S2P Require Import Dataflow Domains ScopedDomains Relations PlanOps Plans Rules Server ServerTheorems.
From S2P Require Import EventLoop LoopTheorems Networking NetworkTheorems Worker WorkerTheorems.

Section ticks.
Context `{EV : ExternValues, DF : Differential, SI : SetIteration, TM : !Timely N, TR : !Traces N}.
Context `{TI : TokenIteration} {C : Type} `{SL : !Slab C, WS : !WebSocket C}.
Context {Weak Activator : Type} (upgrade : Weak → option Activator).
Context `{BH : !BinaryHeap (TimedActivator Weak), BF : !BinaryHeap (FrontieredActivator Weak N)}.
Context {Source Sink : Type}.
Abbreviation Pairs := (Collection (Value * Value) Z) (only parsing).
Abbreviation Handle := (ShutdownHandle (Button (T := N))) (only parsing).
Abbreviation Req := (Request Source Sink) (only parsing).
Abbreviation Cmd := (Command Source Sink) (only parsing).
Context (set_semantics : bool) (delta_join : Domain N Rule → Hector → outcome (Implemented * Handle)).
Context (last_write_wins : Pairs → Pairs).
Context (attribute_streams : Source → list (Sourced N)) (run_sink : Sink → Result unit Error).
Context (input : Aid → Pairs).
Context (parse_requests : string → Result (list Req) string) (serialize : Output → option string).
Abbreviation handle_request := (handle_request set_semantics delta_join last_write_wins attribute_streams run_sink input).
Abbreviation handle_requests := (handle_requests set_semantics delta_join last_write_wins attribute_streams run_sink input).
Abbreviation handle_command := (handle_command set_semantics delta_join last_write_wins attribute_streams run_sink input).
Abbreviation handle_commands := (handle_commands set_semantics delta_join last_write_wins attribute_streams run_sink input).
Abbreviation iteration := (iteration upgrade set_semantics delta_join last_write_wins attribute_streams run_sink
  input parse_requests serialize).
Abbreviation system_step := (system_step upgrade set_semantics delta_join last_write_wins attribute_streams run_sink
  input parse_requests serialize).
Abbreviation Member := (Member (C:=C) (Weak:=Weak) (Source:=Source) (Sink:=Sink)).
Implicit Types (l : Loop) (req : Req) (cmds : list Cmd).

(** ** Ticks in commands *)

Definition is_tick req : bool := match req with RTick => true | _ => false end.
Definition ticks_among (reqs : list Req) : nat := length (filter (λ req, is_tick req = true) reqs).
Definition ticks_in cmds : nat := sum_list_with (λ cmd, ticks_among (requests cmd)) cmds.

Lemma ticks_in_app cmds cmds' : ticks_in (cmds ++ cmds') = ticks_in cmds + ticks_in cmds'.
Proof. unfold ticks_in. induction cmds as [|cmd cmds IH]; simpl; [done|]. rewrite IH. lia. Qed.

(** The first worker answers a tick by scheduling the next. *)
Lemma request_ticks l worker_index now owner client req l' r :
  is_Some (cf_tick (config (lp_server l))) →
  handle_request l worker_index now owner client req = Ret (l', r) →
  config (lp_server l') = config (lp_server l) ∧
  length (ticks l') = length (ticks l) + (if (worker_index =? 0)%N && is_tick req then 1 else 0).
Proof.
  intros [tick Htick] Hh. destruct (worker_index =? 0)%N eqn:Hidx; destruct req; cbn in Hh; cbn [is_tick andb];
    unfold handle_subscribe, handle_interest, handle_tick, Server_transact, Server_register_source,
      Server_create_attribute, Server_advance_domain in Hh; rewrite ?Hidx, ?Htick in Hh.
  all: try (destruct (uninterest_one (lp_server l) client name) as (s1 & p & Heq & [_ Hcf _ _ _]);
    rewrite Heq in Hh; injection Hh as <- <-; simpl; rewrite Hcf; split; [done|lia]).
  all: try (unfold Server_disconnect_client in Hh;
    destruct (uninterest_all_spec (lp_server l) client (map_to_list (interests (lp_server l))).*1)
      as (s1 & p & Heq & [_ Hcf _ _ _]); [apply NoDup_fst_map_to_list|]; rewrite Heq in Hh;
    injection Hh as <- <-; simpl; rewrite Hcf; split; [done|lia]).
  all: repeat first [progress outcome_inv | case_match];
    repeat match goal with Hi : Server_interest _ _ _ _ _ = Ret _ |- _ => apply interest_keeps in Hi as (_ & _ & Hi) end;
    simpl in *; rewrite ?length_app; simpl; (split; [congruence|lia]).
Qed.

Definition answers (worker_index : N) (n : nat) : nat := if (worker_index =? 0)%N then n else 0.

(** A loop after requests with some ticks: its configuration, and what it scheduled. *)
Definition ticked (worker_index : N) l l' (n : nat) : Prop :=
  config (lp_server l') = config (lp_server l) ∧ length (ticks l') = length (ticks l) + answers worker_index n.

Lemma requests_ticks l worker_index now owner client last_tx reqs l' :
  is_Some (cf_tick (config (lp_server l))) →
  handle_requests l worker_index now owner client last_tx reqs = Ret l' →
  ticked worker_index l l' (ticks_among reqs).
Proof.
  revert l. unfold ticked, answers. induction reqs as [|req reqs IH]; intros l Ht Hh; cbn in Hh.
  { injection Hh as <-. split; [done|]. unfold ticks_among. case_match; simpl; lia. }
  apply obind_Ret in Hh as ([l1 r] & [Hc1 Hn1]%request_ticks & Hh); [|done].
  apply IH in Hh as [Hc Hn]; [|destruct r; simpl; by rewrite Hc1]. split; [rewrite Hc; by destruct r|].
  assert (length (ticks (match r with Ok _ => l1 | Err e => send l1 (OError client e last_tx) end)) =
    length (ticks l1)) as Hsame by by destruct r.
  rewrite Hn, Hsame, Hn1. unfold ticks_among. rewrite filter_cons.
  destruct (worker_index =? 0)%N, (is_tick req); simpl; lia.
Qed.

Lemma command_ticks l worker_index now cmd l' :
  is_Some (cf_tick (config (lp_server l))) → handle_command l worker_index now cmd = Ret l' →
  ticked worker_index l l' (ticks_among (requests cmd)).
Proof.
  intros Ht (l1 & H1%requests_ticks & H2)%obind_Ret; [|done].
  assert (config (lp_server l') = config (lp_server l1) ∧ ticks l' = ticks l1) as [Hc Hn].
  { unfold auto_advance in H2. destruct (manual_advance _); [by injection H2 as <-|].
    apply obind_Ret in H2 as ([d r] & Ha & H2). by destruct r; [injection H2 as <-|]. }
  unfold ticked in *. by rewrite Hc, Hn.
Qed.

Lemma commands_ticks l worker_index (cmds : list (Cmd * Duration)) l' :
  is_Some (cf_tick (config (lp_server l))) → handle_commands l worker_index cmds = Ret l' →
  ticked worker_index l l' (ticks_in cmds.*1).
Proof.
  revert l. unfold ticked, answers. induction cmds as [|[cmd now] cmds IH]; intros l Ht Hh; cbn in Hh.
  { injection Hh as <-. split; [done|]. case_match; simpl; lia. }
  apply obind_Ret in Hh as (l1 & [Hc1 Hn1]%command_ticks & Hh); [|done].
  apply IH in Hh as [Hc Hn]; [|by rewrite Hc1]. split; [congruence|]. rewrite Hn, Hn1. unfold answers. unfold ticks_in. cbn [fmap list_fmap sum_list_with fst].
  destruct (worker_index =? 0)%N; lia.
Qed.

(** ** Clients that send none *)

(** What a client can send: requests that parse, and its disconnection. *)
Definition tickless (event : DomainEvent Req) : Prop :=
  match event with Requests _ reqs => ticks_among reqs = 0 | Disconnected _ => True end.
Definition polite : Prop := ∀ text reqs, parse_requests text = Ok reqs → ticks_among reqs = 0.
Implicit Types (io : IO (C:=C) (Request:=Req)).

Lemma disconnected_tickless gone : Forall tickless (Disconnected <$> gone).
Proof. by apply Forall_fmap, Forall_true. Qed.

Lemma event_tickless t interests io event io' :
  polite → Forall tickless (domain_events io) →
  io_event parse_requests serialize t interests io event = Ret io' → Forall tickless (domain_events io').
Proof.
  intros Hp Hio. unfold io_event. destruct (_ =? SERVER)%N.
  - destruct (is_readable _); [|by intros [= <-]]. unfold io_accept. destruct (ev_accept event); [|by intros [= <-]].
    intros (token & _ & (conn & _ & [= <-])%obind_Ret)%obind_Ret. done.
  - destruct (_ =? RESULTS)%N.
    + intros (s1 & H1%deliver_outputs_spec & [= <-])%obind_Ret. simpl. rewrite (se_events _ _ _ _ H1).
      apply Forall_app. split; [done|apply disconnected_tickless].
    + unfold io_connection. intros (conn & _ & Hh)%obind_Ret.
      destruct (conn_exchange _ _ _) as [conn' evs]. apply obind_Ret in Hh as (s1 & (He & _)%messages_spec & Hh).
      apply obind_Ret in Hh as (conn2 & _ & Hh).
      assert (Forall tickless (domain_events s1)) as Hs1.
      { rewrite He. apply Forall_app. split; [done|]. unfold message_events. clear -Hp.
        induction evs as [|ev evs IH]; [constructor|]. csimpl. apply Forall_app. split; [|done].
        destruct ev as [[text|]| |]; try constructor. destruct (parse_requests text) eqn:Heq; [|constructor].
        constructor; [|constructor]. simpl. by eapply Hp. }
      destruct (negb _); injection Hh as <-; [|done]. simpl. apply Forall_app. split; [done|]. by constructor.
Qed.

Lemma step_tickless t interests io events io' :
  polite → Forall tickless (domain_events io) →
  IO_step parse_requests serialize io t interests events = Ret io' → Forall tickless (domain_events io').
Proof.
  intros Hp Hio. unfold IO_step. assert (Forall tickless (domain_events (io_poll io events))) as H0 by done.
  revert H0. generalize (io_poll io events). induction events as [|ev events IH]; intros s Hs; cbn [io_events].
  - by intros [= <-].
  - intros (s1 & H1 & H2)%obind_Ret. eapply IH, H2. by eapply event_tickless.
Qed.

Lemma domain_commands_tickless index (evs : list (DomainEvent Req)) :
  Forall tickless evs → ticks_in (domain_command index <$> evs) = 0.
Proof.
  induction 1 as [|ev evs Hev _ IH]; [done|]. unfold ticks_in in *. csimpl. rewrite IH.
  by destruct ev; simpl in *; rewrite ?Hev.
Qed.

(** ** Queues *)

Lemma schedule_ticks_queued timer (realtime : RealtimeScheduler Weak) ends :
  queued_ticks (schedule_ticks timer realtime ends) = queued_ticks realtime + length ends.
Proof.
  revert realtime. unfold schedule_ticks. induction ends as [|e ends IH]; intros realtime; simpl; [lia|].
  rewrite IH. unfold queued_ticks, rt_elems. simpl. rewrite heap_elems_push. csimpl. lia.
Qed.

Lemma schedule_activators_queued (realtime : RealtimeScheduler Weak) (acts : list (TimedActivator Weak)) :
  Forall (λ a, ta_event a = None) acts →
  queued_ticks (schedule_activators realtime acts) = queued_ticks realtime.
Proof.
  revert realtime. unfold schedule_activators. induction acts as [|a acts IH]; intros realtime; simpl; [done|].
  intros [Ha Hl]%Forall_cons. rewrite IH by done. unfold queued_ticks, rt_elems. simpl.
  rewrite heap_elems_push. csimpl. by rewrite Ha.
Qed.

(** Between iterations. *)
Record worker_ready (cfg : Configuration) (w : Worker (C:=C) (Weak:=Weak) (Source:=Source) (Sink:=Sink)) : Prop := {
  wr_config : config (lp_server (wk_loop w)) = cfg;
  wr_ticks : ticks (wk_loop w) = [];
  wr_events : domain_events (wk_io w) = []
}.

Lemma ticks_replicate index n :
  ticks_in (replicate n (mkCommand index SYSTEM [RTick])) = n.
Proof. induction n as [|n IH]; [done|]. unfold ticks_in in *. cbn [replicate sum_list_with]. by rewrite IH. Qed.

Lemma iteration_ticks cfg w it w' done :
  polite → is_Some (cf_tick cfg) → worker_ready cfg w → Forall (λ a, ta_event a = None) (it_scheduled it) →
  iteration w it = Ret (w', done) →
  worker_ready cfg w' ∧ wk_index w' = wk_index w ∧
  queued_ticks (sch_realtime (wk_scheduler w')) + ticks_in (dn_commands done) =
    queued_ticks (sch_realtime (wk_scheduler w)) + answers (wk_index w) (ticks_in (it_commands it).*1).
Proof.
  intros Hp Hcfg [Hc Ht He] Hsch ([[scheduler activated] cmds] & (n & -> & Hq & _)%run_scheduler_spec & Hit)%obind_Ret.
  apply obind_Ret in Hit as (io & Hio%step_tickless & Hit); [|done|by rewrite He].
  rewrite drain_io_spec in Hit by lia. apply obind_Ret in Hit as (loop & [Hcl Htl]%commands_ticks & Hit);
    [|by rewrite Hc].
  apply obind_Ret in Hit as (loop' & Hadv & [= <- <-]). cbn [wk_index wk_scheduler sch_realtime dn_commands].
  assert (config (lp_server loop') = config (lp_server loop) ∧ ticks loop' = []) as [Hc' Ht'].
  { apply obind_Ret in Hadv as ([d r] & _ & Hadv). by destruct r; [injection Hadv as <-|]. }
  split.
  - split; simpl; [congruence|done|]. generalize (sent loop ++ it_outputs it). intros outs.
    assert (∀ io0 : IO (C:=C) (Request:=Req), domain_events io0 = [] → domain_events (foldl io_send io0 outs) = []) as Hs;
      [|by apply Hs]. induction outs; intros io0 H0; [done|]. by apply IHouts.
  - split; [done|]. rewrite schedule_activators_queued, schedule_ticks_queued by done.
    rewrite ticks_in_app, ticks_replicate, domain_commands_tickless by done.
    rewrite Htl, Ht, Hq. simpl. lia.
Qed.

(** ** The system *)

(** The ticks queued at a worker, pushed by it, or on their way to it. *)
Definition member_ticks (log : list Cmd) (m : Member) : nat :=
  queued_ticks (sch_realtime (wk_scheduler (me_worker m))) + ticks_in (me_pushed m) +
  answers (wk_index (me_worker m)) (ticks_in (drop (me_handled m) (commands_of log (wk_index (me_worker m))))).

Lemma member_ticks_mk log w n pushed :
  member_ticks log (mkMember w n pushed) = queued_ticks (sch_realtime (wk_scheduler w)) + ticks_in pushed +
    answers (wk_index w) (ticks_in (drop n (commands_of log (wk_index w)))).
Proof. done. Qed.

Definition ticks_in_flight (sy : System (C:=C) (Weak:=Weak) (Source:=Source) (Sink:=Sink)) : nat :=
  sum_list_with (member_ticks (sy_log sy)) (sy_members sy).

Definition firsts (ms : list Member) : nat := sum_list_with (λ m, answers (wk_index (me_worker m)) 1) ms.

Record system_ready (cfg : Configuration) (sy : System (C:=C) (Weak:=Weak) (Source:=Source) (Sink:=Sink)) : Prop := {
  sr_workers : Forall (λ m, worker_ready cfg (me_worker m) ∧
                            me_handled m ≤ length (commands_of (sy_log sy) (wk_index (me_worker m)))) (sy_members sy);
  sr_firsts : firsts (sy_members sy) = 1;
  sr_ticks : ticks_in_flight sy = 1
}.

Lemma system_start_ready cfg timer workers :
  is_Some (cf_tick cfg) → 0 < workers → system_ready cfg (system_start cfg timer workers).
Proof.
  intros Hcfg Hw. destruct workers as [|workers]; [lia|]. clear Hw.
  assert (∀ i, wk_index (me_worker (Member_new (C:=C) (Weak:=Weak) (Source:=Source) (Sink:=Sink) cfg i timer)) = i)
    as Hi by done.
  assert (∀ l : list nat, Forall (λ i, 0 < i) l → ∀ log,
    firsts ((λ i, Member_new cfg (N.of_nat i) timer) <$> l) = 0 ∧
    sum_list_with (member_ticks log) ((λ i, Member_new cfg (N.of_nat i) timer) <$> l) = 0) as Hrest.
  { intros l Hl log. induction Hl as [|i l Hpos Hl [IH1 IH2]]; [done|]. unfold firsts in *. csimpl.
    rewrite IH1, IH2. destruct i as [|i]; [lia|]. unfold member_ticks, queued_ticks, rt_elems, kickoff, answers.
    simpl. by rewrite heap_elems_new. }
  destruct (Hrest (seq 1 workers)) with (log := [] : list Cmd) as [H1 H2].
  { apply Forall_forall. intros i. rewrite elem_of_seq. lia. }
  split; unfold system_start; cbn [sy_members sy_log].
  - apply Forall_fmap, Forall_true. intros i. split; [split|simpl; lia]; done.
  - change (seq 0 (S workers)) with (0 :: seq 1 workers). unfold firsts in *. csimpl. by rewrite H1.
  - change (seq 0 (S workers)) with (0 :: seq 1 workers). unfold ticks_in_flight. csimpl. rewrite H2. unfold member_ticks, queued_ticks, rt_elems, kickoff, answers.
    destruct Hcfg as [tick Htick]. simpl. rewrite heap_elems_new. unfold kickoff. by rewrite Htick.
Qed.

Lemma firsts_app ms ms' : firsts (ms ++ ms') = firsts ms + firsts ms'.
Proof. apply sum_list_with_app. Qed.

(** A command that is ordered counts for the first worker from then on. *)
Lemma member_ticks_log log cmd m :
  me_handled m ≤ length (commands_of log (wk_index (me_worker m))) →
  member_ticks (log ++ [cmd]) m = member_ticks log m + answers (wk_index (me_worker m)) (ticks_in [cmd]).
Proof.
  intros Hh. unfold member_ticks. assert (commands_of (log ++ [cmd]) (wk_index (me_worker m)) =
    commands_of log (wk_index (me_worker m)) ++ [cmd]) as -> by done.
  rewrite drop_app_le, ticks_in_app by done. unfold answers. destruct (_ =? _)%N; lia.
Qed.

Lemma ticks_log log cmd ms :
  Forall (λ m, me_handled m ≤ length (commands_of log (wk_index (me_worker m)))) ms →
  sum_list_with (member_ticks (log ++ [cmd])) ms = sum_list_with (member_ticks log) ms + firsts ms * ticks_in [cmd].
Proof.
  unfold firsts. induction 1 as [|m ms Hm Hms IH]; [done|]. cbn [sum_list_with]. rewrite IH, member_ticks_log by done.
  unfold answers. destruct (_ =? _)%N; lia.
Qed.

Lemma system_step_ready cfg sy sy' :
  polite → is_Some (cf_tick cfg) → system_ready cfg sy → system_step sy sy' → system_ready cfg sy'.
Proof.
  intros Hp Hcfg [Hw Hf Ht] Hstep.
  destruct Hstep as [log ms1 w n pushed ms2 it w' done Hrun Hsch [rest Hpre] Hit|log ms1 w n command pushed ms2];
    unfold ticks_in_flight in *; cbn [sy_members sy_log] in *;
    apply Forall_app in Hw as [Hw1 [[Hr Hn] Hw2]%Forall_cons]; cbn [me_worker me_handled] in Hr, Hn.
  - destruct (iteration_ticks cfg w it w' done Hp Hcfg Hr Hsch Hit) as (Hr' & Hidx & Hq).
    apply (f_equal length) in Hpre as Hlen. rewrite length_drop, length_app, length_fmap in Hlen.
    split; cbn [sy_members sy_log].
    + apply Forall_app. split; [done|]. constructor; [|done]. cbn [me_worker me_handled]. split; [done|].
      rewrite Hidx. change (length (commands_of log (wk_index w))) with (S (length log)) in *. lia.
    + rewrite firsts_app in *. unfold firsts in *. cbn [sum_list_with me_worker] in *. by rewrite Hidx.
    + unfold ticks_in_flight. cbn [sy_members sy_log]. rewrite sum_list_with_app in *. cbn [sum_list_with] in *. rewrite member_ticks_mk. rewrite member_ticks_mk in Ht.
      rewrite Hidx, ticks_in_app, <- drop_drop, Hpre.
      rewrite drop_app_length' by (by rewrite length_fmap).
      rewrite Hpre, ticks_in_app in Ht. unfold answers in *. destruct (_ =? _)%N; lia.
  - split; cbn [sy_members sy_log].
    + assert (∀ ms, Forall (λ m : Member, worker_ready cfg (me_worker m) ∧
          me_handled m ≤ length (commands_of log (wk_index (me_worker m)))) ms →
        Forall (λ m : Member, worker_ready cfg (me_worker m) ∧
          me_handled m ≤ length (commands_of (log ++ [command]) (wk_index (me_worker m)))) ms) as Hmono.
      { intros ms Hms. eapply Forall_impl; [exact Hms|]. intros m [? Hm]. split; [done|].
        unfold commands_of in *. simpl in *. rewrite length_app. lia. }
      apply Forall_app. split; [by apply Hmono|]. constructor; [|by apply Hmono]. cbn [me_worker me_handled].
      split; [done|]. unfold commands_of in *. simpl in *. rewrite length_app. lia.
    + rewrite firsts_app in *. unfold firsts in *. cbn [sum_list_with me_worker] in *. done.
    + unfold ticks_in_flight. cbn [sy_members sy_log]. rewrite sum_list_with_app. cbn [sum_list_with]. rewrite !ticks_log by (eapply Forall_impl; [done|]; by intros m [_ ?]).
      rewrite member_ticks_log by done. rewrite sum_list_with_app in Ht. rewrite firsts_app in Hf.
      unfold firsts in *. cbn [sum_list_with me_worker] in *. rewrite member_ticks_mk. rewrite member_ticks_mk in Ht.
      change (ticks_in (command :: pushed)) with (ticks_in ([command] ++ pushed)) in Ht. rewrite ticks_in_app in Ht.
      unfold answers in *. destruct (wk_index w =? 0)%N; nia.
Qed.

(** C20 (one tick at a time).  With a tick interval configured, and clients that send
    no ticks of their own: in every state the system can reach, exactly one tick is
    on its way: queued for its time, pushed to the sequencer, or ordered by it and
    not yet handled by the first worker.  Ticks are neither lost nor multiplied. *)
Theorem one_tick_in_flight cfg timer workers sy :
  polite → is_Some (cf_tick cfg) → 0 < workers → rtc system_step (system_start cfg timer workers) sy →
  ticks_in_flight sy = 1.
Proof.
  intros Hp Hcfg Hw Hsteps. cut (system_ready cfg sy); [by intros []|].
  pose proof (system_start_ready cfg timer workers Hcfg Hw) as Hstart. revert Hstart.
  induction Hsteps as [|s1 s2 s3 Hstep _ IH]; intros Hstart; [done|]. eapply IH. by eapply system_step_ready.
Qed.
End ticks.
