(* ===== verification/WorkerRuns.v ===== *)
(** * Workers on concrete inputs

    A model of the interfaces of the networking code, a system of two workers, and
    what a request that fails does to the clients of the other worker. *)
From Stdlib Require Import ZArith NArith Lia.
From stdpp Require Import base strings numbers sets gmap list.
From S2P Require Import Prelude Timestamps Values Outputs Bindings HectorPlan Sessions Scheduling Weighted.
From S2P Require Import Dataflow Domains ScopedDomains Relations PlanOps Plans Rules PlanRuns Server.
From S2P Require Import EventLoop LoopRuns Networking NetworkTheorems Worker WorkerTheorems TickTheorems.

(** ** A model of connections *)

Record SimConn := mkSimConn { sc_token : N; sc_ready : Ready; sc_sent : list WsMessage }.

Definition closes (ev : ConnEvent) : bool := match ev with CClose _ _ => true | _ => false end.

(** The bytes to be read are the events they encode; writing changes nothing. *)
#[export] Program Instance ws_model : WebSocket SimConn := {|
  socket := unit; input_bytes := list ConnEvent; ws_error := unit;
  conn_new t _ _ := mkSimConn t readable [];
  conn_as_server c := Some c;
  conn_token := sc_token;
  conn_events := sc_ready;
  conn_read c evs :=
    (mkSimConn (sc_token c) (if existsb closes evs then mkReady false false else sc_ready c) (sc_sent c), evs, None);
  conn_write c := (c, [], None);
  conn_error c _ := mkSimConn (sc_token c) (mkReady false false) (sc_sent c);
  conn_send c msg := Some (mkSimConn (sc_token c) (sc_ready c) (sc_sent c ++ [msg]))
|}.
Solve Obligations with (simpl; intros; by simplify_eq).

(** The least free key. *)
Definition least_free (m : gmap N SimConn) : option N :=
  head (filter (λ k, m !! k = None ∧ (k < 2 ^ 63)%N) (N.of_nat <$> seq 0 (S (size m)))).

#[export] Program Instance slab_model : Slab SimConn := {|
  slab := gmap N SimConn;
  slab_new := ∅;
  slab_get m k := m !! k;
  slab_vacant := least_free;
  slab_insert m k c := <[k := c]> m;
  slab_remove m k := delete k m
|}.
Next Obligation. done. Qed.
Next Obligation.
  intros m k Hk. unfold least_free in Hk. apply head_Some_elem_of in Hk. by apply list_elem_of_filter in Hk as [? _].
Qed.
Next Obligation. intros m k c k'. apply lookup_insert. Qed.
Next Obligation. intros m k k'. apply lookup_delete. Qed.

#[export] Program Instance token_model : TokenIteration := {| token_iter := elements |}.
Next Obligation. done. Qed.

Section worker_runs.
#[local] Existing Instances extern_model diff_model trace_model timely_model set_iteration_model list_heap.

Abbreviation Req := (Request (list Aid) unit) (only parsing).
Abbreviation Cmd := (Command (list Aid) unit) (only parsing).

(** A client sends the name of the query it is interested in, or of an attribute to
    subscribe to; what it gets is not looked at. *)
Definition sim_parse (text : string) : Result (list Req) string :=
  if bool_decide (text = "?") then Err "expected value"
  else if bool_decide (text = "tick") then Ok [RTick]
  else Ok [RInterest (mkInterest text None None None)].
Definition out_text (out : Output) : string :=
  match out with
  | QueryDiff name _ => "diff " +:+ name
  | Json name _ _ _ => "json " +:+ name
  | Message _ _ => "message"
  | OError _ e _ => "error"
  end.
Definition sim_serialize (out : Output) : option string := Some (out_text out).
Definition upgrade (w : unit) : option unit := Some w.

Abbreviation sim_iteration := (iteration upgrade false no_delta_joins lww_input streams_of any_sink empty_input
  sim_parse sim_serialize).
Abbreviation SimWorker := (Worker (C:=SimConn) (Weak:=unit) (Source:=list Aid) (Sink:=unit)).
Abbreviation SimIteration := (Iteration (C:=SimConn) (Weak:=unit) (Source:=list Aid) (Sink:=unit)).
Abbreviation sim_step := (system_step upgrade false no_delta_joins lww_input streams_of any_sink empty_input
  sim_parse sim_serialize).

(** ** Events *)

Definition arrives : IOEvent SimConn := mkIOEvent SERVER readable (Some tt) [].
Definition says (k : N) (text : string) : IOEvent SimConn :=
  mkIOEvent k readable None [CMessage (Text text)].
Definition results : IOEvent SimConn := mkIOEvent RESULTS readable None [].

Definition iterate (evs : list (IOEvent SimConn)) (commands : list Cmd) (clock : N) : SimIteration :=
  mkIteration (λ _, clock) evs ((λ c, (c, at_start)) <$> commands) [] [] clock.

Definition ticking_config : Configuration := mkConfiguration (Some (mkDuration 1 0)) false false false.
Definition worker0 : SimWorker := Worker_new 0 0 Configuration_default.
Definition worker1 : SimWorker := Worker_new 1 0 Configuration_default.
Definition first_worker : SimWorker := Worker_new 0 0 ticking_config.

Definition iterated (w : SimWorker) (it : SimIteration) : SimWorker :=
  match sim_iteration w it with Ret (w, _) => w | Panic _ => w end.
Definition pushes (w : SimWorker) (it : SimIteration) : list Cmd :=
  match sim_iteration w it with Ret (_, done) => dn_commands done | Panic _ => [] end.

(** A client connects to the first of two workers, and asks for a query nobody
    registered. *)
Definition connected0 : SimWorker := iterated worker0 (iterate [arrives] [preload_command 0] 0).
Definition asks : SimIteration := iterate [says 0 "q"] [] 0.
Definition asked0 : SimWorker := iterated connected0 asks.
Definition command0 : Cmd := mkCommand 0 0 [RInterest (mkInterest "q" None None None)].

Example client_connects : 
  slab_get (connections (wk_io connected0)) 0 = Some (mkSimConn 0 readable []) ∧ pushes connected0 asks = [command0].
Proof. split; vm_refl. Qed.

(** Both workers handle the command and answer the error: the second one, which has
    no such client, takes it to have disconnected. *)
Definition failed1 : SimWorker := iterated worker1 (iterate [] [preload_command 1; command0] 0).

Example misrouted_error : pushes failed1 (iterate [results] [] 0) = [mkCommand 1 0 [Disconnect]].
Proof. vm_refl. Qed.

(** ... or sends the error to a client of its own. *)
Definition failed1' : SimWorker := iterated worker1 (iterate [arrives] [preload_command 1; command0] 0).

Example misdelivered_error :
  slab_get (connections (wk_io (iterated failed1' (iterate [results] [] 0)))) 0 =
  Some (mkSimConn 0 readable [Text "error"]).
Proof. vm_refl. Qed.

(** The disconnection the second worker reports ends the interest of a client that
    is connected to the first. *)
Example connected_client_dropped :
  let w := iterated asked0 (iterate [] [command0] 0) in
  let w' := iterated w (iterate [] [mkCommand 1 0 [Disconnect]] 0) in
  is_interested (lp_server (wk_loop w)) "q" 0 = true ∧ is_interested (lp_server (wk_loop w')) "q" 0 = false ∧
  is_Some (slab_get (connections (wk_io w')) 0).
Proof. split_and!; [vm_refl..|]. by eexists. Qed.

(** A tick a client sends starts another series of ticks. *)
Example client_tick_multiplies :
  let w := iterated first_worker (iterate [] [preload_command 0; mkCommand 0 SYSTEM [RTick]] 0) in
  let w' := iterated w (iterate [] [mkCommand 0 7 [RTick]] 0) in
  queued_ticks (sch_realtime (wk_scheduler w)) = 1 ∧ queued_ticks (sch_realtime (wk_scheduler w')) = 2 ∧
  length (pushes w' (iterate [] [] 5000000000)) = 2.
Proof. split_and!; vm_refl. Qed.

(** ** Specifications *)

Lemma returns {A} (o : outcome A) : is_panic o = false → ∃ x, o = Ret x.
Proof. destruct o as [x|]; [by exists x|done]. Qed.

Definition io_connected : IO (C:=SimConn) (Request:=Req) := wk_io connected0.

Lemma io_connected_ok : io_mid [] io_connected.
Proof.
  assert (armed io_connected = <[0%N := readable]> (<[SERVER := readable]> {[RESULTS := readable]})) as Ha by vm_refl.
  assert (connections io_connected = {[0%N := mkSimConn 0 readable []]} :> gmap N SimConn) as Hc by vm_refl.
  split; rewrite ?Ha, ?Hc; clear Ha Hc; [set_solver|intros k conn|intros k]; simpl.
  - intros [<- <-]%lookup_singleton_Some. split; [done|lia].
  - rewrite !dom_insert_L, dom_singleton_L, lookup_singleton. case_decide as Hk.
    + subst. split; [intros _; do 2 right; by eexists|set_solver].
    + split; [set_solver|]. intros [?|[?|[? ?]]]; [set_solver..|done].
Qed.

Lemma IO_step_ok_witness :
  ends (io_mid []) (IO_step sim_parse sim_serialize io_connected 1 ∅ [says 0 "q"; results]).
Proof.
  apply (IO_step_ok sim_parse sim_serialize 1 ∅ io_connected [says 0 "q"; results] io_connected_ok).
  - by apply (bool_decide_unpack _).
  - intros k Hk. apply elem_of_elements.
    assert (dom (armed io_connected) = {[0%N; SERVER; RESULTS]}) as -> by vm_refl. set_solver.
Defined.

(** A connected client, and one that is not. *)
Definition io_sending : IO (C:=SimConn) (Request:=Req) :=
  mkIO [] [QueryDiff "q" []; OError 5 (Error_incorrect "") 0; QueryDiff "p" []] (connections io_connected) 1 (armed io_connected).
Definition both : gmap Aid (gset N) := {["q" := {[0%N; 9%N]}]}.

Lemma io_results_spec_witness :
  ∃ self', io_results sim_serialize both io_sending = Ret self' ∧ recv self' = [] ∧
    (∃ msgs, texts_for sim_serialize both 0 (recv io_sending) msgs ∧
       slab_get (connections self') 0 = conn_sends (mkSimConn 0 readable []) msgs) ∧
    Disconnected 5%N ∈ domain_events self' ∧ Disconnected 9%N ∈ domain_events self'.
Proof.
  destruct (returns (io_results sim_serialize both io_sending)) as [self' Hr]; [vm_refl|].
  exists self'. split; [done|].
  destruct (io_results_spec sim_serialize both io_sending self' Hr) as (Hrecv & _ & Hconns & gone & He & Hgone).
  split; [exact Hrecv|]. split.
  - specialize (Hconns 0%N). assert (slab_get (connections io_sending) 0 = Some (mkSimConn 0 readable [])) as Hc by vm_refl.
    rewrite Hc in Hconns. destruct Hconns as (conn' & msgs & Ht & Hs & Hg). exists msgs.
    split; [exact Ht|]. by rewrite Hg, Hs.
  - assert (∀ k, ¬ connected io_sending k → (∃ out, out ∈ recv io_sending ∧ meant_for both out k) →
      Disconnected k ∈ domain_events self') as Hgoes.
    { intros k Hk (out & [i Hi]%list_elem_of_lookup & Hm). rewrite He. apply elem_of_app. right.
      apply list_elem_of_fmap. exists k. split; [done|].
      destruct (Forall2_lookup_l _ _ _ _ _ Hgone Hi) as (ks & Hks & _ & Hiff).
      apply list_elem_of_In, in_concat. exists ks.
      split; apply list_elem_of_In; [by eapply list_elem_of_lookup_2|by apply Hiff]. }
    assert (∀ k, k ≠ 0%N → ¬ connected io_sending k) as Hno.
    { intros k Hk [conn Hc]. change (({[0%N := mkSimConn 0 readable []]} : gmap N SimConn) !! k = Some conn) in Hc.
      by rewrite lookup_singleton_ne in Hc. }
    split; apply Hgoes; [by apply Hno| |by apply Hno|].
    + exists (OError 5 (Error_incorrect "") 0). split; [right; left|constructor].
    + exists (QueryDiff "q" []). split; [left|]. by apply (meant_diff both "q" [] {[0%N; 9%N]}); [vm_refl|set_solver].
Defined.

Example results_delivered :
  (let! self := io_results sim_serialize both io_sending in
   Ret (slab_get (connections self) 0, domain_events self)) =
  Ret (Some (mkSimConn 0 readable [Text "diff q"]), [Disconnected 9%N; Disconnected 5%N]).
Proof. vm_refl. Qed.

Definition closing : IOEvent SimConn :=
  mkIOEvent 0 readable None [CMessage (Text "q"); CMessage (Text "?"); CClose 1000 "bye"].

Lemma io_connection_spec_witness :
  ∃ self', io_connection sim_parse 3 io_connected closing = Ret self' ∧
    domain_events self' = domain_events io_connected ++
      [Requests 0%N [RInterest (mkInterest "q" None None None)]] ++ [Disconnected 0%N] ∧
    recv self' = recv io_connected ++ [OError 0 (Error_incorrect "expected value") 3] ∧
    slab_get (connections self') 0 = None.
Proof.
  destruct (returns (io_connection sim_parse 3 io_connected closing)) as [self' Hr]; [vm_refl|].
  exists self'. split; [done|].
  destruct (io_connection_spec sim_parse 3 io_connected closing (mkSimConn 0 readable []) self')
    as (conn1 & read & conn2 & written & [-> ->] & [-> ->] & He & Hs & Hg & _); [vm_refl|exact Hr|].
  split; [exact He|]. split; [exact Hs|exact Hg].
Defined.

(** *** A run of two workers *)

Definition waiting1 : Member (C:=SimConn) (Weak:=unit) (Source:=list Aid) (Sink:=unit) := mkMember worker1 0 [].
Definition answered0 : SimWorker := iterated asked0 (iterate [] [command0] 0).

Lemma iterated_step w it : is_panic (sim_iteration w it) = false →
  ∃ done, sim_iteration w it = Ret (iterated w it, done) ∧ pushes w it = dn_commands done.
Proof.
  unfold iterated, pushes. intros [[w' done] ->]%returns. by exists done.
Qed.

Lemma first_steps log w it n pushed :
  shutdown (wk_loop w) = false → it_scheduled it = [] →
  (it_commands it).*1 `prefix_of` drop n (commands_of log (wk_index w)) →
  is_panic (sim_iteration w it) = false →
  sim_step (mkSystem log [mkMember w n pushed; waiting1])
    (mkSystem log [mkMember (iterated w it) (n + length (it_commands it)) (pushed ++ pushes w it); waiting1]).
Proof.
  intros Hs Hsch Hpre Hit. destruct (iterated_step w it Hit) as (done & Hdone & ->).
  apply (step_worker _ _ _ _ _ _ _ _ _ log [] w n pushed [waiting1] it); [done|by rewrite Hsch|done|done].
Qed.

Lemma two_workers_run :
  rtc sim_step (system_start Configuration_default 0 2)
    (mkSystem [command0] [mkMember answered0 2 []; waiting1]).
Proof.
  apply (rtc_l _ _ (mkSystem [] [mkMember connected0 1 []; waiting1])).
  { apply (first_steps [] worker0 (iterate [arrives] [preload_command 0] 0) 0 []); [done|done|by exists []|].
    vm_refl. }
  apply (rtc_l _ _ (mkSystem [] [mkMember asked0 1 [command0]; waiting1])).
  { apply (first_steps [] connected0 asks 1 []); [vm_refl|done|by eexists|vm_refl]. }
  apply (rtc_l _ _ (mkSystem [command0] [mkMember asked0 1 []; waiting1])).
  { apply (step_sequencer _ _ _ _ _ _ _ _ _ [] [] asked0 1 command0 [] [waiting1]). }
  apply rtc_once. apply (first_steps [command0] asked0 (iterate [] [command0] 0) 1 []); [vm_refl|done|by exists []|].
  vm_refl.
Qed.

Lemma workers_agree_witness :
  let sy := mkSystem [command0] [mkMember answered0 2 []; waiting1] in
  2 ≤ S (length (sy_log sy)) ∧
  (∀ name c, is_interested (lp_server (wk_loop answered0)) name c = interested (history [command0]) name c) ∧
  next_tx (wk_loop answered0) = 2%N.
Proof.
  intros sy.
  destruct (workers_agree upgrade false no_delta_joins lww_input streams_of any_sink empty_input sim_parse sim_serialize
    Configuration_default 0 2 sy (mkMember answered0 2 []) two_workers_run) as (Hn & Hi & Htx); [left|].
  split; [exact Hn|]. split; [exact Hi|exact Htx].
Defined.

Lemma iteration_forwards_witness :
  ∃ io loop n,
    IO_step sim_parse sim_serialize (wk_io connected0) 1 ∅ (it_events asks) = Ret io ∧
    pushes connected0 asks = replicate n (event_command 0 Tick) ++ (domain_command 0 <$> domain_events io) ∧ n = 0 ∧ sent loop = [].
Proof.
  destruct (returns (sim_iteration connected0 asks)) as [[w' done] Hit]; [vm_refl|].
  destruct (iteration_forwards upgrade false no_delta_joins lww_input streams_of any_sink empty_input sim_parse
    sim_serialize connected0 asks w' done Hit) as (io & loop & n & Hio & Hloop & Hcmds & Hn & _).
  exists io, loop, n. split; [exact Hio|]. split; [|split].
  - unfold pushes. rewrite Hit. exact Hcmds.
  - destruct Hn as [last ->]; [by intros i j _|]. reflexivity.
  - injection Hloop as <-. reflexivity.
Defined.

(** *** Ticks *)

Lemma sim_polite : polite (λ text, if bool_decide (text = "tick") then Err "" else sim_parse text).
Proof.
  intros text reqs. unfold sim_parse. case_bool_decide; [done|].
  case_bool_decide; [done|]. by intros [= <-].
Qed.

Lemma one_tick_in_flight_witness :
  ticks_in_flight (system_start (C:=SimConn) (Weak:=unit) (Source:=list Aid) (Sink:=unit) ticking_config 0 3) = 1.
Proof.
  apply (one_tick_in_flight upgrade false no_delta_joins lww_input streams_of any_sink empty_input
    (λ text, if bool_decide (text = "tick") then Err "" else sim_parse text) sim_serialize
    ticking_config 0 3 _ sim_polite).
  - by eexists.
  - lia.
  - apply rtc_refl.
Defined.
End worker_runs.
