(* ===== verification/Options.v ===== *)
(** * Command line options (src/server/src/main.rs)

    The configuration of a server process from its arguments, and what timely and
    the server make of it.  getopts, the file system and serde_json are arguments;
    numbers are parsed as the standard library does. *)
From Stdlib Require Import ZArith NArith Lia.
From stdpp Require Import base strings numbers list pretty.
From S2P Require Import Prelude Parsing Timestamps.

Definition u16_max : N := 2 ^ 16 - 1.
Definition usize_max : N := 2 ^ 64 - 1.

(** ** [Configuration] *)
Record Options := mkOptions {
  port : N;
  config_file : option string;
  threads : N;
  processes : N;
  addresses : list string;
  timely_pid : N;
  report : bool
}.

Definition Options_default : Options := mkOptions 6262 None 1 1 ["localhost:2101"] 0 false.

(** [getopts::Matches]. *)
Record Matches := mkMatches { opt_str : string → option string; opt_present : string → bool }.

Section options.
Context (parse_args : list string → option Matches).
Context (read_lines : string → option (list (option string))) (open_file : string → option (option string)).

(** [matches.opt_str(name).map(|x| x.parse().expect(..)).unwrap_or(default)]. *)
Definition number_option (matches : Matches) (name : string) (max default : N) (failure : string) : outcome N :=
  match opt_str matches name with
  | Some x => expect failure (parse_unsigned max x)
  | None => Ret default
  end.

(** [for x in reader.lines().take(processes)]. *)
Definition host_lines (hosts : string) (processes : N) : outcome (list string) :=
  let! lines := expect "called `Result::unwrap()` on an `Err` value" (read_lines hosts) in
  mapM_outcome (expect "called `Result::unwrap()` on an `Err` value") (take (N.to_nat processes) lines).

Definition default_address (index : nat) : string :=
  "localhost:" +:+ pretty ((2101 + N.of_nat index) mod 2 ^ 64)%N.

Definition host_addresses (matches : Matches) (processes : N) : outcome (list string) :=
  match opt_str matches "h" with
  | Some hosts =>
      let! addresses := host_lines hosts processes in
      if (N.of_nat (length addresses) <? processes)%N
      then Panic ("could only read " +:+ pretty (length addresses) +:+ " addresses from " +:+ hosts +:+
                  ", but -n: " +:+ pretty processes)
      else Ret addresses
  | None => Ret (default_address <$> seq 0 (N.to_nat processes))
  end.

Definition from_args (args : list string) : outcome Options :=
  let default := Options_default in
  let! matches := expect "failed to parse arguments" (parse_args args) in
  let! port := number_option matches "port" u16_max (port default) "failed to parse port" in
  let! threads := number_option matches "w" usize_max (threads default) "failed to parse threads" in
  let! timely_pid := number_option matches "p" usize_max (timely_pid default) "failed to parse process id" in
  let! processes := number_option matches "n" usize_max (processes default) "failed to parse processes" in
  let! addresses := host_addresses matches processes in
  let! _ := assert_that "assertion failed: processes == addresses.len()"
              (bool_decide (processes = N.of_nat (length addresses))) in
  let! _ := assert_that "assertion failed: timely_pid < processes" (timely_pid <? processes)%N in
  Ret (mkOptions port (opt_str matches "config") threads processes addresses timely_pid
         (opt_present matches "r")).

(** ** Conversions *)

(** [timely::Configuration]. *)
Inductive TimelyConfiguration :=
| Thread
| Process (threads : N)
| Cluster (threads process : N) (addresses : list string) (report : bool).

Definition into_timely (self : Options) : TimelyConfiguration :=
  if (1 <? processes self)%N
  then Cluster (threads self) (timely_pid self) (addresses self) (report self)
  else if (1 <? threads self)%N then Process (threads self)
  else Thread.

Definition into_server {ServerConfiguration : Type} (server_default : ServerConfiguration)
    (from_str : string → option ServerConfiguration) (self : Options) : outcome ServerConfiguration :=
  match config_file self with
  | None => Ret server_default
  | Some path =>
      let! config_file := expect "failed to open server configuration file" (open_file path) in
      let! contents := expect "failed to read configuration file" config_file in
      expect "failed to parse configuration" (from_str contents)
  end.

(** ** What a process starts with *)

Lemma number_option_bound matches name max default failure n :
  number_option matches name max default failure = Ret n → (default ≤ max)%N → (n ≤ max)%N.
Proof.
  unfold number_option. destruct (opt_str matches name) as [x|]; [|by intros [= <-]].
  intros Hp _. destruct (parse_unsigned max x) eqn:Hx; [|done]. injection Hp as <-. by eapply parse_unsigned_bound.
Qed.

(** What a configuration from the command line satisfies. *)
Record options_ok (o : Options) : Prop := {
  op_port : (port o ≤ u16_max)%N;
  op_addresses : N.of_nat (length (addresses o)) = processes o;
  op_pid : (timely_pid o < processes o)%N
}.

Lemma from_args_ok args o : from_args args = Ret o → options_ok o.
Proof.
  intros Ho. unfold from_args in Ho.
  apply obind_Ret in Ho as (matches & _ & Ho). apply obind_Ret in Ho as (p & Hp & Ho).
  apply obind_Ret in Ho as (th & _ & Ho). apply obind_Ret in Ho as (pid & _ & Ho).
  apply obind_Ret in Ho as (n & _ & Ho). apply obind_Ret in Ho as (addrs & _ & Ho).
  apply obind_Ret in Ho as (? & Hlen & Ho). apply obind_Ret in Ho as (? & Hpid & [= <-]).
  apply assert_Ret, bool_decide_eq_true in Hlen. apply assert_Ret, N.ltb_lt in Hpid.
  split; simpl; [|done..]. eapply number_option_bound; [exact Hp|]. done.
Qed.

(** In a cluster every process has an address; otherwise there is one process. *)
Lemma into_timely_cluster args o :
  from_args args = Ret o →
  match into_timely o with
  | Cluster _ process addresses _ => is_Some (addresses !! N.to_nat process) ∧ 2 ≤ length addresses
  | _ => length (addresses o) = 1 ∧ timely_pid o = 0%N
  end.
Proof.
  intros [_ Hlen Hpid]%from_args_ok. unfold into_timely. destruct (N.ltb_spec 1 (processes o)) as [Hp|Hp].
  - split; [apply lookup_lt_is_Some|]; lia.
  - destruct (1 <? threads o)%N; lia.
Qed.
End options.
