(* ===== verification/CsvSource.v ===== *)
(** * The CSV source (src/src/sources/csv_file.rs)

    The operator that reads a file in batches: it is activated, reads as many
    records as it has fuel, and asks the scheduler to be activated again, until the
    file is exhausted.  The csv crate's reader is used through an interface.  The
    clock readings of an activation, relative to the start of the computation, are
    arguments. *)
From Stdlib Require Import ZArith NArith Lia.
From stdpp Require Import base strings numbers list.
From S2P Require Import Prelude Parsing Timestamps Values.

(** [csv::StringRecordsIntoIter]: once it has reported the end, it is done; when it
    is done, nothing is left. *)
Class CsvRecords (R : Type) := {
  next_record : R → option (Result (list string) string) * R;
  is_done : R → bool;
  unread : R → list (Result (list string) string);
  next_record_spec r : match unread r with
    | [] => (next_record r).1 = None ∧ unread (next_record r).2 = [] ∧ is_done (next_record r).2 = true
    | x :: xs => (next_record r).1 = Some x ∧ unread (next_record r).2 = xs
    end;
  is_done_unread r : is_done r = true → unread r = []
}.

Section csv_source.
Context `{EV : ExternValues} {R : Type} `{CR : !CsvRecords R}.

Record CsvFile := mkCsvFile {
  eid_offset : nat;
  schema : list (Aid * (nat * Value));
  csv_fuel : option N;
  csv_interval : option Duration
}.

(** What is given to the session of an output. *)
Abbreviation Fact := (nat * (Value * Value))%type (only parsing).
Abbreviation Given := (nat * (Value * Value * Duration * Z))%type (only parsing).

(** The two counters, which are only logged, are of type [i32]. *)
Record CsvState := mkCsvState {
  capabilities : list Duration;
  csv_reader : R;
  num_datums_read : Z;
  datum_index : Z
}.

Context (self : CsvFile).

(** [self.fuel.unwrap_or(256) as i64]. *)
Definition total_fuel : Z := wrap_i 64 (Z.of_N (default 256%N (csv_fuel self))).
Definition interval : Duration := default (from_secs 1) (csv_interval self).

Definition field (record : list string) (offset : nat) : outcome string :=
  expect "index out of bounds" (record !! offset).

Definition parse_eid (s : string) : outcome Value :=
  let! eid := expect "not a eid" (parse_unsigned (2 ^ 64 - 1) s) in Ret (VEid eid).

(** The value of a column, by its type hint. *)
Definition column_value (record : list string) (offset : nat) (type_hint : Value) : outcome Value :=
  match type_hint with
  | VString _ => let! s := field record offset in Ret (VString s)
  | VNumber _ =>
      let! s := field record offset in
      let! n := expect "not a number" (parse_i64 s) in Ret (VNumber n)
  | VEid _ => let! s := field record offset in parse_eid s
  | _ => Panic "Only String, Number, and Eid are supported at the moment."
  end.

(** The facts of a record, one for each column of the schema. *)
Definition record_facts (record : list string) : outcome (list Fact) :=
  let! s := field record (eid_offset self) in
  let! eid := parse_eid s in
  mapM_outcome (λ '(idx, (_, (offset, type_hint))),
    let! v := column_value record offset type_hint in Ret (idx, (eid, v)))
    (zip (seq 0 (length (schema self))) (schema self)).

Definition given (t : Duration) (fact : Fact) : Given := (fact.1, (fact.2, t, 1%Z)).

(** [while let Some(result) = iterator.next()], for at most [fuel] records. *)
Fixpoint read_records (fuel : nat) (t : Duration) (st : CsvState) : outcome (list Given * CsvState) :=
  match fuel with
  | O => Ret ([], st)
  | S fuel =>
      match next_record (csv_reader st) with
      | (None, reader) => Ret ([], mkCsvState (capabilities st) reader (num_datums_read st) (datum_index st))
      | (Some result, reader) =>
          let! record := match result with Ok record => Ret record | Err _ => Panic "read error" end in
          let! facts := record_facts record in
          let st := mkCsvState (capabilities st) reader (wrap_i 32 (num_datums_read st + 1))
                      (wrap_i 32 (datum_index st + 1)) in
          let! '(out, st) := read_records fuel t st in
          Ret ((given t <$> facts) ++ out, st)
      end
  end.

(** The fuel after some records: [fuel -= 1] for each. *)
Definition fuel_after (n : nat) : Z := Nat.iter n (λ fuel, wrap_i 64 (fuel - 1)) total_fuel.

(** [if fuel <= 0 { break; }]: the loop breaks after this many records
    ([batch_size_spec]), one at least.  The least fuel wraps around. *)
Definition batch_size : nat :=
  Z.to_nat (if (total_fuel =? - 2 ^ 63)%Z then 2 ^ 63 else Z.max 1 total_fuel).

Lemma total_fuel_range : in_i64 total_fuel.
Proof. apply wrap_i64_range. Qed.

Lemma fuel_after_wrap n : fuel_after n = wrap_i 64 (total_fuel - Z.of_nat n).
Proof.
  induction n as [|n IH]; unfold fuel_after in *; simpl.
  - rewrite Z.sub_0_r. symmetry. apply wrap_i64_id, total_fuel_range.
  - rewrite IH. unfold Z.sub at 1. rewrite wrap_i64_add_l. f_equal. lia.
Qed.

Lemma batch_size_spec :
  1 ≤ batch_size ∧ (fuel_after batch_size ≤ 0)%Z ∧
  ∀ n, 1 ≤ n → n < batch_size → (0 < fuel_after n)%Z.
Proof.
  pose proof total_fuel_range as Hr. unfold in_i64 in Hr. setoid_rewrite fuel_after_wrap. unfold batch_size.
  destruct (Z.eqb_spec total_fuel (- 2 ^ 63)) as [->|Hne].
  - assert (∀ z : Z, (1 ≤ z ≤ 2 ^ 63)%Z → wrap_i 64 (- 2 ^ 63 - z) = (2 ^ 63 - z)%Z) as Hw.
    { intros z Hz. replace (- 2 ^ 63 - z)%Z with (2 ^ 63 - z + (-1) * 2 ^ 64)%Z by lia.
      rewrite (wrap_i64_mod _ (2 ^ 63 - z)) by (apply Z.mod_add; lia).
      apply wrap_i64_id. unfold in_i64. lia. }
    split; [lia|]. split; [rewrite Z2Nat.id, Hw by lia; lia|]. intros n Hn Hlt. rewrite Hw; lia.
  - assert (∀ z : Z, (1 ≤ z ≤ Z.max 1 total_fuel)%Z → wrap_i 64 (total_fuel - z) = (total_fuel - z)%Z) as Hw
      by (intros z Hz; apply wrap_i64_id; unfold in_i64; lia).
    split; [lia|]. split; [rewrite Z2Nat.id, Hw by lia; lia|]. intros n Hn Hlt. rewrite Hw; lia.
Qed.

Definition drop_capabilities (st : CsvState) : CsvState :=
  mkCsvState [] (csv_reader st) (num_datums_read st) (datum_index st).

(** [cap.downgrade(&time)], which insists on going forward. *)
Definition downgrade (t cap : Duration) : outcome Duration :=
  if less_equal cap t then Ret t else Panic "Attempted to downgrade to a time that is not beyond the capability's time".

(** One activation: what it gives, and the deferral of the next one. *)
Definition csv_activate (st : CsvState) (now later : Duration)
    : outcome (list Given * option Duration * CsvState) :=
  if is_done (csv_reader st) then Ret ([], None, drop_capabilities st)
  else
    let! _ := assert_that "index out of bounds" (length (schema self) <=? length (capabilities st)) in
    let! '(out, st) := read_records batch_size now st in
    if is_done (csv_reader st) then Ret (out, None, drop_capabilities st)
    else
      let! caps := mapM_outcome (downgrade later) (capabilities st) in
      Ret (out, Some interval, mkCsvState caps (csv_reader st) (num_datums_read st) (datum_index st)).

(** Activations at the given clock readings. *)
Fixpoint csv_run (st : CsvState) (clocks : list (Duration * Duration))
    : outcome (list (list Given * option Duration) * CsvState) :=
  match clocks with
  | [] => Ret ([], st)
  | (now, later) :: clocks =>
      let! '(out, again, st) := csv_activate st now later in
      let! '(outs, st) := csv_run st clocks in Ret ((out, again) :: outs, st)
  end.

(** The operator starts with the least capability for each output. *)
Definition csv_start (reader : R) : CsvState :=
  mkCsvState (replicate (length (schema self)) (mkDuration 0 0)) reader 0 0.

(** The attributes, which are inputs with distinct facts. *)
Definition csv_attributes : list (Aid * AttributeConfig) :=
  (λ column, (column.1, AttributeConfig_real_time Distinct)) <$> schema self.

(** ** Reading a batch *)

(** The records are readable, and parse to these facts. *)
Definition readable (rs : list (Result (list string) string)) (fs : list (list Fact)) : Prop :=
  Forall2 (λ r f, ∃ record, r = Ok record ∧ record_facts record = Ret f) rs fs.

Lemma read_records_spec fuel t st fs :
  readable (unread (csv_reader st)) fs →
  ∃ st', read_records fuel t st = Ret (given t <$> concat (take fuel fs), st') ∧
    capabilities st' = capabilities st ∧ readable (unread (csv_reader st')) (drop fuel fs) ∧
    (length fs < fuel → is_done (csv_reader st') = true).
Proof.
  revert st fs. induction fuel as [|fuel IH]; intros st fs Hfs; cbn [read_records].
  { exists st. split_and!; [done|done|done|lia]. }
  pose proof (next_record_spec (csv_reader st)) as Hn.
  destruct (unread (csv_reader st)) as [|r rs] eqn:Hu; destruct (next_record (csv_reader st)) as [x reader];
    simpl in Hn.
  - destruct Hn as (-> & Hu' & Hd). inversion Hfs; subst. eexists. split; [done|]. simpl. rewrite Hu'.
    split_and!; [done|by constructor|done].
  - destruct Hn as [-> Hu']. inversion Hfs as [|? f ? fs' (record & -> & Hf) Hfs']; subst. simpl. rewrite Hf. simpl.
    set (st1 := mkCsvState _ _ _ _). destruct (IH st1 fs') as (st' & -> & Hc & Hr & Hd); [exact Hfs'|].
    exists st'. simpl. rewrite fmap_app. split_and!; [done|done|done|]. intros. apply Hd. lia.
Qed.

(** ** Activations until the end *)

(** The capabilities are behind the clock, and the clock does not go back. *)
Fixpoint clocks_from (t : Duration) (clocks : list (Duration * Duration)) : Prop :=
  match clocks with
  | [] => True
  | (now, later) :: clocks => less_equal t now = true ∧ less_equal now later = true ∧ clocks_from later clocks
  end.

(** Between two activations: either the source is done, or it still has a
    capability for each output. *)
Definition csv_ok (t : Duration) (st : CsvState) : Prop :=
  is_done (csv_reader st) = true ∨ capabilities st = replicate (length (schema self)) t.

Lemma downgrade_all t later n :
  less_equal t later = true → mapM_outcome (downgrade later) (replicate n t) = Ret (replicate n later).
Proof.
  intros Hle. induction n as [|n IH]; [done|]. simpl replicate. rewrite mapM_outcome_cons.
  unfold downgrade at 1. rewrite Hle. simpl. by rewrite IH.
Qed.

(** What an activation gives is at its time; while it is not done, it asks for
    another one. *)
Definition activation_ok (now : Duration) (a : list Given * option Duration) (st : CsvState) : Prop :=
  Forall (λ g, g.2.1.2 = now ∧ g.2.2 = 1%Z) a.1 ∧
  if is_done (csv_reader st) then a.2 = None ∧ capabilities st = [] else a.2 = Some interval.

Lemma given_ok t facts : Forall (λ g, g.2.1.2 = t ∧ g.2.2 = 1%Z) (given t <$> facts).
Proof. by apply Forall_fmap, Forall_true. Qed.

(** The fact that was given, without its time. *)
Definition given_fact (g : Given) : Fact := (g.1, g.2.1.1).

Lemma given_back t (facts : list Fact) : given_fact <$> (given t <$> facts) = facts.
Proof. induction facts as [|[i f] facts IH]; [done|]. rewrite !fmap_cons, IH. done. Qed.

Lemma activation_facts st t now later fs :
  csv_ok t st → less_equal t now = true → less_equal now later = true →
  readable (unread (csv_reader st)) fs →
  ∃ again st', csv_activate st now later = Ret (given now <$> concat (take batch_size fs), again, st') ∧
    activation_ok now (given now <$> concat (take batch_size fs), again) st' ∧ csv_ok later st' ∧
    readable (unread (csv_reader st')) (drop batch_size fs) ∧
    (length fs < batch_size → is_done (csv_reader st') = true).
Proof.
  intros Hok Htn Hnl Hfs. unfold csv_activate. destruct (is_done (csv_reader st)) eqn:Hd.
  - assert (fs = []) as -> by (apply is_done_unread in Hd; rewrite Hd in Hfs; by inversion Hfs).
    exists None, (drop_capabilities st). rewrite !take_nil, !drop_nil. unfold activation_ok, csv_ok. simpl. rewrite Hd.
    split_and!; try done. by left.
  - destruct Hok as [Hd'|Hc]; [by rewrite Hd in Hd'|]. rewrite Hc, length_replicate, Nat.leb_refl. simpl.
    destruct (read_records_spec batch_size now st fs Hfs) as (st' & -> & Hc' & Hr & Hdone). simpl.
    destruct (is_done (csv_reader st')) eqn:Hd'.
    + eexists _, _. split; [done|]. unfold activation_ok, csv_ok. simpl. rewrite Hd'.
      split_and!; try done; [apply given_ok|by left].
    + rewrite Hc', Hc, (downgrade_all t later); [|by eapply less_equal_trans]. simpl.
      eexists _, _. split; [done|]. unfold activation_ok, csv_ok. simpl. rewrite Hd'.
      split_and!; try done; [apply given_ok|by right].
Qed.

(** Nothing happens any more once the source is done. *)
Lemma run_done st clocks :
  is_done (csv_reader st) = true → capabilities st = [] →
  ∃ st', csv_run st clocks = Ret (replicate (length clocks) ([], None), st') ∧
    is_done (csv_reader st') = true ∧ capabilities st' = [].
Proof.
  revert st. induction clocks as [|[now later] clocks IH]; intros st Hd Hc; [by exists st|].
  cbn [csv_run]. unfold csv_activate. rewrite Hd. cbn [obind].
  destruct (IH (drop_capabilities st) Hd) as (st' & -> & Hd' & Hc'); [done|]. by exists st'.
Qed.

(** What an activation gives is at its first clock reading. *)
Definition given_at (a : list Given * option Duration) (clock : Duration * Duration) : Prop :=
  Forall (λ g, g.2.1.2 = clock.1 ∧ g.2.2 = 1%Z) a.1.

Lemma idle_given clocks : Forall2 given_at (replicate (length clocks) ([], None)) clocks.
Proof. induction clocks as [|c clocks IH]; constructor; [by constructor|exact IH]. Qed.

(** C12 (every record of a file is read).  Let the file's records parse to the facts
    [fs], and the clock not go back.  Then the activations do not panic, and each
    gives its facts at its own clock reading.  For some [n], the first [n] activations
    each ask to be activated again after the interval, and have read a full batch of
    records; the next one asks for no other, and with it the facts of all records
    have been given, each once and in order; later activations give nothing.  If there
    are as many activations as that takes, the source is done in the end and has
    dropped its capabilities. *)
Theorem csv_source_delivers t st clocks fs :
  csv_ok t st → clocks_from t clocks → readable (unread (csv_reader st)) fs →
  length fs < length clocks * batch_size →
  ∃ outs st' n, csv_run st clocks = Ret (outs, st') ∧ Forall2 given_at outs clocks ∧
    outs.*2 = replicate n (Some interval) ++ replicate (length clocks - n) None ∧ n < length clocks ∧
    n * batch_size ≤ length fs ∧
    given_fact <$> concat (take (S n) outs.*1) = concat fs ∧ concat (drop (S n) outs.*1) = [] ∧
    is_done (csv_reader st') = true ∧ capabilities st' = [].
Proof.
  revert t st fs. induction clocks as [|[now later] clocks IH]; intros t st fs Hok Hcl Hfs Hlen; [simpl in Hlen; lia|].
  destruct Hcl as (Htn & Hnl & Hcl). cbn [csv_run].
  destruct (activation_facts st t now later fs Hok Htn Hnl Hfs) as (again & st1 & -> & [Hgiv Hact] & Hok1 & Hfs1 & Hd).
  cbn [obind]. simpl in Hgiv, Hact.
  destruct (is_done (csv_reader st1)) eqn:Hd1.
  - destruct Hact as [-> Hc]. destruct (run_done st1 clocks Hd1 Hc) as (st' & -> & Hd' & Hc').
    assert (drop batch_size fs = []) as Hdrop.
    { apply is_done_unread in Hd1. rewrite Hd1 in Hfs1. by inversion Hfs1. }
    eexists _, st', 0. split; [done|]. csimpl. rewrite !fmap_replicate. split_and!; try done; try lia.
    + constructor; [done|apply idle_given].
    + rewrite app_nil_r, given_back. rewrite <- (take_drop batch_size fs) at 2.
      by rewrite Hdrop, app_nil_r.
    + rewrite drop_0. clear. by induction (length clocks).
  - assert (batch_size ≤ length fs) as Hfull.
    { destruct (decide (length fs < batch_size)) as [l|l]; [exfalso; specialize (Hd l); congruence|lia]. }
    destruct (IH later st1 (drop batch_size fs) Hok1 Hcl Hfs1)
      as (outs & st' & n & -> & Hgs & Hag & Hn & Hread & Hout & Hrest & Hd' & Hc').
    { rewrite length_drop. simpl in Hlen. lia. }
    rewrite length_drop in Hread.
    eexists _, st', (S n). split; [done|]. csimpl. rewrite Hact, Hag. split_and!; try done; try lia.
    + by constructor.
    + rewrite fmap_app, given_back.
      rewrite Hout. by rewrite <- concat_app, take_drop.
Qed.

(** (an activation of the CSV source).  An activation reads as many records as
    its fuel allows, one at least; it gives their facts at the time of the
    activation; and unless the file is exhausted it asks to be activated again and
    keeps a capability for each output, at the later clock reading. *)
Theorem csv_activation_spec t st now later fs :
  csv_ok t st → less_equal t now = true → less_equal now later = true →
  readable (unread (csv_reader st)) fs →
  ∃ out again st', csv_activate st now later = Ret (out, again, st') ∧
    given_fact <$> out = concat (take batch_size fs) ∧ 1 ≤ batch_size ∧
    activation_ok now (out, again) st' ∧ csv_ok later st'.
Proof.
  intros Hok Htn Hnl Hfs.
  destruct (activation_facts st t now later fs Hok Htn Hnl Hfs) as (again & st' & Hact & Ha & Hok' & _).
  eexists _, again, st'. split; [exact Hact|]. split; [|split; [apply batch_size_spec|done]].
  apply given_back.
Qed.
End csv_source.

(** ** A reader over a list of records *)

(** It knows that it is done after it has reported the end. *)
#[export] Program Instance list_reader : CsvRecords (list (Result (list string) string) * bool) := {|
  next_record r := match r with ([], _) => (None, ([], true)) | (x :: xs, d) => (Some x, (xs, d)) end;
  is_done r := bool_decide (r.1 = []) && r.2;
  unread r := r.1
|}.
Next Obligation. by intros [[|x xs] d]. Qed.
Next Obligation. intros [rs d]. simpl. by intros [H%bool_decide_eq_true _]%andb_true_iff. Qed.

Section csv_runs.
#[local] Existing Instance extern_model.

(** People with their age and town, two at a time. *)
Definition people_file : CsvFile :=
  mkCsvFile 0 [("age", (2, VNumber 0)); ("town", (1, VString ""))] (Some 2%N) None.
Definition people_rows : list (list string) := [["7"; "Berlin"; "30"]; ["8"; "Rome"; "-1"]; ["9"; ""; "+44"]].
Definition people_facts : list (list (nat * (Value * Value))) :=
  [[(0, (VEid 7, VNumber 30)); (1, (VEid 7, VString "Berlin"))];
   [(0, (VEid 8, VNumber (-1))); (1, (VEid 8, VString "Rome"))];
   [(0, (VEid 9, VNumber 44)); (1, (VEid 9, VString ""))]].
Definition people_reader : list (Result (list string) string) * bool := (Ok <$> people_rows, false).
Definition csv_outs {A B} (r : outcome (list A * B)) : list A := match r with Ret (outs, _) => outs | Panic _ => [] end.
Definition ticks_at (n : N) : Duration * Duration := (from_secs n, from_secs n).

Lemma people_readable : readable people_file (unread people_reader) people_facts.
Proof. repeat constructor; by eexists. Qed.

Lemma csv_source_delivers_witness :
  ∃ outs st', csv_run people_file (csv_start people_file people_reader) [ticks_at 1; ticks_at 2; ticks_at 3] =
      Ret (outs, st') ∧
    outs.*2 = [Some (from_secs 1); None; None] ∧ given_fact <$> concat outs.*1 = concat people_facts ∧
    is_done (csv_reader st') = true ∧ capabilities st' = [].
Proof.
  destruct (csv_source_delivers people_file (mkDuration 0 0) (csv_start people_file people_reader)
    [ticks_at 1; ticks_at 2; ticks_at 3] people_facts)
    as (outs & st' & n & Hrun & _ & Hag & _ & Hn & Hout & Hrest & Hd & Hc);
    [by right|done|exact people_readable|vm_compute; lia|].
  exists outs, st'. split; [exact Hrun|].
  assert (outs.*2 = [Some (from_secs 1); None; None]) as Hasks.
  { assert (outs = (csv_outs (csv_run people_file (csv_start people_file people_reader)
      [ticks_at 1; ticks_at 2; ticks_at 3]))) as -> by (rewrite Hrun; reflexivity). reflexivity. }
  split; [exact Hasks|]. split; [|split; [exact Hd|exact Hc]].
  rewrite <- (take_drop (S n) outs.*1), concat_app, Hrest, app_nil_r. exact Hout.
Defined.

Lemma csv_activation_spec_witness :
  ∃ out again st',
    csv_activate people_file (csv_start people_file people_reader) (from_secs 1) (from_secs 2) = Ret (out, again, st') ∧
    given_fact <$> out = concat (take (batch_size people_file) people_facts) ∧ 1 ≤ batch_size people_file ∧
    activation_ok people_file (from_secs 1) (out, again) st' ∧ csv_ok people_file (from_secs 2) st'.
Proof.
  apply (csv_activation_spec people_file (mkDuration 0 0) (csv_start people_file people_reader) (from_secs 1) (from_secs 2)
    people_facts); [by right|done|done|exact people_readable].
Defined.

(** A batch size of no records, or one that is negative as an [i64], reads one
    record at a time, except for the least, which wraps around to the greatest. *)
Example batch_sizes :
  batch_size (mkCsvFile 0 [] (Some 0%N) None) = 1 ∧
  batch_size (mkCsvFile 0 [] (Some (2 ^ 64 - 1)%N) None) = 1 ∧
  batch_size (mkCsvFile 0 [] None None) = 256 ∧
  total_fuel (mkCsvFile 0 [] (Some (2 ^ 63)%N) None) = (- 2 ^ 63)%Z ∧
  fuel_after (mkCsvFile 0 [] (Some (2 ^ 63)%N) None) 1 = (2 ^ 63 - 1)%Z.
Proof. done. Qed.

(** A field that does not parse takes the worker down. *)
Example malformed_field :
  is_panic (csv_activate people_file (csv_start people_file ([Ok ["7"; "Berlin"; "?"]], false)) (from_secs 1) (from_secs 2)) = true.
Proof. vm_refl. Qed.
End csv_runs.
