(* ===== verification/JsonSource.v ===== *)
(** * The JSON source (src/src/sources/json_file.rs)

    The operator that reads a file of JSON objects, one on each line; a source that
    is commented out of the module tree.  All workers read the whole file, and each
    ingests the lines whose number is its own index modulo the number of workers.
    It reads batches of 255 lines and activates itself again until the file is
    exhausted.  The lines are those the standard library's reader yields; serde_json
    is an argument, and its values are kept as far as the code tells them apart. *)
From Stdlib Require Import ZArith NArith Lia.
From stdpp Require Import base strings numbers gmap list.
From S2P Require Import Prelude Timestamps Values.

(** [serde_json::Value], as the value of a field and as a line; [FNumber] is
    [as_i64]. *)
Inductive JsonField := FString (s : string) | FNumber (as_i64 : option Z) | FBool (b : bool) | FOther.
Inductive JsonLine := LObject (map : gmap string JsonField) | LOther.

Section json_source.
Context `{EV : ExternValues} (parse_json : string → Result JsonLine string).

Record JsonFile := mkJsonFile { path : string; attributes : list Aid }.

(** What is given to the session of an output. *)
Abbreviation Fact := (nat * (Value * Value))%type (only parsing).
Abbreviation Given := (nat * (Value * Value * Duration * Z))%type (only parsing).
Abbreviation Line := (Result string string) (only parsing).

Record JsonState := mkJsonState {
  capabilities : list Duration;
  lines : list Line;
  num_objects_read : Z;
  object_index : N
}.

Context (self : JsonFile) (worker_index num_workers : N).

Definition field_value (json_value : JsonField) : outcome Value :=
  match json_value with
  | FString s => Ret (VString s)
  | FNumber num =>
      match num with
      | None => Panic "only i64 supported at the moment"
      | Some num => Ret (VNumber num)
      end
  | FBool b => Ret (VBool b)
  | FOther => Panic "only strings, booleans, and i64 types supported at the moment"
  end.

(** [for (idx, aid) in attributes.iter().enumerate()]. *)
Fixpoint attribute_facts (eid : N) (obj_map : gmap string JsonField) (idx : nat) (aids : list Aid)
    : outcome (list Fact) :=
  match aids with
  | [] => Ret []
  | aid :: aids =>
      match obj_map !! aid with
      | None => attribute_facts eid obj_map (S idx) aids
      | Some json_value =>
          let! v := field_value json_value in
          let! rest := attribute_facts eid obj_map (S idx) aids in
          Ret ((idx, (VEid eid, v)) :: rest)
      end
  end.

Definition object_facts (eid : N) (line : string) : outcome (list Fact) :=
  let! obj :=
    match parse_json line with
    | Ok obj => Ret obj
    | Err _ => Panic "called `Result::unwrap()` on an `Err` value"
    end in
  match obj with
  | LObject obj_map => attribute_facts eid obj_map 0 (attributes self)
  | LOther => Panic "called `Option::unwrap()` on a `None` value"
  end.

Definition given (t : Duration) (fact : Fact) : Given := (fact.1, (fact.2, t, 1%Z)).

(** [for readline in iterator.by_ref().take(256 - 1)], with the rest of the batch. *)
Fixpoint read_batch (batch : nat) (t : Duration) (st : JsonState) : outcome (list Given * JsonState) :=
  match batch, lines st with
  | O, _ | _, [] => Ret ([], st)
  | S batch, readline :: rest =>
      let! line := match readline with Ok line => Ret line | Err _ => Panic "read error" end in
      let mine := (object_index st mod num_workers =? worker_index)%N && negb (bool_decide (line = "")) in
      let! facts := if mine then object_facts (object_index st) line else Ret [] in
      let read := if mine then wrap_i 32 (num_objects_read st + 1) else num_objects_read st in
      let st := mkJsonState (capabilities st) rest read ((object_index st + 1) mod 2 ^ 64) in
      let! '(out, st) := read_batch batch t st in
      Ret ((given t <$> facts) ++ out, st)
  end.

(** One activation: what it gives, and whether it asks for the next one. *)
Definition json_activate (st : JsonState) (now : Duration) : outcome (list Given * bool * JsonState) :=
  if bool_decide (lines st = []) then
    Ret ([], false, mkJsonState [] (lines st) (num_objects_read st) (object_index st))
  else
    let! _ := assert_that "called `Option::unwrap()` on a `None` value"
                (length (attributes self) <=? length (capabilities st)) in
    let! '(out, st) := read_batch 255 now st in
    Ret (out, true, st).

(** Activations at the given clock readings. *)
Fixpoint json_run (st : JsonState) (clocks : list Duration) : outcome (list (list Given * bool) * JsonState) :=
  match clocks with
  | [] => Ret ([], st)
  | now :: clocks =>
      let! '(out, again, st) := json_activate st now in
      let! '(outs, st) := json_run st clocks in Ret ((out, again) :: outs, st)
  end.

Definition json_start (file : list Line) : JsonState :=
  mkJsonState (replicate (length (attributes self)) (mkDuration 0 0)) file 0 0.
End json_source.

(** ** What the lines mean *)
Section json_theorems.
Context `{EV : ExternValues} (parse_json : string → Result JsonLine string) (self : JsonFile).
Abbreviation Fact := (nat * (Value * Value))%type (only parsing).
Abbreviation Line := (Result string string) (only parsing).

(** The lines can be read, and hold the facts; empty lines hold none. *)
Fixpoint lines_mean (i : N) (file : list Line) (fss : list (list Fact)) : Prop :=
  match file, fss with
  | [], [] => True
  | l :: file, fs :: fss =>
      (∃ line, l = Ok line ∧ if decide (line = "") then fs = [] else object_facts parse_json self i line = Ret fs) ∧
      lines_mean (i + 1) file fss
  | _, _ => False
  end.

(** The facts of one worker's lines. *)
Fixpoint share (num_workers worker_index i : N) (fss : list (list Fact)) : list Fact :=
  match fss with
  | [] => []
  | fs :: fss =>
      (if (i mod num_workers =? worker_index)%N then fs else []) ++ share num_workers worker_index (i + 1) fss
  end.

Definition given_fact (g : nat * (Value * Value * Duration * Z)) : Fact := (g.1, g.2.1.1).
Lemma given_facts t (facts : list Fact) : given_fact <$> (given t <$> facts) = facts.
Proof. induction facts as [|[i f] facts IH]; [done|]. by rewrite !fmap_cons, IH. Qed.

Section worker.
Context (n w : N).

Lemma share_app i l k : share n w i (l ++ k) = share n w i l ++ share n w (i + N.of_nat (length l)) k.
Proof.
  revert i. induction l as [|fs l IH]; intros i; [simpl; by rewrite N.add_0_r|]. simpl. rewrite IH, app_assoc.
  do 2 f_equal. lia.
Qed.

Lemma read_batch_spec batch t st fss :
  lines_mean (object_index st) (lines st) fss → (object_index st + N.of_nat (length (lines st)) < 2 ^ 64)%N →
  ∃ st', read_batch parse_json self w n batch t st =
      Ret (given t <$> share n w (object_index st) (take batch fss), st') ∧
    capabilities st' = capabilities st ∧ lines st' = drop batch (lines st) ∧
    object_index st' = (object_index st + N.of_nat (length (take batch fss)))%N ∧
    lines_mean (object_index st') (lines st') (drop batch fss).
Proof.
  revert st fss. induction batch as [|batch IH]; intros st fss Hm Hlt.
  { exists st. rewrite !drop_0. simpl. rewrite N.add_0_r. by destruct (lines st). }
  cbn [read_batch]. destruct (lines st) as [|l file] eqn:Hl; destruct fss as [|fs fss]; try done.
  { exists st. rewrite Hl. simpl. by rewrite N.add_0_r. }
  destruct Hm as [(line & -> & Hline) Hm]. cbn [obind]. simpl length in Hlt.
  set (mine := (_ =? w)%N). set (mine' := mine && _).
  assert ((if mine' then object_facts parse_json self (object_index st) line else Ret []) =
          Ret (if mine then fs else [])) as ->.
  { unfold mine'. destruct mine; [|done]. rewrite andb_true_l. case_bool_decide as He; simpl.
    - rewrite decide_True in Hline by done. by rewrite Hline.
    - by rewrite decide_False in Hline. }
  cbn [obind]. rewrite (N.mod_small (object_index st + 1)) by lia. set (st1 := mkJsonState _ _ _ _).
  destruct (IH st1 fss) as (st' & -> & Hc & Hd & Hi & Hm'); [done|simpl; lia|].
  exists st'. split; [simpl; by rewrite fmap_app|]. split; [done|]. split; [done|].
  split; [rewrite Hi; simpl; lia|done].
Qed.

Lemma lines_mean_length i file fss : lines_mean i file fss → length fss = length file.
Proof.
  revert i fss. induction file as [|l file IH]; intros i [|fs fss]; try done. simpl. intros [_ Hm].
  f_equal. by eapply IH.
Qed.

Lemma json_run_spec st clocks fss :
  lines_mean (object_index st) (lines st) fss → (object_index st + N.of_nat (length (lines st)) < 2 ^ 64)%N →
  length (lines st) + 255 ≤ 255 * length clocks → (lines st = [] ∨ length (attributes self) ≤ length (capabilities st)) →
  ∃ outs st', json_run parse_json self w n st clocks = Ret (outs, st') ∧
    given_fact <$> concat outs.*1 = share n w (object_index st) fss ∧
    Forall2 (λ now out, Forall (λ g, g.2.1.2 = now ∧ g.2.2 = 1%Z) out.1) clocks outs ∧
    lines st' = [] ∧ capabilities st' = [].
Proof.
  revert st fss. induction clocks as [|now clocks IH]; intros st fss Hm Hlt Hlen Hcaps; [simpl in Hlen; lia|].
  cbn [json_run]. unfold json_activate. case_bool_decide as Hnil.
  - cbn [obind]. assert (fss = []) as -> by (rewrite Hnil in Hm; by destruct fss).
    set (st1 := mkJsonState [] _ _ _). clear IH.
    assert (∀ clocks, ∃ outs, json_run parse_json self w n st1 clocks = Ret (outs, st1) ∧ concat outs.*1 = [] ∧
      Forall2 (λ now out, Forall (λ g, g.2.1.2 = now ∧ g.2.2 = 1%Z) out.1) clocks outs) as Hrest.
    { clear -Hnil. induction clocks as [|t clocks (outs & Hr & Hc & Ht)]; [by exists []|].
      exists (([], false) :: outs). cbn [json_run]. unfold json_activate. rewrite bool_decide_true by done.
      cbn [obind]. fold st1. change (mkJsonState [] (lines st1) (num_objects_read st1) (object_index st1)) with st1.
      rewrite Hr. cbn [obind]. by repeat constructor. }
    destruct (Hrest clocks) as (outs & -> & Hc & Ht). eexists _, _. split; [done|]. csimpl. rewrite Hc.
    split; [done|]. split; [by repeat constructor|]. done.
  - destruct Hcaps as [|Hcaps]; [done|]. rewrite (proj2 (Nat.leb_le _ _) Hcaps). cbn [assert_that obind].
    destruct (read_batch_spec 255 now st fss Hm Hlt) as (st1 & -> & Hc & Hd & Hi & Hm1). cbn [obind].
    pose proof (lines_mean_length _ _ _ Hm) as Hlf. rewrite length_take in Hi.
    destruct (IH st1 (drop 255 fss)) as (outs & st' & -> & Hout & Ht & Hl & Hcs).
    { done. } { rewrite Hd, length_drop. lia. }
    { rewrite Hd, length_drop. simpl length in Hlen. destruct (lines st); [done|]. simpl in *. lia. }
    { right. by rewrite Hc. }
    eexists _, _. split; [done|]. csimpl. rewrite fmap_app, given_facts, Hout.
    split; [|split; [|done]].
    + rewrite Hi. pose proof (share_app (object_index st) (take 255 fss) (drop 255 fss)) as Hs.
      rewrite take_drop in Hs. by rewrite Hs, length_take.
    + constructor; [|done]. simpl. by apply Forall_fmap, Forall_true.
Qed.
End worker.

(** Every line has its worker. *)
Lemma bind_app_perm {A B} (f g : A → list B) l : (l ≫= λ x, f x ++ g x) ≡ₚ (l ≫= f) ++ (l ≫= g).
Proof. induction l as [|x l IH]; [done|]. csimpl. rewrite IH. solve_Permutation. Qed.

Lemma one_worker {A} n i (fs : list A) :
  (i < n)%N → (seq 0 (N.to_nat n) ≫= λ w, if (i =? N.of_nat w)%N then fs else []) = fs.
Proof.
  intros Hi. assert (seq 0 (N.to_nat n) = seq 0 (N.to_nat i) ++ N.to_nat i :: seq (S (N.to_nat i)) (N.to_nat n - S (N.to_nat i))) as ->.
  { rewrite <- (Nat.add_0_l (N.to_nat i)) at 2. change (N.to_nat i :: seq (S (N.to_nat i)) _) with
      (seq (N.to_nat i) (S (N.to_nat n - S (N.to_nat i)))).
    replace (N.to_nat n) with (N.to_nat i + S (N.to_nat n - S (N.to_nat i))) at 1 by lia. by rewrite seq_app. }
  assert (∀ l, (∀ w, w ∈ l → N.of_nat w ≠ i) → (l ≫= λ w, if (i =? N.of_nat w)%N then fs else []) = []) as Hnone.
  { induction l as [|w l IH]; intros Hl; [done|]. csimpl. rewrite IH by set_solver.
    destruct (N.eqb_spec i (N.of_nat w)) as [->|]; [|done]. exfalso. apply (Hl w); set_solver. }
  rewrite bind_app. csimpl. rewrite !Hnone, N2Nat.id, N.eqb_refl; [by rewrite app_nil_r|..];
    intros w Hw%elem_of_seq; lia.
Qed.

Lemma shares_perm n i fss :
  (0 < n)%N → (seq 0 (N.to_nat n) ≫= λ w, share n (N.of_nat w) i fss) ≡ₚ concat fss.
Proof.
  intros Hn. revert i. induction fss as [|fs fss IH]; intros i; cbn [share concat].
  - induction (seq 0 (N.to_nat n)); [done|]. by csimpl.
  - rewrite (bind_app_perm (λ w, if (i mod n =? N.of_nat w)%N then fs else [])), IH.
    by rewrite one_worker by (apply N.mod_lt; lia).
Qed.

(** C26 (the workers divide the file among them).  Let all lines of a file hold facts
    that can be told, or be empty.  However its workers' clocks read, a worker that is
    activated often enough for the length of the file reads it to the end without a
    panic and gives its outputs up; what it gives at an activation is at that
    activation's time; and all workers together give every fact of the file exactly
    once. *)
Theorem json_file_divided n file fss (clocks : N → list Duration) :
  (0 < n)%N → (N.of_nat (length file) < 2 ^ 64)%N → lines_mean 0 file fss →
  (∀ w, (w < n)%N → length file + 255 ≤ 255 * length (clocks w)) →
  ∃ outs : N → list (list (nat * (Value * Value * Duration * Z)) * bool),
    (∀ w, (w < n)%N → ∃ st,
      json_run parse_json self w n (json_start self file) (clocks w) = Ret (outs w, st) ∧
      Forall2 (λ now out, Forall (λ g, g.2.1.2 = now ∧ g.2.2 = 1%Z) out.1) (clocks w) (outs w) ∧
      lines st = [] ∧ capabilities st = []) ∧
    (seq 0 (N.to_nat n) ≫= λ w, given_fact <$> concat (outs (N.of_nat w)).*1) ≡ₚ concat fss.
Proof.
  intros Hn Hlen Hm Hclocks.
  set (run w := json_run parse_json self w n (json_start self file) (clocks w)).
  assert (∀ w, (w < n)%N → ∃ outs st', run w = Ret (outs, st') ∧
    given_fact <$> concat outs.*1 = share n w 0 fss ∧
    Forall2 (λ now out, Forall (λ g, g.2.1.2 = now ∧ g.2.2 = 1%Z) out.1) (clocks w) outs ∧
    lines st' = [] ∧ capabilities st' = []) as Hrun.
  { intros w Hw. apply (json_run_spec n w (json_start self file)); try done; [by apply Hclocks|].
    right. simpl. by rewrite length_replicate. }
  exists (λ w, match run w with Ret (outs, _) => outs | Panic _ => [] end). split.
  - intros w Hw. destruct (Hrun w Hw) as (outs & st' & Hr & _ & Ht & Hl & Hc). fold (run w). rewrite Hr. by exists st'.
  - rewrite <- (shares_perm n 0 fss Hn).
    assert (∀ w, w ∈ seq 0 (N.to_nat n) → (N.of_nat w < n)%N) as Hin by (intros w Hw%elem_of_seq; lia).
    induction (seq 0 (N.to_nat n)) as [|w ws IH]; [done|]. csimpl. rewrite IH by set_solver.
    destruct (Hrun (N.of_nat w)) as (outs & st' & Hr & Hf & _); [apply Hin; set_solver|]. by rewrite Hr, Hf.
Qed.
End json_theorems.

(** ** A concrete file *)
Section json_runs.
#[local] Existing Instances extern_model.

Definition parse_line (line : string) : Result JsonLine string :=
  if bool_decide (line = "ada") then Ok (LObject (<["name" := FString "Ada"]> {["age" := FNumber (Some 36%Z)]}))
  else if bool_decide (line = "bob") then Ok (LObject {["name" := FString "Bob"]})
  else Err "expected value".
Definition people : JsonFile := mkJsonFile "people.json" ["age"; "name"].

Lemma json_file_divided_witness :
  let file := [Ok "ada"; Ok ""; Ok "bob"] in
  let facts := [[(0, (VEid 0, VNumber 36)); (1, (VEid 0, VString "Ada"))]; []; [(1, (VEid 2, VString "Bob"))]] in
  lines_mean parse_line people 0 file facts ∧
  ∃ outs : N → list (list (nat * (Value * Value * Duration * Z)) * bool),
    (∀ w, (w < 2)%N → ∃ st,
      json_run parse_line people w 2 (json_start people file) [mkDuration 1 0; mkDuration 2 0] = Ret (outs w, st) ∧
      Forall2 (λ now out, Forall (λ g, g.2.1.2 = now ∧ g.2.2 = 1%Z) out.1) [mkDuration 1 0; mkDuration 2 0] (outs w) ∧
      lines st = [] ∧ capabilities st = []) ∧
    (seq 0 2 ≫= λ w, given_fact <$> concat (outs (N.of_nat w)).*1) ≡ₚ concat facts.
Proof.
  intros file facts.
  assert (lines_mean parse_line people 0 file facts) as Hm.
  { split; [exists "ada"; split; reflexivity|]. split; [exists ""; split; reflexivity|].
    split; [exists "bob"; split; reflexivity|]. exact I. }
  split; [exact Hm|].
  apply (json_file_divided parse_line people 2 file facts (λ _, [mkDuration 1 0; mkDuration 2 0])); [done|done|exact Hm|].
  intros w _. simpl. lia.
Defined.

(** (a malformed line takes the worker down). *)
Example json_malformed :
  json_run parse_line people 0 1 (json_start people [Ok "null"]) [mkDuration 1 0] =
  Panic "called `Result::unwrap()` on an `Err` value".
Proof. reflexivity. Qed.
End json_runs.
