(* ===== verification/Logging.v ===== *)
(** * Logging (src/src/logging.rs, and the loggers of src/src/server/)

    The library's own events, and the loggers a worker has registered with timely:
    the server inserts them at the start, takes them out while it builds a dataflow
    that is not to be logged, and replaces them when it shuts down.  The registry is
    timely's, used through an interface. *)
From Stdlib Require Import ZArith NArith.
From stdpp Require Import base strings gmap fin_maps.
From S2P Require Import Prelude.

(** ** Events *)

Record JoinTuplesEvent := mkJoinTuples { jt_cardinality : Z }.
Inductive DeclarativeEvent := JoinTuples (e : JoinTuplesEvent).
Definition DeclarativeEvent_from (e : JoinTuplesEvent) : DeclarativeEvent := JoinTuples e.

(** The types of events a logger may be for. *)
Inductive LoggedEvent := LTimely | LDifferential | LDeclarative.
#[export] Instance LoggedEvent_eq_dec : EqDecision LoggedEvent.
Proof. solve_decision. Defined.

(** What a logger does with a batch: it publishes it to an event link, or drops it. *)
Inductive LogAction (Link : Type) := PublishBatch (link : Link) | Ignore.
Arguments PublishBatch {_} link.
Arguments Ignore {_}.

(** [timely::logging::Registry]: loggers by name, of any type of event. *)
Class LogRegistry (Registry Logger : Type) := {
  get_logger : Registry → string → option (LoggedEvent * Logger);
  insert_logger : Registry → string → LoggedEvent * Logger → Registry;
  remove_logger : Registry → string → Registry;
  get_insert_logger : ∀ r name l name',
    get_logger (insert_logger r name l) name' = if decide (name = name') then Some l else get_logger r name';
  get_remove_logger : ∀ r name name',
    get_logger (remove_logger r name) name' = if decide (name = name') then None else get_logger r name'
}.

#[refine] Instance registry_model Logger : LogRegistry (gmap string (LoggedEvent * Logger)) Logger := {|
  get_logger r name := r !! name;
  insert_logger r name l := <[name := l]> r;
  remove_logger r name := delete name r
|}.
Proof. - intros. apply lookup_insert. - intros. apply lookup_delete. Defined.

Section loggers.
Context {Registry Link : Type} `{LR : !LogRegistry Registry (LogAction Link)}.
Abbreviation Logger := (LoggedEvent * LogAction Link)%type (only parsing).

(** [Server::enable_logging]. *)
Definition Server_enable_logging (timely_events differential_events : option Link) (register : Registry)
    : outcome Registry :=
  let! timely := expect "called `Option::unwrap()` on a `None` value" timely_events in
  let register := insert_logger register "timely" (LTimely, PublishBatch timely) in
  let! differential := expect "called `Option::unwrap()` on a `None` value" differential_events in
  Ret (insert_logger register "differential/arrange" (LDifferential, PublishBatch differential)).

(** [Server::shutdown_logging]. *)
Definition Server_shutdown_logging (register : Registry) : Registry :=
  let register := insert_logger register "timely" (LTimely, Ignore) in
  let register := insert_logger register "differential/arrange" (LDifferential, Ignore) in
  insert_logger register "declarative" (LDeclarative, Ignore).

(** [worker.log_register().remove(name)]. *)
Definition take_logger (register : Registry) (name : string) : option Logger * Registry :=
  (get_logger register name, remove_logger register name).

(** [logger.downcast::<Logger<E>>()], and [insert_logger]. *)
Definition restore_logger (register : Registry) (name : string) (event : LoggedEvent) (logger : option Logger)
    : Registry :=
  match logger with
  | Some (event', action) =>
      if decide (event' = event) then insert_logger register name (event, action) else register
  | None => register
  end.

(** A dataflow built by the handler of [Request::Interest]. *)
Definition without_loggers {A} (disable_logging : bool) (build : Registry → outcome (A * Registry))
    (register : Registry) : outcome (A * Registry) :=
  if disable_logging then
    let '(timely_logger, register) := take_logger register "timely" in
    let '(differential_logger, register) := take_logger register "differential/arrange" in
    let! '(result, register) := build register in
    let register := restore_logger register "timely" LTimely timely_logger in
    let register := restore_logger register "differential/arrange" LDifferential differential_logger in
    Ret (result, register)
  else build register.

(** [DeclarativeLogging::source] inserts its own logger. *)
Definition declarative_logger (link : Link) (register : Registry) : Registry :=
  insert_logger register "declarative" (LDeclarative, PublishBatch link).

(** ** Who is registered *)

Definition same_loggers (r r' : Registry) : Prop := ∀ name, get_logger r name = get_logger r' name.

(** A name's logger is for its type of event. *)
Definition typed_for (r : Registry) (name : string) (event : LoggedEvent) : Prop :=
  ∀ l, get_logger r name = Some l → l.1 = event.

Lemma get_restore_logger r name event logger name' :
  get_logger (restore_logger r name event logger) name' =
  if decide (name = name') then
    match logger with Some l => if decide (l.1 = event) then Some l else get_logger r name' | None => get_logger r name' end
  else get_logger r name'.
Proof.
  destruct logger as [[e a]|]; simpl; [|by case_decide]. case_decide as He; [subst|by repeat case_decide].
  rewrite get_insert_logger. by repeat case_decide.
Qed.

(** (the dataflow is not logged, and what comes after it is).  A dataflow is built
    without the two loggers; afterwards every name has the logger it had, provided
    building the dataflow left the registry alone. *)
Lemma without_loggers_spec {A} (build : Registry → outcome (A * Registry)) r a r' :
  typed_for r "timely" LTimely → typed_for r "differential/arrange" LDifferential →
  (∀ r0 a0 r1, build r0 = Ret (a0, r1) → same_loggers r0 r1) →
  without_loggers true build r = Ret (a, r') →
  same_loggers r r' ∧ ∃ during after, build during = Ret (a, after) ∧
    get_logger during "timely" = None ∧ get_logger during "differential/arrange" = None.
Proof.
  intros Ht Hd Hbuild Hw. apply obind_Ret in Hw as ([a1 after] & Hb & Hw). injection Hw as -> <-. split.
  - intros name. rewrite !get_restore_logger. pose proof (Hbuild _ _ _ Hb name) as Hn.
    rewrite !get_remove_logger in Hn. rewrite !get_remove_logger.
    destruct (decide ("differential/arrange" = name)) as [<-|]; simpl in *.
    + destruct (get_logger r "differential/arrange") as [l|] eqn:Hl; [|done]. by rewrite decide_True by auto.
    + destruct (decide ("timely" = name)) as [<-|]; simpl in *; [|done].
      destruct (get_logger r "timely") as [l|] eqn:Hl; [|done]. by rewrite decide_True by auto.
  - eexists _, after. split; [exact Hb|]. rewrite !get_remove_logger. by split.
Qed.

(** What a worker does to its loggers. *)
Inductive worker_logs : Registry → Prop :=
| logs_new r : (∀ name e link, get_logger r name ≠ Some (e, PublishBatch link)) → worker_logs r
| logs_enabled t d r r' : worker_logs r → Server_enable_logging t d r = Ret r' → worker_logs r'
| logs_declarative link r : worker_logs r → worker_logs (declarative_logger link r)
| logs_interest {A} b (build : Registry → outcome (A * Registry)) r a r' :
    worker_logs r → (∀ r0 a0 r1, build r0 = Ret (a0, r1) → same_loggers r0 r1) →
    without_loggers b build r = Ret (a, r') → worker_logs r'.

Definition log_names : list string := ["timely"; "differential/arrange"; "declarative"].

Lemma worker_logs_names r :
  worker_logs r → ∀ name e link, get_logger r name = Some (e, PublishBatch link) → name ∈ log_names.
Proof.
  induction 1 as [r Hr|t d r r' _ IH He|link r _ IH|A b build r a r' _ IH Hb Hw]; intros name e l.
  - intros Hl. by apply Hr in Hl.
  - apply obind_Ret in He as (t' & _ & (d' & _ & [= <-])%obind_Ret). rewrite !get_insert_logger.
    repeat case_decide; subst; [set_solver..|]. apply IH.
  - unfold declarative_logger. rewrite get_insert_logger. case_decide; subst; [set_solver|]. apply IH.
  - destruct b; [|rewrite <- (Hb _ _ _ Hw); apply IH].
    apply obind_Ret in Hw as ([a1 after] & Hd & Hw). injection Hw as -> <-. rewrite !get_restore_logger.
    assert (∀ name e l, get_logger after name = Some (e, PublishBatch l) → name ∈ log_names) as Hafter.
    { intros n e0 l0. rewrite <- (Hb _ _ _ Hd), !get_remove_logger. repeat case_decide; try done. apply IH. }
    repeat case_decide; subst; try (intros; set_solver); apply Hafter.
Qed.

(** (nothing is published after the shutdown).  Whatever the worker did before, the
    event links are in no logger once logging is shut down, so that the dataflows that
    replay them can end. *)
Lemma shutdown_silences r :
  worker_logs r → ∀ name e link, get_logger (Server_shutdown_logging r) name ≠ Some (e, PublishBatch link).
Proof.
  intros Hr name e link. unfold Server_shutdown_logging. rewrite !get_insert_logger.
  repeat case_decide; try done. intros Hl%(worker_logs_names r Hr). set_solver.
Qed.
End loggers.
