(* ===== verification/LogSources.v ===== *)
(** * Logging streams as attributes (src/src/sources/)

    The demultiplexers of the event streams of timely and differential dataflow,
    and of the library's own (which is commented out of the module tree): each event becomes facts of some attributes, and a fact is given to the output
    of its attribute if there is one.  The events are those of the two libraries,
    as far as the code looks into them. *)
From Stdlib Require Import ZArith NArith Lia.
From stdpp Require Import base strings numbers gmap sets list.
From S2P Require Import Prelude Timestamps Values Weighted Logging.

(** ** Events *)

Inductive TimelyEvent :=
| Operates (id : N) (addr : list N) (name : string)
| TShutdown (id : N)
| Channels (id : N) (scope_addr : list N) (source target : N * N)
| Schedule (id : N) (start : bool)
| Messages
| OtherTimely.

Inductive DifferentialEvent :=
| Batch (operator length : N)
| Merge (operator length1 length2 : N) (complete : option N)
| OtherDifferential.

Section logging.
Context `{EV : ExternValues}.

(** [addr.pop().unwrap()], at the end of an address. *)
Definition pop_addr (addr : list N) : outcome (N * list N) :=
  let! x := expect "called `Option::unwrap()` on a `None` value" (last addr) in
  Ret (x, removelast addr).

(** ** [TimelyLogging]: the facts of an event, in the order in which they are given. *)

Abbreviation LogFact := (Aid * (Value * Value))%type (only parsing).

Definition operator_scope (eid : Value) (addr : list N) : outcome (list LogFact) :=
  match addr with
  | [] => Ret [("timely/scope", (eid, VEid 0))]
  | _ =>
      let! '(scope, addr) := pop_addr addr in
      match addr with
      | [] => Ret [("timely/scope", (eid, VEid scope))]
      | _ =>
          let! '(parent, _) := pop_addr addr in
          Ret [("timely/scope", (eid, VEid scope)); ("timely/scope", (VEid scope, VEid parent))]
      end
  end.

Definition timely_facts (datum : TimelyEvent) : outcome (list LogFact) :=
  match datum with
  | Operates id addr name =>
      let eid := VEid id in
      let! '(local_id, addr) := pop_addr addr in
      let! scopes := operator_scope eid addr in
      Ret (scopes ++ [("timely.event.operates/local-id", (eid, VEid local_id));
                      ("timely.event.operates/name", (eid, VString name))])
  | TShutdown id => Ret [("timely.event.operates/shutdown?", (VEid id, VBool true))]
  | Channels id scope_addr source target =>
      let eid := VEid id in
      let! '(scope, _) := pop_addr scope_addr in
      Ret [("timely/scope", (eid, VEid scope));
           ("timely.event.channels/src-index", (eid, VEid source.1));
           ("timely.event.channels/src-port", (eid, VEid source.2));
           ("timely.event.channels/target-index", (eid, VEid target.1));
           ("timely.event.channels/target-port", (eid, VEid target.2))]
  | Schedule id start => Ret [("schedule/started?", (VEid id, VBool start))]
  | Messages | OtherTimely => Ret []
  end.

(** ** [DifferentialLogging] *)

(** Differences of sizes wrap, like the casts to [i64]. *)
Definition differential_facts (datum : DifferentialEvent) : outcome (list LogFact) :=
  match datum with
  | Batch operator length =>
      Ret [("differential.event/size", (VEid operator, VNumber (wrap_i 64 (Z.of_N length))))]
  | Merge operator length1 length2 (Some complete_size) =>
      let size_diff := wrap_i 64 (wrap_i 64 (Z.of_N complete_size) - wrap_i 64 (Z.of_N ((length1 + length2) mod 2 ^ 64)))%Z in
      Ret [("differential.event/size", (VEid operator, VNumber size_diff))]
  | Merge _ _ _ None | OtherDifferential => Ret []
  end.

(** ** [DeclarativeLogging] *)

Definition declarative_facts (worker : N) (datum : DeclarativeEvent) : outcome (list LogFact) :=
  match datum with
  | JoinTuples x =>
      Ret [("declarative.event.join/tuples", (VEid worker, VNumber (jt_cardinality x)))]
  end.

(** ** The demultiplexer *)
Section demux.
Context {Event : Type} (facts : N → Event → outcome (list LogFact)) (attributes : list Aid).

Abbreviation Sent := (Aid * (Value * Value * Duration * Z))%type (only parsing).

(** [sessions.get_mut(&aid).map(|s| s.give(((e, v), time, 1)))]. *)
Definition give_fact (time : Duration) (fact : LogFact) : list Sent :=
  if decide (fact.1 ∈ attributes) then [(fact.1, (fact.2, time, 1%Z))] else [].

(** [for (time, worker, datum) in demux_buffer.drain(..)]. *)
Fixpoint demux_buffer (data : list (Duration * N * Event)) : outcome (list Sent) :=
  match data with
  | [] => Ret []
  | (time, worker, datum) :: data =>
      let! fs := facts worker datum in
      let! out := demux_buffer data in
      Ret ((fs ≫= give_fact time) ++ out)
  end.
End demux.

(** The attributes of a source: [streams.remove(aid).unwrap()] for each. *)
Fixpoint take_streams (semantics : InputSemantics) (streams : gset Aid) (attributes : list Aid)
    : outcome (list (Aid * AttributeConfig)) :=
  match attributes with
  | [] => Ret []
  | aid :: attributes =>
      let! _ := assert_that "called `Option::unwrap()` on a `None` value" (bool_decide (aid ∈ streams)) in
      let! rest := take_streams semantics (streams ∖ {[aid]}) attributes in
      Ret ((aid, AttributeConfig_real_time semantics) :: rest)
  end.

Definition timely_attributes (attributes : list Aid) : outcome (list (Aid * AttributeConfig)) :=
  take_streams Distinct (list_to_set attributes) attributes.
Definition differential_attributes (attributes : list Aid) : outcome (list (Aid * AttributeConfig)) :=
  take_streams Raw (list_to_set attributes) attributes.

Definition declarative_attributes (attributes : list Aid) : outcome (list (Aid * AttributeConfig)) :=
  take_streams Raw (list_to_set attributes) attributes.

(** What each of the three demultiplexers sends. *)
Definition timely_demux (attributes : list Aid) := demux_buffer (λ _, timely_facts) attributes.
Definition differential_demux (attributes : list Aid) := demux_buffer (λ _, differential_facts) attributes.
Definition declarative_demux (attributes : list Aid) := demux_buffer declarative_facts attributes.

(** ** Remote computations *)

(** [make_replayers]: the sockets a worker replays, [None] where one was taken. *)
Definition make_replayers {Socket : Type} (sockets : list (option Socket)) (index peers : nat)
    : outcome (list Socket * list (option Socket)) :=
  let mine := filter (λ p, p.1 `mod` peers = index) (zip (seq 0 (length sockets)) sockets) in
  let! taken := mapM_outcome (λ p, expect "called `Option::unwrap()` on a `None` value" p.2) mine in
  Ret (taken, imap (λ i s, if decide (i `mod` peers = index) then None else s) sockets).

(** ** What the outputs get *)

(** (demultiplexing).  If the facts of all events can be told, every output gets
    exactly the facts of its attribute, at the times of their events, in order, and
    nothing is given where there is no output. *)
Lemma demux_spec {Event} (facts : N → Event → outcome (list LogFact)) attributes data out :
  demux_buffer facts attributes data = Ret out →
  ∃ fss, Forall2 (λ d fs, facts d.1.2 d.2 = Ret fs) data fss ∧ Forall (λ s, s.1 ∈ attributes) out ∧
    ∀ aid, aid ∈ attributes →
      filter (λ s, s.1 = aid) out =
      zip data fss ≫= λ '(d, fs), (λ f, (aid, (f.2, d.1.1, 1%Z))) <$> filter (λ f, f.1 = aid) fs.
Proof.
  revert out. induction data as [|[[t w] d] data IH]; intros out; cbn [demux_buffer].
  - intros [= <-]. exists []. by repeat constructor.
  - intros (fs & Hfs & (out' & Hout' & [= <-])%obind_Ret)%obind_Ret.
    destruct (IH out' Hout') as (fss & Hall & Hin & Heq). exists (fs :: fss).
    split; [by constructor|]. split.
    + apply Forall_app. split; [|done]. clear. induction fs as [|f fs IH]; [constructor|]. csimpl.
      apply Forall_app. split; [|done]. unfold give_fact. case_decide; [by constructor|constructor].
    + intros aid Haid. csimpl. rewrite filter_app, Heq by done. f_equal. clear -Haid.
      induction fs as [|f fs IH]; [done|]. csimpl. rewrite filter_app, IH, filter_cons. unfold give_fact.
      case_decide as Hin; case_decide as Hf; simpl.
      * rewrite filter_cons, decide_True by done. simpl. by rewrite Hf.
      * by rewrite filter_cons, decide_False.
      * by rewrite Hf in Hin.
      * done.
Qed.

(** Duplicate attributes take the worker down. *)
Lemma take_streams_spec semantics streams attributes :
  match take_streams semantics streams attributes with
  | Ret l => NoDup attributes ∧ Forall (λ aid, aid ∈ streams) attributes ∧
             l = (λ aid, (aid, AttributeConfig_real_time semantics)) <$> attributes
  | Panic _ => ¬ (NoDup attributes ∧ Forall (λ aid, aid ∈ streams) attributes)
  end.
Proof.
  revert streams. induction attributes as [|aid attributes IH]; intros streams; cbn [take_streams].
  { split; [constructor|]. split; [constructor|done]. }
  case_bool_decide as Haid; simpl; [|by intros [_ [? _]%Forall_cons]].
  specialize (IH (streams ∖ {[aid]})). destruct (take_streams _ _ attributes) as [l|]; simpl.
  - destruct IH as (Hnd & Hall & ->). rewrite Forall_forall in Hall. split; [|split; [|done]].
    + constructor; [|done]. intros Hin. specialize (Hall aid Hin). set_solver.
    + constructor; [done|]. apply Forall_forall. intros x Hx. specialize (Hall x Hx). set_solver.
  - intros [[Hni Hnd]%NoDup_cons [_ Hall]%Forall_cons]. apply IH. split; [done|].
    rewrite Forall_forall in Hall |- *. intros x Hx. specialize (Hall x Hx). set_solver.
Qed.

(** ** Sizes

    The batches a trace holds, as its events tell. *)
Inductive holds (op : N) : list DifferentialEvent → list N → Prop :=
| holds_start : holds op [] []
| holds_batch evs sizes len : holds op evs sizes → holds op (evs ++ [Batch op len]) (len :: sizes)
| holds_merge evs sizes rest len1 len2 complete :
    holds op evs sizes → sizes ≡ₚ len1 :: len2 :: rest →
    holds op (evs ++ [Merge op len1 len2 (Some complete)]) (complete :: rest)
| holds_started evs sizes op' len1 len2 : holds op evs sizes → holds op (evs ++ [Merge op' len1 len2 None]) sizes
| holds_batch_other evs sizes op' len : holds op evs sizes → op' ≠ op → holds op (evs ++ [Batch op' len]) sizes
| holds_merge_other evs sizes op' len1 len2 complete :
    holds op evs sizes → op' ≠ op → holds op (evs ++ [Merge op' len1 len2 complete]) sizes
| holds_other evs sizes : holds op evs sizes → holds op (evs ++ [OtherDifferential]) sizes.

(** The sizes reported for an operator. *)
Definition reported (op : N) (ev : DifferentialEvent) : list Z :=
  match differential_facts ev with
  | Ret fs => fs ≫= λ f, match f.2 with (VEid e, VNumber n) => if decide (e = op) then [n] else [] | _ => [] end
  | Panic _ => []
  end.

Definition total (sizes : list N) : Z := sumZ (Z.of_N <$> sizes).

Definition congruent (a b : Z) : Prop := ∃ k, a = (b + k * 2 ^ 64)%Z.

Lemma wrap_congruent a : congruent (wrap_i 64 a) a.
Proof.
  destruct (proj1 (wrap_i64_congr (wrap_i 64 a) a)) as [k Hk]; [apply wrap_i64_id, wrap_i64_range|].
  exists k. lia.
Qed.
Lemma congruent_add a b c d : congruent a b → congruent c d → congruent (a + c) (b + d).
Proof. intros [k ->] [k' ->]. exists (k + k')%Z. lia. Qed.
Lemma congruent_wrap a b : congruent a b → wrap_i 64 a = wrap_i 64 b.
Proof. intros [k ->]. apply wrap_i64_mod. by rewrite Z.mod_add. Qed.

Lemma batch_reported op len : congruent (sumZ (reported op (Batch op len))) (Z.of_N len).
Proof.
  unfold reported. simpl. rewrite decide_True by done. simpl. rewrite Z.add_0_r. apply wrap_congruent.
Qed.

Lemma merge_reported op len1 len2 complete :
  congruent (sumZ (reported op (Merge op len1 len2 (Some complete)))) (Z.of_N complete - Z.of_N len1 - Z.of_N len2).
Proof.
  unfold reported. simpl. rewrite decide_True by done. simpl. rewrite Z.add_0_r.
  destruct (wrap_congruent (wrap_i 64 (Z.of_N complete) - wrap_i 64 (Z.of_N ((len1 + len2) `mod` 2 ^ 64)))) as [k1 ->].
  destruct (wrap_congruent (Z.of_N complete)) as [k2 ->].
  destruct (wrap_congruent (Z.of_N ((len1 + len2) `mod` 2 ^ 64))) as [k3 ->].
  pose proof (N.div_mod (len1 + len2) (2 ^ 64)) as Hd.
  exists (k1 + k2 - k3 + Z.of_N ((len1 + len2) / 2 ^ 64))%Z. lia.
Qed.

Lemma other_reported op ev :
  match ev with Batch op' _ | Merge op' _ _ (Some _) => op' ≠ op | _ => True end → sumZ (reported op ev) = 0%Z.
Proof.
  destruct ev as [op' len|op' len1 len2 [c|]|]; unfold reported; simpl; try done; intros; by rewrite decide_False.
Qed.

(** C37 (reported sizes add up).  The sizes reported for an operator add up, modulo
    the width of an [i64], to the size of the batches its trace holds: a batch adds
    its length, a completed merge what it gained or lost. *)
Theorem differential_sizes_add_up op evs sizes :
  holds op evs sizes → wrap_i 64 (sumZ (evs ≫= reported op)) = wrap_i 64 (total sizes).
Proof.
  intros Hh. apply congruent_wrap.
  assert (∀ evs ev, sumZ ((evs ++ [ev]) ≫= reported op) = (sumZ (evs ≫= reported op) + sumZ (reported op ev))%Z) as Hsnoc.
  { intros. rewrite bind_app, sumZ_app. csimpl. by rewrite app_nil_r. }
  induction Hh as [|evs sizes len H IH|evs sizes rest len1 len2 c H IH Hperm|evs sizes op' len1 len2 H IH|
    evs sizes op' len H IH Hne|evs sizes op' len1 len2 c H IH Hne|evs sizes H IH]; [by exists 0%Z|..]; rewrite Hsnoc.
  - unfold total. csimpl. rewrite (Z.add_comm (Z.of_N len)). apply congruent_add; [exact IH|apply batch_reported].
  - unfold total in *. rewrite (sumZ_perm _ _ (fmap_Permutation _ _ _ Hperm)) in IH. csimpl in IH. csimpl.
    destruct IH as [k ->]. destruct (merge_reported op len1 len2 c) as [k' ->]. exists (k + k')%Z. lia.
  - by rewrite other_reported, Z.add_0_r.
  - by rewrite other_reported, Z.add_0_r.
  - rewrite other_reported, Z.add_0_r by (by destruct c). done.
  - by rewrite other_reported, Z.add_0_r.
Qed.

End logging.

Lemma differential_sizes_add_up_witness :
  let evs := [Batch 3 10; Batch 4 1; Batch 3 5; Merge 3 10 5 None; Merge 3 10 5 (Some 12%N)] in
  holds 3 evs [12%N] ∧ wrap_i 64 (sumZ (evs ≫= reported (EV := extern_model) 3)) = 12%Z.
Proof.
  assert (holds 3 [Batch 3 10; Batch 4 1; Batch 3 5; Merge 3 10 5 None; Merge 3 10 5 (Some 12%N)] [12%N]) as Hh.
  { apply (holds_merge 3 [Batch 3 10; Batch 4 1; Batch 3 5; Merge 3 10 5 None] [5%N; 10%N] [] 10 5 12); [|constructor].
    apply (holds_started 3 [Batch 3 10; Batch 4 1; Batch 3 5]).
    apply (holds_batch 3 [Batch 3 10; Batch 4 1] [10%N] 5).
    apply (holds_batch_other 3 [Batch 3 10] [10%N] 4 1); [|done]. apply (holds_batch 3 [] [] 10). constructor. }
  split; [exact Hh|]. exact (differential_sizes_add_up (EV := extern_model) 3 _ [12%N] Hh).
Defined.
