(* ===== verification/Sources.v ===== *)
(** * The kinds of sources (src/src/sources/mod.rs)

    What a registered source is, and the attributes it provides, whichever kind it
    is of.  Only builds with the real-time feature have sources. *)
From Stdlib Require Import ZArith NArith.
From stdpp Require Import base strings gmap sets list.
From S2P Require Import Prelude Timestamps Values CsvSource LogSources.

Section sources.
Context `{EV : ExternValues}.

Inductive Source :=
| TimelyLogging (attributes : list Aid) (remote_peers : option N)
| DifferentialLogging (attributes : list Aid)
| CsvFileSource (source : CsvFile).

(** [Source::source], as far as the names and configurations of the attributes. *)
Definition Source_attributes (real_time : bool) (self : Source) : outcome (list (Aid * AttributeConfig)) :=
  if real_time then
    match self with
    | TimelyLogging attributes _ => timely_attributes attributes
    | DifferentialLogging attributes => differential_attributes attributes
    | CsvFileSource source => Ret (csv_attributes source)
    end
  else Panic "not yet implemented".

Definition source_names (self : Source) : list Aid :=
  match self with
  | TimelyLogging attributes _ | DifferentialLogging attributes => attributes
  | CsvFileSource source => (schema source).*1
  end.

(** A source provides the attributes asked for, in their order, unless it taps a
    log for one attribute twice; a file provides a column twice when asked to. *)
Lemma Source_attributes_spec self :
  match self with CsvFileSource _ => True | _ => NoDup (source_names self) end ↔
  ∃ l, Source_attributes true self = Ret l ∧ l.*1 = source_names self.
Proof.
  assert (∀ semantics attributes, NoDup attributes ↔
    ∃ l, take_streams semantics (list_to_set attributes) attributes = Ret l ∧ l.*1 = attributes) as Htake.
  { intros semantics attributes. pose proof (take_streams_spec semantics (list_to_set attributes) attributes) as Hs.
    assert (Forall (λ aid, aid ∈@{gset Aid} list_to_set attributes) attributes) as Hall
      by (apply Forall_forall; intros aid; apply elem_of_list_to_set).
    destruct (take_streams _ _ _) as [l|msg].
    - destruct Hs as (Hnd & _ & ->). split; [|done]. intros _. eexists. split; [done|].
      rewrite <- list_fmap_compose. apply list_fmap_id.
    - split; [tauto|]. by intros (? & ? & _). }
  destruct self as [attributes peers|attributes|source]; [apply Htake..|].
  split; [|done]. intros _. eexists. split; [done|]. unfold csv_attributes. cbn [source_names].
  by rewrite <- !list_fmap_compose.
Qed.
End sources.
