(* ===== verification/CsvSink.v ===== *)
(** * The CSV sink (src/src/sinks/csv_file.rs)

    The operator that writes the tuples of a result to a file, a variant of the
    sinks that is commented out of the module tree: it keeps what it has received,
    sorted by time, and at each activation writes what the frontier has passed.
    The writer is the csv crate's, used through an interface.  The theorem is about
    the contents of the file: they do not depend on how the updates are cut into
    messages and activations. *)
From Stdlib Require Import ZArith NArith Lia Sorting.Sorted.
From stdpp Require Import base strings numbers sets list sorting.
From S2P Require Import Prelude Timestamps Values.

(** [csv::WriterBuilder] and [csv::Writer::serialize]. *)
Class CsvWriter `{EV : ExternValues} (W : Type) := {
  writer_from_path : bool → N → string → Result W string;
  write_record : W → list Value → option W
}.

(** What a file holds, as its records. *)
Instance csv_writer_model `{EV : ExternValues} : CsvWriter (list (list Value)) := {|
  writer_from_path _ _ _ := Ok [];
  write_record w tuple := Some (w ++ [tuple])
|}.

Section csv_sink.
Context `{EV : ExternValues} {W : Type} `{CW : !CsvWriter W, TM : !Timely N}.

Record CsvFile := mkCsvFile { path : string; has_headers : bool; delimiter : N; flexible : bool }.

Abbreviation Update := (list Value * N * Z)%type (only parsing).
Abbreviation Received := (N * list Value)%type (only parsing).

Record CsvSink := mkCsvSink { writer : W; recvd : list Received }.

(** [CsvFile::sink]: the operator's first state, if the file can be written. *)
Definition CsvFile_sink (self : CsvFile) : Result CsvSink Error :=
  match writer_from_path (has_headers self) (delimiter self) (path self) with
  | Err error => Err (Error_fault ("Failed to create writer: " +:+ error))
  | Ok w => Ok (mkCsvSink w [])
  end.

Definition receive (u : Update) : Received := (u.1.2, u.1.1).

(** [writer.serialize(tuple).expect("failed to write record")]. *)
Fixpoint write_tuples (w : W) (tuples : list Received) : outcome W :=
  match tuples with
  | [] => Ret w
  | (_, tuple) :: tuples =>
      let! w := expect "failed to write record" (write_record w tuple) in write_tuples w tuples
  end.

Definition by_time (x y : Received) : bool := cmp_le x.1 y.1.

(** The body of the operator, for the messages that arrived and the input's frontier. *)
Definition csv_sink_activate (self : CsvSink) (messages : list (list Update)) (frontier : list N)
    : outcome CsvSink :=
  let recvd := sort_by by_time (recvd self ++ (receive <$> concat messages)) in
  let count := length (filter (λ r, negb (antichain_less_equal frontier r.1)) recvd) in
  let! writer := write_tuples (writer self) (take count recvd) in
  Ret (mkCsvSink writer (drop count recvd)).

Fixpoint csv_sink_run (self : CsvSink) (steps : list (list (list Update) * list N)) : outcome CsvSink :=
  match steps with
  | [] => Ret self
  | (messages, frontier) :: steps =>
      let! self := csv_sink_activate self messages frontier in csv_sink_run self steps
  end.

(** ** The order of times *)
Lemma by_time_total x y : by_time x y = true ∨ by_time y x = true.
Proof. unfold by_time. apply cmp_le_total. Qed.
Lemma by_time_trans x y z : by_time x y = true → by_time y z = true → by_time x z = true.
Proof. unfold by_time. apply cmp_le_trans. Qed.

Lemma by_time_le x y : by_time x y = true ↔ (x.1 ≤ y.1)%N.
Proof. unfold by_time, cmp_le, cmp, Ord_N. destruct (N.compare_spec x.1 y.1); split; (done || lia). Qed.

(** A frontier's times have passed. *)
Definition passed (frontier : list N) (r : Received) : Prop := antichain_less_equal frontier r.1 = false.
#[local] Instance passed_decision frontier r : Decision (passed frontier r).
Proof. apply bool_eq_dec. Defined.

Lemma passed_lower frontier x y : by_time x y = true → passed frontier y → passed frontier x.
Proof.
  rewrite by_time_le. unfold passed. rewrite <- !not_true_iff_false, !antichain_less_equal_spec.
  intros Hle Hy (t & Ht & Htx). apply Hy. exists t. split; [done|].
  unfold less_equal, u64_less_equal in *. apply N.leb_le in Htx. apply N.leb_le. lia.
Qed.

Abbreviation sorted := (sort_by by_time) (only parsing).

(** What is written at once: the updates whose times have passed. *)
Lemma sort_split frontier l :
  let r := sorted l in
  let count := length (filter (λ r, negb (antichain_less_equal frontier r.1)) r) in
  take count r = filter (passed frontier) r ∧ drop count r = filter (λ x, ¬ passed frontier x) r.
Proof.
  intros r count. assert (r = filter (passed frontier) r ++ filter (λ x, ¬ passed frontier x) r) as Hr.
  { apply (sorted_split by_time); [intros x y; apply passed_lower|apply sort_by_sorted; [apply by_time_total|apply by_time_trans]]. }
  assert (count = length (filter (passed frontier) r)) as ->.
  { unfold count. f_equal. apply list_filter_iff. intros x. unfold passed.
    by destruct (antichain_less_equal frontier x.1). }
  pose proof (take_app_length (filter (passed frontier) r) (filter (λ x, ¬ passed frontier x) r)) as Ht.
  pose proof (drop_app_length (filter (passed frontier) r) (filter (λ x, ¬ passed frontier x) r)) as Hd.
  by rewrite <- Hr in Ht, Hd.
Qed.

Lemma write_tuples_app w l k : write_tuples w (l ++ k) = obind (write_tuples w l) (λ w, write_tuples w k).
Proof.
  revert w. induction l as [|[t x] l IH]; intros w; [done|]. simpl. destruct (write_record w x); [apply IH|done].
Qed.

(** ** What timely promises *)

(** Updates arrive at times that the frontier of the activation before has not
    passed, and frontiers do not go back. *)
Fixpoint in_order (frontier : list N) (steps : list (list (list Update) * list N)) : Prop :=
  match steps with
  | [] => True
  | (messages, frontier') :: steps =>
      (∀ u, u ∈ concat messages → antichain_less_equal frontier u.1.2 = true) ∧
      (∀ t, antichain_less_equal frontier' t = true → antichain_less_equal frontier t = true) ∧
      in_order frontier' steps
  end.

Definition arrived (steps : list (list (list Update) * list N)) : list Received :=
  receive <$> (steps ≫= λ s, concat s.1).
Definition last_frontier (frontier : list N) (steps : list (list (list Update) * list N)) : list N :=
  default frontier (last steps.*2).

Lemma last_frontier_cons frontier s steps :
  last_frontier frontier (s :: steps) = last_frontier s.2 steps.
Proof. unfold last_frontier. rewrite fmap_cons, last_cons. by destruct (last steps.*2). Qed.

(** What a step must keep: the buffer has the updates before that are still due. *)
Lemma due_updates frontier l k :
  (∀ x, x ∈ k → ¬ passed frontier x) →
  sorted (l ++ k) = filter (passed frontier) (sorted l) ++ sorted (filter (λ x, ¬ passed frontier x) (sorted l) ++ k).
Proof.
  intros Hk. rewrite (sorted_split by_time (passed frontier) (sorted (l ++ k)));
    [|intros x y; apply passed_lower|apply sort_by_sorted; [apply by_time_total|apply by_time_trans]].
  rewrite !filter_sort_by by (apply by_time_total || apply by_time_trans). rewrite !filter_app. rewrite (filter_none (passed frontier) k) by done.
  rewrite app_nil_r. f_equal. rewrite sort_by_app_sorted by (apply by_time_total || apply by_time_trans). do 2 f_equal.
  clear -Hk. induction k as [|x k IH]; [done|]. rewrite filter_cons, decide_True by set_solver.
  f_equal. apply IH. set_solver.
Qed.

(** One activation, told by what has arrived so far. *)
Lemma activation_writes frontier frontier' l k :
  (∀ x, x ∈ k → ¬ passed frontier x) →
  (∀ x, passed frontier x → passed frontier' x) →
  let buffer := sorted (filter (λ x, ¬ passed frontier x) (sorted l) ++ k) in
  filter (passed frontier') (sorted (l ++ k)) = filter (passed frontier) (sorted l) ++ filter (passed frontier') buffer ∧
  filter (λ x, ¬ passed frontier' x) (sorted (l ++ k)) = filter (λ x, ¬ passed frontier' x) buffer.
Proof.
  intros Hk Hf buffer. rewrite (due_updates frontier l k Hk). fold buffer. rewrite !filter_app. split.
  - f_equal. induction (sorted l) as [|x l' IH]; [done|]. rewrite filter_cons. case_decide; [|done].
    by rewrite filter_cons, decide_True, IH by auto.
  - rewrite (filter_none (λ x, ¬ passed frontier' x)); [done|].
    intros x [Hx _]%list_elem_of_filter Hn. auto.
Qed.

Lemma csv_sink_run_from steps frontier l w0 :
  in_order frontier steps →
  obind (write_tuples w0 (filter (passed frontier) (sorted l))) (λ w,
    csv_sink_run (mkCsvSink w (filter (λ x, ¬ passed frontier x) (sorted l))) steps) =
  let all := sorted (l ++ arrived steps) in
  let now := last_frontier frontier steps in
  obind (write_tuples w0 (filter (passed now) all)) (λ w, Ret (mkCsvSink w (filter (λ x, ¬ passed now x) all))).
Proof.
  revert frontier l. induction steps as [|[messages frontier'] steps IH]; intros frontier l.
  { intros _. unfold arrived. csimpl. by rewrite app_nil_r. }
  intros (Hnew & Hmono & Hsteps). rewrite last_frontier_cons. cbn [snd]. set (k := receive <$> concat messages).
  assert (∀ x, x ∈ k → ¬ passed frontier x) as Hk.
  { intros x (u & -> & Hu)%list_elem_of_fmap. unfold passed, receive. cbn [fst]. by rewrite (Hnew u Hu). }
  assert (∀ x, passed frontier x → passed frontier' x) as Hf.
  { intros x Hx. unfold passed in *. apply not_true_iff_false. intros Ht%Hmono. congruence. }
  destruct (activation_writes frontier frontier' l k Hk Hf) as [Hw Hb].
  assert (l ++ arrived ((messages, frontier') :: steps) = (l ++ k) ++ arrived steps) as ->.
  { unfold arrived. csimpl. by rewrite fmap_app, app_assoc. }
  specialize (IH frontier' (l ++ k) Hsteps). cbn zeta in IH |- *. rewrite <- IH. rewrite Hw, Hb, write_tuples_app.
  clear IH Hw Hb. destruct (write_tuples w0 _) as [w|]; [|reflexivity]. cbn [obind csv_sink_run]. unfold csv_sink_activate.
  cbn [recvd writer]. fold k.
  pose proof (sort_split frontier' (filter (λ x, ¬ passed frontier x) (sorted l) ++ k)) as [Ht Hd].
  set (buffer := sorted (_ ++ k)) in *. cbn zeta. rewrite Ht, Hd. by destruct (write_tuples w _).
Qed.

(** C27 (a file holds the result in the order of times).  Let updates arrive as timely
    promises.  However they are cut into messages and activations, the sink writes what
    it would write if everything had come at once: the tuples whose times have passed,
    in the order of their times, and for each time in the order of arrival; the others
    stay in its buffer.  It panics only if one of these records cannot be written. *)
Theorem csv_sink_sorted w steps :
  in_order [0%N] steps →
  let all := sort_by by_time (arrived steps) in
  let now := last_frontier [0%N] steps in
  csv_sink_run (mkCsvSink w []) steps =
    obind (write_tuples w (filter (passed now) all)) (λ w, Ret (mkCsvSink w (filter (λ x, ¬ passed now x) all))).
Proof. intros Hsteps. exact (csv_sink_run_from steps [0%N] [] w Hsteps). Qed.

(** The file is complete once the input is closed. *)
Lemma closed_passed l : filter (passed []) l = l ∧ filter (λ x, ¬ passed [] x) l = [].
Proof.
  assert (∀ x, passed [] x) as Hp.
  { intros x. unfold passed. apply not_true_iff_false. rewrite antichain_less_equal_spec. set_solver. }
  split; [|by apply filter_none; auto]. induction l as [|x l IH]; [done|].
  by rewrite filter_cons, decide_True, IH.
Qed.
End csv_sink.

(** ** A concrete run *)
Section csv_sink_run.
#[local] Existing Instances extern_model timely_model.

(** Updates of three times, the later ones first; times 1 and 2 are closed together. *)
Definition late_first : list (list (list (list Value * N * Z)) * list N) :=
  [([[([VNumber 3], 3%N, 1%Z); ([VNumber 1], 1%N, 1%Z)]], [1%N]);
   ([[([VNumber 2], 2%N, 1%Z)]; [([VNumber 10], 1%N, (-1)%Z)]], [3%N]); ([], [])].

Lemma csv_sink_sorted_witness :
  in_order [0%N] late_first ∧
  csv_sink_run (mkCsvSink [] []) late_first =
    Ret (mkCsvSink [[VNumber 1]; [VNumber 10]; [VNumber 2]; [VNumber 3]] []).
Proof.
  assert (in_order [0%N] late_first) as Hin.
  { assert (∀ s t, antichain_less_equal [s] t = (s <=? t)%N) as Hs by (intros s t; apply orb_false_r).
    assert (∀ us f, forallb (λ u : list Value * N * Z, antichain_less_equal f u.1.2) us = true →
      ∀ u, u ∈ us → antichain_less_equal f u.1.2 = true) as Hall.
    { intros us f Hus u Hu. rewrite forallb_forall in Hus. by apply Hus, list_elem_of_In. }
    repeat (split; [by apply Hall|]; split;
      [intros t; rewrite ?Hs; rewrite ?N.leb_le; first [lia|intros Ht; discriminate Ht]|]). exact I. }
  split; [exact Hin|]. rewrite (csv_sink_sorted [] late_first Hin). vm_refl.
Defined.

(** (differences are lost).  A retraction is written like an insertion. *)
Example retraction_written :
  csv_sink_run (mkCsvSink [] []) [([[([VNumber 1], 1%N, 1%Z)]], [2%N]); ([[([VNumber 1], 2%N, (-1)%Z)]], [])] =
  Ret (mkCsvSink [[VNumber 1]; [VNumber 1]] []).
Proof. vm_refl. Qed.
End csv_sink_run.
