(* ===== verification/SetAggregates.v ===== *)
(** * Aggregation with set semantics (src/src/plan/aggregate.rs)

    The stage of builds with the [set-semantics] feature: it differs from the
    default one in what each function makes of the split tuples.  Reductions yield
    a bare value that is wrapped afterwards, COUNT counts values instead of adding
    their weights, and the functions that accumulate do so over distinct tuples. *)
From Stdlib Require Import ZArith NArith Lia Sorting.Sorted.
From stdpp Require Import base strings numbers list gmap sets sorting.
From S2P Require Import Prelude Timestamps Values Bindings Sessions Weighted Dataflow Domains.
From S2P Require Import Relations RelationTheorems PlanOps JoinTheorems Aggregates StageRuns.

Section set_aggregate.
Context `{EV : ExternValues, DF : Differential}.
Context {T : Type} `{TR : !Traces T} {Rule : Type}.
Context {P : Type}.
Abbreviation Keyed := (list Value * list Value)%type (only parsing).
Abbreviation Handle := (ShutdownHandle (Button (T := T))) (only parsing).
Abbreviation Implementation := (outcome (Implemented * Handle)) (only parsing).

(** The closures given to [reduce]. *)
Definition set_reduce_min (_ : list Value) (vals : list (list Value * Z)) : outcome (list (Value * Z)) :=
  let! v := index vals 0 in let! min := first_component v in Ret [(min, 1%Z)].
Definition set_reduce_max (_ : list Value) (vals : list (list Value * Z)) : outcome (list (Value * Z)) :=
  let! v := index vals (length vals - 1) in let! max := first_component v in Ret [(max, 1%Z)].
Definition set_reduce_median (_ : list Value) (vals : list (list Value * Z)) : outcome (list (Value * Z)) :=
  let! v := index vals (length vals / 2) in let! median := first_component v in Ret [(median, 1%Z)].
Definition set_reduce_count (_ : list Value) (input : list (list Value * Z)) : outcome (list (N * Z)) :=
  Ret [(N.of_nat (length input), 1%Z)].

Definition wrap_value (kv : list Value * Value) : outcome Keyed := Ret (kv.1, [kv.2]).
Definition wrap_count (kc : list Value * N) : outcome Keyed := Ret (kc.1, [VNumber (wrap_i 64 (Z.of_N kc.2))]).

Definition set_aggregate_collection (fn : AggregationFn) (prepare : Keyed → outcome Keyed)
    (tuples : Collection Keyed Z) : Collection Keyed Z :=
  let prepared := c_map prepare tuples in
  match fn with
  | MIN => c_map wrap_value (c_reduce set_reduce_min prepared)
  | MAX => c_map wrap_value (c_reduce set_reduce_max prepared)
  | MEDIAN => c_map wrap_value (c_reduce set_reduce_median prepared)
  | COUNT => c_map wrap_count (c_reduce set_reduce_count prepared)
  | SUM => c_map finish_sum (c_count (c_explode explode_sum (c_distinct prepared)))
  | AVG => c_map finish_avg (c_count (c_explode explode_avg (c_distinct prepared)))
  | VARIANCE => c_map finish_variance (c_count (c_explode explode_variance (c_distinct prepared)))
  end.

Definition SetAggregate_implement : (P → Implementation) → Domain T Rule → Aggregate P → Implementation :=
  aggregate_stage set_aggregate_collection.

(** ** Single aggregations *)

(** The value a function computes for a group. *)
Definition set_reduced_value (fn : AggregationFn) (vals : list (list Value * Z)) : Value :=
  match fn with
  | COUNT => VNumber (wrap_i 64 (Z.of_nat (length vals)))
  | _ => reduced_value fn vals
  end.

(** Wrapping what a reduction yields. *)
Lemma reduced_wrap {K V V1 V2} `{EqDecision K, EqDecision V, Ord V} (f : V1 → V2)
    (g : list (V * Z) → V1) (l : wlist (K * V)) :
  (λ p : (K * V1) * Z, ((p.1.1, f p.1.2), p.2)) <$> reduced (λ _ vals, [(g vals, 1%Z)]) l =
  reduced (λ _ vals, [(f (g vals), 1%Z)]) l.
Proof.
  unfold reduced. induction (remove_dups ((fst ∘ fst) <$> l)) as [|k ks IH]; [done|].
  cbn [mbind list_bind]. rewrite fmap_app. f_equal; [by destruct (group l k)|exact IH].
Qed.

Lemma wrapped_aggregates {V1} `{EqDecision V1} (logic : list Value → list (list Value * Z) → outcome (list (V1 * Z)))
    (wrap : list Value * V1 → outcome Keyed) (g : list (list Value * Z) → V1) (f : V1 → Value) :
  (∀ k vs, vs ≠ [] → (∀ v, v ∈ vs.*1 → v ≠ []) → logic k vs = Ret [(g vs, 1%Z)]) →
  (∀ kv, wrap kv = Ret (kv.1, [f kv.2])) →
  aggregates_by (λ c, c_map wrap (c_reduce logic c)) (λ vals, f (g vals)).
Proof.
  intros Hlogic Hwrap c lp Hlp Hne.
  destruct (run_reduce logic (λ _ vals, [(g vals, 1%Z)]) c lp Hlp) as (lr & Hlr & Hrr & Hrec).
  { intros k vs Hvs Hin. apply Hlogic; [done|]. intros v Hv. by eapply Hne, Hin. }
  destruct (run_map_pure wrap (λ kv, (kv.1, [f kv.2])) (c_reduce logic c) lr Hlr) as (lo & Hlo & Hpo);
    [intros; apply Hwrap|].
  exists lo. split; [done|]. split.
  - apply wlist_equiv_perm in Hpo. rewrite Hpo. fold (wmap (λ kv : list Value * V1, (kv.1, [f kv.2])) lr).
    rewrite Hrr. apply wlist_equiv_perm. unfold wmap.
    by rewrite <- (reduced_wrap (λ v, [f v])).
  - intros k v2 Hkv. rewrite Hpo in Hkv. rewrite <- list_fmap_compose in Hkv.
    apply list_elem_of_fmap in Hkv as ([[k' v] z] & [= -> ->] & Hin). split; [|done].
    assert ((k', v) ∈ lr.*1) as Hin' by (apply list_elem_of_fmap; by exists ((k', v), z)).
    apply Hrec in Hin' as (vs & Hvs & Hvin & _). destruct vs as [|[v0 w0] vs]; [done|].
    exists v0. apply Hvin. set_solver.
Qed.

Definition set_reduce_closure (fn : AggregationFn) (c : Collection Keyed Z) : Collection Keyed Z :=
  match fn with
  | MIN => c_map wrap_value (c_reduce set_reduce_min c)
  | MAX => c_map wrap_value (c_reduce set_reduce_max c)
  | MEDIAN => c_map wrap_value (c_reduce set_reduce_median c)
  | _ => c_map wrap_count (c_reduce set_reduce_count c)
  end.

Lemma set_reducing_aggregates fn :
  reducing fn = true → aggregates_by (set_reduce_closure fn) (set_reduced_value fn).
Proof.
  assert (∀ (vals : list (list Value * Z)) i, vals ≠ [] → (∀ v, v ∈ vals.*1 → v ≠ []) → i < length vals →
    (let! v := index vals i in let! m := first_component v in Ret [(m, 1%Z)]) = Ret [(value_at i vals, 1%Z)]) as Hix.
  { intros vals i _ Hne Hi. pose proof (index_value vals i Hi Hne) as Hv.
    destruct (index vals i); simpl in *; [|done]. by rewrite Hv. }
  assert (∀ vals : list (list Value * Z), vals ≠ [] → 0 < length vals) as Hlen by (intros []; simpl; [done|lia]).
  intros Hr. destruct fn; try done.
  - apply (wrapped_aggregates set_reduce_min wrap_value (value_at 0) id); [|done]. intros k vs Hvs Hne. apply Hix; auto.
  - apply (wrapped_aggregates set_reduce_max wrap_value (λ vals, value_at (length vals - 1) vals) id); [|done].
    intros k vs Hvs Hne. apply Hix; [done..|]. specialize (Hlen vs Hvs). lia.
  - apply (wrapped_aggregates set_reduce_median wrap_value (λ vals, value_at (length vals / 2) vals) id); [|done].
    intros k vs Hvs Hne. apply Hix; [done..|]. apply Nat.div_lt; [by apply Hlen|lia].
  - apply (wrapped_aggregates set_reduce_count wrap_count (λ vals, N.of_nat (length vals))
      (λ n, VNumber (wrap_i 64 (Z.of_N n)))); [done|]. done.
Qed.

(** (single aggregations with set semantics).  Like the default stage, a stage with
    one reducing function inserts the function's value for every key; COUNT is the
    number of values. *)
Lemma set_aggregate_single d
    (implement : P → outcome (Implemented * ShutdownHandle (Button (T := T))))
    (self : Aggregate P) rel h l fn a i :
  implement (ag_plan self) = Ret (rel, h) → relation_wf rel d → rel_run (Rule := Rule) rel d = Ret l →
  ag_key_variables self ⊆ Implemented_variables rel →
  ¬ keying_refuses rel d (ag_key_variables self) →
  ag_aggregation_fns self = [fn] → reducing fn = true →
  ag_aggregation_variables self = [a] →
  head (other_variables (Implemented_variables rel) (ag_key_variables self)) = Some a →
  Vec_binds (ag_variables self) a = Some i → i ≤ length (ag_key_variables self) →
  let keyed_tuples := wmap (keyed (Implemented_variables rel) (ag_key_variables self)) l in
  let w := length (ag_with_variables self) in
  ∃ out h' l', SetAggregate_implement implement d self = Ret (ICollection out, h') ∧
    cr_variables out = ag_variables self ∧ run (cr_tuples out) = Ret l' ∧
    ∃ groups, l' ≡ wmap (λ kv, take i kv.1 ++ default (VEid 0) (head kv.2) :: drop i kv.1) groups ∧
      groups ≡ reduced (λ _ vals, [([set_reduced_value fn vals], 1%Z)]) (wmap (prepared 0 w) keyed_tuples).
Proof.
  intros Hi Hwf Hl Hks Href Hfn Hred Hav Hhd Hpos Hle.
  destruct (stage_single d (set_reduce_closure fn) set_aggregate_collection implement self rel h l fn
    (set_reduced_value fn) a i)
    as (out & h' & l' & ? & ? & ? & _ & ?); try done; [by destruct fn|by apply set_reducing_aggregates|].
  by exists out, h', l'.
Qed.

(** ** On sets the two variants agree *)

(** A set of values for each key. *)
Definition set_valued (l : wlist Keyed) : Prop := ∀ kv, wt l kv = 0%Z ∨ wt l kv = 1%Z.

Lemma group_ones l k : set_valued l → Forall (λ vw, vw.2 = 1%Z) (group l k).
Proof.
  intros Hs. apply Forall_forall. intros [v w] [-> Hw]%elem_of_group. by destruct (Hs (k, v)).
Qed.

Lemma ones_sum (vals : list (list Value * Z)) :
  Forall (λ vw, vw.2 = 1%Z) vals → sumZ vals.*2 = Z.of_nat (length vals).
Proof. induction 1 as [|[v w] vals Hw _ IH]; [done|]. csimpl in *. subst. rewrite IH. lia. Qed.

Lemma reduced_values_agree fn l :
  set_valued l →
  reduced (λ _ vals, [([set_reduced_value fn vals], 1%Z)]) l = reduced (λ _ vals, [([reduced_value fn vals], 1%Z)]) l.
Proof.
  intros Hs. unfold reduced. apply list_bind_ext; [|done]. intros k.
  assert (set_reduced_value fn (group l k) = reduced_value fn (group l k)) as Heq.
  { destruct fn; try done. simpl. do 2 f_equal. symmetry. by apply ones_sum, group_ones. }
  destruct (group l k); [done|]. by rewrite Heq.
Qed.

(** C25 (set semantics agree on sets).  Take a stage with a single MIN, MAX, MEDIAN
    or COUNT of one variable, over a well-formed relation that binds the key
    variables and can be keyed by them (they are no more than it has variables),
    and whose first variable that is no key is the aggregated one; the first
    position of that variable in the output list is at most the number of keys.
    If the tuples of the input, prepared for the aggregation, form a set for each
    key, the stages with and without set semantics succeed, and their results are
    equal, over the same variables. *)
Theorem set_semantics_agree d
    (implement : P → outcome (Implemented * ShutdownHandle (Button (T := T))))
    (self : Aggregate P) rel h l fn a i :
  implement (ag_plan self) = Ret (rel, h) → relation_wf rel d → rel_run (Rule := Rule) rel d = Ret l →
  ag_key_variables self ⊆ Implemented_variables rel →
  ¬ keying_refuses rel d (ag_key_variables self) →
  ag_aggregation_fns self = [fn] → reducing fn = true →
  ag_aggregation_variables self = [a] →
  head (other_variables (Implemented_variables rel) (ag_key_variables self)) = Some a →
  Vec_binds (ag_variables self) a = Some i → i ≤ length (ag_key_variables self) →
  set_valued (wmap (prepared 0 (length (ag_with_variables self)))
    (wmap (keyed (Implemented_variables rel) (ag_key_variables self)) l)) →
  ∃ out h1 l1 out' h2 l2,
    SetAggregate_implement implement d self = Ret (ICollection out, h1) ∧ run (cr_tuples out) = Ret l1 ∧
    Aggregate_implement implement d self = Ret (ICollection out', h2) ∧ run (cr_tuples out') = Ret l2 ∧
    cr_variables out = cr_variables out' ∧ l1 ≡ l2.
Proof.
  intros Hi Hwf Hl Hks Href Hfn Hred Hav Hhd Hpos Hle Hs.
  destruct (set_aggregate_single d implement self rel h l fn a i)
    as (out & h1 & l1 & Hout & Hv & Hl1 & g1 & H1 & Hg1); [done..|].
  destruct (stage_single d (c_reduce (reduce_closure fn)) aggregate_collection implement self rel h l fn
    (reduced_value fn) a i)
    as (out' & h2 & l2 & Hout' & Hv' & Hl2 & _ & g2 & H2 & Hg2); try done;
    [by destruct fn|by apply reducing_aggregates|].
  exists out, h1, l1, out', h2, l2. split_and!; [done..|congruence|].
  rewrite H1, H2, Hg1, Hg2. by rewrite reduced_values_agree.
Qed.
End set_aggregate.

Section set_aggregate_runs.
#[local] Existing Instances extern_model diff_model trace_model timely_model.

(** How many ages there are for each person. *)
Definition age_set : wlist (list Value) :=
  [([VEid 1; VNumber 10], 1%Z); ([VEid 2; VNumber 20], 1%Z); ([VEid 1; VNumber 30], 1%Z)].
Definition age_plan (p : bool) : outcome (Implemented * ShutdownHandle (Button (T := N))) :=
  Ret (rows [1; 2]%N age_set, ShutdownHandle_empty).
Definition how_many : Aggregate bool := mkAggregate [1; 2]%N false [COUNT] [1%N] [2%N] [].

Lemma age_set_valued :
  set_valued (wmap (prepared 0 0) (wmap (keyed (Implemented_variables (rows [1; 2]%N age_set)) [1%N]) age_set)).
Proof.
  intros kv. set (l := wmap _ _). destruct (decide (kv ∈ l.*1)) as [Hin|Hin]; [right|left; by apply wt_not_elem].
  simpl in Hin. by repeat (apply elem_of_cons in Hin as [->|Hin]; [vm_refl|]); apply elem_of_nil in Hin.
Qed.

Lemma set_semantics_agree_witness :
  ∃ out h1 l1 out' h2 l2,
    SetAggregate_implement age_plan d0 how_many = Ret (ICollection out, h1) ∧ run (cr_tuples out) = Ret l1 ∧
    Aggregate_implement age_plan d0 how_many = Ret (ICollection out', h2) ∧ run (cr_tuples out') = Ret l2 ∧
    cr_variables out = cr_variables out' ∧ l1 ≡ l2.
Proof.
  apply (set_semantics_agree d0 age_plan how_many (rows [1; 2]%N age_set) ShutdownHandle_empty age_set COUNT 2%N 1);
    try reflexivity.
  - apply rows_wf; [by apply (bool_decide_unpack _)|by repeat constructor].
  - set_solver.
  - apply distinct_keys_accepted; [by apply NoDup_singleton|set_solver|by intros []].
  - exact age_set_valued.
Defined.

(** Repeated values count once with set semantics. *)
Definition repeated (p : bool) : outcome (Implemented * ShutdownHandle (Button (T := N))) :=
  Ret (rows [1; 2]%N [([VEid 1; VNumber 10], 2%Z)], ShutdownHandle_empty).
Example repeated_values :
  let result (stage : outcome (Implemented * ShutdownHandle (Button (T := N)))) :=
    let! '(rel, _) := stage in match rel with ICollection r => cr_tuples r | IAttribute _ => Panic "" end in
  result (SetAggregate_implement (Rule := unit) repeated (Domain_new 0%N) how_many) = Ret [([VEid 1; VNumber 1], 1%Z)] ∧
  result (Aggregate_implement (Rule := unit) repeated (Domain_new 0%N) how_many) = Ret [([VEid 1; VNumber 2], 1%Z)].
Proof. split; vm_refl. Qed.
End set_aggregate_runs.
