(* ===== verification/GraphQl.v ===== *)
(** * GraphQL queries as plans (src/src/plan/graphql.rs)

    A parsed query is turned into pull levels, one for each nesting level that
    selects attributes; the plan of a level extends that of its parent.  The
    syntax tree is the graphql-parser crate's, as far as the code looks into it;
    the parser is an argument.  The derivations of [GraphQlDerive] build levels of
    another type in the same way: the traversal is shared, with the constructors
    of the levels as its arguments. *)
From Stdlib Require Import ZArith NArith Lia.
From stdpp Require Import base strings numbers list gmap sets.
From S2P Require Import Prelude Timestamps Values Bindings HectorPlan Sessions Weighted.
From S2P Require Import Dataflow Domains Relations PlanOps Pulls Plans.

(** ** [graphql_parser::query] *)

Inductive GqValue := GqInt (n : Z) | GqString (s : string) | GqBoolean (b : bool) | GqOther.

(** A field with its arguments and the items of its selection set. *)
Inductive Selection :=
| Field (name : string) (arguments : list (string * GqValue)) (items : list Selection)
| FragmentSpread
| InlineFragment.

Inductive OperationDefinition :=
| OpSelectionSet (items : list Selection)
| OpQuery
| OpMutation
| OpSubscription.

Inductive GqDefinition := Operation (operation : OperationDefinition) | Fragment.
Record Document := mkDocument { definitions : list GqDefinition }.

Section graphql.
Context `{EV : ExternValues}.

(** [impl From<Value> for crate::Value]; [as_i64] is [None] out of range. *)
Definition Value_from_graphql (v : GqValue) : outcome Value :=
  match v with
  | GqInt n =>
      if bool_decide (in_i64 n) then Ret (VNumber n) else Panic "failed to convert to i64"
  | GqString s => Ret (VString s)
  | GqBoolean b => Ret (VBool b)
  | GqOther => Panic "not yet implemented"
  end.

(** ** From selections to levels *)
Section levels.
Context {Level : Type} (pull_all : list Aid → Level)
  (pull_level : list Aid → list Aid → Var → Hector → Level) (no_variables : string).

(** The fields of a selection set without a selection set of their own. *)
Fixpoint pull_attributes (items : list Selection) : outcome (list Aid) :=
  match items with
  | [] => Ret []
  | Field name _ [] :: items => let! rest := pull_attributes items in Ret (name :: rest)
  | Field _ _ _ :: items => pull_attributes items
  | _ => Panic "not yet implemented"
  end.

(** The binding that links a level to its parent. *)
Definition link_level (plan : Hector) (parent_path : list Aid) : outcome Hector :=
  match last parent_path with
  | None => Ret plan
  | Some aid =>
      let! parent := expect no_variables (last (he_variables plan)) in
      let this := (N.of_nat (length (he_variables plan)) mod 2 ^ 32)%N in
      Ret (mkHector (he_variables plan ++ [this])
             (he_bindings plan ++ [Binding_attribute parent aid this]))
  end.

(** [for (aid, v) in arguments.iter()]. *)
Fixpoint argument_bindings (this : Var) (arguments : list (string * GqValue)) (sym : N)
    : outcome (list Binding * N) :=
  match arguments with
  | [] => Ret ([], sym)
  | (aid, v) :: arguments =>
      let '(vsym, sym) := gensym sym in
      let! v := Value_from_graphql v in
      let! '(bindings, sym) := argument_bindings this arguments sym in
      Ret (Binding_attribute this aid vsym :: Binding_constant vsym v :: bindings, sym)
  end.

Definition enter_level (plan : Hector) (arguments : list (string * GqValue)) (parent_path : list Aid)
    (sym : N) : outcome (Hector * Var * N) :=
  let! plan := link_level plan parent_path in
  let! this := expect no_variables (last (he_variables plan)) in
  let! '(bindings, sym) := argument_bindings this arguments sym in
  Ret (mkHector (he_variables plan) (he_bindings plan ++ bindings), this, sym).

(** The level itself, if it pulls anything. *)
Definition this_level (plan : Hector) (this : Var) (parent_path pull_attributes : list Aid) : list Level :=
  if bool_decide (pull_attributes = []) then []
  else if bool_decide (he_bindings plan = []) then [pull_all pull_attributes]
  else [pull_level pull_attributes parent_path this plan].

(** [items.iter().flat_map(..)], threading the symbol counter. *)
Definition flat_paths (field_paths : Selection → Hector → list Aid → N → outcome (list Level * N))
    (plan : Hector) (parent_path : list Aid) : list Selection → N → outcome (list Level * N) :=
  fix go items sym :=
    match items with
    | [] => Ret ([], sym)
    | item :: items =>
        let! '(paths, sym) := field_paths item plan parent_path sym in
        let! '(rest, sym) := go items sym in
        Ret (paths ++ rest, sym)
    end.

(** The body of [selection_set_to_paths], given what nested fields become. *)
Definition level_paths (field_paths : Selection → Hector → list Aid → N → outcome (list Level * N))
    (items : list Selection) (plan : Hector) (arguments : list (string * GqValue))
    (parent_path : list Aid) (sym : N) : outcome (list Level * N) :=
  let! '(plan, this, sym) := enter_level plan arguments parent_path sym in
  let! pulls := pull_attributes items in
  let! '(nested_levels, sym) := flat_paths field_paths plan parent_path items sym in
  Ret (nested_levels ++ this_level plan this parent_path pulls, sym).

Fixpoint field_paths (item : Selection) (plan : Hector) (parent_path : list Aid) (sym : N)
    : outcome (list Level * N) :=
  match item with
  | Field name arguments items =>
      match items with
      | [] => Ret ([], sym)
      | _ => level_paths field_paths items plan arguments (parent_path ++ [name]) sym
      end
  | _ => Panic "not yet implemented"
  end.

Definition selection_set_to_paths (items : list Selection) (plan : Hector)
    (arguments : list (string * GqValue)) (parent_path : list Aid) (sym : N)
    : outcome (list Level * N) := level_paths field_paths items plan arguments parent_path sym.

(** [into_paths] of operations, definitions and documents. *)
Definition operation_into_paths (self : OperationDefinition) (root_plan : Hector) (sym : N)
    : outcome (list Level * N) :=
  match self with
  | OpSelectionSet selection_set => selection_set_to_paths selection_set root_plan [] [] sym
  | _ => Panic "not yet implemented"
  end.

Definition definition_into_paths (self : GqDefinition) (root_plan : Hector) (sym : N)
    : outcome (list Level * N) :=
  match self with
  | Operation operation => operation_into_paths operation root_plan sym
  | Fragment => Panic "not yet implemented"
  end.

Fixpoint definitions_into_paths (l : list GqDefinition) (root_plan : Hector) (sym : N)
    : outcome (list Level * N) :=
  match l with
  | [] => Ret ([], sym)
  | definition :: l =>
      let! '(paths, sym) := definition_into_paths definition root_plan sym in
      let! '(rest, sym) := definitions_into_paths l root_plan sym in
      Ret (paths ++ rest, sym)
  end.

Definition document_into_paths (self : Document) (root_plan : Hector) (sym : N)
    : outcome (list Level * N) := definitions_into_paths (definitions self) root_plan sym.
End levels.

(** [GraphQl::new] starts with one variable and no bindings. *)
Definition empty_plan : Hector := mkHector [0%N] [].

(** ** The plan *)

Definition plan_pull_all (pull_attributes : list Aid) : Plan := PPullAll (mkPullAll [] pull_attributes).
Definition plan_pull_level (pull_attributes path_attributes : list Aid) (this : Var) (plan : Hector)
    : Plan := PPullLevel (mkPullLevel [] (PHector plan) this pull_attributes path_attributes false).

Definition GraphQl_into_paths (self : Document) (root_plan : Hector) (sym : N) : outcome (list Plan * N) :=
  document_into_paths plan_pull_all plan_pull_level "called `Option::unwrap()` on a `None` value"
    self root_plan sym.

Section query.
Context (parse_query : string → Result Document string).

Definition parse (query : string) : outcome Document :=
  match parse_query query with Ok ast => Ret ast | Err _ => Panic "graphQL ast parsing failed" end.

Definition GraphQl_new (query : string) (sym : N) : outcome (GraphQl Plan * N) :=
  let! ast := parse query in
  let! '(paths, sym) := GraphQl_into_paths ast empty_plan sym in
  Ret (mkGraphQl query paths, sym).

Definition GraphQl_with_plan (root_plan : Plan) (query : string) (sym : N) : outcome (GraphQl Plan * N) :=
  let! ast := parse query in
  let! variables := Plan_variables root_plan in
  let! '(bindings, sym) := Plan_into_bindings root_plan sym in
  let! '(paths, sym) := GraphQl_into_paths ast (mkHector variables bindings) sym in
  Ret (mkGraphQl query paths, sym).
End query.

Definition GraphQl_dependencies (self : GraphQl Plan) : Dependencies :=
  Dependencies_sum (Plan_dependencies <$> gq_paths self).
End graphql.
