(* ===== verification/GraphQlTheorems.v ===== *)
(** * GraphQL queries: what the levels pull

    Every attribute a query selects is pulled once, under the path that leads to
    it, and the plan of a level finds the entities at the end of that path. *)
From Stdlib Require Import ZArith NArith Lia.
From stdpp Require Import base strings numbers list gmap sets.
From S2P Require Import Prelude Timestamps Values Bindings HectorPlan Sessions Weighted.
From S2P Require Import Dataflow Domains Relations PlanOps Pulls Plans Queries GraphQl.

Section graphql_theorems.
Context `{EV : ExternValues}.

(** ** The reference: paths through a query *)

(** A field on the way, with its arguments. *)
Abbreviation Step := (Aid * list (Aid * Value))%type (only parsing).

Definition argument_value (v : GqValue) : Value :=
  match v with
  | GqInt n => VNumber n
  | GqString s => VString s
  | GqBoolean b => VBool b
  | GqOther => VBool false
  end.
Definition convertible (v : GqValue) : bool :=
  match v with GqInt n => bool_decide (in_i64 n) | GqOther => false | _ => true end.
Definition argument_values (arguments : list (string * GqValue)) : list (Aid * Value) :=
  (λ av, (av.1, argument_value av.2)) <$> arguments.

(** Only fields, and arguments of nested fields that convert. *)
Fixpoint selection_ok (item : Selection) : bool :=
  match item with
  | Field _ _ [] => true
  | Field _ arguments items => forallb (λ av, convertible av.2) arguments && forallb selection_ok items
  | _ => false
  end.

(** Nested fields and their arguments, counted. *)
Fixpoint nesting (item : Selection) : nat :=
  match item with
  | Field _ _ [] => 0
  | Field _ arguments items => S (length arguments + sum_list_with nesting items)
  | _ => 0
  end.

(** The selected attributes, in the order of the text, with their paths. *)
Fixpoint leaf_paths (path : list Aid) (item : Selection) : list (list Aid) :=
  match item with
  | Field name _ [] => [path ++ [name]]
  | Field name _ items => items ≫= leaf_paths (path ++ [name])
  | _ => []
  end.

(** The fields on the way from a selection set to one below it. *)
Inductive leads_to : list Step → list Selection → list Selection → Prop :=
| leads_here items : leads_to [] items items
| leads_down name arguments items steps siblings sub :
    items ≠ [] → Field name arguments items ∈ siblings → leads_to steps items sub →
    leads_to ((name, argument_values arguments) :: steps) siblings sub.

(** ** Walks *)

(** [vs] are entities reached from [e] along the steps. *)
Fixpoint walk (pair : Aid → Value → Value → bool) (e : Value) (steps : list Step) (vs : list Value) : bool :=
  match steps, vs with
  | [], [] => true
  | (name, arguments) :: steps, v :: vs =>
      pair name e v && forallb (λ av, pair av.1 v av.2) arguments && walk pair v steps vs
  | _, _ => false
  end.
Definition walks (pair : Aid → Value → Value → bool) (steps : list Step) (vs : list Value) : bool :=
  match vs with [] => false | e :: vs => walk pair e steps vs end.

Lemma last_cons_default (w e : Value) vs : List.last (w :: vs) e = List.last vs w.
Proof.
  revert w e. induction vs as [|v vs IH]; intros w e; [done|].
  change (List.last (v :: vs) e = List.last (v :: vs) w). by rewrite !IH.
Qed.

Lemma walk_snoc pair e steps st vs v :
  walk pair e (steps ++ [st]) (vs ++ [v]) =
  walk pair e steps vs && (pair st.1 (List.last vs e) v && forallb (λ av, pair av.1 v av.2) st.2).
Proof.
  revert e vs. induction steps as [|[name args] steps IH]; intros e [|w vs].
  - destruct st. simpl. by rewrite andb_true_r.
  - destruct st as [a args], vs as [|x vs]; simpl; by rewrite !andb_false_r.
  - destruct st, steps as [|[] steps]; simpl; by rewrite andb_false_r.
  - cbn [walk app]. by rewrite IH, last_cons_default, andb_assoc.
Qed.

(** ** The plan of a level *)

Definition argument_plan (this : Var) (arguments : list (Aid * Value)) (syms : list Var) : list Binding :=
  concat (zip_with (λ av s, [Binding_attribute this av.1 s; Binding_constant s av.2]) arguments syms).

(** A plan extended along steps; the symbols stand for the arguments. *)
Inductive extends : list Step → list Var → Hector → Prop :=
| extends_root : extends [] [] empty_plan
| extends_step steps syms plan name arguments more :
    extends steps syms plan → length more = length arguments →
    extends (steps ++ [(name, arguments)]) (syms ++ more)
      (mkHector (he_variables plan ++ [N.of_nat (S (length steps))])
         (he_bindings plan ++ Binding_attribute (N.of_nat (length steps)) name (N.of_nat (S (length steps)))
            :: argument_plan (N.of_nat (S (length steps))) arguments more)).

Lemma extends_variables steps syms plan :
  extends steps syms plan → he_variables plan = N.of_nat <$> seq 0 (S (length steps)).
Proof.
  induction 1 as [|?????? _ IH]; [done|]. simpl he_variables. rewrite IH, length_app, Nat.add_1_r.
  by rewrite (seq_S (S (length steps))), fmap_app.
Qed.

Lemma extends_bindings steps syms plan : extends steps syms plan → he_bindings plan = [] ↔ steps = [].
Proof. destruct 1; [done|]. simpl. split; intros []%app_nil; done. Qed.

Lemma argument_plan_holds pair ρ this arguments syms :
  length syms = length arguments →
  forallb (binding_holds pair ρ) (argument_plan this arguments syms) = true ↔
  forallb (λ av, pair av.1 (ρ this) av.2) arguments = true ∧ ρ <$> syms = arguments.*2.
Proof.
  revert syms. induction arguments as [|[b c] arguments IH]; intros [|s syms]; try done.
  intros [= Hlen]. unfold argument_plan. cbn [zip_with concat app forallb binding_holds fmap list_fmap fst snd].
  fold (argument_plan this arguments syms). rewrite !andb_true_iff, IH by done. simpl.
  rewrite bool_decide_eq_true. split.
  - intros (? & <- & ? & ->). done.
  - intros ((? & ?) & [= <- ?]). done.
Qed.

(** An assignment satisfies the plan if its variables are a walk and its symbols
    are the arguments. *)
Lemma extends_holds pair ρ steps syms plan :
  extends steps syms plan →
  forallb (binding_holds pair ρ) (he_bindings plan) = true ↔
  walks pair steps (ρ <$> he_variables plan) = true ∧ ρ <$> syms = concat ((λ st, st.2.*2) <$> steps).
Proof.
  induction 1 as [|steps syms plan name arguments more Hext IH Hlen]; [done|].
  cbn [he_bindings he_variables]. rewrite forallb_app, andb_true_iff, IH. cbn [forallb].
  rewrite andb_true_iff, argument_plan_holds by done. cbn [binding_holds source_attribute ab_variables fst snd Binding_attribute].
  rewrite !fmap_app, concat_app, (extends_variables _ _ _ Hext). cbn [seq fmap list_fmap concat app].
  rewrite app_nil_r. cbn [walks]. rewrite walk_snoc. cbn [fst snd]. rewrite !andb_true_iff.
  assert (List.last (ρ <$> (N.of_nat <$> seq 1 (length steps))) (ρ (N.of_nat 0)) = ρ (N.of_nat (length steps))) as ->.
  { destruct (length steps) as [|n]; [done|]. rewrite seq_S, !fmap_app. simpl. by rewrite List.last_last. }
  split.
  - intros ((? & Hs) & ? & ? & Hm). by rewrite Hs, Hm.
  - intros ((? & ? & ?) & Heq). apply app_inj_2 in Heq as [? ?]; [done|].
    rewrite !length_fmap. done.
Qed.

(** With distinct symbols that are no variables of the plan, the tuples that
    satisfy the plan are the walks. *)
Lemma extends_walks pair steps syms plan vs :
  extends steps syms plan → NoDup syms → (∀ s, s ∈ syms → N.of_nat (length steps) < s)%N →
  length syms = length (concat ((λ st, st.2.*2) <$> steps)) →
  (∃ ρ, ρ <$> he_variables plan = vs ∧ forallb (binding_holds pair ρ) (he_bindings plan) = true) ↔
  walks pair steps vs = true.
Proof.
  intros Hext Hnd Hsyms Hlen. split.
  { intros (ρ & <- & Hρ). by apply (extends_holds _ _ _ _ _ Hext) in Hρ as [Hw _]. }
  intros Hw. set (consts := concat ((λ st, st.2.*2) <$> steps)) in *.
  set (ρ x := match (list_to_map (zip syms consts) : gmap Var Value) !! x with
              | Some c => c | None => default (VBool false) (vs !! N.to_nat x) end).
  assert (length vs = S (length steps)) as Hvs.
  { destruct vs as [|e vs]; [done|]. simpl. f_equal. cbn in Hw. clear -Hw. revert e vs Hw.
    induction steps as [|[] steps IH]; intros e [|v vs]; try done.
    simpl. intros [_ Hw]%andb_true_iff. f_equal. by apply (IH v). }
  assert (ρ <$> he_variables plan = vs) as Hvars.
  { rewrite (extends_variables _ _ _ Hext), <- list_fmap_compose. apply list_eq. intros i.
    rewrite list_lookup_fmap. destruct (decide (i < S (length steps))) as [Hi|Hi].
    - rewrite lookup_seq_lt by done. cbn. destruct (lookup_lt_is_Some_2 vs i) as [v Hv]; [lia|].
      rewrite Hv. unfold ρ. rewrite (proj1 (not_elem_of_list_to_map _ _)), Nat2N.id, Hv; [done|].
      rewrite fst_zip by lia. intros Hin%Hsyms. lia.
    - rewrite lookup_seq_ge by lia. cbn. symmetry. apply lookup_ge_None. lia. }
  exists ρ. split; [done|]. apply (extends_holds _ _ _ _ _ Hext). rewrite Hvars. split; [done|].
  apply list_eq. intros i. rewrite list_lookup_fmap. destruct (syms !! i) as [s|] eqn:Hs.
  - destruct (lookup_lt_is_Some_2 consts i) as [c Hc]; [rewrite <- Hlen; by eapply lookup_lt_Some|].
    transitivity (Some c); [|done]. cbn. f_equal. unfold ρ.
    rewrite (proj1 (elem_of_list_to_map (M := gmap Var) (zip syms consts) s c ltac:(by rewrite fst_zip by lia))); [done|].
    apply (list_elem_of_lookup_2 _ i). apply lookup_zip_with_Some. eauto.
  - symmetry. apply (lookup_ge_None consts). rewrite <- Hlen. by apply lookup_ge_None.
Qed.

(** ** The traversal *)

Lemma gensym_low sym :
  (1 ≤ sym mod 2 ^ 32)%N → ((gensym sym).2 mod 2 ^ 32 = sym mod 2 ^ 32 - 1)%N.
Proof.
  intros Hlow. unfold gensym. cbn [snd].
  pose proof (N.div_mod sym (2 ^ 32) ltac:(done)). pose proof (N.mod_lt sym (2 ^ 32) ltac:(done)).
  pose proof (N.div_mod (sym + (2 ^ 64 - 1)) (2 ^ 64) ltac:(done)).
  set (y := ((sym + (2 ^ 64 - 1)) mod 2 ^ 64)%N) in *.
  rewrite <- (N.Div0.mod_add y ((sym + (2 ^ 64 - 1)) / 2 ^ 64 * 2 ^ 32) (2 ^ 32)).
  replace (y + (sym + (2 ^ 64 - 1)) / 2 ^ 64 * 2 ^ 32 * 2 ^ 32)%N
    with ((sym mod 2 ^ 32 - 1) + (sym / 2 ^ 32 + 2 ^ 32) * 2 ^ 32)%N by lia.
  rewrite N.Div0.mod_add. apply N.mod_small. lia.
Qed.

Lemma Value_from_graphql_ok v : convertible v = true → Value_from_graphql v = Ret (argument_value v).
Proof. destruct v as [n| | |]; try done. simpl. intros Hn. by rewrite Hn. Qed.

(** What the plan of a level keeps of the symbols: they are distinct, and above
    those to come. *)
Record level_state (steps : list Step) (syms : list Var) (plan : Hector) (sym : N) : Prop := {
  ls_extends : extends steps syms plan;
  ls_distinct : NoDup syms;
  ls_above s : s ∈ syms → (sym mod 2 ^ 32 < s)%N;
  ls_length : length syms = length (concat ((λ st, st.2.*2) <$> steps))
}.

Lemma level_state_le steps syms plan sym sym' :
  level_state steps syms plan sym → (sym' mod 2 ^ 32 ≤ sym mod 2 ^ 32)%N →
  level_state steps syms plan sym'.
Proof. intros [] Hle. split; [done..| |done]. intros s Hs. apply ls_above0 in Hs. lia. Qed.

Lemma argument_bindings_ok this arguments sym :
  forallb (λ av, convertible av.2) arguments = true →
  (N.of_nat (length arguments) ≤ sym mod 2 ^ 32)%N →
  ∃ more sym', argument_bindings this arguments sym =
      Ret (argument_plan this (argument_values arguments) more, sym') ∧
    length more = length arguments ∧ NoDup more ∧
    (∀ s, s ∈ more → sym' mod 2 ^ 32 < s ≤ sym mod 2 ^ 32)%N ∧
    (sym' mod 2 ^ 32 = sym mod 2 ^ 32 - N.of_nat (length arguments))%N.
Proof.
  revert sym. induction arguments as [|[aid v] arguments IH]; intros sym Hok Hlow.
  { exists [], sym. split; [done|]. split; [done|]. split; [constructor|]. split; [set_solver|]. cbn. lia. }
  simpl in Hok. apply andb_true_iff in Hok as [Hv Hok]. cbn [length] in Hlow.
  pose proof (gensym_low sym ltac:(lia)) as Hg.
  destruct (IH (gensym sym).2 Hok) as (more & sym' & Hrun & Hlen & Hnd & Hin & Hs); [rewrite Hg; lia|].
  exists ((sym mod 2 ^ 32)%N :: more), sym'. cbn [argument_bindings].
  rewrite (surjective_pairing (gensym sym)), (Value_from_graphql_ok v Hv). cbn [obind]. rewrite Hrun.
  cbn [obind]. split; [done|]. split; [by simpl; rewrite Hlen|]. split.
  - constructor; [|done]. intros Hx%Hin. lia.
  - rewrite Hs, Hg. cbn [length]. split; [|lia]. intros s [->|Hx%Hin]%elem_of_cons; lia.
Qed.

Lemma argument_plan_length arguments : length (argument_values arguments).*2 = length arguments.
Proof. unfold argument_values. by rewrite !length_fmap. Qed.

Lemma enter_level_ok no_variables steps syms plan sym name arguments :
  level_state steps syms plan sym → forallb (λ av, convertible av.2) arguments = true →
  (N.of_nat (S (S (length steps)) + length arguments) ≤ sym mod 2 ^ 32)%N →
  ∃ more plan' sym',
    enter_level no_variables plan arguments (steps.*1 ++ [name]) sym =
      Ret (plan', N.of_nat (S (length steps)), sym') ∧
    level_state (steps ++ [(name, argument_values arguments)]) (syms ++ more) plan' sym' ∧
    (sym' mod 2 ^ 32 = sym mod 2 ^ 32 - N.of_nat (length arguments))%N.
Proof.
  intros [Hext Hnd Habove Hlen] Hok Hlow. pose proof (N.mod_lt sym (2 ^ 32) ltac:(done)) as Hlt.
  destruct (argument_bindings_ok (N.of_nat (S (length steps))) arguments sym Hok)
    as (more & sym' & Hrun & Hm & Hndm & Hin & Hs); [lia|].
  pose proof (extends_variables _ _ _ Hext) as Hvars.
  eexists more, _, sym'. unfold enter_level, link_level. rewrite last_snoc, Hvars. cbn [obind].
  rewrite (seq_S (length steps)), fmap_app at 1. cbn [fmap list_fmap]. rewrite last_snoc. cbn [expect obind].
  rewrite length_fmap, length_seq, N.mod_small by lia. cbn [he_variables he_bindings]. rewrite last_snoc.
  cbn [expect obind]. rewrite Hrun. cbn [obind]. split; [done|]. split; [|done]. split.
  - rewrite <- Hvars, Nat.add_0_l, <- app_assoc. constructor; [done|]. rewrite Hm. unfold argument_values. by rewrite length_fmap.
  - apply NoDup_app. split; [done|]. split; [|done]. intros s Hs1%Habove Hs2%Hin. lia.
  - intros s [Hs1%Habove|Hs1%Hin]%elem_of_app; lia.
  - rewrite fmap_app, concat_app, !length_app, Hlen, Hm. cbn [fmap list_fmap concat snd].
    by rewrite app_nil_r, argument_plan_length.
Qed.

(** The levels of a selection, each with the steps to it and what it pulls. *)
Definition leaf_names (items : list Selection) : list Aid :=
  omap (λ item, match item with Field name _ [] => Some name | _ => None end) items.
Definition own_level (steps : list Step) (items : list Selection) : list (list Step * list Aid) :=
  if bool_decide (leaf_names items = []) then [] else [(steps, leaf_names items)].

Fixpoint level_list (steps : list Step) (item : Selection) : list (list Step * list Aid) :=
  match item with
  | Field name arguments items =>
      match items with
      | [] => []
      | _ => let steps := steps ++ [(name, argument_values arguments)] in
             (items ≫= level_list steps) ++ own_level steps items
      end
  | _ => []
  end.

Lemma Selection_ind' (P : Selection → Prop) :
  (∀ name arguments items, Forall P items → P (Field name arguments items)) →
  P FragmentSpread → P InlineFragment → ∀ item, P item.
Proof.
  intros Hf Hs Hi. fix IH 1. intros [name arguments items| |]; [|done..]. apply Hf.
  induction items as [|item items IHi]; constructor; [apply IH|apply IHi].
Qed.

Lemma pull_attributes_ok items :
  forallb selection_ok items = true → pull_attributes items = Ret (leaf_names items).
Proof.
  induction items as [|item items IH]; [done|]. simpl. intros [Hi Hs]%andb_true_iff.
  destruct item as [name arguments [|]| |]; try done; simpl; rewrite IH by done; done.
Qed.

Section levels.
Context {Level : Type} (pull_all : list Aid → Level)
  (pull_level : list Aid → list Aid → Var → Hector → Level) (no_variables : string).
Abbreviation field_paths := (field_paths pull_all pull_level no_variables).

(** The level reached along the steps. *)
Definition level_for (steps : list Step) (pulls : list Aid) (level : Level) : Prop :=
  ∃ syms plan, extends steps syms plan ∧ NoDup syms ∧
    (∀ s, s ∈ syms → N.of_nat (length steps) < s)%N ∧
    length syms = length (concat ((λ st, st.2.*2) <$> steps)) ∧
    level = if bool_decide (steps = []) then pull_all pulls
            else pull_level pulls steps.*1 (N.of_nat (length steps)) plan.

Abbreviation levels_for := (Forall2 (λ (sl : list Step * list Aid) (level : Level), level_for sl.1 sl.2 level)).

Lemma flat_paths_cons (f : Selection → Hector → list Aid → N → outcome (list Level * N)) plan path item items sym :
  flat_paths f plan path (item :: items) sym =
  let! '(paths, sym) := f item plan path sym in
  let! '(rest, sym) := flat_paths f plan path items sym in Ret (paths ++ rest, sym).
Proof. done. Qed.

(** What is proved of an item. *)
Definition item_ok (item : Selection) : Prop :=
  selection_ok item = true → ∀ steps syms plan sym, level_state steps syms plan sym →
  (N.of_nat (S (length steps) + nesting item) ≤ sym mod 2 ^ 32)%N →
  ∃ levels sym', field_paths item plan steps.*1 sym = Ret (levels, sym') ∧
    levels_for (level_list steps item) levels ∧
    (sym mod 2 ^ 32 - N.of_nat (nesting item) ≤ sym' mod 2 ^ 32 ≤ sym mod 2 ^ 32)%N.

Lemma flat_paths_ok items steps syms plan sym :
  Forall item_ok items → forallb selection_ok items = true → level_state steps syms plan sym →
  (N.of_nat (S (length steps) + sum_list_with nesting items) ≤ sym mod 2 ^ 32)%N →
  ∃ levels sym', flat_paths field_paths plan steps.*1 items sym = Ret (levels, sym') ∧
    levels_for (items ≫= level_list steps) levels ∧
    (sym mod 2 ^ 32 - N.of_nat (sum_list_with nesting items) ≤ sym' mod 2 ^ 32 ≤ sym mod 2 ^ 32)%N.
Proof.
  intros Hall. revert sym. induction Hall as [|item items Hi _ IH]; intros sym Hok Hst Hlow.
  { exists [], sym. split; [done|]. split; [constructor|]. cbn. lia. }
  simpl in Hok. apply andb_true_iff in Hok as [Hok1 Hok2]. cbn [sum_list_with] in *.
  destruct (Hi Hok1 steps syms plan sym Hst) as (l1 & sym1 & Hr1 & Hl1 & Hb1); [lia|].
  destruct (IH sym1 Hok2) as (l2 & sym2 & Hr2 & Hl2 & Hb2); [eapply level_state_le; [done|lia]|lia|].
  exists (l1 ++ l2), sym2. rewrite flat_paths_cons, Hr1. cbn [obind]. rewrite Hr2. cbn [obind].
  split; [done|]. split; [by apply Forall2_app|lia].
Qed.

Lemma level_paths_ok items steps syms plan plan0 arguments path sym0 sym :
  Forall item_ok items → forallb selection_ok items = true → level_state steps syms plan sym →
  enter_level no_variables plan0 arguments path sym0 = Ret (plan, N.of_nat (length steps), sym) →
  path = steps.*1 →
  (N.of_nat (S (length steps) + sum_list_with nesting items) ≤ sym mod 2 ^ 32)%N →
  ∃ levels sym', level_paths pull_all pull_level no_variables field_paths items plan0 arguments path sym0 =
      Ret (levels, sym') ∧
    levels_for ((items ≫= level_list steps) ++ own_level steps items) levels ∧
    (sym mod 2 ^ 32 - N.of_nat (sum_list_with nesting items) ≤ sym' mod 2 ^ 32 ≤ sym mod 2 ^ 32)%N.
Proof.
  intros Hall Hok Hst Hent -> Hlow. unfold level_paths. rewrite Hent. cbn [obind].
  rewrite (pull_attributes_ok _ Hok). cbn [obind].
  destruct (flat_paths_ok items steps syms plan sym Hall Hok Hst Hlow) as (levels & sym' & Hr & Hl & Hb).
  rewrite Hr. cbn [obind]. eexists _, sym'. split; [done|]. split; [|done].
  apply Forall2_app; [done|]. unfold own_level, this_level. case_bool_decide; [constructor|].
  destruct Hst as [Hext Hnd Habove Hlen].
  assert (level_for steps (leaf_names items)
    (if bool_decide (steps = []) then pull_all (leaf_names items)
     else pull_level (leaf_names items) steps.*1 (N.of_nat (length steps)) plan)) as Hfor.
  { exists syms, plan. split; [done|]. split; [done|]. split; [|done]. intros s Hs%Habove. lia. }
  rewrite (bool_decide_ext _ _ (extends_bindings _ _ _ Hext)).
  case_bool_decide; by repeat constructor.
Qed.

Lemma all_items_ok item : item_ok item.
Proof.
  induction item as [name arguments items Hall| |] using Selection_ind'; [|done..].
  intros Hok steps syms plan sym Hst Hlow. destruct items as [|item items].
  { exists [], sym. split; [done|]. split; [constructor|]. cbn. lia. }
  set (its := item :: items) in *. change (nesting (Field name arguments its)) with (S (length arguments + sum_list_with nesting its)) in *.
  change (selection_ok (Field name arguments its)) with (forallb (λ av, convertible av.2) arguments && forallb selection_ok its) in Hok.
  apply andb_true_iff in Hok as [Hargs Hok].
  destruct (enter_level_ok no_variables steps syms plan sym name arguments Hst Hargs)
    as (more & plan' & sym1 & Hent & Hst' & Hs1); [lia|].
  assert (length (steps ++ [(name, argument_values arguments)]) = S (length steps)) as Hlen
    by (rewrite length_app; simpl; lia).
  edestruct (level_paths_ok its) as (levels & sym' & Hr & Hl & Hb); [done..| | | |].
  { rewrite Hlen. done. } { by rewrite fmap_app. } { rewrite Hlen. lia. }
  exists levels, sym'. split; [done|]. split; [done|lia].
Qed.

(** A selection set at the root. *)
Lemma selection_set_ok items sym :
  forallb selection_ok items = true →
  (N.of_nat (S (sum_list_with nesting items)) ≤ sym mod 2 ^ 32)%N →
  ∃ levels sym', selection_set_to_paths pull_all pull_level no_variables items empty_plan [] [] sym =
      Ret (levels, sym') ∧
    levels_for ((items ≫= level_list []) ++ own_level [] items) levels ∧
    (sym mod 2 ^ 32 - N.of_nat (sum_list_with nesting items) ≤ sym' mod 2 ^ 32)%N.
Proof.
  intros Hok Hlow. edestruct (level_paths_ok items [] [] empty_plan empty_plan [] [] sym sym)
    as (levels & sym' & Hr & Hl & Hb); try done.
  - apply Forall_forall. intros item _. apply all_items_ok.
  - split; [constructor|constructor|set_solver|done].
  - exists levels, sym'. split; [done|]. split; [done|lia].
Qed.
End levels.

(** ** What is pulled *)

Definition pulled (sl : list Step * list Aid) : list (list Aid) := (λ a, sl.1.*1 ++ [a]) <$> sl.2.

Lemma leaves_first path items :
  items ≫= leaf_paths path ≡ₚ
  (items ≫= λ item, match item with Field _ _ (_ :: _) => leaf_paths path item | _ => [] end) ++
  ((λ a, path ++ [a]) <$> leaf_names items).
Proof.
  induction items as [|item items IH]; [done|]. rewrite !bind_cons, IH.
  destruct item as [name arguments [|sub subs]| |]; [|by rewrite <- app_assoc|done..].
  cbn [leaf_names omap list_omap fmap list_fmap leaf_paths app]. by rewrite Permutation_middle.
Qed.

Lemma own_level_pulled steps items :
  own_level steps items ≫= pulled = (λ a, steps.*1 ++ [a]) <$> leaf_names items.
Proof.
  unfold own_level. case_bool_decide as H; [by rewrite H|]. unfold pulled. cbn. by rewrite app_nil_r.
Qed.

Lemma level_list_pulled item steps :
  level_list steps item ≫= pulled ≡ₚ
  match item with Field _ _ (_ :: _) => leaf_paths steps.*1 item | _ => [] end.
Proof.
  revert steps. induction item as [name arguments items Hall| |] using Selection_ind'; [|done..].
  intros steps. destruct items as [|sub subs]; [done|].
  set (items := sub :: subs) in *. set (steps' := steps ++ [(name, argument_values arguments)]).
  change (level_list steps (Field name arguments items)) with ((items ≫= level_list steps') ++ own_level steps' items).
  change (leaf_paths steps.*1 (Field name arguments items)) with (items ≫= leaf_paths (steps.*1 ++ [name])).
  rewrite bind_app, own_level_pulled, leaves_first.
  replace (steps.*1 ++ [name]) with steps'.*1 by (unfold steps'; by rewrite fmap_app).
  apply Permutation_app_tail. clearbody items. induction Hall as [|item items Hi _ IH]; [done|].
  rewrite !bind_cons, bind_app, IH. by rewrite Hi.
Qed.

Lemma levels_pulled steps items :
  ((items ≫= level_list steps) ++ own_level steps items) ≫= pulled ≡ₚ items ≫= leaf_paths steps.*1.
Proof.
  rewrite bind_app, own_level_pulled, leaves_first. apply Permutation_app_tail.
  induction items as [|item items IH]; [done|]. by rewrite !bind_cons, bind_app, level_list_pulled, IH.
Qed.

Lemma own_level_inv steps items sl :
  sl ∈ own_level steps items → sl = (steps, leaf_names items) ∧ leaf_names items ≠ [].
Proof. unfold own_level. case_bool_decide; [by intros ?%elem_of_nil|]. by intros ->%list_elem_of_singleton. Qed.

Lemma level_list_leads item steps sl :
  sl ∈ level_list steps item →
  ∃ more sub, sl = (steps ++ more, leaf_names sub) ∧ leaf_names sub ≠ [] ∧
    ∀ siblings, item ∈ siblings → leads_to more siblings sub.
Proof.
  revert steps. induction item as [name arguments items Hall| |] using Selection_ind'; [|by intros ? ?%elem_of_nil..].
  intros steps. destruct items as [|i rest]; [by intros ?%elem_of_nil|].
  set (items := i :: rest) in *. set (steps' := steps ++ [(name, argument_values arguments)]).
  change (level_list steps (Field name arguments items)) with ((items ≫= level_list steps') ++ own_level steps' items).
  intros [(item & Hsl & Hitem)%list_elem_of_bind|[-> Hne]%own_level_inv]%elem_of_app.
  - rewrite Forall_forall in Hall. destruct (Hall item Hitem steps' Hsl) as (more & sub & -> & Hne & Hlead).
    exists ((name, argument_values arguments) :: more), sub. split; [unfold steps'; by rewrite <- app_assoc|].
    split; [done|]. intros siblings Hin. econstructor; [|done|by apply Hlead]. done.
  - exists [(name, argument_values arguments)], items. split; [done|]. split; [done|].
    intros siblings Hin. econstructor; [|done|constructor]. done.
Qed.

Lemma levels_lead items sl :
  sl ∈ (items ≫= level_list []) ++ own_level [] items →
  ∃ sub, leads_to sl.1 items sub ∧ sl.2 = leaf_names sub ∧ sl.2 ≠ [].
Proof.
  intros [(item & Hsl & Hitem)%list_elem_of_bind|[-> Hne]%own_level_inv]%elem_of_app.
  - destruct (level_list_leads _ _ _ Hsl) as (more & sub & -> & Hne & Hlead). exists sub.
    split; [by apply Hlead|done].
  - exists items. split; [constructor|done].
Qed.

(** Several selection sets in a document, one after the other. *)
Definition document_of (sets : list (list Selection)) : Document :=
  mkDocument ((λ items, Operation (OpSelectionSet items)) <$> sets).

Lemma document_ok {Level} pull_all (pull_level : list Aid → list Aid → Var → Hector → Level) no_variables sets sym :
  forallb selection_ok (concat sets) = true →
  (N.of_nat (S (sum_list_with nesting (concat sets))) ≤ sym mod 2 ^ 32)%N →
  ∃ levels sym', document_into_paths pull_all pull_level no_variables (document_of sets) empty_plan sym =
      Ret (levels, sym') ∧
    Forall2 (λ (sl : list Step * list Aid) level, level_for pull_all pull_level sl.1 sl.2 level)
      (sets ≫= λ items, (items ≫= level_list []) ++ own_level [] items) levels.
Proof.
  unfold document_into_paths. cbn [definitions document_of]. revert sym.
  induction sets as [|items sets IH]; intros sym Hok Hlow; [by exists [], sym|].
  cbn [concat] in *. rewrite forallb_app in Hok. apply andb_true_iff in Hok as [Hok1 Hok2].
  rewrite sum_list_with_app in Hlow.
  destruct (selection_set_ok pull_all pull_level no_variables items sym Hok1) as (l1 & sym1 & Hr1 & Hl1 & Hs1); [lia|].
  destruct (IH sym1 Hok2) as (l2 & sym2 & Hr2 & Hl2); [lia|].
  exists (l1 ++ l2), sym2. cbn [fmap list_fmap definitions_into_paths definition_into_paths operation_into_paths].
  rewrite Hr1. cbn [obind]. rewrite Hr2. cbn [obind]. split; [done|]. rewrite bind_cons. by apply Forall2_app.
Qed.

(** Levels that report what they pull, report the paths of the text. *)
Lemma levels_read {Level} pull_all (pull_level : list Aid → list Aid → Var → Hector → Level)
    (reads : Level → list (list Aid)) sets levels :
  (∀ pulls, reads (pull_all pulls) = (λ a, [a]) <$> pulls) →
  (∀ pulls path this plan, reads (pull_level pulls path this plan) = (λ a, path ++ [a]) <$> pulls) →
  Forall2 (λ (sl : list Step * list Aid) level, level_for pull_all pull_level sl.1 sl.2 level)
    (sets ≫= λ items, (items ≫= level_list []) ++ own_level [] items) levels →
  levels ≫= reads ≡ₚ concat sets ≫= leaf_paths [].
Proof.
  intros Hall Hlevel Hl.
  transitivity ((sets ≫= λ items, (items ≫= level_list []) ++ own_level [] items) ≫= pulled).
  - induction Hl as [|[steps pulls] p sls levels Hp _ IH]; [done|].
    rewrite !bind_cons, IH. apply Permutation_app_tail. destruct Hp as (syms & plan & _ & _ & _ & _ & ->).
    cbn [fst snd]. case_bool_decide as Hs; unfold pulled; cbn; [by rewrite Hs, Hall|by rewrite Hlevel].
  - clear. induction sets as [|items sets IH]; [done|].
    by rewrite bind_cons, bind_app, IH, levels_pulled, <- bind_app.
Qed.

(** The attributes a level pulls, with their paths. *)
Definition level_pulls (p : Plan) : list (list Aid) :=
  match p with
  | PPullAll p => (λ a, [a]) <$> pa_pull_attributes p
  | PPullLevel p => (λ a, pl_path_attributes p ++ [a]) <$> pl_pull_attributes p
  | _ => []
  end.

(** A plan whose tuples are the walks along the steps, with the entity at the end
    as the given variable. *)
Definition finds_walks (steps : list Step) (this : Var) (plan : Hector) : Prop :=
  NoDup (he_variables plan) ∧ last (he_variables plan) = Some this ∧
  ∀ pair vs, (∃ ρ, ρ <$> he_variables plan = vs ∧ forallb (binding_holds pair ρ) (he_bindings plan) = true) ↔
    walks pair steps vs = true.

Lemma extends_finds steps syms plan :
  extends steps syms plan → NoDup syms → (∀ s, s ∈ syms → N.of_nat (length steps) < s)%N →
  length syms = length (concat ((λ st, st.2.*2) <$> steps)) →
  finds_walks steps (N.of_nat (length steps)) plan.
Proof.
  intros Hext Hnd Hs Hlen. pose proof (extends_variables _ _ _ Hext) as Hv. split; [|split].
  - rewrite Hv. apply (NoDup_fmap_2 _), NoDup_seq.
  - rewrite Hv, seq_S, fmap_app. apply last_snoc.
  - intros pair vs. by apply (extends_walks pair steps syms).
Qed.

(** C13 (a query pulls every attribute once).  Let a document select fields only,
    with arguments that are numbers, strings or truth values, and let the counter
    of symbols be above the number of nested fields and arguments.  Its levels are
    built without a panic.  Together they pull every selected attribute, each
    once, under the path that leads to it.  The plan of a level has as its tuples
    the entities along the path: each linked to the next by the attribute of the
    path, with the values of its arguments; the last is the one the attributes
    are pulled for. *)
Theorem graphql_paths_spec sets sym :
  forallb selection_ok (concat sets) = true →
  (N.of_nat (S (sum_list_with nesting (concat sets))) ≤ sym mod 2 ^ 32)%N →
  ∃ paths sym', GraphQl_into_paths (document_of sets) empty_plan sym = Ret (paths, sym') ∧
    paths ≫= level_pulls ≡ₚ concat sets ≫= leaf_paths [] ∧
    ∀ p, p ∈ paths → ∃ items steps sub, items ∈ sets ∧ leads_to steps items sub ∧ leaf_names sub ≠ [] ∧
      ((steps = [] ∧ p = PPullAll (mkPullAll [] (leaf_names sub))) ∨
       ∃ this plan, finds_walks steps this plan ∧
         p = PPullLevel (mkPullLevel [] (PHector plan) this (leaf_names sub) steps.*1 false)).
Proof.
  intros Hok Hlow. destruct (document_ok plan_pull_all plan_pull_level
    "called `Option::unwrap()` on a `None` value" sets sym Hok Hlow) as (paths & sym' & Hr & Hl).
  exists paths, sym'. split; [done|]. split.
  - by apply (levels_read plan_pull_all plan_pull_level).
  - intros p [i Hi]%list_elem_of_lookup. destruct (Forall2_lookup_r _ _ _ _ _ Hl Hi) as ([steps pulls] & Hsl & Hp).
    apply list_elem_of_lookup_2, list_elem_of_bind in Hsl as (items & Hsl & Hitems).
    destruct (levels_lead _ _ Hsl) as (sub & Hlead & Hpulls & Hne). cbn [fst snd] in *.
    subst pulls.
    exists items, steps, sub. split; [done|]. split; [done|]. split; [done|].
    destruct Hp as (syms & plan & Hext & Hnd & Hs & Hlen & ->).
    case_bool_decide; [by left|]. right. exists (N.of_nat (length steps)), plan. split; [|done].
    by apply (extends_finds steps syms).
Qed.
End graphql_theorems.

(** ** Queries *)

(** [{ hero(id: 7) { name friend { name } } age }]. *)
Definition hero_query : list Selection :=
  [Field "hero" [("id", GqInt 7)] [Field "name" [] []; Field "friend" [] [Field "name" [] []]];
   Field "age" [] []].

Lemma graphql_paths_spec_witness :
  forallb selection_ok (concat [hero_query]) = true ∧
  (N.of_nat (S (sum_list_with nesting (concat [hero_query]))) ≤ SYM mod 2 ^ 32)%N ∧
  ∃ paths sym', GraphQl_into_paths (EV := extern_model) (document_of [hero_query]) empty_plan SYM = Ret (paths, sym') ∧
    paths ≫= level_pulls ≡ₚ [["hero"; "name"]; ["hero"; "friend"; "name"]; ["age"]].
Proof.
  split; [reflexivity|]. split; [vm_compute; discriminate|].
  destruct (graphql_paths_spec (EV := extern_model) [hero_query] SYM) as (paths & sym' & Hr & Hp & _);
    [reflexivity|vm_compute; discriminate|].
  exists paths, sym'. split; [exact Hr|exact Hp].
Defined.

(** Three levels; the innermost comes first. *)
Example hero_levels :
  (let! '(paths, _) := GraphQl_into_paths (EV := extern_model) (document_of [hero_query]) empty_plan SYM in
   Ret (paths ≫= level_pulls)) =
  Ret [["hero"; "friend"; "name"]; ["hero"; "name"]; ["age"]].
Proof. vm_refl. Qed.

(** Starting from the plan of a rule over the variable 1, the variable of the
    first level is taken again: the link holds for an entity and itself only. *)
Example with_plan_reuses_variables :
  (let! '(gql, _) := GraphQl_with_plan (EV := extern_model) (λ _, Ok (document_of [hero_query]))
                       (PProject (mkProject [1%N] (PMatchAV 1 "type" (VString "hero")))) "" SYM in
   Ret ((λ p, match p with
              | PPullLevel (mkPullLevel _ (PHector plan) _ _ _ _) => he_variables plan
              | _ => []
              end) <$> gq_paths gql)) = Ret [[1; 1; 2]; [1; 1]; [1]]%N.
Proof. vm_refl. Qed.
