(* ===== verification/GraphQlDerive.v ===== *)
(** * Domains derived from GraphQL queries (src/src/derive/graphql.rs)

    The levels of a query, built as in [GraphQl], become a stream of pairs for
    every path to a selected attribute, and every stream an attribute of a new
    domain.  Entering an arrangement with its times forwarded keeps its contents;
    exchanging pairs between workers keeps the collection.  The progress a probe
    on a stream reports, and the order in which a map of streams is iterated, are
    arguments. *)
From Stdlib Require Import ZArith NArith Lia.
From stdpp Require Import base strings numbers list gmap sets.
From S2P Require Import Prelude Timestamps Values Bindings HectorPlan Sessions Weighted.
From S2P Require Import Dataflow Domains Relations RelationTheorems PlanOps Pulls Plans.
From S2P Require Import Rules Server EventLoop GraphQl.

(** The order in which a map keyed by paths is iterated. *)
Class PathIteration := {
  path_iter : ∀ {V}, gmap (list Aid) V → list (list Aid * V);
  path_iter_perm {V} (m : gmap (list Aid) V) : path_iter m ≡ₚ map_to_list m
}.
Definition path_iteration_model : PathIteration :=
  {| path_iter V := map_to_list; path_iter_perm V m := Permutation_refl _ |}.

Section derive.
Context `{EV : ExternValues, DF : Differential, PI : PathIteration}.
Context {T : Type} `{EqDecision T, PO : PartialOrderT T, LT : LatticeT T, TM : !Timely T}.
Context `{OT : Ord T, RW : Rewind T, DT : DefaultT T, TR : !Traces T} {Rule : Type}.
Abbreviation Pairs := (Collection (Value * Value) Z) (only parsing).
Abbreviation Handle := (ShutdownHandle (Button (T := T))) (only parsing).
Abbreviation Implementation := (outcome (Implemented * Handle)) (only parsing).
Abbreviation PathId := (list Aid) (only parsing).
Abbreviation Streams := (gmap PathId Pairs) (only parsing).

(** ** Levels *)

Record DPullLevel := mkDPullLevel {
  dl_plan : Plan;
  dl_pull_variable : Var;
  dl_pull_attributes : list Aid;
  dl_path_attributes : list Aid;
  dl_cardinality_many : bool
}.
Record DPullAll := mkDPullAll { da_pull_attributes : list Aid }.
Inductive DPull := DAll (p : DPullAll) | DLevel (p : DPullLevel).

(** [collect::<HashMap<_, _>>()]: later entries replace earlier ones. *)
Definition collect_streams (l : list (PathId * Pairs)) : Streams := foldl (λ m kv, <[kv.1 := kv.2]> m) ∅ l.

Definition DPullLevel_dependencies (self : DPullLevel) : Dependencies :=
  Dependencies_add (Plan_dependencies (dl_plan self))
    (Dependencies_sum (Dependencies_attribute <$> dl_pull_attributes self)).

(** The stream of one pulled attribute, below the entities of the level. *)
Definition pull_below (d : Domain T Rule) (e_path : Collection (Value * list Value) Z)
    (path_attributes : list Aid) (a : Aid) : outcome (PathId * Pairs * Button (T := T)) :=
  let! '(e_v, shutdown_propose) := import_pulled d a in
  let! _ := assert_that "assertion failed: `(left == right)`"
              (negb (bool_decide (path_attributes = []))) in
  let path_stream := c_join_core (λ e _ v, Ret [(e, v)]) e_path e_v in
  Ret (path_attributes ++ [a], path_stream, shutdown_propose).

Definition DPullLevel_implement (implement : Plan → Implementation) (d : Domain T Rule)
    (self : DPullLevel) : outcome (Streams * Handle) :=
  let! _ := assert_that "assertion failed: `(left == right)`"
              (negb (bool_decide (dl_pull_attributes self = []))) in
  let! '(input, shutdown_handle) := implement (dl_plan self) in
  let! e_offset := expect "input relation doesn't bind pull_variable"
                     (Implemented_binds input (dl_pull_variable self)) in
  let! '(paths, shutdown) := Implemented_tuples input d in
  let shutdown_handle := ShutdownHandle_merge_with shutdown_handle shutdown in
  let e_path := c_map (λ t, let! e := index t e_offset in Ret (e, t)) paths in
  let! streams := mapM_outcome (pull_below d e_path (dl_path_attributes self)) (dl_pull_attributes self) in
  let shutdown_handle := foldl ShutdownHandle_add_button shutdown_handle streams.*2 in
  Ret (collect_streams streams.*1, shutdown_handle).

Definition DPullAll_dependencies (self : DPullAll) : Dependencies :=
  Dependencies_sum (Dependencies_attribute <$> da_pull_attributes self).

Definition DPullAll_implement (d : Domain T Rule) (self : DPullAll) : outcome (Streams * Handle) :=
  let! _ := assert_that "assertion failed: !self.pull_attributes.is_empty()"
              (negb (bool_decide (da_pull_attributes self = []))) in
  let! streams := mapM_outcome (λ a,
    let! '(e_v, shutdown_propose) := import_pulled d a in
    let path_stream := c_map (λ ev : Value * Value, Ret (ev.1, ev.2)) e_v in
    Ret ([a], path_stream, shutdown_propose)) (da_pull_attributes self) in
  let shutdown_handle := foldl ShutdownHandle_add_button ShutdownHandle_empty streams.*2 in
  Ret (collect_streams streams.*1, shutdown_handle).

Definition DPull_dependencies (self : DPull) : Dependencies :=
  match self with
  | DAll pull => DPullAll_dependencies pull
  | DLevel pull => DPullLevel_dependencies pull
  end.

Definition DPull_implement (implement : Plan → Implementation) (d : Domain T Rule) (self : DPull)
    : outcome (Streams * Handle) :=
  match self with
  | DAll pull => DPullAll_implement d pull
  | DLevel pull => DPullLevel_implement implement d pull
  end.

(** ** Queries *)

Record DGraphQl := mkDGraphQl { dg_query : string; dg_paths : list DPull; dg_required_aids : list Aid }.

Definition derive_pull_all (pull_attributes : list Aid) : DPull := DAll (mkDPullAll pull_attributes).
Definition derive_pull_level (pull_attributes path_attributes : list Aid) (this : Var) (plan : Hector)
    : DPull := DLevel (mkDPullLevel (PHector plan) this pull_attributes path_attributes false).

Definition DGraphQl_into_paths (self : Document) (root_plan : Hector) (sym : N) : outcome (list DPull * N) :=
  document_into_paths derive_pull_all derive_pull_level "plan has no variables" self root_plan sym.

Section query.
Context (parse_query : string → Result Document string).

Definition DGraphQl_new (query : string) (sym : N) : outcome (DGraphQl * N) :=
  let! ast := parse parse_query query in
  let! '(paths, sym) := DGraphQl_into_paths ast empty_plan sym in
  Ret (mkDGraphQl query paths [], sym).

Definition DGraphQl_with_plan (root_plan : Plan) (query : string) (sym : N) : outcome (DGraphQl * N) :=
  let! ast := parse parse_query query in
  let! variables := Plan_variables root_plan in
  let! '(bindings, sym) := Plan_into_bindings root_plan sym in
  let! '(paths, sym) := DGraphQl_into_paths ast (mkHector variables bindings) sym in
  Ret (mkDGraphQl query paths [], sym).

Definition DGraphQl_with_required_aids (query : string) (required_aids : list Aid) (sym : N)
    : outcome (DGraphQl * N) :=
  let! '(query, sym) := DGraphQl_new query sym in
  Ret (mkDGraphQl (dg_query query) (dg_paths query) required_aids, sym).
End query.

Definition DGraphQl_dependencies (self : DGraphQl) : Dependencies :=
  Dependencies_sum (DPull_dependencies <$> dg_paths self).

(** ** The derived domain *)
Section domain.
Context (progress : PathId → list T) (implement : Plan → Implementation).

Fixpoint add_streams (out_domain : Domain T Rule) (namespace : Aid) (streams : list (PathId * Pairs))
    : outcome (Domain T Rule) :=
  match streams with
  | [] => Ret out_domain
  | (path_id, stream) :: streams =>
      let! aid := expect "called `Option::unwrap()` on a `None` value" (last path_id) in
      let path := Scoped_into (collection_as_singleton_domain stream (progress path_id)
                                 (with_namespace aid namespace)) in
      let! out_domain := Domain_add_assign out_domain path in
      add_streams out_domain namespace streams
  end.

Fixpoint derive_paths (d out_domain : Domain T Rule) (namespace : Aid) (paths : list DPull)
    : outcome (Domain T Rule) :=
  match paths with
  | [] => Ret out_domain
  | path :: paths =>
      let! '(streams, _) := DPull_implement implement d path in
      let! out_domain := add_streams out_domain namespace (path_iter streams) in
      derive_paths d out_domain namespace paths
  end.

Definition DGraphQl_derive (d : Domain T Rule) (namespace : Aid) (self : DGraphQl)
    : outcome (Domain T Rule) :=
  derive_paths d (Domain_new_from "" d) namespace (dg_paths self).
End domain.
End derive.

(** ** [Request::Derive] (src/server/src/main.rs) *)
Section handler.
Context `{EV : ExternValues, DF : Differential, PI : PathIteration, TM : !Timely N, TR : !Traces N}.
Context (delta_join : Domain N Rule → Hector → outcome (Implemented * ShutdownHandle (Button (T := N)))).
Context (parse_query : string → Result Document string) (progress : list Aid → list N).

Definition handle_derive (l : Loop) (namespace : Aid) (query : string) : outcome (Loop * Result unit Error) :=
  let d := internal (lp_server l) in
  let! '(gql, sym) := DGraphQl_new parse_query query (lp_sym l) in
  let! world := DGraphQl_derive progress (Plan_implement (delta_join d) d ∅) d namespace gql in
  let! d := Domain_add_assign d world in
  Ret (set_sym (set_server l (set_internal (lp_server l) d)) sym, Ok tt).
End handler.
