(* ===== verification/DeriveTheorems.v ===== *)
(** * GraphQL derivations: what the derived domain holds

    A derivation is defined for queries that select one attribute at most: the
    stream of each path becomes a domain with an external source, and two of them
    cannot be composed.  The attribute of such a domain relates the entities that
    the query's path reaches to their values. *)
From Stdlib Require Import ZArith NArith Lia.
From stdpp Require Import base strings numbers list gmap sets fin_maps.
From S2P Require Import Prelude Timestamps Values Bindings HectorPlan Sessions Weighted.
From S2P Require Import Dataflow Domains Relations RelationTheorems PlanOps JoinTheorems FilterTransform Pulls Plans.
From S2P Require Import Queries Assignments PlanReference PlanStages PlanSemantics GraphQl GraphQlTheorems GraphQlDerive.

Section derive_theorems.
Context `{EV : ExternValues, DF : Differential, PI : PathIteration}.
Context {T : Type} `{EqDecision T, PO : PartialOrderT T, LT : LatticeT T, TM : !Timely T}.
Context `{OT : Ord T, RW : Rewind T, DT : DefaultT T, TR : !Traces T} {Rule : Type}.
Abbreviation Pairs := (Collection (Value * Value) Z) (only parsing).
Abbreviation Handle := (ShutdownHandle (Button (T := T))) (only parsing).
Abbreviation Implementation := (outcome (Implemented * Handle)) (only parsing).
Abbreviation PathId := (list Aid) (only parsing).
Implicit Types (d : Domain T Rule) (namespace : Aid).

Context (progress : PathId → list T) (implement : Plan → Implementation).

(** ** Composing the streams *)

(** The domain of one stream. *)
Record derived_from d namespace (path_id : PathId) (stream : Pairs) (d' : Domain T Rule) : Prop := {
  de_namespace : Domains.namespace d' = "";
  de_epoch : now_at d' = meet (now_at d) default_time;
  de_sessions : input_sessions d' = ∅;
  de_probe : domain_probe d' = progress path_id;
  de_sources : probed_source_count d' = 1%N;
  de_attributes : ∃ aid, last path_id = Some aid ∧
    attributes d' = {[ with_namespace aid namespace := AttributeConfig_default ]} ∧
    ∃ name, forward_propose d' = {[ with_namespace aid namespace := arrange_named name stream ]}
}.

Lemma add_streams_panics d namespace streams :
  probed_source_count d ≠ 0%N → streams ≠ [] → is_panic (add_streams progress d namespace streams) = true.
Proof.
  intros Hd Hs. destruct streams as [|[path_id stream] streams]; [done|]. cbn [add_streams].
  destruct (last path_id) as [aid|]; [|done]. cbn [expect obind].
  unfold Domain_add_assign. case_bool_decide; [|done]. cbn [assert_that obind].
  destruct (negb _); [|done]. cbn [assert_that obind].
  replace (probed_source_count d =? 0)%N with false by (symmetry; by apply N.eqb_neq). done.
Qed.

Lemma add_one_stream d namespace path_id aid stream :
  last path_id = Some aid →
  ∃ d', add_streams progress (Domain_new_from "" d) namespace [(path_id, stream)] = Ret d' ∧
    derived_from d namespace path_id stream d'.
Proof.
  intros Hlast. eexists. cbn [add_streams]. rewrite Hlast. cbn [expect obind].
  unfold Domain_add_assign. cbn [Domain_new_from Scoped_into collection_as_singleton_domain singleton_domain domain
    Domains.namespace attributes probed_source_count]. rewrite bool_decide_true by done.
  cbn [assert_that obind]. rewrite map_to_list_empty. cbn [fmap list_fmap existsb negb assert_that obind N.eqb orb].
  split; [done|]. split; try done.
  exists aid. split; [done|]. cbn. unfold extend. rewrite !map_union_empty. eauto.
Qed.

Lemma derive_paths_panics d out namespace paths streams :
  Forall2 (λ path s, ∃ h, DPull_implement implement d path = Ret (s, h)) paths streams →
  probed_source_count out ≠ 0%N → streams ≫= path_iter ≠ [] →
  is_panic (derive_paths progress implement d out namespace paths) = true.
Proof.
  intros Hall Hout. induction Hall as [|path s paths streams (h & Hp) Hall IH]; [done|].
  rewrite bind_cons. intros Hne. cbn [derive_paths]. rewrite Hp. cbn [obind].
  destruct (path_iter s) as [|kv l] eqn:Hs.
  - cbn [add_streams obind]. by apply IH.
  - pose proof (add_streams_panics out namespace (kv :: l) Hout ltac:(done)) as Hpan.
    by destruct (add_streams _ _ _ _).
Qed.

(** The derivation, given the streams of the levels. *)
Lemma derive_streams d namespace paths streams :
  Forall2 (λ path s, ∃ h, DPull_implement implement d path = Ret (s, h)) paths streams →
  (∀ kv, kv ∈ streams ≫= path_iter → is_Some (last kv.1)) →
  match streams ≫= path_iter with
  | [] => derive_paths progress implement d (Domain_new_from "" d) namespace paths = Ret (Domain_new_from "" d)
  | [(path_id, stream)] =>
      ∃ d', derive_paths progress implement d (Domain_new_from "" d) namespace paths = Ret d' ∧
        derived_from d namespace path_id stream d'
  | _ => is_panic (derive_paths progress implement d (Domain_new_from "" d) namespace paths) = true
  end.
Proof.
  induction 1 as [|path s paths streams (h & Hp) Hall IH]; intros Hlast; [done|].
  rewrite bind_cons in *. cbn [derive_paths]. rewrite Hp. cbn [obind].
  destruct (path_iter s) as [|[path_id stream] l] eqn:Hs; [by apply IH|].
  destruct (Hlast (path_id, stream) ltac:(set_solver)) as [aid Haid].
  destruct (add_one_stream d namespace path_id aid stream Haid) as (d' & Hadd & Hd').
  assert (probed_source_count d' ≠ 0%N) as Hd0 by (by rewrite (de_sources _ _ _ _ _ Hd')).
  assert (∀ l, add_streams progress (Domain_new_from "" d) namespace ((path_id, stream) :: l) =
     add_streams progress d' namespace l) as Hstep.
  { intros k. cbn [add_streams] in *. destruct (expect _ (last path_id)); [|done]. cbn [obind] in *.
    destruct (Domain_add_assign _ _); [|done]. cbn [obind] in *. by injection Hadd as ->. }
  rewrite Hstep. destruct l as [|kv l].
  - cbn [add_streams obind app]. destruct (streams ≫= path_iter) eqn:Hrest.
    + exists d'. split; [|done]. clear IH Hlast. induction Hall as [|path' s' paths streams (h' & Hp') Hall IH]; [done|].
      rewrite bind_cons in Hrest. apply app_nil in Hrest as [Hs' Hrest]. cbn [derive_paths]. rewrite Hp'. cbn [obind].
      rewrite Hs'. cbn [add_streams obind]. by apply IH.
    + by apply (derive_paths_panics d d' namespace paths streams); [..|rewrite Hrest].
  - pose proof (add_streams_panics d' namespace (kv :: l) Hd0 ltac:(done)) as Hpan.
    cbn [app]. revert Hpan. by destruct (add_streams progress d' namespace (kv :: l)).
Qed.

(** ** Queries with several attributes *)

Definition derive_pulls (p : DPull) : list PathId :=
  match p with
  | DAll p => (λ a, [a]) <$> da_pull_attributes p
  | DLevel p => (λ a, dl_path_attributes p ++ [a]) <$> dl_pull_attributes p
  end.

Lemma dom_collect_streams (l : list (PathId * Pairs)) :
  dom (collect_streams l) = list_to_set (C := gset PathId) l.*1.
Proof.
  unfold collect_streams.
  enough (∀ m : gmap PathId Pairs, dom (foldl (λ m kv, <[kv.1 := kv.2]> m) m l) =
    dom m ∪ list_to_set (C := gset PathId) l.*1) as Hm by (by rewrite Hm, dom_empty_L, union_empty_l_L).
  induction l as [|[k v] l IH]; intros m; cbn; [set_solver|].
  rewrite IH, dom_insert_L. cbn. set_solver.
Qed.

Lemma pull_paths {B} (f : Aid → outcome (PathId * Pairs * B)) (path : Aid → PathId) attributes streams :
  mapM_outcome f attributes = Ret streams →
  (∀ a s, f a = Ret s → s.1.1 = path a) → streams.*1.*1 = path <$> attributes.
Proof.
  intros Hm%mapM_outcome_Ret Hf. induction Hm as [|a s attributes streams Hs _ IH]; [done|].
  cbn. by rewrite IH, (Hf a s Hs).
Qed.

Lemma DPull_implement_paths d p s h :
  DPull_implement implement d p = Ret (s, h) →
  dom s = list_to_set (C := gset PathId) (derive_pulls p).
Proof.
  destruct p as [p|p]; cbn [DPull_implement derive_pulls];
    [unfold DPullAll_implement|unfold DPullLevel_implement]; intros Hi.
  - apply obind_Ret in Hi as (_ & _ & Hi). apply obind_Ret in Hi as (streams & Hm & [= <- <-]).
    rewrite dom_collect_streams. do 2 f_equal. apply (pull_paths _ _ _ _ Hm).
    intros a [[k c] b] Ha. apply obind_Ret in Ha as ([e_v b'] & _ & [= <- _ _]). done.
  - apply obind_Ret in Hi as (_ & _ & Hi). apply obind_Ret in Hi as ([input h0] & _ & Hi).
    apply obind_Ret in Hi as (e_offset & _ & Hi). apply obind_Ret in Hi as ([paths h1] & _ & Hi).
    apply obind_Ret in Hi as (streams & Hm & [= <- <-]).
    rewrite dom_collect_streams. do 2 f_equal. apply (pull_paths _ _ _ _ Hm).
    intros a [[k c] b] Ha. unfold pull_below in Ha.
    apply obind_Ret in Ha as ([e_v b'] & _ & Ha). apply obind_Ret in Ha as (_ & _ & [= <- _ _]). done.
Qed.

Lemma derive_paths_implements d out namespace paths d' :
  derive_paths progress implement d out namespace paths = Ret d' →
  ∃ streams, Forall2 (λ path s, ∃ h, DPull_implement implement d path = Ret (s, h)) paths streams.
Proof.
  revert out. induction paths as [|path paths IH]; intros out Hd; [by exists []|].
  apply obind_Ret in Hd as ([s h] & Hp & Hd). apply obind_Ret in Hd as (out' & _ & Hd).
  destruct (IH _ Hd) as [streams Hall]. exists (s :: streams). constructor; [by exists h|done].
Qed.

(** The keys of the streams are the paths the levels pull. *)
Lemma stream_paths d paths streams p :
  Forall2 (λ path s, ∃ h, DPull_implement implement d path = Ret (s, h)) paths streams →
  p ∈ (streams ≫= path_iter).*1 ↔ p ∈ paths ≫= derive_pulls.
Proof.
  induction 1 as [|path s paths streams (h & Hp) Hall IH]; [done|].
  rewrite !bind_cons, fmap_app, !elem_of_app, IH. apply or_iff_compat_r.
  rewrite (path_iter_perm s), <- (elem_of_list_to_set (C := gset PathId) p (derive_pulls path)).
  rewrite <- (DPull_implement_paths d path s h Hp), elem_of_dom. split.
  - intros ([k v] & -> & Hin%elem_of_map_to_list)%list_elem_of_fmap. by exists v.
  - intros [v Hv]. apply list_elem_of_fmap. exists (p, v). split; [done|]. by apply elem_of_map_to_list.
Qed.

(** C35 (derivations of one attribute).  The levels of a document are built as
    before.  If they derive a domain, the query selects no attribute, and the
    domain is empty; or all its selections are of one attribute, under one path,
    and the domain holds that attribute, under its namespace, with a source of its
    own and the epoch fallen back to the default.  Every other query takes the
    worker down. *)
Theorem derive_one_attribute sets sym query required d namespace :
  forallb selection_ok (concat sets) = true →
  (N.of_nat (S (sum_list_with nesting (concat sets))) ≤ sym mod 2 ^ 32)%N →
  ∃ paths sym', DGraphQl_into_paths (document_of sets) empty_plan sym = Ret (paths, sym') ∧
    ∀ d', DGraphQl_derive progress implement d namespace (mkDGraphQl query paths required) = Ret d' →
      (concat sets ≫= leaf_paths [] = [] ∧ d' = Domain_new_from "" d) ∨
      ∃ path aid stream, (∀ p, p ∈ concat sets ≫= leaf_paths [] ↔ p = path ++ [aid]) ∧
        derived_from d namespace (path ++ [aid]) stream d'.
Proof.
  intros Hok Hlow. destruct (document_ok derive_pull_all derive_pull_level "plan has no variables" sets sym Hok Hlow)
    as (paths & sym' & Hr & Hl).
  assert (paths ≫= derive_pulls ≡ₚ concat sets ≫= leaf_paths []) as Hread
    by (by apply (levels_read derive_pull_all derive_pull_level)).
  exists paths, sym'. split; [done|]. intros d' Hd'. unfold DGraphQl_derive in Hd'. cbn [dg_paths] in Hd'.
  destruct (derive_paths_implements _ _ _ _ _ Hd') as [streams Hall].
  assert (∀ p, p ∈ concat sets ≫= leaf_paths [] ↔ p ∈ (streams ≫= path_iter).*1) as Hkeys.
  { intros p. by rewrite (stream_paths d paths streams p Hall), Hread. }
  assert (∀ kv, kv ∈ streams ≫= path_iter → is_Some (last kv.1)) as Hlast.
  { intros kv Hkv%(list_elem_of_fmap_2 fst). apply (stream_paths d paths streams _ Hall) in Hkv.
    apply list_elem_of_bind in Hkv as ([p|p] & (a & -> & _)%list_elem_of_fmap & _); [by exists a|].
    rewrite last_snoc. by exists a. }
  pose proof (derive_streams d namespace paths streams Hall Hlast) as Hs. rewrite Hd' in Hs.
  destruct (streams ≫= path_iter) as [|[path_id stream] [|kv l]]; [..|done].
  - left. injection Hs as ->. split; [|done].
    apply elem_of_nil_inv. intros p Hp%Hkeys. by apply not_elem_of_nil in Hp.
  - right. destruct (Hlast (path_id, stream) ltac:(by left)) as [aid Haid]. cbn [fst] in Haid.
    apply last_Some in Haid as [path ->]. destruct Hs as (d'' & [= <-] & Hder).
    exists path, aid, stream. split; [|done]. intros p. rewrite Hkeys. cbn. by rewrite list_elem_of_singleton.
Qed.

(** ** What the attribute holds *)

Lemma wt_join_entities {V} `{EqDecision V} (l : wlist (Value * V)) (k : wlist (Value * Value)) e v :
  wt (wjoin (λ e (_ : V) v, [(e, v)]) l k) (e, v) = wrap_i 64 (wt (wmap fst l) e * wt k (e, v)).
Proof.
  unfold wt. rewrite wsum_wjoin, wsum_wmap.
  rewrite (wsum_ext _ (λ x, indicator e x.1 * wsum (indicator (e, v)) k)%Z).
  - rewrite wsum_mul_r, wrap_i64_mul_l. rewrite (Z.mul_comm (wsum _ l)), (Z.mul_comm (wsum _ l)), wrap_i64_mul_l. done.
  - intros [e' x] _. cbn [fst]. unfold indicator at 2. case_decide as He.
    + subst e'. rewrite Z.mul_1_l. apply wsum_ext. intros [e'' v'] _. cbn [fst snd].
      unfold indicator, sumZ. cbn. repeat case_decide; naive_solver lia.
    + rewrite Z.mul_0_l. rewrite (wsum_ext _ (λ _, 0%Z)); [apply wsum_zero|].
      intros [e'' v'] _. cbn [fst snd]. unfold indicator, sumZ. cbn. repeat case_decide; naive_solver lia.
Qed.

Section one_attribute.
Context d (level : DPullLevel) (a : Aid) (rel : Implemented) (h : Handle) (l : wlist (list Value)).
Hypotheses (Ha : dl_pull_attributes level = [a]) (Hpath : dl_path_attributes level ≠ []).
Hypotheses (Hi : implement (dl_plan level) = Ret (rel, h)) (Hwf : relation_wf rel d) (Hl : rel_run rel d = Ret l).
Hypotheses (Hx : dl_pull_variable level ∈ Implemented_variables rel) (Hu : attribute_usable d a).

Definition level_weight (e v : Value) : Z :=
  wrap_i 64 (wt (wmap (λ t, env (Implemented_variables rel) t (dl_pull_variable level)) l) e *
             wt (attribute_contents d a) (e, v)).

Lemma level_stream :
  ∃ stream h' out, DPull_implement implement d (DLevel level) =
      Ret ({[ dl_path_attributes level ++ [a] := stream ]}, h') ∧
    run stream = Ret out ∧ ∀ e v, wt out (e, v) = level_weight e v.
Proof.
  set (x := dl_pull_variable level) in *. set (vs := Implemented_variables rel) in *.
  destruct (tuples_self rel d l Hwf Hl) as (c & hc & l' & Htuples & Hc & Hll).
  destruct (usable_import d a ("Propose(" +:+ a +:+ ")") Hu) as (tr & pairs & Htr & Hpairs & Hacc & _).
  destruct (Vec_binds vs x) as [i|] eqn:Hbinds; [|by apply Vec_binds_None in Hbinds].
  set (e_path := c_map (λ t, let! e := index t i in Ret (e, t)) c).
  destruct (run_map_pure (λ t, let! e := index t i in Ret (e, t)) (λ t, (env vs t x, t)) c l' Hc) as (lp & Hlp & Hperm).
  { intros t Ht. destruct (env_lookup vs t x Hx) as (j & Hj & Hjt).
    - apply (proj2 Hwf l); [done|]. by rewrite <- Hll.
    - rewrite Hbinds in Hj. injection Hj as <-. unfold index. by rewrite Hjt. }
  destruct (import_frontier tr ("Propose(" +:+ a +:+ ")")) as [e_v btn] eqn:Himp. cbn [fst] in Hpairs.
  destruct (run_join_core (λ e (_ : list Value) v, Ret [(e, v)]) (λ e _ v, [(e, v)]) e_path e_v lp pairs Hlp Hpairs)
    as (out & Hout & Houtw & _); [done|].
  eexists _, _, out. split; [|split; [exact Hout|]].
  - cbn [DPull_implement]. unfold DPullLevel_implement. rewrite Ha, bool_decide_false by done.
    cbn [negb assert_that obind]. rewrite Hi. cbn [obind].
    rewrite Implemented_binds_Vec. fold vs x. rewrite Hbinds. cbn [expect obind]. rewrite Htuples. cbn [obind].
    rewrite mapM_outcome_cons. unfold pull_below at 1, import_pulled. rewrite Htr. cbn [expect obind]. rewrite Himp.
    rewrite bool_decide_false by done. cbn [negb assert_that obind]. done.
  - intros e v. rewrite (Houtw (e, v)), wt_join_entities, (Hacc (e, v)). unfold level_weight. do 2 f_equal.
    fold vs x. transitivity (wt (wmap (λ t, env vs t x) l') e).
    + apply wlist_equiv_perm. unfold wmap. by rewrite Hperm, <- list_fmap_compose.
    + apply wlist_equiv_perm. unfold wmap. by rewrite Hll.
Qed.

(** (a level derived).  Take a level that pulls one attribute, for the entities in a
    variable of its plan's relation.  The derived domain holds that attribute,
    under its namespace; a pair of an entity and a value has in it the number of
    tuples with this entity, times the weight of the pair in the attribute pulled. *)
Lemma level_derives namespace query required :
  ∃ d', DGraphQl_derive progress implement d namespace (mkDGraphQl query [DLevel level] required) = Ret d' ∧
    dom (attributes d') = {[ with_namespace a namespace ]} ∧
    ∀ e v, wt (attribute_contents d' (with_namespace a namespace)) (e, v) = level_weight e v.
Proof.
  destruct level_stream as (stream & h' & out & Himpl & Hout & Hw).
  destruct (add_one_stream d namespace (dl_path_attributes level ++ [a]) a stream) as (d' & Hadd & Hder); [apply last_snoc|].
  exists d'. destruct (de_attributes _ _ _ _ _ Hder) as (aid & Hlast & Hattrs & name & Hprop).
  rewrite last_snoc in Hlast. injection Hlast as <-. split; [|split].
  - unfold DGraphQl_derive. cbn [dg_paths derive_paths]. rewrite Himpl. cbn [obind].
    assert (path_iter {[dl_path_attributes level ++ [a] := stream]} = [(dl_path_attributes level ++ [a], stream)]) as ->.
    { apply Permutation_singleton_r. by rewrite path_iter_perm, map_to_list_singleton. }
    by rewrite Hadd.
  - rewrite Hattrs. apply dom_singleton_L.
  - intros e v. unfold attribute_contents, import_propose, Domain_forward_propose. rewrite Hprop, lookup_singleton_eq.
    cbn [obind]. pose proof (import_arranged name (with_namespace a namespace) stream) as Harr.
    destruct (import_frontier (arrange_named name stream) (with_namespace a namespace)) as [c' b']. cbn [obind fst] in *.
    rewrite Hout in Harr. apply run_rel_Ret_l in Harr as (l'' & -> & Hl'' & _).
    by rewrite (Hl'' (e, v)).
Qed.
End one_attribute.

(** A domain with a source of its own cannot take a derived attribute in. *)
Lemma derived_needs_no_source d namespace path_id stream d' :
  derived_from d namespace path_id stream d' → probed_source_count d ≠ 0%N →
  is_panic (Domain_add_assign d d') = true.
Proof.
  intros Hd' Hd. unfold Domain_add_assign. case_bool_decide; [|done]. cbn [assert_that obind].
  destruct (negb _); [|done]. cbn [assert_that obind]. rewrite (de_sources _ _ _ _ _ Hd').
  replace (probed_source_count d =? 0)%N with false by (symmetry; by apply N.eqb_neq). done.
Qed.

(** The required attributes are recorded and never looked at. *)
Lemma required_aids_ignored d namespace query paths required required' :
  DGraphQl_derive progress implement d namespace (mkDGraphQl query paths required) =
  DGraphQl_derive progress implement d namespace (mkDGraphQl query paths required').
Proof. done. Qed.
End derive_theorems.

(** ** A query of one attribute, from its text to the domain *)
Section nested_attribute.
Context `{EV : ExternValues, DF : Differential, PI : PathIteration}.
Context {T : Type} `{EqDecision T, PO : PartialOrderT T, LT : LatticeT T, TM : !Timely T}.
Context `{OT : Ord T, RW : Rewind T, DT : DefaultT T, TR : !Traces T} {Rule : Type}.
Context (progress : list Aid → list T) (parse_query : string → Result Document string).
Context (delta_join : Hector → outcome (Implemented * ShutdownHandle (Button (T := T)))).

Lemma reached_entities vars (l : wlist (list Value)) (pairs : wlist (Value * Value)) e :
  NoDup vars → (∀ t, t ∈ l.*1 → length t = length vars) →
  wmap (assign vars) l ≡ wmap (restrict [0; 1]%N) (wmap (pattern 0 1) pairs) →
  wt (wmap (λ t, env vars t 1%N) l) e = wt (wmap snd pairs) e.
Proof.
  intros Hnd Hlen Heq. transitivity (wt (wmap (λ m, value_of m 1%N) (wmap (assign vars) l)) e).
  - rewrite wmap_compose. erewrite wmap_ext; [done|]. intros t Ht. symmetry. apply env_value_of; auto.
  - transitivity (wt (wmap (λ m, value_of m 1%N) (wmap (restrict [0; 1]%N) (wmap (pattern 0 1) pairs))) e).
    + by apply wmap_proper.
    + rewrite !wmap_compose. erewrite wmap_ext; [done|]. intros [e' v'] _. cbn.
      rewrite value_of_restrict by set_solver. unfold pattern, assign, value_of. cbn.
      by rewrite lookup_insert_ne, lookup_insert_eq by done.
Qed.

(** C18 (deriving a nested attribute).  Let a query select one attribute [b] of the
    entities an attribute [a] leads to, both of them in the domain.  It is parsed,
    planned, implemented and derived without a panic.  The derived domain holds
    [b] under its namespace: a pair of an entity and a value has the weight of the
    pair in [b], times the number of times [a] leads to the entity. *)
Theorem derived_contents (d : Domain T Rule) namespace query a b sym :
  parse_query query = Ok (document_of [[Field a [] [Field b [] []]]]) →
  attribute_usable d a → attribute_usable d b →
  ∃ gql sym' d', DGraphQl_new parse_query query sym = Ret (gql, sym') ∧
    DGraphQl_derive progress (Plan_implement delta_join d ∅) d namespace gql = Ret d' ∧
    dom (attributes d') = {[ with_namespace b namespace ]} ∧
    ∀ e v, wt (attribute_contents d' (with_namespace b namespace)) (e, v) =
      wrap_i 64 (wt (wmap snd (attribute_contents d a)) e * wt (attribute_contents d b) (e, v)).
Proof.
  intros Hparse Ha Hb. unfold DGraphQl_new, parse. rewrite Hparse.
  set (plan := PHector (mkHector [0; 1]%N [Binding_attribute 0 a 1])).
  exists (mkDGraphQl query [DLevel (mkDPullLevel plan 1 [b] [a] false)] []), sym.
  destruct (computes_single_binding d delta_join (mkAttributeBinding (0, 1)%N a) [0; 1]%N)
    as (c & h & Hi & (Hwf & Hvars & l & Hl & Hw) & _); [|done|set_solver|done|done|].
  { apply NoDup_ListNoDup. repeat constructor; set_solver. }
  destruct (level_derives progress (Plan_implement delta_join d ∅) d (mkDPullLevel plan 1 [b] [a] false) b
    (ICollection c) h l) with (namespace := namespace) (query := query) (required := @nil Aid)
    as (d' & Hd' & Hdom & Hc); [done..| |done|].
  { cbn [dl_pull_variable]. apply (elem_of_list_to_set (C := gset Var)). rewrite Hvars. set_solver. }
  exists d'. split; [done|]. split; [done|]. split; [done|]. intros e v. rewrite Hc. unfold level_weight.
  do 2 f_equal. cbn [dl_pull_variable]. destruct Hwf as [Hnd Hlen].
  apply reached_entities; [done| |done]. intros t. by apply Hlen.
Qed.
End nested_attribute.

(** ** Derivations on concrete data *)
Section derive_runs.
#[local] Existing Instances extern_model diff_model trace_model timely_model path_iteration_model.

(** Two attributes, neither of which is probed. *)
Definition heroes_domain : outcome (Domain N unit) :=
  Domain_add (T := N)
    (domain (stream_as_singleton_domain (T := N) (Ret [((VEid 1, VEid 2), 1%Z); ((VEid 1, VEid 3), 1%Z)]) "hero"))
    (domain (stream_as_singleton_domain (T := N) (Ret [((VEid 2, VNumber 30), 1%Z); ((VEid 4, VNumber 12), 1%Z)]) "age")).

Definition implement_in (d : Domain N unit) : Plan → outcome (Implemented * ShutdownHandle (Button (T := N))) :=
  Plan_implement (λ _, Panic "not reached") d ∅.

(** [{ hero { age } }], and with a second attribute. *)
Definition age_query : list Selection := [Field "hero" [] [Field "age" [] []]].
Definition two_attributes : list Selection := [Field "hero" [] [Field "age" [] []; Field "hero" [] []]].

Definition derive_from (d : Domain N unit) (items : list Selection) : outcome (Domain N unit) :=
  let! '(gql, _) := DGraphQl_new (λ _, Ok (document_of [items])) "" SYM in
  DGraphQl_derive (λ _, [0%N]) (implement_in d) d "derived" gql.

(** The ages of heroes. *)
Example derived_ages :
  (let! d := heroes_domain in let! d' := derive_from d age_query in
   Ret ((map_to_list (attributes d')).*1, attribute_contents d' "derived/age")) =
  Ret (["derived/age"], [((VEid 2, VNumber 30), 1%Z)]).
Proof. vm_refl. Qed.

Example two_attributes_panic :
  is_panic (let! d := heroes_domain in derive_from d two_attributes) = true.
Proof. vm_refl. Qed.

(** Attributes at the top of a query that starts from a plan panic as well. *)
Example with_plan_top_level :
  is_panic (let! d := heroes_domain in
    let! '(gql, _) := DGraphQl_with_plan (λ _, Ok (document_of [[Field "age" [] []]])) (PMatchA 0 "hero" 1) "" SYM in
    DGraphQl_derive (λ _, [0%N]) (implement_in d) d "derived" gql) = true.
Proof. vm_refl. Qed.

(** Arguments of a field that selects no more fields are dropped. *)
Example leaf_arguments_dropped :
  (let! '(paths, _) := DGraphQl_into_paths (document_of [[Field "age" [("min", GqInt 18)] []]]) empty_plan SYM in
   Ret paths) = Ret [DAll (mkDPullAll ["age"])].
Proof. vm_refl. Qed.

Definition no_attributes : Domain N unit := Domain_new 0%N.

Definition heroes : Domain N unit := match heroes_domain with Ret d => d | Panic _ => no_attributes end.

(** The derivation of the query, in the domain of heroes. *)
Definition derived_heroes (paths : list DPull) : outcome (Domain N unit) :=
  DGraphQl_derive (λ _, [0%N]) (implement_in heroes) heroes "derived" (mkDGraphQl "" paths []).

Lemma derive_one_attribute_witness :
  ∃ paths sym' d', DGraphQl_into_paths (document_of [age_query]) empty_plan SYM = Ret (paths, sym') ∧
    DGraphQl_derive (λ _, [0%N]) (implement_in heroes) heroes "derived" (mkDGraphQl "" paths []) = Ret d' ∧
    ∃ path aid stream, path ++ [aid] = ["hero"; "age"] ∧
      derived_from (λ _, [0%N]) heroes "derived" (path ++ [aid]) stream d'.
Proof.
  destruct (derive_one_attribute (λ _, [0%N]) (implement_in heroes) [age_query] SYM "" [] heroes "derived")
    as (paths & sym' & Hr & Hd); [reflexivity|vm_compute; discriminate|].
  assert (is_panic (let! '(paths, _) := DGraphQl_into_paths (document_of [age_query]) empty_plan SYM in
                    derived_heroes paths) = false) as Hret by vm_refl.
  rewrite Hr in Hret. cbn [obind] in Hret. unfold derived_heroes in Hret.
  destruct (DGraphQl_derive (λ _, [0%N]) (implement_in heroes) heroes "derived" (mkDGraphQl "" paths [])) as [d'|msg] eqn:Hrun;
    [|discriminate Hret].
  exists paths, sym', d'. split; [exact Hr|]. split; [exact Hrun|].
  destruct (Hd d' eq_refl) as [[Hnil _]|(path & aid & stream & Hp & Hd')]; [discriminate Hnil|].
  exists path, aid, stream. split; [symmetry; apply Hp; left|exact Hd'].
Defined.

Lemma hero_usable : attribute_usable heroes "hero".
Proof. exists [((VEid 1, VEid 2), 1%Z); ((VEid 1, VEid 3), 1%Z)]. vm_refl. Qed.
Lemma age_usable : attribute_usable heroes "age".
Proof. exists [((VEid 2, VNumber 30), 1%Z); ((VEid 4, VNumber 12), 1%Z)]. vm_refl. Qed.

Lemma derived_contents_witness :
  attribute_usable heroes "hero" ∧ attribute_usable heroes "age" ∧
  ∃ gql sym' d', DGraphQl_new (λ _, Ok (document_of [age_query])) "" SYM = Ret (gql, sym') ∧
    DGraphQl_derive (λ _, [0%N]) (implement_in heroes) heroes "derived" gql = Ret d' ∧
    dom (attributes d') = {[ "derived/age" ]} ∧
    ∀ e v, wt (attribute_contents d' "derived/age") (e, v) =
      wrap_i 64 (wt (wmap snd (attribute_contents heroes "hero")) e * wt (attribute_contents heroes "age") (e, v)).
Proof.
  split; [exact hero_usable|]. split; [exact age_usable|].
  exact (derived_contents (λ _, [0%N]) (λ _, Ok (document_of [age_query])) (λ _, Panic "not reached") heroes "derived" ""
    "hero" "age" SYM eq_refl hero_usable age_usable).
Defined.
End derive_runs.
