(* ===== verification/Delivery.v ===== *)
(** * The delivery of results (src/server/src/main.rs, src/src/sinks/mod.rs)

    What becomes of the relation a client is interested in: its updates are
    delayed to the granularity asked for and consolidated, and go to a sink or, in
    messages as timely cuts them, to the client.  A relation is the stream of its
    updates; [consolidate] is differential dataflow's, as an argument. *)
From Stdlib Require Import ZArith NArith Lia.
From stdpp Require Import base strings numbers sets gmap list.
From S2P Require Import Prelude Timestamps Values Outputs Weighted Streams EventLoop.

(** Updates with equal records and times are added, those that cancel dropped. *)
Class Consolidation := {
  consolidate : ∀ {D} `{EqDecision D}, wlist D → wlist D;
  consolidate_equiv {D} `{EqDecision D} (l : wlist D) : consolidate l ≡ l;
  consolidate_records {D} `{EqDecision D} (l : wlist D) : (consolidate l).*1 ⊆ l.*1;
  consolidate_once {D} `{EqDecision D} (l : wlist D) : NoDup (consolidate l).*1;
  consolidate_nonzero {D} `{EqDecision D} (l : wlist D) x z : (x, z) ∈ consolidate l → z ≠ 0%Z
}.

Definition consolidate_list {D} `{EqDecision D} (l : wlist D) : wlist D :=
  (λ x, (x, wt l x)) <$> filter (λ x, wt l x ≠ 0%Z) (remove_dups l.*1).

Lemma consolidate_list_records {D} `{EqDecision D} (l : wlist D) :
  (consolidate_list l).*1 = filter (λ x, wt l x ≠ 0%Z) (remove_dups l.*1).
Proof. unfold consolidate_list. rewrite <- list_fmap_compose. apply list_fmap_id. Qed.

Lemma wsum_graph {D} `{EqDecision D} (f : D → Z) xs x :
  NoDup xs → wsum (indicator x) ((λ y, (y, f y)) <$> xs) = (if decide (x ∈ xs) then f x else 0)%Z.
Proof.
  induction 1 as [|y xs Hy Hnd IH]; [by rewrite decide_False by set_solver|].
  csimpl. rewrite wsum_cons, IH. unfold indicator. cbn [fst snd].
  destruct (decide (y = x)) as [->|Hne].
  - rewrite (decide_False (P := x ∈ xs)) by done. rewrite decide_True by set_solver. lia.
  - destruct (decide (x ∈ xs)); [rewrite decide_True by set_solver|rewrite decide_False by set_solver]; lia.
Qed.

Lemma consolidate_list_equiv {D} `{EqDecision D} (l : wlist D) : consolidate_list l ≡ l.
Proof.
  intros x. unfold wt at 1, consolidate_list. rewrite wsum_graph by (apply NoDup_filter, NoDup_remove_dups).
  case_decide as Hx; [apply wrap_i64_id, wrap_i64_range|].
  destruct (decide (wt l x = 0%Z)) as [->|Hne]; [done|]. exfalso. apply Hx, list_elem_of_filter.
  split; [done|]. apply elem_of_remove_dups. destruct (decide (x ∈ l.*1)) as [|Hn]; [done|].
  by rewrite (wt_not_elem l x Hn) in Hne.
Qed.

#[export] Program Instance consolidation_model : Consolidation := {| consolidate D _ := consolidate_list |}.
Next Obligation. intros. apply consolidate_list_equiv. Qed.
Next Obligation.
  intros. rewrite consolidate_list_records. intros x [_ Hx]%list_elem_of_filter. by apply elem_of_remove_dups.
Qed.
Next Obligation. intros. rewrite consolidate_list_records. apply NoDup_filter, NoDup_remove_dups. Qed.
Next Obligation.
  intros D ? l x z (y & [= -> ->] & [Hz _]%list_elem_of_filter)%list_elem_of_fmap. done.
Qed.

Section delivery.
Context `{EV : ExternValues, CO : Consolidation}.
Abbreviation Relation := (Stream N (list Value)) (only parsing).

(** ** Sinks *)

Inductive Sink := TheVoid (filename : option string) | AssocIn (stateful : option nat).

Record SinkingContext := mkSinkingContext { sk_name : Aid; sk_granularity : option Time }.

Definition SinkingContext_from (interest : Interest Sink) : SinkingContext :=
  mkSinkingContext (in_name interest) (granularity interest).

(** [TheVoid], a benchmark: when the frontier leaves the last one behind after
    input came, the milliseconds since then are written. *)
Record Void := mkVoid { vo_t0 : N; vo_last : N; vo_lines : list (N * N) }.

Definition Void_new (now : N) : Void := mkVoid now default_time [].

Definition void_write (writer : bool) (now : N) (self : Void) : list (N * N) :=
  if writer then vo_lines self ++ [((now - vo_t0 self) / 1000000, vo_last self)%N] else vo_lines self.

Definition void_step (writer : bool) (self : Void) (now : N) (messages : list Relation)
    (frontier : list N) : Void :=
  let received_input := foldl (λ _ buffer, negb (bool_decide (buffer = []))) false messages in
  match frontier with
  | [] => mkVoid (vo_t0 self) (vo_last self) (void_write writer now self)
  | front :: _ =>
      if received_input && negb (existsb (λ f, less_equal f (vo_last self)) frontier)
      then mkVoid now front (void_write writer now self)
      else self
  end.

(** [Sink::sink]: the void has no outputs; the other sends those of its operator,
    modelled in [AssocIn], for its granularity. *)
Definition Sink_sink (self : Sink) : Result (option (option nat)) Error :=
  match self with
  | TheVoid _ => Ok None
  | AssocIn stateful => Ok (Some stateful)
  end.

(** ** Results *)

(** [relation.delay(move |t| t.coarsen(&granularity))]. *)
Definition delay_results (granularity : option Time) (relation : Relation) : outcome Relation :=
  match granularity with
  | None => Ret relation
  | Some granularity =>
      let! granularity := from_time (T := N) granularity in
      mapM_outcome (λ u : list Value * N * Z,
        let! t := coarsen u.1.2 granularity in Ret (u.1.1, t, u.2)) relation
  end.

Definition delayed (granularity : option Time) (relation : Relation) : outcome Relation :=
  let! delayed := delay_results granularity relation in Ret (consolidate delayed).

(** [ResultsRecv], and [Subscription] after it made tuples of the pairs. *)
Definition results_recv (name : Aid) (data : Relation) : Output :=
  QueryDiff name ((λ u : list Value * N * Z, (u.1.1, Time_from_u64 u.1.2, u.2)) <$> data).

Definition subscription_tuples (pairs : Stream N (Value * Value)) : Relation :=
  wmap (λ x, ([x.1.1; x.1.2], x.2)) pairs.

(** ** What a client knows *)

(** The tuples a client has been told of, up to a transaction. *)
Definition told (name : Aid) (t : N) (out : Output) : wlist (list Value) :=
  match out with
  | QueryDiff name' results =>
      if decide (name' = name)
      then omap (λ r : list Value * Time * Z, match r.1.2 with
                | TxId s => if (s <=? t)%N then Some (r.1.1, r.2) else None
                | _ => None
                end) results
      else []
  | _ => []
  end.

(** The result before a time. *)
Definition before (relation : Relation) (t : N) : wlist (list Value) :=
  wmap fst (wfilter (λ x, (x.2 <? t)%N) relation).

Lemma told_results name t data : told name t (results_recv name data) = accumulate data t.
Proof.
  unfold told, results_recv. rewrite decide_True by done. unfold accumulate.
  induction data as [|[[x s] z] data IH]; [done|].
  unfold wmap, wfilter in *. rewrite filter_cons. cbn [fmap list_fmap omap list_omap fst snd Time_from_u64].
  change (less_equal s t) with (s <=? t)%N. destruct (s <=? t)%N; simpl; by rewrite IH.
Qed.

Lemma told_all name t (batches : list Relation) :
  (results_recv name <$> batches) ≫= told name t = accumulate (concat batches) t.
Proof.
  induction batches as [|data batches IH]; [done|].
  rewrite fmap_cons, bind_cons, IH, told_results. cbn [concat]. unfold accumulate, wmap, wfilter.
  by rewrite filter_app, fmap_app.
Qed.

Lemma accumulate_equiv (l k : Relation) t : l ≡ k → accumulate l t ≡ accumulate k t.
Proof. intros Hlk. unfold accumulate. by rewrite Hlk. Qed.

(** A window bound is reached by exactly the times before it. *)
Lemma coarsen_before t w r b :
  (0 < w)%N → (t + w < 2 ^ 64)%N → (w | b)%N → u64_coarsen t w = Ret r →
  (w | r)%N ∧ (r <=? b)%N = (t <? b)%N.
Proof.
  intros Hw Hov Hb Hr. destruct (u64_coarsen_next_multiple t w Hw Hov) as (r' & Hr' & Hdiv & Hlt & Hleast).
  rewrite Hr in Hr'. injection Hr' as <-. split; [done|].
  destruct (N.ltb_spec t b) as [Htb|Htb]; [apply N.leb_le; by apply Hleast|apply N.leb_gt; lia].
Qed.

Lemma delay_results_spec g (relation : Relation) :
  (0 < g)%N → Forall (λ u, (u.1.2 + g < 2 ^ 64)%N) relation →
  ∃ l, delay_results (Some (TxId g)) relation = Ret l ∧ (∀ u, u ∈ l → (g | u.1.2)%N) ∧
    ∀ b, (g | b)%N → accumulate l b = before relation b.
Proof.
  intros Hg. unfold delay_results. cbn [from_time Rewind_u64 u64_from_Time obind].
  induction 1 as [|[[x t] z] relation Ht Hall IH].
  { exists []. split; [done|]. split; [by intros u ?%elem_of_nil|done]. }
  destruct IH as (l & Hl & Hdiv & Hb).
  destruct (u64_coarsen_next_multiple t g Hg Ht) as (r & Hr & Hrg & _).
  exists ((x, r, z) :: l). split; [|split].
  - rewrite mapM_outcome_cons. cbn [fst snd]. change (coarsen t g) with (u64_coarsen t g). rewrite Hr. cbn [obind]. rewrite Hl. done.
  - intros u [->|Hu]%elem_of_cons; [done|by apply Hdiv].
  - intros b Hgb. specialize (Hb b Hgb). destruct (coarsen_before t g r b Hg Ht Hgb Hr) as [_ Hrb].
    unfold accumulate, before, wmap, wfilter in *. rewrite !filter_cons. cbn [fst snd].
    change (less_equal r b) with (r <=? b)%N. rewrite Hrb. destruct (t <? b)%N; csimpl; [|exact Hb].
    f_equal. exact Hb.
Qed.

(** C14 (results at a granularity).  Let a client ask for results at the
    granularity of some number of transactions, and no time overflow.  Delaying
    the results does not panic.  However timely cuts the result into messages, at
    each multiple of the granularity the client has been told exactly the result
    before it; every change it is told of is at such a multiple, and for each tuple
    and multiple there is at most one. *)
Theorem delivered_at_bounds g (relation : Relation) name :
  (0 < g)%N → Forall (λ u, (u.1.2 + g < 2 ^ 64)%N) relation →
  ∃ l, delayed (Some (TxId g)) relation = Ret l ∧ ∀ messages, concat messages ≡ₚ l →
    (∀ b, (g | b)%N → (results_recv name <$> messages) ≫= told name b ≡ before relation b) ∧
    (∀ x t z, ((x, t), z) ∈ concat messages → (g | t)%N ∧ z ≠ 0%Z) ∧ NoDup (concat messages).*1.
Proof.
  intros Hg Hall. destruct (delay_results_spec g relation Hg Hall) as (l & Hl & Hdiv & Hb).
  exists (consolidate l). unfold delayed. rewrite Hl. split; [done|]. intros messages Hm. split.
  - intros b Hgb. rewrite told_all, <- (Hb b Hgb). apply accumulate_equiv. intros x.
    rewrite (wt_perm _ _ x Hm). apply consolidate_equiv.
  - rewrite Hm. split; [|apply consolidate_once]. intros x t z. rewrite Hm. intros Hin. split.
    + apply (list_elem_of_fmap_2 fst), (consolidate_records l) in Hin.
      apply list_elem_of_fmap in Hin as (u & Hu & Hin). apply Hdiv in Hin. by rewrite <- Hu in Hin.
    + by apply (consolidate_nonzero l (x, t)).
Qed.

(** The times the void writes do not go back. *)
Lemma void_step_monotone writer self now messages f :
  (vo_last self ≤ vo_last (void_step writer self now messages [f]))%N.
Proof.
  cbn [void_step existsb]. destruct (_ && _) eqn:Hb; [|lia].
  apply andb_true_iff in Hb as [_ Hb]. rewrite orb_false_r in Hb.
  change (less_equal f (vo_last self)) with (f <=? vo_last self)%N in Hb.
  destruct (N.leb_spec f (vo_last self)); [done|]. cbn [vo_last]. lia.
Qed.
End delivery.

Section delivery_runs.
#[local] Existing Instance extern_model.

(** A tuple that comes at 3 and goes at 17, and one that comes and goes between
    two multiples of ten. *)
Definition short_lived : Stream N (list Value) :=
  [(([VEid 1], 3%N), 1%Z); (([VEid 2], 4%N), 1%Z); (([VEid 2], 6%N), (-1)%Z); (([VEid 1], 17%N), (-1)%Z)].

Lemma delivered_at_bounds_witness :
  (0 < 10)%N ∧ Forall (λ u : list Value * N * Z, (u.1.2 + 10 < 2 ^ 64)%N) short_lived ∧
  ∃ l, delayed (Some (TxId 10)) short_lived = Ret l ∧ ∀ messages, concat messages ≡ₚ l →
    (∀ b, (10 | b)%N → (results_recv "people" <$> messages) ≫= told "people" b ≡ before short_lived b) ∧
    (∀ x t z, ((x, t), z) ∈ concat messages → (10 | t)%N ∧ z ≠ 0%Z) ∧ NoDup (concat messages).*1.
Proof.
  assert (Forall (λ u : list Value * N * Z, (u.1.2 + 10 < 2 ^ 64)%N) short_lived) as Hall.
  { repeat (apply List.Forall_cons; [reflexivity|]). apply List.Forall_nil. }
  split; [reflexivity|]. split; [exact Hall|].
  exact (delivered_at_bounds 10 short_lived "people" ltac:(reflexivity) Hall).
Defined.

(** The second tuple is never heard of. *)
Example short_lived_delayed :
  delayed (Some (TxId 10)) short_lived = Ret [(([VEid 1], 10%N), 1%Z); (([VEid 1], 20%N), (-1)%Z)].
Proof. vm_refl. Qed.

(** A granularity of zero takes the worker down on the first result. *)
Example granularity_of_zero : is_panic (delayed (Some (TxId 0)) short_lived) = true.
Proof. vm_refl. Qed.
End delivery_runs.
