(* ===== verification/Client.v ===== *)
(** * The command line client (src/cli/src/main.rs)

    A client connects to a server, sends the requests that its subcommand stands
    for, and prints the messages it gets; all but a GraphQL client close the
    connection after the first message.  The parser of the command line, JSON, the
    standard input and the generator of names are arguments.  The theorems follow a
    request into the server: the networking code reads back what the client sent,
    and a GraphQL query takes a worker down if the optimizer is enabled. *)
From Stdlib Require Import ZArith NArith Lia.
From stdpp Require Import base strings numbers sets gmap fin_maps list pretty.
From S2P Require Import Prelude Parsing Timestamps Values Outputs Bindings HectorPlan Sessions Weighted.
From S2P Require Import Dataflow Domains ScopedDomains Relations PlanOps Pulls Plans Rules RuleTheorems Server EventLoop.
From S2P Require Import Networking NetworkTheorems Worker WorkerTheorems GraphQl GraphQlTheorems Delivery LoopRuns WorkerRuns.

(** [clap::ArgMatches]: the values of options, and the subcommand's own matches. *)
Record ArgMatches := mkArgMatches {
  value_of : string → option string;
  subcommand_matches : string → option (string → option string)
}.

Section client.
Context `{EV : ExternValues} {Source : Type}.
Abbreviation Req := (Request Source Sink) (only parsing).

Context (parse_requests : string → Result (list Req) string) (print_requests : list Req → option string).
Context (parse_tx_data : string → Result (list Datom) string) (parse_query : string → Result Document string).
Context (parse_output : string → Result Output string) (print_pretty : JValue → option string).
Context (stdin : Result string string) (new_v4 : string) (sym : N).

(** A connection: where it goes, what is sent when it is open, and whether the
    first message closes it. *)
Record Session := mkSession { ss_addr : string; ss_req : string; ss_close : bool }.

Definition client_addr (matches : ArgMatches) : string :=
  "ws://" +:+ default "127.0.0.1" (value_of matches "host") +:+ ":" +:+ default "6262" (value_of matches "port").

(** An argument, or what is read from the standard input. *)
Definition argument (value : option string) : outcome string :=
  match value with
  | None => match stdin with Ok buf => Ret buf | Err _ => Panic "failed to read from stdin" end
  | Some arg => Ret arg
  end.

Definition parsed {A} (msg : string) (r : Result A string) : outcome A :=
  match r with Ok a => Ret a | Err _ => Panic msg end.

(** The requests of each subcommand. *)
Definition ping_requests : list Req := [Status].

Definition req_requests (value_of : string → option string) : outcome (list Req) :=
  let! arg := argument (value_of "REQUEST") in parsed "failed to parse requests" (parse_requests arg).

Definition tx_requests (value_of : string → option string) : outcome (list Req) :=
  let! arg := argument (value_of "TXDATA") in
  let! tx_data := parsed "failed to parse tx data" (parse_tx_data arg) in Ret [Transact tx_data].

Definition interest_requests (name : Aid) (plan : Plan) (granularity : option nat) : list Req :=
  [RRegister (mkRegister [mkRule name plan] [name]);
   RInterest (mkInterest name None (Some (AssocIn granularity)) None)].

Definition gql_requests (value_of : string → option string) : outcome (list Req) :=
  let! query := argument (value_of "QUERY") in
  let! granularity :=
    match value_of "granularity" with
    | None => Ret None
    | Some arg =>
        let! n := expect "granularity must be a usize" (parse_unsigned (2 ^ 64 - 1) arg) in Ret (Some (N.to_nat n))
    end in
  let! '(gql, _) := GraphQl_new parse_query query sym in
  Ret (interest_requests new_v4 (PGraphQl gql) granularity).

(** [connect(addr, |out| ..)]. *)
Definition connect (matches : ArgMatches) (close : bool) (requests : outcome (list Req)) : outcome Session :=
  let! requests := requests in
  let! req := expect "failed to serialize requests" (print_requests requests) in
  Ret (mkSession (client_addr matches) req close).

Definition subcommand (matches : ArgMatches) (name : string)
    (session : (string → option string) → outcome Session) : outcome (list Session) :=
  match subcommand_matches matches name with
  | Some matches => let! s := session matches in Ret [s]
  | None => Ret []
  end.

Definition client_main (matches : ArgMatches) : outcome (list Session) :=
  let! ping := subcommand matches "ping" (λ _, connect matches true (Ret ping_requests)) in
  let! req := subcommand matches "req" (λ args, connect matches true (req_requests args)) in
  let! tx := subcommand matches "tx" (λ args, connect matches true (tx_requests args)) in
  let! gql := subcommand matches "gql" (λ args, connect matches false (gql_requests args)) in
  Ret (ping ++ req ++ tx ++ gql).

(** ** Messages *)

(** What is logged. *)
Inductive LogLine :=
| LogUnreadable (err : string)
| LogJson (diff : Z) (t : Time) (pprinted : string)
| LogFailed (err : Error) (tx_id : N)
| LogOutput (out : Output).

Definition handle_message (msg : WsMessage) : outcome LogLine :=
  match msg with
  | Text msg =>
      match parse_output msg with
      | Err err => Ret (LogUnreadable err)
      | Ok (Json _ v t diff) =>
          let! pprinted := expect "failed to pprint" (print_pretty v) in Ret (LogJson diff t pprinted)
      | Ok (OError _ err tx_id) => Ret (LogFailed err tx_id)
      | Ok out => Ret (LogOutput out)
      end
  | Binary _ => Panic "not yet implemented"
  end.

(** The messages a client gets, until it closes the connection. *)
Fixpoint client_messages (close : bool) (msgs : list WsMessage) : outcome (list LogLine) :=
  match msgs with
  | [] => Ret []
  | msg :: msgs =>
      let! line := handle_message msg in
      if close then Ret [line]
      else let! lines := client_messages close msgs in Ret (line :: lines)
  end.

(** ** What the server makes of it *)

(** The text of an argument: as given, or what the standard input holds. *)
Definition text_given (value : option string) (text : string) : Prop :=
  value = Some text ∨ value = None ∧ stdin = Ok text.

Definition granularity_given (value : option string) (granularity : option nat) : Prop :=
  match value with
  | None => granularity = None
  | Some arg => ∃ n, parse_unsigned (2 ^ 64 - 1) arg = Some n ∧ granularity = Some (N.to_nat n)
  end.

(** What a subcommand asks of the server, and whether it waits for one message only. *)
Inductive subcommand_means (args : string → option string) : string → list Req → bool → Prop :=
| means_ping : subcommand_means args "ping" [Status] true
| means_req text reqs :
    text_given (args "REQUEST") text → parse_requests text = Ok reqs → subcommand_means args "req" reqs true
| means_tx text data :
    text_given (args "TXDATA") text → parse_tx_data text = Ok data →
    subcommand_means args "tx" [Transact data] true
| means_gql text granularity gql sym' :
    text_given (args "QUERY") text → granularity_given (args "granularity") granularity →
    GraphQl_new parse_query text sym = Ret (gql, sym') →
    subcommand_means args "gql"
      [RRegister (mkRegister [mkRule new_v4 (PGraphQl gql)] [new_v4]);
       RInterest (mkInterest new_v4 None (Some (AssocIn granularity)) None)] false.

(** The subcommands that are given, in the order the client looks for them. *)
Definition presented (matches : ArgMatches) : list (string * (string → option string)) :=
  ["ping"; "req"; "tx"; "gql"] ≫= λ name,
    match subcommand_matches matches name with Some args => [(name, args)] | None => [] end.

Lemma argument_given value text : argument value = Ret text ↔ text_given value text.
Proof.
  unfold argument, text_given. destruct value as [arg|].
  - split; [intros [= ->]; by left|by intros [[= ->]|[[=] _]]].
  - destruct stdin as [buf|e]; (split; [intros [=]; subst; by right|by intros [[=]|[_ [=]]]; subst]).
Qed.

Lemma parsed_Ok {A} msg (r : Result A string) a : parsed msg r = Ret a ↔ r = Ok a.
Proof. destruct r as [x|e]; [split; by intros [= ->]|split; intros [=]]. Qed.

Lemma means_ping_iff args reqs close :
  subcommand_means args "ping" reqs close ↔ Ret ping_requests = Ret reqs ∧ close = true.
Proof. split; [by inversion 1|]. intros [[= <-] ->]. constructor. Qed.

Lemma means_req_iff args reqs close :
  subcommand_means args "req" reqs close ↔ req_requests args = Ret reqs ∧ close = true.
Proof.
  unfold req_requests. split.
  - inversion 1 as [|text ? Ht Hp| |]; subst. apply argument_given in Ht. rewrite Ht. cbn [obind]. by rewrite Hp.
  - intros [(text & Ht%argument_given & Hp%parsed_Ok)%obind_Ret ->]. by econstructor.
Qed.

Lemma means_tx_iff args reqs close :
  subcommand_means args "tx" reqs close ↔ tx_requests args = Ret reqs ∧ close = true.
Proof.
  unfold tx_requests. split.
  - inversion 1 as [| |text data Ht Hp|]; subst. apply argument_given in Ht. rewrite Ht. cbn [obind]. by rewrite Hp.
  - intros [(text & Ht%argument_given & (data & Hp%parsed_Ok & [= <-])%obind_Ret)%obind_Ret ->]. by econstructor.
Qed.

Lemma means_gql_iff args reqs close :
  subcommand_means args "gql" reqs close ↔ gql_requests args = Ret reqs ∧ close = false.
Proof.
  unfold gql_requests. split.
  - inversion 1 as [| | |text granularity gql sym' Ht Hg Hq]; subst. apply argument_given in Ht. rewrite Ht. simpl.
    destruct (args "granularity") as [arg|]; simpl in Hg.
    + destruct Hg as (n & -> & ->). simpl. by rewrite Hq.
    + subst. simpl. by rewrite Hq.
  - intros [(text & Ht%argument_given & (granularity & Hg & ([gql sym'] & Hq & [= <-])%obind_Ret)%obind_Ret)%obind_Ret ->].
    eapply means_gql; [exact Ht| |exact Hq]. destruct (args "granularity") as [arg|]; [|by injection Hg as <-].
    apply obind_Ret in Hg as (n & Hn & [= <-]). exists n. by destruct (parse_unsigned _ arg); simplify_eq/=.
Qed.

(** What the client's messages become, if the server reads what clients write. *)
Section serde.
Context (reads_back : ∀ reqs s, print_requests reqs = Some s → parse_requests s = Ok reqs).
Context `{TI : TokenIteration} {C : Type} `{SL : !Slab C, WS : !WebSocket C}.

(** The message arrives as the command of a worker: read from the connection with
    a token, by whichever worker, whatever else is queued there. *)
Definition arrives (msg : string) (reqs : list Req) : Prop :=
  ∀ (io : IO (C := C) (Request := Req)) t token index fuel, S (length (domain_events io)) < fuel →
  ∃ io', io_message parse_requests t token io (CMessage (Text msg)) = Ret io' ∧ recv io' = recv io ∧
    (drain_io fuel index io').1 = (domain_command index <$> domain_events io) ++ [mkCommand index token reqs].

Lemma printed_arrives reqs msg : print_requests reqs = Some msg → arrives msg reqs.
Proof.
  intros Hp io t token index fuel Hfuel. cbn [io_message]. rewrite (reads_back _ _ Hp).
  eexists. split; [done|]. split; [done|].
  rewrite drain_io_spec by (simpl; rewrite length_app; simpl; lia). simpl. by rewrite fmap_app.
Qed.

Definition session_for (matches : ArgMatches) (given : string * (string → option string)) (s : Session) : Prop :=
  ss_addr s = "ws://" +:+ default "127.0.0.1" (value_of matches "host") +:+ ":" +:+
              default "6262" (value_of matches "port") ∧
  ∃ reqs, subcommand_means given.2 given.1 reqs (ss_close s) ∧ print_requests reqs = Some (ss_req s) ∧
    arrives (ss_req s) reqs.

Definition unsendable (given : string * (string → option string)) : Prop :=
  ∀ reqs close, subcommand_means given.2 given.1 reqs close → print_requests reqs = None.

Lemma subcommand_spec matches name close requests :
  (∀ args reqs c, subcommand_means args name reqs c ↔ requests args = Ret reqs ∧ c = close) →
  let given := match subcommand_matches matches name with Some args => [(name, args)] | None => [] end in
  match subcommand matches name (λ args, connect matches close (requests args)) with
  | Ret ss => Forall2 (session_for matches) given ss
  | Panic _ => ∃ g, g ∈ given ∧ unsendable g
  end.
Proof.
  intros Hm. unfold subcommand. destruct (subcommand_matches matches name) as [args|]; [|constructor].
  specialize (Hm args). unfold connect. destruct (requests args) as [reqs|msg]; simpl.
  - destruct (print_requests reqs) as [req|] eqn:Hp; simpl.
    + constructor; [|constructor]. split; [done|]. exists reqs. split; [by apply Hm|].
      split; [done|by apply printed_arrives].
    + exists (name, args). split; [left|]. intros reqs' c [[= ->] _]%Hm. done.
  - exists (name, args). split; [left|]. intros reqs' c [[=] _]%Hm.
Qed.

End serde.
End client.

(** ** GraphQL queries and the optimizer *)
Section optimizer.
Context `{EV : ExternValues, DF : Differential, SI : SetIteration, TM : !Timely N, TR : !Traces N}.
Context {Source : Type}.
Abbreviation Pairs := (Collection (Value * Value) Z) (only parsing).
Context (set_semantics : bool).
Context (delta_join : Domain N Rule → Hector → outcome (Implemented * ShutdownHandle (Button (T := N)))).
Context (last_write_wins : Pairs → Pairs) (attribute_streams : Source → list (Sourced N)).
Context (run_sink : Sink → Result unit Error) (input : Aid → Pairs).

(** The levels of a query. *)
Lemma levels_or_all sets sym :
  forallb selection_ok (concat sets) = true →
  (N.of_nat (S (sum_list_with nesting (concat sets))) ≤ sym mod 2 ^ 32)%N →
  ∃ paths sym', GraphQl_into_paths (document_of sets) empty_plan sym = Ret (paths, sym') ∧
    ∀ p, p ∈ paths → (∃ aids, p = PPullAll (mkPullAll [] aids)) ∨
      ∃ plan this pulls path, p = PPullLevel (mkPullLevel [] (PHector plan) this pulls path false).
Proof.
  intros Hok Hlow. destruct (document_ok plan_pull_all plan_pull_level
    "called `Option::unwrap()` on a `None` value" sets sym Hok Hlow) as (paths & sym' & Hr & Hl).
  exists paths, sym'. split; [done|]. intros p [i Hi]%list_elem_of_lookup.
  destruct (Forall2_lookup_r _ _ _ _ _ Hl Hi) as ([steps pulls] & _ & (syms & plan & _ & _ & _ & _ & ->)).
  case_bool_decide; [left|right]; unfold plan_pull_all, plan_pull_level; eauto 10.
Qed.

(** Levels read attributes only. *)
Lemma sum_names l : (∀ x, x ∈ l → names x = ∅) → names (Dependencies_sum l) = ∅.
Proof.
  unfold Dependencies_sum. intros Hl. assert (names Dependencies_none = ∅) as Hacc by done. revert Hacc.
  generalize Dependencies_none. induction l as [|x l IH]; intros acc Hacc; [done|]. simpl.
  apply IH; [set_solver|]. simpl. rewrite Hacc, (Hl x) by set_solver. set_solver.
Qed.

Lemma attributes_names aids : names (Dependencies_sum (Dependencies_attribute <$> aids)) = ∅.
Proof. apply sum_names. by intros x (a & -> & _)%list_elem_of_fmap. Qed.

Lemma query_names sets sym paths sym' :
  forallb selection_ok (concat sets) = true →
  (N.of_nat (S (sum_list_with nesting (concat sets))) ≤ sym mod 2 ^ 32)%N →
  GraphQl_into_paths (document_of sets) empty_plan sym = Ret (paths, sym') →
  names (Dependencies_sum (Plan_dependencies <$> paths)) = ∅.
Proof.
  intros Hok Hlow Hp. destruct (levels_or_all sets sym Hok Hlow) as (paths' & sym2 & Hp' & Hall).
  rewrite Hp in Hp'. injection Hp' as <- <-. apply sum_names.
  intros x (p & -> & [[aids ->]|(plan & this & pulls & path & ->)]%Hall)%list_elem_of_fmap; simpl.
  - apply attributes_names.
  - rewrite attributes_names. set_solver.
Qed.

(** A rule that needs no other is collected alone. *)
Lemma collect_alone (d : Domain N Rule) name rule :
  rules_named d → rules d !! name = Some rule → names (Plan_dependencies (r_plan rule)) = ∅ →
  (∀ a, a ∈ dep_attributes (Plan_dependencies (r_plan rule)) → Domain_has_attribute d a = true) →
  collect_dependencies d [name] = Ret (Ok [rule]).
Proof.
  intros Hnamed Hrule Hnames Hattrs.
  assert (∀ n, needed d [name] n → n = name) as Hneeded.
  { induction 1 as [n Hn|n r n' _ -> Hr Hn']; [set_solver|]. rewrite Hrule in Hr. injection Hr as <-. set_solver. }
  pose proof (collect_spec d [name] Hnamed) as Hc.
  destruct (collect_dependencies d [name]) as [[all|e]|]; [|exfalso|done].
  - destruct Hc as [seen (Hiff & Hrules & _ & Hnd)%collecting_done]. do 2 f_equal.
    apply NoDup_constant.
    + apply (NoDup_fmap_1 r_name). apply Hnd, NoDup_singleton.
    + intros r Hr. assert (r_name r = name) as Hn by (apply Hneeded, Hiff, list_elem_of_fmap; by exists r).
      apply Hrules in Hr. rewrite Hn, Hrule in Hr. by injection Hr.
    + assert (name ∈ r_name <$> all) as (r & Hn & Hr)%list_elem_of_fmap by (apply Hiff, needed_root; set_solver).
      pose proof (Hrules r Hr) as Hr'. rewrite <- Hn, Hrule in Hr'. by injection Hr' as ->.
  - destruct Hc as (_ & n & ->%Hneeded & [Hnone|(r & a & Hr & Ha & Hno)]); [congruence|].
    rewrite Hrule in Hr. injection Hr as <-. rewrite Hattrs in Hno; done.
Qed.

(** C34 (GraphQL clients need the optimizer off).  With the optimizer enabled, the
    requests of a GraphQL client take down the worker that handles them, if the query
    is well-formed and selects attributes that exist, and its name is new: every rule
    is rewritten to a Hector plan, for which a GraphQL plan would have to tell its
    variables, and cannot. *)
Theorem gql_with_optimizer_panics parse_query query new_v4 sets sym gql sym' granularity (l : Loop) index now owner client last_tx :
  enable_optimizer (config (lp_server l)) = true →
  rules_named (internal (lp_server l)) → rules (internal (lp_server l)) !! new_v4 = None →
  interests (lp_server l) !! new_v4 = None →
  parse_query query = Ok (document_of sets) → forallb selection_ok (concat sets) = true →
  (N.of_nat (S (sum_list_with nesting (concat sets))) ≤ sym mod 2 ^ 32)%N →
  GraphQl_new parse_query query sym = Ret (gql, sym') →
  (∀ a, a ∈ dep_attributes (Plan_dependencies (PGraphQl gql)) →
    Domain_has_attribute (internal (lp_server l)) a = true) →
  handle_requests set_semantics delta_join last_write_wins attribute_streams run_sink input
    l index now owner client last_tx (interest_requests new_v4 (PGraphQl gql) granularity) =
  Panic "not yet implemented".
Proof.
  intros Hopt Hnamed Hfresh Hnone Hparse Hok Hlow Hgql Hattrs.
  unfold GraphQl_new, parse in Hgql. rewrite Hparse in Hgql. cbn [obind] in Hgql.
  apply obind_Ret in Hgql as ([paths sym2] & Hpaths & Hgql). injection Hgql as <- <-.
  set (plan := PGraphQl _) in *. set (rule := mkRule new_v4 plan).
  pose proof (query_names sets sym paths sym2 Hok Hlow Hpaths) as Hnames.
  cbn [interest_requests handle_requests handle_request Server_register rg_rules foldl obind].
  fold rule. unfold register_rule. cbn [r_name rule]. rewrite bool_decide_false by (rewrite Hfresh; by intros [? ?]).
  set (d := set_rules _ _).
  assert (collect_dependencies d [new_v4] = Ret (Ok [rule])) as Hcollect.
  { apply (collect_alone d new_v4 rule); [|apply lookup_insert_eq|exact Hnames|exact Hattrs].
    intros n r Hr. cbn [d rules set_rules] in Hr. apply lookup_insert_Some in Hr as [[<- <-]|[_ Hr]]; [done|by apply Hnamed]. }
  unfold handle_interest. cbn [lp_server set_server interests set_internal in_name]. rewrite Hnone. cbn [default].
  rewrite bool_decide_true by done. unfold Server_interest.
  cbn [config add_interest set_interests set_internal internal]. rewrite Hopt.
  assert (canonical_rules new_v4 [rule] = Ok [rule]) as Hcan
    by (unfold canonical_rules; by rewrite bool_decide_false by done).
  assert (is_Some (new_variables [new_v4] !! new_v4)) as [v Hv] by (eexists; apply lookup_insert_eq).
  unfold implement_neu. rewrite Hcollect. cbn [obind]. rewrite Hcan, Hv. reflexivity.
Qed.
End optimizer.

(** ** Concrete sessions *)
Section client_runs.
#[local] Existing Instances extern_model diff_model trace_model timely_model set_iteration_model.
Abbreviation Req := (Request (list Aid) Sink) (only parsing).

(** [3dfctl gql '{ name }']. *)
Definition name_query : list (list Selection) := [[Field "name" [] []]].
Definition parse_name (query : string) : Result Document string :=
  if bool_decide (query = "{ name }") then Ok (document_of name_query) else Err "expected }".
Definition sub_args (name : string) (args : list (string * string)) : ArgMatches :=
  mkArgMatches (λ _, None)
    (λ sub, if bool_decide (sub = name) then Some (λ arg, (list_to_map args : gmap string string) !! arg) else None).

(** The requests themselves are the message, by their number. *)
Definition count_requests (reqs : list Req) : option string := Some (pretty (length reqs)).
Definition no_requests (text : string) : Result (list Req) string := Err "expected value".
Definition no_tx_data (text : string) : Result (list Datom) string := Err "expected value".
Abbreviation name_main := (client_main no_requests count_requests no_tx_data parse_name (Ok "{ name }") "q1" SYM).

Example client_sessions :
  name_main (sub_args "ping" []) = Ret [mkSession "ws://127.0.0.1:6262" "1" true] ∧
  name_main (sub_args "gql" [("granularity", "10")]) = Ret [mkSession "ws://127.0.0.1:6262" "2" false] ∧
  name_main (sub_args "gql" [("QUERY", "{ name"); ("granularity", "10")]) = Panic "graphQL ast parsing failed" ∧
  name_main (sub_args "gql" [("granularity", "often")]) = Panic "granularity must be a usize" ∧
  name_main (sub_args "tx" []) = Panic "failed to parse tx data".
Proof. repeat split; vm_refl. Qed.

(** A serializer that is read back, of a status request and of empty transactions. *)
Definition print_simple (reqs : list Req) : option string :=
  match reqs with [Status] => Some "status" | [Transact []] => Some "transact" | _ => None end.
Definition parse_simple (text : string) : Result (list Req) string :=
  if bool_decide (text = "status") then Ok [Status]
  else if bool_decide (text = "transact") then Ok [Transact []] else Err "expected value".
Definition parse_no_data (text : string) : Result (list Datom) string :=
  if bool_decide (text = "[]") then Ok [] else Err "expected value".
Lemma simple_reads_back reqs s : print_simple reqs = Some s → parse_simple s = Ok reqs.
Proof.
  intros Hp. assert (reqs = [Status] ∧ s = "status" ∨ reqs = [Transact []] ∧ s = "transact") as [[-> ->]|[-> ->]]; [|done..].
  destruct reqs as [|[[|]|?|?|?|?|?|? ?|? ?| |?| | | |] [|]]; try discriminate Hp; injection Hp as <-; auto.
Qed.

(** [3dfctl ping], and [3dfctl tx] with its data on the standard input. *)
Abbreviation simple_main :=
  (client_main parse_simple print_simple parse_no_data parse_name (Ok "[]") "q1" SYM) (only parsing).


(** A server with an attribute, with and without the optimizer. *)
Definition sink_works (sink : Sink) : Result unit Error := Ok tt.
Abbreviation run_requests := (handle_requests false no_delta_joins lww_input streams_of sink_works empty_input).
Definition named_loop (optimizer : bool) : Loop :=
  match run_requests (Loop_new (mkConfiguration None false false optimizer)) 0 at_start 0 7 0
    [CreateAttribute "name" AttributeConfig_default] with
  | Ret l => l
  | Panic _ => loop0
  end.
Definition name_gql : GraphQl Plan :=
  match GraphQl_new parse_name "{ name }" SYM with Ret (gql, _) => gql | Panic _ => mkGraphQl "" [] end.

Lemma gql_with_optimizer_panics_witness :
  enable_optimizer (config (lp_server (named_loop true))) = true ∧
  run_requests (named_loop true) 0 at_start 0 7 0 (interest_requests "q1" (PGraphQl name_gql) None) =
    Panic "not yet implemented".
Proof.
  assert (enable_optimizer (config (lp_server (named_loop true))) = true) as Hopt by vm_refl.
  split; [exact Hopt|].
  assert (GraphQl_new parse_name "{ name }" SYM = Ret (name_gql, SYM)) as Hgql by vm_refl.
  assert (rules (internal (lp_server (named_loop true))) = ∅) as Hrules by vm_refl.
  refine (gql_with_optimizer_panics false no_delta_joins lww_input streams_of sink_works empty_input
    parse_name "{ name }" "q1" name_query SYM name_gql SYM None (named_loop true) 0 at_start 0 7 0
    Hopt _ _ _ _ _ _ Hgql _).
  - intros n r. rewrite Hrules. by intros ?%lookup_empty_Some.
  - by rewrite Hrules.
  - vm_refl.
  - vm_refl.
  - vm_refl.
  - vm_compute. discriminate.
  - intros a Ha. assert (bool_decide (set_Forall (λ a, Domain_has_attribute (internal (lp_server (named_loop true))) a = true)
      (dep_attributes (Plan_dependencies (PGraphQl name_gql)))) = true) as Hall%bool_decide_eq_true by vm_refl.
    exact (Hall a Ha).
Defined.

(** Without it the query is set up for the client, and nothing is reported. *)
Example gql_without_optimizer :
  (let! l := run_requests (named_loop false) 0 at_start 0 7 0 (interest_requests "q1" (PGraphQl name_gql) (Some 10)) in
   Ret (sent l, bool_decide (is_Some (query_handles (lp_server l) !! "q1")),
        bool_decide (interests (lp_server l) !! "q1" = Some {[7%N]}))) = Ret ([], true, true).
Proof. vm_refl. Qed.

(** An attribute that does not exist is an error for the client, who stays connected. *)
Example gql_unknown_attribute :
  (let! l := run_requests loop0 0 at_start 0 7 0 (interest_requests "q1" (PGraphQl name_gql) None) in
   Ret ((λ o, match o with OError client e _ => Some (client, category e) | _ => None end) <$> sent l)) =
  Ret [Some (7%N, "df.error.category/not-found")].
Proof. vm_refl. Qed.
End client_runs.
