(* ===== verification/FlatGraphQl.v ===== *)
(** * GraphQL queries as flat snapshots (src/src/plan/graphql_v2.rs, src/src/plan/pull_v2.rs)

    An earlier way to implement GraphQL plans, commented out of the module tree: the
    levels of a query become one stream of paths for every selected attribute;
    an operator on each stream writes the values into maps shared by all of them,
    one map for each time; and a last operator merges the maps of completed times
    and sends a snapshot of every entity that changed.  The levels are built as in
    [GraphQl].  Timely's channels between the operators are a queue, and the order
    in which a set of keys is iterated is an argument. *)
From Stdlib Require Import ZArith NArith Lia Sorting.Sorted.
From stdpp Require Import base strings numbers list gmap sets pretty.
From S2P Require Import Prelude Timestamps Values Outputs Bindings HectorPlan Sessions Weighted.
From S2P Require Import Dataflow Domains Relations PlanOps Pulls Plans GraphQl GraphQlDerive.

(** The order in which a set of keys is iterated. *)
Class KeyIteration := {
  key_iter : gset string → list string;
  key_iter_perm (keys : gset string) : key_iter keys ≡ₚ elements keys
}.
Definition key_iteration_model : KeyIteration := {| key_iter := elements; key_iter_perm keys := Permutation_refl _ |}.

(** ** Levels (pull_v2.rs) *)
Section levels.
Context `{EV : ExternValues, DF : Differential, PI : PathIteration}.
Context {T : Type} `{TR : !Traces T} {Rule : Type}.
Abbreviation Tuples := (Collection (list Value) Z) (only parsing).
Abbreviation Handle := (ShutdownHandle (Button (T := T))) (only parsing).
Abbreviation Implementation := (outcome (Implemented * Handle)) (only parsing).
Abbreviation PathId := (list Aid) (only parsing).
Abbreviation Streams := (gmap PathId Tuples) (only parsing).

Record FPullLevel := mkFPullLevel {
  fl_plan : Plan;
  fl_pull_variable : Var;
  fl_pull_attributes : list Aid;
  fl_path_attributes : list Aid;
  fl_cardinality_many : bool
}.
Record FPullAll := mkFPullAll { fa_pull_attributes : list Aid }.
Inductive FPull := FAll (p : FPullAll) | FLevel (p : FPullLevel).

Definition FPullLevel_dependencies (self : FPullLevel) : Dependencies :=
  Dependencies_add (Plan_dependencies (fl_plan self))
    (Dependencies_sum (Dependencies_attribute <$> fl_pull_attributes self)).

(** The stream of one pulled attribute: the paths of the level, and its values. *)
Definition flat_pull_below (d : Domain T Rule) (e_path : Collection (Value * list Value) Z)
    (path_attributes : list Aid) (a : Aid) : outcome (PathId * Tuples * Button (T := T)) :=
  let! '(e_v, shutdown_propose) := import_pulled d a in
  let! _ := assert_that "assertion failed: `(left == right)`"
              (negb (bool_decide (path_attributes = []))) in
  let path_stream := c_join_core (λ _ path v, Ret [path ++ [v]]) e_path e_v in
  Ret (path_attributes ++ [a], path_stream, shutdown_propose).

(** [collect::<HashMap<_, _>>()]: later entries replace earlier ones. *)
Definition collect_paths (l : list (PathId * Tuples)) : Streams := foldl (λ m kv, <[kv.1 := kv.2]> m) ∅ l.

Definition FPullLevel_implement (implement : Plan → Implementation) (d : Domain T Rule)
    (self : FPullLevel) : outcome (Streams * Handle) :=
  let! _ := assert_that "assertion failed: `(left == right)`"
              (negb (bool_decide (fl_pull_attributes self = []))) in
  let! '(input, shutdown_handle) := implement (fl_plan self) in
  let! e_offset := expect "input relation doesn't bind pull_variable"
                     (Implemented_binds input (fl_pull_variable self)) in
  let! '(paths, shutdown) := Implemented_tuples input d in
  let shutdown_handle := ShutdownHandle_merge_with shutdown_handle shutdown in
  let e_path := c_map (λ t, let! e := index t e_offset in Ret (e, t)) paths in
  let! streams := mapM_outcome (flat_pull_below d e_path (fl_path_attributes self)) (fl_pull_attributes self) in
  let shutdown_handle := foldl ShutdownHandle_add_button shutdown_handle streams.*2 in
  Ret (collect_paths streams.*1, shutdown_handle).

Definition FPullAll_dependencies (self : FPullAll) : Dependencies :=
  Dependencies_sum (Dependencies_attribute <$> fa_pull_attributes self).

Definition FPullAll_implement (d : Domain T Rule) (self : FPullAll) : outcome (Streams * Handle) :=
  let! _ := assert_that "assertion failed: !self.pull_attributes.is_empty()"
              (negb (bool_decide (fa_pull_attributes self = []))) in
  let! streams := mapM_outcome (λ a,
    let! '(e_v, shutdown_propose) := import_pulled d a in
    let path_stream := c_map (λ ev : Value * Value, Ret [ev.1; ev.2]) e_v in
    Ret ([a], path_stream, shutdown_propose)) (fa_pull_attributes self) in
  let shutdown_handle := foldl ShutdownHandle_add_button ShutdownHandle_empty streams.*2 in
  Ret (collect_paths streams.*1, shutdown_handle).

Definition FPull_dependencies (self : FPull) : Dependencies :=
  match self with
  | FAll pull => FPullAll_dependencies pull
  | FLevel pull => FPullLevel_dependencies pull
  end.

Definition FPull_implement (implement : Plan → Implementation) (d : Domain T Rule) (self : FPull)
    : outcome (Streams * Handle) :=
  match self with
  | FAll pull => FPullAll_implement d pull
  | FLevel pull => FPullLevel_implement implement d pull
  end.

(** ** Queries *)

Record FGraphQl := mkFGraphQl { fg_query : string; fg_paths : list FPull; fg_required_aids : list Aid }.

Definition flat_pull_all (pull_attributes : list Aid) : FPull := FAll (mkFPullAll pull_attributes).
Definition flat_pull_level (pull_attributes path_attributes : list Aid) (this : Var) (plan : Hector)
    : FPull := FLevel (mkFPullLevel (PHector plan) this pull_attributes path_attributes false).

Definition FGraphQl_into_paths (self : Document) (root_plan : Hector) (sym : N) : outcome (list FPull * N) :=
  document_into_paths flat_pull_all flat_pull_level "plan has no variables" self root_plan sym.

Section query.
Context (parse_query : string → Result Document string).

Definition FGraphQl_new (query : string) (sym : N) : outcome (FGraphQl * N) :=
  let! ast := parse parse_query query in
  let! '(paths, sym) := FGraphQl_into_paths ast empty_plan sym in
  Ret (mkFGraphQl query paths [], sym).

Definition FGraphQl_with_plan (root_plan : Plan) (query : string) (sym : N) : outcome (FGraphQl * N) :=
  let! ast := parse parse_query query in
  let! variables := Plan_variables root_plan in
  let! '(bindings, sym) := Plan_into_bindings root_plan sym in
  let! '(paths, sym) := FGraphQl_into_paths ast (mkHector variables bindings) sym in
  Ret (mkFGraphQl query paths [], sym).

Definition FGraphQl_with_required_aids (query : string) (required_aids : list Aid) (sym : N)
    : outcome (FGraphQl * N) :=
  let! '(query, sym) := FGraphQl_new query sym in
  Ret (mkFGraphQl (fg_query query) (fg_paths query) required_aids, sym).
End query.

Definition FGraphQl_dependencies (self : FGraphQl) : Dependencies :=
  Dependencies_sum (FPull_dependencies <$> fg_paths self).

(** The streams of all paths, sorted "for cross-worker determinism". *)
Definition flat_paths_map (implement : Plan → Implementation) (d : Domain T Rule) (self : FGraphQl)
    : outcome Streams :=
  let! streams := mapM_outcome (λ path,
    let! '(streams, _) := FPull_implement implement d path in Ret (path_iter streams)) (fg_paths self) in
  Ret (collect_paths (concat streams)).

Definition sorted_paths (paths_map : Streams) : list (PathId * Tuples) :=
  sort_by (λ p q, cmp_le p.1 q.1) (path_iter paths_map).

Definition FGraphQl_paths (implement : Plan → Implementation) (d : Domain T Rule) (self : FGraphQl)
    : outcome (list (PathId * Tuples)) :=
  let! paths_map := flat_paths_map implement d self in Ret (sorted_paths paths_map).
End levels.
