(* ===== verification/FlatSnapshots.v ===== *)
(** * Flat snapshots of entities (the operators of src/src/plan/graphql_v2.rs)

    The operators behind [FGraphQl_paths]: one for each path, which writes the
    values of completed times into maps, and the one that merges them.  They run on
    one worker and share the maps; what the first send is queued for the last. *)
From Stdlib Require Import ZArith NArith Lia Sorting.Sorted.
From stdpp Require Import base strings numbers list gmap sets pretty.
From S2P Require Import Prelude Timestamps Values Outputs FlatGraphQl.

Inductive Cardinality := One | Many.

Section pointers.
Context `{EV : ExternValues}.

(** [JValue::from(v).as_str().unwrap().to_string()]. *)
Definition key_string (v : Value) : outcome string :=
  let! j := JValue_from v in
  match j with JString s => Ret s | _ => Panic "called `Option::unwrap()` on a `None` value" end.

(** [for i in 0..size], popping the values and stepping through the constants. *)
Fixpoint flat_interleave_loop (rounds i : nat) (values : list Value) (constants : list Aid)
    : outcome (list string) :=
  match rounds with
  | O => Ret []
  | S rounds =>
      if Nat.even i then
        match values with
        | [] => Panic "called `Option::unwrap()` on a `None` value"
        | v :: values =>
            let! key := key_string v in
            let! rest := flat_interleave_loop rounds (S i) values constants in Ret (key :: rest)
        end
      else
        match constants with
        | [] => Panic "index out of bounds"
        | a :: constants =>
            let! rest := flat_interleave_loop rounds (S i) values constants in Ret (a :: rest)
        end
  end.

Definition flat_interleave (values : list Value) (constants : list Aid) : outcome (list string) :=
  if bool_decide (values = []) then Ret []
  else if bool_decide (constants = []) then mapM_outcome key_string values
  else flat_interleave_loop (length values + length constants) 0 values constants.

(** [pointer_mut], and what is done with the reference it returns. *)
Fixpoint update_pointer (f : JValue → outcome JValue) (cardinality : Cardinality) (target : JValue)
    (tokens : list string) : outcome JValue :=
  match tokens with
  | [] => f target
  | token :: tokens =>
      match target with
      | JObject map =>
          let inserted :=
            match cardinality, tokens with
            | Many, [] => JArray []
            | _, _ => JObject ∅
            end in
          let! below := update_pointer f cardinality (default inserted (map !! token)) tokens in
          Ret (JObject (<[token := below]> map))
      | _ => Panic "failed to acquire pointer"
      end
  end.

Definition write_value (cardinality : Cardinality) (target : JValue) (pointer : list string) (value : JValue)
    : outcome JValue :=
  match cardinality with
  | One => update_pointer (λ _, Ret value) One target pointer
  | Many =>
      update_pointer (λ place, match place with
        | JArray l => Ret (JArray (l ++ [value]))
        | _ => Panic "not an array"
        end) Many target pointer
  end.

(** The pointer of a path without its value: all but the last attribute are left out. *)
Definition flat_pointer (path_id : list Aid) (path : list Value) : outcome (list string) :=
  let! aid := expect "malformed path_id; no aid found" (last path_id) in
  if Nat.eqb (length path_id) 1 then flat_interleave path path_id
  else
    let! root_eid := expect "malformed path; no root eid found" (head path) in
    if bool_decide (aid = "db__ident") then
      let! aid := expect "index out of bounds" (path_id !! (length path_id - 2)) in
      flat_interleave [root_eid] [aid]
    else flat_interleave [root_eid] [aid].
End pointers.

Section operators.
Context `{EV : ExternValues, KI : KeyIteration}.
Context {T : Type} `{Countable T, TotalOrd T, TM : Timely T}.
Context (into_time : T → Time) (paths : list (list Aid)) (required_aids : list Aid).
Abbreviation PathDiff := (list Value * T * Z)%type (only parsing).
Abbreviation JMap := (gmap string JValue) (only parsing).

(** What the operators of a worker keep: the paths waiting in each buffer, the
    shared maps, the keys on their way to the last operator, and its own state. *)
Record FlatState := mkFlat {
  buffers : gmap nat (gmap T (list PathDiff));
  shared : gmap T JValue;
  queue : list (T * list string);
  change_keys : gmap T (gset string);
  merged : JMap
}.
Definition flat_start : FlatState := mkFlat ∅ ∅ [] ∅ ∅.

(** The body of [for (mut path, t, diff) in paths_at_time.drain(..)]. *)
Definition write_path (path_id : list Aid) (t : T) (shared : gmap T JValue) (path : list Value)
    : outcome (string * gmap T JValue) :=
  let! _ := expect "malformed path_id; no aid found" (last path_id) in
  let! leaf := expect "malformed path; no value found" (last path) in
  let! value := JValue_from leaf in
  let! pointer := flat_pointer path_id (removelast path) in
  let! map := write_value One (default (JObject ∅) (shared !! t)) pointer value in
  let! key := expect "index out of bounds" (head pointer) in
  Ret (key, <[t := map]> shared).

Fixpoint write_paths (path_id : list Aid) (t : T) (shared : gmap T JValue) (paths : list PathDiff)
    : outcome (list string * gmap T JValue) :=
  match paths with
  | [] => Ret ([], shared)
  | (path, _, _) :: paths =>
      let! '(key, shared) := write_path path_id t shared path in
      let! '(changes, shared) := write_paths path_id t shared paths in
      Ret (key :: changes, shared)
  end.

(** [for cap in sorted_times.drain(..)]. *)
Fixpoint write_times (path_id : list Aid) (buffer : gmap T (list PathDiff)) (shared : gmap T JValue)
    (times : list T) : outcome (gmap T (list PathDiff) * gmap T JValue * list (T * list string)) :=
  match times with
  | [] => Ret (buffer, shared, [])
  | t :: times =>
      match buffer !! t with
      | None => write_times path_id buffer shared times
      | Some paths_at_time =>
          let! '(changes, shared) := write_paths path_id t shared paths_at_time in
          let! '(buffer, shared, sent) := write_times path_id (delete t buffer) shared times in
          Ret (buffer, shared, (t, changes) :: sent)
      end
  end.

(** [buffer.entry(cap.retain()).or_insert_with(Vec::new).extend(vector.drain(..))]. *)
Definition stash (buffer : gmap T (list PathDiff)) (message : T * list PathDiff) : gmap T (list PathDiff) :=
  <[message.1 := default [] (buffer !! message.1) ++ message.2]> buffer.

(** An activation of the operator of a path. *)
Definition changes_step (self : FlatState) (i : nat) (arrived : list (T * list PathDiff)) (frontier : list T)
    : outcome FlatState :=
  let! path_id := expect "no such operator" (paths !! i) in
  let buffer := foldl stash (default ∅ (buffers self !! i)) arrived in
  let sorted_times := sort_by cmp_le
    (filter (λ t, negb (antichain_less_equal frontier t)) (elements (dom buffer))) in
  let! '(buffer, shared, sent) := write_times path_id buffer (shared self) sorted_times in
  Ret (mkFlat (<[i := buffer]> (buffers self)) shared (queue self ++ sent) (change_keys self) (merged self)).

(** [for (eid, diffs) in map]. *)
Definition extend_entry (merged : JMap) (eid : string) (diffs : JValue) : outcome JMap :=
  match diffs with
  | JObject diff_map =>
      match default (JObject ∅) (merged !! eid) with
      | JObject entry => Ret (<[eid := JObject (diff_map ∪ entry)]> merged)
      | _ => Panic "couldn't unwrap entry"
      end
  | _ => Panic "wrong diff type"
  end.

Fixpoint extend_entries (merged : JMap) (map : list (string * JValue)) : outcome JMap :=
  match map with
  | [] => Ret merged
  | (eid, diffs) :: map => let! merged := extend_entry merged eid diffs in extend_entries merged map
  end.

Fixpoint merge_times (shared : gmap T JValue) (merged : JMap) (times : list T) : outcome (gmap T JValue * JMap) :=
  match times with
  | [] => Ret (shared, merged)
  | t :: times =>
      let! available_states := expect "key not found" (shared !! t) in
      match available_states with
      | JObject map =>
          let! merged := extend_entries merged (map_to_list map) in
          merge_times (delete t shared) merged times
      | _ => Panic "not an object"
      end
  end.

(** Entities without all required attributes. *)
Definition lacks_required (merged : JMap) (key : string) : outcome bool :=
  match merged !! key with
  | None => Ret false
  | Some snapshot =>
      if bool_decide (required_aids = []) then Ret false
      else
        match snapshot with
        | JObject map => Ret (negb (forallb (λ aid, bool_decide (is_Some (map !! aid))) required_aids))
        | _ => Panic "called `Option::unwrap()` on a `None` value"
        end
  end.

Fixpoint excise (merged before : JMap) (keys : list string) : outcome JMap :=
  match keys with
  | [] => Ret merged
  | key :: keys =>
      let! lacks := lacks_required before key in
      excise (if lacks then delete key merged else merged) before keys
  end.

(** A notification. *)
Definition flat_notify (self : FlatState) (t : T) : outcome (list Output * FlatState) :=
  let sorted_times := sort_by cmp_le (filter (λ s, cmp_le s t) (elements (dom (shared self)))) in
  match sorted_times with
  | [] => Ret ([], self)
  | _ =>
      let! '(shared, merged) := merge_times (shared self) (merged self) sorted_times in
      match change_keys self !! t with
      | None => Ret ([], mkFlat (buffers self) shared (queue self) (change_keys self) merged)
      | Some keys =>
          let keys := key_iter keys in
          let! merged := excise merged merged keys in
          let out := omap (λ key, (λ snapshot, Json "test" snapshot (into_time t) 1) <$> (merged !! key)) keys in
          Ret (out, mkFlat (buffers self) shared (queue self) (delete t (change_keys self)) merged)
      end
  end.

Fixpoint flat_notifications (self : FlatState) (due : list T) : outcome (list Output * FlatState) :=
  match due with
  | [] => Ret ([], self)
  | t :: due =>
      let! '(out, self) := flat_notify self t in
      let! '(out', self) := flat_notifications self due in Ret (out ++ out', self)
  end.

(** An activation of the last operator: it takes the queued messages, and handles
    the notifications that are due. *)
Definition receive_keys (keys : gmap T (gset string)) (message : T * list string) : gmap T (gset string) :=
  <[message.1 := default ∅ (keys !! message.1) ∪ list_to_set message.2]> keys.

Definition snapshots_step (self : FlatState) (due : list T) : outcome (list Output * FlatState) :=
  flat_notifications (mkFlat (buffers self) (shared self) []
    (foldl receive_keys (change_keys self) (queue self)) (merged self)) due.

(** The activations of a worker, in any order. *)
Inductive FlatStep :=
| ChangesStep (i : nat) (arrived : list (T * list PathDiff)) (frontier : list T)
| SnapshotsStep (due : list T).

Definition flat_step (self : FlatState) (s : FlatStep) : outcome (list Output * FlatState) :=
  match s with
  | ChangesStep i arrived frontier => let! self := changes_step self i arrived frontier in Ret ([], self)
  | SnapshotsStep due => snapshots_step self due
  end.

Fixpoint flat_run (self : FlatState) (steps : list FlatStep) : outcome (list Output * FlatState) :=
  match steps with
  | [] => Ret ([], self)
  | s :: steps =>
      let! '(out, self) := flat_step self s in
      let! '(out', self) := flat_run self steps in Ret (out ++ out', self)
  end.
End operators.
Arguments FlatState {_} T {_ _}.
Arguments FlatStep {_} T.
