(* ===== verification/FlatTheorems.v ===== *)
(** * Flat snapshots do not depend on the schedule

    Each path writes an attribute of its own, so that the values of a time can be
    written in any order; and times are merged in their order, each when it is
    complete.  What a worker sends is therefore what a sequential reference sends,
    which handles the updates of one time after the other. *)
From Stdlib Require Import ZArith NArith Lia Sorting.Sorted.
From stdpp Require Import base strings numbers list gmap sets sorting pretty.
From S2P Require Import Prelude Timestamps Values Outputs Dataflow GraphQlDerive FlatGraphQl FlatSnapshots.

(** ** Maps of entities, and writing attributes into them *)

(** Entities by their key, attributes by their name. *)
Abbreviation Entities := (gmap string (gmap string JValue)) (only parsing).
(** An entity, an attribute and a value. *)
Abbreviation Write := (string * string * JValue)%type (only parsing).

Definition write (m : Entities) (w : Write) : Entities :=
  <[w.1.1 := <[w.1.2 := w.2]> (default ∅ (m !! w.1.1))]> m.
Definition writes (m : Entities) (ws : list Write) : Entities := foldl write m ws.

(** The maps of a time on top of those before it. *)
Definition overlay (new old : Entities) : Entities := union_with (λ n o, Some (n ∪ o)) new old.

Definition embed (m : Entities) : gmap string JValue := JObject <$> m.

Lemma writes_app m ws ws' : writes m (ws ++ ws') = writes (writes m ws) ws'.
Proof. apply foldl_app. Qed.

Lemma lookup_overlay n o e : overlay n o !! e = union_with (λ n o, Some (n ∪ o)) (n !! e) (o !! e).
Proof. unfold overlay. apply lookup_union_with. Qed.

Lemma overlay_write n o w : overlay (write n w) o = write (overlay n o) w.
Proof.
  apply map_eq. intros e. unfold write. destruct w as [[x a] v]; simpl.
  rewrite lookup_overlay. destruct (decide (x = e)) as [->|Hne].
  - rewrite !lookup_insert_eq, lookup_overlay. destruct (n !! e) as [r|], (o !! e) as [r'|]; simpl; [..|done];
      rewrite <- ?insert_union_l, ?(left_id_L ∅ (∪)); done.
  - by rewrite !lookup_insert_ne, lookup_overlay.
Qed.

Lemma overlay_writes ws n o : overlay (writes n ws) o = writes (overlay n o) ws.
Proof.
  revert n. induction ws as [|w ws IH]; intros n; [done|].
  unfold writes in *. simpl. by rewrite IH, overlay_write.
Qed.

Lemma overlay_empty o : overlay ∅ o = o.
Proof. apply map_eq. intros e. rewrite lookup_overlay, lookup_empty. by destruct (o !! e). Qed.

(** Writes of different attributes commute. *)
Lemma write_comm m w w' : w.1.2 ≠ w'.1.2 → write (write m w) w' = write (write m w') w.
Proof.
  destruct w as [[e a] v], w' as [[e' a'] v']. simpl. intros Ha. unfold write; simpl.
  destruct (decide (e = e')) as [->|Hne].
  - rewrite !lookup_insert_eq, !insert_insert_eq. simpl. f_equal. by apply insert_insert_ne.
  - rewrite !lookup_insert_ne by done. by apply insert_insert_ne.
Qed.

Definition of_attribute (a : string) (ws : list Write) : list Write := filter (λ w, w.1.2 = a) ws.

Lemma of_attribute_app a ws ws' : of_attribute a (ws ++ ws') = of_attribute a ws ++ of_attribute a ws'.
Proof. apply filter_app. Qed.

Lemma writes_ahead ws w m : (∀ w', w' ∈ ws → w'.1.2 ≠ w.1.2) → writes (write m w) ws = write (writes m ws) w.
Proof.
  revert m. induction ws as [|w' ws IH]; intros m Hws; [done|]. unfold writes in *. simpl.
  rewrite write_comm by (intros Heq; apply (Hws w'); [set_solver|done]). apply IH. set_solver.
Qed.

(** The order matters for each attribute only. *)
Lemma writes_by_attribute ws ws' m :
  (∀ a, of_attribute a ws = of_attribute a ws') → writes m ws = writes m ws'.
Proof.
  revert ws' m. induction ws as [|w ws IH]; intros ws' m Hws.
  - destruct ws' as [|w' ws']; [done|]. specialize (Hws w'.1.2). unfold of_attribute in Hws.
    by rewrite filter_cons_True in Hws.
  - assert (w ∈ ws') as Hin.
    { specialize (Hws w.1.2). unfold of_attribute in Hws. rewrite filter_cons_True in Hws by done.
      assert (w ∈ filter (λ w' : Write, w'.1.2 = w.1.2) ws') as [_ Hw]%list_elem_of_filter
        by (rewrite <- Hws; set_solver). done. }
    assert (∃ k k', ws' = k ++ w :: k' ∧ of_attribute w.1.2 k = []) as (k & k' & -> & Hk).
    { clear Hin IH. specialize (Hws w.1.2). unfold of_attribute in *. rewrite filter_cons_True in Hws by done.
      revert Hws. induction ws' as [|x ws' IH]; [done|]. rewrite filter_cons. case_decide as Hx.
      - intros [= -> _]. exists [], ws'. done.
      - intros (k & k' & -> & Hk)%IH. exists (x :: k), k'. split; [done|]. by rewrite filter_cons_False. }
    assert (∀ w', w' ∈ k → w'.1.2 ≠ w.1.2) as Hne.
    { intros w' Hw' Heq. assert (w' ∈ of_attribute w.1.2 k) as Hw by (by apply list_elem_of_filter).
      rewrite Hk in Hw. by apply elem_of_nil in Hw. }
    transitivity (writes (write m w) (k ++ k')).
    + change (writes m (w :: ws)) with (writes (write m w) ws). apply IH. intros a.
      specialize (Hws a). rewrite of_attribute_app in *. unfold of_attribute in *. rewrite !filter_cons in Hws.
      case_decide as Ha; [|done]. subst a. rewrite Hk in *. by injection Hws.
    + rewrite !writes_app. rewrite writes_ahead by done. done.
Qed.

(** The keys of the entities written to. *)
Definition written (ws : list Write) : gset string := list_to_set ((λ w : Write, w.1.1) <$> ws).

Lemma written_app ws ws' : written (ws ++ ws') = written ws ∪ written ws'.
Proof. unfold written. rewrite fmap_app. apply list_to_set_app_L. Qed.

Lemma written_by_attribute ws ws' : (∀ a, of_attribute a ws = of_attribute a ws') → written ws = written ws'.
Proof.
  intros Hws. assert (∀ l k : list Write, (∀ a, of_attribute a l = of_attribute a k) → ∀ w, w ∈ l → w ∈ k) as Hin.
  { intros l k Hlk w Hw. assert (w ∈ of_attribute w.1.2 l) as Hl by (by apply list_elem_of_filter).
    rewrite Hlk in Hl. by apply list_elem_of_filter in Hl as [_ ?]. }
  apply set_eq. intros e. unfold written. rewrite !elem_of_list_to_set, !list_elem_of_fmap.
  split; intros (w & -> & Hw); exists w; (split; [done|]); eapply Hin; eauto.
Qed.

(** ** What a path writes *)
Section path_writes.
Context `{EV : ExternValues}.

(** The attribute that the values of a path are written to. *)
Definition flat_attribute (path_id : list Aid) : option string :=
  aid ← last path_id;
  if Nat.eqb (length path_id) 1 then Some aid
  else if bool_decide (aid = "db__ident") then path_id !! (length path_id - 2) else Some aid.

(** The write of a path: an entity and a value at least, and nothing between them if
    the attribute is pulled at the top level. *)
Definition path_write (path_id : list Aid) (path : list Value) : option Write :=
  a ← flat_attribute path_id;
  root ← head path;
  leaf ← last path;
  match key_string root, JValue_from leaf with
  | Ret e, Ret v =>
      if Nat.eqb (length path) 2 || (Nat.ltb 2 (length path) && negb (Nat.eqb (length path_id) 1))
      then Some (e, a, v) else None
  | _, _ => None
  end.

Lemma flat_interleave_pair root e a : key_string root = Ret e → flat_interleave [root] [a] = Ret [e; a].
Proof. intros He. unfold flat_interleave. simpl. by rewrite He. Qed.

Lemma path_write_pointer path_id path e a v :
  path_write path_id path = Some (e, a, v) →
  flat_pointer path_id (removelast path) = Ret [e; a] ∧ flat_attribute path_id = Some a ∧
  is_Some (last path_id) ∧ ∃ leaf, last path = Some leaf ∧ JValue_from leaf = Ret v.
Proof.
  unfold path_write. intros Hw. apply bind_Some in Hw as (a' & Ha & Hw).
  apply bind_Some in Hw as (root & Hroot & Hw). apply bind_Some in Hw as (leaf & Hleaf & Hw).
  destruct (key_string root) as [e'|] eqn:He; [|done]. destruct (JValue_from leaf) as [v'|] eqn:Hv; [|done].
  destruct (_ || _) eqn:Hlen; [|done]. injection Hw as -> -> ->.
  split; [|split; [done|split; [|by exists leaf]]].
  - destruct path as [|r path]; [done|]. injection Hroot as ->.
    destruct path as [|x path _] using rev_ind; [done|].
    rewrite app_comm_cons, removelast_last. unfold flat_pointer.
    unfold flat_attribute in Ha. destruct (last path_id) as [aid|] eqn:Haid; [|done]. simpl in Ha. cbn [expect obind].
    destruct (Nat.eqb (length path_id) 1) eqn:Hone.
    + injection Ha as ->. destruct path_id as [|? [|]]; try done. injection Haid as ->.
      rewrite app_comm_cons, length_app in Hlen. simpl in Hlen. rewrite andb_false_r, orb_false_r in Hlen.
      apply Nat.eqb_eq in Hlen. destruct path; [|simpl in Hlen; lia]. by apply flat_interleave_pair.
    + simpl. case_bool_decide; [rewrite Ha|injection Ha as ->]; simpl; by apply flat_interleave_pair.
  - unfold flat_attribute in Ha. by destruct (last path_id).
Qed.

(** Writing through a pointer. *)
Lemma write_value_embed m e a v :
  write_value One (JObject (embed m)) [e; a] v = Ret (JObject (embed (write m (e, a, v)))).
Proof.
  unfold write_value, write, embed. cbn [update_pointer]. rewrite lookup_fmap.
  replace (default (JObject ∅) (JObject <$> m !! e)) with (JObject (default ∅ (m !! e))) by (by destruct (m !! e)).
  simpl. by rewrite fmap_insert.
Qed.
End path_writes.

Section operators.
Context `{EV : ExternValues, KI : KeyIteration}.
Context {T : Type} `{Countable T, TO : TotalOrd T, TM : Timely T}.
Context (into_time : T → Time) (paths : list (list Aid)) (required_aids : list Aid).
Abbreviation PathDiff := (list Value * T * Z)%type (only parsing).
Abbreviation FlatState := (FlatState T) (only parsing).

(** The updates of a path, as writes; and those that are well-formed. *)
Definition updates (path_id : list Aid) (data : list PathDiff) : list Write := omap (λ p, path_write path_id p.1.1) data.
Definition writable (path_id : list Aid) (data : list PathDiff) : Prop :=
  Forall (λ p, is_Some (path_write path_id p.1.1)) data.

Lemma updates_app path_id data data' : updates path_id (data ++ data') = updates path_id data ++ updates path_id data'.
Proof. unfold updates. apply omap_app. Qed.

Lemma updates_attribute path_id data a w : flat_attribute path_id = Some a → w ∈ updates path_id data → w.1.2 = a.
Proof.
  intros Ha (p & _ & Hw)%list_elem_of_omap. destruct w as [[e a'] v].
  apply path_write_pointer in Hw as (_ & Ha' & _). simpl. congruence.
Qed.

(** *** Writing the paths of a time *)

Definition embed_times (shared : gmap T Entities) : gmap T JValue := (λ m, JObject (embed m)) <$> shared.

Lemma write_path_spec path_id t shared path e a v :
  path_write path_id path = Some (e, a, v) →
  write_path path_id t (embed_times shared) path =
    Ret (e, embed_times (<[t := write (default ∅ (shared !! t)) (e, a, v)]> shared)).
Proof.
  intros (Hp & _ & [aid Haid] & leaf & Hleaf & Hv)%path_write_pointer.
  unfold write_path. rewrite Haid. simpl. rewrite Hleaf. simpl. rewrite Hv. cbn [obind]. rewrite Hp. cbn [obind].
  unfold embed_times at 1. rewrite lookup_fmap.
  replace (default (JObject ∅) ((λ m, JObject (embed m)) <$> shared !! t))
    with (JObject (embed (default ∅ (shared !! t)))) by (destruct (shared !! t); [done|unfold embed; simpl; by rewrite fmap_empty]).
  rewrite (write_value_embed _ e a v : update_pointer _ _ _ _ = _). simpl. unfold embed_times. by rewrite fmap_insert.
Qed.

(** The maps after writes at a time; no writes leave them alone. *)
Definition write_at (shared : gmap T Entities) (t : T) (ws : list Write) : gmap T Entities :=
  match ws with [] => shared | _ => <[t := writes (default ∅ (shared !! t)) ws]> shared end.

Lemma lookup_write_at shared t ws s :
  write_at shared t ws !! s =
  if decide (s = t) then match ws with [] => shared !! t | _ => Some (writes (default ∅ (shared !! t)) ws) end
  else shared !! s.
Proof.
  unfold write_at. destruct ws as [|w ws]; [by case_decide as Heq; [rewrite Heq|]|].
  case_decide as Heq; [by rewrite Heq, lookup_insert_eq|by rewrite lookup_insert_ne].
Qed.

Lemma write_at_cons shared t w ws : write_at (write_at shared t [w]) t ws = write_at shared t (w :: ws).
Proof.
  unfold write_at. destruct ws as [|w' ws]; [done|]. simpl.
  by rewrite lookup_insert_eq, insert_insert_eq.
Qed.

Lemma write_paths_spec path_id t data shared :
  writable path_id data →
  write_paths path_id t (embed_times shared) data =
    Ret ((λ w : Write, w.1.1) <$> updates path_id data, embed_times (write_at shared t (updates path_id data))).
Proof.
  intros Hall. revert shared. induction Hall as [|[[path s] z] data [w Hw] _ IH]; intros shared; [done|].
  cbn [write_paths]. destruct w as [[e a] v]. simpl in Hw. rewrite (write_path_spec _ _ _ _ e a v Hw). cbn [obind].
  change (<[t := _]> shared) with (write_at shared t [(e, a, v)]). rewrite IH. cbn [obind].
  rewrite write_at_cons. assert (updates path_id ((path, s, z) :: data) = (e, a, v) :: updates path_id data) as ->; [|done].
  unfold updates. csimpl. by rewrite Hw.
Qed.

(** *** Messages of keys *)

Definition queued (q : list (T * list string)) (s : T) : gset string :=
  foldr (λ message acc, if decide (message.1 = s) then list_to_set message.2 ∪ acc else acc) ∅ q.

Lemma queued_app q q' s : queued (q ++ q') s = queued q s ∪ queued q' s.
Proof. induction q as [|m q IH]; simpl; [set_solver|]. rewrite IH. case_decide; set_solver. Qed.

Lemma lookup_receive_keys q keys s :
  default ∅ (foldl receive_keys keys q !! s) = default ∅ (keys !! s) ∪ queued q s.
Proof.
  revert keys. induction q as [|[t l] q IH]; intros keys; simpl; [set_solver|].
  rewrite IH. unfold receive_keys at 1. simpl. case_decide as Heq.
  - subst. rewrite lookup_insert_eq. simpl. set_solver.
  - by rewrite lookup_insert_ne.
Qed.

(** *** Writing the paths of several times *)

Definition waiting (buffer : gmap T (list PathDiff)) (s : T) : list PathDiff := default [] (buffer !! s).

Lemma write_times_spec path_id buffer shared times :
  NoDup times → (∀ s, writable path_id (waiting buffer s)) →
  ∃ buffer' shared' sent,
    write_times path_id buffer (embed_times shared) times = Ret (buffer', embed_times shared', sent) ∧
    (∀ s, waiting buffer' s = if decide (s ∈ times) then [] else waiting buffer s) ∧
    (∀ s, shared' !! s = if decide (s ∈ times) then write_at shared s (updates path_id (waiting buffer s)) !! s
                         else shared !! s) ∧
    (∀ s, queued sent s = if decide (s ∈ times) then written (updates path_id (waiting buffer s)) else ∅).
Proof.
  intros Hnd. revert buffer shared. induction Hnd as [|t times Ht Hnd IH]; intros buffer shared Hw.
  { exists buffer, shared, []. split_and!; [done|intros s; by rewrite decide_False by set_solver..]. }
  cbn [write_times]. destruct (buffer !! t) as [data|] eqn:Hb.
  - assert (waiting buffer t = data) as Hd by (unfold waiting; by rewrite Hb).
    rewrite write_paths_spec by (rewrite <- Hd; apply Hw). cbn [obind].
    destruct (IH (delete t buffer) (write_at shared t (updates path_id data)))
      as (buffer' & shared' & sent & -> & Hbuf & Hsh & Hq).
    { intros s. unfold waiting. rewrite lookup_delete. case_decide; [constructor|apply Hw]. }
    eexists _, shared', _. split; [done|].
    assert (∀ s, waiting (delete t buffer) s = if decide (s = t) then [] else waiting buffer s) as Hdel.
    { intros s. unfold waiting. rewrite lookup_delete. repeat case_decide; naive_solver. }
    split_and!; intros s; rewrite ?Hbuf, ?Hsh; cbn [queued foldr fst snd]; fold (queued sent s); rewrite ?Hq, ?Hdel;
      destruct (decide (s = t)) as [->|Hne].
    + rewrite decide_False, decide_True by set_solver. done.
    + by destruct (decide (s ∈ times)); [rewrite decide_True by set_solver|rewrite decide_False by set_solver].
    + rewrite decide_False, decide_True by set_solver. by rewrite Hd.
    + rewrite !lookup_write_at. rewrite !(decide_False (P := s = t)) by done.
      rewrite !(decide_True (P := s = s)) by done.
      by destruct (decide (s ∈ times)); [rewrite decide_True by set_solver|rewrite decide_False by set_solver].
    + rewrite decide_True, (decide_False (P := t ∈ times)), (decide_True (P := t ∈ t :: times)) by set_solver.
      rewrite Hd, (right_id_L ∅ (∪)). done.
    + rewrite (decide_False (P := t = s)) by done.
      by destruct (decide (s ∈ times)); [rewrite decide_True by set_solver|rewrite decide_False by set_solver].
  - destruct (IH buffer shared Hw) as (buffer' & shared' & sent & -> & Hbuf & Hsh & Hq).
    assert (waiting buffer t = []) as Hd by (unfold waiting; by rewrite Hb).
    exists buffer', shared', sent. split; [done|].
    split_and!; intros s; rewrite ?Hbuf, ?Hsh, ?Hq; destruct (decide (s = t)) as [->|Hne];
      rewrite ?(decide_False (P := t ∈ times)), ?(decide_True (P := t ∈ t :: times)), ?Hd by set_solver; try done;
      by destruct (decide (s ∈ times)); [rewrite decide_True by set_solver|rewrite decide_False by set_solver].
Qed.

(** *** Merging the maps of a time *)

Lemma extend_entry_embed m e r :
  extend_entry (embed m) e (JObject r) = Ret (embed (<[e := r ∪ default ∅ (m !! e)]> m)).
Proof.
  unfold extend_entry, embed. rewrite lookup_fmap, fmap_insert.
  by destruct (m !! e).
Qed.

Lemma extend_entries_embed (l : list (string * gmap string JValue)) m :
  NoDup l.*1 →
  extend_entries (embed m) (prod_map id JObject <$> l) = Ret (embed (overlay (list_to_map l) m)).
Proof.
  revert m. induction l as [|[e r] l IH]; intros m Hnd; [simpl; by rewrite overlay_empty|].
  csimpl in Hnd. apply NoDup_cons in Hnd as [He Hnd]. rewrite fmap_cons. cbn [extend_entries prod_map fst snd id].
  rewrite extend_entry_embed. cbn [obind].
  rewrite IH by done. do 2 f_equal. apply map_eq. intros x. rewrite !lookup_overlay.
  destruct (decide (x = e)) as [->|Hne].
  - rewrite !lookup_insert_eq, not_elem_of_list_to_map_1 by done. cbn [list_to_map foldr].
    rewrite lookup_insert_eq. by destruct (m !! e); simpl; rewrite ?(right_id_L ∅ (∪)).
  - cbn [list_to_map foldr]. by rewrite !lookup_insert_ne.
Qed.

Lemma extend_entries_map d m : extend_entries (embed m) (map_to_list (embed d)) = Ret (embed (overlay d m)).
Proof.
  unfold embed at 2. rewrite map_to_list_fmap, extend_entries_embed by apply NoDup_fst_map_to_list.
  by rewrite list_to_map_to_list.
Qed.

(** *** Required attributes *)

Definition has_required (r : gmap string JValue) : bool :=
  forallb (λ aid, bool_decide (is_Some (r !! aid))) required_aids.

(** The changed entities without a required attribute are forgotten. *)
Definition keep (changed : gset string) (m : Entities) : Entities :=
  filter (λ er, er.1 ∉ changed ∨ has_required er.2 = true) m.

Lemma lookup_keep changed m e :
  keep changed m !! e = match m !! e with
    | Some r => if bool_decide (e ∈ changed) && negb (has_required r) then None else Some r
    | None => None
    end.
Proof.
  unfold keep. rewrite map_lookup_filter. destruct (m !! e) as [r|]; [|done]. simpl.
  destruct (decide (e ∈ changed)) as [He|He].
  - rewrite bool_decide_true by done. destruct (has_required r); simpl.
    + rewrite option_guard_True by tauto. done.
    + rewrite option_guard_False; [done|]. intros [?|?]; done.
  - rewrite bool_decide_false by done. simpl. rewrite option_guard_True by tauto. done.
Qed.

Lemma lacks_required_embed m e :
  lacks_required required_aids (embed m) e =
  Ret (match m !! e with Some r => negb (has_required r) | None => false end).
Proof.
  unfold lacks_required, embed. rewrite lookup_fmap. destruct (m !! e) as [r|]; [|done]. simpl.
  case_bool_decide as Hr; [|done]. unfold has_required. by rewrite Hr.
Qed.

Lemma excise_embed keys m before :
  excise required_aids (embed m) (embed before) keys =
  Ret (embed (foldl (λ m e, match before !! e with
    | Some r => if has_required r then m else delete e m
    | None => m
    end) m keys)).
Proof.
  revert m. induction keys as [|e keys IH]; intros m; [done|]. cbn [excise foldl].
  rewrite lacks_required_embed. cbn [obind]. rewrite <- IH. f_equal.
  destruct (before !! e) as [r|]; [|done]. destruct (has_required r); simpl; [done|].
  unfold embed. by rewrite fmap_delete.
Qed.

Lemma excise_keep keys changed m :
  (∀ e, e ∈ keys ↔ e ∈ changed) → excise required_aids (embed m) (embed m) keys = Ret (embed (keep changed m)).
Proof.
  intros Hk. rewrite excise_embed. do 2 f_equal. apply map_eq. intros x. rewrite lookup_keep.
  assert (∀ k : Entities, (∀ e, k !! e = m !! e ∨ k !! e = None) → foldl (λ m' e, match m !! e with
      | Some r => if has_required r then m' else delete e m'
      | None => m' end) k keys !! x =
    if bool_decide (x ∈ keys) && match m !! x with Some r => negb (has_required r) | None => false end
    then None else k !! x) as Hf.
  { clear Hk. induction keys as [|e keys IH]; intros k Hkm; [done|]. cbn [foldl]. rewrite IH.
    - destruct (decide (x = e)) as [->|Hne].
      + rewrite (bool_decide_true (e ∈ e :: keys)) by set_solver.
        destruct (m !! e) as [r|]; [|by case_bool_decide]. destruct (has_required r); [by case_bool_decide|].
        rewrite lookup_delete_eq. by case_bool_decide.
      + rewrite (bool_decide_ext (x ∈ e :: keys) (x ∈ keys)) by set_solver. destruct (_ && _); [done|].
        destruct (m !! e) as [r|]; [|done]. destruct (has_required r); [done|]. by rewrite lookup_delete_ne.
    - intros e'. destruct (m !! e) as [r|]; [|apply Hkm]. destruct (has_required r); [apply Hkm|].
      destruct (decide (e = e')) as [->|]; [right; apply lookup_delete_eq|]. rewrite lookup_delete_ne by done. apply Hkm. }
  rewrite Hf by (intros; by left). rewrite (bool_decide_ext _ _ (Hk x)).
  destruct (m !! x) as [r|]; simpl; [|by rewrite andb_false_r]. by destruct (_ && _).
Qed.

(** *** The reference: one time after the other *)

Definition complete_time (m : Entities) (ws : list Write) : Entities := keep (written ws) (writes m ws).

Definition snapshots (m : Entities) (t : T) (ws : list Write) : list Output :=
  omap (λ e, (λ r, Json "test" (JObject r) (into_time t) 1) <$> (complete_time m ws !! e)) (key_iter (written ws)).

Fixpoint reference (writes_at : T → list Write) (m : Entities) (ts : list T) : list Output * Entities :=
  match ts with
  | [] => ([], m)
  | t :: ts =>
      let rest := reference writes_at (complete_time m (writes_at t)) ts in
      (snapshots m t (writes_at t) ++ rest.1, rest.2)
  end.

Lemma key_iter_elem keys e : e ∈ key_iter keys ↔ e ∈ keys.
Proof. rewrite key_iter_perm. apply elem_of_elements. Qed.

Lemma key_iter_empty : key_iter ∅ = [].
Proof. pose proof (key_iter_perm ∅) as Hp. rewrite elements_empty in Hp. by apply Permutation_nil_r in Hp. Qed.

Lemma snapshots_nil m t : snapshots m t [] = [].
Proof. unfold snapshots. change (written []) with (∅ : gset string). by rewrite key_iter_empty. Qed.

Lemma complete_time_nil m : complete_time m [] = m.
Proof.
  apply map_eq. intros e. unfold complete_time. rewrite lookup_keep. simpl.
  destruct (m !! e) as [r|]; [|done]. by rewrite bool_decide_false by set_solver.
Qed.

(** The maps of a time to which these writes were made. *)
Definition written_map (ws : list Write) : option Entities :=
  match ws with [] => None | _ => Some (writes ∅ ws) end.

Lemma written_map_app ws ws' shared t :
  shared !! t = written_map ws → write_at shared t ws' !! t = written_map (ws ++ ws').
Proof.
  intros Hs. rewrite lookup_write_at, decide_True, Hs by done.
  destruct ws' as [|w' ws']; [by rewrite app_nil_r|]. destruct ws as [|w ws]; [done|].
  cbn [written_map default app]. f_equal. symmetry. apply (writes_app ∅ (w :: ws)).
Qed.

(** A notification for a time that is the first of those with maps. *)
Lemma flat_notify_spec self shared m t ws :
  FlatSnapshots.shared self = embed_times shared → merged self = embed m →
  shared !! t = written_map ws → (∀ s, s ∈ dom shared → cmp_le s t = true → s = t) →
  default ∅ (change_keys self !! t) = written ws →
  ∃ self', flat_notify into_time required_aids self t = Ret (snapshots m t ws, self') ∧
    buffers self' = buffers self ∧ queue self' = queue self ∧
    FlatSnapshots.shared self' = embed_times (delete t shared) ∧ merged self' = embed (complete_time m ws) ∧
    ∀ s, default ∅ (change_keys self' !! s) = if decide (s = t) then ∅ else default ∅ (change_keys self !! s).
Proof.
  intros Hsh Hm Ht Hfirst Hkeys. unfold flat_notify. rewrite Hsh.
  replace (dom (embed_times shared)) with (dom shared) by (unfold embed_times; by rewrite dom_fmap_L).
  set (times := filter _ _).
  assert (∀ s, s ∈ times ↔ s ∈ dom shared ∧ s = t) as Htimes.
  { intros s. unfold times. rewrite list_elem_of_filter, elem_of_elements, Is_true_true. split.
    - intros [Hle Hs]. split; [done|]. by apply Hfirst.
    - intros [Hs ->]. split; [apply cmp_le_refl|done]. }
  destruct ws as [|w ws].
  - assert (times = []) as ->.
    { apply elem_of_nil_inv. intros s [Hs ->]%Htimes. apply elem_of_dom in Hs. rewrite Ht in Hs. by destruct Hs. }
    exists self. rewrite snapshots_nil, complete_time_nil. split; [done|]. split_and!; try done.
    + by rewrite delete_id.
    + intros s. case_decide as Hst; [by subst|done].
  - assert (times = [t]) as ->.
    { assert (NoDup times) as Hnd by apply NoDup_filter, NoDup_elements. apply Permutation_singleton_r.
      apply NoDup_Permutation; [done|apply NoDup_singleton|]. intros s. rewrite Htimes, list_elem_of_singleton.
      split; [by intros [_ ?]|]. intros ->. split; [|done]. apply elem_of_dom. by rewrite Ht. }
    cbn [sort_by foldl insert_sorted merge_times]. unfold embed_times. rewrite lookup_fmap, Ht. cbn [written_map fmap option_fmap option_map expect obind].
    rewrite Hm, extend_entries_map. cbn [obind]. rewrite overlay_writes, overlay_empty.
    change (written (w :: ws)) with (written (w :: ws)) in Hkeys. destruct (change_keys self !! t) as [keys|] eqn:Hck.
    + simpl in Hkeys. subst keys. rewrite (excise_keep _ (written (w :: ws))) by apply key_iter_elem. cbn [obind].
      eexists. split.
      { f_equal. f_equal. unfold snapshots, complete_time, embed. apply list_omap_ext, Forall2_same_length_lookup.
        split; [done|]. intros i e e' He He'. rewrite He in He'. injection He' as <-. rewrite lookup_fmap. by destruct (keep _ _ !! e). }
      cbn. split_and!; try done; [by rewrite fmap_delete|]. intros s.
      rewrite lookup_delete. repeat case_decide; naive_solver.
    + exfalso. simpl in Hkeys. assert (w.1.1 ∈ written (w :: ws)) as Hin by (unfold written; simpl; set_solver).
      rewrite <- Hkeys in Hin. set_solver.
Qed.

(** *** Schedules *)

(** The data of a time among the messages of a path, and in a whole run. *)
Definition data_at (arrived : list (T * list PathDiff)) (t : T) : list PathDiff :=
  arrived ≫= λ message, if decide (message.1 = t) then message.2 else [].

Definition step_data (i : nat) (t : T) (s : FlatStep T) : list PathDiff :=
  match s with
  | ChangesStep j arrived _ => if decide (j = i) then data_at arrived t else []
  | SnapshotsStep _ => []
  end.
Definition received (steps : list (FlatStep T)) (i : nat) (t : T) : list PathDiff := steps ≫= step_data i t.

(** The paths and times of the messages, and the times that complete. *)
Definition arrivals (steps : list (FlatStep T)) : list (nat * T) :=
  steps ≫= λ s, match s with ChangesStep i arrived _ => (λ message, (i, message.1)) <$> arrived | _ => [] end.
Definition completed (steps : list (FlatStep T)) : list T :=
  steps ≫= λ s, match s with SnapshotsStep due => due | _ => [] end.

(** When a time completes, the frontiers of all paths have passed the messages up to
    it, and no others arrive; [open] are the messages they have not passed. *)
Fixpoint punctual (open : list (nat * T)) (steps : list (FlatStep T)) : Prop :=
  match steps with
  | [] => True
  | ChangesStep i arrived frontier :: steps =>
      punctual (filter (λ it, it.1 ≠ i ∨ antichain_less_equal frontier it.2 = true)
        (open ++ ((λ message, (i, message.1)) <$> arrived))) steps
  | SnapshotsStep due :: steps =>
      (∀ t i s, t ∈ due → (i, s) ∈ open ++ arrivals steps → cmp_le s t = false) ∧ punctual open steps
  end.

(** What timely promises: times complete in order, every time with messages up to a
    completed one is completed, and punctually. *)
Record timely_schedule (steps : list (FlatStep T)) : Prop := {
  sch_ordered : StronglySorted (λ s t, cmp_le t s = false) (completed steps);
  sch_notified i s t : (i, s) ∈ arrivals steps → t ∈ completed steps → cmp_le s t = true → s ∈ completed steps;
  sch_punctual : punctual [] steps
}.

(** The messages are for paths there are, and can be written. *)
Definition step_ok (s : FlatStep T) : Prop :=
  match s with
  | ChangesStep i arrived _ => ∃ path_id, paths !! i = Some path_id ∧ ∀ t, writable path_id (data_at arrived t)
  | SnapshotsStep _ => True
  end.

Definition all_updates (data : nat → list PathDiff) : list Write :=
  concat (imap (λ i path_id, updates path_id (data i)) paths).

Lemma waiting_stash arrived buffer s : waiting (foldl stash buffer arrived) s = waiting buffer s ++ data_at arrived s.
Proof.
  revert buffer. induction arrived as [|[t data] arrived IH]; intros buffer; csimpl; [by rewrite app_nil_r|].
  rewrite IH. unfold data_at. csimpl. unfold waiting at 1, stash. simpl. case_decide as Heq.
  - subst. rewrite lookup_insert_eq. simpl. by rewrite <- app_assoc.
  - by rewrite lookup_insert_ne.
Qed.

Lemma data_at_arrived (i : nat) (arrived : list (T * list PathDiff)) t :
  data_at arrived t ≠ [] → (i, t) ∈ (λ message, (i, message.1)) <$> arrived.
Proof.
  induction arrived as [|[s data] arrived IH]; [done|]. unfold data_at. csimpl. case_decide as Heq; [set_solver|].
  rewrite app_nil_l. intros Hd. right. by apply IH.
Qed.

(** With attributes of their own, the updates of a path can be told apart. *)
Lemma of_attribute_updates a path_id data :
  of_attribute a (updates path_id data) = if decide (flat_attribute path_id = Some a) then updates path_id data else [].
Proof.
  unfold of_attribute. case_decide as Ha.
  - assert (∀ w, w ∈ updates path_id data → w.1.2 = a) as Hall by (intros; by eapply updates_attribute).
    revert Hall. generalize (updates path_id data) as l. induction l as [|w l IH]; intros Hl; [done|].
    rewrite filter_cons_True by (apply Hl; set_solver). f_equal. apply IH. set_solver.
  - apply filter_none. intros w (p & _ & Hw)%list_elem_of_omap Heq. destruct w as [[e a'] v].
    apply path_write_pointer in Hw as (_ & Hw & _). simpl in Heq. congruence.
Qed.
Context (Hdistinct : NoDup (flat_attribute <$> paths)).

(** All updates of a path are among those of all paths, and the only ones of its
    attribute. *)
Lemma all_updates_attribute data a :
  of_attribute a (all_updates data) =
  match list_find (λ path_id, flat_attribute path_id = Some a) paths with
  | Some (i, path_id) => updates path_id (data i)
  | None => []
  end.
Proof.
  unfold all_updates. clear into_time required_aids. revert data. induction paths as [|path_id l IH]; intros data; [done|].
  rewrite fmap_cons in Hdistinct. apply NoDup_cons in Hdistinct as [Hin Hnd]. rewrite imap_cons. cbn [concat].
  rewrite of_attribute_app, of_attribute_updates. cbn [list_find].
  rewrite (imap_ext (((λ i path_id, updates path_id (data i)) ∘ S)) (λ i path_id, updates path_id (data (S i))) l) by done.
  rewrite (IH Hnd (λ i, data (S i))). case_decide as Ha.
  - assert (list_find (λ path_id, flat_attribute path_id = Some a) l = None) as ->; [|by rewrite app_nil_r].
    apply list_find_None, Forall_forall. intros p Hp Heq. apply Hin. rewrite Ha, <- Heq.
    by apply list_elem_of_fmap_2.
  - simpl. destruct (list_find _ l) as [[j p]|]; done.
Qed.

Lemma all_updates_snoc data data' i path_id extra a :
  paths !! i = Some path_id → (∀ j, j ≠ i → data' j = data j) → data' i = data i ++ extra →
  of_attribute a (all_updates data') = of_attribute a (all_updates data ++ updates path_id extra).
Proof.
  intros Hi Hother Hdata. rewrite of_attribute_app, !all_updates_attribute, of_attribute_updates.
  destruct (list_find (λ p, flat_attribute p = Some a) paths) as [[j p]|] eqn:Hf.
  - apply list_find_Some in Hf as (Hj & Ha & _). destruct (decide (j = i)) as [->|Hne].
    + assert (p = path_id) as -> by congruence. rewrite decide_True by done. by rewrite Hdata, updates_app.
    + rewrite Hother by done. rewrite decide_False; [by rewrite app_nil_r|]. intros Ha'. apply Hne.
      eapply (NoDup_lookup (flat_attribute <$> paths)); [done|rewrite list_lookup_fmap, Hj; simpl; by rewrite Ha|].
      rewrite list_lookup_fmap, Hi. simpl. by rewrite Ha'.
  - apply list_find_None, Forall_lookup with (i := i) (x := path_id) in Hf; [|done]. by rewrite decide_False.
Qed.

(** The reference only depends on the order of the writes of each attribute. *)
Lemma reference_ext f g m ts :
  (∀ t a, t ∈ ts → of_attribute a (f t) = of_attribute a (g t)) → reference f m ts = reference g m ts.
Proof.
  revert m. induction ts as [|t ts IH]; intros m Hfg; [done|]. cbn [reference].
  assert (∀ a, of_attribute a (f t) = of_attribute a (g t)) as Ht by (intros a; apply Hfg; set_solver).
  unfold snapshots, complete_time. rewrite (writes_by_attribute (f t) (g t)), (written_by_attribute (f t) (g t)) by done.
  by rewrite IH by set_solver.
Qed.
(** *** Between two activations *)

(** The paths held back for a time. *)
Definition held (self : FlatState) (i : nat) (t : T) : list PathDiff := waiting (default ∅ (buffers self !! i)) t.

(** The writes [log] of every time that is not complete are in the shared maps. *)
Record flat_ok (self : FlatState) (m : Entities) (log : T → list Write) (open : list (nat * T)) : Prop := {
  fo_shared : ∃ maps, shared self = embed_times maps ∧ ∀ t, maps !! t = written_map (log t);
  fo_merged : merged self = embed m;
  fo_keys t : default ∅ (change_keys self !! t) ∪ queued (queue self) t = written (log t);
  fo_writable i path_id t : paths !! i = Some path_id → writable path_id (held self i t);
  fo_open i t : held self i t ≠ [] → (i, t) ∈ open
}.

Lemma flat_start_ok : flat_ok flat_start ∅ (λ _, []) [].
Proof.
  split; try done.
  - exists ∅. done.
  - intros i path_id t _. unfold held. simpl. rewrite lookup_empty. constructor.
Qed.

Abbreviation opened open i arrived frontier :=
  (filter (λ it : nat * T, it.1 ≠ i ∨ antichain_less_equal frontier it.2 = true)
    (open ++ ((λ message : T * list PathDiff, (i, message.1)) <$> arrived))) (only parsing).

Lemma changes_step_ok self m log open i path_id arrived frontier :
  flat_ok self m log open → paths !! i = Some path_id → (∀ t, writable path_id (data_at arrived t)) →
  ∃ self' log', changes_step paths self i arrived frontier = Ret self' ∧
    flat_ok self' m log' (opened open i arrived frontier) ∧
    (∀ j t, j ≠ i → held self' j t = held self j t) ∧
    (∀ t, log' t ++ updates path_id (held self' i t) = log t ++ updates path_id (held self i t ++ data_at arrived t)) ∧
    (∀ t, log' t ≠ [] → log t ≠ [] ∨ (i, t) ∈ open ++ ((λ message, (i, message.1)) <$> arrived)).
Proof.
  intros [(maps & Hsh & Hmaps) Hm Hkeys Hw Hopen] Hi Harr. unfold changes_step. rewrite Hi. cbn [expect obind].
  set (buffer := foldl stash _ arrived).
  assert (∀ t, waiting buffer t = held self i t ++ data_at arrived t) as Hbuf by (intros; apply waiting_stash).
  set (times := sort_by _ _).
  assert (∀ t, t ∈ times ↔ t ∈ dom buffer ∧ antichain_less_equal frontier t = false) as Htimes.
  { intros t. unfold times. rewrite sort_by_perm, list_elem_of_filter, elem_of_elements, Is_true_true, negb_true_iff. tauto. }
  assert (NoDup times) as Hnd by (unfold times; rewrite sort_by_perm; apply NoDup_filter, NoDup_elements).
  assert (∀ t, writable path_id (waiting buffer t)) as Hwb.
  { intros t. rewrite Hbuf. apply Forall_app. split; [by apply Hw|apply Harr]. }
  rewrite Hsh. destruct (write_times_spec path_id buffer maps times Hnd Hwb)
    as (buffer' & maps' & sent & -> & Hbuf' & Hmaps' & Hsent). cbn [obind].
  set (self' := mkFlat _ _ _ _ _).
  assert (∀ t, held self' i t = waiting buffer' t) as Hheld by (intros t; unfold held; simpl; by rewrite lookup_insert_eq).
  assert (∀ j t, j ≠ i → held self' j t = held self j t) as Hother
    by (intros j t Hj; unfold held; simpl; by rewrite lookup_insert_ne).
  assert (∀ t, waiting buffer t ≠ [] → (i, t) ∈ open ++ ((λ message, (i, message.1)) <$> arrived)) as Hin.
  { intros t. rewrite Hbuf. intros Hne. apply elem_of_app. destruct (decide (held self i t = [])) as [Hh|Hh];
      [rewrite Hh in Hne; right; by apply data_at_arrived|left; by apply Hopen]. }
  exists self', (λ t, log t ++ if decide (t ∈ times) then updates path_id (waiting buffer t) else []).
  split; [done|]. split; [split|split; [done|split]].
  - exists maps'. split; [done|]. intros t. rewrite Hmaps'. case_decide; [by apply written_map_app|by rewrite app_nil_r].
  - done.
  - intros t. simpl. rewrite queued_app, (assoc_L (∪)), Hkeys, Hsent, written_app. by case_decide.
  - intros j p t Hj. destruct (decide (j = i)) as [->|Hne]; [|rewrite Hother by done; by apply Hw].
    rewrite Hheld, Hbuf'. assert (p = path_id) as -> by congruence. case_decide; [constructor|apply Hwb].
  - intros j t Hne. apply list_elem_of_filter. simpl. destruct (decide (j = i)) as [->|Hji].
    + rewrite Hheld, Hbuf' in Hne. case_decide as Ht; [done|]. split; [right|by apply Hin].
      destruct (antichain_less_equal frontier t) eqn:Hf; [done|]. exfalso. apply Ht, Htimes. split; [|done].
      apply elem_of_dom. unfold waiting in Hne. by destruct (buffer !! t).
    + rewrite Hother in Hne by done. split; [by left|]. apply elem_of_app. left. by apply Hopen.
  - intros t. rewrite Hheld, Hbuf', <- Hbuf. rewrite <- app_assoc. f_equal. case_decide; [by rewrite app_nil_r|done].
  - intros t Hne. case_decide as Ht.
    + destruct (decide (waiting buffer t = [])) as [Hb|Hb]; [|right; by apply Hin].
      rewrite Hb, app_nil_r in Hne. by left.
    + rewrite app_nil_r in Hne. by left.
Qed.

(** Notifications, in order, of the first times with writes. *)
Lemma flat_notifications_ok due self m log open :
  flat_ok self m log open → queue self = [] → StronglySorted (λ s t, cmp_le t s = false) due →
  (∀ s t, log s ≠ [] → t ∈ due → cmp_le s t = true → s ∈ due) →
  ∃ self', flat_notifications into_time required_aids self due = Ret ((reference log m due).1, self') ∧
    flat_ok self' (reference log m due).2 (λ t, if decide (t ∈ due) then [] else log t) open ∧
    ∀ i t, held self' i t = held self i t.
Proof.
  intros Hok Hq Hs. revert self m log Hok Hq. induction Hs as [|t due Hs IH Ht]; intros self m log Hok Hq Hfirst.
  { exists self. split; [done|]. split; [|done]. destruct Hok. split; [|done|..|done|done].
    - done.
    - done. }
  destruct Hok as [(maps & Hsh & Hmaps) Hm Hkeys Hw Hopen].
  destruct (flat_notify_spec self maps m t (log t)) as (self1 & Hn & Hb & Hq1 & Hsh1 & Hm1 & Hk1); try done.
  { intros s Hsd Hle. apply elem_of_dom in Hsd. rewrite Hmaps in Hsd.
    assert (s ∈ t :: due) as [->|Hin]%elem_of_cons; [|done|].
    - apply (Hfirst s t); [|set_solver|done]. intros Hl. rewrite Hl in Hsd. by destruct Hsd.
    - rewrite Forall_forall in Ht. by rewrite Ht in Hle. }
  { rewrite <- Hkeys, Hq. simpl. by rewrite (right_id_L ∅ (∪)). }
  assert (∀ i s, held self1 i s = held self i s) as Hheld by (intros i s; unfold held; by rewrite Hb).
  destruct (IH self1 (complete_time m (log t)) (λ s, if decide (s = t) then [] else log s)) as (self' & Hrun & Hok' & Hh').
  - split.
    + exists (delete t maps). split; [done|]. intros s. rewrite lookup_delete. case_decide as Heq.
      * by rewrite decide_True.
      * rewrite decide_False by done. apply Hmaps.
    + done.
    + intros s. rewrite Hk1, Hq1, Hq. simpl. rewrite (right_id_L ∅ (∪)). case_decide; [done|].
      by rewrite <- Hkeys, Hq; simpl; rewrite (right_id_L ∅ (∪)).
    + intros i p s Hi. rewrite Hheld. by apply Hw.
    + intros i s. rewrite Hheld. apply Hopen.
  - congruence.
  - intros s u Hne Hu Hle. case_decide as Heq; [done|].
    assert (s ∈ t :: due) as [?|?]%elem_of_cons; [|done..]. apply (Hfirst s u); [done|set_solver|done].
  - assert (reference (λ s, if decide (s = t) then [] else log s) (complete_time m (log t)) due =
            reference log (complete_time m (log t)) due) as Href.
    { apply reference_ext. intros s a Hin. rewrite decide_False; [done|]. intros ->.
      rewrite Forall_forall in Ht. specialize (Ht t Hin). by rewrite cmp_le_refl in Ht. }
    rewrite Href in *. exists self'. split; [|split].
    + cbn [flat_notifications reference]. rewrite Hn. cbn [obind]. by rewrite Hrun.
    + cbn [reference snd]. destruct Hok' as [(maps' & Hs' & Hmaps') Hm' Hk' Hw' Ho']. split; [|done|..|done|done].
      * exists maps'. split; [done|]. intros s. rewrite Hmaps'. f_equal. repeat case_decide; set_solver.
      * intros s. rewrite Hk'. f_equal. repeat case_decide; set_solver.
    + intros i s. by rewrite Hh'.
Qed.
(** *** Runs *)

Lemma reference_app f m ts us :
  reference f m (ts ++ us) =
  ((reference f m ts).1 ++ (reference f (reference f m ts).2 us).1, (reference f (reference f m ts).2 us).2).
Proof.
  revert m. induction ts as [|t ts IH]; intros m; [by simpl; destruct (reference f m us)|].
  cbn [app reference fst snd]. rewrite IH. cbn [fst snd]. by rewrite app_assoc.
Qed.

Lemma received_arrivals steps i t : received steps i t ≠ [] → (i, t) ∈ arrivals steps.
Proof.
  induction steps as [|s steps IH]; [done|]. unfold received, arrivals. csimpl. intros Hne. apply elem_of_app.
  destruct (decide (step_data i t s = [])) as [Hs|Hs]; [right; apply IH; by rewrite Hs in Hne|left].
  destruct s as [j arrived frontier|due]; [|done]. simpl in Hs. case_decide as Hj; [subst|done].
  by apply data_at_arrived.
Qed.

(** The updates of a path move from its buffer to the log. *)
Lemma log_step i path_id (log log' : T → list Write) (data data' : nat → list PathDiff) extra t a more :
  paths !! i = Some path_id → (∀ j, j ≠ i → data' j = data j) →
  log' t ++ updates path_id (data' i) = log t ++ updates path_id (data i ++ extra) →
  of_attribute a (log' t ++ all_updates (λ j, data' j ++ more j)) =
  of_attribute a (log t ++ all_updates (λ j, data j ++ (if decide (i = j) then extra else []) ++ more j)).
Proof.
  intros Hi Hother Hlog. rewrite !of_attribute_app, !all_updates_attribute.
  apply (f_equal (of_attribute a)) in Hlog. rewrite !of_attribute_app, !of_attribute_updates in Hlog.
  destruct (list_find (λ p, flat_attribute p = Some a) paths) as [[j p]|] eqn:Hf.
  - apply list_find_Some in Hf as (Hj & Ha & _). destruct (decide (i = j)) as [<-|Hne].
    + assert (p = path_id) as -> by congruence. rewrite !decide_True in Hlog by done.
      rewrite updates_app, (app_assoc (data i)), updates_app, !app_assoc. by f_equal.
    + assert (flat_attribute path_id ≠ Some a) as Hne'.
      { intros Ha'. apply Hne. eapply (NoDup_lookup (flat_attribute <$> paths)); [done| |];
          rewrite list_lookup_fmap; [rewrite Hi|rewrite Hj]; simpl; [by rewrite Ha'|by rewrite Ha]. }
      rewrite (Hother j), !decide_False, !app_nil_r in * by done. by rewrite Hlog.
  - apply list_find_None, Forall_lookup with (i := i) (x := path_id) in Hf; [|done].
    rewrite !decide_False in Hlog by done. rewrite !app_nil_r in *. done.
Qed.

Lemma all_updates_nil data a : (∀ i, data i = []) → of_attribute a (all_updates data) = [].
Proof. intros Hd. rewrite all_updates_attribute. destruct (list_find _ _) as [[i p]|]; [by rewrite Hd|done]. Qed.

(** The updates of a time: those in the maps, those held back and those to come. *)
Definition expected (self : FlatState) (log : T → list Write) (steps : list (FlatStep T)) (t : T) : list Write :=
  log t ++ all_updates (λ i, held self i t ++ received steps i t).

Lemma flat_run_ok steps self m log open :
  flat_ok self m log open → Forall step_ok steps →
  StronglySorted (λ s t, cmp_le t s = false) (completed steps) → punctual open steps →
  (∀ s t, (log s ≠ [] ∨ ∃ i, (i, s) ∈ open ++ arrivals steps) → t ∈ completed steps → cmp_le s t = true →
          s ∈ completed steps) →
  ∃ self', flat_run into_time paths required_aids self steps =
      Ret ((reference (expected self log steps) m (completed steps)).1, self') ∧
    merged self' = embed (reference (expected self log steps) m (completed steps)).2.
Proof.
  intros Hok Hsteps. revert self m log open Hok. induction Hsteps as [|s steps Hs Hsteps IH]; intros self m log open Hok Hsorted Hp Hn.
  { exists self. split; [done|apply Hok]. }
  destruct s as [i arrived frontier|due].
  - destruct Hs as (path_id & Hi & Harr).
    destruct (changes_step_ok self m log open i path_id arrived frontier Hok Hi Harr)
      as (self1 & log1 & Hstep & Hok1 & Hother & Hlog & Hnew).
    destruct (IH self1 m log1 _ Hok1) as (self' & Hrun & Hm'); [done|exact Hp| |].
    { intros s t Hcase. apply Hn. unfold arrivals in *. csimpl. rewrite app_assoc. destruct Hcase as [Hl|[j Hj]].
      - apply Hnew in Hl as [Hl|Hl]; [by left|]. right. exists i. apply elem_of_app. by left.
      - right. exists j. apply elem_of_app in Hj as [[_ Hj]%list_elem_of_filter|Hj]; apply elem_of_app; [by left|by right]. }
    assert (reference (expected self1 log1 steps) m (completed steps) =
      reference (expected self log (ChangesStep i arrived frontier :: steps)) m (completed steps)) as Href.
    { apply reference_ext. intros t a _. unfold expected.
      apply (log_step i path_id log log1 (λ j, held self j t) (λ j, held self1 j t) (data_at arrived t)); auto. }
    exists self'. cbn [flat_run flat_step]. rewrite Hstep. cbn [obind]. rewrite Hrun, Href in *. done.
  - unfold completed in Hsorted, Hn. csimpl in Hsorted. csimpl in Hn. fold (completed steps) in Hsorted, Hn.
    apply StronglySorted_app in Hsorted as (Hlt & Hsd & Hsr).
    destruct Hp as [Hdue Hp].
    assert (∀ i t, t ∈ due → held self i t = [] ∧ received steps i t = []) as Hnone.
    { intros i t Ht. split; [destruct (decide (held self i t = [])) as [|Hne]; [done|]|
        destruct (decide (received steps i t = [])) as [|Hne]; [done|]]; exfalso.
      - apply (fo_open _ _ _ _ Hok) in Hne. specialize (Hdue t i t Ht). rewrite cmp_le_refl in Hdue.
        specialize (Hdue ltac:(set_solver)). done.
      - apply received_arrivals in Hne. specialize (Hdue t i t Ht). rewrite cmp_le_refl in Hdue.
        specialize (Hdue ltac:(set_solver)). done. }
    set (self0 := mkFlat (buffers self) (shared self) [] (foldl receive_keys (change_keys self) (queue self)) (merged self)).
    assert (flat_ok self0 m log open) as Hok0.
    { destruct Hok. split; try done. intros t. simpl. rewrite lookup_receive_keys, (right_id_L ∅ (∪)). done. }
    destruct (flat_notifications_ok due self0 m log open Hok0) as (self1 & Hnot & Hok1 & Hheld); [done..| |].
    { intros s t Hl Ht Hle. assert (s ∈ due ++ completed steps) as [?|Hs']%elem_of_app; [|done|].
      - apply (Hn s t); [by left|set_solver|done].
      - specialize (Hlt t s Ht Hs'). simpl in Hlt. congruence. }
    destruct (IH self1 _ _ open Hok1 Hsr Hp) as (self' & Hrun & Hm').
    { intros s t Hcase Ht Hle. assert (s ∈ due ++ completed steps) as Hin.
      { apply (Hn s t); [|set_solver|done]. destruct Hcase as [Hl|?]; [left|by right]. by case_decide. }
      apply elem_of_app in Hin as [Hin|?]; [exfalso|done]. destruct Hcase as [Hl|[i Hi]]; [by rewrite decide_True in Hl|].
      specialize (Hdue s i s Hin Hi). by rewrite cmp_le_refl in Hdue. }
    assert (reference log m due = reference (expected self log (SnapshotsStep due :: steps)) m due) as Hdref.
    { apply reference_ext. intros t a Ht. unfold expected. rewrite of_attribute_app, all_updates_nil, app_nil_r; [done|].
      intros i. destruct (Hnone i t Ht) as [-> Hr]. exact Hr. }
    assert (∀ m, reference (expected self1 (λ t, if decide (t ∈ due) then [] else log t) steps) m (completed steps) =
      reference (expected self log (SnapshotsStep due :: steps)) m (completed steps)) as Hrref.
    { intros m'. apply reference_ext. intros t a Ht. unfold expected. rewrite decide_False.
      - rewrite !of_attribute_app, !all_updates_attribute. destruct (list_find _ _) as [[i p]|]; [|done]. by rewrite Hheld.
      - intros Hd. specialize (Hlt t t Hd Ht). simpl in Hlt. by rewrite cmp_le_refl in Hlt. }
    exists self'. cbn [flat_run flat_step]. unfold snapshots_step. fold self0. rewrite Hnot. cbn [obind].
    unfold completed. csimpl. fold (completed steps). rewrite reference_app. cbn [fst snd].
    rewrite Hrun. cbn [obind]. rewrite Hdref, Hrref in *. done.
Qed.
Lemma expected_start steps t :
  expected flat_start (λ _, []) steps t = all_updates (λ i, received steps i t).
Proof. done. Qed.

(** C17 (flat snapshots do not depend on the schedule).  Let the paths write
    different attributes, the messages be well-formed, and times complete as timely
    promises: in order, and when the frontiers of all paths have passed them.
    However the messages are cut and the activations interleaved, the operators do
    not panic, and send exactly what the reference sends, which writes the updates
    of one completed time after the other, path by path, forgets changed entities
    without a required attribute, and sends the others as they are then. *)
Theorem flat_schedule_independent steps :
  timely_schedule steps → Forall step_ok steps →
  let at_time t := all_updates (λ i, received steps i t) in
  ∃ self, flat_run into_time paths required_aids flat_start steps =
      Ret ((reference at_time ∅ (completed steps)).1, self) ∧
    merged self = embed (reference at_time ∅ (completed steps)).2.
Proof.
  intros [Hs Hn Hp] Hok at_time.
  destruct (flat_run_ok steps flat_start ∅ (λ _, []) [] flat_start_ok Hok Hs Hp) as (self & Hrun & Hm).
  { intros s t [?|[i Hi]] Ht Hle; [done|]. by apply (Hn i s t). }
  exists self. done.
Qed.

(** *** What the reference sends *)

Lemma elem_of_required r aid : has_required r = true → aid ∈ required_aids → is_Some (r !! aid).
Proof.
  unfold has_required. rewrite forallb_forall. intros Hr Ha. apply list_elem_of_In, Hr in Ha.
  by apply bool_decide_eq_true in Ha.
Qed.

Lemma snapshots_required m t ws out :
  out ∈ snapshots m t ws →
  ∃ e r, out = Json "test" (JObject r) (into_time t) 1 ∧ complete_time m ws !! e = Some r ∧ e ∈ written ws ∧
    ∀ aid, aid ∈ required_aids → is_Some (r !! aid).
Proof.
  unfold snapshots. intros (e & He & Hout)%list_elem_of_omap. apply key_iter_elem in He.
  destruct (complete_time m ws !! e) as [r|] eqn:Hr; [|done]. injection Hout as <-. exists e, r.
  split_and!; try done. intros aid Ha. eapply elem_of_required; [|done].
  unfold complete_time in Hr. rewrite lookup_keep in Hr. destruct (writes m ws !! e) as [r'|]; [|done].
  rewrite bool_decide_true in Hr by done. simpl in Hr. destruct (has_required r') eqn:Hh; simpl in Hr; congruence.
Qed.

Lemma reference_outputs f m ts out :
  out ∈ (reference f m ts).1 → ∃ m' t, t ∈ ts ∧ out ∈ snapshots m' t (f t).
Proof.
  revert m. induction ts as [|t ts IH]; intros m; [set_solver|]. cbn [reference fst].
  intros [Hin|Hin]%elem_of_app; [exists m, t; set_solver|]. destruct (IH _ Hin) as (m' & t' & ? & ?). exists m', t'. set_solver.
Qed.

(** (snapshots are complete).  In the same situation every output is a snapshot of an
    entity at a completed time, and has all required attributes. *)
Theorem flat_snapshots_complete steps out self :
  timely_schedule steps → Forall step_ok steps →
  flat_run into_time paths required_aids flat_start steps = Ret (out, self) →
  Forall (λ o, ∃ t r, o = Json "test" (JObject r) (into_time t) 1 ∧ t ∈ completed steps ∧
    ∀ aid, aid ∈ required_aids → is_Some (r !! aid)) out.
Proof.
  intros Hs Hok Hrun. destruct (flat_run_ok steps flat_start ∅ (λ _, []) [] flat_start_ok Hok) as (self' & Hrun' & _);
    try apply Hs.
  { intros s t [?|[i Hi]] Ht Hle; [done|]. by apply (sch_notified _ Hs i s t). }
  rewrite Hrun in Hrun'. injection Hrun' as -> _. apply Forall_forall. intros o Ho.
  apply reference_outputs in Ho as (m & t & Ht & (e & r & -> & _ & _ & Hr)%snapshots_required). by exists t, r.
Qed.
End operators.

(** Without required attributes nothing is forgotten. *)
Lemma reference_writes `{EV : ExternValues, KI : KeyIteration} {T} (into_time : T → Time) (f : T → list Write) m ts :
  (reference into_time [] f m ts).2 = writes m (ts ≫= f).
Proof.
  revert m. induction ts as [|t ts IH]; intros m; [done|]. cbn [reference snd mbind list_bind].
  rewrite IH, writes_app. f_equal. unfold complete_time. apply map_eq. intros e. rewrite lookup_keep.
  destruct (writes m (f t) !! e); [|done]. simpl. by rewrite andb_false_r.
Qed.

(** An attribute of an entity has the value written last. *)
Lemma lookup_writes m ws e a :
  (writes m ws !! e ≫= λ r, r !! a) =
  match last (filter (λ w : Write, w.1 = (e, a)) ws) with Some w => Some w.2 | None => m !! e ≫= λ r, r !! a end.
Proof.
  induction ws as [|w ws IH] using rev_ind; [done|].
  rewrite writes_app, filter_app, filter_cons, filter_nil. unfold writes at 1. simpl. unfold write.
  destruct w as [[e' a'] v]. simpl. case_decide as Hw.
  - injection Hw as -> ->. rewrite last_snoc, lookup_insert_eq. simpl. by rewrite lookup_insert_eq.
  - rewrite app_nil_r, <- IH. fold (writes m ws). destruct (decide (e' = e)) as [->|Hne]; [|by rewrite lookup_insert_ne].
    rewrite lookup_insert_eq. simpl. rewrite lookup_insert_ne by congruence. by destruct (writes m ws !! e).
Qed.

(** The order of the operators does not depend on how the map is iterated. *)
Lemma sorted_paths_keys `{EV : ExternValues, DF : Differential} (PI : PathIteration) (m : gmap (list Aid) (Collection (list Value) Z)) :
  sorted_paths m = omap (λ k, (k,.) <$> m !! k) (sort_by cmp_le (elements (dom m))).
Proof.
  unfold sorted_paths. set (l := sort_by _ (path_iter m)).
  assert (l ≡ₚ map_to_list m) as Hp by (unfold l; rewrite sort_by_perm; apply path_iter_perm).
  assert (sort_by cmp_le (elements (dom m)) = l.*1) as ->.
  { assert (AntiSymm (=) (λ a b : list Aid, cmp_le a b = true)) by (intros a b; apply cmp_le_antisym).
    apply (StronglySorted_unique (λ a b : list Aid, cmp_le a b = true)).
    - apply sort_by_sorted; [apply cmp_le_total|apply cmp_le_trans].
    - assert (StronglySorted (λ p q : list Aid * _, cmp_le p.1 q.1 = true) l) as Hs
        by (apply sort_by_sorted; [intros; apply cmp_le_total|intros x y z; apply cmp_le_trans]).
      clear Hp. induction Hs as [|p l Hs IH Hall]; csimpl; constructor; [done|]. by apply Forall_fmap.
    - rewrite sort_by_perm, Hp. apply NoDup_Permutation; [apply NoDup_elements|apply NoDup_fst_map_to_list|].
      intros k. rewrite elem_of_elements, elem_of_dom, list_elem_of_fmap. split.
      + intros [v Hv]. exists (k, v). split; [done|]. by apply elem_of_map_to_list.
      + intros ([k' v] & -> & Hv). apply elem_of_map_to_list in Hv. by exists v. }
  assert (∀ p, p ∈ l → m !! p.1 = Some p.2) as Hl.
  { intros [k v]. rewrite Hp. intros Hv. by apply elem_of_map_to_list in Hv. }
  clear Hp. induction l as [|[k v] l IH]; [done|]. csimpl. pose proof (Hl (k, v)) as Hk. simpl in Hk.
  rewrite Hk by set_solver. simpl. f_equal. apply IH. set_solver.
Qed.

Lemma sorted_paths_deterministic `{EV : ExternValues, DF : Differential} (PI PI' : PathIteration)
    (m : gmap (list Aid) (Collection (list Value) Z)) :
  sorted_paths (PI := PI) m = sorted_paths (PI := PI') m.
Proof. by rewrite !sorted_paths_keys. Qed.
