(* ===== verification/FlatRuns.v ===== *)
(** * Flat snapshots on concrete runs *)
From Stdlib Require Import ZArith NArith Lia Sorting.Sorted.
From stdpp Require Import base strings numbers list gmap sets sorting pretty.
From S2P Require Import Prelude Timestamps Values Outputs FlatGraphQl FlatSnapshots FlatTheorems.

Section flat_runs.
#[local] Existing Instances extern_model key_iteration_model timely_model.
Abbreviation PathDiff := (list Value * N * Z)%type (only parsing).

(** The paths of [{ name friend { age } }], and updates of theirs. *)
Definition friend_paths : list (list Aid) := [["name"]; ["friend"; "age"]].
Definition name_of (e : N) (name : string) (t : N) (diff : Z) : PathDiff := ([VEid e; VString name], t, diff).
Definition age_of (e friend : N) (age : Z) (t : N) : PathDiff := ([VEid e; VEid friend; VNumber age], t, 1%Z).

(** Two times, whose messages come together and are written at different activations. *)
Definition friend_steps : list (FlatStep N) :=
  [ChangesStep 1 [(2%N, [age_of 7 8 30 2]); (1%N, [age_of 7 8 29 1])] [2%N];
   ChangesStep 0 [(1%N, [name_of 7 "Ada" 1 1])] [1%N];
   ChangesStep 0 [(1%N, [name_of 9 "Bob" 1 1])] [2%N];
   SnapshotsStep [1%N];
   ChangesStep 1 [] [];
   ChangesStep 0 [] [];
   SnapshotsStep [2%N]].

(** Checking a schedule. *)
Fixpoint punctualb (open : list (nat * N)) (steps : list (FlatStep N)) : bool :=
  match steps with
  | [] => true
  | ChangesStep i arrived frontier :: steps =>
      punctualb (filter (λ it, it.1 ≠ i ∨ antichain_less_equal frontier it.2 = true)
        (open ++ ((λ message, (i, message.1)) <$> arrived))) steps
  | SnapshotsStep due :: steps =>
      forallb (λ t, forallb (λ it, negb (cmp_le it.2 t)) (open ++ arrivals steps)) due && punctualb open steps
  end.

Lemma punctualb_sound steps open : punctualb open steps = true → punctual open steps.
Proof.
  revert open. induction steps as [|[i arrived frontier|due] steps IH]; intros open; [done|apply IH|].
  cbn [punctualb punctual]. intros [Hd Hp]%andb_true_iff. split; [|by apply IH].
  intros t i s Ht Hi. rewrite forallb_forall in Hd. apply list_elem_of_In, Hd in Ht.
  rewrite forallb_forall in Ht. apply list_elem_of_In, Ht in Hi. simpl in Hi. by destruct (cmp_le s t).
Qed.

Definition scheduleb (steps : list (FlatStep N)) : bool :=
  bool_decide (StronglySorted (λ s t, cmp_le t s = false) (completed steps)) && forallb (λ it, bool_decide (it.2 ∈ completed steps)) (arrivals steps) &&
  punctualb [] steps.

Lemma scheduleb_sound steps : scheduleb steps = true → timely_schedule steps.
Proof.
  intros [[Hs Hn]%andb_true_iff Hp]%andb_true_iff. apply bool_decide_eq_true in Hs. split.
  - exact Hs.
  - intros i s t Hi _ _. rewrite forallb_forall in Hn. apply list_elem_of_In, Hn in Hi. by apply bool_decide_eq_true in Hi.
  - by apply punctualb_sound.
Qed.

Lemma friend_schedule : timely_schedule friend_steps.
Proof. apply scheduleb_sound. vm_refl. Qed.

Lemma friend_steps_ok : Forall (step_ok friend_paths) friend_steps.
Proof.
  assert (∀ i path_id arrived frontier, friend_paths !! i = Some path_id →
    forallb (λ message, forallb (λ p : PathDiff, bool_decide (is_Some (path_write path_id p.1.1))) message.2) arrived = true →
    step_ok friend_paths (ChangesStep i arrived frontier)) as Hok.
  { intros i path_id arrived frontier Hi Hall. exists path_id. split; [done|]. intros t. apply Forall_forall.
    intros p (message & Hp & Hm)%list_elem_of_bind. rewrite forallb_forall in Hall.
    apply list_elem_of_In, Hall in Hm. rewrite forallb_forall in Hm. case_decide; [|by apply elem_of_nil in Hp].
    apply list_elem_of_In, Hm in Hp. by apply bool_decide_eq_true in Hp. }
  repeat (apply List.Forall_cons; [first [exact I|by eapply Hok]|]). apply List.Forall_nil.
Qed.

Lemma flat_schedule_independent_witness :
  timely_schedule friend_steps ∧ Forall (step_ok friend_paths) friend_steps ∧
  NoDup (flat_attribute <$> friend_paths) ∧
  let at_time t := all_updates friend_paths (λ i, received friend_steps i t) in
  ∃ self, flat_run Time_from_u64 friend_paths [] flat_start friend_steps =
      Ret ((reference Time_from_u64 [] at_time ∅ (completed friend_steps)).1, self) ∧
    merged self = embed (reference Time_from_u64 [] at_time ∅ (completed friend_steps)).2.
Proof.
  split; [exact friend_schedule|]. split; [exact friend_steps_ok|].
  assert (NoDup (flat_attribute <$> friend_paths)) as Hnd by (by apply (bool_decide_unpack _)).
  split; [exact Hnd|].
  exact (flat_schedule_independent Time_from_u64 friend_paths [] Hnd friend_steps friend_schedule friend_steps_ok).
Defined.

(** What the client sees: the age of the friend, under the entity asked about. *)
Definition person (fields : list (string * JValue)) (t : N) : Output := Json "test" (JObject (list_to_map fields)) (TxId t) 1.
Example friend_outputs :
  obind (flat_run Time_from_u64 friend_paths [] flat_start friend_steps) (λ r, Ret r.1) =
  Ret [person [("age", JNumber 29); ("name", JString "Ada")] 1; person [("name", JString "Bob")] 1;
       person [("age", JNumber 30); ("name", JString "Ada")] 2].
Proof. vm_refl. Qed.

Lemma flat_snapshots_complete_witness :
  ∃ out self, flat_run Time_from_u64 friend_paths ["age"] flat_start friend_steps = Ret (out, self) ∧ length out = 2 ∧
  Forall (λ o, ∃ t r, o = Json "test" (JObject r) (Time_from_u64 t) 1 ∧ t ∈ completed friend_steps ∧
    ∀ aid, aid ∈ ["age"] → is_Some (r !! aid)) out.
Proof.
  assert (obind (flat_run Time_from_u64 friend_paths ["age"] flat_start friend_steps) (λ r, Ret (length r.1)) = Ret 2)
    as (r & Hrun & Hlen)%obind_Ret by vm_refl.
  injection Hlen as Hlen. destruct r as [out self]. exists out, self. split; [exact Hrun|]. split; [exact Hlen|].
  exact (flat_snapshots_complete Time_from_u64 friend_paths ["age"]
    ltac:(by apply (bool_decide_unpack _)) friend_steps out self friend_schedule friend_steps_ok Hrun).
Defined.

(** (an entity forgets what it had before).  An entity without a required attribute is
    removed from the maps with the attributes it has; when the required one comes, the
    snapshot lacks the others. *)
Definition late_name : list (FlatStep N) :=
  [ChangesStep 1 [(1%N, [age_of 7 8 29 1])] [2%N]; SnapshotsStep [1%N];
   ChangesStep 0 [(2%N, [name_of 7 "Ada" 2 1])] []; SnapshotsStep [2%N]].
Example excised_attributes_lost :
  scheduleb late_name = true ∧
  obind (flat_run Time_from_u64 friend_paths ["name"] flat_start late_name) (λ r, Ret r.1) =
    Ret [person [("name", JString "Ada")] 2].
Proof. split; vm_refl. Qed.

(** (retractions write).  The difference of an update is never looked at: a retracted
    value is written like any other, here over the one that replaces it. *)
Definition renamed : list (FlatStep N) :=
  [ChangesStep 0 [(1%N, [name_of 7 "Ada" 1 1])] [2%N]; SnapshotsStep [1%N];
   ChangesStep 0 [(2%N, [name_of 7 "Grace" 2 1; name_of 7 "Ada" 2 (-1)])] []; SnapshotsStep [2%N]].
Example retraction_writes :
  scheduleb renamed = true ∧
  obind (flat_run Time_from_u64 friend_paths [] flat_start renamed) (λ r, Ret r.1) =
    Ret [person [("name", JString "Ada")] 1; person [("name", JString "Ada")] 2].
Proof. split; vm_refl. Qed.

(** (levels share attributes).  Paths that end in the same attribute write the same
    field, and the one written last wins: here the name of the friend. *)
Definition name_paths : list (list Aid) := [["name"]; ["friend"; "name"]].
Example same_attribute :
  obind (flat_run Time_from_u64 name_paths [] flat_start
    [ChangesStep 0 [(1%N, [name_of 7 "Ada" 1 1])] []; ChangesStep 1 [(1%N, [([VEid 7; VEid 8; VString "Bob"], 1%N, 1%Z)])] [];
     SnapshotsStep [1%N]]) (λ r, Ret r.1) = Ret [person [("name", JString "Bob")] 1].
Proof. vm_refl. Qed.
End flat_runs.
